(* ===== verification/_CoqProject ===== *)
-Q . S2P
Prelude.v
RustStr.v
CoreTypes.v
UtilParse.v
FlowSyntax.v
FlowAtoms.v
FlowLexer.v
FlowLexerSpec.v
FlowLexerProps.v
FlowParser.v
FlowGrammar.v
FlowPrint.v
BTree.v
RustNet.v
Waf.v
WafProps.v
WafAudit.v
Http.v
Cache.v
CacheProps.v
Message.v
Context.v
Pipeline.v
PipelineProps.v
Router.v
RouterProps.v
Proxy.v
ProxyProps.v
Cluster.v
Gossip.v
GossipProps.v
Observe.v
ObserveProps.v
Handlers.v
Serve.v
Http3.v
Http3Server.v
ServeProps.v
Http3ServerProps.v
ConfigModel.v
Config.v
ConfigProps.v
ConfigSuggest.v
ConfigStore.v
ConfigStoreProps.v
ConfigRouter.v
ConfigRouterProps.v
ConfigLayout.v
DocConfig.v
EndToEnd.v
Control.v
ControlProps.v
Acme.v
AcmeProps.v
K8s.v
K8sProps.v
K8sServe.v
Migrate.v
MigrateProps.v
MigrateLines.v
MigrateServe.v
Net.v
NetProps.v
Secrets.v
Plugin.v
PluginProps.v
Cli.v
CliProps.v
XTask.v
