(* ===== verification/Prelude.v ===== *)
(** * Verification of the Pulsate gateway

    Pulsate is a reverse proxy.  Its control plane turns a configuration text
    in the Flow language into an immutable snapshot; its data plane matches
    each request against that snapshot, runs the route's middleware, and
    answers from a handler, the cache or an upstream pool.  Around it stand an
    admin API, a certificate client, a Kubernetes controller, importers of
    other proxies' configurations, and the command line.  Replicas share
    membership and counters by gossip.  This library models the crates that
    carry this logic, one definition per function, and proves what makes each
    of them correct.

    ** The pipeline and its models

    A text goes through [lex] and [parse] ([pulsate-flow]), [compile]
    ([pulsate-config]: lowering, validation, snapshot), is published by a
    [ConfigStore], and becomes a [Router] and a [Registry] ([build_router],
    [build_upstreams]).  A connection is accepted under a cap
    ([pulsate-net]); a request on it ([handle] of [pulsate-http], or
    [handle_request] of [pulsate-http3]) is routed ([pulsate-router]), passes
    the ingress middleware ([pulsate-pipeline], which calls [pulsate-waf]), is
    served by the cache ([pulsate-cache]), a static handler or an upstream
    ([pulsate-proxy]), and its response passes the egress middleware and is
    counted and logged ([pulsate-observe]).  [pulsate up] puts these together.

    - [Prelude]: the [exec] monad (a value, an error, a panic, or no fuel), its
      specifications, machine integers, tactics and hints.
    - [RustStr], [RustNet], [BTree]: the parts of the Rust standard library the
      code uses: UTF-8 strings and [char]s, integer parsing, IP addresses,
      ordered maps.
    - [CoreTypes], [Message], [Context]: [crates/pulsate-core] ([error.rs],
      [lifecycle.rs], [snapshot.rs]; [message.rs]; [context.rs], [traits.rs]).
    - [UtilParse]: [crates/pulsate-util] ([parse.rs], [pool.rs]).
    - [FlowSyntax], [FlowLexer], [FlowParser]: [crates/pulsate-flow]
      ([span.rs], [diag.rs], [value.rs], [ast.rs]; [lexer.rs]; [parser.rs]).
      [FlowLexerSpec] states what the tokens of a text are and proves the lexer
      against it, [FlowLexerProps] holds the lexer's theorems, [FlowGrammar]
      the grammar and the parser's, [FlowPrint] a printer of documents that the
      parser inverts, [FlowAtoms] the values that bare words are read as.
    - [ConfigModel], [Config], [ConfigStore], [ConfigRouter]:
      [crates/pulsate-config] ([model.rs], [compile.rs], [store.rs],
      [router.rs]), with [ConfigProps], [ConfigSuggest], [ConfigStoreProps] and
      [ConfigRouterProps].  [ConfigLayout] forgets positions, and [DocConfig]
      reads the configuration of a printed document off the document; both
      serve the components that generate texts.
    - [Router], [RouterProps]: [crates/pulsate-router].
    - [Http]: the [http] crate as a type class of operations ([HeaderOps]) and
      laws ([HeaderLaws]), with an instance for the witnesses.
    - [Pipeline], [PipelineProps]: [crates/pulsate-pipeline].
    - [Waf], [WafProps], [WafAudit]: [crates/pulsate-waf] ([lib.rs],
      [cidr.rs]).
    - [Cache], [CacheProps]: [crates/pulsate-cache].
    - [Proxy], [ProxyProps]: [crates/pulsate-proxy] ([lib.rs], [forward.rs]).
    - [Observe], [ObserveProps]: [crates/pulsate-observe] (request ids, the
      access log, metrics).
    - [Handlers], [Serve], [ServeProps]: [crates/pulsate-http] (the static
      handlers; the lifecycle of a request).
    - [Http3], [Http3Server], [Http3ServerProps]: [crates/pulsate-http3]
      ([lib.rs]; [server.rs]).
    - [EndToEnd]: the parts composed, from the text to the answers
      ([serve_connection] of [crates/pulsate-http], the gateway that [up.rs]
      builds).
    - [Cluster], [Gossip], [GossipProps]: [crates/pulsate-cluster] ([lib.rs];
      [gossip/wire.rs] and [gossip/mod.rs]).
    - [Control], [ControlProps]: [crates/pulsate-control] (tokens, REST, gRPC,
      the event pump) and the asset lookup of [pulsate-dashboard].
    - [Acme], [AcmeProps]: [crates/pulsate-acme], with the certificate loading
      and selection of [crates/pulsate-tls].
    - [K8s], [K8sProps]: [crates/pulsate-k8s] (translation and controller), and
      [K8sServe]: the controller composed with the compiler and the router.
    - [Migrate], [MigrateProps], [MigrateLines]: [crates/pulsate-migrate], and
      [MigrateServe]: the nginx importer composed with the compiler and the
      router.
    - [Net], [NetProps]: [crates/pulsate-net] and the runtime seam of
      [crates/pulsate-rt].
    - [Secrets]: [crates/pulsate-secrets].
    - [Plugin], [PluginProps]: [crates/pulsate-plugin], the error codes of
      [pulsate-sdk] included.
    - [Cli], [CliProps]: [crates/pulsate-cli] ([lib.rs], [up.rs], [ui.rs]) and
      the entry point [crates/pulsate].
    - [XTask]: the layering lint of [xtask].

    ** How state and effects are modelled

    A method that mutates [self] maps the old state to the new one; a method
    that can panic returns in [exec].  Integers are [Z], and arithmetic that
    can leave its width is written with its wrapping or saturation.
    [Instant] and [Duration] are nanoseconds, and each clock reading is an
    argument.  Objects shared behind an [Arc] (rate limiters, cache stores)
    live in a heap and are held by address; the world of [Serve] holds every
    object that requests share.  The configuration store, whose
    methods are not atomic, is also given as its atomic actions, which a
    schedule interleaves.  A gossip handler returns the datagrams it sends.
    The accept loop and the QUIC loops are state machines over the results of
    their polls.  The start of the gateway is a program over effects (bind,
    spawn, log, read a file) whose trace the theorems speak of.

    Parameters stand for what is outside the repository or unspecified:
    - the header map of the [http] crate, the URI parser, the HTTP client, the
      body limiter, the streams of [h3] and [quinn];
    - the HMAC of [ring], SHA-256, ES256, base64, [rcgen], the PEM readers of
      [rustls], the random bytes of the operating system;
    - the texts of [serde_json] and the [postcard] codec, the decimal printing
      of an [f64], the [Debug] renderings;
    - the hash of [DefaultHasher], the iteration order of [HashMap], the
      largest [Instant];
    - the process environment, the file system, the errors of [bind], the
      arguments that [clap] parsed;
    - the ACME server as a function of the requests it has been sent, the
      answers of the Kubernetes API, the finalizer of [kube];
    - the Wasm engine, as a type class ([Engine]) with laws ([EngineLaws]);
    - [others], what concurrent requests do to the shared state while one
      request awaits.
    Hypotheses about them state documented behaviour only: the laws of header
    maps, that [HashMap::iter] yields every entry once, that an HMAC has a
    fixed length, that tasks running during an [await] return the in-flight
    counts they took, that an engine stays within its fuel and
    calls only what is linked.

    Loops that are not structural take fuel.  The lexer's loops get one unit
    more than the text has bytes, since each iteration consumes one; the
    parser gets two per token and two more; eviction gets the number of
    entries; the nginx parser gets one more than its tokens.  The theorems show
    that the fuel suffices: [OutOfFuel] is never an outcome.

    ** The theorems

    - Configuration: [compile] accepts exactly the well-formed documents and
      publishes their lowering ([compile_correct]); the router and the pools
      built from a compiled configuration are that configuration
      ([build_router_correct], [build_upstreams_correct]); the store is safe
      and wait-free under contention ([store_concurrent]) and keeps its
      sequential contract, of which the atomic actions are a refinement
      ([store_contract]); texts that differ in layout only are compiled alike
      ([compile_layout]); suggestions are nearest in edit distance
      ([nearest_correct]).
    - Language: the lexer and the parser are total and correct for a
      declarative description of tokens and a grammar ([lex_correct],
      [parse_correct], [flow_parse_correct]), with positions in [u32] that wrap
      as the code's do and are exact for texts under 4 GiB ([located_exact]);
      string literals and whole
      documents round-trip ([lex_quote], [print_parse]).
    - Request path: the most specific route wins, by an order stated apart
      from the scores ([route_most_specific], [route_precedence]); ingress is
      a gate that stops at the first refusal, and egress nests
      ([ingress_gates], [egress_first_declared_wins]); the cache
      keeps its budget, serves what it stored, separates its keys and purges
      exactly ([cache_within_budget], [cache_store_lookup],
      [cache_key_injective], [purge_exact]); forwarding is bounded and keeps
      its counters ([forward_bounded_and_balanced]), picks only healthy targets
      ([pick_healthy], [round_robin_fair]), ejects at the threshold
      ([breaker_opens_at_threshold]) and cleans headers
      ([forwarded_headers]); the static handler never leaves its root
      ([files_confined]).
    - End to end: a gateway started from a text that compiles answers every
      request as the text says ([text_to_answers]).
    - One request: nothing is dispatched that the ingress refused
      ([handle_gated]); every request is answered and logged under its
      identifier, and leaves the shared state consistent ([handle_answers]); what
      the cache was given it serves, whatever the store went through since
      ([served_from_cache]); HTTP/3 answers as HTTP/1
      ([h3_answers_like_h1]), and its connections and endpoint drain
      ([goaway_at_most_once], [endpoint_drains]).
    - Connections: the accept loop refines a counting gate
      ([serve_refines_gate]), and after a shutdown it stops accepting and waits
      for what it accepted ([shutdown_returns], [drain_waits]); the
      other listeners stop together ([listeners_stop_together]).
    - Protection: CIDR ranges and access lists ([cidr_contains_correct],
      [acl_check_correct]), the limiter from both sides
      ([limiter_bounds_bursts], [limiter_grants_below_limit]), detection under
      encodings ([waf_sees_through_encoding]), the audit chain,
      of which an edit is seen but for one kind of splice
      ([audit_append_verifies], [audit_tamper_evident], [audit_forgeable]).
    - Administration: each endpoint asks for its scope ([rest_access_control]),
      gRPC decides as REST ([grpc_mirrors_rest]), the event pump reports every
      audit entry once ([audit_events_exactly_once]), the access log can be
      read back ([access_log_roundtrip]).
    - Certificates: requests are signed with fresh nonces
      ([requests_authentic]), polling settles where the protocol says
      ([poll_order_settles]), challenges are answered ([http01_answered]).
    - Kubernetes: the generated text parses to the translated objects
      ([generated_reads]), compiles, and becomes the routing table the objects
      describe ([resources_routed]); exactly the attached routes are published
      ([publishes_attached]), in an order independent of the listing
      ([relist_order]), and a pass reports its failures ([pass_publishes]).
    - Importers: a document in the supported subset becomes the text it means
      ([nginx_translates]), which compiles into the routing table and the pools
      of its directives, with a note for what is left out ([nginx_served]); importers always return, and what
      they return can be read ([imports_read]).
    - Command line: [pulsate up] starts what was configured or says why not
      ([up_starts]), never logs its token ([admin_token_unlogged]), drains on a
      signal ([stop_signal_drains]); [validate], [config dump] and [up] agree
      on which configurations are valid ([commands_agree]).
    - Plugins and secrets: a plugin sees only what the ABI grants and is
      stopped by its fuel ([plugin_sandboxed]), a failure has one of five
      codes, trap and fuel codes for [eval] only ([plugin_errors]); file secrets stay under their directory
      ([file_secrets_confined]).
    - Cluster: counters and views converge in any order of delivery
      ([counter_converges], [reconcile_converges]), the live view is consistent
      in every reachable state ([live_view_invariant]), a wrong suspicion is
      refuted ([refutation]), and the task ends with its handle
      ([handle_stops_loop]).
    - Shared: the error catalog and the unit parsers
      ([catalog_unique_and_classified], [parse_size_show],
      [parse_duration_show]), the buffer pool ([pool_bounded]), typed request
      extensions ([extensions_typed]), the layering lint ([lint_passes]).

    Lemmas that record surprising behaviour stand beside them:
    - language and configuration: [lex_escape_panics], [stale_publish],
      [waf_step_dropped], [wildcard_ignores_boundary];
    - requests: [refined_route_shadowed], [default_never_retries],
      [second_cache_control_ignored], [no_cache_served_stale],
      [credentials_shared], [normalize_keeps_last_value], [cached_cors_origin],
      [hyper_values], [oversize_differs], [pick_ignores_weights];
    - connections: [shutdown_unseen_at_cap], [drain_stops_early];
    - cluster: [wildcard_binding_isolates], [wildcard_counts_once],
      [address_depends_on_order];
    - administration: [rest_reload_silent];
    - certificates: [second_registration_uses_kid];
    - Kubernetes: [unchecked_path_blocks_reload], [upstream_names_collide],
      [unreadable_host_is_lost];
    - importers: [nginx_prefix_modifier_lost], [nginx_access_rules_dropped],
      [nginx_quoted_root_unreadable], [caddy_block_replaces_site],
      [haproxy_conditions_lost], [documented_example_refused],
      [regex_and_weights_lost];
    - plugins: [fuel_outside_eval], [trap_on_last_unit];
    - the lint: [workspace_dependencies_unseen].

    ** Not modelled

    Sockets, timers, the TLS and QUIC handshakes and the configuration of
    [rustls] are input and output around third-party code, as are the
    newtypes of [pulsate-rt] over [tokio], the compiler of Wasmtime, the
    argument parser of [clap], and the service machinery of [tonic] and
    [hyper].  The spinner of the terminal and the page of the dashboard are
    rendering.  Mutex poisoning is left out, since a release build aborts on
    panic; so are bounds on [Instant] in the gossip loop, and the boxed source
    chain of an error.  [pulsate-test] is scaffolding for tests. *)

From Stdlib Require Import ZArith Ascii String Lia.
From stdpp Require Import base option list gmap fin_maps strings.

(** ** The execution monad

    A Rust function that may return [Err], panic (slice or index out of
    bounds, arithmetic on [Duration]) or, as a model with fuel, stop early.  A
    theorem that says an operation returns says that neither [Panic] nor
    [OutOfFuel] is its outcome. *)
Inductive exec (E A : Type) : Type :=
| Ok (a : A)
| Err (e : E)
| Panic
| OutOfFuel.
Arguments Ok {E A} a.
Arguments Err {E A} e.
Arguments Panic {E A}.
Arguments OutOfFuel {E A}.

#[global] Instance exec_ret E : MRet (exec E) := fun A a => Ok a.
#[global] Instance exec_bind E : MBind (exec E) := fun A B f m =>
  match m with
  | Ok a => f a
  | Err e => Err e
  | Panic => Panic
  | OutOfFuel => OutOfFuel
  end.

(** The outcome is a Rust [Result]: neither a panic nor a lack of fuel. *)
Definition returns {E A} (m : exec E A) : Prop :=
  match m with Ok _ | Err _ => True | Panic | OutOfFuel => False end.

(** A specification of an outcome: [P] holds of an [Ok] value, [Q] of an
    error, and a panic happens only under [R]; the fuel suffices. *)
Definition exec_spec {E A} (m : exec E A) (P : A -> Prop) (Q : E -> Prop) (R : Prop) : Prop :=
  match m with
  | Ok a => P a
  | Err e => Q e
  | Panic => R
  | OutOfFuel => False
  end.

Lemma exec_spec_bind {E A B} (m : exec E A) (f : A -> exec E B) P Q R (P' : A -> Prop) :
  exec_spec m P' Q R -> (forall a, P' a -> exec_spec (f a) P Q R) -> exec_spec (m ≫= f) P Q R.
Proof. destruct m; simpl; auto. Qed.

Lemma exec_spec_mono {E A} (m : exec E A) (P P' : A -> Prop) (Q Q' : E -> Prop) (R R' : Prop) :
  exec_spec m P' Q' R' -> (forall a, P' a -> P a) -> (forall e, Q' e -> Q e) -> (R' -> R) ->
  exec_spec m P Q R.
Proof. destruct m; simpl; auto. Qed.

(** Sequencing after a step with its own, stronger, error conditions. *)
Lemma exec_spec_seq {E A B} (m : exec E A) (f : A -> exec E B) P (Q : E -> Prop) (R : Prop)
    (P' : A -> Prop) (Q' : E -> Prop) (R' : Prop) :
  exec_spec m P' Q' R' -> (forall e, Q' e -> Q e) -> (R' -> R) ->
  (forall a, P' a -> exec_spec (f a) P Q R) -> exec_spec (m ≫= f) P Q R.
Proof. destruct m; simpl; auto. Qed.

(** Sequence a step with the specification [H]; the two conditions on errors
    and panics come first when they are not the same. *)
Ltac exec_seq H := apply (exec_spec_seq _ _ _ _ _ _ _ _ H).

(** Weaken to the specification [H]. *)
Ltac exec_weaken H := eapply exec_spec_mono; [exact H|..].

(** Decide a closed proposition by running its decision procedure. *)
Ltac decide_closed := apply (bool_decide_unpack _); vm_compute; exact I.

Lemma exec_spec_returns {E A} (m : exec E A) P Q : exec_spec m P Q False -> returns m.
Proof. by destruct m. Qed.

Lemma bind_Ok {E A B} (m : exec E A) (f : A -> exec E B) b :
  m ≫= f = Ok b <-> exists a, m = Ok a /\ f a = Ok b.
Proof. destruct m; simpl; naive_solver. Qed.

Lemma bind_assoc {E A B C} (m : exec E A) (f : A -> exec E B) (g : B -> exec E C) :
  (m ≫= f) ≫= g = m ≫= (fun a => f a ≫= g).
Proof. by destruct m. Qed.

Lemma bind_ext {E A B} (m m' : exec E A) (f g : A -> exec E B) :
  m = m' -> (forall a, f a = g a) -> m ≫= f = m' ≫= g.
Proof. intros <- Hf. destruct m; simpl; auto. Qed.

(** ** Machine integers, as [Z] with their width written out *)
Definition u8_max : Z := 2 ^ 8 - 1.
Definition u16_max : Z := 2 ^ 16 - 1.
Definition u32_max : Z := 2 ^ 32 - 1.
Definition u64_max : Z := 2 ^ 64 - 1.
Definition u128_max : Z := 2 ^ 128 - 1.
Definition i64_min : Z := - 2 ^ 63.
Definition i64_max : Z := 2 ^ 63 - 1.

Definition wrap_u32 (z : Z) : Z := z mod 2 ^ 32.
Definition wrap_u64 (z : Z) : Z := z mod 2 ^ 64.
(** [wrapping_add] and [wrapping_mul] on [u32] and [u64]. *)
Declare Scope rust_scope.
Delimit Scope rust_scope with rust.
Notation "x +₃₂ y" := (wrap_u32 (x + y)%Z) (at level 50, left associativity) : rust_scope.
Notation "x +₆₄ y" := (wrap_u64 (x + y)%Z) (at level 50, left associativity) : rust_scope.
Notation "x -₆₄ y" := (wrap_u64 (x - y)%Z) (at level 50, left associativity) : rust_scope.
Notation "x *₆₄ y" := (wrap_u64 (x * y)%Z) (at level 40, left associativity) : rust_scope.

Definition saturating_mul_u64 (a b : Z) : Z := Z.min u64_max (a * b).
Definition checked_mul_u64 (a b : Z) : option Z :=
  if (a * b <=? u64_max)%Z then Some (a * b)%Z else None.
Definition saturating_sub (a b : Z) : Z := Z.max 0 (a - b).
(** [u16::try_from], [u32::try_from] on an [i64]. *)
Definition try_from_u (max i : Z) : option Z :=
  if ((0 <=? i) && (i <=? max))%Z then Some i else None.

Lemma wrap_u32_small z : (0 <= z <= u32_max)%Z -> wrap_u32 z = z.
Proof. unfold wrap_u32, u32_max. intros. apply Z.mod_small. lia. Qed.
Lemma wrap_u32_succ z : wrap_u32 (wrap_u32 z + 1) = wrap_u32 (z + 1).
Proof. unfold wrap_u32. apply Zplus_mod_idemp_l. Qed.
Lemma wrap_u64_small z : (0 <= z <= u64_max)%Z -> wrap_u64 z = z.
Proof. unfold wrap_u64, u64_max. intros. apply Z.mod_small. lia. Qed.

(** ** Hints

    [diagnostics] holds the lemmas that build what a validation pass returns
    from what its checks return. *)
Create HintDb diagnostics.
