(* ===== verification/RustStr.v ===== *)
(** * Rust strings

    The part of [core::str], [char] and the integer parsers that the gateway
    uses.  A [&str] or [String] is a [string] whose characters are the bytes of
    its UTF-8 encoding; a [char] is its scalar value, a [Z].  Byte-level
    functions work on the string itself, [char]-level ones ([trim],
    [is_whitespace]) go through [chars] and [of_chars]. *)

From Stdlib Require Import ZArith Ascii String Lia.
From stdpp Require Import base option list gmap strings pretty.
From S2P Require Import Prelude.
Local Open Scope Z_scope.

(** ** Bytes *)
Definition byte_val (c : ascii) : Z := Z.of_N (N_of_ascii c).
Definition byte_of (z : Z) : ascii := ascii_of_N (Z.to_N z).
Abbreviation bytes_of := list_ascii_of_string.
Abbreviation str_of := string_of_list_ascii.

Definition in_range (lo hi z : Z) : bool := (lo <=? z) && (z <=? hi).
Definition is_ascii (c : ascii) : bool := byte_val c <? 128.
Definition is_ascii_digit (c : ascii) : bool := in_range 48 57 (byte_val c).
(** A UTF-8 continuation byte, [0b10xx_xxxx]. *)
Definition is_cont (c : ascii) : bool := in_range 128 191 (byte_val c).

Lemma byte_val_range c : 0 <= byte_val c < 256.
Proof.
  unfold byte_val. pose proof (N_ascii_bounded c). lia.
Qed.

Lemma byte_val_of z : 0 <= z < 256 -> byte_val (byte_of z) = z.
Proof.
  intros. unfold byte_val, byte_of. rewrite N_ascii_embedding by lia. lia.
Qed.

Lemma byte_of_val c : byte_of (byte_val c) = c.
Proof. unfold byte_of, byte_val. rewrite N2Z.id. apply ascii_N_embedding. Qed.

Lemma byte_val_inj c d : byte_val c = byte_val d -> c = d.
Proof. intros H. by rewrite <-(byte_of_val c), <-(byte_of_val d), H. Qed.

Lemma str_of_app l1 l2 : str_of (l1 ++ l2) = (str_of l1 +:+ str_of l2)%string.
Proof.
  induction l1 as [|a l IH]; [done|].
  change (String a (str_of (l ++ l2)) = String a (str_of l +:+ str_of l2)). by rewrite IH.
Qed.

Lemma bytes_of_app s1 s2 : bytes_of (s1 +:+ s2) = bytes_of s1 ++ bytes_of s2.
Proof.
  induction s1 as [|a s IH]; [done|].
  change (a :: bytes_of (s +:+ s2) = a :: bytes_of s ++ bytes_of s2). by rewrite IH.
Qed.

Lemma bytes_of_str l : bytes_of (str_of l) = l.
Proof. apply list_ascii_of_string_of_list_ascii. Qed.

Lemma str_of_bytes s : str_of (bytes_of s) = s.
Proof. apply string_of_list_ascii_of_string. Qed.

Lemma length_bytes s : length (bytes_of s) = String.length s.
Proof. induction s; simpl; congruence. Qed.

(** ** UTF-8

    [encode1] is [char::encode_utf8]; [utf8_decode] is the decoder of
    [String::from_utf8_lossy], which replaces every maximal invalid prefix by
    U+FFFD.  A byte string is a Rust string exactly when the lossy decoding
    leaves it unchanged. *)
Definition encode1 (c : Z) : list ascii :=
  byte_of <$>
    (if c <? 128 then [c]
     else if c <? 2048 then [192 + c / 64; 128 + c mod 64]
     else if c <? 65536 then
       [224 + c / 4096; 128 + (c / 64) mod 64; 128 + c mod 64]
     else
       [240 + c / 262144; 128 + (c / 4096) mod 64; 128 + (c / 64) mod 64;
        128 + c mod 64]).

Definition replacement : Z := 65533.

Definition utf8_step (utf8_decode : list ascii -> list Z) (bs : list ascii) : list Z :=
  match bs with
  | [] => []
  | b0 :: r0 =>
    let v0 := byte_val b0 in
    if v0 <? 128 then v0 :: utf8_decode r0
    else if in_range 194 223 v0 then
      match r0 with
      | b1 :: r1 =>
        if is_cont b1 then
          ((v0 - 192) * 64 + (byte_val b1 - 128)) :: utf8_decode r1
        else replacement :: utf8_decode r0
      | [] => [replacement]
      end
    else if in_range 224 239 v0 then
      match r0 with
      | b1 :: r1 =>
        let lo := if v0 =? 224 then 160 else 128 in
        let hi := if v0 =? 237 then 159 else 191 in
        if in_range lo hi (byte_val b1) then
          match r1 with
          | b2 :: r2 =>
            if is_cont b2 then
              ((v0 - 224) * 4096 + (byte_val b1 - 128) * 64
               + (byte_val b2 - 128)) :: utf8_decode r2
            else replacement :: utf8_decode r1
          | [] => [replacement]
          end
        else replacement :: utf8_decode r0
      | [] => [replacement]
      end
    else if in_range 240 244 v0 then
      match r0 with
      | b1 :: r1 =>
        let lo := if v0 =? 240 then 144 else 128 in
        let hi := if v0 =? 244 then 143 else 191 in
        if in_range lo hi (byte_val b1) then
          match r1 with
          | b2 :: r2 =>
            if is_cont b2 then
              match r2 with
              | b3 :: r3 =>
                if is_cont b3 then
                  ((v0 - 240) * 262144 + (byte_val b1 - 128) * 4096
                   + (byte_val b2 - 128) * 64 + (byte_val b3 - 128))
                    :: utf8_decode r3
                else replacement :: utf8_decode r2
              | [] => [replacement]
              end
            else replacement :: utf8_decode r1
          | [] => [replacement]
          end
        else replacement :: utf8_decode r0
      | [] => [replacement]
      end
    else replacement :: utf8_decode r0
  end.

Fixpoint utf8_decode (bs : list ascii) : list Z := utf8_step utf8_decode bs.

Lemma utf8_decode_unfold bs : utf8_decode bs = utf8_step utf8_decode bs.
Proof. by destruct bs. Qed.

Definition utf8_encode (cs : list Z) : list ascii := cs ≫= encode1.

Definition chars (s : string) : list Z := utf8_decode (bytes_of s).
Definition of_chars (cs : list Z) : string := str_of (utf8_encode cs).
Definition from_utf8_lossy (bs : list ascii) : string := of_chars (utf8_decode bs).

Definition utf8_valid (s : string) : bool := bool_decide (of_chars (chars s) = s).

(** [str::is_char_boundary] and the slice [&s[a..b]], which panics off a
    boundary or out of range. *)
Definition is_char_boundary (bs : list ascii) (i : nat) : bool :=
  match bs !! i with
  | Some c => negb (is_cont c)
  | None => bool_decide (i = length bs)
  end.

Definition slice {E} (bs : list ascii) (a b : nat) : exec E string :=
  if bool_decide (a ≤ b)%nat && is_char_boundary bs a && is_char_boundary bs b
  then Ok (str_of (take (b - a) (drop a bs)))
  else Panic.

(** ** Case, whitespace, trimming *)
Definition to_lower1 (c : ascii) : ascii :=
  if in_range 65 90 (byte_val c) then byte_of (byte_val c + 32) else c.
Definition to_upper1 (c : ascii) : ascii :=
  if in_range 97 122 (byte_val c) then byte_of (byte_val c - 32) else c.

Fixpoint map_str (f : ascii -> ascii) (s : string) : string :=
  match s with
  | "" => ""
  | String c s' => String (f c) (map_str f s')
  end%string.
Definition to_ascii_lowercase : string -> string := map_str to_lower1.
Definition to_ascii_uppercase : string -> string := map_str to_upper1.
Definition eq_ignore_ascii_case (a b : string) : bool :=
  (to_ascii_lowercase a =? to_ascii_lowercase b)%string.

(** [char::is_whitespace]: the Unicode [White_Space] property. *)
Definition is_whitespace (c : Z) : bool :=
  in_range 9 13 c || (c =? 32) || (c =? 133) || (c =? 160) || (c =? 5760)
  || in_range 8192 8202 c || (c =? 8232) || (c =? 8233) || (c =? 8239)
  || (c =? 8287) || (c =? 12288).

Fixpoint drop_while {A} (p : A -> bool) (l : list A) : list A :=
  match l with
  | [] => []
  | x :: l' => if p x then drop_while p l' else l
  end.
Definition drop_while_end {A} (p : A -> bool) (l : list A) : list A :=
  reverse (drop_while p (reverse l)).

Definition trim (s : string) : string :=
  of_chars (drop_while_end is_whitespace (drop_while is_whitespace (chars s))).

(** [trim_end_matches(c)] and [trim_matches(c)] for an ASCII pattern. *)
Definition trim_end_matches (p : ascii -> bool) (s : string) : string :=
  str_of (drop_while_end p (bytes_of s)).
Definition trim_matches (p : ascii -> bool) (s : string) : string :=
  str_of (drop_while_end p (drop_while p (bytes_of s))).

(** ** Prefixes, splitting, searching *)
Fixpoint strip_prefix (p s : string) : option string :=
  match p, s with
  | "", _ => Some s
  | String a p', String b s' => if Ascii.eqb a b then strip_prefix p' s' else None
  | _, _ => None
  end%string.
Definition starts_with (p s : string) : bool := bool_decide (is_Some (strip_prefix p s)).

Definition strip_suffix (p s : string) : option string :=
  let n := (String.length s - String.length p)%nat in
  if bool_decide (String.length p ≤ String.length s)%nat
     && (str_of (drop n (bytes_of s)) =? p)%string
  then Some (str_of (take n (bytes_of s))) else None.
Definition ends_with (p s : string) : bool := bool_decide (is_Some (strip_suffix p s)).

Fixpoint contains (needle s : string) : bool :=
  starts_with needle s ||
  match s with
  | "" => false
  | String _ s' => contains needle s'
  end%string.

Fixpoint split_once (sep s : string) : option (string * string) :=
  match strip_prefix sep s with
  | Some r => Some (""%string, r)
  | None =>
    match s with
    | "" => None
    | String c s' =>
      match split_once sep s' with
      | Some (a, b) => Some (String c a, b)
      | None => None
      end
    end%string
  end.

(** [str::split(c)] for an ASCII character: never the empty list. *)
Fixpoint split_char (c : ascii) (s : string) : list string :=
  match s with
  | "" => [""%string]
  | String a s' =>
    match split_char c s' with
    | [] => []
    | w :: ws => if Ascii.eqb a c then ""%string :: w :: ws else String a w :: ws
    end
  end%string.

(** The position of the first byte that fails [p], as a split. *)
Fixpoint span_while (p : ascii -> bool) (s : string) : string * string :=
  match s with
  | "" => ("", "")
  | String c s' =>
    if p c then let '(a, b) := span_while p s' in (String c a, b) else ("", s)
  end%string.

(** ** Numbers *)
Fixpoint digits_val (acc : Z) (s : string) : option Z :=
  match s with
  | "" => Some acc
  | String c s' =>
    if is_ascii_digit c then digits_val (acc * 10 + (byte_val c - 48))%Z s' else None
  end%string.

(** The decimal value of a non-empty run of digits, if it is at most [max]. *)
Definition parse_digits (max : Z) (s : string) : option Z :=
  match s with
  | "" => None
  | _ => v ← digits_val 0 s; if (v <=? max)%Z then Some v else None
  end%string.

(** [str::parse::<uN>()]: an optional [+], then digits. *)
Definition parse_unsigned (max : Z) (s : string) : option Z :=
  match strip_prefix "+" s with
  | Some r => parse_digits max r
  | None => parse_digits max s
  end.

(** [str::parse::<i64>()]. *)
Definition parse_i64 (s : string) : option Z :=
  match strip_prefix "-" s with
  | Some r => Z.opp <$> parse_digits (- i64_min) r
  | None => parse_unsigned i64_max s
  end.

(** [{}] of an unsigned integer, [{:0w}] and hexadecimal digits. *)
Definition show_u (z : Z) : string := pretty (Z.to_N z).
Definition pad_left (w : nat) (s : string) : string :=
  str_of (replicate (w - String.length s)%nat "0"%char) +:+ s.
Definition hex_digit (d : Z) : ascii :=
  if d <? 10 then byte_of (48 + d) else byte_of (87 + d).
Definition hex_byte (b : Z) : string :=
  String (hex_digit (b / 16)) (String (hex_digit (b mod 16)) "").

(** [char::to_digit(16)] on a byte read as a character. *)
Definition to_digit16 (c : ascii) : option Z :=
  let v := byte_val c in
  if in_range 48 57 v then Some (v - 48)
  else if in_range 97 102 v then Some (v - 87)
  else if in_range 65 70 v then Some (v - 55)
  else None.

(** [[String]::join(sep)]. *)
Fixpoint join (sep : string) (ws : list string) : string :=
  match ws with
  | [] => ""
  | [w] => w
  | w :: ws' => w +:+ sep +:+ join sep ws'
  end%string.

(** [str::replace] of a non-empty pattern: matches from the left, without
    overlap; [skip] counts the bytes of the last match still to pass. *)
Fixpoint replace_from (from to : string) (skip : nat) (s : string) : string :=
  match s with
  | "" => ""
  | String c s' =>
    match skip with
    | S k => replace_from from to k s'
    | O =>
      if starts_with from s then to +:+ replace_from from to (String.length from - 1) s'
      else String c (replace_from from to 0 s')
    end
  end%string.
Definition replace (from to s : string) : string := replace_from from to 0 s.

(** ** Facts about UTF-8 *)

(** Decide the boolean comparisons of the goal with [lia]. *)
Ltac zcmp :=
  repeat match goal with
  | |- context [Z.ltb ?a ?b] =>
    first [ rewrite (proj2 (Z.ltb_lt a b)) by lia
          | rewrite (proj2 (Z.ltb_ge a b)) by lia ]
  | |- context [Z.leb ?a ?b] =>
    first [ rewrite (proj2 (Z.leb_le a b)) by lia
          | rewrite (proj2 (Z.leb_gt a b)) by lia ]
  | |- context [Z.eqb ?a ?b] =>
    first [ rewrite (proj2 (Z.eqb_eq a b)) by lia
          | rewrite (proj2 (Z.eqb_neq a b)) by lia ]
  end.

(** Turn boolean comparisons in hypotheses into propositions. *)
Ltac zhyps :=
  repeat match goal with
  | H : andb _ _ = true |- _ => apply andb_true_iff in H as [? ?]
  | H : andb _ _ = false |- _ => apply andb_false_iff in H
  | H : orb _ _ = false |- _ => apply orb_false_iff in H as [? ?]
  | H : Z.ltb _ _ = true |- _ => apply Z.ltb_lt in H
  | H : Z.ltb _ _ = false |- _ => apply Z.ltb_ge in H
  | H : Z.leb _ _ = true |- _ => apply Z.leb_le in H
  | H : Z.leb _ _ = false |- _ => apply Z.leb_gt in H
  | H : Z.eqb _ _ = true |- _ => apply Z.eqb_eq in H
  | H : Z.eqb _ _ = false |- _ => apply Z.eqb_neq in H
  end.

(** A Unicode scalar value: what a [char] can hold. *)
Definition scalar (c : Z) : Prop := 0 <= c <= 55295 \/ 57344 <= c <= 1114111.

Lemma in_range_spec lo hi z : in_range lo hi z = true <-> lo <= z <= hi.
Proof. unfold in_range. lia. Qed.

(** The base-64 digits of a scalar value. *)
Lemma base64_digits c :
  0 <= c ->
  c = c / 262144 * 262144 + (c / 4096) mod 64 * 4096 + (c / 64) mod 64 * 64 + c mod 64
  /\ c / 4096 = c / 262144 * 64 + (c / 4096) mod 64
  /\ c / 64 = c / 4096 * 64 + (c / 64) mod 64
  /\ 0 <= c / 262144 /\ 0 <= (c / 4096) mod 64 < 64 /\ 0 <= (c / 64) mod 64 < 64
  /\ 0 <= c mod 64 < 64.
Proof.
  intros. pose proof (Z.div_mod c 64). pose proof (Z.div_mod (c / 64) 64).
  pose proof (Z.div_mod (c / 4096) 64). pose proof (Z.mod_pos_bound c 64).
  pose proof (Z.mod_pos_bound (c / 64) 64). pose proof (Z.mod_pos_bound (c / 4096) 64).
  assert (c / 64 / 64 = c / 4096) by (rewrite Z.div_div by lia; done).
  assert (c / 4096 / 64 = c / 262144) by (rewrite Z.div_div by lia; done).
  pose proof (Z.div_pos c 262144). lia.
Qed.

Lemma decode_encode1 c r : scalar c -> utf8_decode (encode1 c ++ r) = c :: utf8_decode r.
Proof.
  intros Hc. unfold scalar in Hc. unfold encode1.
  destruct (base64_digits c) as (E0 & E1 & E2 & B0 & B1 & B2 & B3); [lia|].
  revert E0 E1 E2 B0 B1 B2 B3.
  generalize (c / 262144) (c / 4096) (c / 64) ((c / 4096) mod 64) ((c / 64) mod 64) (c mod 64).
  intros h4 h3 h2 m3 m2 l E0 E1 E2 B0 B1 B2 B3.
  destruct (Z.ltb_spec c 128); [|destruct (Z.ltb_spec c 2048); [|destruct (Z.ltb_spec c 65536)]];
    cbn [fmap list_fmap app]; rewrite utf8_decode_unfold; unfold utf8_step;
    unfold is_cont, in_range; rewrite ?byte_val_of by lia.
  - by zcmp.
  - assert (2 <= h2 <= 31) by lia. assert (c = h2 * 64 + l) by lia.
    clear E0 E1 E2 Hc. zcmp. cbn [andb]. f_equal. lia.
  - assert (c = h3 * 4096 + m2 * 64 + l) by lia.
    assert (0 <= h3 <= 15 /\ (h3 = 0 -> 32 <= m2) /\ (h3 = 13 -> m2 <= 31)) as (? & ? & ?) by lia.
    clear E0 E1 E2 Hc.
    destruct (Z.eqb_spec (224 + h3) 224), (Z.eqb_spec (224 + h3) 237);
      zcmp; cbn [andb]; f_equal; lia.
  - assert (0 <= h4 <= 4 /\ (h4 = 0 -> 16 <= m3) /\ (h4 = 4 -> m3 <= 15)) as (? & ? & ?) by lia.
    clear E1 E2 Hc.
    destruct (Z.eqb_spec (240 + h4) 240), (Z.eqb_spec (240 + h4) 244);
      zcmp; cbn [andb]; f_equal; lia.
Qed.

Lemma utf8_decode_encode cs : Forall scalar cs -> utf8_decode (utf8_encode cs) = cs.
Proof.
  induction 1 as [|c cs Hc _ IH]; [done|].
  unfold utf8_encode. simpl. rewrite decode_encode1 by done. f_equal. apply IH.
Qed.

Lemma utf8_decode_scalar bs : Forall scalar (utf8_decode bs).
Proof.
  induction bs as [bs IH] using (well_founded_induction (Wf_nat.well_founded_ltof _ length)).
  unfold Wf_nat.ltof in IH. rewrite utf8_decode_unfold.
  assert (scalar replacement) by (unfold scalar, replacement; lia).
  assert (forall r, (length r < length bs)%nat -> forall c, scalar c -> Forall scalar (c :: utf8_decode r))
    as IH' by (intros; apply Forall_cons; auto).
  unfold utf8_step, is_cont, in_range.
  repeat case_match; try done; try (by apply Forall_singleton);
    (apply IH'; [cbn [length]; lia|]); try done;
    zhyps; pose proof (byte_val_range a); unfold scalar; lia.
Qed.

Lemma utf8_valid_of_chars cs : Forall scalar cs -> utf8_valid (of_chars cs) = true.
Proof.
  intros. unfold utf8_valid, chars, of_chars. apply bool_decide_eq_true.
  by rewrite bytes_of_str, utf8_decode_encode.
Qed.

Lemma chars_of_chars cs : Forall scalar cs -> chars (of_chars cs) = cs.
Proof. intros. unfold chars, of_chars. by rewrite bytes_of_str, utf8_decode_encode. Qed.

Lemma utf8_valid_encode s :
  utf8_valid s = true -> bytes_of s = utf8_encode (chars s).
Proof.
  unfold utf8_valid. rewrite bool_decide_eq_true. intros H.
  rewrite <-H at 1. unfold of_chars. by rewrite bytes_of_str.
Qed.

Lemma from_utf8_lossy_valid s : utf8_valid s = true -> from_utf8_lossy (bytes_of s) = s.
Proof. unfold utf8_valid. by rewrite bool_decide_eq_true. Qed.

Lemma encode1_shape c :
  scalar c ->
  exists b bs, encode1 c = b :: bs /\ is_cont b = false
    /\ Forall (fun d => is_cont d = true) bs /\ (is_ascii b = true -> bs = []).
Proof.
  intros Hc. unfold scalar in Hc. unfold encode1.
  destruct (base64_digits c) as (E0 & E1 & E2 & B0 & B1 & B2 & B3); [lia|].
  revert E0 E1 E2 B0 B1 B2 B3.
  generalize (c / 262144) (c / 4096) (c / 64) ((c / 4096) mod 64) ((c / 64) mod 64) (c mod 64).
  intros h4 h3 h2 m3 m2 l E0 E1 E2 B0 B1 B2 B3.
  destruct (Z.ltb_spec c 128); [|destruct (Z.ltb_spec c 2048); [|destruct (Z.ltb_spec c 65536)]];
    cbn [fmap list_fmap]; do 2 eexists; (split; [done|]);
    unfold is_cont, is_ascii, in_range; rewrite ?byte_val_of by lia;
    (split; [lia|]); split; rewrite ?Forall_cons, ?byte_val_of by lia;
    repeat split; auto; lia.
Qed.

(** A character outside ASCII has no ASCII byte. *)
Lemma encode1_high c : 128 <= c -> scalar c -> Forall (fun b => 128 <= byte_val b) (encode1 c).
Proof.
  intros Hc Hs. destruct (encode1_shape c Hs) as (b & bs & E & Hb & Hbs & Ha).
  destruct (is_ascii b) eqn:Eb.
  - pose proof (decode_encode1 c [] Hs) as Hd. rewrite E, (Ha eq_refl) in Hd. unfold is_ascii in Eb.
    rewrite app_nil_r, utf8_decode_unfold in Hd. cbn [utf8_step] in Hd. rewrite Eb in Hd. injection Hd. lia.
  - rewrite E. unfold is_ascii in Eb. constructor; [lia|]. eapply Forall_impl; [exact Hbs|].
    intros d Hd. unfold is_cont in Hd. apply in_range_spec in Hd. lia.
Qed.

Lemma utf8_encode_head cs b :
  Forall scalar cs -> utf8_encode cs !! 0%nat = Some b -> is_cont b = false.
Proof.
  destruct cs as [|c cs]; [done|]. intros [Hc _]%Forall_cons.
  destruct (encode1_shape c Hc) as (b0 & bs & E & ? & _).
  unfold utf8_encode. cbn [mbind list_bind]. rewrite E. simpl. naive_solver.
Qed.

(** In well-formed UTF-8 a continuation byte never follows an ASCII byte, so
    the position after an ASCII byte is a character boundary. *)
Lemma utf8_encode_after_ascii cs i b d :
  Forall scalar cs -> utf8_encode cs !! i = Some b -> is_ascii b = true ->
  utf8_encode cs !! S i = Some d -> is_cont d = false.
Proof.
  revert i. induction cs as [|c cs IH]; [done|].
  intros i [Hc Hcs]%Forall_cons. destruct (encode1_shape c Hc) as (b0 & bs & E & ? & Hbs & Ha).
  change (utf8_encode (c :: cs)) with (encode1 c ++ utf8_encode cs). rewrite E.
  destruct (decide (i < length (b0 :: bs))%nat) as [Hi|Hi].
  - rewrite lookup_app_l by done. intros Hb Hasc. destruct i as [|i]; simpl in Hb; simplify_eq.
    + rewrite (Ha Hasc). simpl. by apply utf8_encode_head.
    + exfalso. eapply Forall_lookup_1 in Hb; [|done].
      unfold is_ascii in Hasc. unfold is_cont, in_range in Hb. lia.
  - rewrite !lookup_app_r by lia. rewrite Nat.sub_succ_l by lia. eauto.
Qed.

Lemma utf8_valid_head s b :
  utf8_valid s = true -> bytes_of s !! 0%nat = Some b -> is_cont b = false.
Proof. intros H. rewrite (utf8_valid_encode s H). apply utf8_encode_head, utf8_decode_scalar. Qed.

Lemma utf8_valid_after_ascii s i b d :
  utf8_valid s = true -> bytes_of s !! i = Some b -> is_ascii b = true ->
  bytes_of s !! S i = Some d -> is_cont d = false.
Proof.
  intros H. rewrite (utf8_valid_encode s H). apply utf8_encode_after_ascii, utf8_decode_scalar.
Qed.

(** ** Facts about splitting and searching *)
Lemma append_cons c s t : (String c s +:+ t) = String c (s +:+ t).
Proof. done. Qed.

Lemma append_nil_l (t : string) : ("" +:+ t) = t.
Proof. done. Qed.

Lemma append_nil_r (s : string) : s +:+ "" = s.
Proof. induction s; [done|]. rewrite append_cons. by f_equal. Qed.

Lemma append_assoc (s t u : string) : s +:+ (t +:+ u) = (s +:+ t) +:+ u.
Proof. induction s; [done|]. rewrite !append_cons. by f_equal. Qed.

Lemma length_append s t : String.length (s +:+ t) = (String.length s + String.length t)%nat.
Proof. induction s; [done|]. rewrite append_cons. simpl. congruence. Qed.

Lemma strip_prefix_Some p s r : strip_prefix p s = Some r <-> s = p +:+ r.
Proof.
  revert s. induction p as [|a p IH]; intros s; simpl.
  { rewrite append_nil_l. naive_solver. }
  rewrite append_cons. destruct s as [|b s]; [naive_solver|].
  destruct (Ascii.eqb_spec a b); [rewrite IH|]; naive_solver.
Qed.

Lemma strip_prefix_app p r : strip_prefix p (p +:+ r) = Some r.
Proof. by apply strip_prefix_Some. Qed.

Lemma starts_with_spec p s : starts_with p s = true <-> exists r, s = p +:+ r.
Proof.
  unfold starts_with. rewrite bool_decide_eq_true. unfold is_Some.
  by setoid_rewrite strip_prefix_Some.
Qed.

Lemma str_of_take_drop n s : str_of (take n (bytes_of s)) +:+ str_of (drop n (bytes_of s)) = s.
Proof. rewrite <-str_of_app, take_drop. apply str_of_bytes. Qed.

Lemma strip_suffix_Some p s r : strip_suffix p s = Some r <-> s = r +:+ p.
Proof.
  unfold strip_suffix. split.
  - case_match eqn:E; [|done]. apply andb_true_iff in E as [_ E%String.eqb_eq].
    intros [= <-]. rewrite <-E at 2. by rewrite str_of_take_drop.
  - intros ->. rewrite length_append, bytes_of_app.
    replace (String.length r + String.length p - String.length p)%nat
      with (length (bytes_of r)) by (rewrite length_bytes; lia).
    rewrite drop_app_length, take_app_length, !str_of_bytes, String.eqb_refl, bool_decide_true by lia.
    done.
Qed.

Lemma ends_with_spec p s : ends_with p s = true <-> exists r, s = r +:+ p.
Proof.
  unfold ends_with. rewrite bool_decide_eq_true. unfold is_Some.
  by setoid_rewrite strip_suffix_Some.
Qed.

Lemma contains_spec n s : contains n s = true <-> exists a b, s = a +:+ n +:+ b.
Proof.
  induction s as [|c s IH]; cbn [contains]; rewrite orb_true_iff, starts_with_spec.
  - split; [intros [[r ->]|]; [by exists "", r|done]|].
    intros ([|] & b & ?); [left; eauto|by rewrite append_cons in *].
  - rewrite IH. split.
    + intros [[r ->]|(a & b & ->)]; [by exists "", r|by exists (String c a), b].
    + intros ([|c' a] & b & E); [left; eauto|right].
      rewrite append_cons in E. simplify_eq. eauto.
Qed.

(** ** Printing and parsing numbers *)
Lemma pretty_char_digit (d : N) :
  (d < 10)%N -> is_ascii_digit (pretty_N_char d) = true
  /\ byte_val (pretty_N_char d) = 48 + Z.of_N d.
Proof.
  intros Hd.
  assert (d = 0 ∨ d = 1 ∨ d = 2 ∨ d = 3 ∨ d = 4 ∨ d = 5 ∨ d = 6 ∨ d = 7 ∨ d = 8 ∨ d = 9)%N
    as Hcases by lia.
  by repeat destruct Hcases as [->|Hcases]; [..|subst].
Qed.

Lemma digits_val_go (x : N) : forall s, exists k, 0 <= k /\ forall a,
  digits_val a (pretty_N_go x s) = digits_val (a * 10 ^ k + Z.of_N x) s.
Proof.
  induction (N.lt_wf_0 x) as [x _ IH]. intros s.
  destruct (decide (0 < x)%N) as [Hx|Hx].
  2:{ assert (x = 0)%N as -> by lia. exists 0. split; [done|]. intros a.
      rewrite pretty_N_go_0. f_equal. simpl. lia. }
  destruct (IH (x `div` 10)%N (N.div_lt x 10 Hx ltac:(lia))
              (String (pretty_N_char (x `mod` 10)) s)) as (k & Hk & E).
  exists (k + 1). split; [lia|]. intros a.
  rewrite pretty_N_go_step by done. rewrite E. cbn [digits_val].
  destruct (pretty_char_digit (x `mod` 10)) as [-> ->]; [apply N.mod_lt; lia|].
  f_equal. rewrite Z.pow_add_r, N2Z.inj_div, N2Z.inj_mod by lia.
  pose proof (Z.div_mod (Z.of_N x) 10). change (Z.of_N 10) with 10. nia.
Qed.

Lemma digits_val_show z : 0 <= z -> digits_val 0 (show_u z) = Some z.
Proof.
  intros Hz. unfold show_u, pretty, pretty_N.
  case_decide as H0; [assert (z = 0) as -> by lia; done|].
  destruct (digits_val_go (Z.to_N z) "") as (k & _ & ->). simpl. f_equal. lia.
Qed.

Lemma digits_val_Some a s v :
  digits_val a s = Some v -> Forall (fun c => is_ascii_digit c = true) (bytes_of s).
Proof.
  revert a. induction s as [|c s IH]; simpl; intros a H; [constructor|].
  case_match; [|done]. constructor; eauto.
Qed.

Lemma digits_val_bound a s v : 0 <= a -> digits_val a s = Some v -> a <= v.
Proof.
  revert a. induction s as [|c s IH]; simpl; intros a Ha H; [naive_solver|].
  case_match eqn:E; [|done]. unfold is_ascii_digit, in_range in E. apply IH in H; lia.
Qed.

Lemma show_u_nonempty z : show_u z <> "".
Proof.
  unfold show_u, pretty, pretty_N. case_decide; [done|].
  rewrite pretty_N_go_step by lia. generalize (Z.to_N z `div` 10)%N as x.
  intros x. assert (forall s : string, s <> "" -> pretty_N_go x s <> ""%string) as HH.
  { induction (N.lt_wf_0 x) as [x _ IH]. intros s Hs.
    destruct (decide (0 < x)%N) as [Hx|Hx].
    - rewrite pretty_N_go_step by done. apply IH; [apply N.div_lt; lia|done].
    - assert (x = 0)%N as -> by lia. by rewrite pretty_N_go_0. }
  by apply HH.
Qed.

Lemma show_u_digits z :
  0 <= z -> Forall (fun c => is_ascii_digit c = true) (bytes_of (show_u z)).
Proof. intros. eapply digits_val_Some, digits_val_show; done. Qed.

Lemma parse_digits_show max z : 0 <= z <= max -> parse_digits max (show_u z) = Some z.
Proof.
  intros Hz. unfold parse_digits. pose proof (show_u_nonempty z).
  destruct (show_u z) eqn:E; [done|]. rewrite <-E, digits_val_show by lia. simpl.
  destruct (Z.leb_spec z max); [done|lia].
Qed.

Lemma strip_prefix_digits (p : ascii) s :
  is_ascii_digit p = false ->
  Forall (fun c => is_ascii_digit c = true) (bytes_of s) ->
  strip_prefix (String p "") s = None.
Proof.
  intros Hp Hs. destruct s as [|c s]; [done|]. simpl in *. apply Forall_cons in Hs as [Hc _].
  destruct (Ascii.eqb_spec p c); congruence.
Qed.

Lemma parse_unsigned_show max z : 0 <= z <= max -> parse_unsigned max (show_u z) = Some z.
Proof.
  intros. unfold parse_unsigned.
  rewrite strip_prefix_digits by (auto using show_u_digits with lia).
  by apply parse_digits_show.
Qed.

Lemma parse_digits_range max s v : parse_digits max s = Some v -> 0 <= v <= max.
Proof.
  unfold parse_digits. destruct s; [done|]. intros (w & Hw & H)%bind_Some.
  apply digits_val_bound in Hw; [|lia]. case_match; simplify_eq. lia.
Qed.

Lemma parse_unsigned_range max s v : parse_unsigned max s = Some v -> 0 <= v <= max.
Proof. unfold parse_unsigned. case_match; apply parse_digits_range. Qed.

(** ** Trimming *)
Definition plain_char (c : ascii) : Prop :=
  is_ascii c = true /\ is_whitespace (byte_val c) = false.

Lemma chars_ascii l :
  Forall (fun c => is_ascii c = true) l -> utf8_decode l = byte_val <$> l.
Proof.
  induction 1 as [|c l Hc _ IH]; [done|]. rewrite utf8_decode_unfold. unfold utf8_step.
  unfold is_ascii in Hc. rewrite Hc. by rewrite IH.
Qed.

Lemma encode1_ascii c : is_ascii c = true -> encode1 (byte_val c) = [c].
Proof. unfold is_ascii, encode1. intros ->. simpl. by rewrite byte_of_val. Qed.

Lemma of_chars_ascii l :
  Forall (fun c => is_ascii c = true) l -> of_chars (byte_val <$> l) = str_of l.
Proof.
  intros H. unfold of_chars. f_equal.
  induction H as [|c l Hc _ IH]; [done|]. unfold utf8_encode in *. simpl.
  rewrite encode1_ascii by done. simpl. by f_equal.
Qed.

Lemma ascii_valid s : Forall (fun c => is_ascii c = true) (bytes_of s) -> utf8_valid s = true.
Proof.
  intros H. unfold utf8_valid, chars. apply bool_decide_eq_true.
  by rewrite chars_ascii, of_chars_ascii, str_of_bytes.
Qed.

Lemma drop_while_none {A} (p : A -> bool) l :
  Forall (fun x => p x = false) l -> drop_while p l = l.
Proof. by destruct 1 as [|x l Hx]; simpl; [|rewrite Hx]. Qed.

Lemma drop_while_end_none {A} (p : A -> bool) l :
  Forall (fun x => p x = false) l -> drop_while_end p l = l.
Proof.
  intros. unfold drop_while_end. rewrite drop_while_none, reverse_involutive; [done|].
  by apply Forall_reverse.
Qed.

Lemma trim_plain s : Forall plain_char (bytes_of s) -> trim s = s.
Proof.
  intros H. unfold trim, chars.
  assert (Forall (fun c => is_ascii c = true) (bytes_of s)) as Ha
    by (eapply Forall_impl; [exact H|]; by intros ? []).
  rewrite chars_ascii by done.
  assert (Forall (fun z => is_whitespace z = false) (byte_val <$> bytes_of s)).
  { apply Forall_fmap. eapply Forall_impl; [exact H|]. by intros ? []. }
  rewrite drop_while_none, drop_while_end_none by done.
  by rewrite of_chars_ascii, str_of_bytes.
Qed.

Lemma digit_plain c : is_ascii_digit c = true -> plain_char c.
Proof.
  unfold is_ascii_digit, plain_char, is_ascii, is_whitespace, in_range. lia.
Qed.

Lemma show_u_plain z : 0 <= z -> Forall plain_char (bytes_of (show_u z)).
Proof. intros. eapply Forall_impl; [by apply show_u_digits|]. apply digit_plain. Qed.

Lemma drop_while_idemp {A} (p : A -> bool) l : drop_while p (drop_while p l) = drop_while p l.
Proof. induction l as [|x l IH]; simpl; [done|]. destruct (p x) eqn:E; [done|]. simpl. by rewrite E. Qed.

Lemma Forall_drop_while {A} (P : A -> Prop) p l : Forall P l -> Forall P (drop_while p l).
Proof. induction 1; simpl; [constructor|]. case_match; auto. Qed.

Lemma Forall_drop_while_end {A} (P : A -> Prop) p l : Forall P l -> Forall P (drop_while_end p l).
Proof. intros. by apply Forall_reverse, Forall_drop_while, Forall_reverse. Qed.

(** Trimming the end keeps the first element, unless nothing is left. *)
Lemma drop_while_end_cons {A} (p : A -> bool) x l :
  p x = false -> drop_while_end p (x :: l) = x :: drop_while_end p l.
Proof.
  intros Hx. unfold drop_while_end. rewrite reverse_cons.
  assert (drop_while p (reverse l ++ [x]) = drop_while p (reverse l) ++ [x]) as ->.
  { induction (reverse l) as [|y r IH]; simpl; [by rewrite Hx|]. by case_match. }
  by rewrite reverse_app.
Qed.

Lemma trim_idemp s : trim (trim s) = trim s.
Proof.
  unfold trim. rewrite chars_of_chars.
  2:{ apply Forall_drop_while_end, Forall_drop_while, utf8_decode_scalar. }
  f_equal. pose proof (drop_while_idemp is_whitespace (chars s)) as Hi.
  destruct (drop_while is_whitespace (chars s)) as [|x l]; [done|].
  simpl in Hi. destruct (is_whitespace x) eqn:Hx.
  { exfalso. assert (forall (l : list Z), (length (drop_while is_whitespace l) <= length l)%nat) as HL.
    { induction l0; simpl; [lia|]. case_match; simpl; lia. }
    pose proof (HL l) as HL'. rewrite Hi in HL'. simpl in HL'. lia. }
  rewrite drop_while_end_cons by done. simpl. rewrite Hx. rewrite drop_while_end_cons by done.
  f_equal. unfold drop_while_end. by rewrite reverse_involutive, drop_while_idemp.
Qed.

Lemma span_while_app p a b :
  Forall (fun c => p c = true) (bytes_of a) ->
  match b with String c _ => p c = false | _ => True end%string ->
  span_while p (a +:+ b) = (a, b).
Proof.
  intros Ha Hb. induction a as [|c a IH].
  - rewrite append_nil_l. destruct b; cbn [span_while]; [done|]. by rewrite Hb.
  - simpl in Ha. apply Forall_cons in Ha as [Hc Ha]. rewrite append_cons. cbn [span_while].
    by rewrite Hc, IH.
Qed.
