(* ===== verification/CoreTypes.v ===== *)
(** * [pulsate-core]: the shared vocabulary

    The error taxonomy ([error.rs]), the request lifecycle stages
    ([lifecycle.rs]), the configuration snapshot ([snapshot.rs]) and the message
    body ([message.rs]). *)

From Stdlib Require Import ZArith Ascii String Lia.
From stdpp Require Import base option list gmap strings pretty.
From S2P Require Import Prelude RustStr.
Local Open Scope Z_scope.
Local Open Scope string_scope.

(** ** Error categories and codes *)
Module Category.
Inductive Category := Client | Upstream | Config | Security | Internal | Operational.
#[global] Instance Category_eq_dec : EqDecision Category.
Proof. solve_decision. Defined.
End Category.

Definition default_status (c : Category.Category) : Z :=
  match c with
  | Category.Client | Category.Config => 400
  | Category.Upstream => 502
  | Category.Security => 403
  | Category.Internal => 500
  | Category.Operational => 503
  end.

Definition category_display (c : Category.Category) : string :=
  match c with
  | Category.Client => "client"
  | Category.Upstream => "upstream"
  | Category.Config => "config"
  | Category.Security => "security"
  | Category.Internal => "internal"
  | Category.Operational => "operational"
  end.

Record Code := mk_code {
  code_area : string;
  code_number : Z;
  code_title : string;
  code_category : Category.Category;
  code_status : option Z;
}.

#[global] Instance Code_eq_dec : EqDecision Code.
Proof. solve_decision. Defined.

Definition http_status (c : Code) : Z :=
  match code_status c with
  | Some s => s
  | None => default_status (code_category c)
  end.

(** [PLS-<AREA>-<NNNN>], the number zero-padded to four digits. *)
Definition code_display (c : Code) : string :=
  "PLS-" +:+ code_area c +:+ "-" +:+ pad_left 4 (show_u (code_number c)).

Definition docs_url (c : Code) : string :=
  "https://squaretick.dev/pulsate/errors/" +:+ code_display c.

Definition CFG_SYNTAX : Code := mk_code "CFG" 1 "Syntax error" Category.Config None.
Definition CFG_UNKNOWN_DIRECTIVE : Code := mk_code "CFG" 2 "Unknown directive" Category.Config None.
Definition CFG_TYPE_MISMATCH : Code := mk_code "CFG" 3 "Type/unit mismatch" Category.Config None.
Definition CFG_MISSING_FIELD : Code := mk_code "CFG" 5 "Missing required field" Category.Config None.
Definition CFG_UNKNOWN_REF : Code := mk_code "CFG" 7 "Unknown reference" Category.Config None.
Definition CFG_HOST_COLLISION : Code := mk_code "CFG" 10 "Host+port collision" Category.Config None.
Definition CFG_MULTI_HANDLER : Code := mk_code "CFG" 12 "Multiple handlers in one route" Category.Config None.
Definition CFG_ACME_UNREACHABLE : Code := mk_code "CFG" 15 "ACME challenge unreachable" Category.Config None.
Definition CFG_DUPLICATE : Code := mk_code "CFG" 20 "Duplicate definition" Category.Config None.
Definition CFG_INVALID_CORS : Code := mk_code "CFG" 21 "Invalid CORS configuration" Category.Config None.
Definition HTTP_MALFORMED : Code := mk_code "HTTP" 1 "Malformed request" Category.Client (Some 400).
Definition HTTP_AMBIGUOUS_FRAMING : Code := mk_code "HTTP" 2 "Ambiguous framing (smuggling)" Category.Client (Some 400).
Definition HTTP_HEADER_LIMITS : Code := mk_code "HTTP" 3 "Header limits exceeded" Category.Client (Some 431).
Definition HTTP_BODY_TOO_LARGE : Code := mk_code "HTTP" 4 "Body too large" Category.Client (Some 413).
Definition HTTP_TIMEOUT : Code := mk_code "HTTP" 5 "Request timeout" Category.Client (Some 408).
Definition PRX_NO_ROUTE : Code := mk_code "PRX" 1 "No route matched" Category.Client (Some 404).
Definition PRX_CONNECT_TIMEOUT : Code := mk_code "PRX" 2 "Upstream connect timeout" Category.Upstream (Some 504).
Definition PRX_NO_HEALTHY : Code := mk_code "PRX" 3 "No healthy upstream target" Category.Upstream (Some 503).
Definition PRX_RESPONSE_TIMEOUT : Code := mk_code "PRX" 4 "Upstream response timeout" Category.Upstream (Some 504).
Definition PRX_BREAKER_OPEN : Code := mk_code "PRX" 5 "Circuit breaker open" Category.Upstream (Some 503).
Definition PRX_RETRY_EXHAUSTED : Code := mk_code "PRX" 6 "Retry budget exhausted" Category.Upstream (Some 502).
Definition PRX_PROTOCOL_ERROR : Code := mk_code "PRX" 7 "Upstream protocol error" Category.Upstream (Some 502).
Definition TLS_NO_CERT : Code := mk_code "TLS" 1 "No certificate for SNI" Category.Security None.
Definition TLS_CLIENT_CERT : Code := mk_code "TLS" 2 "Client cert required/invalid" Category.Security (Some 403).
Definition TLS_PROTOCOL : Code := mk_code "TLS" 3 "Protocol/cipher not permitted" Category.Security None.
Definition ACME_CHALLENGE : Code := mk_code "ACME" 1 "Challenge failed" Category.Operational None.
Definition ACME_RATE_LIMITED : Code := mk_code "ACME" 2 "Rate-limited by CA" Category.Operational None.
Definition ACME_RENEWAL : Code := mk_code "ACME" 3 "Renewal failed" Category.Operational None.
Definition ACME_NOT_ALLOWLISTED : Code := mk_code "ACME" 4 "On-demand host not allow-listed" Category.Security (Some 403).
Definition SEC_AUTH_REQUIRED : Code := mk_code "SEC" 1 "Authentication required" Category.Security (Some 401).
Definition SEC_TOKEN_INVALID : Code := mk_code "SEC" 2 "Token invalid/expired" Category.Security (Some 401).
Definition SEC_AUTHZ_DENIED : Code := mk_code "SEC" 3 "Authorization denied" Category.Security (Some 403).
Definition SEC_RATE_LIMIT : Code := mk_code "SEC" 4 "Rate limit exceeded" Category.Security (Some 429).
Definition WAF_RULE : Code := mk_code "WAF" 1 "Blocked by WAF rule" Category.Security (Some 403).
Definition WAF_GEO : Code := mk_code "WAF" 2 "Blocked by geo/ASN policy" Category.Security (Some 403).
Definition WAF_BOT : Code := mk_code "WAF" 3 "Bot challenge required/failed" Category.Security (Some 403).
Definition WAF_IP_DENIED : Code := mk_code "WAF" 4 "IP denied" Category.Security (Some 403).
Definition PLG_LOAD : Code := mk_code "PLG" 1 "Plugin load/validation failed" Category.Internal None.
Definition PLG_TRAPPED : Code := mk_code "PLG" 2 "Plugin trapped" Category.Internal None.
Definition PLG_FUEL : Code := mk_code "PLG" 3 "Plugin exceeded fuel/time" Category.Internal None.
Definition PLG_CAPABILITY : Code := mk_code "PLG" 4 "Capability denied" Category.Internal None.
Definition PLG_ABI : Code := mk_code "PLG" 5 "ABI version unsupported" Category.Internal None.
Definition ADM_UNAUTHORIZED : Code := mk_code "ADM" 1 "Unauthorized" Category.Security (Some 401).
Definition ADM_FORBIDDEN : Code := mk_code "ADM" 2 "Forbidden (scope)" Category.Security (Some 403).
Definition ADM_APPLY_REJECTED : Code := mk_code "ADM" 3 "Config apply rejected" Category.Config (Some 422).
Definition ADM_CONFLICT : Code := mk_code "ADM" 4 "Conflict (optimistic concurrency)" Category.Client (Some 409).
Definition SYS_GENERIC : Code := mk_code "SYS" 1 "Generic runtime error" Category.Internal None.
Definition SYS_BIND : Code := mk_code "SYS" 3 "Bind failed / port in use" Category.Operational None.
Definition SYS_STATE_STORE : Code := mk_code "SYS" 6 "State store error" Category.Operational None.

(** [Code::all]: every defined code. *)
Definition all_codes : list Code :=
  [
   CFG_SYNTAX; CFG_UNKNOWN_DIRECTIVE; CFG_TYPE_MISMATCH; CFG_MISSING_FIELD;
   CFG_UNKNOWN_REF; CFG_HOST_COLLISION; CFG_MULTI_HANDLER; CFG_ACME_UNREACHABLE;
   CFG_DUPLICATE; CFG_INVALID_CORS; HTTP_MALFORMED; HTTP_AMBIGUOUS_FRAMING;
   HTTP_HEADER_LIMITS; HTTP_BODY_TOO_LARGE; HTTP_TIMEOUT; PRX_NO_ROUTE;
   PRX_CONNECT_TIMEOUT; PRX_NO_HEALTHY; PRX_RESPONSE_TIMEOUT; PRX_BREAKER_OPEN;
   PRX_RETRY_EXHAUSTED; PRX_PROTOCOL_ERROR; TLS_NO_CERT; TLS_CLIENT_CERT;
   TLS_PROTOCOL; ACME_CHALLENGE; ACME_RATE_LIMITED; ACME_RENEWAL;
   ACME_NOT_ALLOWLISTED; SEC_AUTH_REQUIRED; SEC_TOKEN_INVALID; SEC_AUTHZ_DENIED;
   SEC_RATE_LIMIT; WAF_RULE; WAF_GEO; WAF_BOT; WAF_IP_DENIED; PLG_LOAD; PLG_TRAPPED;
   PLG_FUEL; PLG_CAPABILITY; PLG_ABI; ADM_UNAUTHORIZED; ADM_FORBIDDEN;
   ADM_APPLY_REJECTED; ADM_CONFLICT; SYS_GENERIC; SYS_BIND; SYS_STATE_STORE
  ].

(** [PulsateError], without the boxed source chain. *)
Record PulsateError := mk_error { error_code : Code; error_message : string }.

Definition error_http_status (e : PulsateError) : Z := http_status (error_code e).
Definition error_display (e : PulsateError) : string :=
  "[" +:+ code_display (error_code e) +:+ "] " +:+ code_title (error_code e)
    +:+ ": " +:+ error_message e.

(** ** Lifecycle stages *)
Module Stage.
Inductive Stage :=
| Accept | Handshake | Decode | Match | Ingress | Dispatch | Upstream | Egress
| Stream | Finalize | Recover.

#[global] Instance Stage_eq_dec : EqDecision Stage.
Proof. solve_decision. Defined.
End Stage.

Definition stage_index (s : Stage.Stage) : option Z :=
  match s with
  | Stage.Accept => Some 1
  | Stage.Handshake => Some 2
  | Stage.Decode => Some 3
  | Stage.Match => Some 4
  | Stage.Ingress => Some 5
  | Stage.Dispatch => Some 6
  | Stage.Upstream => Some 7
  | Stage.Egress => Some 8
  | Stage.Stream => Some 9
  | Stage.Finalize => Some 10
  | Stage.Recover => None
  end.

Definition stage_as_str (s : Stage.Stage) : string :=
  match s with
  | Stage.Accept => "accept"
  | Stage.Handshake => "handshake"
  | Stage.Decode => "decode"
  | Stage.Match => "match"
  | Stage.Ingress => "ingress"
  | Stage.Dispatch => "dispatch"
  | Stage.Upstream => "upstream"
  | Stage.Egress => "egress"
  | Stage.Stream => "stream"
  | Stage.Finalize => "finalize"
  | Stage.Recover => "recover"
  end.

Inductive Lifecycle := Running | Draining | Stopped.

(** ** Snapshots *)
Record ConfigSnapshot := mk_snapshot { snapshot_id : Z; snapshot_generation : Z }.

(** [SnapshotId]'s [Display]: sixteen hexadecimal digits. *)
Fixpoint hex_u (w : nat) (z : Z) : string :=
  match w with
  | O => ""
  | S w' => hex_u w' (z / 16) +:+ String (hex_digit (z mod 16)) ""
  end.
Definition snapshot_id_display (d : Z) : string := hex_u 16 d.

(** ** Bodies *)
Inductive Body := BodyEmpty | BodyBytes (b : string).

Definition body_len_hint (b : Body) : option nat :=
  match b with
  | BodyEmpty => Some O
  | BodyBytes s => Some (String.length s)
  end.
Definition body_is_empty (b : Body) : bool := bool_decide (body_len_hint b = Some O).
Definition body_from (s : string) : Body :=
  match s with
  | "" => BodyEmpty
  | _ => BodyBytes s
  end.

(** ** The catalog *)

(** The statuses the documentation of [Category] allows for each category. *)
Definition status_allowed (c : Category.Category) (s : Z) : bool :=
  match c with
  | Category.Client => in_range 400 499 s
  | Category.Upstream => bool_decide (s ∈ [502; 503; 504])
  | Category.Config => bool_decide (s ∈ [400; 422])
  | Category.Security => bool_decide (s ∈ [401; 403; 429])
  | Category.Internal => s =? 500
  | Category.Operational => s =? 503
  end%Z.

(** The error catalog is sound: no two codes render to the same
    [PLS-AREA-NNNN] identifier (the [all_codes_are_unique] gate), and the HTTP
    status of every code, override or category default, is one its category
    documents. *)
Theorem catalog_unique_and_classified :
  NoDup (code_display <$> all_codes)
  /\ Forall (fun c => status_allowed (code_category c) (http_status c) = true) all_codes.
Proof.
  split; apply (bool_decide_eq_true_1 _); vm_compute; reflexivity.
Qed.
