(* ===== verification/UtilParse.v ===== *)
(** * [pulsate-util]: human units and the buffer pool

    [parse.rs] turns [30s] and [10MB] into durations and sizes; a [Duration] is
    its number of nanoseconds.  [pool.rs] is a bounded free list of buffers. *)

From Stdlib Require Import ZArith Ascii String Lia.
From stdpp Require Import base option list gmap strings pretty.
From S2P Require Import Prelude RustStr.
Local Open Scope Z_scope.
Local Open Scope string_scope.

(** ** Durations, in nanoseconds *)
Definition Duration := Z.
Definition nanos_per_sec : Z := 1000000000.
Definition from_secs (s : Z) : Duration := s * nanos_per_sec.
Definition from_millis (ms : Z) : Duration := ms * 1000000.
Definition as_secs (d : Duration) : Z := d / nanos_per_sec.
(** [Duration::MAX]: [u64::MAX] seconds and 999_999_999 nanoseconds. *)
Definition duration_max : Duration := 2 ^ 64 * nanos_per_sec - 1.

(** ** [parse.rs] *)
Record ParseError := mk_parse_error { pe_input : string; pe_reason : string }.

Definition split_number_unit (s : string) : option (Z * string) :=
  let s := trim s in
  let '(num, unit) := span_while is_ascii_digit s in
  match unit with
  | "" => None (* no byte that is not a digit *)
  | _ =>
    match num with
    | "" => None (* no leading number *)
    | _ => value ← parse_unsigned u64_max num; Some (value, trim unit)
    end
  end.

Definition parse_duration (s : string) : exec ParseError Duration :=
  let s := trim s in
  if (s =? "")%string then Err (mk_parse_error s "empty duration")
  else
    match split_number_unit s with
    | None => Err (mk_parse_error s "expected <number><unit>")
    | Some (value, unit) =>
      match unit with
      | "ms" => Ok (from_millis value)
      | "s" => Ok (from_secs value)
      | "m" => Ok (from_secs (saturating_mul_u64 value 60))
      | "h" => Ok (from_secs (saturating_mul_u64 value 3600))
      | "d" => Ok (from_secs (saturating_mul_u64 value 86400))
      | _ => Err (mk_parse_error s "unknown time unit (use ms, s, m, h, d)")
      end
    end.

Definition size_mult (unit : string) : option Z :=
  match to_ascii_uppercase unit with
  | "B" => Some 1
  | "KB" => Some 1000
  | "MB" => Some 1000000
  | "GB" => Some 1000000000
  | "TB" => Some 1000000000000
  | _ => None
  end.

Definition parse_size (s : string) : exec ParseError Z :=
  let s := trim s in
  if (s =? "")%string then Err (mk_parse_error s "empty size")
  else
    match parse_unsigned u64_max s with
    | Some bytes => Ok bytes
    | None =>
      match split_number_unit s with
      | None => Err (mk_parse_error s "expected <number><unit>")
      | Some (value, unit) =>
        match size_mult unit with
        | None => Err (mk_parse_error s "unknown size unit (use B, KB, MB, GB, TB)")
        | Some mult =>
          match checked_mul_u64 value mult with
          | Some v => Ok v
          | None => Err (mk_parse_error s "size overflows u64")
          end
        end
      end
    end.

Example parse_duration_30s : parse_duration "30s" = Ok (from_secs 30).
Proof. reflexivity. Qed.
Example parse_size_2gb : parse_size " 2gb" = Ok 2000000000.
Proof. reflexivity. Qed.
Example parse_size_overflow :
  parse_size "99999999999999TB" = Err (mk_parse_error "99999999999999TB" "size overflows u64").
Proof. reflexivity. Qed.

(** ** Number-and-unit strings *)

(** A unit keyword: not empty, starting with no digit, ASCII without white
    space. *)
Definition unit_word (u : string) : Prop :=
  Forall plain_char (bytes_of u)
  /\ match u with String c _ => is_ascii_digit c = false | _ => False end.

Lemma number_unit_plain n u :
  0 <= n -> unit_word u -> Forall plain_char (bytes_of (show_u n +:+ u)).
Proof. intros ? [? _]. rewrite bytes_of_app. apply Forall_app; auto using show_u_plain. Qed.

Lemma number_unit_nonempty n u : (show_u n +:+ u =? "")%string = false.
Proof.
  apply String.eqb_neq. pose proof (show_u_nonempty n). destruct (show_u n); [done|].
  by rewrite append_cons.
Qed.

Lemma split_number_unit_show n u :
  0 <= n <= u64_max -> unit_word u -> split_number_unit (show_u n +:+ u) = Some (n, u).
Proof.
  intros Hn Hu. unfold split_number_unit.
  rewrite trim_plain by (apply number_unit_plain; [lia|done]).
  destruct Hu as [Hp Hd].
  rewrite span_while_app by (first [apply show_u_digits; lia | by destruct u]).
  destruct u as [|c u]; [done|]. pose proof (show_u_nonempty n).
  destruct (show_u n) eqn:E; [done|]. rewrite <-E, parse_unsigned_show by done.
  cbn [mbind option_bind]. by rewrite trim_plain.
Qed.

(** A number followed by a unit word is not a bare integer. *)
Lemma digits_val_unit a s u :
  match u with String c _ => is_ascii_digit c = false | _ => False end ->
  digits_val a (s +:+ u) = None.
Proof.
  intros Hu. revert a. induction s as [|c s IH]; intros a.
  - rewrite append_nil_l. destruct u; [done|]. cbn [digits_val]. cbn in Hu. by rewrite Hu.
  - rewrite append_cons. cbn [digits_val]. destruct (is_ascii_digit c); [apply IH|done].
Qed.

Lemma parse_unsigned_unit max n u :
  0 <= n -> unit_word u -> parse_unsigned max (show_u n +:+ u) = None.
Proof.
  intros Hn [_ Hu]. unfold parse_unsigned.
  pose proof (show_u_nonempty n). pose proof (show_u_digits n Hn) as Hd.
  assert (strip_prefix "+" (show_u n +:+ u) = None) as ->.
  { destruct (show_u n) as [|c w]; [done|]. rewrite append_cons. cbn [strip_prefix].
    simpl in Hd. apply Forall_cons in Hd as [Hc _].
    destruct (Ascii.eqb_spec "+" c); [by subst|done]. }
  unfold parse_digits. rewrite digits_val_unit by done. by destruct (show_u n +:+ u).
Qed.

(** Durations round-trip: a [u64] printed in decimal and followed by one
    of the five units parses back to that many milliseconds, seconds, minutes,
    hours or days, the last three saturating at [u64::MAX] seconds; the result
    is always a representable [Duration]. *)
Theorem parse_duration_show (n : Z) :
  0 <= n <= u64_max ->
  parse_duration (show_u n +:+ "ms") = Ok (from_millis n)
  /\ parse_duration (show_u n +:+ "s") = Ok (from_secs n)
  /\ parse_duration (show_u n +:+ "m") = Ok (from_secs (Z.min u64_max (n * 60)))
  /\ parse_duration (show_u n +:+ "h") = Ok (from_secs (Z.min u64_max (n * 3600)))
  /\ parse_duration (show_u n +:+ "d") = Ok (from_secs (Z.min u64_max (n * 86400))).
Proof.
  intros Hn.
  assert (forall u, unit_word u -> trim (show_u n +:+ u) = show_u n +:+ u) as Ht.
  { intros u Hu. apply trim_plain, number_unit_plain; [lia|done]. }
  unfold parse_duration.
  repeat split; (rewrite Ht by (repeat constructor)); rewrite number_unit_nonempty,
    split_number_unit_show by (repeat constructor; lia); done.
Qed.

Lemma parse_duration_show_witness :
  0 <= 5 <= u64_max /\ parse_duration (show_u 5 +:+ "m") = Ok (from_secs 300).
Proof.
  assert (0 <= 5 <= u64_max) as H by (vm_compute; split; discriminate).
  split; [exact H|]. destruct (parse_duration_show 5 H) as (_ & _ & E & _). exact E.
Defined.

(** Sizes are exact: a printed [u64] with a unit, in any case, is the
    product when it fits a [u64] and the overflow error when it does not; a
    bare number is a count of bytes. *)
Theorem parse_size_show (n mult : Z) (u : string) :
  0 <= n <= u64_max -> unit_word u -> size_mult u = Some mult ->
  parse_size (show_u n) = Ok n
  /\ parse_size (show_u n +:+ u) =
     if (n * mult <=? u64_max)%Z then Ok (n * mult)
     else Err (mk_parse_error (show_u n +:+ u) "size overflows u64").
Proof.
  intros Hn Hu Hm. unfold parse_size.
  rewrite trim_plain by (apply show_u_plain; lia).
  rewrite trim_plain by (apply number_unit_plain; [lia|done]).
  rewrite number_unit_nonempty, split_number_unit_show, parse_unsigned_unit by (auto; lia).
  rewrite (proj2 (String.eqb_neq _ _) (show_u_nonempty n)), parse_unsigned_show, Hm by lia.
  split; [done|]. unfold checked_mul_u64. by destruct (n * mult <=? u64_max)%Z.
Qed.

Lemma parse_size_show_witness :
  unit_word "Kb" /\ size_mult "Kb" = Some 1000 /\ parse_size (show_u 4 +:+ "Kb") = Ok 4000.
Proof.
  assert (0 <= 4 <= u64_max) as H by (vm_compute; split; discriminate).
  assert (unit_word "Kb") as Hu by (repeat constructor).
  split; [exact Hu|]. split; [reflexivity|].
  destruct (parse_size_show 4 1000 "Kb" H Hu eq_refl) as [_ E]. exact E.
Defined.

(** ** [pool.rs]: the buffer pool

    [BytesMut] is the [bytes] crate's; the pool uses three of its operations,
    given here as an interface with the documented behaviour it relies on:
    clearing a buffer empties it and keeps its capacity. *)
Class BytesMutOps (BytesMut : Type) := {
  bm_capacity : BytesMut -> Z;
  bm_len : BytesMut -> Z;
  bm_clear : BytesMut -> BytesMut;
  bm_with_capacity : Z -> BytesMut;
  bm_clear_len b : bm_len (bm_clear b) = 0;
  bm_clear_capacity b : bm_capacity (bm_clear b) = bm_capacity b;
  bm_new_len c : bm_len (bm_with_capacity c) = 0;
  bm_len_capacity b : 0 <= bm_len b <= bm_capacity b;
}.

Section BufferPool.
Context {BytesMut : Type} `{BytesMutOps BytesMut}.

Record BufferPool := mk_pool {
  pool_free : list BytesMut; (* the last pushed buffer first *)
  pool_buf_capacity : Z;
  pool_max_retained : Z;
}.

Definition pool_new (buf_capacity max_retained : Z) : BufferPool :=
  mk_pool [] buf_capacity max_retained.

Definition pool_take (p : BufferPool) : BytesMut * BufferPool :=
  match pool_free p with
  | buf :: free => (bm_clear buf, mk_pool free (pool_buf_capacity p) (pool_max_retained p))
  | [] => (bm_with_capacity (pool_buf_capacity p), p)
  end.

Definition pool_retained (p : BufferPool) : Z := Z.of_nat (length (pool_free p)).

Definition pool_give (p : BufferPool) (buf : BytesMut) : BufferPool :=
  if ((pool_retained p <? pool_max_retained p)
      && (bm_capacity buf <=? pool_buf_capacity p))%Z
  then mk_pool (buf :: pool_free p) (pool_buf_capacity p) (pool_max_retained p)
  else p.

(** The operations a worker performs on its pool. *)
Inductive pool_step : BufferPool -> BufferPool -> Prop :=
| step_take p buf p' : pool_take p = (buf, p') -> pool_step p p'
| step_give p buf : pool_step p (pool_give p buf).

(** Bytes of capacity the idle pool holds on to. *)
Definition pool_idle_bytes (p : BufferPool) : Z :=
  foldr (fun b n => bm_capacity b + n) 0 (pool_free p).

Definition pool_inv (cap max : Z) (p : BufferPool) : Prop :=
  pool_buf_capacity p = cap /\ pool_max_retained p = max
  /\ pool_retained p <= max /\ Forall (fun b => bm_capacity b <= cap) (pool_free p).

Lemma pool_step_inv cap max p p' : pool_step p p' -> pool_inv cap max p -> pool_inv cap max p'.
Proof.
  intros Hstep (? & ? & Hr & Hf). unfold pool_inv, pool_retained in *.
  destruct Hstep as [p buf p' E|p buf].
  - unfold pool_take in E. destruct (pool_free p) as [|b free] eqn:F; simplify_eq/=.
    + rewrite F. auto.
    + apply Forall_cons in Hf as [_ Hf]. repeat split; auto. lia.
  - unfold pool_give, pool_retained. case_match eqn:G; [|auto].
    apply andb_true_iff in G as [?%Z.ltb_lt ?%Z.leb_le]. simpl. repeat split; auto.
    + simpl. lia.
    + constructor; auto. lia.
Qed.

Lemma pool_idle_bound cap max p : 0 <= cap -> pool_inv cap max p -> pool_idle_bytes p <= cap * max.
Proof.
  intros Hc (_ & _ & Hr & Hf). unfold pool_retained, pool_idle_bytes in *.
  assert (foldr (fun b n => bm_capacity b + n) 0 (pool_free p)
          <= cap * Z.of_nat (length (pool_free p))) as Hb.
  { clear Hr. induction Hf; cbn [foldr length]; [lia|]. rewrite Nat2Z.inj_succ. lia. }
  nia.
Qed.

(** The pool stays bounded: along any sequence of takes and gives, a fresh
    pool never retains more than [max_retained] buffers, none larger than
    [buf_capacity], so idle memory is at most their product; and every buffer
    handed out is empty. *)
Theorem pool_bounded (cap max : Z) (p : BufferPool) :
  0 <= cap -> 0 <= max -> rtc pool_step (pool_new cap max) p ->
  pool_retained p <= max /\ pool_idle_bytes p <= cap * max
  /\ bm_len (pool_take p).1 = 0.
Proof.
  intros Hc Hm Hr.
  assert (pool_inv cap max p) as Hinv.
  { eapply (rtc_ind_r (pool_inv cap max)); [|by eauto using pool_step_inv|exact Hr].
    repeat split; simpl; auto. }
  split; [apply Hinv|]. split; [by apply pool_idle_bound|].
  unfold pool_take. case_match; [apply bm_new_len|apply bm_clear_len].
Qed.
End BufferPool.

(** A buffer as its length and capacity, to show the interface can be met. *)
#[local] Program Instance pair_bytes_mut : BytesMutOps (nat * nat) := {
  bm_capacity b := Z.of_nat (b.1 + b.2);
  bm_len b := Z.of_nat b.1;
  bm_clear b := (0, b.1 + b.2)%nat;
  bm_with_capacity c := (0, Z.to_nat c)%nat;
}.
Solve Obligations with (simpl; intros; lia).

Lemma pool_bounded_witness :
  pool_retained (pool_give (pool_new (BytesMut := nat * nat) 64 1) (3, 61)%nat) = 1
  /\ pool_retained (pool_give (pool_new (BytesMut := nat * nat) 64 1) (3, 61)%nat) <= 1.
Proof.
  split; [reflexivity|].
  apply (pool_bounded 64 1); [lia|lia|]. eapply rtc_l; [|apply rtc_refl]. constructor.
Defined.
