(* ===== verification/FlowSyntax.v ===== *)
(** * [pulsate-flow]: spans, diagnostics, values and the syntax tree

    [span.rs], [diag.rs], [value.rs] and [ast.rs].  Offsets and lengths are
    byte counts; a floating-point literal is the correctly rounded binary64
    value of its decimal text, as [str::parse::<f64>] computes it. *)

From Stdlib Require Import ZArith Ascii String Lia SpecFloat.
From stdpp Require Import base option list gmap strings pretty.
From S2P Require Import Prelude RustStr CoreTypes UtilParse.
Local Open Scope string_scope.

(** ** [span.rs] *)
(** Offsets and lengths are [usize]; lines and columns are [u32]. *)
Record Span := mk_span { offset : nat; len : nat; line : Z; col : Z }.

#[global] Instance Span_eq_dec : EqDecision Span.
Proof. solve_decision. Defined.

Definition span_end (s : Span) : nat := offset s + len s.
Definition collapsed (s : Span) : Span := mk_span (offset s) 0 (line s) (col s).

Definition newline : ascii := "010"%char.
Definition carriage_return : ascii := "013"%char.
Definition tab : ascii := "009"%char.

Record Source := mk_source {
  source_name : string;
  source_text : string;
  line_starts : list nat;
}.

Fixpoint newline_ends (i : nat) (bs : list ascii) : list nat :=
  match bs with
  | [] => []
  | b :: bs' =>
    if Ascii.eqb b newline then S i :: newline_ends (S i) bs' else newline_ends (S i) bs'
  end.

Definition source_new (name text : string) : Source :=
  mk_source name text (0 :: newline_ends 0 (bytes_of text)).

Definition line_text {E} (s : Source) (line : Z) : exec E string :=
  let idx := Z.to_nat line - 1 in
  let start := default 0 (line_starts s !! idx) in
  let fin := default (String.length (source_text s)) (line_starts s !! S idx) in
  t ← slice (bytes_of (source_text s)) start fin;
  mret (trim_end_matches (fun c => Ascii.eqb c newline || Ascii.eqb c carriage_return) t).

(** ** [diag.rs] *)
Inductive Severity := Error | Warning.

#[global] Instance Severity_eq_dec : EqDecision Severity.
Proof. solve_decision. Defined.

Definition severity_as_str (s : Severity) : string :=
  match s with
  | Error => "error"
  | Warning => "warning"
  end.

Record Diagnostic := mk_diag {
  diag_severity : Severity;
  diag_code : Code;
  diag_message : string;
  diag_span : Span;
  diag_help : option string;
}.

#[global] Instance Diagnostic_eq_dec : EqDecision Diagnostic.
Proof. solve_decision. Defined.

Definition diag_error (code : Code) (message : string) (span : Span) : Diagnostic :=
  mk_diag Error code message span None.
Definition diag_warning (code : Code) (message : string) (span : Span) : Diagnostic :=
  mk_diag Warning code message span None.
Definition with_help (d : Diagnostic) (help : string) : Diagnostic :=
  mk_diag (diag_severity d) (diag_code d) (diag_message d) (diag_span d) (Some help).

Definition show_nat (n : nat) : string := show_u (Z.of_nat n).
Definition repeat_char (c : ascii) (n : nat) : string := str_of (replicate n c).
Definition nl : string := String newline "".

Definition render {E} (d : Diagnostic) (source : Source) : exec E string :=
  let line_no := line (diag_span d) in
  line_text ← line_text source line_no;
  let gutter_w := String.length (show_u line_no) in
  let pad := repeat_char " " gutter_w in
  let caret_len := Nat.max (len (diag_span d)) 1 in
  let underline := repeat_char " " (Z.to_nat (col (diag_span d)) - 1) +:+ repeat_char "^" caret_len in
  mret (
    severity_as_str (diag_severity d) +:+ "[" +:+ code_display (diag_code d) +:+ "]: "
      +:+ diag_message d +:+ nl
    +:+ pad +:+ "┌─ " +:+ source_name source +:+ ":" +:+ show_u line_no +:+ ":"
      +:+ show_u (col (diag_span d)) +:+ nl
    +:+ pad +:+ " │" +:+ nl
    +:+ show_u line_no +:+ " │ " +:+ line_text +:+ nl
    +:+ pad +:+ " │ " +:+ underline +:+ nl
    +:+ match diag_help d with
        | Some help => pad +:+ " = help: " +:+ help +:+ nl
        | None => ""
        end).

(** ** [value.rs] *)
Inductive RateWindow := Second | Minute | Hour.

#[global] Instance RateWindow_eq_dec : EqDecision RateWindow.
Proof. solve_decision. Defined.

(** A node with its span. *)
Record Spanned (T : Type) := mk_spanned { node : T; span_of : Span }.
Arguments mk_spanned {T} _ _.
Arguments node {T} _.
Arguments span_of {T} _.

Inductive Value :=
| VStr (s : string)
| VInt (i : Z)
| VFloat (f : spec_float)
| VBool (b : bool)
| VDuration (d : Duration)
| VSize (n : Z)
| VRate (count : Z) (per : RateWindow)
| VArray (items : list (Spanned Value))
| VRef (name : string)
| VSecret (name : string)
| VEnv (var : string) (dflt : option string).

Definition type_name (v : Value) : string :=
  match v with
  | VStr _ => "string"
  | VInt _ => "int"
  | VFloat _ => "float"
  | VBool _ => "bool"
  | VDuration _ => "duration"
  | VSize _ => "size"
  | VRate _ _ => "rate"
  | VArray _ => "array"
  | VRef _ => "ref"
  | VSecret _ => "secret"
  | VEnv _ _ => "env"
  end.

Definition has_numeric_prefix (s : string) : bool :=
  match s with
  | String c _ => is_ascii_digit c
  | "" => false
  end.

(** [str::parse::<f64>] on a string of digits and dots: at most one dot, at
    least one digit; the nearest binary64 value, ties to even. *)
Definition parse_f64_plain (s : string) : option spec_float :=
  let '(ip, fp) := match split_once "." s with Some p => p | None => (s, "") end in
  if contains "." fp || (ip +:+ fp =? "") then None
  else
    m ← digits_val 0 (ip +:+ fp);
    match m with
    | Zpos p =>
      let scale := Z.to_pos (10 ^ Z.of_nat (String.length fp)) in
      Some (SFdiv 53 1024 (S754_finite false p 0) (S754_finite false scale 0))
    | _ => Some (S754_zero false)
    end.

Definition try_float (s : string) : option spec_float :=
  if contains "." s && forallb (fun b => is_ascii_digit b || Ascii.eqb b "."%char) (bytes_of s)
  then parse_f64_plain s
  else None.

Definition try_rate (s : string) : option Value :=
  '(num, unit) ← split_once "/" s;
  count ← parse_unsigned u64_max num;
  per ← match unit with
        | "s" | "sec" => Some Second
        | "min" | "m" => Some Minute
        | "h" | "hr" => Some Hour
        | _ => None
        end;
  Some (VRate count per).

Definition type_atom (raw : string) : Value :=
  match strip_prefix "@" raw with
  | Some name => VRef name
  | None =>
    match strip_prefix "secret://" raw with
    | Some name => VSecret name
    | None =>
      match raw with
      | "true" | "on" => VBool true
      | "false" | "off" => VBool false
      | _ =>
        match try_rate raw with
        | Some rate => rate
        | None =>
          match parse_i64 raw with
          | Some i => VInt i
          | None =>
            match try_float raw with
            | Some f => VFloat f
            | None =>
              if has_numeric_prefix raw then
                match parse_duration raw with
                | Ok d => VDuration d
                | _ =>
                  match parse_size raw with
                  | Ok s => VSize s
                  | _ => VStr raw
                  end
                end
              else VStr raw
            end
          end
        end
      end
    end
  end.

Definition type_env (inner : string) : Value :=
  match split_once ":-" inner with
  | Some (var, dflt) => VEnv (trim var) (Some dflt)
  | None => VEnv (trim inner) None
  end.

(** ** [ast.rs] *)
Inductive Arg :=
| Positional (v : Spanned Value)
| Named (name : Spanned string) (value : Spanned Value).

Definition arg_span (a : Arg) : Span :=
  match a with
  | Positional v => span_of v
  | Named name value =>
    mk_span (offset (span_of name)) (span_end (span_of value) - offset (span_of name))
      (line (span_of name)) (col (span_of name))
  end.

Module MatchKind.
Inductive MatchKind := Prefix | Exact | Regex.
#[global] Instance MatchKind_eq_dec : EqDecision MatchKind.
Proof. solve_decision. Defined.
End MatchKind.

Record Predicate := mk_predicate {
  pred_key : string;
  pred_value : string;
  pred_span : Span;
}.

Record Matcher := mk_matcher {
  matcher_kind : MatchKind.MatchKind;
  matcher_pattern : Spanned string;
  matcher_predicates : list Predicate;
  matcher_span : Span;
}.

Record Step := mk_step {
  step_name : Spanned string;
  step_args : list Arg;
  has_parens : bool;
  step_span : Span;
}.

Record Route := mk_route {
  route_matcher : Matcher;
  route_steps : list Step;
  route_span : Span;
}.

Record Directive := mk_directive {
  directive_keyword : Spanned string;
  directive_args : list Arg;
  directive_span : Span;
}.

(** A statement; a block carries its keyword, arguments, body and span. *)
Inductive Stmt :=
| SBlock (keyword : Spanned string) (args : list Arg) (body : list Stmt) (span : Span)
| SDirective (d : Directive)
| SRoute (r : Route).

Definition stmt_span (s : Stmt) : Span :=
  match s with
  | SBlock _ _ _ sp => sp
  | SDirective d => directive_span d
  | SRoute r => route_span r
  end.

Record Ast := mk_ast { stmts : list Stmt }.
