(* ===== verification/FlowAtoms.v ===== *)
(** * [pulsate-flow]: the types of bare words

    [value.rs] types a bare word by its spelling.  The words that generated
    configurations are made of: names, addresses, references, counts. *)

From Stdlib Require Import ZArith Ascii String Lia.
From stdpp Require Import base option list gmap strings.
From S2P Require Import Prelude RustStr UtilParse FlowSyntax.
Local Open Scope string_scope.
Local Open Scope list_scope.
Local Open Scope Z_scope.


(** No digit, sign or dot at the head: not a number of any kind. *)
Definition wordy (c : ascii) : Prop := is_ascii_digit c = false /\ c <> "+"%char /\ c <> "-"%char /\ c <> "."%char.

Lemma parse_digits_wordy max c s : is_ascii_digit c = false -> parse_digits max (String c s) = None.
Proof. intros Hc. unfold parse_digits. cbn. by rewrite Hc. Qed.

Lemma parse_unsigned_wordy max c s : wordy c -> parse_unsigned max (String c s) = None.
Proof.
  intros (Hd & Hp & _). unfold parse_unsigned. cbn [strip_prefix].
  destruct (Ascii.eqb_spec "+" c); [by subst|]. by apply parse_digits_wordy.
Qed.

Lemma split_once_head d c s a b : split_once (String d "") (String c s) = Some (a, b) -> a = "" \/ exists a', a = String c a'.
Proof. cbn. destruct (Ascii.eqb d c); [intros [= <- _]; by left|]. cbn. case_match; [|done]. destruct p. cbn. intros [= <- _]. right. eauto. Qed.

Definition switch_words : list string := ["true"; "on"; "false"; "off"].
Lemma not_switch {A} raw (t f d : A) : raw ∉ switch_words ->
  match raw with "true" | "on" => t | "false" | "off" => f | _ => d end = d.
Proof. intros H. unfold switch_words in H. repeat case_match; subst; try reflexivity; exfalso; apply H; set_solver. Qed.

Lemma type_atom_read raw : strip_prefix "@" raw = None -> strip_prefix "secret://" raw = None -> raw ∉ switch_words ->
  type_atom raw =
    match try_rate raw with
    | Some rate => rate
    | None =>
      match parse_i64 raw with
      | Some i => VInt i
      | None =>
        match try_float raw with
        | Some f => VFloat f
        | None =>
          if has_numeric_prefix raw then
            match parse_duration raw with
            | Ok d => VDuration d
            | _ => match parse_size raw with Ok s => VSize s | _ => VStr raw end
            end
          else VStr raw
        end
      end
    end.
Proof. intros Ha Hs Hn. unfold type_atom. rewrite Ha, Hs. exact (not_switch raw _ _ _ Hn). Qed.

(** An atom that starts like a word is a string, but for the switches. *)
Lemma type_atom_wordy c s :
  wordy c -> c <> "@"%char -> strip_prefix "secret://" (String c s) = None -> String c s ∉ switch_words ->
  type_atom (String c s) = VStr (String c s).
Proof.
  intros Hw Ha Hs Hn. rewrite type_atom_read; [|cbn [strip_prefix]; by destruct (Ascii.eqb_spec "@" c)|done|done].
  assert (try_rate (String c s) = None) as ->.
  { unfold try_rate. destruct (split_once "/" (String c s)) as [[a b]|] eqn:E; [|done]. cbn [mbind option_bind].
    destruct (split_once_head _ _ _ _ _ E) as [->|[a' ->]]; [done|]. by rewrite parse_unsigned_wordy. }
  pose proof Hw as (Hd & _ & Hm & Hdot).
  assert (parse_i64 (String c s) = None) as ->.
  { unfold parse_i64. cbn [strip_prefix]. destruct (Ascii.eqb_spec "-" c); [by subst|]. by apply parse_unsigned_wordy. }
  assert (try_float (String c s) = None) as ->.
  { unfold try_float. cbn [bytes_of list_ascii_of_string forallb]. rewrite Hd. cbn [orb].
    destruct (Ascii.eqb_spec c "."); [by subst|]. by rewrite andb_false_r. }
  cbn [has_numeric_prefix]. by rewrite Hd.
Qed.

Lemma type_atom_ref name : type_atom ("@" +:+ name) = VRef name.
Proof. rewrite append_cons, append_nil_l. reflexivity. Qed.

Lemma type_atom_show w : 0 <= w <= u32_max -> type_atom (show_u w) = VInt w.
Proof.
  intros Hw. pose proof (show_u_nonempty w) as Hne. pose proof (show_u_digits w ltac:(lia)) as Hd.
  pose proof (parse_unsigned_show i64_max w ltac:(unfold u32_max, i64_max in *; lia)) as Hp.
  assert (Hslash : split_once "/" (show_u w) = None).
  { clear -Hd. induction (show_u w) as [|c s IH]; [done|]. apply Forall_cons in Hd as [Hc Hd]. cbn [split_once strip_prefix].
    destruct (Ascii.eqb_spec "/" c) as [<-|]; [done|]. by rewrite IH. }
  destruct (show_u w) as [|c s] eqn:E; [done|]. apply Forall_cons in Hd as [Hc Hd].
  assert (Hnot : forall k, is_ascii_digit k = false -> Ascii.eqb k c = false).
  { intros k Hk. destruct (Ascii.eqb_spec k c); [congruence|done]. }
  rewrite type_atom_read; [| | |].
  - unfold try_rate, parse_i64. rewrite Hslash. cbn [mbind option_bind strip_prefix]. by rewrite Hnot, Hp.
  - cbn [strip_prefix]. by rewrite Hnot.
  - cbn [strip_prefix]. by rewrite Hnot.
  - intros H. repeat (apply elem_of_cons in H as [[= -> _]|H]; [done|]). by apply elem_of_nil in H.
Qed.

Lemma try_rate_shape s r : try_rate s = Some r -> exists count per, r = VRate count per.
Proof.
  unfold try_rate. intros H. apply bind_Some in H as ([num unit] & _ & H). apply bind_Some in H as (count & _ & H).
  apply bind_Some in H as (per & _ & H). injection H as <-. by do 2 eexists.
Qed.

(** No bare word is an environment reference. *)
Lemma type_atom_env w var dflt : type_atom w <> VEnv var dflt.
Proof.
  destruct (strip_prefix "@" w) as [r|] eqn:Ea; [unfold type_atom; by rewrite Ea|].
  destruct (strip_prefix "secret://" w) as [r|] eqn:Es; [unfold type_atom; by rewrite Ea, Es|].
  destruct (decide (w ∈ switch_words)) as [Hw|Hw].
  { repeat (apply elem_of_cons in Hw as [->|Hw]; [done|]). by apply elem_of_nil in Hw. }
  rewrite type_atom_read by done. destruct (try_rate w) eqn:Er; [apply try_rate_shape in Er as (? & ? & ->); done|].
  destruct (parse_i64 w); [done|]. destruct (try_float w); [done|]. destruct (has_numeric_prefix w); [|done].
  destruct (parse_duration w); try done; by destruct (parse_size w).
Qed.
