(* ===== verification/FlowLexer.v ===== *)
(** * [pulsate-flow]: the lexer

    [lexer.rs], one definition per function.  The lexer state is the byte
    position and the 1-based line and column; loops take fuel, and
    [lex] gives each one more unit than there are bytes. *)

From Stdlib Require Import ZArith Ascii String Lia.
From stdpp Require Import base option list gmap strings.
From S2P Require Import Prelude RustStr CoreTypes FlowSyntax.
Local Open Scope rust_scope.
Local Open Scope string_scope.

Inductive TokenKind :=
| LBrace | RBrace | LParen | RParen | LBracket | RBracket | Comma | Equals | Arrow | Sep
| TStr (s : string)
| TEnv (inner : string)
| TAtom (raw : string)
| Eof.

#[global] Instance TokenKind_eq_dec : EqDecision TokenKind.
Proof. solve_decision. Defined.

Record Token := mk_token { tok_kind : TokenKind; tok_span : Span }.

#[global] Instance Token_eq_dec : EqDecision Token.
Proof. solve_decision. Defined.

Definition dquote : ascii := "034"%char.
Definition backslash : ascii := "092"%char.

Definition is_sep_byte (b : ascii) : bool := Ascii.eqb b newline || Ascii.eqb b ";"%char.
Definition is_horizontal (b : ascii) : bool :=
  Ascii.eqb b " "%char || Ascii.eqb b tab || Ascii.eqb b carriage_return.

(** The structural punctuation of [next_token]. *)
Definition single (b : ascii) : option TokenKind :=
  if Ascii.eqb b "{" then Some LBrace
  else if Ascii.eqb b "}" then Some RBrace
  else if Ascii.eqb b "(" then Some LParen
  else if Ascii.eqb b ")" then Some RParen
  else if Ascii.eqb b "[" then Some LBracket
  else if Ascii.eqb b "]" then Some RBracket
  else if Ascii.eqb b "," then Some Comma
  else if Ascii.eqb b "=" then Some Equals
  else None.

(** The bytes that end an atom, the [~>] lookahead apart. *)
Definition atom_stop (b : ascii) : bool :=
  is_horizontal b || Ascii.eqb b newline || Ascii.eqb b "#"
  || bool_decide (is_Some (single b)) || Ascii.eqb b dquote || Ascii.eqb b ";".

(** What an escape pushes: [other as char] is the Latin-1 reading of the byte. *)
Definition unescape (e : ascii) : string :=
  if Ascii.eqb e "n" then nl
  else if Ascii.eqb e "t" then String tab ""
  else if Ascii.eqb e "r" then String carriage_return ""
  else of_chars [byte_val e].

Record LexState := mk_lex { pos : nat; lex_line : Z; lex_col : Z }.

Section Lexer.
Variable text : string.
Let bytes : list ascii := bytes_of text.

Definition peek (st : LexState) : option ascii := bytes_of text !! pos st.
Definition peek2 (st : LexState) : option ascii := bytes_of text !! S (pos st).

(** [bump], after the byte [b] at the position was read. *)
Definition advance (st : LexState) (b : ascii) : LexState :=
  if Ascii.eqb b newline then mk_lex (S (pos st)) (lex_line st +₃₂ 1) 1
  else mk_lex (S (pos st)) (lex_line st) (lex_col st +₃₂ 1).

Definition bump (st : LexState) : exec Diagnostic LexState :=
  match peek st with
  | Some b => Ok (advance st b)
  | None => Panic
  end.

Definition here (st : LexState) (n : nat) : Span := mk_span (pos st) n (lex_line st) (lex_col st).

Definition loop_fuel : nat := S (length (bytes_of text)).

(** Skip to the end of the line. *)
Fixpoint skip_comment (fuel : nat) (st : LexState) : exec Diagnostic LexState :=
  match fuel with
  | O => OutOfFuel
  | S n =>
    match peek st with
    | Some c => if Ascii.eqb c newline then Ok st else st' ← bump st; skip_comment n st'
    | None => Ok st
    end
  end.

Fixpoint skip_horizontal (fuel : nat) (st : LexState) : exec Diagnostic LexState :=
  match fuel with
  | O => OutOfFuel
  | S n =>
    match peek st with
    | Some b =>
      if is_horizontal b then st' ← bump st; skip_horizontal n st'
      else if Ascii.eqb b "#" then st' ← skip_comment loop_fuel st; skip_horizontal n st'
      else Ok st
    | None => Ok st
    end
  end.

Fixpoint consume_separator_run (fuel : nat) (st : LexState) : exec Diagnostic LexState :=
  match fuel with
  | O => OutOfFuel
  | S n =>
    match peek st with
    | Some b =>
      if is_sep_byte b || is_horizontal b then st' ← bump st; consume_separator_run n st'
      else if Ascii.eqb b "#" then st' ← skip_comment loop_fuel st; consume_separator_run n st'
      else Ok st
    | None => Ok st
    end
  end.

(** The continuation bytes after the first byte of a character. *)
Fixpoint skip_continuation (fuel : nat) (st : LexState) : exec Diagnostic LexState :=
  match fuel with
  | O => OutOfFuel
  | S n =>
    match peek st with
    | Some c => if is_cont c then st' ← bump st; skip_continuation n st' else Ok st
    | None => Ok st
    end
  end.

Section Token.
(** Where the token under construction starts. *)
Variables (start : nat) (tline tcol : Z).

Definition span_from (st : LexState) : Span := mk_span start (pos st - start) tline tcol.

Fixpoint lex_string_loop (fuel : nat) (value : string) (st : LexState)
    : exec Diagnostic (Token * LexState) :=
  match fuel with
  | O => OutOfFuel
  | S n =>
    match peek st with
    | None =>
      Err (with_help (diag_error CFG_SYNTAX "unterminated string literal" (span_from st))
             ("add a closing `" +:+ String dquote "`"))
    | Some b =>
      if Ascii.eqb b dquote then
        st' ← bump st;
        Ok (mk_token (TStr value) (span_from st'), st')
      else if Ascii.eqb b backslash then
        st1 ← bump st;
        match peek st1 with
        | None => lex_string_loop n value st1
        | Some e =>
          st2 ← bump st1;
          lex_string_loop n (value +:+ unescape e) st2
        end
      else
        st1 ← bump st;
        st2 ← skip_continuation loop_fuel st1;
        piece ← slice (bytes_of text) (pos st) (pos st2);
        lex_string_loop n (value +:+ piece) st2
    end
  end.

Definition lex_string (st : LexState) : exec Diagnostic (Token * LexState) :=
  st' ← bump st;
  lex_string_loop loop_fuel "" st'.

Fixpoint lex_env_loop (fuel : nat) (inner_start : nat) (st : LexState)
    : exec Diagnostic (Token * LexState) :=
  match fuel with
  | O => OutOfFuel
  | S n =>
    match peek st with
    | None =>
      Err (with_help
             (diag_error CFG_SYNTAX "unterminated `${...}` environment reference" (span_from st))
             "add a closing `}`")
    | Some b =>
      if Ascii.eqb b "}" then
        inner ← slice (bytes_of text) inner_start (pos st);
        st' ← bump st;
        Ok (mk_token (TEnv inner) (span_from st'), st')
      else st' ← bump st; lex_env_loop n inner_start st'
    end
  end.

Definition lex_env (st : LexState) : exec Diagnostic (Token * LexState) :=
  st1 ← bump st;
  st2 ← bump st1;
  lex_env_loop loop_fuel (pos st2) st2.

Fixpoint lex_atom_loop (fuel : nat) (st : LexState) : exec Diagnostic LexState :=
  match fuel with
  | O => OutOfFuel
  | S n =>
    match peek st with
    | Some b =>
      if atom_stop b || (Ascii.eqb b "~" && bool_decide (peek2 st = Some ">"%char))
      then Ok st
      else st' ← bump st; lex_atom_loop n st'
    | None => Ok st
    end
  end.

Definition lex_atom (st : LexState) : exec Diagnostic (Token * LexState) :=
  st' ← lex_atom_loop loop_fuel st;
  raw ← slice (bytes_of text) start (pos st');
  Ok (mk_token (TAtom raw) (span_from st'), st').
End Token.

Definition next_token (st : LexState) : exec Diagnostic (Token * LexState) :=
  let start := pos st in
  let line := lex_line st in
  let col := lex_col st in
  match peek st with
  | None => Panic (* expect("next_token called at EOF") *)
  | Some b =>
    match single b with
    | Some kind =>
      st' ← bump st;
      Ok (mk_token kind (mk_span start 1 line col), st')
    | None =>
      if Ascii.eqb b "~" && bool_decide (peek2 st = Some ">"%char) then
        st1 ← bump st;
        st2 ← bump st1;
        Ok (mk_token Arrow (mk_span start 2 line col), st2)
      else if Ascii.eqb b dquote then lex_string start line col st
      else if Ascii.eqb b "$" && bool_decide (peek2 st = Some "{"%char) then
        lex_env start line col st
      else lex_atom start line col st
    end
  end.

Fixpoint run (fuel : nat) (st : LexState) : exec Diagnostic (list Token) :=
  match fuel with
  | O => OutOfFuel
  | S n =>
    st ← skip_horizontal loop_fuel st;
    match peek st with
    | None => Ok [mk_token Eof (here st 0)]
    | Some b =>
      if is_sep_byte b then
        st' ← consume_separator_run loop_fuel st;
        rest ← run n st';
        Ok (mk_token Sep (span_from (pos st) (lex_line st) (lex_col st) st') :: rest)
      else
        '(t, st') ← next_token st;
        rest ← run n st';
        Ok (t :: rest)
    end
  end.

Definition lexer_new : LexState := mk_lex 0 1 1.
Definition lex : exec Diagnostic (list Token) := run loop_fuel lexer_new.
End Lexer.

