(* ===== verification/FlowLexerSpec.v ===== *)
(** * Correctness of the Flow lexer

    A declarative description of what the tokens of a source text are
    ([lexed]) and the proof that [lex] produces exactly such tokens, always
    returns, and panics only on a backslash followed by a byte outside ASCII. *)

From Stdlib Require Import ZArith Ascii String Lia.
From stdpp Require Import base option list gmap strings.
From S2P Require Import Prelude RustStr CoreTypes FlowSyntax FlowLexer.
Local Open Scope string_scope.
Local Open Scope list_scope.

(** ** The specification *)

(** The bytes from [p] up to [q]. *)
Definition range (bs : list ascii) (p q : nat) : list ascii := take (q - p) (drop p bs).

(** 1-based line and column of the position after the bytes [pre]. *)
Definition spec_line (pre : list ascii) : nat := S (length (filter (fun c => c = newline) pre)).
Fixpoint until_newline (l : list ascii) : nat :=
  match l with
  | [] => 0
  | c :: l' => if Ascii.eqb c newline then 0 else S (until_newline l')
  end.
Definition spec_col (pre : list ascii) : nat := S (until_newline (reverse pre)).

(** Horizontal white space, with at most one comment, at its end. *)
Inductive trivia : list ascii -> Prop :=
| trivia_nil : trivia []
| trivia_ws c l : is_horizontal c = true -> trivia l -> trivia (c :: l)
| trivia_comment body :
    Forall (fun c => c <> newline) body -> trivia ("#"%char :: body).

(** A run of separators with white space and comments in between. *)
Inductive sep_run : list ascii -> Prop :=
| sep_nil : sep_run []
| sep_byte c l : is_sep_byte c || is_horizontal c = true -> sep_run l -> sep_run (c :: l)
| sep_comment body l :
    Forall (fun c => c <> newline) body -> sep_run l -> sep_run ("#"%char :: body ++ l).

(** The contents of a string literal and the string it denotes. *)
Inductive literal : list ascii -> string -> Prop :=
| lit_nil : literal [] ""
| lit_char c l s :
    c <> dquote -> c <> backslash -> literal l s -> literal (c :: l) (String c s)
| lit_escape e l s : literal l s -> literal (backslash :: e :: l) (unescape e +:+ s).

(** A byte that can belong to an atom. *)
Definition atom_byte (c : ascii) : Prop := atom_stop c = false.

(** The source bytes of a token of each kind. *)
Definition token_source (k : TokenKind) (src : list ascii) : Prop :=
  match k with
  | Arrow => src = bytes_of "~>"
  | Sep => exists c r, src = c :: r /\ is_sep_byte c = true /\ sep_run src
  | TStr s => exists body, src = dquote :: body ++ [dquote] /\ literal body s
  | TEnv inner =>
    src = bytes_of "${" ++ bytes_of inner ++ bytes_of "}" /\ "}"%char ∉ bytes_of inner
  | TAtom raw => src = bytes_of raw /\ src <> [] /\ Forall atom_byte src
  | Eof => src = []
  | _ => exists c, src = [c] /\ single c = Some k
  end.

Section Spec.
Variable bs : list ascii.

(** The line and the column of a position, in 32 bits. *)
Definition located (p : nat) (l c : Z) : Prop :=
  l = wrap_u32 (Z.of_nat (spec_line (take p bs))) /\ c = wrap_u32 (Z.of_nat (spec_col (take p bs))).

(** [lexed p toks]: [toks] are the tokens of the bytes from [p] on. They cover
    the text up to trivia, each has the source its kind calls for and the line
    and column of its offset, separators are collapsed, and the only [Eof] is
    at the end of the text. *)
Fixpoint lexed (p : nat) (toks : list Token) : Prop :=
  match toks with
  | [] => False
  | t :: rest =>
    let sp := tok_span t in
    p <= offset sp /\ span_end sp <= length bs
    /\ trivia (range bs p (offset sp))
    /\ located (offset sp) (line sp) (col sp)
    /\ token_source (tok_kind t) (range bs (offset sp) (span_end sp))
    /\ (tok_kind t = Eof -> rest = [] /\ offset sp = length bs)
    /\ (tok_kind t = Sep -> forall t', head rest = Some t' -> tok_kind t' <> Sep)
    /\ (tok_kind t <> Eof -> lexed (span_end sp) rest)
  end.
End Spec.

(** In a text of less than 4 GiB the positions are exact. *)
Lemma spec_line_le pre : spec_line pre <= S (length pre).
Proof. unfold spec_line. pose proof (length_filter (fun c => c = newline) pre). lia. Qed.
Lemma until_newline_le l : until_newline l <= length l.
Proof. induction l as [|c l IH]; simpl; [lia|]. case_match; lia. Qed.
Lemma located_exact bs p l c : located bs p l c -> (Z.of_nat (length bs) < u32_max)%Z ->
  l = Z.of_nat (spec_line (take p bs)) /\ c = Z.of_nat (spec_col (take p bs)).
Proof.
  intros [-> ->] Hlen. pose proof (spec_line_le (take p bs)) as Hl. pose proof (until_newline_le (reverse (take p bs))) as Hc.
  rewrite length_reverse in Hc. rewrite length_take in Hl, Hc. unfold spec_col. split; apply wrap_u32_small; lia.
Qed.

(** Every backslash is followed by an ASCII byte. *)
Fixpoint escapes_ascii (l : list ascii) : bool :=
  match l with
  | [] => true
  | c :: l' =>
    (negb (Ascii.eqb c backslash) || match l' with e :: _ => is_ascii e | [] => true end)
    && escapes_ascii l'
  end.

(** The errors of the lexer. *)
Definition lex_error (e : Diagnostic) : Prop :=
  diag_code e = CFG_SYNTAX /\ diag_severity e = Error
  /\ (diag_message e = "unterminated string literal"
      \/ diag_message e = "unterminated `${...}` environment reference").

(** ** Ranges and positions *)
Lemma range_nil bs p : range bs p p = [].
Proof. unfold range. by rewrite Nat.sub_diag. Qed.

Lemma range_app bs p q r : p <= q <= r -> range bs p q ++ range bs q r = range bs p r.
Proof.
  intros. unfold range. replace (r - p) with ((q - p) + (r - q)) by lia.
  rewrite <-take_take_drop, drop_drop. by replace (p + (q - p)) with q by lia.
Qed.

Lemma range_cons bs p q b : bs !! p = Some b -> p < q -> range bs p q = b :: range bs (S p) q.
Proof.
  intros Hb Hq. unfold range. rewrite (drop_S _ _ _ Hb).
  by replace (q - p) with (S (q - S p)) by lia.
Qed.

Lemma range_one bs p b : bs !! p = Some b -> range bs p (S p) = [b].
Proof. intros. rewrite (range_cons _ _ _ b) by (done || lia). by rewrite range_nil. Qed.

Lemma range_snoc bs p q b : bs !! q = Some b -> p <= q -> range bs p (S q) = range bs p q ++ [b].
Proof. intros. rewrite <-(range_app bs p q (S q)) by lia. by rewrite (range_one _ _ b). Qed.

Lemma spec_line_snoc pre b :
  spec_line (pre ++ [b]) = if Ascii.eqb b newline then S (spec_line pre) else spec_line pre.
Proof.
  unfold spec_line. rewrite filter_app, length_app. rewrite filter_cons, filter_nil.
  destruct (Ascii.eqb_spec b newline); case_decide; try done; simpl; lia.
Qed.

Lemma spec_col_snoc pre b :
  spec_col (pre ++ [b]) = if Ascii.eqb b newline then 1 else S (spec_col pre).
Proof. unfold spec_col. rewrite reverse_snoc. simpl. by case_match. Qed.

Lemma escapes_ascii_lookup l i e :
  escapes_ascii l = true -> l !! i = Some backslash -> l !! S i = Some e -> is_ascii e = true.
Proof.
  revert i. induction l as [|c l IH]; intros i H Hi He; [done|].
  simpl in H. apply andb_true_iff in H as [Hc Hl]. destruct i as [|i]; [|by eapply IH].
  simpl in Hi, He. injection Hi as ->. destruct l as [|e' l]; [done|].
  simpl in He. injection He as ->. by rewrite Ascii.eqb_refl in Hc.
Qed.

Section Facts.
Variable text : string.
Abbreviation B := (bytes_of text).

(** The lexer can panic only when this holds. *)
Definition bad_escape : Prop := utf8_valid text = false \/ escapes_ascii B = false.

Definition wf (st : LexState) : Prop :=
  pos st <= length B /\ located B (pos st) (lex_line st) (lex_col st).

(** The state is at a character boundary, unless the text may panic. *)
Definition at_boundary (st : LexState) : Prop :=
  bad_escape \/ match peek text st with Some c => is_cont c = false | None => True end.

Lemma wf_new : wf lexer_new.
Proof. split; [simpl; lia|]. split; reflexivity. Qed.

Lemma peek_Some_lt st b : peek text st = Some b -> pos st < length B.
Proof. apply lookup_lt_Some. Qed.

Lemma peek_None_eq st : wf st -> peek text st = None -> pos st = length B.
Proof. intros [Hle _] HN%lookup_ge_None. lia. Qed.

Lemma pos_advance st b : pos (advance st b) = S (pos st).
Proof. unfold advance. by case_match. Qed.

Lemma advance_wf st b : peek text st = Some b -> wf st -> wf (advance st b).
Proof.
  intros Hb [Hp [Hl Hc]]. pose proof (peek_Some_lt _ _ Hb). unfold peek in Hb.
  split; [rewrite pos_advance; lia|]. unfold located. rewrite pos_advance.
  rewrite (take_S_r _ _ _ Hb), spec_line_snoc, spec_col_snoc.
  unfold advance. destruct (Ascii.eqb b newline); cbn [lex_line lex_col]; (split; [|try done]).
  1: by rewrite Hl, wrap_u32_succ, Nat2Z.inj_succ.
  1: exact Hl.
  by rewrite Hc, wrap_u32_succ, Nat2Z.inj_succ.
Qed.

Lemma advance_boundary st b :
  peek text st = Some b -> is_ascii b = true -> at_boundary (advance st b).
Proof.
  intros Hb Ha. unfold at_boundary, bad_escape.
  destruct (utf8_valid text) eqn:Hv; [|by left; left]. right.
  unfold peek in *. rewrite pos_advance. case_match eqn:E; [|done].
  eauto using utf8_valid_after_ascii.
Qed.

Lemma new_boundary : at_boundary lexer_new.
Proof.
  unfold at_boundary, bad_escape. destruct (utf8_valid text) eqn:Hv; [|by left; left].
  right. unfold peek. simpl. case_match eqn:E; [|done]. eauto using utf8_valid_head.
Qed.

Lemma bump_Some st b : peek text st = Some b -> bump text st = Ok (advance st b).
Proof. unfold bump. by intros ->. Qed.

Lemma boundary_lookup st : wf st -> at_boundary st -> bad_escape \/ is_char_boundary B (pos st) = true.
Proof.
  intros Hwf [?|H]; [by left|right]. unfold is_char_boundary, peek in *.
  case_match eqn:E; [by rewrite H|]. apply bool_decide_eq_true. by apply peek_None_eq.
Qed.

Lemma slice_spec (a b : LexState) (Q : Diagnostic -> Prop) :
  wf a -> wf b -> pos a <= pos b -> at_boundary a -> at_boundary b ->
  exec_spec (slice B (pos a) (pos b)) (fun s => s = str_of (range B (pos a) (pos b))) Q bad_escape.
Proof.
  intros Ha Hb Hle Ba Bb. unfold slice. rewrite bool_decide_true by done.
  destruct (boundary_lookup a Ha Ba) as [? | ->]; [by case_match|].
  by destruct (boundary_lookup b Hb Bb) as [? | ->]; [case_match|].
Qed.

(** ** The loops *)

(** [st'] is reached from [st] by consuming the bytes [range B (pos st) (pos st')]. *)
Definition moved (st st' : LexState) : Prop := wf st' /\ pos st <= pos st'.

Lemma moved_refl st : wf st -> moved st st.
Proof. by split. Qed.

Lemma moved_advance st b : peek text st = Some b -> wf st -> moved st (advance st b).
Proof. intros. split; [by apply advance_wf|rewrite pos_advance; lia]. Qed.

Lemma moved_trans st1 st2 st3 : moved st1 st2 -> moved st2 st3 -> moved st1 st3.
Proof. intros [_ ?] [? ?]. split; [done|lia]. Qed.

(** The first byte consumed, when a loop moves on after it. *)
Lemma range_advance st st' b :
  peek text st = Some b -> moved (advance st b) st' ->
  range B (pos st) (pos st') = b :: range B (pos (advance st b)) (pos st').
Proof.
  intros Hb [_ H]. rewrite pos_advance in *. apply range_cons; [done|lia].
Qed.

Lemma skip_comment_spec n st :
  wf st -> length B - pos st < n ->
  exec_spec (skip_comment text n st)
    (fun st' => moved st st' /\ Forall (fun c => c <> newline) (range B (pos st) (pos st'))
                /\ (peek text st' = None \/ peek text st' = Some newline))
    (fun _ => False) False.
Proof.
  revert st. induction n as [|n IH]; intros st Hwf Hn; [lia|]. simpl.
  destruct (peek text st) as [c|] eqn:Hp.
  2:{ simpl. rewrite range_nil. auto using moved_refl. }
  destruct (Ascii.eqb_spec c newline) as [->|Hc].
  { simpl. rewrite range_nil. auto using moved_refl. }
  pose proof (peek_Some_lt _ _ Hp). rewrite (bump_Some _ _ Hp). cbn [mbind exec_bind].
  eapply exec_spec_mono; [apply IH; [by apply advance_wf|rewrite pos_advance; lia]| |done|done].
  intros st' (Hm & Hf & Hend). rewrite (range_advance st st' c) by done.
  split; [eapply moved_trans; [by apply moved_advance|done]|]. by split; [constructor|].
Qed.

(** Neither white space nor a comment comes next. *)
Definition after_trivia (st : LexState) : Prop :=
  match peek text st with
  | Some c => is_horizontal c = false /\ c <> "#"%char
  | None => True
  end.

Lemma fuel_enough st : length B - pos st < loop_fuel text.
Proof. unfold loop_fuel. lia. Qed.

Lemma horizontal_ascii c : is_horizontal c = true -> is_ascii c = true.
Proof.
  unfold is_horizontal. rewrite !orb_true_iff.
  by intros [[->%Ascii.eqb_eq| ->%Ascii.eqb_eq]| ->%Ascii.eqb_eq].
Qed.

Lemma sep_ascii c : is_sep_byte c = true -> is_ascii c = true.
Proof.
  unfold is_sep_byte. rewrite orb_true_iff. by intros [->%Ascii.eqb_eq| ->%Ascii.eqb_eq].
Qed.

Lemma end_of_line_boundary st :
  peek text st = None \/ peek text st = Some newline -> at_boundary st.
Proof. intros H. right. by destruct H as [-> | ->]. Qed.

(** After a comment the cursor is past the [#]. *)
Lemma comment_progress st st' :
  peek text st = Some "#"%char -> moved st st' ->
  (peek text st' = None \/ peek text st' = Some newline) -> pos st < pos st'.
Proof.
  intros Hp [Hwf Hle] Hend. destruct (decide (pos st = pos st')) as [E|]; [|lia].
  exfalso. unfold peek in *. rewrite E in Hp. naive_solver.
Qed.

Lemma skip_horizontal_spec n st :
  wf st -> at_boundary st -> length B - pos st < n ->
  exec_spec (skip_horizontal text n st)
    (fun st' => moved st st' /\ trivia (range B (pos st) (pos st'))
                /\ after_trivia st' /\ at_boundary st')
    (fun _ => False) False.
Proof.
  revert st. induction n as [|n IH]; intros st Hwf Hb Hn; [lia|]. cbn [skip_horizontal].
  assert (after_trivia st ->
    exec_spec (Ok (E := Diagnostic) st) (fun st' => moved st st' /\ trivia (range B (pos st) (pos st'))
                /\ after_trivia st' /\ at_boundary st') (fun _ => False) False) as Hstop.
  { intros. simpl. rewrite range_nil. auto using moved_refl, trivia_nil. }
  unfold after_trivia in Hstop at 1.
  destruct (peek text st) as [c|] eqn:Hp; [|by apply Hstop].
  destruct (is_horizontal c) eqn:Hc.
  - pose proof (peek_Some_lt _ _ Hp). rewrite (bump_Some _ _ Hp). cbn [mbind exec_bind].
    eapply exec_spec_mono; [apply IH| |done|done];
      [by apply advance_wf|eauto using advance_boundary, horizontal_ascii|rewrite pos_advance; lia|].
    intros st' (Hm & Ht & Ha & Hb'). rewrite (range_advance st st' c) by done.
    split; [eapply moved_trans; [by apply moved_advance|done]|]. by split; [constructor|].
  - destruct (Ascii.eqb_spec c "#") as [->|Hne]; [|by apply Hstop].
    exec_seq (skip_comment_spec _ _ Hwf (fuel_enough st));
      [done|done|].
    intros st1 (Hm1 & Hf & Hend). pose proof (comment_progress st st1 Hp Hm1 Hend) as Hlt.
    destruct Hm1 as [Hwf1 Hle]. destruct n as [|n].
    { exfalso. pose proof (peek_Some_lt _ _ Hp). lia. }
    assert (skip_horizontal text (S n) st1 = Ok st1) as ->.
    { simpl. by destruct Hend as [-> | ->]. }
    simpl. split; [by split|]. split.
    + rewrite (range_cons _ _ _ "#"%char) in Hf |- * by done. inversion Hf. by constructor.
    + split; [|by apply end_of_line_boundary]. unfold after_trivia.
      by destruct Hend as [-> | ->].
Qed.

(** One [bump] over the byte [Hp] says is next. *)
Ltac lex_bump Hp :=
  pose proof (peek_Some_lt _ _ Hp); rewrite (bump_Some _ _ Hp); cbn [mbind exec_bind].

Lemma consume_separator_run_spec n st :
  wf st -> at_boundary st -> length B - pos st < n ->
  exec_spec (consume_separator_run text n st)
    (fun st' => moved st st' /\ sep_run (range B (pos st) (pos st'))
                /\ after_trivia st' /\ at_boundary st'
                /\ match peek text st' with Some c => is_sep_byte c = false | None => True end)
    (fun _ => False) False.
Proof.
  revert st. induction n as [|n IH]; intros st Hwf Hb Hn; [lia|].
  cbn [consume_separator_run].
  destruct (peek text st) as [c|] eqn:Hp.
  2:{ simpl. rewrite range_nil. unfold after_trivia. rewrite Hp.
      auto using moved_refl, sep_nil. }
  destruct (is_sep_byte c || is_horizontal c) eqn:Hc.
  - lex_bump Hp.
    assert (at_boundary (advance st c)).
    { apply advance_boundary; [done|]. apply orb_true_iff in Hc as [?|?];
        auto using sep_ascii, horizontal_ascii. }
    eapply exec_spec_mono; [apply IH| |done|done];
      [by apply advance_wf|done|rewrite pos_advance; lia|].
    intros st' (Hm & Ht & Hrest). rewrite (range_advance st st' c) by done.
    split; [eapply moved_trans; [by apply moved_advance|done]|]. by split; [apply sep_byte|].
  - apply orb_false_iff in Hc as [Hs Hh].
    destruct (Ascii.eqb_spec c "#") as [->|Hne].
    + exec_seq (skip_comment_spec _ _ Hwf (fuel_enough st));
        [done|done|].
      intros st1 (Hm1 & Hf & Hend). pose proof (comment_progress st st1 Hp Hm1 Hend) as Hlt.
      pose proof (peek_Some_lt _ _ Hp). destruct Hm1 as [Hwf1 Hle].
      eapply exec_spec_mono; [apply IH| |done|done];
        [done|by apply end_of_line_boundary|lia|].
      intros st' (Hm & Ht & Hrest).
      split; [eapply moved_trans; [by split|done]|]. split; [|done].
      rewrite <-(range_app B _ (pos st1)) by (destruct Hm; lia).
      rewrite (range_cons _ _ _ "#"%char) in Hf |- * by done.
      apply Forall_cons in Hf as [_ Hf]. rewrite <-app_comm_cons. by apply sep_comment.
    + simpl. rewrite range_nil. unfold after_trivia. rewrite Hp.
      auto 10 using moved_refl, sep_nil.
Qed.

Lemma skip_continuation_spec n st :
  wf st -> length B - pos st < n ->
  exec_spec (skip_continuation text n st)
    (fun st' => moved st st' /\ Forall (fun c => is_cont c = true) (range B (pos st) (pos st'))
                /\ at_boundary st')
    (fun _ => False) False.
Proof.
  revert st. induction n as [|n IH]; intros st Hwf Hn; [lia|]. cbn [skip_continuation].
  destruct (peek text st) as [c|] eqn:Hp.
  2:{ simpl. rewrite range_nil. unfold at_boundary. rewrite Hp. auto using moved_refl. }
  destruct (is_cont c) eqn:Hc.
  2:{ simpl. rewrite range_nil. unfold at_boundary. rewrite Hp. auto using moved_refl. }
  lex_bump Hp.
  eapply exec_spec_mono; [apply IH; [by apply advance_wf|rewrite pos_advance; lia]| |done|done].
  intros st' (Hm & Hf & Hend). rewrite (range_advance st st' c) by done.
  split; [eapply moved_trans; [by apply moved_advance|done]|]. by split; [constructor|].
Qed.

(** ** Tokens *)

(** What a token that starts at [st0] and ends at [st'] must satisfy. *)
Definition token_at (st0 : LexState) (t : Token) (st' : LexState) : Prop :=
  moved st0 st' /\ at_boundary st' /\ tok_kind t <> Eof /\ tok_kind t <> Sep
  /\ tok_span t = mk_span (pos st0) (pos st' - pos st0) (lex_line st0) (lex_col st0)
  /\ token_source (tok_kind t) (range B (pos st0) (pos st')).

Lemma literal_app l1 s1 l2 s2 : literal l1 s1 -> literal l2 s2 -> literal (l1 ++ l2) (s1 +:+ s2).
Proof.
  intros H1 H2. induction H1 as [|c l s ?? H1 IH|e l s H1 IH].
  - by rewrite append_nil_l.
  - rewrite append_cons. simpl. by constructor.
  - assert ((unescape e +:+ s) +:+ s2 = unescape e +:+ (s +:+ s2))%string as ->.
    { by rewrite append_assoc. }
    simpl. by constructor.
Qed.

Lemma literal_plain l :
  Forall (fun c => c <> dquote /\ c <> backslash) l -> literal l (str_of l).
Proof. induction 1 as [|c l [] _ IH]; simpl; by constructor. Qed.

Lemma cont_plain c : is_cont c = true -> c <> dquote /\ c <> backslash.
Proof. by intros H; split; intros ->. Qed.

Lemma escape_boundary st e :
  peek text st = Some backslash -> peek text (advance st backslash) = Some e ->
  at_boundary (advance (advance st backslash) e).
Proof.
  intros Hb He. destruct (escapes_ascii B) eqn:Hesc; [|by left; right].
  apply advance_boundary; [done|]. unfold peek in *. rewrite pos_advance in He.
  eauto using escapes_ascii_lookup.
Qed.

Lemma lex_string_loop_spec st0 n value body st :
  wf st -> at_boundary st -> pos st0 < pos st ->
  range B (pos st0) (pos st) = dquote :: body -> literal body value ->
  length B - pos st < n ->
  exec_spec (lex_string_loop text (pos st0) (lex_line st0) (lex_col st0) n value st)
    (fun '(t, st') => token_at st0 t st') lex_error bad_escape.
Proof.
  revert value body st. induction n as [|n IH]; intros value body st Hwf Hb Hlt Hr Hlit Hn; [lia|].
  cbn [lex_string_loop].
  destruct (peek text st) as [b|] eqn:Hp; [|by (split; [|split; [|left]])].
  destruct (Ascii.eqb_spec b dquote) as [->|Hq].
  { lex_bump Hp. simpl.
    split; [split; [by apply advance_wf|rewrite pos_advance; lia]|].
    split; [by apply advance_boundary|]. do 3 (split; [done|]).
    exists body. split; [|done]. rewrite pos_advance, (range_snoc _ _ _ dquote) by (done || lia).
    by rewrite Hr. }
  destruct (Ascii.eqb_spec b backslash) as [->|Hs].
  - lex_bump Hp. destruct (peek text (advance st backslash)) as [e|] eqn:He.
    + lex_bump He. apply (IH _ (body ++ [backslash; e]));
        [by repeat apply advance_wf|by apply escape_boundary|rewrite !pos_advance; lia| | |
         rewrite !pos_advance; lia].
      * unfold peek in *. rewrite !pos_advance in *.
        rewrite (range_snoc _ _ _ e), (range_snoc _ _ _ backslash), Hr by (done || lia).
        simpl. by rewrite <-app_assoc.
      * apply literal_app; [done|].
        rewrite <-(append_nil_r (unescape e)). repeat constructor.
    + destruct n as [|n]; [lia|]. cbn [lex_string_loop]. rewrite He.
      by (split; [|split; [|left]]).
  - lex_bump Hp.
    assert (wf (advance st b)) as Hwf1 by by apply advance_wf.
    exec_seq (skip_continuation_spec _ _ Hwf1 (fuel_enough _));
      [done|done|].
    intros st2 (Hm & Hcont & Hb2).
    assert (moved st st2) as Hm2 by (eapply moved_trans; [by apply moved_advance|done]).
    pose proof (slice_spec st st2 lex_error Hwf (proj1 Hm2) (proj2 Hm2) Hb Hb2) as Hsl.
    exec_seq Hsl; [done|done|]. intros piece ->.
    pose proof (range_advance st st2 b Hp Hm) as Hra.
    destruct Hm as [Hwf2 Hle2]. rewrite pos_advance in Hle2.
    apply (IH _ (body ++ range B (pos st) (pos st2))); [done|done|lia| | |lia].
    + rewrite <-(range_app B _ (pos st)) by lia. by rewrite Hr.
    + apply literal_app; [done|]. apply literal_plain. rewrite Hra. constructor; [done|].
      eapply Forall_impl; [exact Hcont|apply cont_plain].
Qed.

Lemma lex_string_spec st0 :
  wf st0 -> peek text st0 = Some dquote ->
  exec_spec (lex_string text (pos st0) (lex_line st0) (lex_col st0) st0)
    (fun '(t, st') => token_at st0 t st') lex_error bad_escape.
Proof.
  intros Hwf Hp. unfold lex_string. lex_bump Hp.
  apply (lex_string_loop_spec _ _ _ []); [by apply advance_wf|by apply advance_boundary| | | |].
  - rewrite pos_advance. lia.
  - rewrite pos_advance. by apply range_one.
  - constructor.
  - apply fuel_enough.
Qed.

Lemma lex_env_loop_spec st0 si n st :
  wf si -> at_boundary si -> wf st -> pos st0 <= pos si -> pos si <= pos st ->
  range B (pos st0) (pos si) = bytes_of "${" ->
  "}"%char ∉ range B (pos si) (pos st) -> length B - pos st < n ->
  exec_spec (lex_env_loop text (pos st0) (lex_line st0) (lex_col st0) n (pos si) st)
    (fun '(t, st') => token_at st0 t st') lex_error bad_escape.
Proof.
  intros Hwfi Hbi. revert st. induction n as [|n IH]; intros st Hwf Hle0 Hle Hr Hin Hn; [lia|].
  cbn [lex_env_loop].
  destruct (peek text st) as [b|] eqn:Hp; [|by (split; [|split; [|right]])].
  destruct (Ascii.eqb_spec b "}") as [->|Hq].
  - assert (at_boundary st) as Hb by (right; by rewrite Hp).
    exec_seq (slice_spec si st lex_error Hwfi Hwf Hle Hbi Hb);
      [done|done|]. intros inner ->. lex_bump Hp. simpl.
    split; [split; [by apply advance_wf|rewrite pos_advance; lia]|].
    split; [by apply advance_boundary|]. do 3 (split; [done|]). cbn [tok_kind token_source]. rewrite bytes_of_str.
    split; [|done]. rewrite pos_advance, (range_snoc _ _ _ "}"%char) by (done || lia).
    rewrite <-(range_app B _ (pos si)) by lia. by rewrite Hr, <-app_assoc.
  - lex_bump Hp. apply IH; [by apply advance_wf|done|rewrite pos_advance; lia|done| |
      rewrite pos_advance; lia].
    rewrite pos_advance, (range_snoc _ _ _ b) by (done || lia). set_solver.
Qed.

Lemma lex_env_spec st0 :
  wf st0 -> peek text st0 = Some "$"%char -> peek2 text st0 = Some "{"%char ->
  exec_spec (lex_env text (pos st0) (lex_line st0) (lex_col st0) st0)
    (fun '(t, st') => token_at st0 t st') lex_error bad_escape.
Proof.
  intros Hwf Hp Hp2. unfold lex_env. lex_bump Hp.
  assert (peek text (advance st0 "$") = Some "{"%char) as Hp'
    by (unfold peek; by rewrite pos_advance).
  lex_bump Hp'.
  apply (lex_env_loop_spec st0 (advance (advance st0 "$") "{"));
    try (by repeat apply advance_wf); try (rewrite !pos_advance; lia).
  - by apply advance_boundary.
  - rewrite !pos_advance, (range_snoc _ _ _ "{"%char), (range_one _ _ "$"%char) by (done || lia).
    done.
  - rewrite range_nil. set_solver.
  - apply fuel_enough.
Qed.

(** The byte at the cursor starts or continues an atom. *)
Definition in_atom (st : LexState) (b : ascii) : bool :=
  negb (atom_stop b || (Ascii.eqb b "~" && bool_decide (peek2 text st = Some ">"%char))).

Lemma atom_stop_not_cont b : atom_stop b = true -> is_cont b = false.
Proof. by destruct b as [[] [] [] [] [] [] [] []]. Qed.

Lemma lex_atom_loop_spec n st :
  wf st -> length B - pos st < n ->
  exec_spec (lex_atom_loop text n st)
    (fun st' => moved st st' /\ Forall atom_byte (range B (pos st) (pos st')) /\ at_boundary st'
                /\ forall b, peek text st = Some b -> in_atom st b = true -> pos st < pos st')
    (fun _ => False) False.
Proof.
  revert st. induction n as [|n IH]; intros st Hwf Hn; [lia|]. cbn [lex_atom_loop].
  destruct (peek text st) as [b|] eqn:Hp.
  2:{ simpl. rewrite range_nil. unfold at_boundary. rewrite Hp.
      split; [by apply moved_refl|]. split; [constructor|]. by split; [right|]. }
  destruct (atom_stop b || _) eqn:Hstop.
  - simpl. rewrite range_nil. split; [by apply moved_refl|]. split; [done|]. split.
    + right. rewrite Hp. apply orb_true_iff in Hstop as [?|[->%Ascii.eqb_eq _]%andb_true_iff];
        [by apply atom_stop_not_cont|done].
    + intros b' [= <-]. unfold in_atom. by rewrite Hstop.
  - lex_bump Hp.
    eapply exec_spec_mono; [apply IH; [by apply advance_wf|rewrite pos_advance; lia]| |done|done].
    intros st' (Hm & Hf & Hb & _). rewrite (range_advance st st' b) by done.
    split; [eapply moved_trans; [by apply moved_advance|done]|].
    apply orb_false_iff in Hstop as [? _]. split; [by constructor|]. split; [done|].
    intros. destruct Hm as [_ Hle]. rewrite pos_advance in Hle. lia.
Qed.

Lemma lex_atom_spec st0 b :
  wf st0 -> at_boundary st0 -> peek text st0 = Some b -> in_atom st0 b = true ->
  exec_spec (lex_atom text (pos st0) (lex_line st0) (lex_col st0) st0)
    (fun '(t, st') => token_at st0 t st') lex_error bad_escape.
Proof.
  intros Hwf Hb Hp Hin. unfold lex_atom.
  exec_seq (lex_atom_loop_spec _ _ Hwf (fuel_enough _));
    [done|done|]. intros st' (Hm & Hf & Hb' & Hlt). specialize (Hlt _ Hp Hin).
  apply (exec_spec_seq _ _ _ _ _ _ _ _
           (slice_spec st0 st' lex_error Hwf (proj1 Hm) (proj2 Hm) Hb Hb')); [done|done|].
  intros raw ->. simpl. split; [done|]. split; [done|]. do 3 (split; [done|]).
  cbn [tok_kind token_source]. rewrite bytes_of_str. split; [done|]. split; [|done].
  by rewrite (range_cons _ _ _ b).
Qed.

Lemma single_ascii b k : single b = Some k -> is_ascii b = true.
Proof. by destruct b as [[] [] [] [] [] [] [] []]. Qed.

Lemma single_token b k :
  single b = Some k -> k <> Eof /\ k <> Sep /\ token_source k [b].
Proof.
  intros H. assert (k <> Eof /\ k <> Sep /\ (forall src, token_source k src <-> exists c, src = [c] /\ single c = Some k)) as (? & ? & Hs).
  { revert H. unfold single. repeat case_match; intros [= <-]; by repeat split. }
  rewrite Hs. eauto.
Qed.

Lemma next_token_spec st0 b :
  wf st0 -> at_boundary st0 -> after_trivia st0 -> peek text st0 = Some b ->
  is_sep_byte b = false ->
  exec_spec (next_token text st0)
    (fun '(t, st') => token_at st0 t st' /\ pos st0 < pos st') lex_error bad_escape.
Proof.
  intros Hwf Hb Hat Hp Hsep. unfold next_token. rewrite Hp.
  destruct (single b) as [k|] eqn:Hs.
  { destruct (single_token b k Hs) as (? & ? & ?). lex_bump Hp. simpl.
    split; [|rewrite pos_advance; lia].
    split; [by apply moved_advance|]. split; [eauto using advance_boundary, single_ascii|].
    do 2 (split; [done|]). rewrite pos_advance. split; [simpl; f_equal; lia|].
    by rewrite (range_one _ _ b). }
  destruct (Ascii.eqb b "~" && _) eqn:Hg.
  { apply andb_true_iff in Hg as [->%Ascii.eqb_eq Hp2%bool_decide_eq_true].
    lex_bump Hp.
    assert (peek text (advance st0 "~") = Some ">"%char) as Hp'
      by (unfold peek; by rewrite pos_advance).
    lex_bump Hp'. simpl. split; [|rewrite ?pos_advance; lia].
    split; [split; [by repeat apply advance_wf|rewrite ?pos_advance; lia]|].
    split; [by apply advance_boundary|]. do 2 (split; [done|]). rewrite ?pos_advance.
    split; [simpl; f_equal; lia|].
    by rewrite (range_snoc _ _ _ ">"%char), (range_one _ _ "~"%char) by (done || lia). }
  assert (forall t st', token_at st0 t st' -> token_at st0 t st' /\ pos st0 < pos st') as Hprog.
  { intros t st' Ht. split; [done|]. destruct Ht as ([_ Hle] & _ & He & _ & _ & Hsrc).
    destruct (decide (pos st0 = pos st')) as [E|]; [|lia]. exfalso.
    rewrite E, range_nil in Hsrc. destruct (tok_kind t); simpl in Hsrc; naive_solver. }
  destruct (Ascii.eqb_spec b dquote) as [->|Hq].
  { eapply exec_spec_mono; [by apply lex_string_spec| |done|done]. intros [t st']; auto. }
  destruct (Ascii.eqb b "$" && _) eqn:Hd.
  { apply andb_true_iff in Hd as [->%Ascii.eqb_eq Hp2%bool_decide_eq_true].
    eapply exec_spec_mono; [by apply lex_env_spec| |done|done]. intros [t st']; auto. }
  eapply exec_spec_mono; [apply (lex_atom_spec st0 b Hwf Hb Hp)| |done|done].
  - unfold in_atom. rewrite Hg, orb_false_r. apply negb_true_iff. unfold atom_stop.
    unfold after_trivia in Hat. rewrite Hp in Hat. destruct Hat as [-> Hh].
    rewrite Hs. unfold is_sep_byte in Hsep. apply orb_false_iff in Hsep as [-> ->].
    by rewrite (proj2 (Ascii.eqb_neq _ _) Hh), (proj2 (Ascii.eqb_neq _ _) Hq).
  - intros [t st']; auto.
Qed.

(** ** The whole text *)

(** No separator comes next. *)
Definition after_sep (st : LexState) : Prop :=
  after_trivia st /\ match peek text st with Some c => is_sep_byte c = false | None => True end.

(** Skipping trivia from a state without any does not move. *)
Lemma trivia_stuck st st' :
  after_trivia st -> moved st st' -> trivia (range B (pos st) (pos st')) -> pos st' = pos st.
Proof.
  intros Ha [[Hle _] Hm] Ht. destruct (decide (pos st = pos st')) as [|Hne]; [done|exfalso].
  destruct (lookup_lt_is_Some_2 B (pos st)) as [b Hb]; [lia|].
  unfold after_trivia, peek in Ha. rewrite Hb in Ha. destruct Ha as [Hh Hc].
  rewrite (range_cons _ _ _ b) in Ht by (done || lia). inversion Ht; congruence.
Qed.

Lemma run_spec n st :
  wf st -> at_boundary st -> length B - pos st < n ->
  exec_spec (run text n st)
    (fun toks => lexed B (pos st) toks
                 /\ (after_sep st -> forall t, head toks = Some t -> tok_kind t <> Sep))
    lex_error bad_escape.
Proof.
  revert st. induction n as [|n IH]; intros st Hwf Hb Hn; [lia|]. cbn [run].
  exec_seq (skip_horizontal_spec _ _ Hwf Hb (fuel_enough _));
    [done|done|]. intros st1 (Hm1 & Ht1 & Ha1 & Hb1). pose proof Hm1 as [Hwf1 Hle1].
  pose proof (proj2 Hwf1) as Hloc.
  destruct (peek text st1) as [b|] eqn:Hp.
  2:{ pose proof (peek_None_eq _ Hwf1 Hp). simpl. unfold span_end. simpl.
      rewrite Nat.add_0_r, range_nil. split; [|by intros _ t [= <-]].
      split_and!; try done; lia. }
  pose proof (peek_Some_lt _ _ Hp).
  destruct (is_sep_byte b) eqn:Hs.
  - apply (exec_spec_seq _ _ _ _ _ _ _ _
             (consume_separator_run_spec _ _ Hwf1 Hb1 (fuel_enough _))); [done|done|].
    intros st2 (Hm2 & Hr2 & Ha2 & Hb2 & Hs2).
    assert (pos st1 < pos st2) as Hlt.
    { destruct Hm2. destruct (decide (pos st1 = pos st2)) as [E|]; [|lia]. exfalso.
      unfold peek in *. rewrite <-E, Hp in Hs2. congruence. }
    destruct Hm2 as [Hwf2 Hle2].
    exec_seq (IH st2 Hwf2 Hb2 ltac:(lia)); [done|done|].
    intros rest [Hrest Hnosep].
    cbn [exec_spec lexed tok_span tok_kind]. unfold span_from, span_end. cbn [offset line col len].
    replace (pos st1 + (pos st2 - pos st1)) with (pos st2) by lia.
    split; [split_and!|]; try done; try lia.
    + destruct Hwf2. lia.
    + exists b, (range B (S (pos st1)) (pos st2)). split; [|done]. by apply range_cons.
    + intros _. apply Hnosep. by split.
    + intros [Hat Hns] t' [= <-]. simpl. intros _.
      pose proof (trivia_stuck st st1 Hat Hm1 Ht1) as E. unfold peek in *. rewrite <-E, Hp in Hns.
      congruence.
  - exec_seq (next_token_spec _ _ Hwf1 Hb1 Ha1 Hp Hs); [done|done|].
    intros [t st2] [Ht Hlt]. destruct Ht as (Hm2 & Hb2 & Hne & Hns & Hspan & Hsrc).
    destruct Hm2 as [Hwf2 Hle2].
    exec_seq (IH st2 Hwf2 Hb2 ltac:(lia)); [done|done|].
    intros rest [Hrest _]. cbn [exec_spec lexed]. rewrite Hspan. unfold span_end. cbn [offset len line col].
    replace (pos st1 + (pos st2 - pos st1)) with (pos st2) by lia.
    split; [|by intros _ t' [= <-]].
    split_and!; try done. destruct Hwf2. lia.
Qed.
End Facts.

Lemma lex_spec text :
  exec_spec (lex text) (lexed (bytes_of text) 0) lex_error (bad_escape text).
Proof.
  eapply exec_spec_mono; [apply run_spec|naive_solver|done|done].
  - apply wf_new.
  - apply new_boundary.
  - apply fuel_enough.
Qed.

Lemma lexed_last bs p toks :
  lexed bs p toks ->
  exists front t, toks = front ++ [t] /\ tok_kind t = Eof /\ Forall (fun t => tok_kind t <> Eof) front.
Proof.
  revert p. induction toks as [|t rest IH]; intros p; [done|]. intros (_ & _ & _ & _ & _ & He & _ & Hr).
  destruct (decide (tok_kind t = Eof)) as [E|E].
  - exists [], t. destruct (He E) as [-> _]. auto.
  - destruct (IH _ (Hr E)) as (front & t' & -> & ? & ?). exists (t :: front), t'. auto.
Qed.
