(* ===== verification/FlowLexerProps.v ===== *)
(** * Properties of the Flow lexer

    Full correctness against [lexed], the round trip of string literals, and
    the panic on an escaped non-ASCII character. *)

From Stdlib Require Import ZArith Ascii String Lia.
From stdpp Require Import base option list gmap strings.
From S2P Require Import Prelude RustStr CoreTypes FlowSyntax FlowLexer FlowLexerSpec.
Local Open Scope string_scope.
Local Open Scope list_scope.

(** The lexer is total and correct: on every text it returns; its tokens
    cover the source up to white space and comments, in order, each with the
    source its kind stands for and the line and column of its offset, with
    separator runs collapsed and exactly one [Eof], at the end; its only errors
    are the two unterminated forms, coded [PLS-CFG-0001]; and it panics only on
    a text that escapes a byte outside ASCII. *)
Theorem lex_correct (text : string) :
  exec_spec (lex text) (lexed (bytes_of text) 0) lex_error (bad_escape text).
Proof. apply lex_spec. Qed.

(** ** String literals *)

(** How a character is written inside a literal. *)
Definition escape_literal1 (c : Z) : list ascii :=
  if (c =? 10)%Z then [backslash; "n"%char]
  else if (c =? 9)%Z then [backslash; "t"%char]
  else if (c =? 13)%Z then [backslash; "r"%char]
  else if (c =? 34)%Z then [backslash; dquote]
  else if (c =? 92)%Z then [backslash; backslash]
  else encode1 c.
Definition escape_literal (cs : list Z) : list ascii := cs ≫= escape_literal1.
Definition quote (s : string) : string := str_of (dquote :: escape_literal (chars s) ++ [dquote]).

(** Either an escape that denotes [c], or the encoding of [c]. *)
Lemma escape1_cases c :
  scalar c ->
  (exists e, escape_literal1 c = [backslash; e] /\ unescape e = of_chars [c] /\ is_ascii e = true)
  \/ (escape_literal1 c = encode1 c /\ exists b conts, encode1 c = b :: conts
      /\ is_cont b = false /\ b <> dquote /\ b <> backslash
      /\ Forall (fun d => is_cont d = true) conts).
Proof.
  intros Hc. unfold escape_literal1.
  destruct (Z.eqb_spec c 10) as [->|H10]; [left; eexists; by split_and!|].
  destruct (Z.eqb_spec c 9) as [->|H9]; [left; eexists; by split_and!|].
  destruct (Z.eqb_spec c 13) as [->|H13]; [left; eexists; by split_and!|].
  destruct (Z.eqb_spec c 34) as [->|H34]; [left; eexists; by split_and!|].
  destruct (Z.eqb_spec c 92) as [->|H92]; [left; eexists; by split_and!|].
  right. split; [done|]. destruct (encode1_shape c Hc) as (b & bs & Eb & Hb & Hbs & Ha).
  exists b, bs. split_and!; try done; intros ->; specialize (Ha eq_refl); subst.
  - apply (f_equal utf8_decode) in Eb. rewrite <-(app_nil_r (encode1 c)), decode_encode1 in Eb by done.
    by injection Eb.
  - apply (f_equal utf8_decode) in Eb. rewrite <-(app_nil_r (encode1 c)), decode_encode1 in Eb by done.
    by injection Eb.
Qed.

Lemma escape_head cs tail :
  Forall scalar cs -> exists d tl, escape_literal cs ++ dquote :: tail = d :: tl /\ is_cont d = false.
Proof.
  destruct 1 as [|c cs Hc _]; [by eexists _, _|].
  change (escape_literal (c :: cs)) with (escape_literal1 c ++ escape_literal cs).
  destruct (escape1_cases c Hc) as [(e & -> & _)|(-> & b & conts & -> & ? & _)]; by eexists _, _.
Qed.

Section Quote.
Variable text : string.
Abbreviation B := (bytes_of text).

Lemma skip_continuation_exact n st pre conts d tl :
  B = pre ++ conts ++ d :: tl -> pos st = length pre -> is_cont d = false ->
  Forall (fun c => is_cont c = true) conts -> length conts < n ->
  exists st', skip_continuation text n st = Ok st' /\ pos st' = length pre + length conts.
Proof.
  intros HB Hpos Hd Hc. revert n pre st HB Hpos.
  induction Hc as [|c conts Hc _ IH]; intros n pre st HB Hpos Hn; (destruct n as [|n]; [simpl in Hn; lia|]);
    cbn [skip_continuation]; unfold bump, peek; rewrite Hpos, HB; rewrite lookup_app_r, Nat.sub_diag by lia;
    simpl.
  - rewrite Hd. exists st. split; [done|lia].
  - rewrite Hc. simpl. destruct (IH n (pre ++ [c]) (advance st c)) as (st' & E & Hp).
    + by rewrite HB, <-app_assoc.
    + rewrite pos_advance, length_app, Hpos. simpl. lia.
    + simpl in Hn. lia.
    + exists st'. rewrite E, Hp, length_app. split; [done|simpl; lia].
Qed.

Lemma slice_exact {E} pre mid d tl :
  B = pre ++ mid ++ d :: tl -> is_cont d = false ->
  match mid with c :: _ => is_cont c = false | [] => True end ->
  slice (E := E) B (length pre) (length pre + length mid) = Ok (str_of mid).
Proof.
  intros HB Hd Hm. unfold slice, is_char_boundary.
  rewrite bool_decide_true by lia. rewrite HB at 1 2.
  assert ((pre ++ mid ++ d :: tl) !! length pre = Some (default d (head mid))) as ->.
  { rewrite lookup_app_r, Nat.sub_diag by lia. by destruct mid. }
  assert ((pre ++ mid ++ d :: tl) !! (length pre + length mid) = Some d) as ->.
  { rewrite !lookup_app_r by lia.
    by replace (length pre + length mid - length pre - length mid) with 0 by lia. }
  rewrite Hd. assert (is_cont (default d (head mid)) = false) as -> by by destruct mid.
  simpl. rewrite HB, drop_app_length, Nat.add_comm, Nat.add_sub, take_app_length. done.
Qed.

Lemma peek_split pre b r st : B = pre ++ b :: r -> pos st = length pre -> peek text st = Some b.
Proof. intros HB Hpos. unfold peek. by rewrite Hpos, HB, lookup_app_r, Nat.sub_diag by lia. Qed.

Lemma lex_string_loop_quote s l c n value cs pre tail st :
  Forall scalar cs -> B = pre ++ escape_literal cs ++ dquote :: tail -> pos st = length pre ->
  length B - pos st < n ->
  exists st', lex_string_loop text s l c n value st
              = Ok (mk_token (TStr (value +:+ of_chars cs)) (span_from s l c st'), st')
              /\ pos st' = length pre + length (escape_literal cs) + 1.
Proof.
  intros Hcs. revert n value pre st. induction Hcs as [|ch cs Hc Hcs IH]; intros n value pre st HB Hpos Hn;
    (destruct n as [|n]; [lia|]); cbn [lex_string_loop].
  - unfold bump. assert (peek text st = Some dquote) as ->.
    { by eapply peek_split; [exact HB|]. }
    simpl. exists (advance st dquote). rewrite append_nil_r. split; [done|].
    rewrite pos_advance, Hpos. simpl. lia.
  - change (escape_literal (ch :: cs)) with (escape_literal1 ch ++ escape_literal cs) in HB.
    assert (value +:+ of_chars (ch :: cs) = (value +:+ of_chars [ch]) +:+ of_chars cs) as ->.
    { rewrite <-append_assoc. f_equal. unfold of_chars. rewrite <-str_of_app. f_equal.
      unfold utf8_encode. simpl. by rewrite app_nil_r. }
    destruct (escape1_cases ch Hc) as [(e & Ee & Hu & Ha)|(Ee & b & conts & Eb & Hb & Hq & Hs & Hcont)].
    + rewrite Ee, <-!app_assoc in HB. simpl in HB.
      assert (peek text st = Some backslash) as Hp.
      { by eapply peek_split; [exact HB|]. }
      assert (peek text (advance st backslash) = Some e) as Hp'.
      { apply (peek_split (pre ++ [backslash]) _ (escape_literal cs ++ dquote :: tail)); [by rewrite HB, <-app_assoc|].
        rewrite pos_advance, length_app, Hpos. simpl. lia. }
      rewrite Hp. simpl. rewrite (bump_Some _ _ _ Hp). simpl. rewrite Hp', (bump_Some _ _ _ Hp'). simpl.
      rewrite <-Hu.
      destruct (IH n (value +:+ unescape e) (pre ++ [backslash; e]) (advance (advance st backslash) e)) as (st' & E & Hp3);
        [..|exists st'; split; [exact E|]].
      * by rewrite HB, <-app_assoc.
      * rewrite !pos_advance, length_app, Hpos. simpl. lia.
      * rewrite !pos_advance. rewrite HB, length_app in *. simpl in *. lia.
      * rewrite Hp3. change (escape_literal (ch :: cs)) with (escape_literal1 ch ++ escape_literal cs).
        rewrite Ee, !length_app. simpl. lia.
    + rewrite Ee, Eb in HB.
      assert (peek text st = Some b) as Hp.
      { by eapply peek_split; [exact HB|]. }
      rewrite Hp, (proj2 (Ascii.eqb_neq _ _) Hq), (proj2 (Ascii.eqb_neq _ _) Hs), (bump_Some _ _ _ Hp).
      cbn [mbind exec_bind]. destruct (escape_head cs tail Hcs) as (d & tl & Etl & Hd).
      rewrite <-!app_assoc, Etl in HB.
      destruct (skip_continuation_exact (loop_fuel text) (advance st b) (pre ++ [b]) conts d tl)
        as (st2 & E2 & Hp2); try done.
      * by rewrite HB, <-app_assoc.
      * rewrite pos_advance, length_app, Hpos. simpl. lia.
      * unfold loop_fuel. rewrite HB, !length_app. simpl. rewrite ?length_app. lia.
      * rewrite E2. cbn [mbind exec_bind].
        rewrite length_app in Hp2. simpl in Hp2.
        replace (pos st2) with (length pre + length (b :: conts)) by (simpl; lia).
        rewrite Hpos, (slice_exact pre (b :: conts) d tl HB Hd Hb). cbn [mbind exec_bind].
        rewrite <-Eb. replace (str_of (encode1 ch)) with (of_chars [ch])
          by (unfold of_chars, utf8_encode; simpl; by rewrite app_nil_r).
        destruct (IH n (value +:+ of_chars [ch]) (pre ++ b :: conts) st2) as (st' & E & Hp3);
          [..|exists st'; split; [exact E|]].
        -- by rewrite HB, Etl, <-app_assoc.
        -- rewrite length_app. simpl. lia.
        -- rewrite Hp2. rewrite HB, !length_app in *. simpl in *. lia.
        -- rewrite Hp3. change (escape_literal (ch :: cs)) with (escape_literal1 ch ++ escape_literal cs).
           rewrite Ee, Eb, !length_app. simpl. lia.
Qed.
End Quote.

Lemma skip_horizontal_stop text st b :
  peek text st = Some b -> is_horizontal b = false -> Ascii.eqb b "#" = false ->
  skip_horizontal text (loop_fuel text) st = Ok st.
Proof. intros Hp Hh Hc. unfold loop_fuel. cbn [skip_horizontal]. by rewrite Hp, Hh, Hc. Qed.

(** The lexer at the opening quote of a literal. *)
Lemma run_at_quote text n tl :
  bytes_of text = dquote :: tl ->
  run text (S n) lexer_new
  = ('(t, st') ← lex_string_loop text 0 1 1 (loop_fuel text) "" (advance lexer_new dquote);
     rest ← run text n st'; Ok (t :: rest)).
Proof.
  intros HB. assert (peek text lexer_new = Some dquote) as Hp by (unfold peek; by rewrite HB).
  cbn [run]. rewrite (skip_horizontal_stop _ _ _ Hp) by done. cbn [mbind exec_bind].
  rewrite Hp. cbn [is_sep_byte]. unfold next_token. rewrite Hp. unfold lex_string.
  by rewrite (bump_Some _ _ _ Hp).
Qed.

Lemma run_at_end text n st :
  pos st = length (bytes_of text) -> run text (S n) st = Ok [mk_token Eof (here st 0)].
Proof.
  intros Hp. assert (peek text st = None) as E.
  { unfold peek. apply lookup_ge_None. lia. }
  cbn [run]. unfold loop_fuel. cbn [skip_horizontal]. rewrite E. simpl. by rewrite E.
Qed.

(** Printing a string as a literal, with the escapes the lexer knows, and
    lexing it gives back exactly that string and nothing else. *)
Theorem lex_quote (s : string) (Hs : utf8_valid s = true) :
  exists sp1 sp2, lex (quote s) = Ok [mk_token (TStr s) sp1; mk_token Eof sp2].
Proof.
  apply bool_decide_eq_true in Hs as Es. pose (cs := chars s).
  assert (Hcs : Forall scalar cs) by apply utf8_decode_scalar.
  assert (HB : bytes_of (quote s) = [dquote] ++ escape_literal cs ++ [dquote])
    by (unfold quote; by rewrite bytes_of_str).
  destruct (lex_string_loop_quote (quote s) 0 1 1 (loop_fuel (quote s)) "" cs [dquote] []
              (advance lexer_new dquote)) as (st' & E & Hp); try done.
  { unfold loop_fuel. rewrite pos_advance. simpl. lia. }
  unfold lex. unfold loop_fuel.
  assert (exists n, S (length (bytes_of (quote s))) = S (S n)) as [n ->] by (rewrite HB; by eexists).
  rewrite (run_at_quote _ _ _ HB), E. cbn [mbind exec_bind].
  rewrite run_at_end by (rewrite Hp, HB, !length_app; simpl; lia). simpl.
  rewrite append_nil_l. fold cs in Es. rewrite Es. by eexists _, _.
Qed.

Lemma lex_quote_witness :
  exists sp1 sp2, lex (quote "a\b") = Ok [mk_token (TStr "a\b") sp1; mk_token Eof sp2].
Proof. apply (lex_quote "a\b"). vm_compute. reflexivity. Defined.

(** The loop inside a literal whose first character is an escaped lead byte. *)
Lemma escape_loop_panics text b d bs :
  bytes_of text = [dquote; backslash; b; d] ++ bs ++ [dquote] -> is_cont b = false ->
  is_cont d = true -> Forall (fun c => is_cont c = true) bs ->
  lex_string_loop text 0 1 1 (loop_fuel text) "" (advance lexer_new dquote) = Panic.
Proof.
  intros HB Hb Hd Hbs.
  assert (exists n, loop_fuel text = S (S n)) as [n En] by (unfold loop_fuel; rewrite HB; by eexists).
  rewrite En. set (st0 := advance lexer_new dquote).
  assert (P0 : peek text st0 = Some backslash) by (unfold peek; by rewrite HB).
  set (st1 := advance st0 backslash).
  assert (P1 : peek text st1 = Some b) by (unfold peek; by rewrite HB).
  set (st2 := advance st1 b).
  assert (P2 : peek text st2 = Some d).
  { unfold peek, st2, st1, st0. rewrite !pos_advance. by rewrite HB. }
  cbn [lex_string_loop]. rewrite P0. cbn [dquote Ascii.eqb Bool.eqb]. rewrite (bump_Some _ _ _ P0). cbn [mbind exec_bind].
  fold st1. rewrite P1, (bump_Some _ _ _ P1). cbn [mbind exec_bind]. fold st2.
  rewrite P2. assert (Ascii.eqb d dquote = false /\ Ascii.eqb d backslash = false) as [-> ->].
  { split; apply Ascii.eqb_neq; by intros ->. }
  rewrite (bump_Some _ _ _ P2). cbn [mbind exec_bind].
  destruct (skip_continuation_exact text (loop_fuel text) (advance st2 d) [dquote; backslash; b; d] bs
              dquote []) as (st3 & E3 & Hp3); try done.
  { unfold st2, st1, st0. by rewrite !pos_advance. }
  { unfold loop_fuel. rewrite HB, !length_app. simpl. lia. }
  rewrite E3. cbn [mbind exec_bind]. unfold slice, is_char_boundary.
  assert (pos st2 = 3) as -> by (unfold st2, st1, st0; by rewrite !pos_advance).
  rewrite HB. simpl. rewrite Hd. simpl. by rewrite andb_false_r.
Qed.

(** A backslash before a character outside ASCII makes the lexer panic: the
    escape_literal consumes the first byte of the character alone, and the slice for
    the next one starts inside it. *)
Theorem lex_escape_panics (c : Z) (Hc : scalar c) (Hna : (128 <= c)%Z) :
  lex (of_chars [34; 92; c; 34]%Z) = Panic.
Proof.
  destruct (encode1_shape c Hc) as (b & bs & Eb & Hb & Hbs & _).
  destruct bs as [|d bs].
  { exfalso. unfold encode1 in Eb. destruct (Z.ltb_spec c 128); [lia|]. by repeat case_match. }
  apply Forall_cons in Hbs as [Hd Hbs].
  pose (text := of_chars [34; 92; c; 34]%Z).
  assert (HB : bytes_of text = [dquote; backslash; b; d] ++ bs ++ [dquote]).
  { unfold text, of_chars, utf8_encode. rewrite bytes_of_str. simpl.
    change (mbind encode1 [c; 34%Z]) with (encode1 c ++ [dquote]). by rewrite Eb. }
  change (lex text = Panic). unfold lex. unfold loop_fuel.
  erewrite (run_at_quote _ _ _ HB). rewrite (escape_loop_panics text b d bs HB Hb Hd Hbs). done.
Qed.

Lemma lex_escape_panics_witness : lex (of_chars [34; 92; 233; 34]%Z) = Panic.
Proof. apply (lex_escape_panics 233); unfold scalar; lia. Defined.
