(* ===== verification/FlowParser.v ===== *)
(** * [pulsate-flow]: the recursive-descent parser

    [parser.rs], one definition per method.  A method runs in a state monad
    over the cursor, with the tokens fixed; the recursive methods take fuel,
    and [parse] gives them two units per token, since a call either consumes a
    token or is followed by one that does. *)

From Stdlib Require Import ZArith Ascii String Lia.
From stdpp Require Import base option list gmap strings.
From S2P Require Import Prelude RustStr CoreTypes FlowSyntax FlowLexer.
Local Open Scope string_scope.
Local Open Scope list_scope.

(** ** The parser monad: the cursor, with errors and panics *)
Definition parser (A : Type) : Type := nat -> exec Diagnostic (A * nat).

#[global] Instance parser_ret : MRet parser := fun A a p => Ok (a, p).
#[global] Instance parser_bind : MBind parser := fun A B f m p =>
  '(a, p') ← m p; f a p'.

Definition span_to (start : Span) (fin : nat) : Span :=
  mk_span (offset start) (fin - offset start) (line start) (col start).

Definition starts_arg (k : TokenKind) : bool :=
  match k with
  | TAtom _ | TStr _ | TEnv _ | LBracket => true
  | _ => false
  end.

Section Parser.
(** The rendering of the derived [Debug] of a value. *)
Variable debug_value : Value -> string.

Definition value_to_lexeme (v : Value) : string :=
  match v with
  | VStr s => s
  | VBool b => if b then "true" else "false"
  | VInt i => if (i <? 0)%Z then "-" +:+ show_u (- i) else show_u i
  | _ => debug_value v
  end.

Variable tokens : list Token.

(** An out-of-range index, and [len() - 1] on no token, panic. *)
Definition index (i : nat) : exec Diagnostic Token :=
  match tokens !! i with Some t => Ok t | None => Panic end.

Definition ppeek : parser Token := fun p =>
  t ← index (Nat.min p (length tokens - 1)); Ok (t, p).
Definition peek_kind : parser TokenKind := t ← ppeek; mret (tok_kind t).
Definition next_kind : parser TokenKind := fun p =>
  t ← index (Nat.min (p + 1) (length tokens - 1)); Ok (tok_kind t, p).
Definition pbump : parser Token := fun p =>
  t ← index (Nat.min p (length tokens - 1));
  Ok (t, if decide (p < length tokens - 1) then p + 1 else p).
Definition step_cursor : parser () := fun p => Ok ((), p + 1).
Definition prev_span : parser Span := fun p =>
  t ← index (p - 1); Ok (tok_span t, p).
Definition fail {A} (d : Diagnostic) : parser A := fun _ => Err d.
Definition no_fuel {A} : parser A := fun _ => OutOfFuel.
Definition perr {A} (code : Code) (message : string) : parser A :=
  t ← ppeek; fail (diag_error code message (tok_span t)).

Fixpoint skip_seps (fuel : nat) : parser () :=
  match fuel with
  | O => no_fuel
  | S n =>
    k ← peek_kind;
    if decide (k = Sep) then step_cursor;; skip_seps n else mret ()
  end.

Definition fuel : nat := 2 * length tokens + 2.
Definition seps : parser () := skip_seps fuel.

(** ** Values *)
Fixpoint parse_value (n : nat) : parser (Spanned Value) :=
  match n with
  | O => no_fuel
  | S n =>
    k ← peek_kind;
    match k with
    | TStr s => t ← pbump; mret (mk_spanned (VStr s) (tok_span t))
    | TEnv inner => t ← pbump; mret (mk_spanned (type_env inner) (tok_span t))
    | TAtom raw => t ← pbump; mret (mk_spanned (type_atom raw) (tok_span t))
    | LBracket =>
      (* parse_array *)
      open ← pbump;
      items ← parse_items n;
      k ← peek_kind;
      if decide (k = RBracket) then
        close ← pbump;
        mret (mk_spanned (VArray items) (span_to (tok_span open) (span_end (tok_span close))))
      else perr CFG_SYNTAX "expected `]` to close array"
    | _ => perr CFG_TYPE_MISMATCH "expected a value"
    end
  end
with parse_items (n : nat) : parser (list (Spanned Value)) :=
  match n with
  | O => no_fuel
  | S n =>
    seps;;
    k ← peek_kind;
    if decide (k = RBracket) then mret []
    else
      v ← parse_value n;
      seps;;
      k ← peek_kind;
      if decide (k = Comma) then
        pbump;;
        rest ← parse_items n;
        mret (v :: rest)
      else mret [v]
  end.

(** ** Arguments *)
Definition parse_arg : parser Arg :=
  k ← peek_kind;
  k' ← next_kind;
  match k, k' with
  | TAtom _, Equals =>
    name_tok ← pbump;
    match tok_kind name_tok with
    | TAtom name =>
      pbump;;
      value ← parse_value fuel;
      mret (Named (mk_spanned name (tok_span name_tok)) value)
    | _ => fail (diag_error CFG_SYNTAX "expected an argument name" (tok_span name_tok))
    end
  | _, _ =>
    value ← parse_value fuel;
    mret (Positional value)
  end.

Fixpoint parse_space_args (n : nat) : parser (list Arg) :=
  match n with
  | O => no_fuel
  | S n =>
    k ← peek_kind;
    if starts_arg k then
      a ← parse_arg;
      rest ← parse_space_args n;
      mret (a :: rest)
    else mret []
  end.

(** ** Routes *)
Fixpoint parse_predicates (n : nat) : parser (list Predicate) :=
  match n with
  | O => no_fuel
  | S n =>
    seps;;
    k ← peek_kind;
    if decide (k = RBracket) then mret []
    else
      match k with
      | TAtom key =>
        key_tok ← pbump;
        k ← peek_kind;
        '(value, fin) ←
          (if decide (k = Equals) then
             pbump;;
             v ← parse_value fuel;
             mret (value_to_lexeme (node v), span_end (span_of v))
           else mret ("*", span_end (tok_span key_tok)));
        let p := mk_predicate key value (span_to (tok_span key_tok) fin) in
        seps;;
        k ← peek_kind;
        if decide (k = Comma) then
          pbump;;
          rest ← parse_predicates n;
          mret (p :: rest)
        else mret [p]
      | _ => perr CFG_SYNTAX "expected a predicate key like `method`"
      end
  end.

Definition parse_matcher : parser Matcher :=
  t ← ppeek;
  '(kind, start_span) ←
    (if decide (tok_kind t = Equals) then
       t ← pbump; mret (MatchKind.Exact, tok_span t)
     else if decide (tok_kind t = TAtom "~") then
       t ← pbump; mret (MatchKind.Regex, tok_span t)
     else mret (MatchKind.Prefix, tok_span t));
  k ← peek_kind;
  match k with
  | TAtom pat =>
    pat_tok ← pbump;
    k ← peek_kind;
    '(predicates, fin) ←
      (if decide (k = LBracket) then
         pbump;;
         ps ← parse_predicates fuel;
         k ← peek_kind;
         if decide (k = RBracket) then
           close ← pbump;
           mret (ps, span_end (tok_span close))
         else perr CFG_SYNTAX "expected `]` to close predicates"
       else mret ([], span_end (tok_span pat_tok)));
    mret (mk_matcher kind (mk_spanned pat (tok_span pat_tok)) predicates (span_to start_span fin))
  | _ => perr CFG_SYNTAX "expected a route pattern"
  end.

Fixpoint parse_step_args (n : nat) : parser (list Arg) :=
  match n with
  | O => no_fuel
  | S n =>
    seps;;
    k ← peek_kind;
    if decide (k = RParen) then mret []
    else
      a ← parse_arg;
      seps;;
      k ← peek_kind;
      if decide (k = Comma) then
        pbump;;
        rest ← parse_step_args n;
        mret (a :: rest)
      else mret [a]
  end.

Definition parse_step : parser Step :=
  k ← peek_kind;
  match k with
  | TAtom name =>
    name_tok ← pbump;
    k ← peek_kind;
    '(args, parens, fin) ←
      (if decide (k = LParen) then
         pbump;;
         args ← parse_step_args fuel;
         k ← peek_kind;
         if decide (k = RParen) then
           close ← pbump;
           mret (args, true, span_end (tok_span close))
         else perr CFG_SYNTAX "expected `)` to close arguments"
       else mret ([], false, span_end (tok_span name_tok)));
    mret (mk_step (mk_spanned name (tok_span name_tok)) args parens (span_to (tok_span name_tok) fin))
  | _ => perr CFG_SYNTAX "expected a middleware or handler name"
  end.

Fixpoint parse_steps (n : nat) : parser (list Step) :=
  match n with
  | O => no_fuel
  | S n =>
    seps;;
    k ← peek_kind;
    if decide (k = Arrow) then
      pbump;;
      seps;;
      s ← parse_step;
      rest ← parse_steps n;
      mret (s :: rest)
    else mret []
  end.

Definition route_end (m : Matcher) (steps : list Step) : nat :=
  match last steps with Some s => span_end (step_span s) | None => span_end (matcher_span m) end.

Definition parse_route : parser Route :=
  route_kw ← pbump;
  matcher ← parse_matcher;
  steps ← parse_steps fuel;
  mret (mk_route matcher steps (span_to (tok_span route_kw) (route_end matcher steps))).

(** ** Statements *)
Definition args_end (kw : Span) (args : list Arg) : nat :=
  match last args with Some a => span_end (arg_span a) | None => span_end kw end.

Fixpoint parse_stmts (n : nat) (in_block : bool) : parser (list Stmt) :=
  match n with
  | O => no_fuel
  | S n =>
    seps;;
    k ← peek_kind;
    match k with
    | Eof =>
      if in_block then perr CFG_SYNTAX "unexpected end of input: missing closing `}`"
      else mret []
    | RBrace =>
      if in_block then pbump;; mret []
      else perr CFG_SYNTAX "unexpected `}` with no matching block"
    | _ =>
      s ← parse_stmt n;
      rest ← parse_stmts n in_block;
      mret (s :: rest)
    end
  end
with parse_stmt (n : nat) : parser Stmt :=
  match n with
  | O => no_fuel
  | S n =>
    k ← peek_kind;
    match k with
    | TAtom kw =>
      if decide (kw = "route") then
        r ← parse_route; mret (SRoute r)
      else
        kw_tok ← pbump;
        let keyword := mk_spanned kw (tok_span kw_tok) in
        args ← parse_space_args fuel;
        k ← peek_kind;
        if decide (k = LBrace) then
          pbump;;
          body ← parse_stmts n true;
          prev ← prev_span;
          mret (SBlock keyword args body (span_to (tok_span kw_tok) (span_end prev)))
        else
          mret (SDirective (mk_directive keyword args
            (span_to (tok_span kw_tok) (args_end (tok_span kw_tok) args))))
    | _ => perr CFG_SYNTAX "expected a keyword to start a statement"
    end
  end.

Definition parse_document : parser Ast :=
  stmts ← parse_stmts fuel false;
  mret (mk_ast stmts).

(** [parser::parse]. *)
Definition parse : exec Diagnostic Ast :=
  '(ast, _) ← parse_document 0;
  Ok ast.
End Parser.

(** [pulsate_flow::parse]: lex, then parse. *)
Definition flow_parse (debug_value : Value -> string) (text : string) : exec Diagnostic Ast :=
  tokens ← lex text;
  parse debug_value tokens.
