(* ===== verification/FlowGrammar.v ===== *)
(** * [pulsate-flow]: the grammar, and the parser's correctness

    The grammar relates token lists to syntax trees, spans included.  A program
    logic for the parser monad carries the proof that every parsing function
    consumes exactly the tokens of what it returns. *)

From Stdlib Require Import ZArith Ascii String Lia.
From stdpp Require Import base option list gmap strings.
From S2P Require Import Prelude RustStr CoreTypes FlowSyntax FlowLexer FlowLexerSpec FlowParser.
Local Open Scope string_scope.
Local Open Scope list_scope.

(** ** The grammar *)

(** A run of separators, possibly empty. *)
Definition blank (ts : list Token) : Prop := Forall (fun t => tok_kind t = Sep) ts.

(** Comma-separated items, with separators around them and an optional
    trailing comma. *)
Inductive listed {A} (g : list Token -> A -> Prop) : list Token -> list A -> Prop :=
| listed_nil s : blank s -> listed g s []
| listed_one s1 ts a s2 : blank s1 -> g ts a -> blank s2 -> listed g (s1 ++ ts ++ s2) [a]
| listed_cons s1 ts a s2 sp rest l :
    blank s1 -> g ts a -> blank s2 -> listed g rest l ->
    listed g (s1 ++ ts ++ s2 ++ mk_token Comma sp :: rest) (a :: l).

Inductive g_value : list Token -> Spanned Value -> Prop :=
| g_str s sp : g_value [mk_token (TStr s) sp] (mk_spanned (VStr s) sp)
| g_env s sp : g_value [mk_token (TEnv s) sp] (mk_spanned (type_env s) sp)
| g_atom s sp : g_value [mk_token (TAtom s) sp] (mk_spanned (type_atom s) sp)
| g_array sp1 ts items sp2 :
    listed g_value ts items ->
    g_value (mk_token LBracket sp1 :: ts ++ [mk_token RBracket sp2])
      (mk_spanned (VArray items) (span_to sp1 (span_end sp2))).

Inductive g_arg : list Token -> Arg -> Prop :=
| g_positional ts v : g_value ts v -> g_arg ts (Positional v)
| g_named name sp sp' ts v :
    g_value ts v ->
    g_arg (mk_token (TAtom name) sp :: mk_token Equals sp' :: ts) (Named (mk_spanned name sp) v).

(** Arguments separated by white space only. *)
Inductive g_args : list Token -> list Arg -> Prop :=
| g_args_nil : g_args [] []
| g_args_cons ts a rest args : g_arg ts a -> g_args rest args -> g_args (ts ++ rest) (a :: args).

Section Grammar.
Variable debug_value : Value -> string.
Abbreviation value_to_lexeme := (value_to_lexeme debug_value).

Inductive g_predicate : list Token -> Predicate -> Prop :=
| g_present key sp :
    g_predicate [mk_token (TAtom key) sp] (mk_predicate key "*" (span_to sp (span_end sp)))
| g_equals key sp sp' ts v :
    g_value ts v ->
    g_predicate (mk_token (TAtom key) sp :: mk_token Equals sp' :: ts)
      (mk_predicate key (value_to_lexeme (node v)) (span_to sp (span_end (span_of v)))).

(** The optional bracketed predicates after a pattern that ends at [e]. *)
Inductive g_predicates (e : nat) : list Token -> list Predicate -> nat -> Prop :=
| g_no_predicates : g_predicates e [] [] e
| g_some_predicates sp1 ts ps sp2 :
    listed g_predicate ts ps ->
    g_predicates e (mk_token LBracket sp1 :: ts ++ [mk_token RBracket sp2]) ps (span_end sp2).

Inductive g_matcher : list Token -> Matcher -> Prop :=
| g_prefix pat sp ts ps e :
    pat <> "~" -> g_predicates (span_end sp) ts ps e ->
    g_matcher (mk_token (TAtom pat) sp :: ts)
      (mk_matcher MatchKind.Prefix (mk_spanned pat sp) ps (span_to sp e))
| g_exact sp0 pat sp ts ps e :
    g_predicates (span_end sp) ts ps e ->
    g_matcher (mk_token Equals sp0 :: mk_token (TAtom pat) sp :: ts)
      (mk_matcher MatchKind.Exact (mk_spanned pat sp) ps (span_to sp0 e))
| g_regex sp0 pat sp ts ps e :
    g_predicates (span_end sp) ts ps e ->
    g_matcher (mk_token (TAtom "~") sp0 :: mk_token (TAtom pat) sp :: ts)
      (mk_matcher MatchKind.Regex (mk_spanned pat sp) ps (span_to sp0 e)).

Inductive g_step : list Token -> Step -> Prop :=
| g_bare name sp :
    g_step [mk_token (TAtom name) sp] (mk_step (mk_spanned name sp) [] false (span_to sp (span_end sp)))
| g_call name sp sp1 ts args sp2 :
    listed g_arg ts args ->
    g_step (mk_token (TAtom name) sp :: mk_token LParen sp1 :: ts ++ [mk_token RParen sp2])
      (mk_step (mk_spanned name sp) args true (span_to sp (span_end sp2))).

(** The [~>] steps of a route; separators may precede an arrow or a step. *)
Inductive g_steps : list Token -> list Step -> Prop :=
| g_steps_nil s : blank s -> g_steps s []
| g_steps_cons s1 sp s2 ts st rest steps :
    blank s1 -> blank s2 -> g_step ts st -> g_steps rest steps ->
    g_steps (s1 ++ mk_token Arrow sp :: s2 ++ ts ++ rest) (st :: steps).

Inductive g_route : list Token -> Route -> Prop :=
| g_route_intro sp ts m rest steps :
    g_matcher ts m -> g_steps rest steps ->
    g_route (mk_token (TAtom "route") sp :: ts ++ rest)
      (mk_route m steps (span_to sp (route_end m steps))).

Inductive g_stmt : list Token -> Stmt -> Prop :=
| g_stmt_route ts r : g_route ts r -> g_stmt ts (SRoute r)
| g_stmt_directive kw sp ts args :
    kw <> "route" -> g_args ts args ->
    g_stmt (mk_token (TAtom kw) sp :: ts)
      (SDirective (mk_directive (mk_spanned kw sp) args (span_to sp (args_end sp args))))
| g_stmt_block kw sp ts args sp1 body_ts body sp2 :
    kw <> "route" -> g_args ts args -> g_stmts body_ts body ->
    g_stmt (mk_token (TAtom kw) sp :: ts ++ mk_token LBrace sp1 :: body_ts ++ [mk_token RBrace sp2])
      (SBlock (mk_spanned kw sp) args body (span_to sp (span_end sp2)))
with g_stmts : list Token -> list Stmt -> Prop :=
| g_stmts_nil s : blank s -> g_stmts s []
| g_stmts_cons s ts st rest l :
    blank s -> g_stmt ts st -> g_stmts rest l -> g_stmts (s ++ ts ++ rest) (st :: l).

(** A document is statements up to the [Eof] token. *)
Definition g_document (tokens : list Token) (ast : Ast) : Prop :=
  exists ts eof, tokens = ts ++ [eof] /\ tok_kind eof = Eof /\ g_stmts ts (stmts ast).
End Grammar.

Lemma g_value_nonempty ts v : g_value ts v -> 1 <= length ts.
Proof. destruct 1; simpl; lia. Qed.
Lemma g_arg_nonempty ts a : g_arg ts a -> 1 <= length ts.
Proof. destruct 1; simpl; [by eapply g_value_nonempty|lia]. Qed.
Lemma g_step_nonempty ts s : g_step ts s -> 1 <= length ts.
Proof. destruct 1; simpl; lia. Qed.
Lemma g_stmt_nonempty dv ts s : g_stmt dv ts s -> 1 <= length ts.
Proof. destruct 1 as [? ? Hr| |]; [destruct Hr|..]; simpl; lia. Qed.

(** ** A program logic for the parser *)
Section Logic.
Variable debug_value : Value -> string.
Variable tokens : list Token.
(** What [lex] guarantees: [Eof] is the last token and no other. *)
Hypothesis Heof : forall i t, tokens !! i = Some t -> tok_kind t = Eof <-> S i = length tokens.

(** The parser moves from [p] to [p'] over [ts]. *)
Definition consumes (p : nat) (ts : list Token) (p' : nat) : Prop :=
  p' = p + length ts /\ drop p tokens = ts ++ drop p' tokens.

(** A diagnostic of the parser: one of its two codes, at a token. *)
Definition parse_error (d : Diagnostic) : Prop :=
  exists t code msg, t ∈ tokens /\ d = diag_error code msg (tok_span t)
                     /\ (code = CFG_SYNTAX \/ code = CFG_TYPE_MISMATCH).

Definition pspec {A} (m : parser A) (p : nat) (Q : list Token -> A -> Prop) : Prop :=
  p < length tokens ->
  exec_spec (m p) (fun '(a, p') => p' < length tokens /\ exists ts, consumes p ts p' /\ Q ts a)
    parse_error False.

Lemma consumes_nil p : consumes p [] p.
Proof. split; simpl; [lia|done]. Qed.

Lemma consumes_app p ts q ts' r : consumes p ts q -> consumes q ts' r -> consumes p (ts ++ ts') r.
Proof.
  intros [-> E1] [-> E2]. split; [rewrite length_app; lia|]. by rewrite E1, E2, app_assoc.
Qed.

Lemma consumes_one p t : tokens !! p = Some t -> consumes p [t] (p + 1).
Proof.
  intros H. split; [done|]. rewrite (drop_S _ _ _ H). simpl. do 2 f_equal. lia.
Qed.

Lemma pspec_ret {A} (a : A) p Q : Q [] a -> pspec (mret a) p Q.
Proof. intros HQ Hp. simpl. split; [done|]. exists []. split; [apply consumes_nil|done]. Qed.

Lemma pspec_mono {A} (m : parser A) p (Q Q' : list Token -> A -> Prop) :
  pspec m p Q' -> (forall ts a, Q' ts a -> Q ts a) -> pspec m p Q.
Proof.
  intros Hm HQ Hp. eapply exec_spec_mono; [by apply Hm| |done|done].
  intros [a p'] (? & ts & ? & ?). eauto.
Qed.

Lemma pspec_bind_consumes {A B} (m : parser A) (f : A -> parser B) p Q Q' :
  pspec m p Q' ->
  (forall ts a, Q' ts a -> consumes p ts (p + length ts) ->
    pspec (f a) (p + length ts) (fun ts' b => Q (ts ++ ts') b)) ->
  pspec (m ≫= f) p Q.
Proof.
  intros Hm Hf Hp. eapply (exec_spec_bind (m p)); [by apply Hm|].
  intros [a p'] (Hp' & ts & Hc & HQ). assert (p' = p + length ts) as -> by apply Hc.
  eapply exec_spec_mono; [by apply (Hf ts a HQ Hc)| |done|done].
  intros [b q] (Hq & ts' & Hc' & HQ'). split; [done|]. exists (ts ++ ts').
  split; [by eapply consumes_app|done].
Qed.

Lemma pspec_bind {A B} (m : parser A) (f : A -> parser B) p Q Q' :
  pspec m p Q' ->
  (forall ts a, Q' ts a -> pspec (f a) (p + length ts) (fun ts' b => Q (ts ++ ts') b)) ->
  pspec (m ≫= f) p Q.
Proof. intros Hm Hf. eapply pspec_bind_consumes; [exact Hm|]. auto. Qed.

Lemma index_peek p :
  p < length tokens -> exists t, tokens !! p = Some t
    /\ index tokens (Nat.min p (length tokens - 1)) = Ok t.
Proof.
  intros Hp. replace (Nat.min p (length tokens - 1)) with p by lia. unfold index.
  destruct (lookup_lt_is_Some_2 tokens p Hp) as [t Ht]. exists t. by rewrite Ht.
Qed.

Lemma pspec_peek {B} (f : Token -> parser B) p Q :
  (forall t, tokens !! p = Some t -> pspec (f t) p Q) -> pspec (ppeek tokens ≫= f) p Q.
Proof.
  intros Hf Hp. destruct (index_peek p Hp) as (t & Ht & E).
  unfold mbind, parser_bind, ppeek. rewrite E. simpl. by apply Hf.
Qed.

Lemma pspec_kind {B} (f : TokenKind -> parser B) p Q :
  (forall t, tokens !! p = Some t -> pspec (f (tok_kind t)) p Q) -> pspec (peek_kind tokens ≫= f) p Q.
Proof.
  intros Hf Hp. destruct (index_peek p Hp) as (t & Ht & E).
  unfold peek_kind, mbind, parser_bind, ppeek. rewrite E. simpl. by apply Hf.
Qed.

Lemma pspec_bump {B} (f : Token -> parser B) p t Q :
  tokens !! p = Some t -> tok_kind t <> Eof ->
  pspec (f t) (p + 1) (fun ts b => Q (t :: ts) b) -> pspec (pbump tokens ≫= f) p Q.
Proof.
  intros Ht Hk Hf. eapply (pspec_bind (pbump tokens) f p Q (fun ts a => ts = [t] /\ a = t)).
  - intros Hp. destruct (index_peek p Hp) as (t' & Ht' & E). simplify_eq.
    assert (S p <> length tokens) by (rewrite <-(Heof p t Ht); done).
    unfold pbump. rewrite E. simpl. rewrite decide_True by lia. split; [lia|].
    exists [t]. split; [by apply consumes_one|done].
  - intros ts a [-> ->]. simpl. exact Hf.
Qed.

Lemma pspec_perr {A} code msg p (Q : list Token -> A -> Prop) :
  code = CFG_SYNTAX \/ code = CFG_TYPE_MISMATCH -> pspec (perr tokens code msg) p Q.
Proof.
  intros Hc. apply pspec_peek. intros t Ht Hp. simpl. exists t, code, msg.
  split_and!; [by eapply list_elem_of_lookup_2|done|done].
Qed.

Lemma pspec_skip_seps n p :
  length tokens - p < n -> pspec (skip_seps tokens n) p (fun ts _ => blank ts).
Proof.
  revert p. induction n as [|n IH]; intros p Hn; [lia|]. cbn [skip_seps].
  apply pspec_kind. intros t Ht. destruct (decide (tok_kind t = Sep)) as [Hk|Hk].
  - intros Hp. assert (S p <> length tokens) by (rewrite <-(Heof p t Ht); congruence).
    cbv beta delta [step_cursor mbind parser_bind]. simpl.
    eapply exec_spec_mono; [apply (IH (p + 1)); lia| |done|done].
    intros [[] p'] (Hp' & ts & Hc & Hb). split; [done|]. exists (t :: ts).
    split; [|by constructor]. by apply (consumes_app p [t] (p + 1)); [apply consumes_one|].
  - apply pspec_ret. constructor.
Qed.

Lemma pspec_seps {B} (f : () -> parser B) p Q :
  (forall ts, blank ts -> pspec (f ()) (p + length ts) (fun ts' b => Q (ts ++ ts') b)) ->
  pspec (seps tokens ≫= f) p Q.
Proof.
  intros Hf. eapply pspec_bind; [apply pspec_skip_seps; unfold fuel; lia|]. intros ts [] Hb. by apply Hf.
Qed.

(** ** Each parsing function *)

Lemma pspec_lt {A} (m : parser A) p Q : (p < length tokens -> pspec m p Q) -> pspec m p Q.
Proof. intros H Hp. by apply H. Qed.

Lemma blank_nil : blank [].
Proof. constructor. Qed.

Lemma pspec_value_items n :
  (forall p, 2 * (length tokens - p) + 1 <= n -> pspec (parse_value tokens n) p g_value)
  /\ (forall p, 2 * (length tokens - p) + 2 <= n -> pspec (parse_items tokens n) p (listed g_value)).
Proof.
  induction n as [|n [IHv IHi]]; [split; intros; lia|]. split; intros p Hn; apply pspec_lt; intros Hp.
  - cbn [parse_value]. apply pspec_kind. intros [k sp] Ht; simpl.
    destruct k; try (apply pspec_perr; by auto); (eapply pspec_bump; [done|done|]).
    + eapply pspec_bind; [apply IHi; lia|]. intros ts items Hi. apply pspec_kind. intros [k sp'] Ht'; simpl.
      destruct (decide (k = RBracket)) as [->|]; [|apply pspec_perr; by auto].
      eapply pspec_bump; [done|done|]. apply pspec_ret. by constructor.
    + apply pspec_ret. constructor.
    + apply pspec_ret. constructor.
    + apply pspec_ret. constructor.
  - cbn [parse_items]. apply pspec_seps. intros s1 Hs1. apply pspec_kind. intros [k sp] Ht; simpl.
    destruct (decide (k = RBracket)) as [->|]; [apply pspec_ret; rewrite app_nil_r; by constructor|].
    eapply pspec_bind; [apply IHv; lia|]. intros ts v Hv. apply pspec_seps. intros s2 Hs2.
    apply pspec_kind. intros [k' sp'] Ht'; simpl. apply g_value_nonempty in Hv as Hlen.
    destruct (decide (k' = Comma)) as [->|].
    + eapply pspec_bump; [done|done|]. eapply pspec_bind; [apply IHi; lia|]. intros ts' l Hl.
      apply pspec_ret. rewrite app_nil_r. by constructor.
    + apply pspec_ret. rewrite app_nil_r. by constructor.
Qed.

Lemma pspec_value p : pspec (parse_value tokens (fuel tokens)) p g_value.
Proof. apply pspec_value_items. unfold fuel. lia. Qed.

Lemma next_kind_Ok p : p < length tokens -> exists k, next_kind tokens p = Ok (k, p).
Proof.
  intros Hp. unfold next_kind, index.
  destruct (lookup_lt_is_Some_2 tokens (Nat.min (p + 1) (length tokens - 1))) as [t ->]; [lia|].
  by eexists.
Qed.

Lemma pspec_next {B} (f : TokenKind -> parser B) p Q :
  (forall k, (forall t, tokens !! (p + 1) = Some t -> tok_kind t = k) -> pspec (f k) p Q) ->
  pspec (next_kind tokens ≫= f) p Q.
Proof.
  intros Hf Hp. destruct (next_kind_Ok p Hp) as [k E]. unfold mbind, parser_bind. rewrite E.
  simpl. apply Hf; [|done]. intros t Ht. unfold next_kind, index in E. apply lookup_lt_Some in Ht as Hlt.
  replace (Nat.min (p + 1) (length tokens - 1)) with (p + 1) in E by lia. rewrite Ht in E. by injection E.
Qed.

Lemma pspec_arg p : pspec (parse_arg tokens) p g_arg.
Proof.
  unfold parse_arg. apply pspec_kind. intros [k sp] Ht. apply pspec_next. intros k' Hk'.
  assert (Hpos : pspec (value ← parse_value tokens (fuel tokens); mret (Positional value)) p g_arg).
  { eapply pspec_bind; [apply pspec_value|]. intros ts v Hv. apply pspec_ret. rewrite app_nil_r.
    by constructor. }
  simpl. destruct k; try exact Hpos. destruct k'; try exact Hpos. clear Hpos.
  eapply pspec_bump; [done|done|]. simpl. apply pspec_lt. intros Hp.
  destruct (lookup_lt_is_Some_2 tokens (p + 1) Hp) as [[k2 sp2] Ht2]. pose proof (Hk' _ Ht2) as E.
  simpl in E. subst k2. eapply pspec_bump; [done|done|]. eapply pspec_bind; [apply pspec_value|].
  intros ts v Hv. apply pspec_ret. rewrite app_nil_r. by constructor.
Qed.

Lemma pspec_space_args n p :
  length tokens - p < n -> pspec (parse_space_args tokens n) p g_args.
Proof.
  revert p. induction n as [|n IH]; intros p Hn; [lia|]. apply pspec_lt. intros Hp.
  cbn [parse_space_args]. apply pspec_kind. intros [k sp] Ht; simpl.
  destruct (starts_arg k); [|apply pspec_ret; constructor].
  eapply pspec_bind; [apply pspec_arg|]. intros ts a Ha. apply g_arg_nonempty in Ha as Hlen.
  eapply pspec_bind; [apply IH; lia|]. intros ts' l Hl. apply pspec_ret. rewrite app_nil_r.
  by constructor.
Qed.

Lemma pspec_predicates n p :
  length tokens - p < n ->
  pspec (parse_predicates debug_value tokens n) p (listed (g_predicate debug_value)).
Proof.
  revert p. induction n as [|n IH]; intros p Hn; [lia|]. apply pspec_lt. intros Hp.
  cbn [parse_predicates]. apply pspec_seps. intros s1 Hs1. apply pspec_kind. intros [k sp] Ht; simpl.
  destruct (decide (k = RBracket)) as [->|Hk]; [apply pspec_ret; rewrite app_nil_r; by constructor|].
  destruct k; try (apply pspec_perr; by auto). eapply pspec_bump; [done|done|].
  apply pspec_kind. intros [k' sp'] Ht'.
  eapply (pspec_bind _ _ _ _ (fun ts '(value, fin) =>
    g_predicate debug_value (mk_token (TAtom raw) sp :: ts) (mk_predicate raw value (span_to sp fin)))).
  { simpl. destruct (decide (k' = Equals)) as [->|]; [|apply pspec_ret; constructor].
    eapply pspec_bump; [done|done|]. eapply pspec_bind; [apply pspec_value|]. intros ts v Hv.
    apply pspec_ret. rewrite app_nil_r. by constructor. }
  intros ts [value fin] Hg. apply pspec_seps. intros s2 Hs2. apply pspec_kind. intros [k2 sp2] Ht2; simpl.
  destruct (decide (k2 = Comma)) as [->|].
  - eapply pspec_bump; [done|done|]. eapply pspec_bind; [apply IH; lia|]. intros ts' l Hl.
    apply pspec_ret. rewrite app_nil_r. by apply (listed_cons _ s1 (mk_token (TAtom raw) sp :: ts)).
  - apply pspec_ret. rewrite app_nil_r. by apply (listed_one _ s1 (mk_token (TAtom raw) sp :: ts)).
Qed.

(** The pattern and predicates of a matcher, after its optional marker. *)
Lemma pspec_matcher p : pspec (parse_matcher debug_value tokens) p (g_matcher debug_value).
Proof.
  unfold parse_matcher. apply pspec_peek. intros [k sp] Ht; simpl.
  eapply (pspec_bind _ _ _ _ (fun ts '(kind, start) =>
    (ts = [mk_token Equals start] /\ kind = MatchKind.Exact)
    \/ (ts = [mk_token (TAtom "~") start] /\ kind = MatchKind.Regex)
    \/ (ts = [] /\ kind = MatchKind.Prefix /\ start = sp /\ k <> TAtom "~"))).
  { destruct (decide (k = Equals)) as [->|]; [eapply pspec_bump; [done|done|]; apply pspec_ret; by auto|].
    destruct (decide (k = TAtom "~")) as [->|]; [eapply pspec_bump; [done|done|]; apply pspec_ret; by auto|].
    apply pspec_ret. right; right; by split_and!. }
  intros ts0 [kind start] Hkind. apply pspec_kind. intros [k' sp'] Ht'; simpl.
  destruct k'; try (apply pspec_perr; by auto). eapply pspec_bump; [done|done|].
  apply pspec_kind. intros [k2 sp2] Ht2.
  eapply (pspec_bind _ _ _ _ (fun ts '(ps, e) => g_predicates debug_value (span_end sp') ts ps e)).
  { simpl. destruct (decide (k2 = LBracket)) as [->|]; [|apply pspec_ret; constructor].
    eapply pspec_bump; [done|done|]. eapply pspec_bind; [apply pspec_predicates; unfold fuel; lia|].
    intros ts ps Hps. apply pspec_kind. intros [k3 sp3] Ht3; simpl.
    destruct (decide (k3 = RBracket)) as [->|]; [|apply pspec_perr; by auto].
    eapply pspec_bump; [done|done|]. apply pspec_ret. by constructor. }
  intros ts [ps e] Hps. apply pspec_ret. rewrite app_nil_r; simpl.
  destruct Hkind as [[-> ->]|[[-> ->]|(-> & -> & -> & Hk)]]; simpl; try by constructor.
  simpl in Ht'. rewrite Nat.add_0_r, Ht in Ht'. injection Ht' as -> ->. constructor; congruence.
Qed.

Lemma pspec_step_args n p :
  length tokens - p < n -> pspec (parse_step_args tokens n) p (listed g_arg).
Proof.
  revert p. induction n as [|n IH]; intros p Hn; [lia|]. apply pspec_lt. intros Hp.
  cbn [parse_step_args]. apply pspec_seps. intros s1 Hs1. apply pspec_kind. intros [k sp] Ht; simpl.
  destruct (decide (k = RParen)) as [->|]; [apply pspec_ret; rewrite app_nil_r; by constructor|].
  eapply pspec_bind; [apply pspec_arg|]. intros ts a Ha. apply pspec_seps. intros s2 Hs2.
  apply pspec_kind. intros [k' sp'] Ht'; simpl. apply g_arg_nonempty in Ha as Hlen.
  destruct (decide (k' = Comma)) as [->|].
  - eapply pspec_bump; [done|done|]. eapply pspec_bind; [apply IH; lia|]. intros ts' l Hl.
    apply pspec_ret. rewrite app_nil_r. by constructor.
  - apply pspec_ret. rewrite app_nil_r. by constructor.
Qed.

Lemma pspec_step p : pspec (parse_step tokens) p g_step.
Proof.
  unfold parse_step. apply pspec_kind. intros [k sp] Ht; simpl.
  destruct k; try (apply pspec_perr; by auto). eapply pspec_bump; [done|done|].
  apply pspec_kind. intros [k' sp'] Ht'.
  eapply (pspec_bind _ _ _ _ (fun ts '(args, parens, e) =>
    g_step (mk_token (TAtom raw) sp :: ts) (mk_step (mk_spanned raw sp) args parens (span_to sp e)))).
  { simpl. destruct (decide (k' = LParen)) as [->|]; [|apply pspec_ret; constructor].
    eapply pspec_bump; [done|done|]. eapply pspec_bind; [apply pspec_step_args; unfold fuel; lia|].
    intros ts args Hargs. apply pspec_kind. intros [k2 sp2] Ht2; simpl.
    destruct (decide (k2 = RParen)) as [->|]; [|apply pspec_perr; by auto].
    eapply pspec_bump; [done|done|]. apply pspec_ret. by constructor. }
  intros ts [[args parens] e] Hg. apply pspec_ret. by rewrite app_nil_r.
Qed.

Lemma pspec_steps n p : length tokens - p < n -> pspec (parse_steps tokens n) p g_steps.
Proof.
  revert p. induction n as [|n IH]; intros p Hn; [lia|]. apply pspec_lt. intros Hp.
  cbn [parse_steps]. apply pspec_seps. intros s1 Hs1. apply pspec_kind. intros [k sp] Ht; simpl.
  destruct (decide (k = Arrow)) as [->|]; [|apply pspec_ret; rewrite app_nil_r; by constructor].
  eapply pspec_bump; [done|done|]. apply pspec_seps. intros s2 Hs2.
  eapply pspec_bind; [apply pspec_step|]. intros ts st Hst.
  eapply pspec_bind; [apply IH; lia|]. intros ts' l Hl. apply pspec_ret. rewrite app_nil_r.
  by constructor.
Qed.

Lemma pspec_route p sp :
  tokens !! p = Some (mk_token (TAtom "route") sp) ->
  pspec (parse_route debug_value tokens) p (g_route debug_value).
Proof.
  intros Ht. unfold parse_route. eapply pspec_bump; [done|done|].
  eapply pspec_bind; [apply pspec_matcher|]. intros ts m Hm.
  eapply pspec_bind; [apply pspec_steps; unfold fuel; lia|]. intros ts' steps Hs.
  apply pspec_ret. rewrite app_nil_r. by constructor.
Qed.

(** What ends a statement list: the closing brace inside a block, the [Eof]
    token, left in place, at the top. *)
Definition g_body (in_block : bool) (ts : list Token) (l : list Stmt) : Prop :=
  if in_block then exists ts' sp, ts = ts' ++ [mk_token RBrace sp] /\ g_stmts debug_value ts' l
  else g_stmts debug_value ts l.

Lemma g_body_cons in_block s ts st rest l :
  blank s -> g_stmt debug_value ts st -> g_body in_block rest l ->
  g_body in_block (s ++ ts ++ rest) (st :: l).
Proof.
  destruct in_block; simpl; intros Hs Hst.
  - intros (ts' & sp & -> & Hl). exists (s ++ ts ++ ts'), sp. rewrite <-!app_assoc.
    split; [done|by constructor].
  - by constructor.
Qed.

(** The token just consumed is the one [prev_span] reads. *)
Lemma pspec_prev {B} (f : Span -> parser B) p q ts t Q :
  consumes q (ts ++ [t]) p -> pspec (f (tok_span t)) p Q -> pspec (prev_span tokens ≫= f) p Q.
Proof.
  intros [-> E] Hf Hp. unfold mbind, parser_bind, prev_span, index.
  assert (tokens !! (q + length (ts ++ [t]) - 1) = Some t) as ->; [|by apply Hf].
  rewrite length_app. simpl. replace (q + (length ts + 1) - 1) with (q + length ts) by lia.
  rewrite <-lookup_drop, E, <-app_assoc, lookup_app_r, Nat.sub_diag by lia. done.
Qed.

Lemma pspec_stmts_stmt n :
  (forall b p, 2 * (length tokens - p) + 2 <= n -> pspec (parse_stmts debug_value tokens n b) p (g_body b))
  /\ (forall p, 2 * (length tokens - p) + 1 <= n ->
        pspec (parse_stmt debug_value tokens n) p (g_stmt debug_value)).
Proof.
  induction n as [|n [IHl IHs]]; [split; intros; lia|]. split.
  - intros b p Hn. apply pspec_lt. intros Hp. cbn [parse_stmts]. apply pspec_seps. intros s Hs.
    apply pspec_kind. intros [k sp] Ht; cbn [tok_kind].
    assert (Hcons : pspec (st ← parse_stmt debug_value tokens n;
        rest ← parse_stmts debug_value tokens n b; mret (st :: rest)) (p + length s)
        (fun ts l => g_body b (s ++ ts) l)).
    { eapply pspec_bind; [apply IHs; lia|]. intros ts st Hst. apply g_stmt_nonempty in Hst as Hlen.
      eapply pspec_bind; [apply IHl; lia|]. intros ts' l Hl. apply pspec_ret. rewrite app_nil_r.
      by apply g_body_cons. }
    destruct k; try exact Hcons; clear Hcons; destruct b; try (apply pspec_perr; by auto).
    + eapply pspec_bump; [done|done|]. apply pspec_ret. simpl. exists s, sp. split; [done|by constructor].
    + apply pspec_ret. simpl. rewrite app_nil_r. by constructor.
  - intros p Hn. apply pspec_lt. intros Hp. cbn [parse_stmt]. apply pspec_kind. intros [k sp] Ht.
    cbn [tok_kind]. destruct k; try (apply pspec_perr; by auto). destruct (decide (raw = "route")) as [->|Hr].
    { eapply pspec_bind; [by eapply pspec_route|]. intros ts r Hroute. apply pspec_ret.
      rewrite app_nil_r. by constructor. }
    eapply pspec_bump; [done|done|]. eapply pspec_bind; [apply pspec_space_args; unfold fuel; lia|].
    intros ts args Hargs. apply pspec_kind. intros [k' sp'] Ht'; cbn [tok_kind].
    destruct (decide (k' = LBrace)) as [->|].
    + eapply pspec_bump; [done|done|]. eapply pspec_bind_consumes; [apply (IHl true); lia|].
      intros ts' body (body_ts & sp2 & -> & Hbody) Hc. eapply pspec_prev; [exact Hc|].
      apply pspec_ret. rewrite app_nil_r. by constructor.
    + apply pspec_ret. rewrite app_nil_r. by constructor.
Qed.

(** At the top, the statement list ends only at [Eof]. *)
Lemma parse_stmts_ends n p l p' :
  parse_stmts debug_value tokens n false p = Ok (l, p') ->
  exists t, tokens !! (Nat.min p' (length tokens - 1)) = Some t /\ tok_kind t = Eof.
Proof.
  revert p l. induction n as [|n IH]; intros p l; [done|]. cbn [parse_stmts].
  intros ([[] p1] & _ & ([k p2] & Hk & H)%bind_Ok)%bind_Ok.
  assert (exists t, tokens !! (Nat.min p2 (length tokens - 1)) = Some t /\ tok_kind t = k) as (t & Ht & <-).
  { unfold peek_kind in Hk. apply bind_Ok in Hk as ([t q] & Hq & E). injection E as <- <-.
    unfold ppeek in Hq. apply bind_Ok in Hq as (t' & Ht' & E). injection E as <- <-.
    unfold index in Ht'. clear H IH. case_match eqn:El; [|done]. injection Ht' as <-. eauto. }
  assert (Hcons : (st ← parse_stmt debug_value tokens n;
      rest ← parse_stmts debug_value tokens n false; mret (st :: rest)) p2 = Ok (l, p') ->
      exists t, tokens !! (Nat.min p' (length tokens - 1)) = Some t /\ tok_kind t = Eof).
  { intros ([st p3] & _ & ([rest p4] & Hr & E)%bind_Ok)%bind_Ok. injection E as <- <-. by eapply IH. }
  destruct (tok_kind t) eqn:Ek; try exact (Hcons H).
  - exfalso. unfold perr in H. apply bind_Ok in H as ([t' q] & _ & E). discriminate E.
  - injection H as <- <-. eauto.
Qed.

Lemma parse_spec :
  0 < length tokens -> exec_spec (parse debug_value tokens) (g_document debug_value tokens) parse_error False.
Proof.
  intros Hlen. unfold parse, parse_document.
  assert (Hd : pspec (parse_stmts debug_value tokens (fuel tokens) false) 0 (g_body false))
    by (apply pspec_stmts_stmt; unfold fuel; lia).
  specialize (Hd Hlen). destruct (parse_stmts debug_value tokens (fuel tokens) false 0) as [[l p]| | |] eqn:E;
    unfold mbind, parser_bind; rewrite E; simpl; try exact Hd.
  destruct Hd as (Hp & ts & [-> E2] & Hg). destruct (parse_stmts_ends _ _ _ _ E) as (t & Ht & Hk).
  simpl in *. replace (Nat.min (length ts) (length tokens - 1)) with (length ts) in Ht by lia.
  exists ts, t. split_and!; [|done|done]. rewrite drop_0 in E2. rewrite E2 at 1. f_equal.
  rewrite (drop_S _ _ _ Ht), drop_ge; [done|]. by apply (Heof _ _ Ht) in Hk as <-.
Qed.
End Logic.

Lemma only_eof (front : list Token) eof :
  tok_kind eof = Eof -> Forall (fun t => tok_kind t <> Eof) front ->
  forall i t, (front ++ [eof]) !! i = Some t -> tok_kind t = Eof <-> S i = length (front ++ [eof]).
Proof.
  intros He Hf i t Ht. rewrite length_app. simpl. apply lookup_app_Some in Ht as [Ht|[Hi Ht]].
  - apply lookup_lt_Some in Ht as Hlt. split; [|lia]. intros Hk. by apply (Forall_lookup_1 _ _ _ _ Hf Ht) in Hk.
  - apply list_lookup_singleton_Some in Ht as [E <-]. split; [lia|done].
Qed.

Lemma flow_parse_spec debug_value (text : string) :
  exec_spec (flow_parse debug_value text)
    (fun ast => exists tokens, lexed (bytes_of text) 0 tokens /\ g_document debug_value tokens ast)
    (fun d => diag_severity d = Error /\ (diag_code d = CFG_SYNTAX \/ diag_code d = CFG_TYPE_MISMATCH))
    (bad_escape text).
Proof.
  unfold flow_parse. eapply exec_spec_seq; [apply lex_spec|..].
  - intros d (Hd & Hs & _). auto.
  - done.
  - intros toks Ht. destruct (lexed_last _ _ _ Ht) as (front & eof & -> & He & Hf).
    eapply exec_spec_mono; [apply parse_spec; [by apply only_eof|rewrite length_app; simpl; lia]|..].
    + eauto.
    + intros d (t & code & msg & _ & -> & Hc). done.
    + done.
Qed.

(** The parser is total and sound: on any token list that ends in its only
    [Eof] it neither panics nor loops; a document it accepts is derived by the
    grammar from all of those tokens, with the spans of the tokens each node
    covers; and it refuses with one of its two codes, at one of the tokens. *)
Theorem parse_correct debug_value (front : list Token) (eof : Token)
    (Heof : tok_kind eof = Eof) (Hfront : Forall (fun t => tok_kind t <> Eof) front) :
  exec_spec (parse debug_value (front ++ [eof])) (g_document debug_value (front ++ [eof]))
    (parse_error (front ++ [eof])) False.
Proof. apply parse_spec; [by apply only_eof|rewrite length_app; simpl; lia]. Qed.

Lemma parse_correct_witness :
  let toks := [mk_token (TAtom "http") (mk_span 0 4 1 1); mk_token LBrace (mk_span 5 1 1 6)] in
  let eof := mk_token Eof (mk_span 6 0 1 7) in
  exec_spec (parse (fun _ => "") (toks ++ [eof])) (g_document (fun _ => "") (toks ++ [eof]))
    (parse_error (toks ++ [eof])) False.
Proof.
  intros toks eof. apply (parse_correct (fun _ => "") toks eof); [reflexivity|].
  unfold toks. repeat constructor; simpl; discriminate.
Defined.

(** C7. Parsing a configuration text is total up to the escape panic: every
    text is either rejected with a diagnostic coded [PLS-CFG-0001] or
    [PLS-CFG-0003], or read as tokens that cover the text and derive the
    returned document; the only panic is a backslash before a byte outside
    ASCII in a literal. *)
Theorem flow_parse_correct debug_value (text : string) :
  exec_spec (flow_parse debug_value text)
    (fun ast => exists tokens, lexed (bytes_of text) 0 tokens /\ g_document debug_value tokens ast)
    (fun d => diag_severity d = Error /\ (diag_code d = CFG_SYNTAX \/ diag_code d = CFG_TYPE_MISMATCH))
    (bad_escape text).
Proof. apply flow_parse_spec. Qed.
