(* ===== verification/FlowPrint.v ===== *)
(** * Printing Flow

    The Flow text that the importers and the Kubernetes controller generate is
    made of directives, blocks and routes whose arguments are atoms and string
    literals.  This file describes such documents without positions ([PStmt]),
    their tokens and the texts that spell them, and proves that lexing and
    parsing a spelled document gives the document back. *)

From Stdlib Require Import ZArith Ascii String Lia.
From stdpp Require Import base option list gmap strings.
From S2P Require Import Prelude RustStr CoreTypes FlowSyntax FlowLexer FlowLexerSpec FlowLexerProps FlowParser.
Local Open Scope string_scope.
Local Open Scope list_scope.

(** ** Documents *)

(** An argument value: an atom, or a string literal. *)
Inductive PVal := PAtom (raw : string) | PText (s : string).
Record PArg := mk_parg { parg_name : option string; parg_value : PVal }.
Record PRoute := mk_proute {
  pr_kind : MatchKind.MatchKind;
  pr_pattern : string;
  pr_predicates : list (string * string);
  pr_handler : string;
  pr_args : list PArg;
}.
Inductive PStmt :=
| PDirective (kw : string) (args : list PArg)
| PRouteStmt (r : PRoute)
| PBlock (kw : string) (args : list PArg) (body : list PStmt).

(** The syntax tree, with every position zero. *)
Definition no_span : Span := mk_span 0 0 0 0.
Definition at_zero {A} (a : A) : Spanned A := mk_spanned a no_span.

Section Tree.
Variable debug_value : Value -> string.

Definition value_tree (v : PVal) : Value := match v with PAtom raw => type_atom raw | PText s => VStr s end.
Definition arg_tree (a : PArg) : Arg :=
  match parg_name a with
  | Some n => Named (at_zero n) (at_zero (value_tree (parg_value a)))
  | None => Positional (at_zero (value_tree (parg_value a)))
  end.
Definition predicate_tree (p : string * string) : Predicate :=
  mk_predicate p.1 (value_to_lexeme debug_value (type_atom p.2)) no_span.
Definition route_tree (r : PRoute) : Route :=
  mk_route (mk_matcher (pr_kind r) (at_zero (pr_pattern r)) (predicate_tree <$> pr_predicates r) no_span)
    [mk_step (at_zero (pr_handler r)) (arg_tree <$> pr_args r) true no_span] no_span.
Fixpoint stmt_tree (s : PStmt) : Stmt :=
  match s with
  | PDirective kw args => SDirective (mk_directive (at_zero kw) (arg_tree <$> args) no_span)
  | PRouteStmt r => SRoute (route_tree r)
  | PBlock kw args body => SBlock (at_zero kw) (arg_tree <$> args) (map stmt_tree body) no_span
  end.
End Tree.

(** A syntax tree with its positions forgotten. *)
Definition erase_spanned {A} (s : Spanned A) : Spanned A := at_zero (node s).
Definition erase_arg (a : Arg) : Arg :=
  match a with Positional v => Positional (erase_spanned v) | Named n v => Named (erase_spanned n) (erase_spanned v) end.
Definition erase_step (s : Step) : Step :=
  mk_step (erase_spanned (step_name s)) (erase_arg <$> step_args s) (has_parens s) no_span.
Definition erase_predicate (p : Predicate) : Predicate := mk_predicate (pred_key p) (pred_value p) no_span.
Definition erase_matcher (m : Matcher) : Matcher :=
  mk_matcher (matcher_kind m) (erase_spanned (matcher_pattern m)) (erase_predicate <$> matcher_predicates m) no_span.
Definition erase_route (r : Route) : Route :=
  mk_route (erase_matcher (route_matcher r)) (erase_step <$> route_steps r) no_span.
Fixpoint erase_stmt (s : Stmt) : Stmt :=
  match s with
  | SBlock kw args body _ => SBlock (erase_spanned kw) (erase_arg <$> args) (map erase_stmt body) no_span
  | SDirective d => SDirective (mk_directive (erase_spanned (directive_keyword d)) (erase_arg <$> directive_args d) no_span)
  | SRoute r => SRoute (erase_route r)
  end.

(** ** Tokens *)
Definition value_kind (v : PVal) : TokenKind := match v with PAtom raw => TAtom raw | PText s => TStr s end.
Definition arg_kinds (a : PArg) : list TokenKind :=
  match parg_name a with Some n => [TAtom n; Equals] | None => [] end ++ [value_kind (parg_value a)].
Fixpoint comma_kinds {A} (f : A -> list TokenKind) (l : list A) : list TokenKind :=
  match l with
  | [] => []
  | [a] => f a
  | a :: l => f a ++ Comma :: comma_kinds f l
  end.
Definition predicate_kinds (p : string * string) : list TokenKind := [TAtom p.1; Equals; TAtom p.2].
Definition matcher_kinds (r : PRoute) : list TokenKind :=
  match pr_kind r with MatchKind.Prefix => [] | MatchKind.Exact => [Equals] | MatchKind.Regex => [TAtom "~"] end
  ++ TAtom (pr_pattern r)
  :: match pr_predicates r with [] => [] | ps => LBracket :: comma_kinds predicate_kinds ps ++ [RBracket] end.
Definition route_kinds (r : PRoute) : list TokenKind :=
  TAtom "route" :: matcher_kinds r ++ [Arrow; TAtom (pr_handler r); LParen] ++ comma_kinds arg_kinds (pr_args r) ++ [RParen].
Fixpoint stmt_kinds (s : PStmt) : list TokenKind :=
  match s with
  | PDirective kw args => TAtom kw :: (args ≫= arg_kinds)
  | PRouteStmt r => route_kinds r
  | PBlock kw args body =>
    TAtom kw :: (args ≫= arg_kinds) ++ LBrace :: Sep :: concat (map (fun s => stmt_kinds s ++ [Sep]) body) ++ [RBrace]
  end.
Definition stmts_kinds (l : list PStmt) : list TokenKind := concat (map (fun s => stmt_kinds s ++ [Sep]) l).

(** What the tokens can stand for: keywords that do not start a route, and a
    pattern that is not taken for the mark of a regular expression. *)
Definition route_ok (r : PRoute) : Prop := pr_kind r = MatchKind.Prefix -> pr_pattern r <> "~".
Fixpoint stmt_ok (s : PStmt) : Prop :=
  match s with
  | PDirective kw _ => kw <> "route"
  | PRouteStmt r => route_ok r
  | PBlock kw _ body => kw <> "route" /\ fold_right (fun s P => stmt_ok s /\ P) True body
  end.

(** ** Parsing the tokens back *)
Section Complete.
Variable debug_value : Value -> string.
Variable tokens : list Token.
Let kinds : list TokenKind := tok_kind <$> tokens.

(** Run where the kinds [now] are ahead, [m] returns a value in [Q] and leaves
    [later] ahead. *)
Definition reads {A} (m : parser A) (now later : list TokenKind) (Q : A -> Prop) : Prop :=
  forall p, drop p kinds = now -> exists a p', m p = Ok (a, p') /\ drop p' kinds = later /\ Q a.

Lemma reads_ret {A} (a : A) now (Q : A -> Prop) : Q a -> reads (mret a) now now Q.
Proof. intros HQ p Hp. by exists a, p. Qed.

Lemma reads_bind {A B} (m : parser A) (f : A -> parser B) now mid later Q R :
  reads m now mid Q -> (forall a, Q a -> reads (f a) mid later R) -> reads (m ≫= f) now later R.
Proof.
  intros Hm Hf p Hp. destruct (Hm p Hp) as (a & p' & E & Hp' & HQ). destruct (Hf a HQ p' Hp') as (b & p'' & E' & ? & ?).
  exists b, p''. split; [|done]. unfold mbind, parser_bind. rewrite E. exact E'.
Qed.

Lemma reads_mono {A} (m : parser A) now later (Q R : A -> Prop) :
  reads m now later Q -> (forall a, Q a -> R a) -> reads m now later R.
Proof. intros Hm HQ p Hp. destruct (Hm p Hp) as (a & p' & ? & ? & ?). exists a, p'. auto. Qed.

Lemma ahead p k rest : drop p kinds = k :: rest ->
  exists t, tokens !! p = Some t /\ tok_kind t = k /\ p < length tokens /\ drop (p + 1) kinds = rest
    /\ length tokens = p + S (length rest).
Proof.
  intros H. assert (Hl : length (drop p kinds) = S (length rest)) by by rewrite H.
  rewrite length_drop in Hl. unfold kinds in *. rewrite length_fmap in Hl.
  assert ((tok_kind <$> tokens) !! p = Some k) as Hk by by rewrite <-(Nat.add_0_r p), <-lookup_drop, H.
  rewrite list_lookup_fmap in Hk. destruct (tokens !! p) as [t|] eqn:Et; [|done]. injection Hk as Hk.
  exists t. split; [done|]. split; [done|]. split; [lia|]. split; [|lia].
  by rewrite <-drop_drop, H.
Qed.

Lemma reads_ppeek {B} (f : Token -> parser B) k now later R :
  (forall t, tok_kind t = k -> reads (f t) (k :: now) later R) -> reads (ppeek tokens ≫= f) (k :: now) later R.
Proof.
  intros H p Hp. destruct (ahead _ _ _ Hp) as (t & Ht & Hk & Hlt & _).
  unfold mbind, parser_bind, ppeek, index. replace (Nat.min p (length tokens - 1)) with p by lia. rewrite Ht. simpl.
  by apply (H t Hk p).
Qed.

Lemma reads_peek {B} (f : TokenKind -> parser B) k now later R :
  reads (f k) (k :: now) later R -> reads (peek_kind tokens ≫= f) (k :: now) later R.
Proof.
  intros H p Hp. destruct (ahead _ _ _ Hp) as (t & Ht & Hk & Hlt & _).
  unfold peek_kind, mbind, parser_bind, ppeek, index. replace (Nat.min p (length tokens - 1)) with p by lia. rewrite Ht. simpl.
  rewrite Hk. by apply (H p).
Qed.

Lemma reads_next {B} (f : TokenKind -> parser B) k k' now later R :
  reads (f k') (k :: k' :: now) later R -> reads (next_kind tokens ≫= f) (k :: k' :: now) later R.
Proof.
  intros H p Hp. destruct (ahead _ _ _ Hp) as (t & _ & _ & _ & Hp' & _).
  destruct (ahead _ _ _ Hp') as (t' & Ht' & Hk' & Hlt & _).
  unfold next_kind, mbind, parser_bind, index. replace (Nat.min (p + 1) (length tokens - 1)) with (p + 1) by lia.
  rewrite Ht'. simpl. rewrite Hk'. by apply (H p).
Qed.

Lemma reads_bump {B} (f : Token -> parser B) k k' now later R :
  (forall t, tok_kind t = k -> reads (f t) (k' :: now) later R) -> reads (pbump tokens ≫= f) (k :: k' :: now) later R.
Proof.
  intros H p Hp. destruct (ahead _ _ _ Hp) as (t & Ht & Hk & Hlt & Hp' & Hlen).
  unfold pbump, mbind, parser_bind, index. replace (Nat.min p (length tokens - 1)) with p by lia. rewrite Ht. simpl.
  rewrite decide_True by (simpl in Hlen; lia). by apply (H t Hk (p + 1)).
Qed.

Lemma reads_seps {B} (f : () -> parser B) k now later R :
  k <> Sep -> reads (f ()) (k :: now) later R -> reads (seps tokens ≫= f) (k :: now) later R.
Proof.
  intros Hk H. unfold seps, fuel. rewrite Nat.add_comm. cbn [Nat.add skip_seps].
  eapply reads_bind; [apply reads_peek; rewrite decide_False by done; by apply (reads_ret () _ (fun _ => True))|].
  by intros [] _.
Qed.

Lemma reads_sep {B} (f : () -> parser B) k now later R :
  k <> Sep -> reads (f ()) (k :: now) later R -> reads (seps tokens ≫= f) (Sep :: k :: now) later R.
Proof.
  intros Hk H. unfold seps, fuel. rewrite Nat.add_comm. cbn [Nat.add skip_seps].
  eapply (reads_bind _ _ _ (k :: now) _ (fun _ => True)); [|by intros [] _].
  apply reads_peek. rewrite decide_True by done. intros p Hp. destruct (ahead _ _ _ Hp) as (t & _ & _ & _ & Hp' & _).
  unfold mbind at 1, parser_bind at 1, step_cursor. simpl. revert p Hp Hp'. intros p _ Hp'.
  revert Hp'. generalize (p + 1). apply reads_peek. rewrite decide_False by done. by apply (reads_ret () _ (fun _ => True)).
Qed.

Lemma reads_value v n k rest :
  reads (parse_value tokens (S n)) (value_kind v :: k :: rest) (k :: rest) (fun s => node s = value_tree v).
Proof.
  cbn [parse_value]. apply reads_peek. destruct v; cbn [value_kind]; apply reads_bump; intros t _; by apply reads_ret.
Qed.

Lemma reads_fuel_value v k rest :
  reads (parse_value tokens (fuel tokens)) (value_kind v :: k :: rest) (k :: rest) (fun s => node s = value_tree v).
Proof. unfold fuel. rewrite Nat.add_comm. apply reads_value. Qed.

Lemma arg_kinds_head x : exists hd tl, arg_kinds x = hd :: tl /\ starts_arg hd = true.
Proof. destruct x as [[n|] [raw|s]]; by eexists _, _. Qed.

Lemma starts_arg_not k : starts_arg k = true -> k <> Equals /\ k <> Sep /\ k <> RParen.
Proof. by destruct k. Qed.

Lemma reads_arg x k rest :
  k <> Equals -> reads (parse_arg tokens) (arg_kinds x ++ k :: rest) (k :: rest) (fun a => erase_arg a = arg_tree x).
Proof.
  intros Hk. unfold parse_arg, arg_kinds, arg_tree. destruct x as [[n|] v]; cbn [parg_name parg_value app].
  - apply reads_peek, reads_next, reads_bump. intros t ->. apply reads_bump. intros t' _.
    eapply reads_bind; [apply reads_fuel_value|]. intros s Hs. apply reads_ret. cbn. unfold erase_spanned. cbn. by rewrite Hs.
  - apply reads_peek, reads_next. assert (Hpos : reads (value ← parse_value tokens (fuel tokens); mret (Positional value))
      (value_kind v :: k :: rest) (k :: rest) (fun a => erase_arg a = Positional (at_zero (value_tree v)))).
    { eapply reads_bind; [apply reads_fuel_value|]. intros s Hs. apply reads_ret. cbn. unfold erase_spanned. by rewrite Hs. }
    destruct v; cbn [value_kind] in *; [|done]. by destruct k.
Qed.

Lemma reads_space_args args n k rest :
  length args < n -> starts_arg k = false -> k <> Equals ->
  reads (parse_space_args tokens n) ((args ≫= arg_kinds) ++ k :: rest) (k :: rest)
    (fun l => erase_arg <$> l = arg_tree <$> args).
Proof.
  revert n. induction args as [|x args IH]; intros [|n] Hn Hk Heq; [simpl in Hn; lia..| |simpl in Hn; lia|];
    cbn [parse_space_args].
  { apply reads_peek. rewrite Hk. by apply reads_ret. }
  cbn [mbind list_bind]. rewrite <-app_assoc. destruct (arg_kinds_head x) as (hd & tl & Ex & Hhd).
  assert (exists k' rest', (args ≫= arg_kinds) ++ k :: rest = k' :: rest' /\ k' <> Equals) as (k' & rest' & Er & Hk').
  { destruct args as [|y args]; [by exists k, rest|]. destruct (arg_kinds_head y) as (hd' & tl' & Ey & Hhd').
    cbn [mbind list_bind]. rewrite Ey. exists hd'. eexists. split; [done|]. by apply starts_arg_not. }
  pose proof (reads_arg x k' rest' Hk') as Ha. rewrite <-Er in Ha. rewrite Ex in *. cbn [app] in *.
  apply reads_peek. rewrite Hhd. eapply reads_bind; [exact Ha|]. intros a Hax.
  eapply reads_bind; [apply IH; [simpl in Hn; lia|done..]|]. intros l Hl. apply reads_ret. cbn. by rewrite Hax, Hl.
Qed.

Lemma reads_step_args args n rest :
  length args < n ->
  reads (parse_step_args tokens n) (comma_kinds arg_kinds args ++ RParen :: rest) (RParen :: rest)
    (fun l => erase_arg <$> l = arg_tree <$> args).
Proof.
  revert n. induction args as [|x args IH]; intros [|n] Hn; [simpl in Hn; lia..| |simpl in Hn; lia|]; cbn [parse_step_args].
  { apply reads_seps; [done|]. apply reads_peek. rewrite decide_True by done. by apply reads_ret. }
  destruct (arg_kinds_head x) as (hd & tl & Ex & Hhd). destruct (starts_arg_not hd Hhd) as (_ & Hsep & Hpar).
  destruct args as [|y args].
  - cbn [comma_kinds]. pose proof (reads_arg x RParen rest) as Ha. rewrite Ex in *. cbn [app] in *.
    apply reads_seps; [done|]. apply reads_peek. rewrite decide_False by done.
    eapply reads_bind; [by apply Ha|]. intros a Hax. apply reads_seps; [done|]. apply reads_peek.
    rewrite decide_False by done. apply reads_ret. cbn. by rewrite Hax.
  - change (comma_kinds arg_kinds (x :: y :: args)) with (arg_kinds x ++ Comma :: comma_kinds arg_kinds (y :: args)).
    rewrite <-app_assoc. cbn [app]. pose proof (reads_arg x Comma (comma_kinds arg_kinds (y :: args) ++ RParen :: rest)) as Ha.
    rewrite Ex in *. cbn [app] in Ha |- *.
    apply reads_seps; [done|]. apply reads_peek. rewrite decide_False by done.
    eapply reads_bind; [by apply Ha|]. intros a Hax. apply reads_seps; [done|]. apply reads_peek.
    rewrite decide_True by done.
    destruct (arg_kinds_head y) as (hd' & tl' & Ey & _).
    assert (exists k' r', comma_kinds arg_kinds (y :: args) ++ RParen :: rest = k' :: r') as (k' & r' & Er).
    { destruct args; cbn; rewrite Ey; by eexists _, _. }
    specialize (IH n ltac:(simpl in *; lia)). rewrite Er in *. apply reads_bump. intros t _.
    eapply reads_bind; [exact IH|]. intros l Hl. apply reads_ret. rewrite fmap_cons, Hax, Hl. done.
Qed.

Abbreviation predicate_tree := (predicate_tree debug_value).

(** A predicate list, with what comes after it. *)
Lemma reads_predicates ps n rest :
  length ps < n -> ps <> [] ->
  reads (parse_predicates debug_value tokens n) (comma_kinds predicate_kinds ps ++ RBracket :: rest) (RBracket :: rest)
    (fun l => erase_predicate <$> l = predicate_tree <$> ps).
Proof.
  revert n. induction ps as [|[key v] ps IH]; intros [|n] Hn Hne; [done..|simpl in Hn; lia|]. cbn [parse_predicates].
  assert (Hone : forall k' r' (B : Type) (f : Predicate -> parser B) later R,
    k' <> Sep ->
    (forall pr, erase_predicate pr = predicate_tree (key, v) -> reads (f pr) (k' :: r') later R) ->
    reads (key_tok ← pbump tokens; k ← peek_kind tokens;
      '(value, fin) ← (if decide (k = Equals) then
             pbump tokens;; v ← parse_value tokens (fuel tokens); mret (value_to_lexeme debug_value (node v), span_end (span_of v))
           else mret ("*", span_end (tok_span key_tok)));
      f (mk_predicate key value (span_to (tok_span key_tok) fin))) (TAtom key :: Equals :: TAtom v :: k' :: r') later R).
  { intros k' r' B f later R Hk Hf. apply reads_bump. intros t _. apply reads_peek. rewrite decide_True by done.
    eapply reads_bind.
    - apply reads_bump. intros t' _. eapply reads_bind; [apply (reads_fuel_value (PAtom v))|]. intros s Hs.
      apply (reads_ret _ _ (fun x => x.1 = value_to_lexeme debug_value (type_atom v))). cbn. by rewrite Hs.
    - intros [value fin] Hv. apply Hf. cbn in Hv. unfold erase_predicate. cbn. by rewrite Hv. }
  pose (after := fun pr : Predicate => seps tokens;; k ← peek_kind tokens;
    if decide (k = Comma) then pbump tokens;; rest ← parse_predicates debug_value tokens n; mret (pr :: rest) else mret [pr]).
  destruct ps as [|q ps].
  - cbn [comma_kinds predicate_kinds app fst snd]. apply reads_seps; [done|]. apply reads_peek. rewrite decide_False by done.
    apply (Hone _ _ _ after); [done|]. intros pr Hpr. apply reads_seps; [done|]. apply reads_peek. rewrite decide_False by done.
    apply reads_ret. cbn. by rewrite Hpr.
  - change (comma_kinds predicate_kinds ((key, v) :: q :: ps))
      with (predicate_kinds (key, v) ++ Comma :: comma_kinds predicate_kinds (q :: ps)).
    cbn [predicate_kinds app fst snd]. apply reads_seps; [done|]. apply reads_peek. rewrite decide_False by done.
    apply (Hone _ _ _ after); [done|]. intros pr Hpr. apply reads_seps; [done|]. apply reads_peek. rewrite decide_True by done.
    assert (exists k' r', comma_kinds predicate_kinds (q :: ps) ++ RBracket :: rest = k' :: r') as (k' & r' & Er).
    { destruct ps; by eexists _, _. }
    specialize (IH n ltac:(simpl in *; lia) ltac:(done)). rewrite Er in *. apply reads_bump. intros t _.
    eapply reads_bind; [exact IH|]. intros l Hl. apply reads_ret. rewrite fmap_cons, Hpr, Hl. done.
Qed.

Lemma kinds_length p now : drop p kinds = now -> length now <= length tokens.
Proof. intros <-. unfold kinds. rewrite length_drop, length_fmap. lia. Qed.

(** Loops whose fuel is more than the tokens ahead. *)
Lemma reads_fuel {A} (m : nat -> parser A) now later (Q : A -> Prop) :
  (length now <= length tokens -> reads (m (fuel tokens)) now later Q) -> reads (m (fuel tokens)) now later Q.
Proof. intros H p Hp. by apply (H (kinds_length _ _ Hp) p). Qed.

Lemma comma_kinds_length {A} (f : A -> list TokenKind) l :
  (forall a, 1 <= length (f a)) -> length l <= length (comma_kinds f l).
Proof.
  intros Hf. induction l as [|a l IH]; [done|]. destruct l as [|b l]; [cbn; specialize (Hf a); lia|].
  change (comma_kinds f (a :: b :: l)) with (f a ++ Comma :: comma_kinds f (b :: l)).
  rewrite length_app. cbn [length] in *. specialize (Hf a). lia.
Qed.

Lemma arg_kinds_length a : 1 <= length (arg_kinds a).
Proof. destruct (arg_kinds_head a) as (hd & tl & -> & _). cbn. lia. Qed.

Lemma reads_matcher r k rest :
  route_ok r -> k <> LBracket ->
  reads (parse_matcher debug_value tokens) (matcher_kinds r ++ k :: rest) (k :: rest)
    (fun m => erase_matcher m = route_matcher (route_tree debug_value r)).
Proof.
  intros Hok Hk. unfold parse_matcher, matcher_kinds.
  set (tail := TAtom (pr_pattern r) :: match pr_predicates r with [] => [] | ps => LBracket :: comma_kinds predicate_kinds ps ++ [RBracket] end).
  assert (Htail : forall kind sp, pr_kind r = kind -> reads (k ← peek_kind tokens;
    match k with
    | TAtom pat =>
      pat_tok ← pbump tokens; k ← peek_kind tokens;
      '(predicates, fin) ← (if decide (k = LBracket) then
         pbump tokens;; ps ← parse_predicates debug_value tokens (fuel tokens); k ← peek_kind tokens;
         if decide (k = RBracket) then close ← pbump tokens; mret (ps, span_end (tok_span close))
         else perr tokens CFG_SYNTAX "expected `]` to close predicates"
       else mret ([], span_end (tok_span pat_tok)));
      mret (mk_matcher kind (mk_spanned pat (tok_span pat_tok)) predicates (span_to sp fin))
    | _ => perr tokens CFG_SYNTAX "expected a route pattern"
    end) (tail ++ k :: rest) (k :: rest) (fun m => erase_matcher m = route_matcher (route_tree debug_value r))).
  { intros kind sp Hkind. subst tail. cbn [app]. apply reads_peek.
    destruct (pr_predicates r) as [|pd ps] eqn:Eps.
    - cbn [app]. apply reads_bump. intros t _. apply reads_peek. rewrite decide_False by done.
      eapply reads_bind; [by apply (reads_ret _ _ (fun x => x.1 = []))|]. intros [l fin] Hl. cbn in Hl. subst l.
      apply reads_ret. unfold erase_matcher, route_tree. cbn. by rewrite Eps, Hkind.
    - cbn [app]. rewrite <-app_assoc. cbn [app]. apply reads_bump. intros t _. apply reads_peek. rewrite decide_True by done.
      eapply reads_bind.
      + assert (exists k' r', comma_kinds predicate_kinds (pd :: ps) ++ RBracket :: k :: rest = k' :: r') as (k' & r' & Er).
        { destruct ps; by eexists _, _. }
        pose proof (comma_kinds_length predicate_kinds (pd :: ps)) as Hlen.
        pose proof (reads_fuel (fun n => parse_predicates debug_value tokens n)
          (comma_kinds predicate_kinds (pd :: ps) ++ RBracket :: k :: rest) (RBracket :: k :: rest)
          (fun l => erase_predicate <$> l = predicate_tree <$> (pd :: ps))) as Hps.
        cbn beta in Hps. rewrite Er in Hps |- *. apply reads_bump. intros t' _.
        eapply reads_bind.
        { apply Hps. intros Hl. rewrite <-Er in *. apply reads_predicates; [|done].
          rewrite length_app in Hl. specialize (Hlen ltac:(intros; cbn; lia)). unfold fuel. lia. }
        intros l Hl. apply reads_peek. rewrite decide_True by done. apply reads_bump. intros t'' _.
        apply (reads_ret _ _ (fun x => erase_predicate <$> x.1 = predicate_tree <$> (pd :: ps))). exact Hl.
      + intros [l fin] Hl. cbn [fst] in Hl. apply reads_ret. unfold erase_matcher, route_tree.
        cbn [matcher_kind matcher_pattern matcher_predicates route_matcher]. by rewrite Hl, Eps, Hkind. }
  destruct (pr_kind r) eqn:Ekind; cbn [app].
  - subst tail. cbn [app] in *. apply reads_ppeek. intros t Ht. rewrite Ht, decide_False by done.
    rewrite decide_False by (intros [= E]; by apply (Hok Ekind)).
    eapply reads_bind; [by apply (reads_ret _ _ (fun x => x.1 = MatchKind.Prefix))|].
    intros [kind sp] Hx. cbn in Hx. subst kind. by apply Htail.
  - apply reads_ppeek. intros t Ht. rewrite Ht, decide_True by done. subst tail. cbn [app] in *.
    eapply reads_bind; [apply reads_bump; intros t' _; by apply (reads_ret _ _ (fun x => x.1 = MatchKind.Exact))|].
    intros [kind sp] Hx. cbn in Hx. subst kind. by apply Htail.
  - apply reads_ppeek. intros t Ht. rewrite Ht, decide_False, decide_True by done. subst tail. cbn [app] in *.
    eapply reads_bind; [apply reads_bump; intros t' _; by apply (reads_ret _ _ (fun x => x.1 = MatchKind.Regex))|].
    intros [kind sp] Hx. cbn in Hx. subst kind. by apply Htail.
Qed.

Lemma reads_step name args k rest :
  k <> LParen ->
  reads (parse_step tokens) (TAtom name :: LParen :: comma_kinds arg_kinds args ++ RParen :: k :: rest) (k :: rest)
    (fun s => erase_step s = mk_step (at_zero name) (arg_tree <$> args) true no_span).
Proof.
  intros Hk. unfold parse_step. apply reads_peek, reads_bump. intros t _. apply reads_peek. rewrite decide_True by done.
  eapply reads_bind.
  - assert (exists k' r', comma_kinds arg_kinds args ++ RParen :: k :: rest = k' :: r') as (k' & r' & Er).
    { destruct args as [|x [|y l]]; [by eexists _, _|destruct (arg_kinds_head x) as (? & ? & Ex & _); cbn; rewrite Ex; by eexists _, _..]. }
    pose proof (comma_kinds_length arg_kinds args arg_kinds_length) as Hlen.
    pose proof (reads_fuel (fun n => parse_step_args tokens n)
      (comma_kinds arg_kinds args ++ RParen :: k :: rest) (RParen :: k :: rest)
      (fun l => erase_arg <$> l = arg_tree <$> args)) as Hargs.
    cbn beta in Hargs. rewrite Er in Hargs |- *. apply reads_bump. intros t' _. eapply reads_bind.
    { apply Hargs. intros Hl. rewrite <-Er in *. apply reads_step_args. rewrite length_app in Hl. unfold fuel. lia. }
    intros l Hl. apply reads_peek. rewrite decide_True by done. apply reads_bump. intros t'' _.
    apply (reads_ret _ _ (fun x => erase_arg <$> x.1.1 = arg_tree <$> args /\ x.1.2 = true)). done.
  - intros [[l pr] fin] [Hl Hpr]. cbn in Hl, Hpr. subst pr. apply reads_ret. unfold erase_step. cbn [step_args has_parens step_name].
    by rewrite Hl.
Qed.

Lemma reads_steps name args k rest n :
  2 <= n -> k <> Sep -> k <> Arrow ->
  reads (parse_steps tokens n)
    (Arrow :: TAtom name :: LParen :: comma_kinds arg_kinds args ++ RParen :: Sep :: k :: rest) (k :: rest)
    (fun l => erase_step <$> l = [mk_step (at_zero name) (arg_tree <$> args) true no_span]).
Proof.
  intros Hn Hk Ha. destruct n as [|[|n]]; [lia..|]. cbn [parse_steps]. apply reads_seps; [done|]. apply reads_peek.
  rewrite decide_True by done. apply reads_bump. intros t _. apply reads_seps; [done|].
  eapply reads_bind; [by apply (reads_step _ _ Sep)|]. intros s Hs.
  eapply (reads_bind _ _ _ (k :: rest) _ (fun l => l = [])).
  - apply reads_sep; [done|]. apply reads_peek. rewrite decide_False by done. by apply reads_ret.
  - intros l ->. apply reads_ret. cbn. by rewrite Hs.
Qed.

Lemma reads_route r k rest :
  route_ok r -> k <> Sep -> k <> Arrow ->
  reads (parse_route debug_value tokens) (route_kinds r ++ Sep :: k :: rest) (k :: rest)
    (fun x => erase_route x = route_tree debug_value r).
Proof.
  intros Hok Hk Ha. unfold parse_route, route_kinds. rewrite <-app_comm_cons.
  assert (exists k' r', (matcher_kinds r ++ [Arrow; TAtom (pr_handler r); LParen] ++ comma_kinds arg_kinds (pr_args r) ++ [RParen])
    ++ Sep :: k :: rest = k' :: r') as (k' & r' & Er).
  { unfold matcher_kinds. destruct (pr_kind r); by eexists _, _. }
  rewrite Er. apply reads_bump. intros t _. rewrite <-Er. clear Er k' r'. rewrite <-!app_assoc. cbn [app].
  eapply reads_bind; [by apply reads_matcher|]. intros m Hm. eapply reads_bind.
  { apply reads_fuel. intros Hl. apply reads_steps; [|done..]. unfold fuel. cbn in Hl. lia. }
  intros l Hl. apply reads_ret. unfold erase_route. cbn [route_matcher route_steps]. by rewrite Hm, Hl.
Qed.

(** ** Statements *)

(** The kinds ahead, after a separator or not. *)
Definition loose (now ks : list TokenKind) : Prop := ks = now \/ ks = Sep :: now.

Definition reads_loose {A} (m : parser A) (N L : list TokenKind -> Prop) (Q : A -> Prop) : Prop :=
  forall p, N (drop p kinds) -> exists a p', m p = Ok (a, p') /\ L (drop p' kinds) /\ Q a.

Lemma reads_loose_bind {A B} (m : parser A) (f : A -> parser B) N M L Q R :
  reads_loose m N M Q -> (forall a, Q a -> reads_loose (f a) M L R) -> reads_loose (m ≫= f) N L R.
Proof.
  intros Hm Hf p Hp. destruct (Hm p Hp) as (a & p' & E & Hp' & HQ). destruct (Hf a HQ p' Hp') as (b & p'' & E' & ? & ?).
  exists b, p''. split; [|done]. unfold mbind, parser_bind. rewrite E. exact E'.
Qed.

Lemma reads_tight {A} (m : parser A) now later (L : list TokenKind -> Prop) Q :
  reads m now later Q -> L later -> reads_loose m (eq now) L Q.
Proof. intros H HL p Hp. destruct (H p (eq_sym Hp)) as (a & p' & ? & <- & ?). by exists a, p'. Qed.

Lemma reads_loose_seps {B} (f : () -> parser B) k now L R :
  k <> Sep -> reads_loose (f ()) (eq (k :: now)) L R -> reads_loose (seps tokens ≫= f) (loose (k :: now)) L R.
Proof.
  intros Hk H. eapply (reads_loose_bind _ _ _ (eq (k :: now)) _ (fun _ => True)); [|by intros [] _].
  intros p Hp. assert (reads (seps tokens) (drop p kinds) (k :: now) (fun _ => True)) as Hs.
  { destruct Hp as [->| ->]; intros q Hq.
    - destruct (reads_seps (fun u => mret u) k now (k :: now) (fun _ => True) Hk ltac:(by apply reads_ret) q Hq)
        as (a & p' & E & ? & _). unfold mbind, parser_bind in E. apply bind_Ok in E as ([u p2] & E & [= <- <-]). by exists u, p2.
    - destruct (reads_sep (fun u => mret u) k now (k :: now) (fun _ => True) Hk ltac:(by apply reads_ret) q Hq)
        as (a & p' & E & ? & _). unfold mbind, parser_bind in E. apply bind_Ok in E as ([u p2] & E & [= <- <-]). by exists u, p2. }
  destruct (Hs p eq_refl) as (a & p' & ? & ? & _). by exists a, p'.
Qed.

Lemma reads_loose_peek {B} (f : TokenKind -> parser B) k now L R :
  reads_loose (f k) (eq (k :: now)) L R -> reads_loose (peek_kind tokens ≫= f) (eq (k :: now)) L R.
Proof.
  intros H p Hp. destruct (ahead _ _ _ (eq_sym Hp)) as (t & Ht & Hk & Hlt & _).
  unfold peek_kind, mbind, parser_bind, ppeek, index. replace (Nat.min p (length tokens - 1)) with p by lia. rewrite Ht. simpl.
  rewrite Hk. by apply (H p).
Qed.

Fixpoint psize (s : PStmt) : nat :=
  match s with
  | PBlock _ _ body => S (S (fold_right (fun s n => S (psize s) + n) 1 body))
  | _ => 1
  end.
Definition psizes (l : list PStmt) : nat := fold_right (fun s n => S (psize s) + n) 1 l.
Definition stmts_ok (l : list PStmt) : Prop := fold_right (fun s P => stmt_ok s /\ P) True l.

Lemma stmt_kinds_head s : stmt_ok s -> exists kw tl, stmt_kinds s = TAtom kw :: tl.
Proof. destruct s; by eexists _, _. Qed.

(** What ends a list of statements, and what is ahead after it. *)
Definition ends (in_block : bool) (ender later : list TokenKind) : Prop :=
  if in_block then exists k rest, ender = RBrace :: k :: rest /\ later = k :: rest else ender = [Eof] /\ later = [Eof].

Lemma reads_args_then args k rest :
  starts_arg k = false -> k <> Equals ->
  reads (parse_space_args tokens (fuel tokens)) ((args ≫= arg_kinds) ++ k :: rest) (k :: rest)
    (fun l => erase_arg <$> l = arg_tree <$> args).
Proof.
  intros Hk He. apply reads_fuel. intros Hl. apply reads_space_args; [|done..]. rewrite length_app in Hl.
  assert (length args <= length (args ≫= arg_kinds)).
  { clear. induction args as [|x l IH]; [done|]. cbn [mbind list_bind]. rewrite length_app. pose proof (arg_kinds_length x).
    cbn [length]. cbn [mbind list_bind] in IH. lia. }
  unfold fuel. lia.
Qed.

Lemma reads_loose_bump {B} (f : Token -> parser B) k k' now L R :
  (forall t, tok_kind t = k -> reads_loose (f t) (eq (k' :: now)) L R) ->
  reads_loose (pbump tokens ≫= f) (eq (k :: k' :: now)) L R.
Proof.
  intros H p Hp. destruct (ahead _ _ _ (eq_sym Hp)) as (t & Ht & Hk & Hlt & Hp' & Hlen).
  unfold pbump, mbind, parser_bind, index. replace (Nat.min p (length tokens - 1)) with p by lia. rewrite Ht. simpl.
  rewrite decide_True by (simpl in Hlen; lia). by apply (H t Hk (p + 1)).
Qed.

Lemma reads_loose_ret {A} (a : A) (N L : list TokenKind -> Prop) (Q : A -> Prop) :
  Q a -> (forall ks, N ks -> L ks) -> reads_loose (mret a) N L Q.
Proof. intros HQ HL p Hp. exists a, p. auto. Qed.

(** A directive or a block, once its keyword is read. *)
Lemma reads_stmt_tail n kw kwt args body (block : bool) k rest :
  kw <> "route" -> k <> Sep -> k <> Arrow ->
  (block = true -> forall ender later, ends true ender later ->
     reads_loose (parse_stmts debug_value tokens n true) (loose (stmts_kinds body ++ ender)) (eq later)
       (fun x => map erase_stmt x = map (stmt_tree debug_value) body)) ->
  tok_kind kwt = TAtom kw ->
  reads_loose (let keyword := mk_spanned kw (tok_span kwt) in
        args ← parse_space_args tokens (fuel tokens);
        k ← peek_kind tokens;
        if decide (k = LBrace) then
          pbump tokens;;
          body ← parse_stmts debug_value tokens n true;
          prev ← prev_span tokens;
          mret (SBlock keyword args body (span_to (tok_span kwt) (span_end prev)))
        else
          mret (SDirective (mk_directive keyword args (span_to (tok_span kwt) (args_end (tok_span kwt) args)))))
    (eq ((args ≫= arg_kinds) ++ (if block then LBrace :: Sep :: stmts_kinds body ++ [RBrace] else []) ++ Sep :: k :: rest))
    (eq (Sep :: k :: rest))
    (fun x => erase_stmt x = stmt_tree debug_value (if block then PBlock kw args body else PDirective kw args)).
Proof.
  intros Hkw Hk Ha Hbody Hkind. cbv zeta. destruct block; cbn [app].
  - eapply reads_loose_bind.
    { eapply (reads_tight _ _ _ (eq _)); [by apply reads_args_then|reflexivity]. }
    intros l Hl. apply reads_loose_peek. rewrite decide_True by done. apply reads_loose_bump. intros t _.
    rewrite <-app_assoc. cbn [app]. eapply reads_loose_bind.
    { intros p Hp. apply (Hbody eq_refl (RBrace :: Sep :: k :: rest) (Sep :: k :: rest)); [by eexists _, _|]. by right. }
    intros x Hx p Hp. destruct (ahead _ _ _ (eq_sym Hp)) as (t' & _ & _ & Hlt & _).
    unfold mbind, parser_bind, prev_span, index. destruct (lookup_lt_is_Some_2 tokens (p - 1) ltac:(lia)) as [t'' ->]. simpl.
    eexists _, p. split; [done|]. split; [done|]. cbn. by rewrite Hl, Hx.
  - eapply reads_loose_bind; [eapply (reads_tight _ _ _ (eq _)); [by apply reads_args_then|reflexivity]|]. intros l Hl.
    apply reads_loose_peek. rewrite decide_False by done. apply reads_loose_ret; [|done]. cbn. by rewrite Hl.
Qed.

Lemma stmts_kinds_head l in_block ender later :
  stmts_ok l -> ends in_block ender later ->
  exists k rest, stmts_kinds l ++ ender = k :: rest /\ k <> Sep /\ k <> Arrow.
Proof.
  intros Hok He. destruct l as [|s l].
  - destruct in_block; [destruct He as (k & rest & -> & _)|destruct He as [-> _]]; by eexists _, _.
  - destruct Hok as [Hs _]. destruct (stmt_kinds_head s Hs) as (kw & tl & E). cbn. rewrite E. by eexists _, _.
Qed.

Lemma args_tail_head args (block : bool) body k rest :
  exists k' r', (args ≫= arg_kinds) ++ (if block then LBrace :: Sep :: stmts_kinds body ++ [RBrace] else []) ++ Sep :: k :: rest = k' :: r'.
Proof.
  destruct args as [|x args]; [destruct block; by eexists _, _|]. destruct (arg_kinds_head x) as (hd & tl & Ex & _).
  cbn [mbind list_bind]. rewrite Ex. by eexists _, _.
Qed.

Lemma reads_stmts n :
  (forall l in_block ender later, psizes l <= n -> stmts_ok l -> ends in_block ender later ->
     reads_loose (parse_stmts debug_value tokens n in_block) (loose (stmts_kinds l ++ ender)) (eq later)
       (fun x => map erase_stmt x = map (stmt_tree debug_value) l))
  /\ (forall s k rest, psize s <= n -> stmt_ok s -> k <> Sep -> k <> Arrow ->
     reads_loose (parse_stmt debug_value tokens n) (eq (stmt_kinds s ++ Sep :: k :: rest)) (loose (k :: rest))
       (fun x => erase_stmt x = stmt_tree debug_value s)).
Proof.
  induction n as [|n [IHl IHs]]; (split; [intros l in_block ender later Hn Hok He|intros s k rest Hn Hok Hk Ha]);
    [destruct l; cbn in Hn; lia|destruct s; cbn in Hn; lia|cbn [parse_stmts]|cbn [parse_stmt]].
  - destruct l as [|s l].
    + destruct in_block; [destruct He as (k & rest & -> & ->)|destruct He as [-> ->]]; cbn [stmts_kinds map concat app];
        (apply reads_loose_seps; [done|]); apply reads_loose_peek.
      * apply reads_loose_bump. intros t _. by apply reads_loose_ret.
      * by apply reads_loose_ret.
    + destruct Hok as [Hs Hok]. cbn [psizes fold_right] in Hn. fold (psizes l) in Hn.
      assert (Hl1 : 1 <= psizes l) by (destruct l; cbn; lia).
      destruct (stmts_kinds_head l in_block ender later Hok He) as (k & rest & Er & Hk & Ha).
      change (stmts_kinds (s :: l)) with ((stmt_kinds s ++ [Sep]) ++ stmts_kinds l). rewrite <-!app_assoc, Er. cbn [app].
      pose proof (IHs s k rest ltac:(lia) Hs Hk Ha) as Hst. destruct (stmt_kinds_head s Hs) as (kw & tl & Ek).
      rewrite Ek in *. cbn [app] in *. apply reads_loose_seps; [done|]. apply reads_loose_peek.
      eapply reads_loose_bind; [exact Hst|]. intros x Hx. eapply reads_loose_bind.
      { rewrite <-Er. apply IHl; [lia|done|exact He]. }
      intros xs Hxs. apply reads_loose_ret; [|done]. cbn. by rewrite Hx, Hxs.
  - destruct s as [kw args|r|kw args body]; cbn [stmt_kinds].
    + rewrite <-app_comm_cons. apply reads_loose_peek. cbn in Hok. rewrite decide_False by done.
      destruct (args_tail_head args false [] k rest) as (k' & r' & Er). cbn [app] in Er.
      rewrite Er. apply reads_loose_bump. intros t Ht. rewrite <-Er. intros p Hp.
      destruct (reads_stmt_tail n kw t args [] false k rest Hok Hk Ha ltac:(done) Ht p Hp) as (x & p' & E & Hp' & Hx).
      exists x, p'. split; [exact E|]. split; [by right|done].
    + pose proof (reads_route r k rest Hok Hk Ha) as Hr. unfold route_kinds in Hr |- *. rewrite <-app_comm_cons in Hr |- *.
      apply reads_loose_peek. rewrite decide_True by done. eapply reads_loose_bind.
      { eapply (reads_tight _ _ _ (eq (k :: rest))); [exact Hr|done]. }
      intros x Hx. apply reads_loose_ret; [cbn; by rewrite Hx|]. intros ks <-. by left.
    + rewrite <-app_comm_cons. apply reads_loose_peek. destruct Hok as [Hkw Hbody]. rewrite decide_False by done.
      destruct (args_tail_head args true body k rest) as (k' & r' & Er).
      assert (((args ≫= arg_kinds) ++ LBrace :: Sep :: concat (map (fun s => stmt_kinds s ++ [Sep]) body) ++ [RBrace]) ++ Sep :: k :: rest
        = k' :: r') as Er' by (rewrite <-Er, <-!app_assoc; cbn [app]; by rewrite <-!app_assoc).
      rewrite Er'. apply reads_loose_bump. intros t Ht. rewrite <-Er. intros p Hp.
      destruct (reads_stmt_tail n kw t args body true k rest Hkw Hk Ha) with (p := p) as (x & p' & E & Hp' & Hx); [|done|done|].
      { intros _ ender later He. apply IHl; [change (psize (PBlock kw args body)) with (S (S (psizes body))) in Hn; lia|done|done]. }
      exists x, p'. split; [exact E|]. split; [by right|done].
Qed.
End Complete.

(** Induction on statements and their bodies. *)
Lemma PStmt_nested (P : PStmt -> Prop) :
  (forall kw args, P (PDirective kw args)) -> (forall r, P (PRouteStmt r)) ->
  (forall kw args body, Forall P body -> P (PBlock kw args body)) -> forall s, P s.
Proof.
  intros Hd Hr Hb. fix IH 1. intros [kw args|r|kw args body]; [apply Hd|apply Hr|apply Hb].
  induction body as [|s body IHb]; constructor; [apply IH|exact IHb].
Qed.

Lemma psize_kinds s : psize s <= 2 * length (stmt_kinds s).
Proof.
  induction s as [kw args|r|kw args body IH] using PStmt_nested; cbn [psize stmt_kinds length]; [lia|unfold route_kinds; cbn; lia|].
  rewrite length_app. cbn [length]. rewrite length_app. cbn [length].
  assert (fold_right (fun s n => S (psize s) + n) 1 body <= 1 + 2 * length (concat (map (fun s => stmt_kinds s ++ [Sep]) body))) as Hb.
  { induction IH as [|s body Hs _ IHb]; [cbn; lia|]. cbn [fold_right map concat]. rewrite !length_app. cbn [length]. lia. }
  lia.
Qed.

Lemma psizes_kinds l : psizes l <= 1 + 2 * length (stmts_kinds l).
Proof.
  induction l as [|s l IH]; [cbn; lia|]. cbn [psizes fold_right stmts_kinds map concat]. rewrite !length_app. cbn [length].
  pose proof (psize_kinds s). unfold psizes, stmts_kinds in IH. lia.
Qed.

(** Tokens whose kinds are those of a document parse to that document. *)
Lemma parse_kinds debug_value (tokens : list Token) (l : list PStmt) :
  loose (stmts_kinds l ++ [Eof]) (tok_kind <$> tokens) -> stmts_ok l ->
  exists ast, parse debug_value tokens = Ok ast /\ map erase_stmt (stmts ast) = map (stmt_tree debug_value) l.
Proof.
  intros Hk Hok.
  assert (Hlen : length (stmts_kinds l) <= length tokens).
  { rewrite <-(length_fmap tok_kind tokens). destruct Hk as [->| ->]; cbn [length]; rewrite length_app; lia. }
  destruct (proj1 (reads_stmts debug_value tokens (fuel tokens)) l false [Eof] [Eof]) with (p := 0) as (x & p' & E & _ & Hx).
  - pose proof (psizes_kinds l). unfold fuel. lia.
  - done.
  - done.
  - rewrite drop_0. done.
  - exists (mk_ast x). split; [|exact Hx]. unfold parse, parse_document, mbind, parser_bind. by rewrite E.
Qed.

(** ** Spelling the tokens *)

(** An atom as it can be written between white space and punctuation. *)
Definition atom_ok (s : string) : Prop :=
  Forall (fun b => atom_stop b = false /\ b <> "~"%char) (bytes_of s)
  /\ match bytes_of s with b :: _ => is_cont b = false /\ b <> "$"%char | [] => False end.

(** What follows an atom. *)
Definition stops (bs : list ascii) : Prop := match bs with b :: _ => atom_stop b = true | [] => False end.
Definition after_break (bs : list ascii) : Prop :=
  match bs with b :: _ => is_sep_byte b = false /\ is_horizontal b = false /\ b <> "#"%char | [] => True end.

(** [spelled bs ks]: the bytes [bs] spell the kinds [ks]. *)
Inductive spelled : list ascii -> list TokenKind -> Prop :=
| spelled_end : spelled [] [Eof]
| spelled_space b bs ks : is_horizontal b = true -> spelled bs ks -> spelled (b :: bs) ks
| spelled_comment body bs ks :
    Forall (fun b => b <> newline) body -> spelled (newline :: bs) ks -> spelled ("#"%char :: body ++ newline :: bs) ks
| spelled_mark b k bs ks : single b = Some k -> spelled bs ks -> spelled (b :: bs) (k :: ks)
| spelled_arrow bs ks : spelled bs ks -> spelled ("~"%char :: ">"%char :: bs) (Arrow :: ks)
| spelled_atom s bs ks : atom_ok s -> stops bs -> spelled bs ks -> spelled (bytes_of s ++ bs) (TAtom s :: ks)
| spelled_text s bs ks : utf8_valid s = true -> spelled bs ks -> spelled (bytes_of (quote s) ++ bs) (TStr s :: ks)
| spelled_break b run bs ks :
    is_sep_byte b = true -> Forall (fun b => is_sep_byte b || is_horizontal b = true) run -> after_break bs ->
    spelled bs ks -> spelled (b :: run ++ bs) (Sep :: ks).

Section Lexing.
Variable text : string.
Abbreviation B := (bytes_of text).

(** One round of [run], once white space is skipped. *)
Definition after_skip (n : nat) (st : LexState) : exec Diagnostic (list Token) :=
  match n with
  | O => OutOfFuel
  | S n =>
    match peek text st with
    | None => Ok [mk_token Eof (here st 0)]
    | Some b =>
      if is_sep_byte b then
        st' ← consume_separator_run text (loop_fuel text) st;
        rest ← run text n st';
        Ok (mk_token Sep (span_from (pos st) (lex_line st) (lex_col st) st') :: rest)
      else
        '(t, st') ← next_token text st;
        rest ← run text n st';
        Ok (t :: rest)
    end
  end.

(** The lexer at a position: what it skips, and the tokens it finds. *)
Definition lexes (bs : list ascii) (ks : list TokenKind) : Prop :=
  forall pre st n, B = pre ++ bs -> pos st = length pre -> length bs < n ->
    exists st1 toks, (forall m, length bs < m -> skip_horizontal text m st = Ok st1)
      /\ after_skip n st1 = Ok toks /\ tok_kind <$> toks = ks.

Lemma lexes_run bs ks pre st n :
  lexes bs ks -> B = pre ++ bs -> pos st = length pre -> length bs < n ->
  exists toks, run text n st = Ok toks /\ tok_kind <$> toks = ks.
Proof.
  intros H HB Hp Hn. destruct (H pre st n HB Hp Hn) as (st1 & toks & Hskip & E & Hk). exists toks. split; [|done].
  destruct n as [|n]; [lia|]. cbn [run]. rewrite Hskip; [exact E|]. unfold loop_fuel. rewrite HB, length_app. lia.
Qed.

Lemma peek_here pre bs st : B = pre ++ bs -> pos st = length pre -> peek text st = head bs.
Proof. intros HB Hp. unfold peek. rewrite Hp, HB, lookup_app_r, Nat.sub_diag by lia. by destruct bs. Qed.

Lemma peek2_here pre b bs st : B = pre ++ b :: bs -> pos st = length pre -> peek2 text st = head bs.
Proof.
  intros HB Hp. unfold peek2. rewrite Hp, HB, lookup_app_r by lia. replace (S (length pre) - length pre) with 1 by lia.
  by destruct bs.
Qed.

Lemma here_step pre b bs : B = pre ++ b :: bs -> B = (pre ++ [b]) ++ bs.
Proof. intros ->. by rewrite <-app_assoc. Qed.

Lemma pos_step pre st b : pos st = length pre -> pos (advance st b) = length (pre ++ [b]).
Proof. intros Hp. rewrite pos_advance, length_app, Hp. cbn. lia. Qed.

(** A token that starts where the lexer is. *)
Lemma lexes_token b src k bs ks :
  is_sep_byte b = false -> is_horizontal b = false -> Ascii.eqb b "#" = false -> lexes bs ks ->
  (forall pre st, B = pre ++ (b :: src) ++ bs -> pos st = length pre ->
     exists t st', next_token text st = Ok (t, st') /\ tok_kind t = k /\ pos st' = length pre + length (b :: src)) ->
  lexes ((b :: src) ++ bs) (k :: ks).
Proof.
  intros Hs Hh Hc Hrest Htok pre st n HB Hp Hn. rewrite length_app in Hn.
  assert (Hpk : peek text st = Some b) by by rewrite (peek_here _ _ _ HB Hp).
  destruct n as [|n]; [lia|]. destruct (Htok pre st HB Hp) as (t & st' & Et & Hk & Hp').
  destruct (lexes_run bs ks (pre ++ b :: src) st' n Hrest) as (toks & E & Hks).
  - by rewrite HB, <-app_assoc.
  - by rewrite Hp', length_app.
  - cbn [length] in Hn. lia.
  - exists st, (t :: toks). split_and!.
    + intros m Hm. destruct m as [|m]; [lia|]. cbn [skip_horizontal]. by rewrite Hpk, Hh, Hc.
    + cbn [after_skip]. rewrite Hpk, Hs, Et. cbn [mbind exec_bind]. by rewrite E.
    + cbn. by rewrite Hk, Hks.
Qed.

Lemma lex_atom_loop_exact n pre mid bs st :
  B = pre ++ mid ++ bs -> pos st = length pre -> stops bs ->
  Forall (fun b => atom_stop b = false /\ b <> "~"%char) mid -> length mid < n ->
  exists st', lex_atom_loop text n st = Ok st' /\ pos st' = length pre + length mid.
Proof.
  intros HB Hp Hstop Hm. revert n pre st HB Hp. induction Hm as [|b mid [Hb Ht] _ IH]; intros n pre st HB Hp Hn;
    (destruct n as [|n]; [simpl in Hn; lia|]); cbn [lex_atom_loop].
  - rewrite (peek_here _ _ _ HB Hp). cbn [app]. destruct bs as [|b bs]; [done|]. cbn [head]. cbn in Hstop. rewrite Hstop. cbn [orb].
    exists st. split; [done|]. simpl. lia.
  - assert (Hpk : peek text st = Some b) by by rewrite (peek_here _ _ _ HB Hp).
    rewrite Hpk, Hb. cbn [orb]. rewrite (proj2 (Ascii.eqb_neq _ _) Ht), (bump_Some _ _ _ Hpk). cbn [andb mbind exec_bind].
    destruct (IH n (pre ++ [b]) (advance st b)) as (st' & E & Hp').
    + by rewrite HB, <-app_assoc.
    + by apply pos_step.
    + simpl in Hn. lia.
    + exists st'. split; [exact E|]. rewrite Hp', length_app. simpl. lia.
Qed.

Lemma consume_run_exact n pre run bs st :
  B = pre ++ run ++ bs -> pos st = length pre -> after_break bs ->
  Forall (fun b => is_sep_byte b || is_horizontal b = true) run -> length run < n ->
  exists st', consume_separator_run text n st = Ok st' /\ pos st' = length pre + length run.
Proof.
  intros HB Hp Hstop Hm. revert n pre st HB Hp. induction Hm as [|b run Hb _ IH]; intros n pre st HB Hp Hn;
    (destruct n as [|n]; [simpl in Hn; lia|]); cbn [consume_separator_run].
  - rewrite (peek_here _ _ _ HB Hp). exists st. cbn [app length]. rewrite Nat.add_0_r. split; [|done].
    destruct bs as [|b bs]; [done|]. cbn [head]. destruct Hstop as (-> & -> & Hh). cbn [orb].
    by rewrite (proj2 (Ascii.eqb_neq _ _) Hh).
  - assert (Hpk : peek text st = Some b) by by rewrite (peek_here _ _ _ HB Hp).
    rewrite Hpk, Hb, (bump_Some _ _ _ Hpk). cbn [mbind exec_bind].
    destruct (IH n (pre ++ [b]) (advance st b)) as (st' & E & Hp').
    + by rewrite HB, <-app_assoc.
    + by apply pos_step.
    + simpl in Hn. lia.
    + exists st'. split; [exact E|]. rewrite Hp', length_app. simpl. lia.
Qed.

Lemma skip_comment_exact n pre body bs st :
  B = pre ++ body ++ newline :: bs -> pos st = length pre ->
  Forall (fun b => b <> newline) body -> length body < n ->
  exists st', skip_comment text n st = Ok st' /\ pos st' = length pre + length body.
Proof.
  intros HB Hp Hm. revert n pre st HB Hp. induction Hm as [|b body Hb _ IH]; intros n pre st HB Hp Hn;
    (destruct n as [|n]; [simpl in Hn; lia|]); cbn [skip_comment]; rewrite (peek_here _ _ _ HB Hp); cbn [app head].
  - exists st. split; [done|]. simpl. lia.
  - rewrite (proj2 (Ascii.eqb_neq _ _) Hb).
    assert (Hpk : peek text st = Some b) by by rewrite (peek_here _ _ _ HB Hp).
    rewrite (bump_Some _ _ _ Hpk). cbn [mbind exec_bind].
    destruct (IH n (pre ++ [b]) (advance st b)) as (st' & E & Hp').
    + by rewrite HB, <-app_assoc.
    + by apply pos_step.
    + simpl in Hn. lia.
    + exists st'. split; [exact E|]. rewrite Hp', length_app. simpl. lia.
Qed.

Lemma single_stop b k : single b = Some k -> is_sep_byte b = false /\ is_horizontal b = false /\ Ascii.eqb b "#" = false.
Proof. by destruct b as [[] [] [] [] [] [] [] []]. Qed.

Lemma atom_byte_facts b :
  atom_stop b = false ->
  is_sep_byte b = false /\ is_horizontal b = false /\ Ascii.eqb b "#" = false /\ single b = None /\ Ascii.eqb b dquote = false.
Proof. by destruct b as [[] [] [] [] [] [] [] []]. Qed.

Lemma lexes_mark b k bs ks : single b = Some k -> lexes bs ks -> lexes (b :: bs) (k :: ks).
Proof.
  intros Hk H. destruct (single_stop b k Hk) as (? & ? & ?). apply (lexes_token b [] k bs ks); [done..|].
  intros pre st HB Hp. assert (Hpk : peek text st = Some b) by by rewrite (peek_here _ _ _ HB Hp).
  unfold next_token. rewrite Hpk, Hk, (bump_Some _ _ _ Hpk). cbn [mbind exec_bind]. eexists _, _. split; [done|].
  split; [done|]. rewrite pos_advance. cbn. lia.
Qed.

Lemma lexes_arrow bs ks : lexes bs ks -> lexes ("~"%char :: ">"%char :: bs) (Arrow :: ks).
Proof.
  intros H. apply (lexes_token "~" [">"%char] Arrow bs ks); [done..|].
  intros pre st HB Hp. assert (Hpk : peek text st = Some "~"%char) by by rewrite (peek_here _ _ _ HB Hp).
  assert (Hpk2 : peek text (advance st "~") = Some ">"%char).
  { by rewrite (peek_here _ _ _ (here_step _ _ _ HB) (pos_step _ _ _ Hp)). }
  unfold next_token. rewrite Hpk, (peek2_here _ _ _ _ HB Hp). cbn [single app head].
  rewrite (bump_Some _ _ _ Hpk). cbn [mbind exec_bind Ascii.eqb]. rewrite bool_decide_true by done. cbn [andb].
  rewrite (bump_Some _ _ _ Hpk2). eexists _, _. split; [reflexivity|]. split; [done|]. rewrite !pos_advance. cbn. lia.
Qed.

Lemma lexes_atom s bs ks : atom_ok s -> stops bs -> lexes bs ks -> lexes (bytes_of s ++ bs) (TAtom s :: ks).
Proof.
  intros [Hall Hfirst] Hstop H. destruct (bytes_of s) as [|b src] eqn:Es; [done|]. destruct Hfirst as [Hcont Hd].
  pose proof (Forall_inv Hall) as [Hb Ht]. destruct (atom_byte_facts b Hb) as (? & ? & ? & Hsingle & Hq).
  apply lexes_token; [done..|]. intros pre st HB Hp.
  assert (Hpk : peek text st = Some b) by by rewrite (peek_here _ _ _ HB Hp).
  unfold next_token. rewrite Hpk, Hsingle, (proj2 (Ascii.eqb_neq _ _) Ht), Hq, (proj2 (Ascii.eqb_neq _ _) Hd). cbn [andb].
  unfold lex_atom. destruct (lex_atom_loop_exact (loop_fuel text) pre (b :: src) bs st HB Hp Hstop Hall) as (st' & -> & Hp').
  { unfold loop_fuel. rewrite HB, !length_app. lia. }
  cbn [mbind exec_bind]. destruct bs as [|d tl]; [done|]. rewrite Hp, Hp'.
  rewrite (slice_exact text pre (b :: src) d tl HB); [|by apply atom_stop_not_cont|done].
  cbn [mbind exec_bind]. eexists _, _. split; [reflexivity|]. split; [|done]. cbn [tok_kind]. f_equal.
  by rewrite <-Es, str_of_bytes.
Qed.

Lemma lexes_text s bs ks : utf8_valid s = true -> lexes bs ks -> lexes (bytes_of (quote s) ++ bs) (TStr s :: ks).
Proof.
  intros Hs H. apply bool_decide_eq_true in Hs as Es. unfold quote. rewrite bytes_of_str.
  apply (lexes_token dquote (escape_literal (chars s) ++ [dquote])); [done..|]. intros pre st HB Hp.
  assert (Hpk : peek text st = Some dquote) by by rewrite (peek_here _ _ _ HB Hp).
  unfold next_token. rewrite Hpk. unfold lex_string. rewrite (bump_Some _ _ _ Hpk).
  destruct (lex_string_loop_quote text (pos st) (lex_line st) (lex_col st) (loop_fuel text) "" (chars s) (pre ++ [dquote]) bs
    (advance st dquote)) as (st' & E & Hp').
  - apply utf8_decode_scalar.
  - rewrite HB. cbn [app]. by rewrite <-!app_assoc.
  - by apply pos_step.
  - unfold loop_fuel. lia.
  - cbn [single mbind exec_bind]. change (Ascii.eqb dquote "~") with false. change (Ascii.eqb dquote dquote) with true. cbn [andb].
    rewrite E. eexists _, _. split; [reflexivity|]. split; [cbn [tok_kind]; by rewrite append_nil_l, Es|].
    rewrite Hp'. cbn [length]. rewrite !length_app. cbn [length]. lia.
Qed.

Lemma lexes_break b run bs ks :
  is_sep_byte b = true -> Forall (fun b => is_sep_byte b || is_horizontal b = true) run -> after_break bs ->
  lexes bs ks -> lexes (b :: run ++ bs) (Sep :: ks).
Proof.
  intros Hb Hrun Hafter H pre st n HB Hp Hn. cbn [length] in Hn. rewrite length_app in Hn.
  assert (Hpk : peek text st = Some b) by by rewrite (peek_here _ _ _ HB Hp).
  destruct (consume_run_exact (loop_fuel text) pre (b :: run) bs st HB Hp Hafter) as (st' & Ec & Hp').
  { constructor; [by rewrite Hb|done]. }
  { unfold loop_fuel. rewrite HB, length_app. cbn [length]. rewrite length_app. lia. }
  destruct n as [|n]; [lia|].
  destruct (lexes_run bs ks (pre ++ b :: run) st' n H) as (toks & E & Hk).
  { by rewrite HB, <-app_assoc. } { by rewrite Hp', length_app. } { lia. }
  exists st. eexists. split; [|split].
  - intros m Hm. destruct m as [|m]; [lia|]. cbn [skip_horizontal]. rewrite Hpk.
    assert (is_horizontal b = false /\ Ascii.eqb b "#" = false) as [-> ->]; [|done].
    unfold is_sep_byte in Hb. apply orb_prop in Hb as [->%Ascii.eqb_eq| ->%Ascii.eqb_eq]; done.
  - cbn [after_skip]. rewrite Hpk, Hb, Ec. cbn [mbind exec_bind]. rewrite E. reflexivity.
  - cbn. by rewrite Hk.
Qed.

Lemma spelled_lexes bs ks : spelled bs ks -> lexes bs ks.
Proof.
  induction 1 as [|b bs ks Hb _ IH|body bs ks Hbody _ IH|b k bs ks Hk _ IH|bs ks _ IH|s bs ks Hs Hstop _ IH|s bs ks Hs _ IH
    |b run bs ks Hb Hrun Hafter _ IH];
    [| | |by apply lexes_mark|by apply lexes_arrow|by apply lexes_atom|by apply lexes_text|by apply lexes_break].
  - intros pre st n HB Hp Hn. exists st. eexists. assert (Hpk : peek text st = None) by by rewrite (peek_here _ _ _ HB Hp).
    destruct n as [|n]; [cbn in Hn; lia|]. split; [|split].
    + intros [|m] Hm; [cbn in Hm; lia|]. cbn [skip_horizontal]. by rewrite Hpk.
    + cbn [after_skip]. by rewrite Hpk.
    + done.
  - intros pre st n HB Hp Hn. cbn [length] in Hn. assert (Hpk : peek text st = Some b) by by rewrite (peek_here _ _ _ HB Hp).
    destruct (IH (pre ++ [b]) (advance st b) n) as (st1 & toks & Hskip & E & Hk).
    { by apply here_step. } { by apply pos_step. } { lia. }
    exists st1, toks. split; [|done]. intros m Hm. destruct m as [|m]; [lia|]. cbn [skip_horizontal].
    rewrite Hpk, Hb, (bump_Some _ _ _ Hpk). cbn [mbind exec_bind]. apply Hskip. cbn in Hm. lia.
  - intros pre st n HB Hp Hn. assert (Hpk : peek text st = Some "#"%char) by by rewrite (peek_here _ _ _ HB Hp).
    destruct (skip_comment_exact (loop_fuel text) pre ("#"%char :: body) bs st) as (st' & Ec & Hp'); [done|done|by constructor| |].
    { unfold loop_fuel. rewrite HB, length_app. cbn [length]. rewrite length_app. lia. }
    cbn [length] in Hn. rewrite length_app in Hn.
    destruct (IH (pre ++ "#"%char :: body) st' n) as (st1 & toks & Hskip & E & Hk).
    { by rewrite HB, <-app_assoc. } { by rewrite Hp', length_app. } { lia. }
    exists st1, toks. split; [|done]. intros m Hm. destruct m as [|m]; [lia|]. cbn [skip_horizontal]. rewrite Hpk.
    change (is_horizontal "#") with false. change (Ascii.eqb "#" "#") with true. cbn iota. rewrite Ec. cbn [mbind exec_bind].
    apply Hskip. cbn [length] in Hm |- *. rewrite length_app in Hm. cbn [length] in Hm. lia.
Qed.
End Lexing.

(** Lexing a text that spells kinds gives tokens of these kinds. *)
Lemma lex_spelled text ks : spelled (bytes_of text) ks -> exists toks, lex text = Ok toks /\ tok_kind <$> toks = ks.
Proof.
  intros H. unfold lex. apply (lexes_run text (bytes_of text) ks [] lexer_new); [by apply spelled_lexes|done|done|].
  unfold loop_fuel. lia.
Qed.

(** ** Printing documents

    The layout of the generated texts: a comment, then statements at the margin
    with an optional blank line before each, blocks indented by two spaces. *)
Definition print_value (v : PVal) : string := match v with PAtom raw => raw | PText s => quote s end.
Definition print_arg (a : PArg) : string :=
  match parg_name a with Some n => n +:+ "=" +:+ print_value (parg_value a) | None => print_value (parg_value a) end.
Fixpoint print_args (args : list PArg) : string :=
  match args with [] => "" | a :: args => " " +:+ print_arg a +:+ print_args args end.
Definition print_predicate (p : string * string) : string := p.1 +:+ "=" +:+ p.2.
Definition print_matcher (r : PRoute) : string :=
  match pr_kind r with MatchKind.Prefix => "" | MatchKind.Exact => "= " | MatchKind.Regex => "~ " end +:+ pr_pattern r
  +:+ match pr_predicates r with [] => "" | ps => " [" +:+ join ", " (print_predicate <$> ps) +:+ "]" end.
Definition print_route (r : PRoute) : string :=
  "route " +:+ print_matcher r +:+ " ~> " +:+ pr_handler r +:+ "(" +:+ join ", " (print_arg <$> pr_args r) +:+ ")".

(** A statement without the indentation of its first line; [sconcat] is
    concatenation. *)
Fixpoint sconcat (l : list string) : string := match l with [] => "" | s :: l => s +:+ sconcat l end.
Fixpoint print_core (indent : string) (s : PStmt) : string :=
  match s with
  | PDirective kw args => kw +:+ print_args args
  | PRouteStmt r => print_route r
  | PBlock kw args body =>
    kw +:+ print_args args +:+ " {" +:+ nl
    +:+ sconcat (map (fun s => (indent +:+ "  ") +:+ print_core (indent +:+ "  ") s +:+ nl) body) +:+ indent +:+ "}"
  end.
Definition print_stmts (lead indent : string) (l : list PStmt) : string :=
  sconcat (map (fun s => lead +:+ print_core indent s +:+ nl) l).
Definition print_doc (header gap : string) (l : list PStmt) : string := header +:+ nl +:+ print_stmts gap "" l.

(** Appending: literals become constructors, the rest is right-nested. *)
Ltac append_norm := repeat rewrite ?append_cons, ?append_nil_l, ?append_nil_r, <-?append_assoc.

Lemma fold_text {A} (f : A -> string) c l : foldl (fun out a => out +:+ f a) c l = c +:+ sconcat (map f l).
Proof.
  revert c. induction l as [|a l IH]; intros c; cbn [foldl map sconcat]; [by append_norm|]. rewrite IH. by append_norm.
Qed.

Lemma sconcat_app l l' : sconcat (l ++ l') = sconcat l +:+ sconcat l'.
Proof. induction l as [|x l IH]; cbn [sconcat app]; [by append_norm|]. rewrite IH. by append_norm. Qed.

(** What can be printed. *)
Definition value_ok (v : PVal) : Prop := match v with PAtom raw => atom_ok raw | PText s => utf8_valid s = true end.
Definition arg_ok (a : PArg) : Prop :=
  match parg_name a with Some n => atom_ok n | None => True end /\ value_ok (parg_value a).
Definition route_printable (r : PRoute) : Prop :=
  pr_kind r <> MatchKind.Regex /\ atom_ok (pr_pattern r) /\ Forall (fun p => atom_ok p.1 /\ atom_ok p.2) (pr_predicates r)
  /\ atom_ok (pr_handler r) /\ Forall arg_ok (pr_args r).
Fixpoint printable (s : PStmt) : Prop :=
  match s with
  | PDirective kw args => atom_ok kw /\ kw <> "route" /\ Forall arg_ok args
  | PRouteStmt r => route_printable r
  | PBlock kw args body =>
    atom_ok kw /\ kw <> "route" /\ Forall arg_ok args /\ fold_right (fun s P => printable s /\ P) True body
  end.
Definition all_printable (l : list PStmt) : Prop := fold_right (fun s P => printable s /\ P) True l.

Lemma all_printable_app l l' : all_printable (l ++ l') <-> all_printable l /\ all_printable l'.
Proof. unfold all_printable. induction l as [|s l IH]; cbn; [naive_solver|]. rewrite IH. naive_solver. Qed.

Lemma all_printable_forall l : (forall s, s ∈ l -> printable s) -> all_printable l.
Proof.
  unfold all_printable. induction l as [|s l IH]; intros H; [done|]. cbn. split; [apply H; by left|]. apply IH. intros. apply H. by right.
Qed.

Lemma bytes_nl : bytes_of nl = [newline].
Proof. done. Qed.

Lemma value_spelled v bs ks :
  value_ok v -> stops bs -> spelled bs ks -> spelled (bytes_of (print_value v) ++ bs) (value_kind v :: ks).
Proof. destruct v; cbn; [by constructor|intros; by constructor]. Qed.

Lemma arg_spelled a bs ks :
  arg_ok a -> stops bs -> spelled bs ks -> spelled (bytes_of (print_arg a) ++ bs) (arg_kinds a ++ ks).
Proof.
  intros [Hn Hv] Hs H. unfold print_arg, arg_kinds. destruct (parg_name a) as [n|]; cbn [app].
  - rewrite !bytes_of_app, <-!app_assoc. apply spelled_atom; [done|done|]. cbn [bytes_of list_ascii_of_string app].
    by apply spelled_mark, value_spelled.
  - by apply value_spelled.
Qed.

Lemma args_spelled args bs ks :
  Forall arg_ok args -> stops bs -> spelled bs ks -> spelled (bytes_of (print_args args) ++ bs) ((args ≫= arg_kinds) ++ ks)
  /\ stops (bytes_of (print_args args) ++ bs).
Proof.
  intros Ha Hs H. induction Ha as [|a args Ha _ [IH IHs]]; [by split|]. cbn [print_args mbind list_bind].
  rewrite !bytes_of_app, <-!app_assoc. cbn [bytes_of list_ascii_of_string app]. split; [|done].
  apply spelled_space; [done|]. by apply arg_spelled.
Qed.

Lemma join_spelled {A} (print : A -> string) (f : A -> list TokenKind) (ok : A -> Prop) l bs ks :
  (forall a bs ks, ok a -> stops bs -> spelled bs ks -> spelled (bytes_of (print a) ++ bs) (f a ++ ks)) ->
  Forall ok l -> stops bs -> spelled bs ks ->
  spelled (bytes_of (join ", " (print <$> l)) ++ bs) (comma_kinds f l ++ ks).
Proof.
  intros Hp Hl Hs H. induction Hl as [|a l Ha Hl IH]; [done|]. destruct l as [|b l].
  - cbn. by apply Hp.
  - change (join ", " (print <$> a :: b :: l)) with (print a +:+ ", " +:+ join ", " (print <$> b :: l)).
    change (comma_kinds f (a :: b :: l)) with (f a ++ Comma :: comma_kinds f (b :: l)).
    rewrite !bytes_of_app, <-!app_assoc. apply Hp; [done|done|]. cbn [bytes_of list_ascii_of_string app].
    apply spelled_mark; [done|]. by apply spelled_space.
Qed.

Lemma predicate_spelled p bs ks :
  atom_ok p.1 /\ atom_ok p.2 -> stops bs -> spelled bs ks ->
  spelled (bytes_of (print_predicate p) ++ bs) (predicate_kinds p ++ ks).
Proof.
  intros [H1 H2] Hs H. unfold print_predicate. rewrite !bytes_of_app, <-!app_assoc. cbn [predicate_kinds app].
  apply spelled_atom; [done|done|]. apply spelled_mark; [done|]. by apply spelled_atom.
Qed.

Lemma route_spelled r bs ks :
  route_printable r -> stops bs -> spelled bs ks -> spelled (bytes_of (print_route r) ++ bs) (route_kinds r ++ ks).
Proof.
  intros (Hkind & Hpat & Hps & Hh & Hargs) Hs H. unfold print_route, route_kinds, print_matcher, matcher_kinds.
  assert (Hroute : atom_ok "route") by (split; [repeat (constructor; [done|]); constructor|done]).
  set (tail := " ~> " +:+ pr_handler r +:+ "(" +:+ join ", " (print_arg <$> pr_args r) +:+ ")").
  assert (Htail : spelled (bytes_of tail ++ bs)
    (Arrow :: TAtom (pr_handler r) :: LParen :: comma_kinds arg_kinds (pr_args r) ++ RParen :: ks)).
  { subst tail. rewrite !bytes_of_app, <-!app_assoc. cbn [bytes_of list_ascii_of_string app].
    apply spelled_space; [done|]. apply spelled_arrow, spelled_space; [done|]. apply spelled_atom; [done|done|].
    apply spelled_mark; [done|]. apply (join_spelled print_arg arg_kinds arg_ok); [by apply arg_spelled|done|done|].
    by apply spelled_mark. }
  assert (Hmatch : spelled
    (bytes_of (pr_pattern r +:+ match pr_predicates r with [] => "" | ps => " [" +:+ join ", " (print_predicate <$> ps) +:+ "]" end)
       ++ bytes_of tail ++ bs)
    (TAtom (pr_pattern r) :: match pr_predicates r with [] => [] | ps => LBracket :: comma_kinds predicate_kinds ps ++ [RBracket] end
       ++ Arrow :: TAtom (pr_handler r) :: LParen :: comma_kinds arg_kinds (pr_args r) ++ RParen :: ks)).
  { rewrite bytes_of_app, <-app_assoc. apply spelled_atom; [done|by destruct (pr_predicates r)|].
    destruct (pr_predicates r) as [|p ps]; [exact Htail|]. rewrite !bytes_of_app, <-!app_assoc.
    cbn [bytes_of list_ascii_of_string app]. apply spelled_space; [done|]. apply spelled_mark; [done|]. rewrite <-app_assoc.
    apply (join_spelled print_predicate predicate_kinds (fun p => atom_ok p.1 /\ atom_ok p.2));
      [by apply predicate_spelled|done|done|]. by apply spelled_mark. }
  assert (Hall : spelled (bytes_of (match pr_kind r with MatchKind.Prefix => "" | MatchKind.Exact => "= " | MatchKind.Regex => "~ " end)
      ++ bytes_of (pr_pattern r +:+ match pr_predicates r with [] => "" | ps => " [" +:+ join ", " (print_predicate <$> ps) +:+ "]" end)
      ++ bytes_of tail ++ bs)
    (match pr_kind r with MatchKind.Prefix => [] | MatchKind.Exact => [Equals] | MatchKind.Regex => [TAtom "~"] end
      ++ TAtom (pr_pattern r) :: match pr_predicates r with [] => [] | ps => LBracket :: comma_kinds predicate_kinds ps ++ [RBracket] end
      ++ Arrow :: TAtom (pr_handler r) :: LParen :: comma_kinds arg_kinds (pr_args r) ++ RParen :: ks)).
  { destruct (pr_kind r) eqn:Ek; [exact Hmatch| |by destruct Hkind].
    cbn [bytes_of list_ascii_of_string app]. apply spelled_mark; [done|]. by apply spelled_space. }
  clear Hmatch Htail. rewrite bytes_of_app, <-app_assoc. cbn [app]. apply (spelled_atom "route"); [done|done|].
  apply spelled_space; [done|]. rewrite !bytes_of_app, <-!app_assoc in Hall |- *. cbn [app] in Hall |- *.
  rewrite <-!app_assoc. cbn [app]. rewrite !bytes_of_app, <-!app_assoc. exact Hall.
Qed.

Lemma atom_head s bs : atom_ok s -> after_break (bytes_of s ++ bs).
Proof.
  intros [Hall Hfirst]. destruct (bytes_of s) as [|b src]; [done|]. pose proof (Forall_inv Hall) as [Hb _].
  destruct (atom_byte_facts b Hb) as (? & ? & ?%Ascii.eqb_neq & _). done.
Qed.

Lemma core_head indent s bs : printable s -> after_break (bytes_of (print_core indent s) ++ bs).
Proof.
  destruct s as [kw args|r|kw args body]; cbn [printable print_core].
  - intros [Hkw _]. rewrite bytes_of_app, <-app_assoc. by apply atom_head.
  - intros _. by cbn.
  - intros [Hkw _]. rewrite bytes_of_app, <-app_assoc. by apply atom_head.
Qed.

Definition blank (s : string) : Prop := Forall (fun b => is_sep_byte b || is_horizontal b = true) (bytes_of s).

(** Statements that follow a line break, each spelled by [spells]. *)
Lemma stmts_spelled lead indent l E ks :
  blank lead -> all_printable l ->
  Forall (fun s => forall tail ks, printable s -> spelled (newline :: tail) (Sep :: ks) ->
    spelled (bytes_of (print_core indent s) ++ newline :: tail) (stmt_kinds s ++ Sep :: ks)) l ->
  spelled (newline :: E) (Sep :: ks) ->
  spelled (newline :: bytes_of (print_stmts lead indent l) ++ E) (Sep :: stmts_kinds l ++ ks).
Proof.
  intros Hlead Hp Hl HE. induction Hl as [|s l Hs _ IH]; [done|]. destruct Hp as [Hps Hp].
  unfold print_stmts. cbn [map sconcat stmts_kinds concat]. fold (print_stmts lead indent l).
  change (concat (map (fun s => stmt_kinds s ++ [Sep]) l)) with (stmts_kinds l).
  rewrite !bytes_of_app, bytes_nl, <-!app_assoc. cbn [app].
  apply spelled_break; [done|done|by apply core_head|]. apply Hs; [done|]. by apply IH.
Qed.

Lemma core_spelled s : forall indent tail ks,
  blank indent -> printable s -> spelled (newline :: tail) (Sep :: ks) ->
  spelled (bytes_of (print_core indent s) ++ newline :: tail) (stmt_kinds s ++ Sep :: ks).
Proof.
  induction s as [kw args|r|kw args body IH] using PStmt_nested; intros indent tail ks Hind Hp H.
  - destruct Hp as (Hkw & _ & Hargs). cbn [print_core stmt_kinds]. rewrite bytes_of_app, <-app_assoc, <-app_comm_cons.
    destruct (args_spelled args (newline :: tail) (Sep :: ks) Hargs) as [Ha Hst]; [done|done|]. by apply spelled_atom.
  - cbn [print_core stmt_kinds]. by apply route_spelled.
  - destruct Hp as (Hkw & _ & Hargs & Hbody). cbn [print_core stmt_kinds].
    change (sconcat (map (fun s => (indent +:+ "  ") +:+ print_core (indent +:+ "  ") s +:+ nl) body))
      with (print_stmts (indent +:+ "  ") (indent +:+ "  ") body).
    change (concat (map (fun s => stmt_kinds s ++ [Sep]) body)) with (stmts_kinds body).
    assert (Hind2 : blank (indent +:+ "  ")).
    { unfold blank. rewrite bytes_of_app. apply Forall_app. split; [done|]. repeat constructor. }
    assert (Hclose : spelled (newline :: bytes_of indent ++ bytes_of "}" ++ newline :: tail) (Sep :: RBrace :: Sep :: ks)).
    { apply spelled_break; [done|done|done|]. cbn [bytes_of list_ascii_of_string app]. by apply spelled_mark. }
    pose proof (stmts_spelled _ (indent +:+ "  ") body (bytes_of indent ++ bytes_of "}" ++ newline :: tail) (RBrace :: Sep :: ks)
      Hind2 Hbody) as Hb.
    rewrite !bytes_of_app, bytes_nl, <-!app_assoc, <-app_comm_cons.
    destruct (args_spelled args (bytes_of " {" ++ [newline] ++ bytes_of (print_stmts (indent +:+ "  ") (indent +:+ "  ") body)
      ++ bytes_of indent ++ bytes_of "}" ++ newline :: tail) (LBrace :: Sep :: stmts_kinds body ++ RBrace :: Sep :: ks) Hargs)
      as [Ha Hst]; [done| |].
    + cbn [bytes_of list_ascii_of_string app]. apply spelled_space; [done|]. apply spelled_mark; [done|].
      apply Hb; [|exact Hclose]. eapply Forall_impl; [exact IH|]. intros s Hs tl ks' Hps Htl. by apply Hs.
    + rewrite <-app_comm_cons, <-app_assoc, <-!app_comm_cons, <-app_assoc. by apply spelled_atom.
Qed.

Lemma printable_ok s : printable s -> stmt_ok s.
Proof.
  induction s as [kw args|r|kw args body IH] using PStmt_nested; cbn [printable stmt_ok].
  - naive_solver.
  - intros (_ & [Hall _] & _) _ E. rewrite E in Hall. by apply Forall_inv in Hall as [_ ?].
  - intros (_ & Hkw & _ & Hb). split; [done|]. induction IH as [|s body Hs _ IHb]; [done|].
    destruct Hb as [H1 H2]. split; [by apply Hs|by apply IHb].
Qed.

Lemma doc_spelled c gap l : Forall (fun b => b <> newline) (bytes_of c) -> blank gap -> all_printable l ->
  spelled (bytes_of (print_doc (String "#" c) gap l)) (Sep :: stmts_kinds l ++ [Eof]).
Proof.
  intros Hc Hgap Hl. unfold print_doc. rewrite !bytes_of_app, bytes_nl. cbn [bytes_of list_ascii_of_string app].
  apply spelled_comment; [exact Hc|]. rewrite <-(app_nil_r (bytes_of (print_stmts gap "" l))).
  apply stmts_spelled; [done|done| |].
  - apply Forall_forall. intros s _ tail ks Hp H. apply core_spelled; [constructor|exact Hp|exact H].
  - apply (spelled_break newline []); [done|constructor|done|constructor].
Qed.

(** A text that spells a document parses to it. *)
Lemma spelled_parse debug_value text l :
  spelled (bytes_of text) (Sep :: stmts_kinds l ++ [Eof]) -> all_printable l ->
  exists ast, flow_parse debug_value text = Ok ast /\ map erase_stmt (stmts ast) = map (stmt_tree debug_value) l.
Proof.
  intros Hs Hl. destruct (lex_spelled _ _ Hs) as (toks & E & Hk). unfold flow_parse. rewrite E. cbn [mbind exec_bind].
  apply parse_kinds; [right; exact Hk|]. clear -Hl. induction l as [|s l IH]; [done|]. destruct Hl as [H1 H2].
  split; [by apply printable_ok|by apply IH].
Qed.

(** C34. Generated Flow reads back.  A document printed under a comment is
    accepted by the lexer and the parser, and the syntax tree is the document:
    the same statements, arguments and routes, whatever follows or surrounds
    them. *)
Theorem print_parse debug_value (header gap : string) (l : list PStmt)
    (Hheader : exists c, header = String "#" c /\ Forall (fun b => b <> newline) (bytes_of c))
    (Hgap : blank gap) (Hl : all_printable l) :
  exists ast, flow_parse debug_value (print_doc header gap l) = Ok ast
    /\ map erase_stmt (stmts ast) = map (stmt_tree debug_value) l.
Proof. destruct Hheader as (c & -> & Hc). apply spelled_parse; [|exact Hl]. by apply doc_spelled. Qed.

Lemma print_parse_witness :
  exists ast, flow_parse (fun _ => "") (print_doc "# generated" nl
      [PBlock "site" [mk_parg None (PAtom "app.example.com")]
         [PDirective "tls" [mk_parg None (PAtom "auto")];
          PRouteStmt (mk_proute MatchKind.Prefix "/api/*" [("method", "GET")] "proxy" [mk_parg None (PAtom "@api")]);
          PRouteStmt (mk_proute MatchKind.Exact "/old" [] "redirect"
            [mk_parg (Some "to") (PText "/new"); mk_parg (Some "status") (PAtom "301")])]]) = Ok ast
    /\ length (stmts ast) = 1.
Proof.
  destruct (print_parse (fun _ => "") "# generated" nl
      [PBlock "site" [mk_parg None (PAtom "app.example.com")]
         [PDirective "tls" [mk_parg None (PAtom "auto")];
          PRouteStmt (mk_proute MatchKind.Prefix "/api/*" [("method", "GET")] "proxy" [mk_parg None (PAtom "@api")]);
          PRouteStmt (mk_proute MatchKind.Exact "/old" [] "redirect"
            [mk_parg (Some "to") (PText "/new"); mk_parg (Some "status") (PAtom "301")])]]) as (ast & E & Ht).
  - exists " generated". split; [reflexivity|]. repeat (constructor; [discriminate|]). constructor.
  - repeat constructor.
  - cbn. unfold route_printable, arg_ok, value_ok, atom_ok. cbn.
    repeat first [split|constructor|discriminate|reflexivity].
  - exists ast. split; [exact E|]. apply (f_equal length) in Ht. rewrite !length_map in Ht. exact Ht.
Defined.
