(* ===== verification/BTree.v ===== *)
(** * [std::collections::BTreeMap]

    A map as the list of its entries, strictly ascending in the key.  The order
    is a class, with an instance for every key type the program uses: integers,
    strings (byte-wise) and tuples (lexicographic). *)

From Stdlib Require Import ZArith Ascii String Lia.
From stdpp Require Import base option list strings.
From S2P Require Import Prelude RustStr.
Local Open Scope list_scope.

(** ** Ordered keys *)
Class Ord (K : Type) := ltb : K -> K -> bool.
Class StrictOrd (K : Type) {O : Ord K} : Prop := {
  ltb_irrefl (a : K) : ltb a a = false;
  ltb_trans (a b c : K) : ltb a b = true -> ltb b c = true -> ltb a c = true;
  ltb_total (a b : K) : ltb a b = false -> ltb b a = false -> a = b;
}.

#[export] Instance Z_ord : Ord Z := Z.ltb.
#[export] Instance Z_strict : StrictOrd Z.
Proof. split; unfold ltb, Z_ord; lia. Qed.

#[export] Instance nat_ord : Ord nat := Nat.ltb.
#[export] Instance nat_strict : StrictOrd nat.
Proof.
  split; unfold ltb, nat_ord; [intros a; apply Nat.ltb_irrefl| |].
  - intros a b c. rewrite !Nat.ltb_lt. lia.
  - intros a b. rewrite !Nat.ltb_ge. lia.
Qed.

(** [Ord for str] compares bytes. *)
Fixpoint str_ltb (a b : string) : bool :=
  match a, b with
  | _, ""%string => false
  | ""%string, String _ _ => true
  | String c a', String d b' => (byte_val c <? byte_val d)%Z || ((byte_val c =? byte_val d)%Z && str_ltb a' b')
  end.
#[export] Instance string_ord : Ord string := str_ltb.
#[export] Instance string_strict : StrictOrd string.
Proof.
  split; unfold ltb, string_ord.
  - induction a as [|c a IH]; cbn [str_ltb]; [done|]. by rewrite Z.ltb_irrefl, Z.eqb_refl.
  - induction a as [|x a IH]; intros [|y b] [|z c]; cbn [str_ltb]; try done.
    rewrite !orb_true_iff, !andb_true_iff, !Z.ltb_lt, !Z.eqb_eq. intros [?|[? ?]] [?|[? ?]]; [lia..|].
    right. split; [lia|eauto].
  - induction a as [|x a IH]; intros [|y b]; cbn [str_ltb]; try done.
    rewrite !orb_false_iff, !andb_false_iff, !Z.ltb_ge, !Z.eqb_neq. intros [? Ha] [? Hb].
    assert (byte_val x = byte_val y) as E by lia. f_equal; [by apply byte_val_inj|].
    apply IH; [destruct Ha; [congruence|done]|destruct Hb; [congruence|done]].
Qed.

(** Tuples are compared lexicographically. *)
Section Pair.
Context {A B : Type} {OA : Ord A} {OB : Ord B} {SA : StrictOrd A} {SB : StrictOrd B}.

#[export] Instance pair_ord : Ord (A * B) :=
  fun x y => ltb x.1 y.1 || (negb (ltb y.1 x.1) && ltb x.2 y.2).
Lemma pair_ltb (a a' : A) (b b' : B) : ltb (a, b) (a', b') = ltb a a' || (negb (ltb a' a) && ltb b b').
Proof using Type. done. Qed.
#[export] Instance pair_strict : StrictOrd (A * B).
Proof using SA SB.
  split.
  - intros [a b]. rewrite pair_ltb. by rewrite !ltb_irrefl.
  - intros [a b] [a' b'] [a'' b'']. rewrite !pair_ltb, !orb_true_iff, !andb_true_iff, !negb_true_iff. intros [H|[H1 H2]] [H'|[H1' H2']].
    + left. by eapply ltb_trans.
    + left. destruct (ltb a a'') eqn:E; [done|]. destruct (ltb a'' a) eqn:E'.
      * by rewrite (ltb_trans a'' a a') in H1'.
      * assert (a = a'') as -> by by apply ltb_total. congruence.
    + left. destruct (ltb a a'') eqn:E; [done|]. destruct (ltb a'' a) eqn:E'.
      * by rewrite (ltb_trans a' a'' a) in H1.
      * assert (a = a'') as -> by by apply ltb_total. congruence.
    + destruct (ltb a a'') eqn:E; [by left|]. right. split; [|by eapply ltb_trans].
      destruct (ltb a'' a) eqn:E'; [|done].
      destruct (ltb a a') eqn:E1.
      { by rewrite (ltb_trans a'' a a') in H1'. }
      assert (a = a') as -> by by apply ltb_total. congruence.
  - intros [a b] [a' b']. rewrite !pair_ltb, !orb_false_iff, !andb_false_iff, !negb_false_iff. intros [H1 H2] [H3 H4].
    assert (a = a') as -> by by apply ltb_total. rewrite ltb_irrefl in *. f_equal.
    apply ltb_total; naive_solver.
Qed.
End Pair.

(** ** The map *)
Section BTree.
Context {K V : Type} {O : Ord K} {S : StrictOrd K} {DK : EqDecision K}.
Implicit Types (m : list (K * V)) (k : K) (v : V).

Fixpoint btree_insert k v m : list (K * V) :=
  match m with
  | [] => [(k, v)]
  | (k', v') :: m' =>
    if ltb k k' then (k, v) :: m
    else if ltb k' k then (k', v') :: btree_insert k v m'
    else (k, v) :: m'
  end.

Fixpoint btree_get k m : option V :=
  match m with
  | [] => None
  | (k', v) :: m' => if decide (k = k') then Some v else btree_get k m'
  end.

(** Every key is above [k]. *)
Definition above k m : Prop := Forall (fun e => ltb k e.1 = true) m.
Fixpoint ascending m : Prop := match m with [] => True | (k, _) :: m' => above k m' /\ ascending m' end.

Lemma above_trans k k' m : ltb k k' = true -> above k' m -> above k m.
Proof using S. intros H Hm. eapply Forall_impl; [exact Hm|]. intros e. by apply ltb_trans. Qed.

Lemma above_insert k k' v m : ltb k k' = true -> above k m -> above k (btree_insert k' v m).
Proof using Type.
  intros H. induction m as [|[k0 v0] m IH]; cbn [btree_insert]; intros Hm; [by constructor|].
  apply Forall_cons in Hm as [H0 Hm]. destruct (ltb k' k0); [|destruct (ltb k0 k')].
  - constructor; [done|]. by constructor.
  - constructor; [done|]. by apply IH.
  - by constructor.
Qed.

Lemma ascending_insert k v m : ascending m -> ascending (btree_insert k v m).
Proof using S.
  induction m as [|[k0 v0] m IH]; cbn [btree_insert ascending]; [by repeat constructor|]. intros [H0 Hm].
  destruct (ltb k k0) eqn:E; [|destruct (ltb k0 k) eqn:E']; cbn [ascending].
  - split; [|done]. constructor; [done|]. by eapply above_trans.
  - split; [by apply above_insert|auto].
  - by rewrite (ltb_total k k0).
Qed.

Lemma get_above k m : above k m -> btree_get k m = None.
Proof using S.
  induction m as [|[k0 v0] m IH]; [done|]. intros [H Hm]%Forall_cons. cbn [btree_get fst] in *.
  case_decide; [subst; by rewrite ltb_irrefl in H|auto].
Qed.

Lemma get_insert k k' v m : ascending m -> btree_get k (btree_insert k' v m) = if decide (k = k') then Some v else btree_get k m.
Proof using S.
  induction m as [|[k0 v0] m IH]; cbn [btree_insert btree_get ascending]; [done|]. intros [H0 Hm].
  destruct (ltb k' k0) eqn:E; [done|]. destruct (ltb k0 k') eqn:E'; cbn [btree_get].
  - rewrite IH by done. repeat case_decide; subst; try done. by rewrite ltb_irrefl in E'.
  - rewrite (ltb_total k' k0) by done. by repeat case_decide.
Qed.

(** An ascending list is determined by its lookups. *)
Lemma ascending_ext m m' : ascending m -> ascending m' -> (forall k, btree_get k m = btree_get k m') -> m = m'.
Proof using S.
  revert m'. induction m as [|[k v] m IH]; intros [|[k' v'] m']; cbn [ascending]; [done|..].
  - intros _ _ H. specialize (H k'). cbn [btree_get] in H. by rewrite decide_True in H.
  - intros _ _ H. specialize (H k). cbn [btree_get] in H. by rewrite decide_True in H.
  - intros [Ha Hm] [Ha' Hm'] H.
    assert (k = k') as ->.
    { apply ltb_total; apply not_true_is_false; intros Hlt.
      - specialize (H k). cbn [btree_get] in H. rewrite decide_True in H by done.
        rewrite decide_False, (get_above k m') in H; [done|by eapply above_trans|]. intros ->. by rewrite ltb_irrefl in Hlt.
      - specialize (H k'). cbn [btree_get] in H. rewrite (decide_True (P := k' = k')) in H by done.
        rewrite decide_False, (get_above k' m) in H; [done|by eapply above_trans|]. intros ->. by rewrite ltb_irrefl in Hlt. }
    pose proof (H k') as Hv. cbn [btree_get] in Hv. rewrite !decide_True in Hv by done. injection Hv as ->. f_equal.
    apply IH; [done|done|]. intros x. specialize (H x). cbn [btree_get] in H. case_decide as Hx; [|done]. subst.
    by rewrite !get_above.
Qed.

Lemma get_in k v m : ascending m -> btree_get k m = Some v <-> (k, v) ∈ m.
Proof using S.
  induction m as [|[k0 v0] m IH]; cbn [btree_get ascending]; [intros _; split; [done|by intros ?%elem_of_nil]|].
  intros [H0 Hm]. rewrite elem_of_cons. case_decide as Hk.
  - subst. split; [intros [= ->]; by left|]. intros [[= ->]|Hin]; [done|].
    apply Forall_forall with (x := (k0, v)) in H0; [|done]. cbn in H0. by rewrite ltb_irrefl in H0.
  - rewrite IH by done. split; [by right|]. intros [[= -> ->]|?]; done.
Qed.

(** Several insertions, one after the other: the last one with the key wins. *)
Definition btree_collect (l : list (K * V)) m : list (K * V) := foldl (fun m e => btree_insert e.1 e.2 m) m l.

Lemma ascending_collect l m : ascending m -> ascending (btree_collect l m).
Proof using S. revert m. induction l as [|e l IH]; intros m H; [done|]. apply IH. by apply ascending_insert. Qed.

Definition last_with k (l : list (K * V)) : option V := snd <$> last (filter (fun e => e.1 = k) l).

Lemma last_with_app k l l' : last_with k (l ++ l') = match last_with k l' with Some v => Some v | None => last_with k l end.
Proof using Type.
  unfold last_with. rewrite filter_app, last_app. by destruct (last (filter (fun e => e.1 = k) l')).
Qed.

Lemma get_collect k l m : ascending m ->
  btree_get k (btree_collect l m) = match last_with k l with Some v => Some v | None => btree_get k m end.
Proof using S.
  revert m. induction l as [|[k0 v0] l IH]; intros m H; [done|]. cbn [btree_collect foldl fst snd].
  fold (btree_collect l (btree_insert k0 v0 m)). rewrite IH by by apply ascending_insert.
  change ((k0, v0) :: l) with ([(k0, v0)] ++ l). rewrite last_with_app. destruct (last_with k l); [done|].
  rewrite get_insert by done. unfold last_with. rewrite filter_cons, filter_nil. cbn [fst]. by repeat case_decide.
Qed.

(** When the key determines the value, the order of the insertions is lost. *)
Definition functional (l : list (K * V)) : Prop := forall k v v', (k, v) ∈ l -> (k, v') ∈ l -> v = v'.

Lemma last_with_in k v l : last_with k l = Some v -> (k, v) ∈ l.
Proof using Type.
  unfold last_with. intros ([k' v'] & Hl & E)%fmap_Some. cbn in E. subst.
  apply last_Some_elem_of, list_elem_of_filter in Hl as [Hk Hin]. cbn in Hk. by subst.
Qed.

Lemma last_with_None k v l : last_with k l = None -> (k, v) ∉ l.
Proof using Type.
  unfold last_with. intros H%fmap_None%last_None Hin. by apply (filter_nil_not_elem_of _ _ (k, v)) in H.
Qed.

Lemma last_with_functional k v l : functional l -> last_with k l = Some v <-> (k, v) ∈ l.
Proof using Type.
  intros Hf. split; [apply last_with_in|]. intros Hin. destruct (last_with k l) as [v'|] eqn:E.
  - f_equal. by eapply Hf; [apply last_with_in|].
  - by apply (last_with_None _ v) in E.
Qed.

Lemma collect_order l l' : functional l -> (forall e, e ∈ l <-> e ∈ l') -> btree_collect l [] = btree_collect l' [].
Proof using S DK.
  intros Hf He. assert (Hf' : functional l') by (intros k v v'; rewrite <-!He; apply Hf).
  apply ascending_ext; [by apply ascending_collect..|]. intros k. rewrite !get_collect by done.
  assert (E : last_with k l = last_with k l').
  { apply option_eq. intros v. by rewrite !last_with_functional. }
  by rewrite E.
Qed.
End BTree.

(** Values may be rewritten under their keys. *)
Section Map.
Context {K V W : Type} {O : Ord K} (f : K -> V -> W).
Definition btree_map (m : list (K * V)) : list (K * W) := map (fun e => (e.1, f e.1 e.2)) m.
Lemma btree_map_insert k v m : btree_insert k (f k v) (btree_map m) = btree_map (btree_insert k v m).
Proof using Type.
  induction m as [|[k0 v0] m IH]; [done|]. cbn [btree_map map btree_insert fst snd].
  destruct (ltb k k0); [done|]. destruct (ltb k0 k); cbn [map fst snd]; [|done]. f_equal. exact IH.
Qed.
Lemma btree_map_get `{EqDecision K} k m : btree_get k (btree_map m) = f k <$> btree_get k m.
Proof using Type.
  induction m as [|[k0 v0] m IH]; [done|]. cbn [btree_map map btree_get fst snd]. case_decide; [by subst|done].
Qed.
End Map.
