(* ===== verification/RustNet.v ===== *)
(** * Rust's IP addresses

    [std::net::IpAddr] as the gateway uses it: parsing, [to_canonical] and
    [Display].  An IPv4 address is its 32-bit value, an IPv6 address its
    128-bit value, both big-endian. *)

From Stdlib Require Import ZArith Ascii String Lia.
From stdpp Require Import base option list gmap strings.
From S2P Require Import Prelude RustStr.
Local Open Scope string_scope.
Local Open Scope list_scope.
Local Open Scope Z_scope.

Inductive IpAddr :=
| V4 (a : Z)
| V6 (a : Z).

#[global] Instance IpAddr_eq_dec : EqDecision IpAddr.
Proof. solve_decision. Defined.

Definition ip_wf (ip : IpAddr) : Prop :=
  match ip with
  | V4 a => 0 <= a <= u32_max
  | V6 a => 0 <= a <= u128_max
  end.

Definition is_ipv4 (ip : IpAddr) : bool := match ip with V4 _ => true | V6 _ => false end.

(** An IPv4-mapped address [::ffff:a.b.c.d] becomes its IPv4 address. *)
Definition to_canonical (ip : IpAddr) : IpAddr :=
  match ip with
  | V4 a => V4 a
  | V6 a => if Z.shiftr a 32 =? 65535 then V4 (Z.land a u32_max) else V6 a
  end.

(** ** Parsing: a value and the bytes left *)
Definition reader (A : Type) : Type := list ascii -> option (A * list ascii).

Definition digit_in (radix : Z) (c : ascii) : option Z :=
  d ← to_digit16 c; if d <? radix then Some d else None.

Fixpoint read_digits (radix acc : Z) (bs : list ascii) : Z * nat * list ascii :=
  match bs with
  | c :: bs' =>
    match digit_in radix c with
    | Some d =>
      let '(v, n, r) := read_digits radix (acc * radix + d) bs' in (v, S n, r)
    | None => (acc, O, bs)
    end
  | [] => (acc, O, [])
  end.

Definition read_number (radix : Z) (max_digits : nat) (allow_zero_prefix : bool) (max : Z)
    : reader Z := fun bs =>
  let leading_zero := bool_decide (head bs = Some "0"%char) in
  let '(v, n, r) := read_digits radix 0 bs in
  if (n =? 0)%nat || (max_digits <? n)%nat
     || (negb allow_zero_prefix && leading_zero && (1 <? n)%nat) || (max <? v)
  then None else Some (v, r).

Definition read_char (c : ascii) : reader () := fun bs =>
  match bs with
  | d :: bs' => if Ascii.eqb c d then Some ((), bs') else None
  | [] => None
  end.

Definition read_separator {A} (sep : ascii) (i : nat) (inner : reader A) : reader A := fun bs =>
  match i with
  | O => inner bs
  | S _ => '(_, r) ← read_char sep bs; inner r
  end.

Definition read_octet (i : nat) : reader Z :=
  read_separator "." i (read_number 10 3 false 255).

Definition read_ipv4 : reader Z := fun bs =>
  '(a, r) ← read_octet 0 bs;
  '(b, r) ← read_octet 1 r;
  '(c, r) ← read_octet 2 r;
  '(d, r) ← read_octet 3 r;
  Some (((a * 256 + b) * 256 + c) * 256 + d, r).

(** The 16-bit groups of an IPv6 address, at most [limit] of them from the
    [i]-th on; the flag says that they end in an embedded IPv4 address. *)
Fixpoint read_groups (left i : nat) (bs : list ascii) : list Z * bool * list ascii :=
  match left with
  | O => ([], false, bs)
  | S left' =>
    match (if (0 <? left')%nat then read_separator ":" i read_ipv4 bs else None) with
    | Some (v4, r) => ([v4 / 65536; v4 mod 65536], true, r)
    | None =>
      match read_separator ":" i (read_number 16 4 true 65535) bs with
      | Some (g, r) =>
        let '(gs, v4, r') := read_groups left' (S i) r in (g :: gs, v4, r')
      | None => ([], false, bs)
      end
    end
  end.

Definition groups_value (gs : list Z) : Z := foldl (fun acc g => acc * 65536 + g) 0 gs.

Definition read_ipv6 : reader Z := fun bs =>
  let '(headg, head_v4, r) := read_groups 8 0 bs in
  if (length headg =? 8)%nat then Some (groups_value headg, r)
  else if head_v4 then None
  else
    '(_, r) ← read_char ":" r;
    '(_, r) ← read_char ":" r;
    let '(tailg, _, r) := read_groups (7 - length headg) 0 r in
    Some (groups_value (headg ++ replicate (8 - length headg - length tailg) 0 ++ tailg), r).

Definition parse_ip (s : string) : option IpAddr :=
  match read_ipv4 (bytes_of s) with
  | Some (a, []) => Some (V4 a)
  | Some (_, _ :: _) => None
  | None =>
    match read_ipv6 (bytes_of s) with
    | Some (a, []) => Some (V6 a)
    | _ => None
    end
  end.

(** ** Display *)
Definition octet (a : Z) (i : Z) : Z := Z.land (Z.shiftr a (8 * i)) 255.
Definition show_ipv4 (a : Z) : string :=
  show_u (octet a 3) +:+ "." +:+ show_u (octet a 2) +:+ "." +:+ show_u (octet a 1)
  +:+ "." +:+ show_u (octet a 0).

Definition segments (a : Z) : list Z :=
  (fun i => Z.land (Z.shiftr a (16 * i)) 65535) <$> [7; 6; 5; 4; 3; 2; 1; 0].

(** The longest run of zero segments, the first of equals: start and length. *)
Fixpoint zero_runs (i : nat) (cur best : nat * nat) (segs : list Z) : nat * nat :=
  match segs with
  | [] => best
  | g :: segs' =>
    if g =? 0 then
      let cur' := if (cur.2 =? 0)%nat then (i, 1%nat) else (cur.1, S cur.2) in
      zero_runs (S i) cur' (if (best.2 <? cur'.2)%nat then cur' else best) segs'
    else zero_runs (S i) (0%nat, 0%nat) best segs'
  end.

(** [{:x}]: lower-case hexadecimal without leading zeros. *)
Definition show_hex16 (g : Z) : string :=
  let ds := [g / 4096; (g / 256) mod 16; (g / 16) mod 16] in
  str_of ((hex_digit <$> drop_while (fun d => d =? 0) ds) ++ [hex_digit (g mod 16)]).
Definition show_segments (segs : list Z) : string := join ":" (show_hex16 <$> segs).

Definition show_ipv6 (a : Z) : string :=
  if Z.shiftr a 32 =? 65535 then "::ffff:" +:+ show_ipv4 (Z.land a u32_max)
  else
    let segs := segments a in
    let '(start, n) := zero_runs 0 (0%nat, 0%nat) (0%nat, 0%nat) segs in
    if (1 <? n)%nat then
      show_segments (take start segs) +:+ "::" +:+ show_segments (drop (start + n) segs)
    else show_segments segs.

Definition show_ip (ip : IpAddr) : string :=
  match ip with
  | V4 a => show_ipv4 a
  | V6 a => show_ipv6 a
  end.
