(* ===== verification/Waf.v ===== *)
(** * [pulsate-waf]: CIDR ranges, rate limiting, signatures, IP lists, audit log

    [cidr.rs] and [lib.rs].  [Instant] and [Duration] are nanoseconds; the
    clock reading of an operation is an argument.  A mutex is never poisoned:
    no critical section of the crate panics.  The HMAC of [ring] is a
    parameter. *)

From Stdlib Require Import ZArith Ascii String Lia.
From stdpp Require Import base option list gmap strings.
From S2P Require Import Prelude RustStr RustNet CoreTypes UtilParse.
Local Open Scope string_scope.
Local Open Scope list_scope.
Local Open Scope Z_scope.
Local Open Scope rust_scope.

(** ** [cidr.rs] *)
Record Cidr := mk_cidr { base : IpAddr; prefix : Z }.

#[global] Instance Cidr_eq_dec : EqDecision Cidr.
Proof. solve_decision. Defined.

Definition v4_mask (prefix : Z) : Z :=
  if prefix =? 0 then 0
  else if 32 <=? prefix then u32_max
  else Z.land (Z.shiftl u32_max (32 - prefix)) u32_max.

Definition v6_mask (prefix : Z) : Z :=
  if prefix =? 0 then 0
  else if 128 <=? prefix then u128_max
  else Z.land (Z.shiftl u128_max (128 - prefix)) u128_max.

Definition cidr_contains (c : Cidr) (ip : IpAddr) : bool :=
  match base c, ip with
  | V4 b, V4 i => Z.land b (v4_mask (prefix c)) =? Z.land i (v4_mask (prefix c))
  | V6 b, V6 i => Z.land b (v6_mask (prefix c)) =? Z.land i (v6_mask (prefix c))
  | _, _ => false
  end.

Definition cidr_from_str (s : string) : exec string Cidr :=
  let '(addr, p) := match split_once "/" s with
                    | Some (a, p) => (a, Some p)
                    | None => (s, None)
                    end in
  match parse_ip addr with
  | None => Err ("invalid IP address in CIDR `" +:+ s +:+ "`")
  | Some base =>
    let max := if is_ipv4 base then 32 else 128 in
    match (match p with Some p => parse_unsigned u8_max p | None => Some max end) with
    | None => Err ("invalid prefix in CIDR `" +:+ s +:+ "`")
    | Some prefix =>
      if max <? prefix then Err ("prefix /" +:+ show_u prefix +:+ " too large in CIDR `" +:+ s +:+ "`")
      else Ok (mk_cidr base prefix)
    end
  end.

(** ** Blocks *)
Record Block := mk_block { block_code : Code; block_status : Z; reason : string }.

Definition block_new (code : Code) (reason : string) : Block :=
  mk_block code (http_status code) reason.

(** ** The fixed-window rate limiter *)
Record RateOutcome := mk_outcome {
  allowed : bool;
  rate_limit : Z;
  remaining : Z;
  reset_secs : Z;
}.

Record RateLimiter := mk_limiter {
  limit : Z;
  window : Duration;
  buckets : gmap string (Z * Z);
}.

Definition limiter_new (limit : Z) (window : Duration) : RateLimiter := mk_limiter limit window ∅.

(** [Instant::duration_since], zero when the argument is later. *)
Definition duration_since (now earlier : Z) : Duration := saturating_sub now earlier.

Definition limiter_check (now : Z) (key : string) (l : RateLimiter) : RateOutcome * RateLimiter :=
  let entry := default (now, 0) (buckets l !! key) in
  let entry := if window l <=? duration_since now entry.1 then (now, 0) else entry in
  let used := entry.2 +₆₄ 1 in
  let entry := (entry.1, used) in
  let reset := as_secs (saturating_sub (window l) (duration_since now entry.1)) in
  (mk_outcome (used <=? limit l) (limit l) (saturating_sub (limit l) used) reset,
   mk_limiter (limit l) (window l) (<[key := entry]> (buckets l))).

(** ** The signature engine *)
Module Mode.
Inductive Mode := Block | Detect.
#[global] Instance Mode_eq_dec : EqDecision Mode.
Proof. solve_decision. Defined.
End Mode.

Definition MAX_DECODE_PASSES : nat := 8.

Record Signature := mk_signature { sig_id : string; needle : string }.

Definition SIGNATURES : list Signature :=
  [mk_signature "sqli-union" "union select";
   mk_signature "sqli-or" "' or '1'='1";
   mk_signature "sqli-comment" "-- ";
   mk_signature "sqli-drop" "; drop table";
   mk_signature "xss-script" "<script";
   mk_signature "xss-js" "javascript:";
   mk_signature "xss-onerror" "onerror=";
   mk_signature "traversal" "../";
   mk_signature "traversal-enc" "..%2f";
   mk_signature "rce-etc-passwd" "/etc/passwd"].

Fixpoint percent_bytes (bs : list ascii) : list ascii :=
  match bs with
  | [] => []
  | b :: rest =>
    let plain := (if Ascii.eqb b "+" then " "%char else b) :: percent_bytes rest in
    if Ascii.eqb b "%" then
      match rest with
      | hi :: lo :: rest' =>
        match to_digit16 hi, to_digit16 lo with
        | Some h, Some l => byte_of (h * 16 + l) :: percent_bytes rest'
        | _, _ => plain
        end
      | _ => plain
      end
    else plain
  end.

Definition percent_decode (s : string) : string := from_utf8_lossy (percent_bytes (bytes_of s)).

(** The characters left after block comments are replaced by a space;
    [in_comment] holds inside one.  A byte outside a comment is pushed as the
    character of its value. *)
Fixpoint strip_comments (in_comment : bool) (bs : list ascii) : list Z :=
  match bs with
  | [] => if in_comment then [32] else []
  | b :: rest =>
    match rest with
    | d :: rest' =>
      if in_comment then
        if Ascii.eqb b "*" && Ascii.eqb d "/" then 32 :: strip_comments false rest'
        else strip_comments true rest
      else if Ascii.eqb b "/" && Ascii.eqb d "*" then strip_comments true rest'
      else byte_val b :: strip_comments false rest
    | [] => if in_comment then [32] else [byte_val b]
    end
  end.

Definition strip_block_comments (s : string) : string := of_chars (strip_comments false (bytes_of s)).

Fixpoint collapse_chars (in_ws : bool) (cs : list Z) : list Z :=
  match cs with
  | [] => []
  | c :: cs' =>
    if is_whitespace c then
      if in_ws then collapse_chars true cs' else 32 :: collapse_chars true cs'
    else c :: collapse_chars false cs'
  end.

Definition collapse_whitespace (s : string) : string := of_chars (collapse_chars false (chars s)).

Fixpoint decode_passes (n : nat) (current : string) : string :=
  match n with
  | O => current
  | S n =>
    let decoded := percent_decode current in
    if (decoded =? current)%string then current else decode_passes n decoded
  end.

Definition normalize (input : string) : string :=
  collapse_whitespace (strip_block_comments (to_ascii_lowercase (decode_passes MAX_DECODE_PASSES input))).

Definition detect (path_and_query : string) : option string :=
  let haystack := normalize path_and_query in
  sig_id ∘ snd <$> list_find (fun s => contains (needle s) haystack = true) SIGNATURES.

Definition inspect (mode : Mode.Mode) (path_and_query : string) : option Block :=
  matched ← detect path_and_query;
  if decide (mode = Mode.Block) then Some (block_new WAF_RULE ("matched signature " +:+ matched))
  else None.

(** ** IP allow and deny lists *)
Record IpAcl := mk_acl { allow : list Cidr; deny : list Cidr }.

Definition acl_new : IpAcl := mk_acl [] [].
Definition acl_allow (a : IpAcl) (c : Cidr) : IpAcl := mk_acl (allow a ++ [c]) (deny a).
Definition acl_deny (a : IpAcl) (c : Cidr) : IpAcl := mk_acl (allow a) (deny a ++ [c]).

Definition acl_check (a : IpAcl) (ip : IpAddr) : option Block :=
  let ip := to_canonical ip in
  if existsb (fun c => cidr_contains c ip) (allow a) then None
  else if negb (match allow a with [] => true | _ => false end) then
    Some (block_new WAF_IP_DENIED ("ip " +:+ show_ip ip +:+ " not in allow list"))
  else if existsb (fun c => cidr_contains c ip) (deny a) then
    Some (block_new WAF_IP_DENIED ("ip " +:+ show_ip ip +:+ " denied"))
  else None.

(** ** The audit log *)
Record AuditEntry := mk_entry { seq : Z; event : string; prev_hash : string; hash : string }.

#[global] Instance AuditEntry_eq_dec : EqDecision AuditEntry.
Proof. solve_decision. Defined.

Definition hex (bs : list ascii) : string := String.concat "" (hex_byte ∘ byte_val <$> bs).

(** [u64::to_le_bytes]. *)
Definition to_le_bytes (z : Z) : list ascii :=
  (fun i => byte_of (Z.land (Z.shiftr z (8 * i)) 255)) <$> [0; 1; 2; 3; 4; 5; 6; 7].

Section Audit.
(** The HMAC-SHA256 under the log's key. *)
Variable hmac : list ascii -> list ascii.

Definition chain_hash (prev : string) (seq : Z) (event : string) : string :=
  hex (hmac (bytes_of prev ++ to_le_bytes seq ++ bytes_of event)).

Definition append (ev : string) (entries : list AuditEntry) : Z * list AuditEntry :=
  let '(sq, prev) := match last entries with
                     | Some e => (seq e +₆₄ 1, hash e)
                     | None => (0, "")
                     end in
  (sq, entries ++ [mk_entry sq ev prev (chain_hash prev sq ev)]).

Definition audit_len (entries : list AuditEntry) : nat := length entries.
Definition audit_is_empty (entries : list AuditEntry) : bool := (audit_len entries =? 0)%nat.

Fixpoint verify_from (prev : string) (entries : list AuditEntry) : bool :=
  match entries with
  | [] => true
  | e :: rest =>
    if negb (prev_hash e =? prev)%string || negb (hash e =? chain_hash prev (seq e) (event e))%string
    then false
    else verify_from (hash e) rest
  end.

Definition verify (entries : list AuditEntry) : bool := verify_from "" entries.
End Audit.
