(* ===== verification/WafProps.v ===== *)
(** * Properties of [pulsate-waf] *)

From Stdlib Require Import ZArith Ascii String Lia.
From stdpp Require Import base option list gmap strings.
From S2P Require Import Prelude RustStr RustNet CoreTypes UtilParse Waf.
Local Open Scope string_scope.
Local Open Scope list_scope.
Local Open Scope Z_scope.

(** ** CIDR ranges *)

(** The mask of a [p]-bit prefix of a [w]-bit address. *)
Definition mask (w p : Z) : Z := 2 ^ w - 2 ^ (w - p).

Lemma mask_testbit w p i :
  0 <= p <= w -> Z.testbit (mask w p) i = (w - p <=? i) && (i <? w).
Proof.
  intros H. unfold mask.
  replace (2 ^ w - 2 ^ (w - p)) with (Z.shiftl (Z.ones p) (w - p)).
  2:{ rewrite Z.shiftl_mul_pow2, Z.ones_equiv by lia. rewrite Z.mul_pred_l, <-Z.pow_add_r by lia.
      f_equal. f_equal. lia. }
  destruct (Z.ltb_spec i 0) as [Hi|Hi].
  { rewrite Z.testbit_neg_r by done. symmetry. apply andb_false_intro1. apply Z.leb_gt. lia. }
  rewrite Z.shiftl_spec by done. destruct (Z.leb_spec (w - p) i).
  - rewrite Z.testbit_ones_nonneg by lia. simpl. destruct (Z.ltb_spec i w), (Z.ltb_spec (i - (w - p)) p); lia.
  - rewrite Z.testbit_neg_r by lia. done.
Qed.

Lemma shifted_mask w p :
  0 < p < w -> Z.land (Z.shiftl (2 ^ w - 1) (w - p)) (2 ^ w - 1) = mask w p.
Proof.
  intros H. assert (2 ^ w - 1 = Z.ones w) as -> by (rewrite Z.ones_equiv; lia).
  apply Z.bits_inj'. intros i Hi. rewrite mask_testbit, Z.land_spec, Z.shiftl_spec by lia.
  rewrite (Z.testbit_ones_nonneg w i) by lia. destruct (Z.leb_spec (w - p) i).
  - rewrite Z.testbit_ones_nonneg by lia. destruct (Z.ltb_spec (i - (w - p)) w), (Z.ltb_spec i w); lia.
  - by rewrite Z.testbit_neg_r by lia.
Qed.

Lemma v4_mask_spec p : 0 <= p <= 32 -> v4_mask p = mask 32 p.
Proof.
  intros H. unfold v4_mask. destruct (Z.eqb_spec p 0) as [->|]; [reflexivity|].
  destruct (Z.leb_spec 32 p); [by assert (p = 32) as -> by lia|]. by apply (shifted_mask 32); lia.
Qed.

Lemma v6_mask_spec p : 0 <= p <= 128 -> v6_mask p = mask 128 p.
Proof.
  intros H. unfold v6_mask. destruct (Z.eqb_spec p 0) as [->|]; [reflexivity|].
  destruct (Z.leb_spec 128 p); [by assert (p = 128) as -> by lia|]. by apply (shifted_mask 128); lia.
Qed.

Lemma masked_eq w p a b :
  0 <= p <= w -> Z.land a (mask w p) = Z.land b (mask w p)
  <-> forall i, w - p <= i < w -> Z.testbit a i = Z.testbit b i.
Proof.
  intros Hp. split.
  - intros E i Hi. apply (f_equal (fun z => Z.testbit z i)) in E. rewrite !Z.land_spec, mask_testbit in E by done.
    rewrite (proj2 (Z.leb_le _ _)), (proj2 (Z.ltb_lt _ _)), !andb_true_r in E by lia. done.
  - intros H. apply Z.bits_inj'. intros i Hi. rewrite !Z.land_spec, mask_testbit by done.
    destruct (Z.leb_spec (w - p) i), (Z.ltb_spec i w); rewrite ?andb_false_r; try done. by rewrite H by lia.
Qed.

Definition ip_width (ip : IpAddr) : Z := if is_ipv4 ip then 32 else 128.
Definition ip_value (ip : IpAddr) : Z := match ip with V4 a | V6 a => a end.

(** A parsed CIDR range contains exactly the addresses of its family that
    agree with its base on the leading prefix bits; [/0] contains the whole
    family, and a bare address only itself. *)
Theorem cidr_contains_correct (s : string) (c : Cidr) (ip : IpAddr)
    (Hc : cidr_from_str s = Ok c) :
  0 <= prefix c <= ip_width (base c) /\
  (cidr_contains c ip = true <->
   is_ipv4 ip = is_ipv4 (base c)
   /\ forall i, ip_width ip - prefix c <= i < ip_width ip ->
        Z.testbit (ip_value (base c)) i = Z.testbit (ip_value ip) i).
Proof.
  assert (Hp : 0 <= prefix c <= ip_width (base c)).
  { unfold cidr_from_str in Hc. destruct (match split_once "/" s with Some (a, p) => (a, Some p) | None => (s, None) end)
      as [addr op]. destruct (parse_ip addr) as [b|]; [|done].
    destruct (match op with Some p => _ | None => _ end) as [p|] eqn:Ep; [|done].
    destruct (Z.ltb_spec (if is_ipv4 b then 32 else 128) p); [done|]. injection Hc as <-. simpl.
    unfold ip_width. split; [|lia]. destruct op; [apply parse_unsigned_range in Ep; lia|].
    injection Ep as <-. destruct (is_ipv4 b); lia. }
  split; [done|]. unfold cidr_contains, ip_width in *. destruct c as [[b|b] p], ip as [a|a]; simpl in *.
  - rewrite Z.eqb_eq, v4_mask_spec, masked_eq by done. naive_solver.
  - naive_solver.
  - naive_solver.
  - rewrite Z.eqb_eq, v6_mask_spec, masked_eq by done. naive_solver.
Qed.

Lemma cidr_contains_correct_witness :
  cidr_from_str "10.0.0.0/8" = Ok (mk_cidr (V4 167772160) 8)
  /\ 0 <= prefix (mk_cidr (V4 167772160) 8) <= ip_width (base (mk_cidr (V4 167772160) 8)).
Proof.
  split; [vm_compute; reflexivity|].
  apply (cidr_contains_correct "10.0.0.0/8" (mk_cidr (V4 167772160) 8) (V4 1)). vm_compute. reflexivity.
Defined.

(** ** IP lists *)

Lemma to_canonical_mapped a : 0 <= a <= u32_max -> to_canonical (V6 (Z.shiftl 65535 32 + a)) = V4 a.
Proof.
  intros Ha. unfold u32_max in Ha. unfold to_canonical.
  replace (Z.shiftr (Z.shiftl 65535 32 + a) 32) with 65535.
  2:{ rewrite Z.shiftr_div_pow2, Z.shiftl_mul_pow2, Z.add_comm, Z.div_add, Z.div_small by lia. lia. }
  rewrite Z.eqb_refl. f_equal. unfold u32_max.
  assert (2 ^ 32 - 1 = Z.ones 32) as -> by reflexivity.
  rewrite Z.land_ones, Z.shiftl_mul_pow2, Z.add_comm, Z.mod_add, Z.mod_small by lia. done.
Qed.

(** The IP list fails closed and cannot be bypassed through the mapped
    form: an address passes exactly when an allow range contains its canonical
    form, or there is no allow range and no deny range contains it; every
    refusal is [PLS-WAF] 403; and [::ffff:a.b.c.d] is decided as [a.b.c.d]. *)
Theorem acl_check_correct (acl : IpAcl) (ip : IpAddr) :
  (acl_check acl ip = None <->
    (exists c, c ∈ allow acl /\ cidr_contains c (to_canonical ip) = true)
    \/ (allow acl = [] /\ forall c, c ∈ deny acl -> cidr_contains c (to_canonical ip) = false))
  /\ (forall b, acl_check acl ip = Some b -> block_code b = WAF_IP_DENIED /\ block_status b = 403)
  /\ (forall a, 0 <= a <= u32_max ->
        acl_check acl (V6 (Z.shiftl 65535 32 + a)) = acl_check acl (V4 a)).
Proof.
  split_and!.
  - unfold acl_check. destruct (existsb _ (allow acl)) eqn:Ea.
    { apply existsb_exists in Ea as (c & Hc%list_elem_of_In & ?). naive_solver. }
    assert (Hna : ~ exists c, c ∈ allow acl /\ cidr_contains c (to_canonical ip) = true).
    { intros (c & Hc%list_elem_of_In & E). rewrite <-not_true_iff_false in Ea. apply Ea, existsb_exists; eauto. }
    destruct (allow acl) as [|x xs]; simpl; [|naive_solver].
    destruct (existsb _ (deny acl)) eqn:Ed.
    + apply existsb_exists in Ed as (c & Hc%list_elem_of_In & E). split; [done|].
      intros [?|[_ H]]; [done|]. rewrite H in E; done.
    + split; [|done]. intros _. right. split; [done|]. intros c Hc. apply not_true_is_false. intros E.
      rewrite <-not_true_iff_false in Ed. apply Ed, existsb_exists. exists c.
      by rewrite <-list_elem_of_In.
  - intros b. unfold acl_check. repeat case_match; naive_solver.
  - intros a Ha. unfold acl_check. by rewrite to_canonical_mapped.
Qed.

(** ** The rate limiter *)

(** A run of checks at given times: each with its outcome. *)
Fixpoint serve (l : RateLimiter) (trace : list (Z * string)) : list (Z * string * RateOutcome) :=
  match trace with
  | [] => []
  | (now, key) :: rest =>
    let '(o, l') := limiter_check now key l in (now, key, o) :: serve l' rest
  end.

(** Requests of [key] granted at a time in [[from, until)]. *)
Definition granted (key : string) (from until : Z) (served : list (Z * string * RateOutcome)) : Z :=
  Z.of_nat (length (filter (fun '(now, k, o) => k = key /\ allowed o = true /\ from <= now < until) served)).

(** Times never go backwards, and the clock starts at [t0]. *)
Fixpoint monotone (t0 : Z) (trace : list (Z * string)) : Prop :=
  match trace with
  | [] => True
  | (now, _) :: rest => t0 <= now /\ monotone now rest
  end.

Lemma granted_cons key from until now k o served :
  granted key from until ((now, k, o) :: served) =
  (if decide (k = key /\ allowed o = true /\ from <= now < until) then 1 else 0)
  + granted key from until served.
Proof.
  unfold granted. rewrite filter_cons. repeat case_decide; simpl in *; try tauto; lia.
Qed.

(** What the bucket of [key] records about the requests already granted in
    [[from, from + window)], [g] of them, when the clock is at [now]. *)
Definition bucket_inv (lim win from now g : Z) (b : option (Z * Z)) : Prop :=
  0 <= g <= 2 * lim /\ (0 < g -> from <= now) /\
  match b with
  | None => g = 0
  | Some (start, used) =>
    0 <= used /\ start <= now
    /\ (start < from -> g <= Z.min used lim)
    /\ (from <= start < from + win -> g <= lim + Z.min used lim)
  end.

(** No bucket has counted more than [n] requests. *)
Definition counts_le (n : Z) (l : RateLimiter) : Prop :=
  forall k b, buckets l !! k = Some b -> 0 <= b.2 <= n.

(** The bucket a check leaves for its key. *)
Definition next_bucket (now win : Z) (b : option (Z * Z)) : Z * Z :=
  match b with
  | Some (start, used) => if win <=? duration_since now start then (now, 1) else (start, used + 1)
  | None => (now, 1)
  end.

Lemma limiter_check_eq n now key l :
  counts_le n l -> 0 <= n < u64_max -> 0 < window l ->
  let b := next_bucket now (window l) (buckets l !! key) in
  allowed (limiter_check now key l).1 = (b.2 <=? limit l)
  /\ (limiter_check now key l).2 = mk_limiter (limit l) (window l) (<[key := b]> (buckets l)).
Proof.
  intros Hn Hmax Hw. unfold limiter_check, next_bucket. unfold duration_since, saturating_sub.
  destruct (buckets l !! key) as [[start used]|] eqn:E; simpl.
  - specialize (Hn _ _ E); simpl in Hn. destruct (Z.leb_spec (window l) (Z.max 0 (now - start))); simpl.
    + by rewrite wrap_u64_small by (unfold u64_max; lia).
    + by rewrite wrap_u64_small by lia.
  - rewrite Z.sub_diag. destruct (Z.leb_spec (window l) (Z.max 0 0)); simpl;
      by rewrite wrap_u64_small by (unfold u64_max; lia).
Qed.

Lemma counts_le_insert n l key now :
  counts_le n l -> 0 <= n ->
  counts_le (n + 1) (mk_limiter (limit l) (window l)
    (<[key := next_bucket now (window l) (buckets l !! key)]> (buckets l))).
Proof.
  intros Hn H0 k b. simpl. intros [[<- <-]|[_ Hk]]%lookup_insert_Some; [|apply Hn in Hk; lia].
  unfold next_bucket. destruct (buckets l !! key) as [[start used]|] eqn:E; simpl; [|lia].
  apply Hn in E; simpl in E. case_match; simpl; lia.
Qed.

Lemma bucket_inv_next lim win from t0 now g b :
  0 <= lim -> t0 <= now -> 0 < win -> bucket_inv lim win from t0 g b ->
  let b' := next_bucket now win b in
  bucket_inv lim win from now
    (g + if decide (b'.2 <= lim /\ from <= now < from + win) then 1 else 0) (Some b').
Proof.
  intros Hl Ht Hw (Hg & Hpos & Hb). unfold next_bucket, duration_since, saturating_sub.
  destruct b as [[start used]|]; simpl.
  - destruct Hb as (Hu & Hs & H1 & H2).
    destruct (Z.leb_spec win (Z.max 0 (now - start))); simpl; unfold bucket_inv; case_decide; lia.
  - unfold bucket_inv. case_decide; lia.
Qed.

Lemma bucket_inv_other lim win from t0 now g b :
  t0 <= now -> bucket_inv lim win from t0 g b -> bucket_inv lim win from now g b.
Proof. unfold bucket_inv. destruct b as [[]|]; lia. Qed.

Lemma serve_bound lim win from key trace : forall l t0 g n,
  limit l = lim -> window l = win -> 0 <= lim -> 0 < win -> monotone t0 trace ->
  bucket_inv lim win from t0 g (buckets l !! key) -> counts_le n l -> 0 <= n ->
  n + Z.of_nat (length trace) <= u64_max ->
  g + granted key from (from + win) (serve l trace) <= 2 * lim.
Proof.
  induction trace as [|[now k] rest IH]; intros l t0 g n El Ew Hl Hw Hm Hinv Hn H0 Hlen.
  { unfold granted. simpl. destruct Hinv; lia. }
  cbn [serve]. cbn [length] in Hlen. destruct Hm as [Ht Hm].
  destruct (limiter_check_eq n now k l Hn) as [Ea El']; [lia|lia|].
  destruct (limiter_check now k l) as [o l'] eqn:E. simpl in Ea, El'. rewrite granted_cons, Z.add_assoc.
  apply (IH l' now _ (n + 1)); rewrite ?El'; simpl; try done; try lia; [|by apply counts_le_insert].
  destruct (decide (k = key)) as [->|Hk].
  - rewrite lookup_insert_eq, Ea, Ew. rewrite (decide_ext _ (
      (next_bucket now win (buckets l !! key)).2 <= limit l /\ from <= now < from + win)).
    + rewrite El. by eapply bucket_inv_next.
    + rewrite Z.leb_le. tauto.
  - rewrite lookup_insert_ne by done. rewrite decide_False by tauto. rewrite Z.add_0_r.
    by eapply bucket_inv_other.
Qed.

(** C32. The fixed-window limiter bounds bursts: however the requests of all
    keys interleave, no interval of one window's length grants a key more than
    twice the limit. *)
Theorem limiter_bounds_bursts (lim win t0 from : Z) (key : string) (trace : list (Z * string))
    (Hl : 0 <= lim) (Hw : 0 < win) (Hm : monotone t0 trace)
    (Hn : Z.of_nat (length trace) <= u64_max) :
  granted key from (from + win) (serve (limiter_new lim win) trace) <= 2 * lim.
Proof.
  apply (serve_bound lim win from key trace (limiter_new lim win) t0 0 0); simpl; try done; try lia.
  unfold bucket_inv. rewrite lookup_empty. lia.
Qed.

Lemma limiter_bounds_bursts_witness :
  granted "ip" 5 15 (serve (limiter_new 1 10) [(5, "ip"); (6, "ip"); (7, "other")]) <= 2 * 1.
Proof.
  apply (limiter_bounds_bursts 1 10 0 5 "ip" [(5, "ip"); (6, "ip"); (7, "other")]); simpl;
    unfold u64_max; lia.
Defined.

(** The limiter after a run, and the time of the last check. *)
Definition limiter_after (l : RateLimiter) (trace : list (Z * string)) : RateLimiter :=
  foldl (fun l '(now, k) => (limiter_check now k l).2) l trace.
Definition last_time (t0 : Z) (trace : list (Z * string)) : Z := foldl (fun _ x => x.1) t0 trace.
(** Requests made for [key] at [from] or later, granted or not. *)
Definition asked (key : string) (from : Z) (trace : list (Z * string)) : Z :=
  Z.of_nat (length (filter (fun x => x.2 = key /\ from <= x.1) trace)).

Lemma asked_snoc key from trace now k :
  asked key from (trace ++ [(now, k)])
  = asked key from trace + if decide (k = key /\ from <= now) then 1 else 0.
Proof.
  unfold asked. rewrite filter_app, length_app, filter_cons, filter_nil.
  repeat case_decide; simpl in *; try tauto; lia.
Qed.

Lemma asked_mono key from from' trace : from' <= from -> asked key from trace <= asked key from' trace.
Proof.
  intros H. unfold asked. induction trace as [|x trace IH]; [done|].
  rewrite !filter_cons. repeat case_decide; simpl; try lia. exfalso. naive_solver lia.
Qed.

Lemma monotone_snoc t0 trace now k :
  monotone t0 (trace ++ [(now, k)]) -> monotone t0 trace /\ last_time t0 trace <= now.
Proof.
  revert t0. induction trace as [|[t k'] trace IH]; intros t0; simpl; [lia|].
  intros [? [? ?]%IH]. done.
Qed.

Definition after_inv (key : string) (t0 : Z) (trace : list (Z * string)) (l : RateLimiter) : Prop :=
  counts_le (Z.of_nat (length trace)) l /\
  forall start used, buckets l !! key = Some (start, used) ->
    used <= asked key start trace /\ start <= last_time t0 trace.

Lemma limiter_after_inv lim win t0 key trace :
  0 < win -> monotone t0 trace -> Z.of_nat (length trace) <= u64_max ->
  let l := limiter_after (limiter_new lim win) trace in
  limit l = lim /\ window l = win /\ after_inv key t0 trace l.
Proof.
  intros Hw. induction trace as [|[now k] trace IH] using rev_ind; intros Hm Hlen.
  { simpl. split_and!; [done..|]. split; [intros ? ?|intros ? ?]; simpl; by rewrite lookup_empty. }
  apply monotone_snoc in Hm as [Hm Ht]. rewrite length_app in Hlen. simpl in Hlen.
  destruct IH as (El & Ew & Hn & Hb); [done|lia|].
  unfold limiter_after in *. rewrite foldl_app. cbn [foldl]. set (l := foldl _ _ trace) in *.
  destruct (limiter_check_eq (Z.of_nat (length trace)) now k l Hn) as [_ ->]; [lia|lia|]. simpl.
  split_and!; [done..|]. split.
  { rewrite length_app, Nat2Z.inj_add. simpl. apply counts_le_insert; [done|lia]. }
  intros start used. unfold last_time. rewrite foldl_app, asked_snoc. simpl. fold (last_time t0 trace).
  intros [[-> Eb]|[Hk Hs]]%lookup_insert_Some.
  - rewrite Ew in Eb. unfold next_bucket, duration_since, saturating_sub in Eb.
    assert (0 <= asked key now trace) by (unfold asked; lia).
    destruct (buckets l !! key) as [[s u]|]; [|simplify_eq; rewrite decide_True by (split; [done|lia]); lia].
    destruct (Hb s u eq_refl). destruct (Z.leb_spec win (Z.max 0 (now - s))); simplify_eq;
      rewrite decide_True by (split; [done|lia]); lia.
  - apply Hb in Hs as [? ?]. case_decide; lia.
Qed.

(** The limiter never refuses a client that stays below its limit: after
    any run, a request is granted when fewer than the limit were made for its
    key during the window before it. *)
Theorem limiter_grants_below_limit (lim win t0 now : Z) (key : string) (trace : list (Z * string))
    (Hw : 0 < win) (Hm : monotone t0 (trace ++ [(now, key)]))
    (Hn : Z.of_nat (length trace) < u64_max)
    (Hasked : asked key (now - win + 1) trace < lim) :
  allowed (limiter_check now key (limiter_after (limiter_new lim win) trace)).1 = true.
Proof.
  apply monotone_snoc in Hm as [Hm Ht].
  destruct (limiter_after_inv lim win t0 key trace) as (El & Ew & Hc & Hb); [done|done|lia|].
  set (l := limiter_after _ trace) in *.
  destruct (limiter_check_eq (Z.of_nat (length trace)) now key l Hc) as [-> _]; [lia|lia|].
  rewrite El, Ew. apply Z.leb_le. unfold next_bucket, duration_since, saturating_sub.
  assert (0 <= asked key (now - win + 1) trace) by (unfold asked; lia).
  destruct (buckets l !! key) as [[s u]|] eqn:E; [|simpl; lia]. destruct (Hb s u eq_refl) as [Hu Hs].
  destruct (Z.leb_spec win (Z.max 0 (now - s))); simpl; [lia|].
  assert (asked key s trace <= asked key (now - win + 1) trace) by (apply asked_mono; lia). lia.
Qed.

Lemma limiter_grants_below_limit_witness :
  allowed (limiter_check 9 "ip" (limiter_after (limiter_new 2 10) [(5, "ip"); (6, "b")])).1 = true.
Proof.
  apply (limiter_grants_below_limit 2 10 0 9 "ip" [(5, "ip"); (6, "b")]);
    [lia|simpl; lia|simpl; unfold u64_max; lia|vm_compute; reflexivity].
Defined.
