(* ===== verification/WafAudit.v ===== *)
(** * Properties of the signature engine and the audit log of [pulsate-waf] *)

From Stdlib Require Import ZArith Ascii String Lia.
From stdpp Require Import base option list gmap strings.
From S2P Require Import Prelude RustStr RustNet CoreTypes UtilParse Waf.
Local Open Scope string_scope.
Local Open Scope list_scope.
Local Open Scope Z_scope.

(** ** Percent-encoding cannot hide a payload *)

(** [t] is [s] with any of its bytes percent-encoded, in either case of the
    hexadecimal digits, and any space written as a plus. *)
Inductive pct_encodes : list ascii -> list ascii -> Prop :=
| pct_nil : pct_encodes [] []
| pct_raw b s t : b <> "%"%char -> b <> "+"%char -> pct_encodes s t -> pct_encodes (b :: s) (b :: t)
| pct_plus s t : pct_encodes s t -> pct_encodes (" "%char :: s) ("+"%char :: t)
| pct_hex b hi lo h l s t :
    to_digit16 hi = Some h -> to_digit16 lo = Some l -> byte_val b = h * 16 + l ->
    pct_encodes s t -> pct_encodes (b :: s) ("%"%char :: hi :: lo :: t).

(** [n] layers of encoding over [s], every layer a Rust string. *)
Inductive encoded : nat -> string -> string -> Prop :=
| encoded_0 s : encoded 0 s s
| encoded_S n s u t :
    encoded n s u -> utf8_valid u = true -> pct_encodes (bytes_of u) (bytes_of t) -> encoded (S n) s t.

Lemma percent_bytes_encoded s t : pct_encodes s t -> percent_bytes t = s.
Proof.
  induction 1 as [|b s t H1 H2 _ IH|s t _ IH|b hi lo h l s t Hh Hl Hb _ IH].
  - done.
  - cbn [percent_bytes]. apply Ascii.eqb_neq in H1, H2. by rewrite H1, H2, IH.
  - cbn [percent_bytes]. by rewrite IH.
  - cbn [percent_bytes]. rewrite Hh, Hl. simpl. by rewrite IH, <-Hb, byte_of_val.
Qed.

Lemma percent_decode_encoded s t :
  utf8_valid s = true -> pct_encodes (bytes_of s) (bytes_of t) -> percent_decode t = s.
Proof. intros Hs H. unfold percent_decode. by rewrite (percent_bytes_encoded _ _ H), from_utf8_lossy_valid. Qed.

Lemma decode_passes_stable n s : percent_decode s = s -> decode_passes n s = s.
Proof. intros H. destruct n; [done|]. simpl. by rewrite H, String.eqb_refl. Qed.

Lemma encoded_stable n s t : encoded n s t -> percent_decode t = t -> t = s.
Proof.
  induction 1 as [|n s u t _ IH Hu Hp]; [done|]. intros Ht.
  rewrite (percent_decode_encoded _ _ Hu Hp) in Ht. subst t. apply IH.
  by apply percent_decode_encoded.
Qed.

Lemma decode_passes_encoded n m s t :
  encoded n s t -> percent_decode s = s -> decode_passes (n + m) t = s.
Proof.
  intros H Hs. induction H as [|n s u t H IH Hu Hp]; [by apply decode_passes_stable|].
  cbn [Nat.add decode_passes]. rewrite (percent_decode_encoded _ _ Hu Hp).
  destruct (String.eqb_spec u t) as [->|]; [|by apply IH].
  apply (encoded_stable n); [done|]. by apply percent_decode_encoded.
Qed.

(** C31. Up to eight layers of percent-encoding, partial or mixed with plus
    signs, do not change the verdict: the engine sees the payload itself. *)
Theorem waf_sees_through_encoding (n : nat) (payload target : string) (mode : Mode.Mode)
    (Hn : (n <= MAX_DECODE_PASSES)%nat) (He : encoded n payload target)
    (Hp : percent_decode payload = payload) :
  detect target = detect payload /\ inspect mode target = inspect mode payload.
Proof.
  assert (E : normalize target = normalize payload).
  { unfold normalize. rewrite (decode_passes_stable _ payload Hp).
    replace MAX_DECODE_PASSES with (n + (MAX_DECODE_PASSES - n))%nat at 1 by lia.
    by rewrite (decode_passes_encoded n _ payload target). }
  unfold inspect, detect. by rewrite E.
Qed.

Lemma waf_sees_through_encoding_witness :
  detect "/%252e%252e/" = detect "/../" /\ inspect Mode.Block "/%252e%252e/" = inspect Mode.Block "/../".
Proof.
  apply (waf_sees_through_encoding 2 "/../" "/%252e%252e/" Mode.Block);
    [unfold MAX_DECODE_PASSES; lia| |vm_compute; reflexivity].
  apply (encoded_S 1 "/../" "/%2e%2e/"); [|vm_compute; reflexivity|].
  - apply (encoded_S 0 "/../" "/../"); [constructor|vm_compute; reflexivity|].
    simpl. apply pct_raw; [done|done|]. apply (pct_hex _ _ _ 2 14); [done|done|done|].
    apply (pct_hex _ _ _ 2 14); [done|done|done|]. apply pct_raw; [done|done|]. constructor.
  - simpl. apply pct_raw; [done|done|]. apply (pct_hex _ _ _ 2 5); [done|done|done|].
    do 2 (apply pct_raw; [done|done|]). apply (pct_hex _ _ _ 2 5); [done|done|done|].
    do 3 (apply pct_raw; [done|done|]). constructor.
Defined.

(** ** Hexadecimal and little-endian encodings are injective *)

Lemma hex_cons b bs : hex (b :: bs) = hex_byte (byte_val b) +:+ hex bs.
Proof. unfold hex. simpl. destruct bs; [by rewrite append_nil_r|done]. Qed.

Lemma hex_length bs : String.length (hex bs) = (2 * length bs)%nat.
Proof.
  induction bs as [|b bs IH]; [done|]. rewrite hex_cons, length_append, IH. simpl. lia.
Qed.

Lemma hex_digit_inj d e : 0 <= d < 16 -> 0 <= e < 16 -> hex_digit d = hex_digit e -> d = e.
Proof.
  intros Hd He H. apply (f_equal byte_val) in H. unfold hex_digit in H.
  destruct (Z.ltb_spec d 10), (Z.ltb_spec e 10); rewrite !byte_val_of in H by lia; lia.
Qed.

Lemma hex_digit_ascii d : 0 <= d < 16 -> is_ascii (hex_digit d) = true.
Proof.
  intros Hd. unfold hex_digit, is_ascii. destruct (Z.ltb_spec d 10); rewrite byte_val_of by lia; lia.
Qed.

Lemma nibbles c : 0 <= byte_val c / 16 < 16 /\ 0 <= byte_val c mod 16 < 16.
Proof.
  pose proof (byte_val_range c). split; [|apply Z.mod_pos_bound; lia].
  split; [apply Z.div_pos; lia|apply Z.div_lt_upper_bound; lia].
Qed.

Lemma hex_inj bs bs' : hex bs = hex bs' -> bs = bs'.
Proof.
  revert bs'. induction bs as [|b bs IH]; intros [|b' bs']; [done|rewrite hex_cons; done..|].
  rewrite !hex_cons. unfold hex_byte. rewrite !append_cons, !append_nil_l. intros [= H1 H2 H3].
  destruct (nibbles b), (nibbles b'). f_equal; [|by apply IH].
  apply hex_digit_inj in H1, H2; [|done..]. apply byte_val_inj.
  rewrite (Z.div_mod (byte_val b) 16), (Z.div_mod (byte_val b') 16) by lia. lia.
Qed.

Lemma hex_ascii bs : Forall (fun c => is_ascii c = true) (bytes_of (hex bs)).
Proof.
  induction bs as [|b bs IH]; [constructor|]. rewrite hex_cons, bytes_of_app.
  apply Forall_app. split; [|done]. destruct (nibbles b).
  repeat (apply Forall_cons; split; [by apply hex_digit_ascii|]). constructor.
Qed.

(** Little-endian bytes, least significant first. *)
Definition of_le_bytes (bs : list ascii) : Z := foldr (fun b acc => byte_val b + 256 * acc) 0 bs.

Fixpoint le_bytes (n : nat) (z : Z) : list ascii :=
  match n with O => [] | S n => byte_of (z mod 256) :: le_bytes n (z / 256) end.

Lemma to_le_bytes_rec z : to_le_bytes z = le_bytes 8 z.
Proof.
  assert (E : forall i, 0 <= i -> Z.land (Z.shiftr z (8 * i)) 255 = Z.shiftr z (8 * i) mod 256).
  { intros i Hi. change 255 with (Z.ones 8). by rewrite Z.land_ones by lia. }
  unfold to_le_bytes. simpl fmap. change (8 * 0) with 0. rewrite Z.shiftr_0_r, !E by lia.
  assert (S : forall i, 0 <= i -> Z.shiftr z (8 * (i + 1)) = Z.shiftr z (8 * i) / 256).
  { intros i Hi. replace (8 * (i + 1)) with (8 * i + 8) by lia.
    rewrite <-Z.shiftr_shiftr, (Z.shiftr_div_pow2 _ 8) by lia. done. }
  change 7 with (6 + 1) at 1. change 6 with (5 + 1). change 5 with (4 + 1). change 4 with (3 + 1).
  change 3 with (2 + 1). change 2 with (1 + 1). change 1 with (0 + 1). rewrite !S by lia.
  change (8 * 0) with 0. rewrite Z.shiftr_0_r. change 255 with (Z.ones 8). by rewrite Z.land_ones by lia.
Qed.

Lemma of_le_bytes_le n z : 0 <= z < 256 ^ Z.of_nat n -> of_le_bytes (le_bytes n z) = z.
Proof.
  revert z. induction n as [|n IH]; intros z Hz; [simpl in *; lia|]. cbn [le_bytes of_le_bytes foldr].
  change (foldr _ 0 ?l) with (of_le_bytes l). rewrite byte_val_of by (apply Z.mod_pos_bound; lia).
  rewrite IH; [rewrite (Z.div_mod z 256) at 3 by lia; lia|].
  rewrite Nat2Z.inj_succ, Z.pow_succ_r in Hz by lia.
  split; [apply Z.div_pos; lia|apply Z.div_lt_upper_bound; lia].
Qed.

Lemma le_bytes_of bs : le_bytes (length bs) (of_le_bytes bs) = bs.
Proof.
  induction bs as [|b bs IH]; [done|]. cbn [length le_bytes of_le_bytes foldr].
  change (foldr _ 0 bs) with (of_le_bytes bs). pose proof (byte_val_range b).
  set (o := of_le_bytes bs) in *.
  replace ((byte_val b + 256 * o) / 256) with o by (rewrite Z.mul_comm, Z.div_add, Z.div_small by lia; lia).
  replace ((byte_val b + 256 * o) mod 256) with (byte_val b)
    by (rewrite Z.mul_comm, Z.mod_add, Z.mod_small by lia; lia).
  by rewrite byte_of_val, IH.
Qed.

Lemma to_le_bytes_inj z z' : 0 <= z <= u64_max -> 0 <= z' <= u64_max ->
  to_le_bytes z = to_le_bytes z' -> z = z'.
Proof.
  unfold u64_max. intros Hz Hz' E. rewrite !to_le_bytes_rec in E. apply (f_equal of_le_bytes) in E.
  rewrite !of_le_bytes_le in E by (simpl; lia). done.
Qed.

Lemma of_le_bytes_range bs : length bs = 8%nat -> 0 <= of_le_bytes bs <= u64_max.
Proof.
  intros H. do 8 (destruct bs as [|? bs]; [done|]). destruct bs; [|done]. unfold of_le_bytes. simpl.
  unfold u64_max. repeat match goal with |- context [byte_val ?b] => pose proof (byte_val_range b);
    generalize dependent (byte_val b); intros end. lia.
Qed.

(** ** The chain *)
Section Chain.
Variable hmac : list ascii -> list ascii.
Abbreviation chain_hash := (chain_hash hmac).
Abbreviation verify_from := (verify_from hmac).
Abbreviation verify := (verify hmac).

Lemma verify_from_cons prev e l :
  verify_from prev (e :: l) = true <->
  prev_hash e = prev /\ hash e = chain_hash prev (seq e) (event e) /\ verify_from (hash e) l = true.
Proof.
  cbn [Waf.verify_from]. destruct (String.eqb_spec (prev_hash e) prev); simpl; [|naive_solver].
  destruct (String.eqb_spec (hash e) (chain_hash prev (seq e) (event e))); simpl; naive_solver.
Qed.

(** The hash the next entry chains to. *)
Definition last_hash (prev : string) (l : list AuditEntry) : string :=
  match last l with Some e => hash e | None => prev end.

Lemma verify_from_snoc prev l e :
  verify_from prev (l ++ [e]) = true <->
  verify_from prev l = true /\ prev_hash e = last_hash prev l
  /\ hash e = chain_hash (last_hash prev l) (seq e) (event e).
Proof.
  revert prev. induction l as [|x l IH]; intros prev.
  - rewrite app_nil_l, verify_from_cons. unfold last_hash. simpl. naive_solver.
  - rewrite <-app_comm_cons, !verify_from_cons, IH.
    assert (last_hash prev (x :: l) = last_hash (hash x) l) as -> by (unfold last_hash; rewrite last_cons; by destruct (last l)).
    tauto.
Qed.

Definition append_all (evs : list string) (l : list AuditEntry) : list AuditEntry :=
  foldl (fun l ev => (append hmac ev l).2) l evs.

Lemma append_eq ev l :
  append hmac ev l =
  let sq := match last l with Some e => wrap_u64 (seq e + 1) | None => 0 end in
  (sq, l ++ [mk_entry sq ev (last_hash "" l) (chain_hash (last_hash "" l) sq ev)]).
Proof. unfold append, last_hash. by destruct (last l). Qed.

Lemma append_all_spec evs :
  Z.of_nat (length evs) <= u64_max ->
  let l := append_all evs [] in
  verify l = true /\ event <$> l = evs /\ seq <$> l = Z.of_nat <$> List.seq 0 (length evs).
Proof.
  induction evs as [|ev evs IH] using rev_ind; intros Hn; [done|]. rewrite length_app in Hn. simpl in Hn.
  destruct IH as (Hv & He & Hs); [lia|]. unfold append_all in *. rewrite foldl_app. cbn [foldl].
  set (l := foldl _ [] evs) in *. rewrite append_eq. cbn [snd].
  assert (match last l with Some e => wrap_u64 (seq e + 1) | None => 0 end = Z.of_nat (length evs)) as ->.
  { assert (Hlast : seq <$> last l = last (Z.of_nat <$> List.seq 0 (length evs))) by (rewrite <-Hs; by rewrite fmap_last).
    destruct (length evs) as [|n]; [by destruct (last l)|]. rewrite seq_S, fmap_app in Hlast.
    cbn [fmap list_fmap] in Hlast. rewrite last_snoc in Hlast.
    destruct (last l) as [e|]; [|done]. injection Hlast as ->. rewrite wrap_u64_small; lia. }
  split_and!.
  - unfold Waf.verify. rewrite verify_from_snoc. done.
  - rewrite fmap_app, He. done.
  - rewrite fmap_app, Hs, length_app. simpl. by rewrite Nat.add_1_r, seq_S, fmap_app.
Qed.

(** What the keyed hash of an entry covers. *)
Definition message (e : AuditEntry) : list ascii :=
  bytes_of (prev_hash e) ++ to_le_bytes (seq e) ++ bytes_of (event e).

(** Two entries with different messages and the same hash. *)
Definition collision (l l' : list AuditEntry) : Prop :=
  exists e e', e ∈ l /\ e' ∈ l' /\ message e <> message e' /\ hmac (message e) = hmac (message e').

Lemma verified_hash e l : e ∈ l -> forall prev, verify_from prev l = true -> hash e = hex (hmac (message e)).
Proof.
  induction 1 as [e l|e x l He IH]; intros prev (Hp & Hh & Hv)%verify_from_cons; [|by eapply IH].
  rewrite Hh. unfold Waf.chain_hash, message. by rewrite Hp.
Qed.

Lemma verified_hash_length l n :
  (forall m, length (hmac m) = n) -> verify l = true -> l <> [] ->
  String.length (last_hash "" l) = (2 * n)%nat.
Proof.
  intros Hn. destruct l as [|e l _] using rev_ind; [done|]. intros Hv _.
  unfold last_hash. rewrite last_snoc, (verified_hash e (l ++ [e])) with (prev := "");
    [by rewrite hex_length, Hn|set_solver|done].
Qed.

Lemma message_inj e e' :
  String.length (prev_hash e) = String.length (prev_hash e') ->
  0 <= seq e <= u64_max -> 0 <= seq e' <= u64_max -> message e = message e' ->
  prev_hash e = prev_hash e' /\ seq e = seq e' /\ event e = event e'.
Proof.
  intros Hlen Hsq Hsq' E. unfold message in E.
  apply app_inj_1 in E as [E1 E]; [|by rewrite !length_bytes].
  apply app_inj_1 in E as [E2 E3]; [|by rewrite !to_le_bytes_rec].
  apply (f_equal str_of) in E1, E3. rewrite !str_of_bytes in E1, E3.
  split_and!; [done| |done]. by apply to_le_bytes_inj in E2.
Qed.

(** Two logs of the same length that verify and end in the same hash are the
    same log, entry for entry, unless two of their entries collide. *)
Lemma chain_unique n l l' :
  (forall m, length (hmac m) = n) ->
  verify l = true -> verify l' = true -> length l = length l' ->
  Forall (fun e => 0 <= seq e <= u64_max) l -> Forall (fun e => 0 <= seq e <= u64_max) l' ->
  last_hash "" l = last_hash "" l' -> l = l' \/ collision l l'.
Proof.
  intros Hn. revert l'. induction l as [|e l IH] using rev_ind; intros l' Hv Hv' Hlen Hr Hr' Hh.
  { left. by destruct l'. }
  destruct l' as [|e' l' _] using rev_ind; [rewrite length_app in Hlen; simpl in Hlen; lia|].
  rewrite !length_app in Hlen. simpl in Hlen. unfold last_hash in Hh. rewrite !last_snoc in Hh.
  pose proof (verified_hash e (l ++ [e]) ltac:(set_solver) _ Hv) as He.
  pose proof (verified_hash e' (l' ++ [e']) ltac:(set_solver) _ Hv') as He'.
  unfold Waf.verify in Hv, Hv'. rewrite verify_from_snoc in Hv, Hv'.
  destruct Hv as (Hv & Hp & _), Hv' as (Hv' & Hp' & _).
  apply Forall_app in Hr as [Hr [Hre _]%Forall_cons]. apply Forall_app in Hr' as [Hr' [Hre' _]%Forall_cons].
  assert (Em : hmac (message e) = hmac (message e')) by (apply hex_inj; congruence).
  destruct (decide (message e = message e')) as [E|E]; [|right; exists e, e'; set_solver].
  apply message_inj in E as (Ep & Es & Ee); [|clear E|done|done].
  2:{ rewrite Hp, Hp'. destruct (decide (l = [])) as [->|Hl]; [destruct l'; [done|simpl in Hlen; lia]|].
      rewrite !(verified_hash_length _ n); try done. intros ->. destruct l; [done|simpl in Hlen; lia]. }
  destruct (IH l') as [->|(x & x' & Hx)]; try done; [lia|congruence| |right; exists x, x'; set_solver].
  left. do 2 f_equal. destruct e, e'; simpl in *; congruence.
Qed.

(** *** A log of its own making, and another one *)
Section Tampered.
Variable n : nat.
Hypothesis hmac_size : forall m, length (hmac m) = S n.

(** A hash is never empty and never starts with a zero byte, unlike the number
    of the first entry. *)
Lemma hash_not_number m rest rest' : bytes_of (hex (hmac m)) ++ rest <> to_le_bytes 0 ++ rest'.
Proof using hmac_size.
  specialize (hmac_size m). destruct (hmac m) as [|b bs]; [done|]. rewrite hex_cons. unfold hex_byte.
  rewrite !append_cons. intros [= E _]. revert E. destruct b as [[] [] [] [] [] [] [] []]; vm_compute; discriminate.
Qed.

(** An entry hashes its own fields, and chains to the one before. *)
Definition chained (l : list AuditEntry) (i : nat) (e : AuditEntry) : Prop :=
  hash e = hex (hmac (message e)) /\ prev_hash e = last_hash "" (take i l).

Lemma verified_chained l i e : verify l = true -> l !! i = Some e -> chained l i e.
Proof using Type.
  intros Hv Hi. split; [eapply verified_hash; [by eapply list_elem_of_lookup_2|exact Hv]|].
  rewrite <-(take_drop_middle l i e Hi) in Hv. revert Hv. generalize (drop (S i) l). intros rest. unfold Waf.verify.
  induction rest as [|x rest IH] using rev_ind; [by intros (_ & ? & _)%verify_from_snoc|].
  change (take i l ++ e :: rest ++ [x]) with (take i l ++ (e :: rest) ++ [x]). rewrite app_assoc.
  intros (H & _)%verify_from_snoc. by apply IH.
Qed.

(** Nothing, or a hash. *)
Lemma last_hash_cases l i e : verify l = true -> l !! i = Some e ->
  last_hash "" (take i l) = match i with O => "" | S k => default "" (hash <$> l !! k) end.
Proof using Type.
  intros _ Hi. destruct i as [|k]; [done|]. apply lookup_lt_Some in Hi. unfold last_hash.
  destruct (lookup_lt_is_Some_2 l k) as [x Hx]; [lia|]. by rewrite (take_S_r _ _ _ Hx), last_snoc, Hx.
Qed.

Lemma before_hash l k e : verify l = true -> l !! S k = Some e ->
  exists p, l !! k = Some p /\ prev_hash e = hash p /\ hash p = hex (hmac (message p)).
Proof using Type.
  intros Hv Hi. destruct (verified_chained l (S k) e Hv Hi) as [_ Hp]. rewrite (last_hash_cases l (S k) e) in Hp by done.
  pose proof (lookup_lt_Some _ _ _ Hi). destruct (lookup_lt_is_Some_2 l k) as [x Hx]; [lia|]. rewrite Hx in Hp.
  exists x. split_and!; [done|done|]. by apply (verified_chained l k).
Qed.

(** The log [l] verifies and numbers its entries from zero. *)
Definition honest (l : list AuditEntry) : Prop :=
  verify l = true /\ seq <$> l = Z.of_nat <$> List.seq 0 (length l) /\ Forall (fun e => 0 <= seq e <= u64_max) l.

Lemma honest_seq l i e : honest l -> l !! i = Some e -> seq e = Z.of_nat i.
Proof using Type.
  intros (_ & Hs & _) Hi. pose proof (lookup_lt_Some _ _ _ Hi).
  assert (E : (seq <$> l) !! i = (Z.of_nat <$> List.seq 0 (length l)) !! i) by (by rewrite Hs).
  rewrite !list_lookup_fmap, Hi, lookup_seq_lt in E by lia. by injection E.
Qed.

Lemma first_entry l e : honest l -> l !! O = Some e -> message e = to_le_bytes 0 ++ bytes_of (event e).
Proof using Type.
  intros Hl Hi. unfold message. rewrite (honest_seq l O e Hl Hi). by destruct (verified_chained l O e (proj1 Hl) Hi) as [_ ->].
Qed.

(** A chained entry and one of the log with the same message are the same. *)
Lemma same_message l i e x p : honest l -> l !! i = Some e -> 0 <= seq x <= u64_max ->
  hash x = hex (hmac (message x)) -> prev_hash x = hex (hmac p) -> message x = message e ->
  x = e /\ exists k, i = S k.
Proof using hmac_size.
  intros Hl Hi Hr Hh Hp E. destruct i as [|k].
  { rewrite (first_entry l e Hl Hi) in E. unfold message in E. rewrite Hp in E. by apply hash_not_number in E. }
  split; [|by exists k]. destruct (before_hash l k e (proj1 Hl) Hi) as (q & _ & Hq & Eq).
  pose proof E as E'. apply message_inj in E as (E1 & E2 & E3); [|by rewrite Hp, Hq, Eq, !hex_length, !hmac_size|done|].
  - destruct (verified_chained l (S k) e (proj1 Hl) Hi) as [He _]. destruct x, e. cbn in *. congruence.
  - destruct Hl as (_ & _ & Hf). rewrite Forall_forall in Hf. by eapply Hf, list_elem_of_lookup_2.
Qed.

(** The entries of the log have different messages. *)
Lemma messages_differ l i j e x : honest l -> l !! i = Some e -> l !! j = Some x -> message x = message e -> i = j.
Proof using hmac_size.
  intros Hl Hi Hj E. assert (Hx : 0 <= seq x <= u64_max).
  { destruct Hl as (_ & _ & Hf). rewrite Forall_forall in Hf. by eapply Hf, list_elem_of_lookup_2. }
  destruct j as [|j].
  - destruct i as [|i]; [done|]. destruct (before_hash l i e (proj1 Hl) Hi) as (q & _ & Hq & Eq).
    rewrite (first_entry l x Hl Hj) in E. unfold message in E. rewrite Hq, Eq in E. symmetry in E. by apply hash_not_number in E.
  - destruct (before_hash l j x (proj1 Hl) Hj) as (q & _ & Hq & Eq).
    destruct (same_message l i e x (message q) Hl Hi Hx) as [-> _]; [|congruence|done|].
    + by apply (verified_chained l (S j) x (proj1 Hl)).
    + apply (honest_seq l _ _ Hl) in Hi, Hj. lia.
Qed.

(** What a log that verifies and is not [l] or a part of it takes: a keyed hash
    of a message [l] never hashed, two messages of [l] with one hash, or a first
    entry, not numbered zero, made of the message of a later one. *)
Definition forged (l l' : list AuditEntry) : Prop :=
  exists e', e' ∈ l' /\ hash e' = hex (hmac (message e')) /\ forall e, e ∈ l -> message e <> message e'.
Definition spliced (l l' : list AuditEntry) : Prop :=
  exists e e' rest, e ∈ l /\ l' = e' :: rest /\ seq e' <> 0 /\ message e = message e' /\ hash e = hash e'.

Lemma chain_pinned l l' : honest l -> Forall (fun e => 0 <= seq e <= u64_max) l' -> verify l' = true ->
  l' `prefix_of` l \/ forged l l' \/ collision l l \/ spliced l l'.
Proof using hmac_size.
  intros Hl. induction l' as [|x l' IH] using rev_ind; intros Hr Hv; [left; apply prefix_nil|].
  pose proof (verified_hash x (l' ++ [x]) ltac:(set_solver) _ Hv) as Hh.
  apply Forall_app in Hr as [Hr [Hx _]%Forall_cons]. unfold Waf.verify in Hv. apply verify_from_snoc in Hv as (Hv & Hp & _).
  destruct (IH Hr Hv) as [Hpre|[(e & He & Hf)|[Hc|(e & e' & rest & He & -> & Hs)]]].
  2:{ right; left. exists e. set_solver. } 2:{ by right; right; left. } 2:{ right; right; right. by exists e, e', (rest ++ [x]). }
  destruct (decide (Exists (fun e => message e = message x) l)) as [(e & Hin & Em)%Exists_exists|Hno].
  2:{ right; left. exists x. split_and!; [set_solver|done|]. intros e Hin Em. apply Hno, Exists_exists. eauto. }
  apply list_elem_of_lookup in Hin as [j Hj]. destruct l' as [|y l' _] using rev_ind.
  - cbn in Hp. destruct j as [|k].
    + left. assert (x = e) as ->.
      { destruct (verified_chained l O e (proj1 Hl) Hj) as [He Hpe]. cbn in Hpe.
        apply message_inj in Em as (E1 & E2 & E3); [|by rewrite Hp, Hpe| |done].
        - destruct x, e. cbn in *. congruence.
        - destruct Hl as (_ & _ & Hf). rewrite Forall_forall in Hf. by eapply Hf, list_elem_of_lookup_2. }
      destruct l; [done|]. injection Hj as ->. cbn. apply prefix_cons, prefix_nil.
    + right; right; right. destruct (before_hash l k e (proj1 Hl) Hj) as (q & _ & Hq & Eq).
      exists e, x, []. split_and!; [by eapply list_elem_of_lookup_2|done| |done|].
      * intros E0. unfold message in Em. rewrite Hp, E0, Hq, Eq in Em. by apply hash_not_number in Em.
      * destruct (verified_chained l (S k) e (proj1 Hl) Hj) as [-> _]. by rewrite Hh, Em.
  - unfold last_hash in Hp. rewrite last_snoc in Hp.
    destruct Hpre as [tail Et]. assert (Hy : l !! length l' = Some y) by (rewrite Et, <-app_assoc; by apply list_lookup_middle).
    destruct (verified_chained l _ y (proj1 Hl) Hy) as [Hyh _]. rewrite Hyh in Hp.
    destruct (same_message l j e x (message y) Hl Hj Hx Hh Hp (eq_sym Em)) as [-> (k & ->)].
    destruct (before_hash l k e (proj1 Hl) Hj) as (q & Hq & Hqp & Hqh).
    destruct (decide (message q = message y)) as [E|E].
    + assert (length l' = k) as <- by (by eapply (messages_differ l)). left.
      rewrite Et, <-!app_assoc in Hj. cbn in Hj. rewrite lookup_app_r in Hj by lia. replace (S (length l') - length l')%nat with 1%nat in Hj by lia.
      cbn in Hj. destruct tail as [|t tail]; [done|]. injection Hj as ->. rewrite Et. apply prefix_app, prefix_cons, prefix_nil.
    + right; right; left. exists q, y. split_and!; [by eapply list_elem_of_lookup_2..|done|]. apply hex_inj. congruence.
Qed.
End Tampered.
End Chain.

(** The audit log is complete and verifiable: after any sequence of
    appended events the chain verifies, and its entries are those events in
    order, numbered from zero. *)
Theorem audit_append_verifies (hmac : list ascii -> list ascii) (events : list string)
    (Hn : Z.of_nat (length events) <= u64_max) :
  let l := append_all hmac events [] in
  verify hmac l = true /\ event <$> l = events /\ seq <$> l = Z.of_nat <$> List.seq 0 (length events).
Proof. by apply append_all_spec. Qed.

Lemma audit_append_verifies_witness :
  let l := append_all (fun m => m) ["login"; "reload"] [] in
  verify (fun m => m) l = true /\ event <$> l = ["login"; "reload"] /\ seq <$> l = [0; 1].
Proof.
  apply (audit_append_verifies (fun m => m) ["login"; "reload"]). vm_compute. discriminate.
Defined.

(** C38. Tamper evidence.  Of the log of any sequence of events, whatever
    stands in its place fails verification, an edit of any field, a removed,
    added or exchanged entry alike, except: the beginning of the log; a log that
    holds the keyed hash of a message the log never hashed, or relies on two
    messages of the log with one hash, neither of which is to be had without the
    key; and a log whose first entry is not numbered zero and is made of a later
    entry of the log, its previous hash read as number and event: the check does
    not look at numbers, and this edit needs no key ([audit_forgeable]). *)
Theorem audit_tamper_evident (hmac : list ascii -> list ascii) (n : nat) (events : list string) (l' : list AuditEntry)
    (Hsize : forall m, length (hmac m) = S n)
    (Hn : Z.of_nat (length events) <= u64_max)
    (Hr' : Forall (fun e => 0 <= seq e <= u64_max) l') :
  let l := append_all hmac events [] in
  verify hmac l = true
  /\ (l' `prefix_of` l \/ verify hmac l' = false
      \/ forged hmac l l' \/ collision hmac l l \/ spliced l l').
Proof.
  cbv zeta. destruct (append_all_spec hmac events Hn) as (Hv & He & Hs). set (l := append_all hmac events []) in *.
  assert (Hlen : length l = length events) by (rewrite <-He; by rewrite length_fmap).
  assert (Hl : honest hmac l).
  { split_and!; [done|by rewrite Hlen|]. apply Forall_forall. intros e Hin. apply list_elem_of_lookup in Hin as [i Hi].
    pose proof (lookup_lt_Some _ _ _ Hi). assert (E : (seq <$> l) !! i = (Z.of_nat <$> List.seq 0 (length events)) !! i) by (by rewrite Hs).
    rewrite !list_lookup_fmap, Hi, lookup_seq_lt in E by lia. injection E as ->. lia. }
  split; [done|]. destruct (verify hmac l') eqn:E; [|by right; left].
  destruct (chain_pinned hmac n Hsize l l' Hl Hr' E) as [?|?]; [by left|by right; right].
Qed.

(** A toy keyed hash of four bytes, to run the log on. *)
Definition toy_hmac (m : list ascii) : list ascii := take 4 (reverse m ++ replicate 4 "0"%char).

Lemma toy_hmac_size m : length (toy_hmac m) = 4%nat.
Proof. unfold toy_hmac. rewrite length_take, length_app, length_replicate. lia. Qed.

(** The second event of a log is changed in place. *)
Definition tampered : list AuditEntry :=
  match append_all toy_hmac ["login"; "reload"] [] with
  | [e0; e1] => [e0; mk_entry (seq e1) "noop" (prev_hash e1) (hash e1)]
  | l => l
  end.

Lemma audit_tamper_evident_witness :
  verify toy_hmac (append_all toy_hmac ["login"; "reload"] []) = true
  /\ tampered <> append_all toy_hmac ["login"; "reload"] [] /\ verify toy_hmac tampered = false.
Proof.
  assert (Hr : Forall (fun e => 0 <= seq e <= u64_max) tampered) by decide_closed.
  assert (Hn : Z.of_nat (length ["login"; "reload"]) <= u64_max) by (vm_compute; discriminate).
  destruct (audit_tamper_evident toy_hmac 3 ["login"; "reload"] tampered toy_hmac_size Hn Hr) as (Hv & H).
  split; [exact Hv|]. split; [vm_compute; discriminate|].
  destruct H as [Hp|[H|[(e & He & Hh & Hf)|[(e & e' & He & He' & Hne & Hc)|(e & e' & rest & _ & E & Hs & _)]]]].
  - apply prefix_length_eq in Hp; [discriminate Hp|cbn; lia].
  - exact H.
  - apply elem_of_cons in He as [->|[->|He]%elem_of_cons]; [|by revert Hh; vm_compute|by apply not_elem_of_nil in He].
    by destruct (Hf (mk_entry 0 "login" "" (chain_hash toy_hmac "" 0 "login")) ltac:(by left)).
  - revert Hne Hc. apply elem_of_cons in He as [->|[->|He]%elem_of_cons]; [| |by apply not_elem_of_nil in He];
      (apply elem_of_cons in He' as [->|[->|He']%elem_of_cons]; [| |by apply not_elem_of_nil in He']); intros Hne Hc;
      first [by destruct Hne | by revert Hc; vm_compute].
  - apply (f_equal (fun l => default 0 (seq <$> head l))) in E. by destruct Hs.
Defined.

(** The hashed message has no length prefix, so the previous hash of the
    second entry can be read as the number and the start of the event of a
    first one. *)
Definition forge (e0 e1 : AuditEntry) : AuditEntry :=
  mk_entry (of_le_bytes (take 8 (bytes_of (hash e0))))
    (str_of (drop 8 (bytes_of (hash e0)) ++ to_le_bytes (seq e1) ++ bytes_of (event e1)))
    "" (hash e1).

Lemma forge_message hmac e0 e1 :
  (8 <= String.length (hash e0))%nat ->
  chain_hash hmac "" (seq (forge e0 e1)) (event (forge e0 e1)) = chain_hash hmac (hash e0) (seq e1) (event e1).
Proof.
  intros Hlen. unfold chain_hash, forge. cbn [seq event bytes_of app].
  rewrite bytes_of_str, to_le_bytes_rec. do 2 f_equal. rewrite app_assoc. f_equal. rewrite <-(take_drop 8 (bytes_of (hash e0))) at 3. f_equal.
  assert (length (take 8 (bytes_of (hash e0))) = 8%nat) as E by (rewrite length_take, length_bytes; lia).
  rewrite <-E at 1. apply le_bytes_of.
Qed.

Lemma utf8_valid_append s t : utf8_valid s = true -> utf8_valid t = true -> utf8_valid (s +:+ t) = true.
Proof.
  intros Hs Ht. apply bool_decide_eq_true in Hs, Ht. rewrite <-Hs, <-Ht.
  assert (of_chars (chars s) +:+ of_chars (chars t) = of_chars (chars s ++ chars t)) as ->.
  { unfold of_chars, utf8_encode. by rewrite bind_app, str_of_app. }
  apply utf8_valid_of_chars. apply Forall_app. split; apply utf8_decode_scalar.
Qed.

(** The log can be edited without the key: the first two entries of a
    verified log can be replaced by a single one, built from their public
    fields, and the chain still verifies, ending in the same hash; after
    entries 0 and 1 the forged event is also a valid Rust string. *)
Theorem audit_forgeable (hmac : list ascii -> list ascii) (e0 e1 : AuditEntry) (rest : list AuditEntry)
    (Hsize : forall m, (4 <= length (hmac m))%nat)
    (Hv : verify hmac (e0 :: e1 :: rest) = true) :
  verify hmac (forge e0 e1 :: rest) = true
  /\ (seq e1 = 1 -> utf8_valid (event e1) = true -> utf8_valid (event (forge e0 e1)) = true).
Proof.
  unfold verify in *. apply verify_from_cons in Hv as (Hp0 & Hh0 & (Hp1 & Hh1 & Hv)%verify_from_cons).
  assert (Hlen : (8 <= String.length (hash e0))%nat).
  { rewrite Hh0. unfold chain_hash. rewrite hex_length. specialize (Hsize (bytes_of "" ++ to_le_bytes (seq e0) ++ bytes_of (event e0))). lia. }
  split.
  - apply verify_from_cons. rewrite forge_message by done. done.
  - intros Hs He. unfold forge; cbn [event]. rewrite Hs, str_of_app, str_of_app.
    repeat apply utf8_valid_append; [| |by rewrite str_of_bytes].
    + apply ascii_valid. rewrite bytes_of_str. apply Forall_drop. rewrite Hh0. apply hex_ascii.
    + vm_compute. reflexivity.
Qed.

Lemma audit_forgeable_witness :
  let l := append_all toy_hmac ["login"; "reload"] [] in
  match l with
  | [e0; e1] => verify toy_hmac [forge e0 e1] = true
      /\ (seq e1 = 1 -> utf8_valid (event e1) = true -> utf8_valid (event (forge e0 e1)) = true)
  | _ => False
  end.
Proof.
  intros l. assert (E : exists e0 e1, l = [e0; e1]) by (vm_compute; by eexists _, _).
  assert (Hv : verify toy_hmac l = true) by (vm_compute; reflexivity).
  destruct E as (e0 & e1 & E). rewrite E in *. apply (audit_forgeable toy_hmac e0 e1 []); [|exact Hv].
  intros m. rewrite toy_hmac_size. lia.
Defined.
