(* ===== verification/Http.v ===== *)
(** * The [http] crate, as an interface

    Header maps and header values are a third-party library: a type class
    states the operations the gateway calls and the documented laws it relies
    on.  An association list with lower-cased names satisfies the laws; the
    witnesses run on it. *)

From Stdlib Require Import ZArith Ascii String Lia.
From stdpp Require Import base option list gmap strings.
From S2P Require Import Prelude RustStr.
Local Open Scope string_scope.
Local Open Scope list_scope.

(** [HeaderMap] and [HeaderValue].  Names are compared without regard to ASCII
    case; [hm_get] gives the first value of a name. *)
Class HeaderOps := {
  HeaderMap : Type;
  HeaderValue : Type;
  (** [HeaderValue::to_str] and [HeaderValue::from_str]. *)
  to_str : HeaderValue -> option string;
  value_from_str : string -> option HeaderValue;
  (** [HeaderValue::from_static], on the visible literals of the source. *)
  value_from_static : string -> HeaderValue;
  (** [HeaderName::try_from]: the canonical (lower-case) name. *)
  name_try_from : string -> option string;
  hm_empty : HeaderMap;
  hm_iter : HeaderMap -> list (string * HeaderValue);
  hm_get : HeaderMap -> string -> option HeaderValue;
  hm_insert : string -> HeaderValue -> HeaderMap -> HeaderMap;
  hm_append : string -> HeaderValue -> HeaderMap -> HeaderMap;
  hm_remove : string -> HeaderMap -> HeaderMap;
}.

Definition hm_contains_key `{HeaderOps} (m : HeaderMap) (name : string) : bool :=
  bool_decide (is_Some (hm_get m name)).

(** [.get(name).and_then(|v| v.to_str().ok())]. *)
Definition get_str `{HeaderOps} (m : HeaderMap) (name : string) : option string :=
  hm_get m name ≫= to_str.

Definition same_name (a b : string) : Prop := to_ascii_lowercase a = to_ascii_lowercase b.
#[global] Instance same_name_dec a b : Decision (same_name a b).
Proof. unfold same_name. apply _. Defined.

(** The values of a name, in order ([get_all]). *)
Definition hm_values `{HeaderOps} (m : HeaderMap) (n : string) : list HeaderValue :=
  snd <$> filter (fun x => same_name x.1 n) (hm_iter m).

Class HeaderLaws `{HeaderOps} := {
  hm_get_values m n : hm_get m n = head (hm_values m n);
  hm_values_empty n : hm_values hm_empty n = [];
  (** [insert] replaces every value of the name, [append] adds one. *)
  hm_values_insert n v m n' :
    hm_values (hm_insert n v m) n' = if decide (same_name n n') then [v] else hm_values m n';
  hm_values_append n v m n' :
    hm_values (hm_append n v m) n' = hm_values m n' ++ if decide (same_name n n') then [v] else [];
  hm_values_remove n m n' :
    hm_values (hm_remove n m) n' = if decide (same_name n n') then [] else hm_values m n';
  (** Names are stored in lower case. *)
  hm_iter_lower m x : x ∈ hm_iter m -> to_ascii_lowercase x.1 = x.1;
  (** A value that [from_str] accepts reads back as its text. *)
  to_str_from_str s v : value_from_str s = Some v -> to_str v = Some s;
  to_str_from_static s : value_from_str s = Some (value_from_static s) \/ value_from_str s = None;
  (** [from_str] accepts visible ASCII. *)
  value_from_str_visible s :
    Forall (fun c => 32 <= byte_val c < 127)%Z (bytes_of s) -> is_Some (value_from_str s);
  name_try_from_same s n : name_try_from s = Some n -> same_name s n;
  (** Text has no control character apart from the tab. *)
  to_str_visible v s : to_str v = Some s ->
    Forall (fun c => c = "009"%char \/ (32 <= byte_val c < 127)%Z) (bytes_of s);
}.

Section Get.
Context `{HeaderLaws}.

Lemma hm_get_empty n : hm_get hm_empty n = None.
Proof. by rewrite hm_get_values, hm_values_empty. Qed.

Lemma hm_get_insert n v m n' :
  hm_get (hm_insert n v m) n' = if decide (same_name n n') then Some v else hm_get m n'.
Proof. rewrite !hm_get_values, hm_values_insert. by case_decide. Qed.

Lemma hm_get_remove n m n' :
  hm_get (hm_remove n m) n' = if decide (same_name n n') then None else hm_get m n'.
Proof. rewrite !hm_get_values, hm_values_remove. by case_decide. Qed.

Lemma hm_get_append n v m n' :
  hm_get (hm_append n v m) n' =
  if decide (same_name n n') then Some (default v (hm_get m n')) else hm_get m n'.
Proof.
  rewrite !hm_get_values, hm_values_append. case_decide; [|by rewrite app_nil_r].
  by destruct (hm_values m n').
Qed.

Lemma hm_values_same m n n' : same_name n n' -> hm_values m n = hm_values m n'.
Proof.
  intros Hn. unfold hm_values. f_equal. apply list_filter_iff. intros x. unfold same_name in *. by rewrite Hn.
Qed.

Lemma hm_get_same m n n' : same_name n n' -> hm_get m n = hm_get m n'.
Proof. intros Hn. by rewrite !hm_get_values, (hm_values_same m n n' Hn). Qed.
End Get.

(** ** The association-list instance *)
Module ListHeaders.
Definition visible (s : string) : bool :=
  forallb (fun c => Ascii.eqb c "009"%char || ((32 <=? byte_val c) && (byte_val c <? 127))%Z) (bytes_of s).

Definition liter (m : list (string * string)) : list (string * string) :=
  (fun x => (to_ascii_lowercase x.1, x.2)) <$> m.
Definition lvalues (m : list (string * string)) (n : string) : list string :=
  snd <$> filter (fun x => same_name x.1 n) (liter m).
Definition lremove (n : string) (m : list (string * string)) : list (string * string) :=
  filter (fun x => ~ same_name x.1 n) m.

Definition list_headers : HeaderOps := {|
  HeaderMap := list (string * string);
  HeaderValue := string;
  to_str v := if visible v then Some v else None;
  value_from_str s := if visible s then Some s else None;
  value_from_static s := s;
  name_try_from s := if s =? "" then None else Some (to_ascii_lowercase s);
  hm_empty := [];
  hm_iter := liter;
  hm_get m n := head (lvalues m n);
  hm_insert n v m := (n, v) :: lremove n m;
  hm_append n v m := m ++ [(n, v)];
  hm_remove := lremove;
|}.

Lemma map_str_idemp (f : ascii -> ascii) s : (forall c, f (f c) = f c) -> map_str f (map_str f s) = map_str f s.
Proof. intros Hf. induction s as [|c s IH]; [done|]. simpl. by rewrite Hf, IH. Qed.

Lemma to_lower1_idemp c : to_lower1 (to_lower1 c) = to_lower1 c.
Proof. destruct c as [[] [] [] [] [] [] [] []]; reflexivity. Qed.

Lemma lowercase_same n : same_name (to_ascii_lowercase n) n.
Proof. apply map_str_idemp, to_lower1_idemp. Qed.

Lemma lvalues_cons x m n :
  lvalues (x :: m) n = (if decide (same_name x.1 n) then [x.2] else []) ++ lvalues m n.
Proof.
  unfold lvalues. cbn [liter fmap list_fmap]. rewrite filter_cons. cbn [fst].
  pose proof (lowercase_same x.1) as Hl. unfold same_name in *.
  destruct (decide (to_ascii_lowercase x.1 = to_ascii_lowercase n)) as [E|E].
  - rewrite decide_True by congruence. done.
  - rewrite decide_False by congruence. done.
Qed.

Lemma lvalues_app m m' n : lvalues (m ++ m') n = lvalues m n ++ lvalues m' n.
Proof.
  induction m as [|x m IH]; [done|]. rewrite <-app_comm_cons, !lvalues_cons, IH. by rewrite app_assoc.
Qed.

Lemma lvalues_remove n m n' :
  lvalues (lremove n m) n' = if decide (same_name n n') then [] else lvalues m n'.
Proof.
  induction m as [|x m IH]; [by case_decide|]. unfold lremove in *. rewrite filter_cons, lvalues_cons.
  destruct (decide (~ same_name x.1 n)) as [Hx|Hx]; rewrite ?lvalues_cons, IH; clear IH;
    unfold same_name in *; repeat case_decide; simpl; try done; exfalso; try congruence.
  - apply dec_stable in Hx. congruence.
Qed.

Lemma list_laws : @HeaderLaws list_headers.
Proof.
  split; simpl.
  - done.
  - done.
  - intros n v m n'. change (lvalues ((n, v) :: lremove n m) n' = if decide (same_name n n') then [v] else lvalues m n').
    rewrite lvalues_cons, lvalues_remove. simpl. by case_decide.
  - intros n v m n'. change (lvalues (m ++ [(n, v)]) n' = lvalues m n' ++ if decide (same_name n n') then [v] else []).
    rewrite lvalues_app, lvalues_cons. simpl. by rewrite app_nil_r.
  - intros n m n'. apply lvalues_remove.
  - intros m x (y & -> & _)%list_elem_of_fmap. simpl. apply lowercase_same.
  - intros s v. destruct (visible s) eqn:E; [|done]. intros [= <-]. by rewrite E.
  - intros s. destruct (visible s); auto.
  - intros s Hs. assert (visible s = true) as ->; [|by eexists]. apply forallb_forall. intros c Hc.
    rewrite List.Forall_forall in Hs. specialize (Hs c Hc). apply orb_true_iff. right. lia.
  - intros s n. destruct (s =? ""); [done|]. intros [= <-]. unfold same_name. by rewrite lowercase_same.
  - intros v s. destruct (visible v) eqn:E; [|done]. intros [= <-].
    unfold visible in E. apply List.Forall_forall. intros c Hc. rewrite forallb_forall in E. specialize (E c Hc).
    apply orb_true_iff in E as [E|E]; [left; by apply Ascii.eqb_eq|right; lia].
Qed.
End ListHeaders.
