(* ===== verification/Cache.v ===== *)
(** * [pulsate-cache]: the HTTP cache

    [lib.rs].  [Instant] and [Duration] are nanoseconds and the clock reading
    of an operation is an argument; sizes are byte counts.  The order in which
    [HashMap::iter] yields the entries is a parameter. *)

From Stdlib Require Import ZArith Ascii String Lia.
From stdpp Require Import base option list gmap strings.
From S2P Require Import Prelude RustStr UtilParse Http.
Local Open Scope string_scope.
Local Open Scope list_scope.
Local Open Scope Z_scope.

Module Cache.

Record CacheConfig := mk_config {
  default_ttl : Duration;
  methods : list string;
  vary : list string;
  stale_while_revalidate : Duration;
  max_entries : nat;
  max_body_bytes : Z;
  max_total_bytes : Z;
}.

Definition default_config : CacheConfig :=
  mk_config (from_secs 60) ["GET"; "HEAD"] [] 0 (Z.to_nat 10000) (Z.shiftl 1 20) (Z.shiftl 256 20).

Inductive Freshness := Fresh | Stale.

Record Hit := mk_hit {
  hit_status : Z;
  hit_headers : list (string * string);
  hit_body : list ascii;
  age_secs : Z;
  freshness : Freshness;
}.

Record Entry := mk_entry {
  status : Z;
  headers : list (string * string);
  body : list ascii;
  stored_at : Z;
  ttl : Duration;
  swr : Duration;
  tags : list string;
}.

Record Inner := mk_inner { map : gmap string Entry; bytes : Z }.

Definition blen (b : list ascii) : Z := Z.of_nat (length b).

Definition inner_remove (key : string) (i : Inner) : option Entry * Inner :=
  match map i !! key with
  | Some e => (Some e, mk_inner (delete key (map i)) (saturating_sub (bytes i) (blen (body e))))
  | None => (None, i)
  end.

(** ** The store *)
Definition store_new : Inner := mk_inner ∅ 0.
Definition store_len (i : Inner) : nat := size (map i).
Definition store_is_empty (i : Inner) : bool := (store_len i =? 0)%nat.
Definition store_bytes (i : Inner) : Z := bytes i.

Definition has_tag (tag : string) (e : Entry) : bool := existsb (fun t => t =? tag)%string (tags e).

(** Sum of the body lengths of a map. *)
Definition total (m : gmap string Entry) : Z := map_fold (fun _ e acc => blen (body e) + acc) 0 m.

Definition purge_tag (tag : string) (i : Inner) : nat * Inner :=
  let before := size (map i) in
  let kept := filter (fun x => has_tag tag x.2 = false) (map i) in
  let freed := total (filter (fun x => has_tag tag x.2 = true) (map i)) in
  ((before - size kept)%nat, mk_inner kept (saturating_sub (bytes i) freed)).

Definition clear (i : Inner) : Inner := mk_inner ∅ 0.

(** ** Header parsing *)
Section Headers.
Context `{HeaderOps}.

Definition cache_control (h : HeaderMap) : gmap string string :=
  match get_str h "cache-control" with
  | None => ∅
  | Some v =>
    foldl (fun out part =>
      let part := trim part in
      if (part =? "")%string then out
      else
        let '(k, val) := default (part, "") (split_once "=" part) in
        <[to_ascii_lowercase (trim k) := trim_matches (fun c => Ascii.eqb c "034"%char) (trim val)]> out)
      ∅ (split_char "," v)
  end.

Definition parse_tags (h : HeaderMap) : list string :=
  let v := match hm_get h "cache-tag" with Some v => Some v | None => hm_get h "x-cache-tag" end in
  match v ≫= to_str with
  | Some v => filter (fun t => t <> "") (trim <$> split_char "," v)
  | None => []
  end.

(** ** The cache layer *)
Variable config : CacheConfig.

Fixpoint vary_key (req : HeaderMap) (names : list string) : string :=
  match names with
  | [] => ""
  | name :: rest =>
    String "010"%char (name +:+ "=" +:+ default "" (get_str req name) +:+ vary_key req rest)
  end.

Definition key (method host target : string) (req : HeaderMap) : string :=
  method +:+ String "010"%char (host +:+ String "010"%char (target +:+ vary_key req (vary config))).

Definition request_allows_cache (method : string) (req : HeaderMap) : bool :=
  if negb (existsb (fun m => eq_ignore_ascii_case m method) (methods config)) then false
  else negb (bool_decide (is_Some (cache_control req !! "no-store"))).

(** [Duration + Duration] panics on overflow. *)
Definition duration_add {E} (a b : Duration) : exec E Duration :=
  if a + b <=? duration_max then Ok (a + b) else Panic.

Definition lookup (now : Z) (k : string) (i : Inner) : exec () (option Hit * Inner) :=
  match map i !! k with
  | None => Ok (None, i)
  | Some e =>
    let age := saturating_sub now (stored_at e) in
    let hit f := mk_hit (status e) (headers e) (body e) (as_secs age) f in
    if age <=? ttl e then Ok (Some (hit Fresh), i)
    else
      limit ← duration_add (ttl e) (swr e);
      if age <=? limit then Ok (Some (hit Stale), i)
      else Ok (None, (inner_remove k i).2)
  end.

(** A [Vary] field the key does not cover. *)
Definition vary_refused (field : string) : bool :=
  let field := trim field in
  if (field =? "")%string then false
  else (field =? "*")%string || negb (existsb (fun v => eq_ignore_ascii_case v field) (vary config)).

Definition cacheable_ttl (st : Z) (h : HeaderMap) : option Duration :=
  if negb (st =? 200) then None
  else if hm_contains_key h "set-cookie" then None
  else if match get_str h "vary" with
          | Some v => existsb vary_refused (split_char "," v)
          | None => false
          end then None
  else
    let cc := cache_control h in
    if bool_decide (is_Some (cc !! "no-store")) || bool_decide (is_Some (cc !! "private")) then None
    else if bool_decide (is_Some (cc !! "no-cache")) then Some 0
    else
      match (match cc !! "s-maxage" with Some s => Some s | None => cc !! "max-age" end)
            ≫= parse_unsigned u64_max with
      | Some secs => Some (from_secs secs)
      | None => Some (default_ttl config)
      end.

(** [HashMap::iter]: each entry once, in an order of its own. *)
Variable iter : gmap string Entry -> list (string * Entry).

(** [Iterator::min_by_key]: the first of the least. *)
Definition oldest (m : gmap string Entry) : option string :=
  fst <$> foldl (fun acc x =>
    match acc with
    | None => Some x
    | Some y => if stored_at x.2 <? stored_at y.2 then Some x else Some y
    end) None (iter m).

Fixpoint evict_until_fits (fuel : nat) (incoming budget : Z) (i : Inner) : exec () Inner :=
  if bytes i + incoming <=? budget then Ok i
  else
    match oldest (map i) with
    | None => Ok i
    | Some k =>
      match fuel with
      | O => OutOfFuel
      | S n =>
        match inner_remove k i with
        | (None, i') => Ok i'
        | (Some _, i') => evict_until_fits n incoming budget i'
        end
      end
    end.

Definition stored_headers (h : HeaderMap) : list (string * string) :=
  omap (fun '(n, v) => s ← to_str v; Some (n, s)) (hm_iter h).

Definition maybe_store (now : Z) (k : string) (st : Z) (h : HeaderMap) (b : list ascii) (i : Inner)
    : exec () (bool * Inner) :=
  match cacheable_ttl st h with
  | None => Ok (false, i)
  | Some ttl =>
    if max_body_bytes config <? blen b then Ok (false, i)
    else
      let i := (inner_remove k i).2 in
      if (max_entries config <=? size (map i))%nat then Ok (false, i)
      else
        i ← evict_until_fits (size (map i)) (blen b) (max_total_bytes config) i;
        if max_total_bytes config <? bytes i + blen b then Ok (false, i)
        else
          Ok (true, mk_inner (<[k := mk_entry st (stored_headers h) b now ttl
                                       (stale_while_revalidate config) (parse_tags h)]> (map i))
                             (bytes i + blen b))
  end.
End Headers.
End Cache.
