(* ===== verification/CacheProps.v ===== *)
(** * Properties of [pulsate-cache] *)

From Stdlib Require Import ZArith Ascii String Lia.
From stdpp Require Import base option list gmap strings.
From S2P Require Import Prelude RustStr UtilParse Http Cache.
Import Cache.
Local Open Scope string_scope.
Local Open Scope list_scope.
Local Open Scope Z_scope.

(** ** The byte total *)
Lemma total_empty : total ∅ = 0.
Proof. done. Qed.

Lemma total_insert m k e : m !! k = None -> total (<[k := e]> m) = blen (body e) + total m.
Proof. intros Hk. unfold total. rewrite map_fold_insert_L; [done| |done]. intros. lia. Qed.

Lemma total_delete m k e : m !! k = Some e -> total m = blen (body e) + total (delete k m).
Proof.
  intros Hk. rewrite <-(insert_delete_id m k e Hk) at 1. apply total_insert, lookup_delete_eq.
Qed.

Lemma total_nonneg m : 0 <= total m.
Proof.
  induction m as [|k e m Hk IH] using map_ind; [done|]. rewrite total_insert by done. unfold blen. lia.
Qed.

Lemma total_filter (P : string * Entry -> Prop) `{forall x, Decision (P x)} m :
  total m = total (filter P m) + total (filter (fun x => ~ P x) m).
Proof.
  induction m as [|k e m Hk IH] using map_ind; [by rewrite !map_filter_empty|].
  rewrite total_insert, IH by done. destruct (decide (P (k, e))) as [HP|HP].
  - rewrite map_filter_insert_True, total_insert by (done || (apply map_lookup_filter_None; auto)).
    rewrite map_filter_insert_not' by (naive_solver congruence). lia.
  - rewrite map_filter_insert_not' by (naive_solver congruence).
    rewrite map_filter_insert_True, total_insert by (done || (apply map_lookup_filter_None; auto)). lia.
Qed.

Lemma inner_remove_spec k i :
  bytes i = total (map i) ->
  map (inner_remove k i).2 = delete k (map i)
  /\ bytes (inner_remove k i).2 = total (map (inner_remove k i).2).
Proof.
  intros Hb. unfold inner_remove. destruct (map i !! k) as [e|] eqn:E; simpl.
  - split; [done|]. unfold saturating_sub. rewrite Hb, (total_delete _ _ _ E).
    pose proof (total_nonneg (delete k (map i))). lia.
  - by rewrite delete_id.
Qed.

Lemma purge_total tag i : bytes i = total (map i) -> bytes (purge_tag tag i).2 = total (map (purge_tag tag i).2).
Proof.
  intros Hb. unfold purge_tag, saturating_sub; simpl. rewrite Hb.
  rewrite (total_filter (fun x => has_tag tag x.2 = true) (map i)) at 1.
  assert (filter (fun x => ~ has_tag tag x.2 = true) (map i) = filter (fun x => has_tag tag x.2 = false) (map i)) as ->.
  { apply map_filter_ext. intros k e _. simpl. by rewrite not_true_iff_false. }
  pose proof (total_nonneg (filter (fun x => has_tag tag x.2 = false) (map i))). lia.
Qed.

Lemma has_tag_spec tag e : has_tag tag e = false <-> tag ∉ tags e.
Proof.
  unfold has_tag. rewrite <-not_true_iff_false, existsb_exists. split.
  - intros Hn Hin. apply Hn. exists tag. rewrite <-list_elem_of_In, String.eqb_refl. done.
  - intros Hn (t & Ht & ->%String.eqb_eq). by rewrite <-list_elem_of_In in Ht.
Qed.

(** ** Eviction *)
Section Evict.
Variable iter : gmap string Entry -> list (string * Entry).
Hypothesis iter_perm : forall m, iter m ≡ₚ map_to_list m.

Lemma min_fold (l : list (string * Entry)) acc :
  let r := foldl (fun acc x => match acc with
    | None => Some x
    | Some y => if stored_at x.2 <? stored_at y.2 then Some x else Some y
    end) acc l in
  match r with
  | None => acc = None /\ l = []
  | Some x => (acc = Some x \/ x ∈ l)
              /\ (forall y, acc = Some y \/ y ∈ l -> stored_at x.2 <= stored_at y.2)
  end.
Proof.
  revert acc. induction l as [|x l IH]; intros acc; simpl.
  { destruct acc; [|done]. split; [by left|]. intros y [?|?]; [simplify_eq; lia|set_solver]. }
  specialize (IH (match acc with None => Some x
    | Some y => if stored_at x.2 <? stored_at y.2 then Some x else Some y end)).
  simpl in IH. destruct (foldl _ _ l) as [z|].
  - destruct IH as [Hz Hmin]. split.
    + destruct acc as [y|]; [|set_solver]. destruct (stored_at x.2 <? stored_at y.2); set_solver.
    + intros w Hw. destruct acc as [y|].
      * destruct (Z.ltb_spec (stored_at x.2) (stored_at y.2)) as [Hlt|Hge].
        -- pose proof (Hmin x (or_introl eq_refl)). destruct Hw as [[= <-]|Hw]; [lia|].
           apply elem_of_cons in Hw as [->|Hw]; [lia|]. apply Hmin. by right.
        -- pose proof (Hmin y (or_introl eq_refl)). destruct Hw as [[= <-]|Hw]; [lia|].
           apply elem_of_cons in Hw as [->|Hw]; [lia|]. apply Hmin. by right.
      * pose proof (Hmin x (or_introl eq_refl)). destruct Hw as [?|Hw]; [done|].
        apply elem_of_cons in Hw as [->|Hw]; [lia|]. apply Hmin. by right.
  - destruct IH as [IH _]. destruct acc as [y|]; [|done]. by destruct (_ <? _).
Qed.

Lemma oldest_spec m :
  match oldest iter m with
  | None => m = ∅
  | Some k => exists e, m !! k = Some e
      /\ forall k' e', m !! k' = Some e' -> stored_at e <= stored_at e'
  end.
Proof.
  unfold oldest. pose proof (min_fold (iter m) None) as Hf. cbv zeta in Hf.
  destruct (foldl _ None (iter m)) as [[k e]|]; simpl.
  - destruct Hf as [[?|Hin] Hmin]; [done|]. rewrite iter_perm, elem_of_map_to_list in Hin.
    exists e. split; [done|]. intros k' e' He'. apply (Hmin (k', e')). right.
    by rewrite iter_perm, elem_of_map_to_list.
  - destruct Hf as [_ Hf]. pose proof (iter_perm m) as Hp. rewrite Hf in Hp.
    symmetry in Hp. apply Permutation_nil_r in Hp. by apply map_to_list_empty_iff.
Qed.

(** What an eviction leaves: a part of the entries, none of them older than
    one that is gone, which leaves room for the incoming body. *)
Definition evicted (incoming budget : Z) (i i' : Inner) : Prop :=
  map i' ⊆ map i /\ bytes i' = total (map i')
  /\ (bytes i' + incoming <= budget \/ map i' = ∅)
  /\ (forall k e k' e', map i !! k = Some e -> map i' !! k = None -> map i' !! k' = Some e' ->
        stored_at e <= stored_at e').

Lemma evict_spec fuel incoming budget i :
  (size (map i) <= fuel)%nat -> bytes i = total (map i) ->
  exec_spec (evict_until_fits iter fuel incoming budget i) (evicted incoming budget i) (fun _ => False) False.
Proof.
  revert i. induction fuel as [|fuel IH]; intros i Hf Hb; cbn [evict_until_fits];
    (destruct (Z.leb_spec (bytes i + incoming) budget); [unfold evicted; naive_solver|]);
    pose proof (oldest_spec (map i)) as Ho; (destruct (oldest iter (map i)) as [k|]; [|unfold evicted; naive_solver]);
    destruct Ho as (e & He & Hmin).
  - assert (map i = ∅) as E by (apply map_size_empty_inv; lia). rewrite E in He. by apply lookup_empty_Some in He.
  - destruct (inner_remove_spec k i Hb) as [Em Eb]. destruct (inner_remove k i) as [r i1] eqn:Er. simpl in *.
    assert (r = Some e) as ->. { unfold inner_remove in Er. rewrite He in Er. by injection Er. }
    eapply exec_spec_mono; [apply IH; [|done]| |done|done].
    { rewrite Em. rewrite map_size_delete, He. simpl. lia. }
    intros i' (Hsub & Hb' & Hfit & Hold). rewrite Em in *. split_and!; [|done|done|].
    + etrans; [exact Hsub|apply delete_subseteq].
    + intros k1 e1 k2 e2 H1 H1' H2. destruct (decide (k1 = k)) as [->|Hne].
      * assert (e1 = e) as -> by congruence. apply (Hmin k2).
        apply (lookup_weaken _ (delete k (map i))) in H2; [|done]. by apply lookup_delete_Some in H2 as [_ ?].
      * apply (Hold k1 e1 k2 e2); [by rewrite lookup_delete_ne|done|done].
Qed.
End Evict.

(** ** Every sequence of operations *)
Section Run.
Context `{HeaderOps}.
Variable config : CacheConfig.
Variable iter : gmap string Entry -> list (string * Entry).
Hypothesis iter_perm : forall m, iter m ≡ₚ map_to_list m.

(** The public operations, with the clock where they read it. *)
Inductive op :=
| OpLookup (now : Z) (k : string)
| OpStore (now : Z) (k : string) (st : Z) (h : HeaderMap) (b : list ascii)
| OpPurge (tag : string)
| OpClear.

Definition cache_step (o : op) (i : Inner) : exec () Inner :=
  match o with
  | OpLookup now k => '(_, i') ← lookup now k i; Ok i'
  | OpStore now k st h b => '(_, i') ← maybe_store config iter now k st h b i; Ok i'
  | OpPurge tag => Ok (purge_tag tag i).2
  | OpClear => Ok (clear i)
  end.

Fixpoint run_ops (ops : list op) (i : Inner) : exec () Inner :=
  match ops with
  | [] => Ok i
  | o :: rest => i' ← cache_step o i; run_ops rest i'
  end.

(** The clock is not negative and within [Duration] of the stale window. *)
Definition clock_ok (o : op) : Prop :=
  match o with
  | OpLookup now _ | OpStore now _ _ _ _ => 0 <= now /\ now + stale_while_revalidate config <= duration_max
  | _ => True
  end.

(** The store agrees with its byte count, is within its three limits, and
    holds only responses that may be cached. *)
Definition entry_ok (e : Entry) : Prop :=
  status e = 200 /\ blen (body e) <= max_body_bytes config /\ 0 <= stored_at e
  /\ swr e = stale_while_revalidate config.
Definition store_ok (i : Inner) : Prop :=
  bytes i = total (map i) /\ total (map i) <= max_total_bytes config
  /\ (size (map i) <= max_entries config)%nat /\ map_Forall (fun _ e => entry_ok e) (map i).

Lemma total_subseteq (m m' : gmap string Entry) : m ⊆ m' -> total m <= total m'.
Proof.
  revert m'. induction m as [|k e m Hk IH] using map_ind; intros m' Hsub; [apply total_nonneg|].
  assert (m' !! k = Some e) as Hk' by (eapply lookup_weaken; [apply lookup_insert_eq|done]).
  rewrite total_insert, (total_delete m' k e) by done.
  assert (total m <= total (delete k m')); [|lia]. apply IH.
  rewrite <-(delete_insert_id m k e Hk). by apply delete_mono.
Qed.

Lemma store_ok_subseteq i m :
  store_ok i -> m ⊆ map i -> forall b, b = total m -> store_ok (mk_inner m b).
Proof.
  intros (Hb & Ht & Hs & Hf) Hsub b ->. split_and!; simpl; [done| | |].
  - apply total_subseteq in Hsub. lia.
  - apply map_subseteq_size in Hsub. lia.
  - intros k e He. apply (Hf k). by eapply lookup_weaken.
Qed.

Lemma inner_remove_ok k i : store_ok i -> store_ok (inner_remove k i).2.
Proof.
  intros Hok. destruct (inner_remove_spec k i (proj1 Hok)) as [Em Eb].
  destruct (inner_remove k i).2 as [m b]. simpl in *. subst m.
  apply (store_ok_subseteq i); [done|apply delete_subseteq|done].
Qed.

Lemma cacheable_200 st h t : cacheable_ttl config st h = Some t -> st = 200.
Proof. unfold cacheable_ttl. by destruct (Z.eqb_spec st 200). Qed.

Lemma maybe_store_spec now k st h b i :
  store_ok i -> 0 <= now ->
  exec_spec (maybe_store config iter now k st h b i)
    (fun '(stored, i') => store_ok i'
      /\ (forall k' e, k' <> k \/ stored = false -> map i' !! k' = Some e -> map i !! k' = Some e)
      /\ (stored = true -> exists t, cacheable_ttl config st h = Some t
            /\ map i' !! k = Some (mk_entry st (stored_headers h) b now t
                                     (stale_while_revalidate config) (parse_tags h))))
    (fun _ => False) False.
Proof.
  intros Hok Hnow. unfold maybe_store. destruct (cacheable_ttl config st h) as [t|] eqn:Et; [|naive_solver].
  apply cacheable_200 in Et as Hst. destruct (Z.ltb_spec (max_body_bytes config) (blen b)); [naive_solver|].
  pose proof (inner_remove_ok k i Hok) as Hok1. destruct (inner_remove_spec k i (proj1 Hok)) as [Em _].
  set (i1 := (inner_remove k i).2) in *.
  assert (Hback : forall k' e, map i1 !! k' = Some e -> map i !! k' = Some e).
  { intros k' e. rewrite Em. by intros [_ ?]%lookup_delete_Some. }
  destruct (Nat.leb_spec (max_entries config) (size (map i1))) as [|Hsz]; [simpl; naive_solver|].
  eapply exec_spec_bind; [apply evict_spec; [done|lia|apply Hok1]|].
  intros i2 (Hsub & Hb2 & Hfit & Hold).
  assert (Hok2 : store_ok i2).
  { destruct i2 as [m2 b2]. simpl in *. by apply (store_ok_subseteq i1). }
  assert (Hback2 : forall k' e, map i2 !! k' = Some e -> map i !! k' = Some e).
  { intros k' e He. eapply Hback, lookup_weaken; done. }
  destruct (Z.ltb_spec (max_total_bytes config) (bytes i2 + blen b)); simpl; [naive_solver|].
  assert (Hk2 : map i2 !! k = None).
  { destruct (map i2 !! k) as [e|] eqn:E; [|done]. eapply lookup_weaken in E; [|exact Hsub].
    rewrite Em, lookup_delete_eq in E. done. }
  split_and!.
  - destruct Hok2 as (Hb & Ht & Hs & Hf). split_and!; simpl.
    + rewrite total_insert by done. simpl. lia.
    + rewrite total_insert by done. simpl. lia.
    + rewrite map_size_insert_None by done. apply map_subseteq_size in Hsub. lia.
    + apply map_Forall_insert_2; [|done]. unfold entry_ok. simpl. lia.
  - simpl. intros k' e [Hne|?]; [|done]. rewrite lookup_insert_ne by done. apply Hback2.
  - intros _. exists t. simpl. by rewrite lookup_insert_eq.
Qed.

Lemma lookup_ok now k i :
  store_ok i -> 0 <= now -> now + stale_while_revalidate config <= duration_max ->
  exec_spec (lookup now k i) (fun '(_, i') => store_ok i') (fun _ => False) False.
Proof.
  intros Hok Hnow Hmax. unfold lookup. destruct (map i !! k) as [e|] eqn:E; [|done].
  assert (entry_ok e) as (_ & _ & Hs & Hw) by (destruct Hok as (_ & _ & _ & Hf); by apply (Hf k)).
  destruct (Z.leb_spec (saturating_sub now (stored_at e)) (ttl e)) as [|Hage]; [done|].
  unfold duration_add. destruct (Z.leb_spec (ttl e + swr e) duration_max) as [|Hov].
  - simpl. destruct (_ <=? _); [done|by apply inner_remove_ok].
  - simpl. unfold saturating_sub in Hage. rewrite Hw in Hov. lia.
Qed.

Lemma purge_ok tag i : store_ok i -> store_ok (purge_tag tag i).2.
Proof.
  intros Hok. apply (store_ok_subseteq i); [done|apply map_filter_subseteq|]. by apply purge_total, Hok.
Qed.

Lemma run_ops_spec ops i :
  store_ok i -> Forall clock_ok ops ->
  exec_spec (run_ops ops i) store_ok (fun _ => False) False.
Proof.
  intros Hok Hc. revert i Hok. induction Hc as [|o ops Ho _ IH]; intros i Hok; [done|].
  cbn [run_ops]. apply (exec_spec_bind _ _ _ _ _ store_ok); [|exact IH].
  destruct o as [now k|now k st h b|tag|]; simpl in *.
  - destruct Ho. eapply exec_spec_bind; [by apply lookup_ok|]. by intros [? ?].
  - destruct Ho. eapply exec_spec_bind; [by apply maybe_store_spec|]. intros [? ?]. simpl. tauto.
  - by apply purge_ok.
  - destruct Hok as (_ & Ht & _). pose proof (total_nonneg (map i)). split_and!; simpl.
    + done.
    + rewrite total_empty. lia.
    + rewrite map_size_empty. lia.
    + apply map_Forall_empty.
Qed.
(** *** The fate of an entry *)

(** What the stores of a history bring in. *)
Definition intake (ops : list op) : Z :=
  foldr (fun o acc => match o with OpStore _ _ _ _ b => blen b + acc | _ => acc end) 0 ops.

(** An operation that does not concern the entry [e] of [k]: a lookup of it
    within its lifetime, a store under another key, a purge of another tag. *)
Definition spares (k : string) (e : Entry) (o : op) : Prop :=
  match o with
  | OpLookup now k' => k' = k -> saturating_sub now (stored_at e) <= ttl e
  | OpStore _ k' _ _ _ => k' <> k
  | OpPurge tag => tag ∉ tags e
  | OpClear => False
  end.

(** The entry that a store of [k] makes. *)
Definition made_by (k : string) (e : Entry) (o : op) : Prop :=
  match o with
  | OpStore now k' st h b => k' = k /\ exists t, cacheable_ttl config st h = Some t
      /\ e = mk_entry st (stored_headers h) b now t (stale_while_revalidate config) (parse_tags h)
  | _ => False
  end.

Lemma intake_cons o ops : intake (o :: ops) = intake [o] + intake ops.
Proof. unfold intake. destruct o; cbn [foldr]; lia. Qed.
Lemma intake_nonneg ops : 0 <= intake ops.
Proof.
  induction ops as [|o ops IH]; [done|]. rewrite intake_cons. destruct o; cbn [intake foldr]; unfold blen; lia.
Qed.

Lemma evict_fits fuel incoming i : bytes i + incoming <= max_total_bytes config ->
  evict_until_fits iter fuel incoming (max_total_bytes config) i = Ok i.
Proof. intros Hf. destruct fuel; cbn [evict_until_fits]; by rewrite (proj2 (Z.leb_le _ _)). Qed.

Lemma store_ok_bytes i : store_ok i -> 0 <= bytes i.
Proof. intros [-> _]. apply total_nonneg. Qed.

Lemma saturating_sub_le a b : 0 <= a -> 0 <= b -> saturating_sub a b <= a.
Proof. unfold saturating_sub. lia. Qed.

Lemma inner_remove_bytes k i : store_ok i -> bytes (inner_remove k i).2 <= bytes i.
Proof.
  intros Hok%store_ok_bytes. unfold inner_remove. destruct (map i !! k); simpl; [|lia].
  apply saturating_sub_le; [done|]. unfold blen. lia.
Qed.

Lemma lookup_store now k i r i' : lookup now k i = Ok (r, i') ->
  i' = i \/ exists e, map i !! k = Some e /\ ttl e < saturating_sub now (stored_at e) /\ i' = (inner_remove k i).2.
Proof.
  unfold lookup. destruct (map i !! k) as [e|]; [|intros [= _ <-]; by left].
  destruct (Z.leb_spec (saturating_sub now (stored_at e)) (ttl e)); [intros [= _ <-]; by left|].
  intros (limit & _ & Hr)%bind_Ok. destruct (_ <=? limit); injection Hr as _ <-; [by left|right; by exists e].
Qed.

(** A hit is the entry of its key, at an age that its lifetime and its stale
    window allow. *)
Lemma lookup_hit now k i hit i' : lookup now k i = Ok (Some hit, i') ->
  exists e, map i !! k = Some e /\ saturating_sub now (stored_at e) <= Z.max (ttl e) (ttl e + swr e)
    /\ hit = mk_hit (status e) (headers e) (body e) (as_secs (saturating_sub now (stored_at e)))
               (if saturating_sub now (stored_at e) <=? ttl e then Fresh else Stale).
Proof.
  unfold lookup. destruct (map i !! k) as [e|]; [|done].
  destruct (Z.leb_spec (saturating_sub now (stored_at e)) (ttl e)) as [Ha|Ha].
  - intros [= <- _]. exists e. rewrite (proj2 (Z.leb_le _ _)) by done. split_and!; [done|lia|done].
  - intros (limit & Hl & Hr)%bind_Ok. unfold duration_add in Hl. destruct (_ <=? duration_max); [|done]. injection Hl as <-.
    destruct (Z.leb_spec (saturating_sub now (stored_at e)) (ttl e + swr e)); [|done]. injection Hr as <- _.
    exists e. rewrite (proj2 (Z.leb_gt _ _)) by done. split_and!; [done|lia|done].
Qed.

Lemma op_step_ok o i i' : store_ok i -> clock_ok o -> cache_step o i = Ok i' -> store_ok i'.
Proof.
  intros Hok Hc Hs. pose proof (run_ops_spec [o] i Hok ltac:(by constructor)) as Hr. cbn [run_ops] in Hr. by rewrite Hs in Hr.
Qed.

(** An entry stays while the operations spare it and there is room. *)
Lemma step_kept o i i' k e : store_ok i -> cache_step o i = Ok i' -> map i !! k = Some e -> spares k e o ->
  bytes i + intake [o] <= max_total_bytes config -> map i' !! k = Some e /\ bytes i' <= bytes i + intake [o].
Proof.
  intros Hok Hs Hk Hsp Hroom.
  destruct o as [now k'|now k' st h b|tag|]; cbn [cache_step spares intake foldr] in *; [| | |done].
  - apply bind_Ok in Hs as ([r i1] & [->|(e' & He' & Hage & ->)]%lookup_store & [= <-]); [split; [done|lia]|].
    pose proof (inner_remove_bytes k' i Hok). split; [|lia]. destruct (inner_remove_spec k' i (proj1 Hok)) as [-> _].
    destruct (decide (k' = k)) as [->|Hne]; [|by rewrite lookup_delete_ne]. rewrite Hk in He'. injection He' as <-.
    specialize (Hsp eq_refl). lia.
  - apply bind_Ok in Hs as ([stored i1] & Hm & [= <-]). unfold maybe_store in Hm.
    assert (Hb : 0 <= blen b) by (unfold blen; lia). pose proof (inner_remove_bytes k' i Hok) as Hrb.
    assert (Hk1 : map (inner_remove k' i).2 !! k = Some e).
    { destruct (inner_remove_spec k' i (proj1 Hok)) as [-> _]. by rewrite lookup_delete_ne. }
    destruct (cacheable_ttl config st h); [|injection Hm as _ <-; split; [done|lia]].
    destruct (_ <? blen b); [injection Hm as _ <-; split; [done|lia]|].
    destruct (_ <=? _)%nat; [injection Hm as _ <-; split; [done|lia]|].
    rewrite evict_fits in Hm by lia. cbn [mbind exec_bind] in Hm.
    destruct (_ <? _); injection Hm as _ <-; [split; [done|lia]|]. cbn [map bytes]. split; [by rewrite lookup_insert_ne|lia].
  - injection Hs as <-. unfold purge_tag. cbn [snd map bytes]. split.
    + apply map_lookup_filter_Some. split; [done|]. by apply has_tag_spec.
    + rewrite Z.add_0_r. apply saturating_sub_le; [by apply store_ok_bytes|apply total_nonneg].
Qed.

Lemma run_kept ops k e : forall i i', store_ok i -> Forall clock_ok ops -> run_ops ops i = Ok i' -> map i !! k = Some e ->
  Forall (spares k e) ops -> bytes i + intake ops <= max_total_bytes config -> map i' !! k = Some e.
Proof.
  induction ops as [|o ops IH]; intros i i' Hok Hc Hr Hk Hsp Hroom; [by injection Hr as <-|].
  cbn [run_ops] in Hr. apply bind_Ok in Hr as (i1 & Hs & Hr). apply Forall_cons in Hc as [Ho Hc], Hsp as [Hso Hsp].
  rewrite intake_cons in Hroom.
  pose proof (intake_nonneg ops). destruct (step_kept o i i1 k e Hok Hs Hk Hso) as [Hk1 Hb1]; [lia|].
  eapply (IH i1); [by eapply op_step_ok|done|exact Hr|exact Hk1|done|lia].
Qed.

(** An entry was there before, or was made by a store of the history. *)
Lemma step_source o i i' k e : store_ok i -> clock_ok o -> cache_step o i = Ok i' -> map i' !! k = Some e ->
  map i !! k = Some e \/ made_by k e o.
Proof.
  intros Hok Hc Hs Hk. destruct o as [now k'|now k' st h b|tag|]; cbn [cache_step made_by] in *.
  - apply bind_Ok in Hs as ([r i1] & [->|(e' & _ & _ & ->)]%lookup_store & [= <-]); [by left|left].
    destruct (inner_remove_spec k' i (proj1 Hok)) as [E _]. rewrite E in Hk. by apply lookup_delete_Some in Hk as [_ ?].
  - apply bind_Ok in Hs as ([stored i1] & Hm & [= <-]). pose proof (maybe_store_spec now k' st h b i Hok (proj1 Hc)) as Hspec.
    rewrite Hm in Hspec. destruct Hspec as (_ & Hback & Hst). destruct (decide (k' = k)) as [->|Hne]; [|left; apply (Hback k); [by left|done]].
    destruct stored; [|left; apply (Hback k); [by right|done]]. right. split; [done|].
    destruct (Hst eq_refl) as (t & Ht & Hk'). rewrite Hk' in Hk. injection Hk as <-. by exists t.
  - injection Hs as <-. left. by apply map_lookup_filter_Some in Hk as [? _].
  - injection Hs as <-. cbn [clear map] in Hk. by apply lookup_empty_Some in Hk.
Qed.

Lemma run_source ops k e : forall i i', store_ok i -> Forall clock_ok ops -> run_ops ops i = Ok i' -> map i' !! k = Some e ->
  map i !! k = Some e \/ exists o, o ∈ ops /\ made_by k e o.
Proof.
  induction ops as [|o ops IH]; intros i i' Hok Hc Hr Hk; [injection Hr as <-; by left|].
  cbn [run_ops] in Hr. apply bind_Ok in Hr as (i1 & Hs & Hr). apply Forall_cons in Hc as [Ho Hc].
  destruct (IH i1 i' (op_step_ok o i i1 Hok Ho Hs) Hc Hr Hk) as [Hk1|(o' & Hin & Hm)]; [|right; exists o'; split; [by right|done]].
  destruct (step_source o i i1 k e Hok Ho Hs Hk1) as [?|Hm]; [by left|right; exists o; split; [by left|done]].
Qed.
End Run.

(** C16. The store never outgrows its configuration: after any sequence of
    lookups, stores, purges and clears, none of which panics or fails to
    terminate, the byte count is the sum of the stored bodies and at most
    [max_total_bytes], there are at most [max_entries] entries, and every entry
    is a 200 response of at most [max_body_bytes]. *)
Theorem cache_within_budget `{HeaderOps} (config : CacheConfig)
    (iter : gmap string Entry -> list (string * Entry)) (ops : list op)
    (Hiter : forall m, iter m ≡ₚ map_to_list m) (Hmax : 0 <= max_total_bytes config)
    (Hclock : Forall (clock_ok config) ops) :
  exec_spec (run_ops config iter ops store_new) (store_ok config) (fun _ => False) False.
Proof.
  apply run_ops_spec; [done| |done]. split_and!; simpl.
  - done.
  - by rewrite total_empty.
  - rewrite map_size_empty. lia.
  - apply map_Forall_empty.
Qed.

Definition small_config : CacheConfig := mk_config (from_secs 60) ["GET"] ["accept"] 0 2 10 16.

(** C17. What is stored is what is served: a response accepted by
    [maybe_store] is found under its key, with the same status, headers and
    body and its age in seconds, fresh for its lifetime, stale for the
    revalidation window after it, and no longer. *)
Theorem cache_store_lookup `{HeaderOps} (config : CacheConfig)
    (iter : gmap string Entry -> list (string * Entry)) (now later : Z) (k : string)
    (st : Z) (h : HeaderMap) (b : list ascii) (i i' : Inner)
    (Hiter : forall m, iter m ≡ₚ map_to_list m) (Hok : store_ok config i) (Hnow : 0 <= now <= later)
    (Hmax : later + stale_while_revalidate config <= duration_max)
    (Hstore : maybe_store config iter now k st h b i = Ok (true, i')) :
  exists t, cacheable_ttl config st h = Some t /\
  let age := later - now in
  let hit f := mk_hit st (stored_headers h) b (as_secs age) f in
  (age <= t -> lookup later k i' = Ok (Some (hit Fresh), i'))
  /\ (t < age <= t + stale_while_revalidate config -> lookup later k i' = Ok (Some (hit Stale), i'))
  /\ (Z.max t (t + stale_while_revalidate config) < age ->
        exists i'', lookup later k i' = Ok (None, i'') /\ map i'' = delete k (map i')).
Proof.
  pose proof (maybe_store_spec config iter Hiter now k st h b i Hok (proj1 Hnow)) as Hs.
  rewrite Hstore in Hs. destruct Hs as (Hok' & _ & Hs). destruct (Hs eq_refl) as (t & Ht & Hk).
  exists t. split; [done|]. cbv zeta. unfold lookup. rewrite Hk. simpl.
  assert (saturating_sub later now = later - now) as -> by (unfold saturating_sub; lia).
  unfold duration_add. split_and!; intros Hage.
  - by rewrite (proj2 (Z.leb_le _ _)) by lia.
  - rewrite (proj2 (Z.leb_gt _ _)) by lia. rewrite (proj2 (Z.leb_le _ _)) by lia. simpl.
    by rewrite (proj2 (Z.leb_le _ _)) by lia.
  - rewrite (proj2 (Z.leb_gt _ _)) by lia. rewrite (proj2 (Z.leb_le _ _)) by lia. simpl.
    rewrite (proj2 (Z.leb_gt _ _)) by lia. eexists. split; [done|].
    by apply inner_remove_spec, Hok'.
Qed.

(** ** Cache keys *)
Definition no_newline (s : string) : Prop := ~ ("010"%char ∈ bytes_of s).

(** A text that continues a line-free prefix: nothing, or a new line. *)
Definition line_end (s : string) : Prop := s = "" \/ exists r, s = String "010"%char r.

Lemma line_split a a' r r' :
  no_newline a -> no_newline a' -> line_end r -> line_end r' -> a +:+ r = a' +:+ r' -> a = a' /\ r = r'.
Proof.
  unfold no_newline. intros Ha Ha' Hr Hr'. revert a' Ha'.
  induction a as [|c a IH]; intros [|c' a'] Ha'; rewrite ?append_nil_l, ?append_cons; simpl in *.
  - done.
  - intros ->. exfalso. destruct Hr as [?|[? [= -> _]]]; [done|set_solver].
  - intros <-. exfalso. destruct Hr' as [?|[? [= -> _]]]; [done|set_solver].
  - intros [= <- E]. destruct (IH ltac:(set_solver) a' ltac:(set_solver) E) as [-> ->]. done.
Qed.

Lemma append_inj_l p s t : p +:+ s = p +:+ t -> s = t.
Proof. induction p as [|c p IH]; rewrite ?append_nil_l, ?append_cons; [done|]. intros [= E]. auto. Qed.

Section Key.
Context `{HeaderOps} `{!HeaderLaws}.

Lemma get_str_no_newline h n : no_newline (default "" (get_str h n)).
Proof.
  unfold no_newline, get_str. destruct (hm_get h n) as [v|]; [|set_solver]. simpl.
  destruct (to_str v) as [s|] eqn:E; [|set_solver]. simpl. intros Hin.
  apply to_str_visible in E. rewrite Forall_forall in E. apply E in Hin as [?|Hr]; [done|]. vm_compute in Hr.
  by destruct Hr as [Hr _].
Qed.

Lemma vary_key_end req names : line_end (vary_key req names).
Proof. destruct names; [by left|right; by eexists]. Qed.

Lemma vary_key_inj req req' names :
  vary_key req names = vary_key req' names ->
  Forall (fun n => default "" (get_str req n) = default "" (get_str req' n)) names.
Proof.
  induction names as [|n names IH]; [constructor|]. cbn [vary_key]. intros [= E].
  apply append_inj_l, append_inj_l, line_split in E as [E1 E2];
    [by constructor; auto|apply get_str_no_newline|apply get_str_no_newline|apply vary_key_end|apply vary_key_end].
Qed.
End Key.

(** No cache poisoning through the key: two requests share a key only
    when method, host and full target are equal and they agree on every
    configured [Vary] header. *)
Theorem cache_key_injective `{HeaderOps} `{!HeaderLaws} (config : CacheConfig)
    (m h t m' h' t' : string) (req req' : HeaderMap)
    (Hm : no_newline m) (Hh : no_newline h) (Ht : no_newline t)
    (Hm' : no_newline m') (Hh' : no_newline h') (Ht' : no_newline t')
    (Hkey : key config m h t req = key config m' h' t' req') :
  m = m' /\ h = h' /\ t = t'
  /\ Forall (fun n => default "" (get_str req n) = default "" (get_str req' n)) (vary config).
Proof.
  unfold key in Hkey. apply line_split in Hkey as [-> Hkey]; [|done|done|right; by eexists..].
  injection Hkey as Hkey. apply line_split in Hkey as [-> Hkey]; [|done|done|right; by eexists..].
  injection Hkey as Hkey. apply line_split in Hkey as [-> Hkey]; [|done|done|apply vary_key_end..].
  split_and!; [done..|]. by apply vary_key_inj.
Qed.

(** Purging a tag removes exactly the entries that carry it, reports how
    many they were, and gives their bytes back. *)
Theorem purge_exact (tag : string) (i : Inner) (Hb : bytes i = total (map i)) :
  let '(removed, i') := purge_tag tag i in
  (forall k e, map i' !! k = Some e <-> map i !! k = Some e /\ tag ∉ tags e)
  /\ (removed + size (map i'))%nat = size (map i)
  /\ bytes i' = total (map i').
Proof.
  pose proof (purge_total tag i Hb) as Ht. unfold purge_tag in *. split_and!; [| |exact Ht].
  - intros k e. simpl. rewrite map_lookup_filter_Some. simpl. by rewrite has_tag_spec.
  - simpl. pose proof (map_subseteq_size _ _ (map_filter_subseteq (fun x => has_tag tag x.2 = false) (map i))). lia.
Qed.

Definition tagged_store : Inner :=
  mk_inner {["a" := mk_entry 200 [] (bytes_of "hi") 0 0 0 ["t"]]} 2.

(** Only the first [Cache-Control] line counts: a further line, such as
    [no-store], changes neither the directives nor the decision to cache. *)
Theorem second_cache_control_ignored `{HeaderOps} `{!HeaderLaws} (config : CacheConfig) (st : Z)
    (h : HeaderMap) (v first : HeaderValue) (Hfirst : hm_get h "cache-control" = Some first) :
  cache_control (hm_append "cache-control" v h) = cache_control h
  /\ cacheable_ttl config st (hm_append "cache-control" v h) = cacheable_ttl config st h.
Proof.
  assert (E : forall n, hm_get (hm_append "cache-control" v h) n = hm_get h n).
  { intros n. rewrite hm_get_append. case_decide as Hn; [|done].
    rewrite <-(hm_get_same h _ _ Hn), Hfirst. done. }
  assert (Ec : cache_control (hm_append "cache-control" v h) = cache_control h)
    by (unfold cache_control, get_str; by rewrite E).
  split; [done|]. unfold cacheable_ttl, hm_contains_key, get_str. by rewrite !E, Ec.
Qed.

(** The credentials of a request do not count: unless [vary] names the header,
    a request with an [Authorization] shares its entries with one without. *)
Lemma credentials_shared `{HeaderOps} `{!HeaderLaws} (config : CacheConfig) (m host t : string) (req : HeaderMap) (v : HeaderValue) :
  Forall (fun n => ~ same_name "authorization" n) (vary config) ->
  key config m host t (hm_insert "authorization" v req) = key config m host t req
  /\ request_allows_cache config m (hm_insert "authorization" v req) = request_allows_cache config m req.
Proof.
  intros Hv. split.
  - unfold key. assert (E : vary_key (hm_insert "authorization" v req) (vary config) = vary_key req (vary config)); [|by rewrite E].
    induction Hv as [|n names Hn _ IH]; [done|]. cbn [vary_key]. unfold get_str in *.
    rewrite hm_get_insert, decide_False by done. by rewrite IH.
  - unfold request_allows_cache, cache_control, get_str. rewrite hm_get_insert, decide_False; [done|]. vm_compute. discriminate.
Qed.

(** ** On concrete inputs *)
Section Witnesses.
#[local] Existing Instance ListHeaders.list_headers.
#[local] Existing Instance ListHeaders.list_laws.

Lemma cache_within_budget_witness :
  let ops := [OpStore 0 "a" 200 [("cache-control", "max-age=5")] (bytes_of "0123456789");
              OpStore 1 "b" 200 [] (bytes_of "0123456789"); OpLookup 7 "a"; OpClear] in
  exec_spec (run_ops small_config map_to_list ops store_new) (store_ok small_config) (fun _ => False) False.
Proof.
  intros ops. apply (cache_within_budget small_config map_to_list ops); [done|vm_compute; discriminate|].
  unfold ops. repeat constructor; vm_compute; discriminate.
Defined.

Lemma cache_store_lookup_witness :
  exists t, cacheable_ttl small_config 200 ([] : @HeaderMap ListHeaders.list_headers) = Some t.
Proof.
  destruct (cache_store_lookup small_config map_to_list 0 1 "a" 200 ([] : @HeaderMap ListHeaders.list_headers) (bytes_of "hi")
    store_new (mk_inner {["a" := mk_entry 200 [] (bytes_of "hi") 0 (from_secs 60) 0 []]} 2)) as (t & Ht & _).
  - done.
  - split_and!; [reflexivity|vm_compute; discriminate|vm_compute; lia|apply map_Forall_empty].
  - lia.
  - vm_compute. discriminate.
  - vm_compute. reflexivity.
  - by exists t.
Defined.

Lemma cache_key_injective_witness :
  Forall (fun n => default "" (get_str ([("accept", "a")] : @HeaderMap ListHeaders.list_headers) n)
                   = default "" (get_str ([("x", "y"); ("accept", "a")] : @HeaderMap ListHeaders.list_headers) n))
    (vary small_config).
Proof.
  apply (cache_key_injective small_config "GET" "h" "/p" "GET" "h" "/p"
    ([("accept", "a")] : @HeaderMap ListHeaders.list_headers) ([("x", "y"); ("accept", "a")] : @HeaderMap ListHeaders.list_headers));
    unfold no_newline; decide_closed.
Defined.

Lemma purge_exact_witness :
  let '(removed, i') := purge_tag "t" tagged_store in
  (forall k e, map i' !! k = Some e <-> map tagged_store !! k = Some e /\ "t" ∉ tags e)
  /\ (removed + size (map i'))%nat = size (map tagged_store) /\ bytes i' = total (map i').
Proof. apply (purge_exact "t" tagged_store). vm_compute. reflexivity. Defined.

Lemma second_cache_control_ignored_witness :
  cacheable_ttl small_config 200 (hm_append "cache-control" "no-store" ([("cache-control", "max-age=5")] : @HeaderMap ListHeaders.list_headers))
  = cacheable_ttl small_config 200 ([("cache-control", "max-age=5")] : @HeaderMap ListHeaders.list_headers).
Proof.
  apply (second_cache_control_ignored small_config 200 ([("cache-control", "max-age=5")] : @HeaderMap ListHeaders.list_headers)
    "no-store" "max-age=5"). vm_compute. reflexivity.
Defined.

(** A response that must be revalidated before each use ([no-cache]) is stored
    with no lifetime, and served without asking its origin for as long as the
    stale window lasts. *)
Example no_cache_served_stale :
  let config := mk_config (from_secs 60) ["GET"] [] (from_secs 30) 2 10 16 in
  let response := [("cache-control", "no-cache, must-revalidate")] : @HeaderMap ListHeaders.list_headers in
  match maybe_store config map_to_list 0 "a" 200 response (bytes_of "hi") store_new with
  | Ok (stored, i) => stored = true
      /\ lookup (from_secs 20) "a" i = Ok (Some (mk_hit 200 response (bytes_of "hi") 20 Stale), i)
  | _ => False
  end.
Proof. vm_compute. split; reflexivity. Qed.
End Witnesses.
