(* ===== verification/Message.v ===== *)
(** * [pulsate-core]: the normalized messages

    [message.rs].  Statuses and versions are numbers; headers are those of the
    [http] interface. *)

From Stdlib Require Import ZArith Ascii String Lia.
From stdpp Require Import base option list gmap strings.
From S2P Require Import Prelude RustStr CoreTypes Http.
Local Open Scope string_scope.
Local Open Scope list_scope.
Local Open Scope Z_scope.

(** [Version::HTTP_11]. *)
Definition HTTP_11 : Z := 11.

(** [StatusCode::from_u16]: three-digit statuses. *)
Definition status_from_u16 (s : Z) : option Z := if in_range 100 999 s then Some s else None.

Section Message.
Context `{HeaderOps}.

Record Request := mk_request {
  req_method : string;
  req_uri : string;
  req_version : Z;
  req_headers : HeaderMap;
  req_body : Body;
}.

Record Response := mk_response {
  resp_status : Z;
  resp_version : Z;
  resp_headers : HeaderMap;
  resp_body : Body;
}.

Definition response_new (status : Z) : Response := mk_response status HTTP_11 hm_empty BodyEmpty.
Definition with_body (r : Response) (body : string) : Response :=
  mk_response (resp_status r) (resp_version r) (resp_headers r) (body_from body).
(** What a write through [headers_mut] does to the response. *)
Definition headers_mut (f : HeaderMap -> HeaderMap) (r : Response) : Response :=
  mk_response (resp_status r) (resp_version r) (f (resp_headers r)) (resp_body r).
Definition response_default : Response := response_new 200.
End Message.
