(* ===== verification/Context.v ===== *)
(** * [pulsate-core]: the request context and the extension seams

    [context.rs] and the parts of [traits.rs] that have a behaviour.  The typed
    extensions map holds, under a type identifier, a value with its type; a
    universe of types [El], indexed by identifier, stands for [Any], and
    [downcast] compares identifiers. *)

From Stdlib Require Import ZArith String Lia.
From stdpp Require Import base option list gmap strings.
From S2P Require Import Prelude RustStr CoreTypes Http Message.
Local Open Scope list_scope.

Module Context.

(** [RequestId]. *)
Record RequestId := request_id_new { rid_as_str : string }.
Definition request_id_display (r : RequestId) : string := rid_as_str r.

(** ** Extensions *)
Section Extensions.
Context {TypeId : Type} `{Countable TypeId}.
Context (El : TypeId -> Type).

(** [Box<dyn Any>]: a value and the identifier of its type. *)
Record Any := any { type_id : TypeId; contents : El type_id }.

Definition downcast (t : TypeId) (a : Any) : option (El t) :=
  match decide (type_id a = t) with
  | left e => Some (eq_rect (type_id a) El (contents a) t e)
  | right _ => None
  end.

Abbreviation Extensions := (gmap TypeId Any).
Definition extensions_new : Extensions := ∅.

(** [HashMap::insert] returns the value it replaces. *)
Definition ext_insert (t : TypeId) (v : El t) (m : Extensions) : option (El t) * Extensions :=
  (m !! t ≫= downcast t, <[t := any t v]> m).
Definition ext_get (t : TypeId) (m : Extensions) : option (El t) := m !! t ≫= downcast t.
(** A write [f] through [get_mut]. *)
Definition ext_get_mut (t : TypeId) (f : El t -> El t) (m : Extensions) : Extensions :=
  match m !! t ≫= downcast t with
  | Some v => <[t := any t (f v)]> m
  | None => m
  end.
Definition ext_debug_len (m : Extensions) : nat := size m.

(** ** The context *)
Context `{HeaderOps}.

Record RequestCtx := mk_ctx {
  request : Request;
  response : option Response;
  ctx_snapshot : ConfigSnapshot;
  request_id : RequestId;
  stage : Stage.Stage;
  extensions : Extensions
}.

Definition ctx_new (request : Request) (snapshot : ConfigSnapshot) (request_id : RequestId) : RequestCtx :=
  mk_ctx request None snapshot request_id Stage.Decode extensions_new.
Definition request_mut (f : Request -> Request) (c : RequestCtx) : RequestCtx :=
  mk_ctx (f (request c)) (response c) (ctx_snapshot c) (request_id c) (stage c) (extensions c).
Definition set_response (r : Response) (c : RequestCtx) : RequestCtx :=
  mk_ctx (request c) (Some r) (ctx_snapshot c) (request_id c) (stage c) (extensions c).
Definition set_stage (s : Stage.Stage) (c : RequestCtx) : RequestCtx :=
  mk_ctx (request c) (response c) (ctx_snapshot c) (request_id c) s (extensions c).
Definition extensions_mut (f : Extensions -> Extensions) (c : RequestCtx) : RequestCtx :=
  mk_ctx (request c) (response c) (ctx_snapshot c) (request_id c) (stage c) (f (extensions c)).

(** ** The middleware seam *)
Inductive Flow := Continue | ShortCircuit.

Class Middleware (M : Type) := {
  mw_name : M -> string;
  on_request : M -> RequestCtx -> (PulsateError + Flow) * RequestCtx;
  on_response : M -> RequestCtx -> (PulsateError + unit) * RequestCtx
}.
(** The phases a middleware does not opt into. *)
Definition default_on_request {M} (_ : M) (c : RequestCtx) : (PulsateError + Flow) * RequestCtx := (inr Continue, c).
Definition default_on_response {M} (_ : M) (c : RequestCtx) : (PulsateError + unit) * RequestCtx := (inr tt, c).

(** ** What may happen to a context *)
Inductive CtxOp :=
| OpRequest (f : Request -> Request)
| OpResponse (r : Response)
| OpStage (s : Stage.Stage)
| OpInsert (t : TypeId) (v : El t)
| OpGetMut (t : TypeId) (f : El t -> El t).

Definition apply_op (c : RequestCtx) (o : CtxOp) : RequestCtx :=
  match o with
  | OpRequest f => request_mut f c
  | OpResponse r => set_response r c
  | OpStage s => set_stage s c
  | OpInsert t v => extensions_mut (fun m => (ext_insert t v m).2) c
  | OpGetMut t f => extensions_mut (ext_get_mut t f) c
  end.

(** A map is well typed when every value is stored under its own type. *)
Definition typed (m : Extensions) : Prop := map_Forall (fun t a => type_id a = t) m.

Lemma downcast_any t v : downcast t (any t v) = Some v.
Proof.
  unfold downcast. cbn. destruct (decide (t = t)) as [e|]; [|done]. by rewrite (proof_irrel e eq_refl).
Qed.

Lemma downcast_typed t a : type_id a = t -> is_Some (downcast t a).
Proof. intros <-. destruct a as [t v]. rewrite downcast_any. by eexists. Qed.

Lemma typed_insert t v m : typed m -> typed (<[t := any t v]> m).
Proof. intros Hm. by apply map_Forall_insert_2. Qed.

Lemma typed_op c o : typed (extensions c) -> typed (extensions (apply_op c o)).
Proof.
  intros Hm. destruct o as [f|r|s|t v|t f]; cbn; [done..|by apply typed_insert|].
  unfold ext_get_mut. destruct (_ ≫= _); [by apply typed_insert|done].
Qed.

Lemma ext_get_insert t v m t' :
  ext_get t' (ext_insert t v m).2 = match decide (t = t') with left e => Some (eq_rect t El v t' e) | right _ => ext_get t' m end.
Proof.
  unfold ext_get, ext_insert. cbn [snd]. destruct (decide (t = t')) as [<-|Hne].
  - rewrite lookup_insert_eq. cbn [mbind option_bind]. apply downcast_any.
  - by rewrite lookup_insert_ne.
Qed.

(** The value [get] gives after an operation, from the one before. *)
Definition get_after (o : CtxOp) (t : TypeId) (before : option (El t)) : option (El t) :=
  match o with
  | OpInsert t' v => match decide (t' = t) with left e => Some (eq_rect t' El v t e) | right _ => before end
  | OpGetMut t' f => match decide (t' = t) with left e => eq_rect t' (fun t => El t -> El t) f t e <$> before | right _ => before end
  | _ => before
  end.

Lemma get_op c o t : ext_get t (extensions (apply_op c o)) = get_after o t (ext_get t (extensions c)).
Proof.
  destruct o as [f|r|s|t' v|t' f]; cbn; [done..|apply ext_get_insert|].
  unfold ext_get_mut. destruct (decide (t' = t)) as [<-|Hne]; cbn.
  - fold (ext_get t' (extensions c)). destruct (ext_get t' (extensions c)) eqn:E; cbn; [|done].
    unfold ext_get. rewrite lookup_insert_eq. cbn [mbind option_bind]. apply downcast_any.
  - fold (ext_get t' (extensions c)). destruct (ext_get t' (extensions c)); [|done].
    unfold ext_get. by rewrite lookup_insert_ne.
Qed.

(** C40. The context of a request is well typed and pinned.  After any
    operations on a fresh context, every extension is stored under its own
    type, so that a lookup finds a value exactly when the type has an entry;
    what it finds is the last value inserted for the type with the writes since
    applied, whatever was done to other types; and the snapshot and the
    identifier are those the context was made with. *)
Theorem extensions_typed (r : Request) (snap : ConfigSnapshot) (rid : RequestId) (ops : list CtxOp) :
  let c := foldl apply_op (ctx_new r snap rid) ops in
  typed (extensions c)
  /\ (forall t, is_Some (ext_get t (extensions c)) <-> is_Some (extensions c !! t))
  /\ (forall t, ext_get t (extensions c) = foldl (fun before o => get_after o t before) None ops)
  /\ (forall t v, (ext_insert t v (extensions c)).1 = ext_get t (extensions c))
  /\ ctx_snapshot c = snap /\ request_id c = rid.
Proof.
  cbv zeta.
  assert (Ht : forall c, typed (extensions c) -> typed (extensions (foldl apply_op c ops))).
  { induction ops as [|o ops IH]; intros c Hc; [done|]. apply IH. by apply typed_op. }
  specialize (Ht (ctx_new r snap rid) ltac:(apply map_Forall_empty)).
  split_and!; [done| | |done| |].
  - intros t. unfold ext_get. destruct (extensions _ !! t) as [a|] eqn:E; cbn; [|done].
    split; [by eexists|]. intros _. apply downcast_typed. exact (Ht t a E).
  - intros t. clear Ht.
    assert (H1 : forall c, ext_get t (extensions (foldl apply_op c ops))
        = foldl (fun before o => get_after o t before) (ext_get t (extensions c)) ops).
    { induction ops as [|o ops IH]; intros c; [done|]. cbn [foldl]. by rewrite IH, get_op. }
    by rewrite H1.
  - clear Ht. assert (H1 : forall c, ctx_snapshot (foldl apply_op c ops) = ctx_snapshot c); [|by rewrite H1].
    induction ops as [|o ops IH]; intros c; [done|]. cbn [foldl]. rewrite IH. by destruct o.
  - clear Ht. assert (H1 : forall c, request_id (foldl apply_op c ops) = request_id c); [|by rewrite H1].
    induction ops as [|o ops IH]; intros c; [done|]. cbn [foldl]. rewrite IH. by destruct o.
Qed.
End Extensions.
End Context.
