(* ===== verification/Pipeline.v ===== *)
(** * [pulsate-pipeline]: ingress and egress middleware

    [lib.rs].  A rate limiter is shared behind an [Arc]: a middleware holds
    the address of its limiter in a store that the run threads, so that two
    routes with the same address share one budget.  The clock reading of each
    limiter check is an argument, by position in the pipeline. *)

From Stdlib Require Import ZArith Ascii String Lia.
From stdpp Require Import base option list gmap strings.
From S2P Require Import Prelude RustStr RustNet CoreTypes UtilParse Http Message Waf.
Local Open Scope string_scope.
Local Open Scope list_scope.
Local Open Scope Z_scope.

Record Cors := mk_cors {
  origins : list string;
  cors_methods : list string;
  credentials : bool;
}.

Inductive Mw :=
| MStripPrefix (prefix : string)
| MHeaders (set : list (string * string)) (remove : list string)
| MCors (c : Cors)
| MRateLimit (limiter : nat) (key : string)
| MWaf (engine : Mode.Mode)
| MIp (acl : IpAcl).

(** [Debug for Mw]; the quoting of a prefix is that of [{:?}], a parameter. *)
Definition mw_debug (debug_str : string -> string) (m : Mw) : string :=
  match m with
  | MStripPrefix p => "StripPrefix(" +:+ debug_str p +:+ ")"
  | MHeaders _ _ => "Headers"
  | MCors _ => "Cors"
  | MRateLimit _ key => "RateLimit(key=" +:+ key +:+ ")"
  | MWaf _ => "Waf"
  | MIp _ => "Ip"
  end.

Record RequestView := mk_view {
  method : string;
  path : string;
  path_and_query : string;
  origin : option string;
  client_ip : option IpAddr;
}.

(** The store of shared limiters. *)
Abbreviation limiters := (gmap nat RateLimiter).

(** Normalize a stripped path back to an absolute path. *)
Definition normalize_path (rest : string) : string :=
  if (rest =? "")%string then "/"
  else if starts_with "/" rest then rest
  else "/" +:+ rest.

Definition rate_key (key : string) (req : RequestView) : string :=
  if (key =? "ip")%string then
    match client_ip req with
    | None => "unknown"
    | Some ip => show_ip (to_canonical ip)
    end
  else key +:+ ":" +:+ path req.

Definition origin_allowed (cors : Cors) (origin : option string) : option string :=
  o ← origin;
  if existsb (fun x => x =? "*")%string (origins cors) then Some "*"
  else if existsb (fun x => x =? o)%string (origins cors) then Some o
  else None.

Section Pipeline.
Context `{HeaderOps}.

Definition insert_static (name value : string) (h : HeaderMap) : HeaderMap :=
  hm_insert name (value_from_static value) h.

(** [if let Ok(v) = HeaderValue::from_str(..) { headers.insert(..) }]. *)
Definition insert_str (name value : string) (h : HeaderMap) : HeaderMap :=
  match value_from_str value with Some v => hm_insert name v h | None => h end.

Definition insert_num (h : HeaderMap) (name : string) (value : Z) : HeaderMap :=
  insert_str name (show_u value) h.

Definition blocked (status : Z) : Response :=
  let code := default 403 (status_from_u16 status) in
  with_body (headers_mut (insert_static "content-type" "text/plain; charset=utf-8") (response_new code))
    "forbidden".

Definition rate_limited (o : RateOutcome) : Response :=
  let resp := response_new 429 in
  let h := resp_headers resp in
  let h := insert_num h "ratelimit-limit" (rate_limit o) in
  let h := insert_num h "ratelimit-remaining" (remaining o) in
  let h := insert_num h "ratelimit-reset" (reset_secs o) in
  let h := insert_num h "retry-after" (reset_secs o) in
  with_body (headers_mut (fun _ => h) resp) "rate limit exceeded".

Definition apply_cors (cors : Cors) (origin : option string) (resp : Response) : Response :=
  match origin_allowed cors origin with
  | None => resp
  | Some allow =>
    let resp := headers_mut (insert_str "access-control-allow-origin" allow) resp in
    if credentials cors then
      headers_mut (insert_static "access-control-allow-credentials" "true") resp
    else resp
  end.

Definition preflight (cors : Cors) (origin : option string) : Response :=
  let resp := apply_cors cors origin (response_new 204) in
  match cors_methods cors with
  | [] => resp
  | ms => headers_mut (insert_str "access-control-allow-methods" (join ", " ms)) resp
  end.

(** ** Ingress *)
Section Ingress.
Variable now : nat -> Z.

(** One middleware: a response if it short-circuits. *)
Definition ingress1 (i : nat) (mw : Mw) (req : RequestView) (ls : limiters)
    : exec () (option Response * RequestView * limiters) :=
  match mw with
  | MStripPrefix prefix =>
    match strip_prefix prefix (path req) with
    | Some rest =>
      Ok (None, mk_view (method req) (normalize_path rest) (path_and_query req) (origin req)
                  (client_ip req), ls)
    | None => Ok (None, req, ls)
    end
  | MCors cors =>
    if eq_ignore_ascii_case (method req) "OPTIONS" && bool_decide (is_Some (origin req)) then
      Ok (Some (preflight cors (origin req)), req, ls)
    else Ok (None, req, ls)
  | MIp acl =>
    match client_ip req ≫= acl_check acl with
    | Some block => Ok (Some (blocked (block_status block)), req, ls)
    | None => Ok (None, req, ls)
    end
  | MWaf engine =>
    match inspect engine (path_and_query req) with
    | Some block => Ok (Some (blocked (block_status block)), req, ls)
    | None => Ok (None, req, ls)
    end
  | MRateLimit limiter key =>
    match ls !! limiter with
    | None => Panic (* no such limiter: excluded by the [Arc] *)
    | Some l =>
      let '(outcome, l') := limiter_check (now i) (rate_key key req) l in
      let ls' := <[limiter := l']> ls in
      if allowed outcome then Ok (None, req, ls')
      else Ok (Some (rate_limited outcome), req, ls')
    end
  | MHeaders _ _ => Ok (None, req, ls)
  end.

Fixpoint ingress_from (i : nat) (pipeline : list Mw) (req : RequestView) (ls : limiters)
    : exec () (option Response * RequestView * limiters) :=
  match pipeline with
  | [] => Ok (None, req, ls)
  | mw :: rest =>
    '(resp, req', ls') ← ingress1 i mw req ls;
    match resp with
    | Some r => Ok (Some r, req', ls')
    | None => ingress_from (S i) rest req' ls'
    end
  end.

Definition ingress := ingress_from 0.
End Ingress.

(** ** Egress *)
Definition egress1 (origin : option string) (mw : Mw) (resp : Response) : Response :=
  match mw with
  | MHeaders set remove =>
    let resp := foldl (fun r name =>
      match name_try_from name with Some h => headers_mut (hm_remove h) r | None => r end) resp remove in
    foldl (fun r '(name, value) =>
      match name_try_from name, value_from_str value with
      | Some h, Some v => headers_mut (hm_insert h v) r
      | _, _ => r
      end) resp set
  | MCors cors => apply_cors cors origin resp
  | MStripPrefix _ | MRateLimit _ _ | MWaf _ | MIp _ => resp
  end.

Definition egress (pipeline : list Mw) (origin : option string) (resp : Response) : Response :=
  foldl (fun r mw => egress1 origin mw r) resp (reverse pipeline).
End Pipeline.
