(* ===== verification/PipelineProps.v ===== *)
(** * Properties of [pulsate-pipeline] *)

From Stdlib Require Import ZArith Ascii String Lia.
From stdpp Require Import base option list gmap strings.
From S2P Require Import Prelude RustStr RustNet CoreTypes UtilParse Http Message Waf Pipeline.
Local Open Scope string_scope.
Local Open Scope list_scope.
Local Open Scope Z_scope.

Section Ingress.
Context `{HeaderOps}.
Variable now : nat -> Z.

(** Rewrites of the path keep the rest of the request. *)
Definition same_request (r r' : RequestView) : Prop :=
  method r' = method r /\ path_and_query r' = path_and_query r /\ origin r' = origin r
  /\ client_ip r' = client_ip r
  /\ (starts_with "/" (path r) = true -> starts_with "/" (path r') = true).

#[export] Instance same_request_preorder : PreOrder same_request.
Proof.
  split.
  - intros r. by split_and!.
  - intros r1 r2 r3 (? & ? & ? & ? & ?) (? & ? & ? & ? & ?). split_and!; try congruence. auto.
Qed.

(** What a middleware requires of the request it lets through, given the
    limiters it sees. *)
Definition passes (i : nat) (mw : Mw) (req : RequestView) (ls : limiters) : Prop :=
  match mw with
  | MIp acl => forall ip, client_ip req = Some ip -> acl_check acl ip = None
  | MWaf engine => inspect engine (path_and_query req) = None
  | MCors _ => eq_ignore_ascii_case (method req) "OPTIONS" = true -> origin req = None
  | MRateLimit id key =>
    exists l, ls !! id = Some l /\ allowed (limiter_check (now i) (rate_key key req) l).1 = true
  | MStripPrefix _ | MHeaders _ _ => True
  end.

(** The statuses of the responses the ingress phase makes. *)
Definition short_circuit (r : Response) : Prop := resp_status r ∈ [204; 403; 429].

Definition limiter_of (mw : Mw) : option nat :=
  match mw with MRateLimit id _ => Some id | _ => None end.

Lemma normalize_path_absolute rest : starts_with "/" (normalize_path rest) = true.
Proof.
  unfold normalize_path. destruct (String.eqb_spec rest ""); [done|].
  destruct (starts_with "/" rest) eqn:E; [done|]. apply starts_with_spec. by eexists.
Qed.

Lemma inspect_status e p b : inspect e p = Some b -> block_status b = 403.
Proof.
  unfold inspect. destruct (detect p); [|done]. simpl. case_decide; [|done]. by intros [= <-].
Qed.

Lemma acl_status a ip b : acl_check a ip = Some b -> block_status b = 403.
Proof. unfold acl_check. repeat case_match; by intros [= <-]. Qed.

Lemma preflight_status c o : resp_status (preflight c o) = 204.
Proof.
  unfold preflight, apply_cors. destruct (origin_allowed c o); [|by destruct (cors_methods c)].
  by destruct (cors_methods c), (credentials c).
Qed.

Lemma ingress1_spec i mw req ls :
  exec_spec (ingress1 now i mw req ls)
    (fun '(resp, req', ls') => same_request req req' /\ dom ls' = dom ls
      /\ match resp with None => passes i mw req ls | Some r => short_circuit r end)
    (fun _ => False) (exists id, limiter_of mw = Some id /\ ls !! id = None).
Proof.
  destruct mw as [p|set remove|c|id key|e|a]; cbn [ingress1].
  - destruct (strip_prefix p (path req)) as [rest|]; (split; [|done]); [|reflexivity].
    unfold same_request. cbn [method path_and_query origin client_ip path]. auto using normalize_path_absolute.
  - by split.
  - destruct (eq_ignore_ascii_case (method req) "OPTIONS") eqn:E; cbn [andb];
      [|split; [reflexivity|split; [done|]]; cbn [passes]; congruence].
    destruct (origin req) as [o|] eqn:Eo; cbn [bool_decide]; (split; [reflexivity|split; [done|]]).
    + unfold short_circuit. rewrite preflight_status. set_solver.
    + by intros _.
  - destruct (ls !! id) as [l|] eqn:E; [|exists id; done].
    destruct (limiter_check (now i) (rate_key key req) l) as [o l'] eqn:Ec.
    assert (dom (<[id := l']> ls) = dom ls) as Hd.
    { rewrite dom_insert_L. apply elem_of_dom_2 in E. set_solver. }
    destruct (allowed o) eqn:Ea; (split; [reflexivity|split; [exact Hd|]]).
    + exists l. by rewrite Ec.
    + unfold short_circuit. change (429 ∈ [204; 403; 429]). set_solver.
  - destruct (inspect e (path_and_query req)) as [b|] eqn:E; (split; [reflexivity|split; [done|]]); [|done].
    apply inspect_status in E. unfold short_circuit, blocked. rewrite E. change (403 ∈ [204; 403; 429]). set_solver.
  - destruct (client_ip req) as [ip|] eqn:Ei; cbn [mbind option_bind];
      [|split; [reflexivity|split; [done|]]; cbn [passes]; congruence].
    destruct (acl_check a ip) as [b|] eqn:E; (split; [reflexivity|split; [done|]]).
    + apply acl_status in E. unfold short_circuit, blocked. rewrite E. change (403 ∈ [204; 403; 429]). set_solver.
    + cbn [passes]. congruence.
Qed.

Lemma ingress_from_spec pl : forall i req ls,
  exec_spec (ingress_from now i pl req ls)
    (fun '(resp, req', ls') => same_request req req' /\ dom ls' = dom ls
      /\ match resp with
         | None => forall pre mw post, pl = pre ++ mw :: post ->
             exists req0 ls0, ingress_from now i pre req ls = Ok (None, req0, ls0)
               /\ same_request req req0 /\ passes (i + length pre) mw req0 ls0
         | Some r => short_circuit r
         end)
    (fun _ => False) (exists mw id, mw ∈ pl /\ limiter_of mw = Some id /\ ls !! id = None).
Proof.
  induction pl as [|mw pl IH]; intros i req ls; cbn [ingress_from].
  { simpl. split_and!; try done. by intros [] ? ?. }
  pose proof (ingress1_spec i mw req ls) as H1.
  destruct (ingress1 now i mw req ls) as [[[resp req1] ls1]| | |] eqn:E1; simpl in H1 |- *; try done.
  2:{ destruct H1 as (id & ? & ?). exists mw, id. set_solver. }
  destruct H1 as (Hs & Hd & Hr). destruct resp as [r|]; [by simpl|].
  eapply exec_spec_mono; [apply (IH (S i))|..]; [|done|].
  - intros [[resp req'] ls'] (Hs' & Hd' & Hr'). split_and!; [by etrans|congruence|].
    destruct resp; [done|]. intros [|mw0 pre] mw' post [= -> ->]; cbn [ingress_from length].
    + exists req, ls. rewrite Nat.add_0_r. by split_and!.
    + rewrite E1. simpl. destruct (Hr' pre mw' post eq_refl) as (req0 & ls0 & E & Hs0 & Hp).
      exists req0, ls0. split_and!; [done|by etrans|]. by replace (i + S (length pre))%nat with (S i + length pre)%nat by lia.
  - intros (mw' & id & Hin & Hl & Hn). exists mw', id. split_and!; [set_solver|done|].
    apply not_elem_of_dom. rewrite <-Hd. by apply not_elem_of_dom.
Qed.
(** What a middleware answers when it refuses a request. *)
Definition refuses (i : nat) (mw : Mw) (req : RequestView) (ls : limiters) (r : Response) : Prop :=
  match mw with
  | MIp acl => exists ip b, client_ip req = Some ip /\ acl_check acl ip = Some b /\ r = blocked (block_status b)
  | MWaf engine => exists b, inspect engine (path_and_query req) = Some b /\ r = blocked (block_status b)
  | MCors cors => eq_ignore_ascii_case (method req) "OPTIONS" = true /\ is_Some (origin req) /\ r = preflight cors (origin req)
  | MRateLimit id key => exists l, ls !! id = Some l
      /\ let outcome := (limiter_check (now i) (rate_key key req) l).1 in allowed outcome = false /\ r = rate_limited outcome
  | MStripPrefix _ | MHeaders _ _ => False
  end.

(** The request after a middleware, and the limiters: a limiter is charged
    whether it grants or not. *)
Definition rewritten (mw : Mw) (req : RequestView) : RequestView :=
  match mw with
  | MStripPrefix prefix =>
    mk_view (method req) (from_option normalize_path (path req) (strip_prefix prefix (path req))) (path_and_query req) (origin req) (client_ip req)
  | _ => req
  end.
Definition charged (i : nat) (mw : Mw) (req : RequestView) (ls : limiters) : limiters :=
  match mw with
  | MRateLimit id key => match ls !! id with Some l => <[id := (limiter_check (now i) (rate_key key req) l).2]> ls | None => ls end
  | _ => ls
  end.

Lemma ingress1_outcome i mw req ls resp req' ls' : ingress1 now i mw req ls = Ok (resp, req', ls') ->
  match resp with
  | None => passes i mw req ls /\ req' = rewritten mw req
  | Some r => refuses i mw req ls r /\ req' = req
  end /\ ls' = charged i mw req ls.
Proof.
  intros Hrun. assert (Hp : resp = None -> passes i mw req ls).
  { intros ->. pose proof (ingress1_spec i mw req ls) as Hs. rewrite Hrun in Hs. by destruct Hs as (_ & _ & ?). }
  destruct mw as [p|set remove|c|id key|e|a]; cbn [ingress1] in Hrun.
  - cbn [rewritten charged]. destruct (strip_prefix p (path req)) as [rest|]; injection Hrun as <- <- <-; (split; [|done]); (split; [by apply Hp|]).
    + done.
    + by destruct req.
  - injection Hrun as <- <- <-. by split; [split; [apply Hp|]|].
  - destruct (eq_ignore_ascii_case (method req) "OPTIONS") eqn:E; cbn [andb] in Hrun;
      [destruct (origin req) as [o|] eqn:Eo; cbn [bool_decide] in Hrun|]; injection Hrun as <- <- <-; (split; [|done]); (split; [|done]);
      first [by apply Hp|cbn [refuses]; rewrite Eo; split_and!; [done|by eexists|done]].
  - cbn [charged]. destruct (ls !! id) as [l|] eqn:El; [|done].
    destruct (limiter_check (now i) (rate_key key req) l) as [o l'] eqn:Ec. cbn [snd].
    destruct (allowed o) eqn:Ea; injection Hrun as <- <- <-; (split; [|done]); (split; [|done]); [by apply Hp|].
    exists l. rewrite Ec. split; [exact El|by split].
  - destruct (inspect e (path_and_query req)) as [b|] eqn:E; injection Hrun as <- <- <-; (split; [|done]); (split; [|done]); [by exists b|by apply Hp].
  - destruct (client_ip req ≫= acl_check a) as [b|] eqn:E; injection Hrun as <- <- <-; (split; [|done]); (split; [|done]); [|by apply Hp].
    apply bind_Some in E as (ip & Ei & Ea). by exists ip, b.
Qed.

(** A run up to and including a refusal. *)
Definition refused_at (i : nat) (pl : list Mw) (req : RequestView) (ls : limiters) (r : Response) (req' : RequestView) (ls' : limiters) : Prop :=
  exists pre mw post ls0, pl = pre ++ mw :: post /\ ingress_from now i pre req ls = Ok (None, req', ls0)
    /\ refuses (i + length pre) mw req' ls0 r /\ ls' = charged (i + length pre) mw req' ls0.

Lemma ingress_from_refused pl : forall i req ls r req' ls',
  ingress_from now i pl req ls = Ok (Some r, req', ls') -> refused_at i pl req ls r req' ls'.
Proof.
  induction pl as [|mw pl IH]; intros i req ls r req' ls'; cbn [ingress_from]; [done|].
  intros ([[resp req1] ls1] & E1 & Hrun)%bind_Ok. destruct (ingress1_outcome _ _ _ _ _ _ _ E1) as [Ho Hl]. destruct resp as [r1|].
  - injection Hrun as -> -> ->. destruct Ho as [Hr ->]. exists [], mw, pl, ls. cbn [app length ingress_from]. rewrite Nat.add_0_r. by split_and!.
  - apply IH in Hrun as (pre & mw' & post & ls0 & -> & E & Hr & Hc). exists (mw :: pre), mw', post, ls0. cbn [app length ingress_from].
    rewrite E1. replace (i + S (length pre))%nat with (S i + length pre)%nat by lia. by split_and!.
Qed.

(** Limiters that a run does not consult are left alone. *)
Lemma charged_other i mw req ls id : limiter_of mw <> Some id -> charged i mw req ls !! id = ls !! id.
Proof.
  destruct mw as [| | |id' key| |]; try done. cbn. intros Hne. destruct (ls !! id'); [|done]. by rewrite lookup_insert_ne by congruence.
Qed.

Lemma ingress_from_other pl id : forall i req ls resp req' ls', ingress_from now i pl req ls = Ok (resp, req', ls') ->
  id ∉ omap limiter_of pl -> ls' !! id = ls !! id.
Proof.
  induction pl as [|mw pl IH]; intros i req ls resp req' ls'; cbn [ingress_from]; [by intros [= _ _ <-]|].
  intros ([[r1 req1] ls1] & E1 & Hrun)%bind_Ok Hid. destruct (ingress1_outcome _ _ _ _ _ _ _ E1) as [_ ->].
  assert (Hmw : limiter_of mw <> Some id /\ id ∉ omap limiter_of pl).
  { cbn [omap list_omap] in Hid. destruct (limiter_of mw) as [id'|]; [|done]. apply not_elem_of_cons in Hid as [? ?]. split; [congruence|done]. }
  destruct Hmw as [Hne Hpl]. rewrite <-(charged_other i mw req ls id Hne).
  destruct r1; [by injection Hrun as _ _ <-|]. by eapply IH.
Qed.
End Ingress.

(** C13. The ingress phase is a gate.  Middleware run in declared order on the
    same request, whose path alone may be rewritten and stays absolute.  The
    handler is reached only when every IP list, signature engine, limiter and
    preflight check of the pipeline let the request through at its turn.
    Otherwise the phase stops at the first middleware that refuses: all before
    it let the request through, the response is the refusal of that middleware
    (the 403 of a block, the 429 of its limiter, the 204 of a preflight), the
    request and the limiters are as it left them, and no limiter declared after
    it is charged.  With all its limiters in place the phase never panics. *)
Theorem ingress_gates `{HeaderOps} (now : nat -> Z) (pipeline : list Mw) (req : RequestView)
    (ls : limiters) :
  exec_spec (ingress now pipeline req ls)
    (fun '(resp, req', ls') => same_request req req' /\ dom ls' = dom ls
      /\ match resp with
         | None => forall pre mw post, pipeline = pre ++ mw :: post ->
             exists req0 ls0, ingress now pre req ls = Ok (None, req0, ls0)
               /\ same_request req req0 /\ passes now (length pre) mw req0 ls0
         | Some r => short_circuit r
             /\ exists pre mw post ls0, pipeline = pre ++ mw :: post
               /\ ingress now pre req ls = Ok (None, req', ls0)
               /\ refuses now (length pre) mw req' ls0 r /\ ls' = charged now (length pre) mw req' ls0
               /\ forall id, id ∉ omap limiter_of (pre ++ [mw]) -> ls' !! id = ls !! id
         end)
    (fun _ => False) (exists mw id, mw ∈ pipeline /\ limiter_of mw = Some id /\ ls !! id = None).
Proof.
  pose proof (ingress_from_spec now pipeline 0 req ls) as Hs. unfold ingress in *.
  destruct (ingress_from now 0 pipeline req ls) as [[[resp req'] ls']| | |] eqn:E; try exact Hs.
  destruct Hs as (Hr & Hd & Ho). split_and!; [done|done|]. destruct resp as [r|]; [|exact Ho]. split; [done|].
  apply ingress_from_refused in E as (pre & mw & post & ls0 & -> & Epre & Href & Hc). exists pre, mw, post, ls0.
  split_and!; [done..|]. intros id Hid. rewrite omap_app in Hid. apply not_elem_of_app in Hid as [Hpre Hmw].
  rewrite <-(ingress_from_other now pre id _ _ _ _ _ _ Epre Hpre), Hc. apply charged_other. intros Hl.
  apply Hmw. cbn. rewrite Hl. by left.
Qed.

(** ** Egress *)
Section Egress.
Context `{HeaderOps} `{!HeaderLaws}.

(** What a middleware makes of the header [n]: a value, its absence, or
    nothing. *)
Definition header_effect (origin : option string) (n : string) (mw : Mw) : option (option HeaderValue) :=
  match mw with
  | MHeaders set remove =>
    let sets := omap (fun '(name, value) =>
      h ← name_try_from name; v ← value_from_str value; if decide (same_name h n) then Some v else None) set in
    match last sets with
    | Some v => Some (Some v)
    | None =>
      if existsb (fun name => match name_try_from name with
                              | Some h => bool_decide (same_name h n) | None => false end) remove
      then Some None else None
    end
  | MCors cors =>
    match origin_allowed cors origin with
    | None => None
    | Some allow =>
      if decide (credentials cors = true /\ same_name "access-control-allow-credentials" n) then
        Some (Some (value_from_static "true"))
      else if decide (same_name "access-control-allow-origin" n) then Some <$> value_from_str allow
      else None
    end
  | _ => None
  end.

Definition first_effect (origin : option string) (n : string) (pipeline : list Mw) : option (option HeaderValue) :=
  head (omap (header_effect origin n) pipeline).

Lemma get_sets set n : forall r,
  hm_get (resp_headers (foldl (fun r '(name, value) =>
      match name_try_from name, value_from_str value with
      | Some h, Some v => headers_mut (hm_insert h v) r
      | _, _ => r
      end) r set)) n
  = match last (omap (fun '(name, value) =>
      h ← name_try_from name; v ← value_from_str value; if decide (same_name h n) then Some v else None) set) with
    | Some v => Some v
    | None => hm_get (resp_headers r) n
    end.
Proof.
  induction set as [|[name value] set IH]; intros r; [done|]. cbn [foldl omap list_omap]. rewrite IH.
  destruct (name_try_from name) as [h|]; [|done]. destruct (value_from_str value) as [v|]; [|done]. simpl.
  rewrite hm_get_insert. destruct (decide (same_name h n)); [|done].
  rewrite last_cons. by destruct (last _).
Qed.

Lemma get_removes remove n : forall r,
  hm_get (resp_headers (foldl (fun r name =>
      match name_try_from name with Some h => headers_mut (hm_remove h) r | None => r end) r remove)) n
  = if existsb (fun name => match name_try_from name with
                              | Some h => bool_decide (same_name h n) | None => false end) remove
    then None else hm_get (resp_headers r) n.
Proof.
  induction remove as [|name remove IH]; intros r; [done|]. cbn [foldl existsb]. rewrite IH.
  destruct (name_try_from name) as [h|]; [|done]. simpl. rewrite hm_get_remove.
  destruct (decide (same_name h n)) as [Hn|Hn].
  - rewrite bool_decide_true by done. by destruct (existsb _ _).
  - by rewrite bool_decide_false.
Qed.

Lemma egress1_get origin mw n r :
  hm_get (resp_headers (egress1 origin mw r)) n
  = default (hm_get (resp_headers r) n) (header_effect origin n mw).
Proof.
  destruct mw as [p|set remove|c|id key|e|a]; try done; cbn [egress1 header_effect].
  - rewrite get_sets, get_removes. destruct (last _); [done|]. by destruct (existsb _ _).
  - unfold apply_cors. destruct (origin_allowed c origin) as [allow|]; [|done].
    unfold insert_static, insert_str. destruct (credentials c); cbn [headers_mut resp_headers].
    + rewrite hm_get_insert. destruct (decide (same_name _ n)) as [Hn|Hn].
      { by rewrite decide_True. }
      rewrite decide_False by tauto. destruct (value_from_str allow) as [v|]; simpl; [|by case_decide].
      rewrite hm_get_insert. by case_decide.
    + rewrite decide_False by (intros [? ?]; done). destruct (value_from_str allow) as [v|]; simpl; [|by case_decide].
      rewrite hm_get_insert. by case_decide.
Qed.

(** Egress changes headers only. *)
Lemma egress1_frame origin mw r :
  resp_status (egress1 origin mw r) = resp_status r /\ resp_body (egress1 origin mw r) = resp_body r.
Proof.
  assert (F : forall A (f : Response -> A -> Response) l, (forall r x, resp_status (f r x) = resp_status r /\ resp_body (f r x) = resp_body r) ->
    forall r, resp_status (foldl f r l) = resp_status r /\ resp_body (foldl f r l) = resp_body r).
  { intros A f l Hf. induction l as [|x l IH]; intros r0; [done|]. cbn [foldl]. destruct (IH (f r0 x)) as [-> ->]. apply Hf. }
  destruct mw as [p|set remove|c|id key|e|a]; try done; cbn [egress1].
  - destruct (F _ (fun r name => match name_try_from name with Some h => headers_mut (hm_remove h) r | None => r end) remove) with (r := r)
      as [<- <-]; [intros r' n; by destruct (name_try_from n)|].
    apply F. intros r' [n v]. destruct (name_try_from n); [|done]. by destruct (value_from_str v).
  - unfold apply_cors. destruct (origin_allowed c origin); [|done]. by destruct (credentials c).
Qed.

Lemma egress_cons mw pl origin r : egress (mw :: pl) origin r = egress1 origin mw (egress pl origin r).
Proof. unfold egress. by rewrite reverse_cons, foldl_app. Qed.

Lemma egress_frame pl origin r :
  resp_status (egress pl origin r) = resp_status r /\ resp_body (egress pl origin r) = resp_body r.
Proof.
  induction pl as [|mw pl [IHs IHb]]; [done|]. rewrite egress_cons.
  destruct (egress1_frame origin mw (egress pl origin r)) as [-> ->]. done.
Qed.
End Egress.

(** The egress phase nests: for each response header, the middleware
    declared first among those that set or remove it decides its final value,
    and a header no middleware touches is kept. *)
Theorem egress_first_declared_wins `{HeaderOps} `{!HeaderLaws} (pipeline : list Mw)
    (origin : option string) (resp : Response) (n : string) :
  hm_get (resp_headers (egress pipeline origin resp)) n
  = default (hm_get (resp_headers resp) n) (first_effect origin n pipeline).
Proof.
  unfold first_effect. induction pipeline as [|mw pl IH]; [done|].
  rewrite egress_cons, egress1_get. simpl. destruct (header_effect origin n mw); [done|]. exact IH.
Qed.

Section Witnesses.
#[local] Existing Instance ListHeaders.list_headers.
#[local] Existing Instance ListHeaders.list_laws.

Lemma egress_first_declared_wins_witness :
  let inner := MHeaders [("x-frame", "inner")] [] in
  let outer := MHeaders [("x-frame", "outer")] [] in
  hm_get (resp_headers (egress [outer; inner] None (response_new 200))) "x-frame" = value_from_str "outer".
Proof.
  intros inner outer. rewrite (egress_first_declared_wins [outer; inner] None (response_new 200) "x-frame").
  vm_compute. reflexivity.
Defined.
End Witnesses.
