(* ===== verification/Router.v ===== *)
(** * [pulsate-router]: the routing table

    [lib.rs].  [Iterator::max_by_key] returns the last of several maxima. *)

From Stdlib Require Import ZArith Ascii String Lia.
From stdpp Require Import base option list gmap strings.
From S2P Require Import Prelude RustStr UtilParse Cache Pipeline.
Local Open Scope string_scope.
Local Open Scope list_scope.
Local Open Scope Z_scope.

Module Router.

Inductive MatchKind := Prefix | Exact | Regex.

#[global] Instance MatchKind_eq_dec : EqDecision MatchKind.
Proof. solve_decision. Defined.

Inductive Handler :=
| Files (root : string) (try_files : list string)
| Respond (status : Z) (body : string)
| Redirect (to : string) (status : Z)
| Proxy (upstream target : option string)
| Other (name : string).

(** A cache layer is the address of its shared store and its policy. *)
Record CacheLayer := mk_layer { layer_store : nat; layer_config : Cache.CacheConfig }.

Record Route := mk_route {
  kind : MatchKind;
  pattern : string;
  route_method : option string;
  middleware : list Mw;
  cache : option CacheLayer;
  handler : Handler;
}.

Definition prefix_of (pattern : string) : string :=
  let p := default pattern (strip_suffix "*" pattern) in
  let p := default p (strip_suffix "/" p) in
  if (p =? "/")%string then "" else p.

Definition with_slash (prefix : string) : string :=
  if ends_with "/" prefix then prefix else prefix +:+ "/".

Definition host_without_port (host : string) : string :=
  match split_once ":" host with Some (h, _) => h | None => host end.

Definition score (r : Route) (path method : string) : option Z :=
  if match route_method r with
     | Some m => negb (eq_ignore_ascii_case m method)
     | None => false
     end then None
  else
    match kind r with
    | Exact => if (pattern r =? path)%string then Some 1000000 else None
    | Prefix =>
      let prefix := prefix_of (pattern r) in
      if (prefix =? "")%string || (path =? prefix)%string || starts_with (with_slash prefix) path then
        let n := Z.of_nat (String.length prefix) in
        Some (1000 + if n <=? u32_max then n else 0)
      else None
    | Regex => if (pattern r =? path)%string then Some 10 else None
    end.

Record SiteRoutes := mk_site { hosts : list string; routes : list Route }.

(** The score of one host pattern. *)
Definition pattern_score (host pat : string) : option Z :=
  if (pat =? host)%string then Some 3
  else if (pat =? ":default")%string then Some 1
  else
    match strip_prefix "*." pat with
    | Some suffix =>
      if (String.length suffix <? String.length host)%nat && ends_with suffix host then Some 2 else None
    | None => None
    end.

(** [Option::max], with [None] below every score. *)
Definition option_max (a b : option Z) : option Z :=
  match a, b with
  | Some x, Some y => Some (Z.max x y)
  | Some x, None => Some x
  | None, b => b
  end.

Definition host_score (s : SiteRoutes) (host : string) : option Z :=
  foldl (fun best pat => option_max best (pattern_score host pat)) None (hosts s).

(** [filter_map] by a score, then [max_by_key]: the last of the best. *)
Definition best_by {A} (f : A -> option Z) (l : list A) : option A :=
  snd <$> foldl (fun (acc : option (Z * A)) x =>
    match f x with
    | None => acc
    | Some sc =>
      match acc with
      | Some (best, _) => if best <=? sc then Some (sc, x) else acc
      | None => Some (sc, x)
      end
    end) None l.

Record Router := mk_router { sites : list SiteRoutes }.

Definition route (r : Router) (host path method : string) : option Route :=
  let host := host_without_port host in
  site ← best_by (fun s => host_score s host) (sites r);
  best_by (fun rt => score rt path method) (routes site).

Definition site_count (r : Router) : nat := length (sites r).
End Router.
