(* ===== verification/RouterProps.v ===== *)
(** * Properties of [pulsate-router] *)

From Stdlib Require Import ZArith Ascii String Lia.
From stdpp Require Import base option list gmap strings.
From S2P Require Import Prelude RustStr UtilParse Cache Pipeline Router.
Import Router.
Local Open Scope string_scope.
Local Open Scope list_scope.
Local Open Scope Z_scope.

(** [x] is the last element of [l] among those of the greatest score. *)
Definition is_best {A} (f : A -> option Z) (l : list A) (x : A) : Prop :=
  exists pre post sc, l = pre ++ x :: post /\ f x = Some sc
    /\ (forall y sy, y ∈ pre -> f y = Some sy -> sy <= sc)
    /\ (forall y sy, y ∈ post -> f y = Some sy -> sy < sc).

Lemma best_by_spec {A} (f : A -> option Z) l :
  match best_by f l with
  | None => forall y, y ∈ l -> f y = None
  | Some x => is_best f l x
  end.
Proof.
  unfold best_by. set (g := fun acc x => _).
  assert (Hg : match foldl g None l with
    | None => forall y, y ∈ l -> f y = None
    | Some (sc, x) => exists pre post, l = pre ++ x :: post /\ f x = Some sc
        /\ (forall y sy, y ∈ pre -> f y = Some sy -> sy <= sc)
        /\ (forall y sy, y ∈ post -> f y = Some sy -> sy < sc)
    end).
  { induction l as [|y l IH] using rev_ind; [set_solver|]. rewrite foldl_app. cbn [foldl]. unfold g at 1.
    destruct (f y) as [sy|] eqn:Ey, (foldl g None l) as [[b z]|].
    - destruct IH as (pre & post & Hl & Hz & Hpre & Hpost). destruct (Z.leb_spec b sy).
      + exists l, []. split_and!; [done|done| |set_solver]. intros w sw. rewrite Hl.
        intros [Hw|[->|Hw]%elem_of_cons]%elem_of_app Hfw.
        * specialize (Hpre w sw Hw Hfw). lia.
        * rewrite Hz in Hfw. injection Hfw. lia.
        * specialize (Hpost w sw Hw Hfw). lia.
      + exists pre, (post ++ [y]). split_and!; [by rewrite Hl, <-app_assoc|done|done|].
        intros w sw [Hw| ->%list_elem_of_singleton]%elem_of_app Hfw; [by eapply Hpost|congruence].
    - exists l, []. split_and!; [done|done| |set_solver]. intros w sw Hw Hfw. rewrite IH in Hfw; done.
    - destruct IH as (pre & post & Hl & Hz & Hpre & Hpost).
      exists pre, (post ++ [y]). split_and!; [by rewrite Hl, <-app_assoc|done|done|].
      intros w sw [Hw| ->%list_elem_of_singleton]%elem_of_app Hfw; [by eapply Hpost|congruence].
    - intros w [Hw| ->%list_elem_of_singleton]%elem_of_app; auto. }
  destruct (foldl g None l) as [[sc x]|]; simpl; [|exact Hg].
  destruct Hg as (pre & post & Hg). exists pre, post, sc. exact Hg.
Qed.

Lemma is_best_le {A} (f : A -> option Z) l x :
  is_best f l x -> exists sc, f x = Some sc /\ forall y sy, y ∈ l -> f y = Some sy -> sy <= sc.
Proof.
  intros (pre & post & sc & -> & Hx & Hpre & Hpost). exists sc. split; [done|].
  intros y sy [Hy|[->|Hy]%elem_of_cons]%elem_of_app Hf.
  - by eapply Hpre.
  - rewrite Hx in Hf. injection Hf. lia.
  - apply Z.lt_le_incl. by eapply Hpost.
Qed.

Lemma is_best_elem {A} (f : A -> option Z) l x : is_best f l x -> x ∈ l.
Proof. intros (pre & post & sc & -> & _). set_solver. Qed.

(** ** Precedence of the kinds of pattern *)

(** A method refinement accepts a method. *)
Definition method_ok (rt : Route) (method : string) : Prop :=
  match route_method rt with Some m => eq_ignore_ascii_case m method = true | None => True end.

Lemma score_method rt path method sc : score rt path method = Some sc -> method_ok rt method.
Proof. unfold score, method_ok. destruct (route_method rt); [|done]. by destruct (eq_ignore_ascii_case _ _). Qed.

Lemma score_exact rt path method :
  kind rt = Exact -> pattern rt = path -> method_ok rt method -> score rt path method = Some 1000000.
Proof.
  intros Hk Hp Hm. unfold score, method_ok in *. rewrite Hk, Hp, String.eqb_refl.
  destruct (route_method rt); [|done]. by rewrite Hm.
Qed.

(** The prefix of a matching prefix route is a prefix of the path. *)
Lemma score_prefix rt path method sc :
  kind rt = Prefix -> score rt path method = Some sc ->
  exists rest, path = prefix_of (pattern rt) +:+ rest
    /\ (prefix_of (pattern rt) = "" \/ rest = "" \/ (exists r, with_slash (prefix_of (pattern rt)) +:+ r = path))
    /\ sc = 1000 + (if Z.of_nat (String.length (prefix_of (pattern rt))) <=? u32_max
                    then Z.of_nat (String.length (prefix_of (pattern rt))) else 0).
Proof.
  intros Hk. unfold score. rewrite Hk. destruct (match route_method rt with Some _ => _ | None => _ end); [done|].
  set (p := prefix_of (pattern rt)). destruct (String.eqb_spec p "") as [Hp|Hp]; cbn [orb].
  { intros [= <-]. exists path. rewrite Hp. split_and!; [done|by left|done]. }
  destruct (String.eqb_spec path p) as [->|Hpp]; cbn [orb].
  { intros [= <-]. exists "". rewrite append_nil_r. split_and!; [done|by right; left|done]. }
  destruct (starts_with (with_slash p) path) eqn:E; [|done]. intros [= <-].
  apply starts_with_spec in E as [r Hr].
  assert (exists rest, path = p +:+ rest) as [rest Hrest].
  { unfold with_slash in Hr. destruct (ends_with "/" p); [by exists r|].
    exists ("/" +:+ r). by rewrite append_assoc. }
  exists rest. split_and!; [done| |done]. right; right. by exists r.
Qed.

Lemma score_bound rt path method sc :
  score rt path method = Some sc ->
  sc <= match kind rt with
        | Exact => 1000000
        | Prefix => 1000 + Z.of_nat (String.length path)
        | Regex => 10
        end.
Proof.
  intros H. destruct (kind rt) eqn:Hk.
  - destruct (score_prefix rt path method sc Hk H) as (rest & Hp & _ & ->).
    apply (f_equal String.length) in Hp. rewrite length_append in Hp. destruct (_ <=? _); lia.
  - unfold score in H. rewrite Hk in H. repeat case_match; simplify_eq; lia.
  - unfold score in H. rewrite Hk in H. repeat case_match; simplify_eq; lia.
Qed.

(** A route matches a path and a method: its method refinement accepts the
    method, and its pattern is the path (exact and regex routes) or a prefix of
    it that ends at a segment boundary. *)
Definition matches (rt : Route) (path method : string) : Prop :=
  method_ok rt method
  /\ match kind rt with
     | Prefix =>
       let p := prefix_of (pattern rt) in
       p = "" \/ path = p \/ exists rest, path = with_slash p +:+ rest
     | Exact | Regex => pattern rt = path
     end.

Lemma score_matches rt path method : is_Some (score rt path method) <-> matches rt path method.
Proof.
  unfold score, matches, method_ok.
  destruct (route_method rt) as [m|]; [destruct (eq_ignore_ascii_case m method); cbn [negb]|];
    [ |split; [by intros [? ?]|by intros [? _]]| ];
  destruct (kind rt);
  (match goal with
   | |- context [prefix_of] =>
     set (p := prefix_of (pattern rt)); destruct (String.eqb_spec p ""), (String.eqb_spec path p),
       (starts_with (with_slash p) path) eqn:Es; cbn [orb]
   | |- _ => destruct (String.eqb_spec (pattern rt) path)
   end); (split; [intros [? [=]]|intros [_ Hm]]); eauto.
  all: try congruence.
  all: try (split; [done|]; right; right; apply starts_with_spec in Es as [r Hr]; by exists r).
  all: destruct Hm as [?|[?|[r Hr]]]; [congruence..|].
  all: assert (starts_with (with_slash p) path = true) by (apply starts_with_spec; by exists r); congruence.
Qed.

Corollary score_unmatched rt path method : score rt path method = None <-> ~ matches rt path method.
Proof. rewrite eq_None_not_Some. by rewrite score_matches. Qed.

(** ** What most specific means *)

(** How a pattern serves a host: by its name, as a wildcard over a longer host,
    or as the default. *)
Inductive HostClass := ByName | ByWildcard | ByDefault.
Definition class_rank (c : HostClass) : Z := match c with ByName => 3 | ByWildcard => 2 | ByDefault => 1 end.
Definition pattern_serves (host pat : string) (c : HostClass) : Prop :=
  match c with
  | ByName => pat = host
  | ByWildcard => exists suffix label, pat = "*." +:+ suffix /\ host = label +:+ suffix /\ label <> ""
  | ByDefault => pat = ":default"
  end.
Definition serves (host : string) (s : SiteRoutes) (c : HostClass) : Prop :=
  exists pat, pat ∈ hosts s /\ pattern_serves host pat c.

(** The site of a host: none serves it in a better class, and none declared
    after it in the same class. *)
Definition site_for (r : Router) (host : string) (site : SiteRoutes) : Prop :=
  exists pre post c, sites r = pre ++ site :: post /\ serves host site c
    /\ (forall s c', s ∈ sites r -> serves host s c' -> class_rank c' <= class_rank c)
    /\ (forall s, s ∈ post -> ~ serves host s c).

(** An exact path before a prefix, a longer prefix before a shorter one, every
    prefix before a regex. *)
Definition more_specific (a b : Route) : Prop :=
  match kind a, kind b with
  | Exact, Prefix | Exact, Regex | Prefix, Regex => True
  | Prefix, Prefix => (String.length (prefix_of (pattern b)) < String.length (prefix_of (pattern a)))%nat
  | _, _ => False
  end.
(** Two routes for the same paths. *)
Definition same_paths (a b : Route) : Prop :=
  kind a = kind b
  /\ match kind a with Prefix => prefix_of (pattern a) = prefix_of (pattern b) | _ => pattern a = pattern b end.

Definition most_specific (r : Router) (host path method : string) (answer : option Route) : Prop :=
  match answer with
  | Some rt => matches rt path method
      /\ exists site pre post, site_for r host site /\ routes site = pre ++ rt :: post
         /\ (forall rt', rt' ∈ pre -> matches rt' path method -> more_specific rt rt' \/ same_paths rt rt')
         /\ (forall rt', rt' ∈ post -> matches rt' path method -> more_specific rt rt')
  | None => (forall s c, s ∈ sites r -> ~ serves host s c)
      \/ exists site, site_for r host site /\ forall rt, rt ∈ routes site -> ~ matches rt path method
  end.

(** The scores of hosts follow the classes. *)
Lemma pattern_score_class host pat n : pattern_score host pat = Some n -> exists c, class_rank c = n /\ pattern_serves host pat c.
Proof.
  unfold pattern_score. destruct (String.eqb_spec pat host) as [->|_]; [intros [= <-]; by exists ByName|].
  destruct (String.eqb_spec pat ":default") as [->|_]; [intros [= <-]; by exists ByDefault|].
  destruct (strip_prefix "*." pat) as [suffix|] eqn:Ep; [|done]. apply strip_prefix_Some in Ep as ->.
  destruct (Nat.ltb_spec (String.length suffix) (String.length host)) as [Hl|]; [|done].
  destruct (ends_with suffix host) eqn:Ee; [|done]. intros [= <-]. exists ByWildcard. split; [done|].
  apply ends_with_spec in Ee as [label ->]. exists suffix, label. split_and!; [done..|]. intros ->. rewrite append_nil_l in Hl. lia.
Qed.

Lemma pattern_class_score host pat c : pattern_serves host pat c -> exists n, pattern_score host pat = Some n /\ class_rank c <= n.
Proof.
  intros H. unfold pattern_score. destruct (String.eqb_spec pat host) as [|Hne]; [exists 3; by destruct c|].
  destruct (String.eqb_spec pat ":default") as [->|Hd].
  { exists 1. split; [done|]. destruct c; [done| |done]. by destruct H as (? & ? & ? & _). }
  destruct c; [done| |done]. destruct H as (suffix & label & -> & -> & Hl). rewrite strip_prefix_app. exists 2. split; [|done].
  rewrite length_append. assert (String.length label <> O) by (by destruct label).
  rewrite (proj2 (Nat.ltb_lt _ _)) by lia. by rewrite (proj2 (ends_with_spec suffix (label +:+ suffix))) by (by eexists).
Qed.

Lemma option_max_Some a b n : option_max a b = Some n <->
  (a = Some n /\ (forall m, b = Some m -> m <= n)) \/ (b = Some n /\ (forall m, a = Some m -> m <= n)).
Proof.
  destruct a as [x|], b as [y|]; cbn; split; intros H.
  - injection H as <-. destruct (Z.max_spec x y) as [[? ->]|[? ->]]; [right|left]; (split; [done|]); intros m [= <-]; lia.
  - f_equal. destruct H as [[[= ->] H]|[[= ->] H]]; specialize (H _ eq_refl); lia.
  - left. by split.
  - by destruct H as [[? _]|[? _]].
  - right. by split.
  - by destruct H as [[? _]|[? _]].
  - done.
  - by destruct H as [[? _]|[? _]].
Qed.

Lemma host_score_spec host s :
  match host_score s host with
  | Some n => (exists pat, pat ∈ hosts s /\ pattern_score host pat = Some n)
      /\ forall pat m, pat ∈ hosts s -> pattern_score host pat = Some m -> m <= n
  | None => forall pat, pat ∈ hosts s -> pattern_score host pat = None
  end.
Proof.
  unfold host_score. induction (hosts s) as [|pat l IH] using rev_ind; [set_solver|]. rewrite foldl_snoc.
  destruct (option_max _ _) as [n|] eqn:E.
  - apply option_max_Some in E. destruct (foldl _ None l) as [b|].
    + destruct IH as [(p & Hp & Eb) Hle]. destruct E as [[[= ->] H]|[E H]]; (split; [set_solver|]).
      * intros p' m [Hin| ->%list_elem_of_singleton]%elem_of_app Hm; eauto.
      * specialize (H _ eq_refl). intros p' m [Hin| ->%list_elem_of_singleton]%elem_of_app Hm; [specialize (Hle _ _ Hin Hm); lia|].
        rewrite E in Hm. injection Hm. lia.
    + destruct E as [[? _]|[E _]]; [done|]. split; [set_solver|].
      intros p' m [Hin| ->%list_elem_of_singleton]%elem_of_app Hm; [rewrite IH in Hm; done|]. rewrite E in Hm. injection Hm. lia.
  - destruct (foldl _ None l) as [b|]; [by destruct (pattern_score host pat)|]. cbn in E.
    intros p' [Hin| ->%list_elem_of_singleton]%elem_of_app; auto.
Qed.

Lemma host_score_class host s n : host_score s host = Some n ->
  (exists c, class_rank c = n /\ serves host s c) /\ forall c, serves host s c -> class_rank c <= n.
Proof.
  intros E. pose proof (host_score_spec host s) as H. rewrite E in H. destruct H as [(pat & Hp & Hs) Hle]. split.
  - apply pattern_score_class in Hs as (c & Hc & Hs). exists c. split; [done|]. by exists pat.
  - intros c (pat' & Hp' & (m & Hm & Hc)%pattern_class_score). specialize (Hle _ _ Hp' Hm). lia.
Qed.

Lemma host_score_unserved host s : host_score s host = None <-> forall c, ~ serves host s c.
Proof.
  pose proof (host_score_spec host s) as H. split.
  - intros E c (pat & Hp & (m & Hm & _)%pattern_class_score). rewrite E in H. by rewrite H in Hm.
  - intros Hn. destruct (host_score s host) as [n|] eqn:E; [|done]. apply host_score_class in E as [(c & _ & Hs) _]. by apply Hn in Hs.
Qed.

Lemma best_site r host site : is_best (fun s => host_score s host) (sites r) site -> site_for r host site.
Proof.
  intros B. pose proof (is_best_le _ _ _ B) as (sc' & E' & Hle). destruct B as (pre & post & sc & El & E & _ & Hpost).
  rewrite E in E'. injection E' as <-.
  destruct (host_score_class _ _ _ E) as [(c & Hc & Hs) _]. exists pre, post, c. split_and!; [done|done| |].
  - intros s c' Hin Hs'. destruct (host_score s host) as [n|] eqn:En; [|by apply host_score_unserved in Hs'].
    specialize (Hle _ _ Hin En). apply host_score_class in En as [_ Hn]. specialize (Hn _ Hs'). lia.
  - intros s Hin Hs'. destruct (host_score s host) as [n|] eqn:En; [|by apply host_score_unserved in Hs'].
    specialize (Hpost _ _ Hin En). apply host_score_class in En as [_ Hn]. specialize (Hn _ Hs'). lia.
Qed.

(** And those of routes follow their kinds and the lengths of their prefixes. *)
Lemma score_value rt path method sc : Z.of_nat (String.length path) < 999000 -> score rt path method = Some sc ->
  match kind rt with
  | Exact => sc = 1000000 /\ pattern rt = path
  | Prefix => sc = 1000 + Z.of_nat (String.length (prefix_of (pattern rt))) /\ sc < 1000000
      /\ exists rest, path = prefix_of (pattern rt) +:+ rest
  | Regex => sc = 10 /\ pattern rt = path
  end.
Proof.
  intros Hlen H. destruct (kind rt) eqn:Hk.
  - destruct (score_prefix rt path method sc Hk H) as (rest & Hp & _ & ->). pose proof (f_equal String.length Hp) as Hl.
    rewrite length_append in Hl. rewrite (proj2 (Z.leb_le _ _)) by (unfold u32_max; lia). split_and!; [done|lia|by exists rest].
  - pose proof (proj1 (score_matches rt path method) (ex_intro _ sc H)) as [_ Hm]. rewrite Hk in Hm. split; [|done].
    unfold score in H. rewrite Hk in H. repeat case_match; by simplify_eq.
  - pose proof (proj1 (score_matches rt path method) (ex_intro _ sc H)) as [_ Hm]. rewrite Hk in Hm. split; [|done].
    unfold score in H. rewrite Hk in H. repeat case_match; by simplify_eq.
Qed.

Lemma prefixes_equal (p q r s : string) : p +:+ r = q +:+ s -> String.length p = String.length q -> p = q.
Proof.
  intros E Hl. apply (f_equal bytes_of) in E. rewrite !bytes_of_app in E. apply app_inj_1 in E as [E _]; [|by rewrite !length_bytes].
  apply (f_equal str_of) in E. by rewrite !str_of_bytes in E.
Qed.

Lemma scores_ordered a b path method sa sb : Z.of_nat (String.length path) < 999000 ->
  score a path method = Some sa -> score b path method = Some sb ->
  (sb < sa -> more_specific a b) /\ (sb = sa -> same_paths a b).
Proof.
  intros Hlen Ha%score_value Hb%score_value; [|done..]. unfold more_specific, same_paths.
  destruct (kind a), (kind b); destruct Ha as [Ea Ha], Hb as [Eb Hb]; try (split; [intros; first [done|lia]|intros; lia]).
  - destruct Ha as [_ (r & Ha)], Hb as [_ (r' & Hb)]. split; [lia|]. intros Es. split; [done|].
    rewrite Ha in Hb. apply (prefixes_equal _ _ _ _ Hb). lia.
  - split; [lia|]. intros _. split; [done|congruence].
  - split; [lia|]. intros _. split; [done|congruence].
Qed.

(** C8. Routing picks the most specific match.  The site is one that serves the
    host, port aside, in the best class: by name, then as a wildcard, then as
    the default, the last declared in that class.  The route returned matches
    the path and the method, and every other route of the site that does is
    less specific (an exact path goes before a prefix, a longer prefix before a
    shorter one, any prefix before a regex), or is for the same paths and was
    declared before it; so the order of declaration decides between routes for
    the same paths only.  Nothing is returned only when no site serves the host
    or no route of the site matches.  Two points differ from the documents,
    which rank a regex above a catch-all prefix and let a route with a matching
    method win over one without: here a regex loses to the catch-all, and of two
    routes for the same paths that match, the last declared wins.  Paths are
    shorter than 999,000 bytes; a URI of the [http] crate has at most 65,534. *)
Theorem route_most_specific (r : Router) (host path method : string)
    (Hlen : Z.of_nat (String.length path) < 999000) :
  most_specific r (host_without_port host) path method (route r host path method).
Proof.
  unfold route. pose proof (best_by_spec (fun s => host_score s (host_without_port host)) (sites r)) as Hs.
  destruct (best_by _ (sites r)) as [site|]; cbn [mbind option_bind].
  2:{ left. intros s c Hin. by apply host_score_unserved, Hs. }
  apply best_site in Hs. pose proof (best_by_spec (fun rt => score rt path method) (routes site)) as Hr.
  destruct (best_by _ (routes site)) as [rt|].
  2:{ right. exists site. split; [done|]. intros rt Hrt. by apply score_unmatched, Hr. }
  destruct Hr as (pre & post & sc & El & Hsc & Hpre & Hpost). split; [apply score_matches; by exists sc|].
  exists site, pre, post. split_and!; [done|done| |].
  - intros rt' Hin (sc' & Hsc')%score_matches. specialize (Hpre _ _ Hin Hsc').
    destruct (scores_ordered rt rt' path method sc sc' Hlen Hsc Hsc') as [Hlt Heq].
    destruct (Z.eq_dec sc' sc); [right|left]; auto with lia.
  - intros rt' Hin (sc' & Hsc')%score_matches. specialize (Hpost _ _ Hin Hsc').
    by apply (scores_ordered rt rt' path method sc sc' Hlen Hsc Hsc').
Qed.

(** Exact beats prefix: when an exact route of the chosen site matches the
    path and method, an exact route is returned; and a matching prefix route
    always beats a regex route, the catch-all prefix included. *)
Theorem route_precedence (r : Router) (host path method : string) (site : SiteRoutes) (rt best : Route)
    (Hlen : Z.of_nat (String.length path) < 999000)
    (Hsite : best_by (fun s => host_score s (host_without_port host)) (sites r) = Some site)
    (Hin : rt ∈ routes site) (Hm : is_Some (score rt path method))
    (Hbest : route r host path method = Some best) :
  (kind rt = Exact -> kind best = Exact) /\ (kind rt = Prefix -> kind best <> Regex).
Proof.
  unfold route in Hbest. rewrite Hsite in Hbest. simpl in Hbest.
  pose proof (best_by_spec (fun rt => score rt path method) (routes site)) as Hb. rewrite Hbest in Hb.
  destruct (is_best_le _ _ _ Hb) as (sb & Hsb & Hle). destruct Hm as [sc Hsc].
  specialize (Hle rt sc Hin Hsc). pose proof (score_bound _ _ _ _ Hsb) as Hbound. split; intros Hk.
  - assert (sc = 1000000) as ->.
    { unfold score in Hsc. rewrite Hk in Hsc. repeat case_match; simplify_eq; lia. }
    destruct (kind best); [lia|done|lia].
  - destruct (score_prefix rt path method sc Hk Hsc) as (_ & _ & _ & ->).
    destruct (kind best); [done|done|]. destruct (_ <=? _); lia.
Qed.

Definition rt (k : MatchKind) (p : string) : Route := mk_route k p None [] None (Respond 200 "").
Definition demo_router : Router :=
  mk_router [mk_site [":default"] [rt Prefix "/x"]; mk_site ["a.com"] [rt Exact "/x"; rt Prefix "/*"; rt Regex "/x"]].

(** On two declared sites and three routes for one path. *)
Lemma route_most_specific_witness :
  most_specific demo_router "a.com" "/x" "GET" (route demo_router "a.com:80" "/x" "GET").
Proof. apply (route_most_specific demo_router "a.com:80" "/x" "GET"). reflexivity. Defined.

(** A method refinement does not make a route more specific. *)
Example refined_route_shadowed :
  let refined := mk_route Prefix "/*" (Some "POST") [] None (Respond 201 "") in
  route (mk_router [mk_site ["a.com"] [refined; rt Prefix "/*"]]) "a.com" "/x" "POST" = Some (rt Prefix "/*").
Proof. reflexivity. Qed.

Lemma route_precedence_witness :
  (kind (rt Exact "/x") = Exact -> kind (rt Exact "/x") = Exact)
  /\ (kind (rt Exact "/x") = Prefix -> kind (rt Exact "/x") <> Regex).
Proof.
  apply (route_precedence demo_router "a.com:80" "/x" "GET"
    (mk_site ["a.com"] [rt Exact "/x"; rt Prefix "/*"; rt Regex "/x"]) (rt Exact "/x") (rt Exact "/x")).
  - simpl. lia.
  - reflexivity.
  - simpl. set_solver.
  - by eexists.
  - reflexivity.
Defined.

(** A wildcard host also serves hosts outside its domain: [*.suffix]
    matches every longer host that ends in the suffix, without a dot before
    it. *)
Theorem wildcard_ignores_boundary (suffix x : string) (Hx : x <> "") :
  is_Some (pattern_score (x +:+ suffix) ("*." +:+ suffix)).
Proof.
  unfold pattern_score. destruct (String.eqb_spec ("*." +:+ suffix) (x +:+ suffix)); [by eexists|].
  destruct (String.eqb_spec ("*." +:+ suffix) ":default"); [done|].
  rewrite strip_prefix_app. rewrite length_append.
  assert (String.length x <> O) by (by destruct x).
  rewrite (proj2 (Nat.ltb_lt _ _)) by lia.
  rewrite (proj2 (ends_with_spec suffix (x +:+ suffix))) by (by eexists). by eexists.
Qed.

Lemma wildcard_ignores_boundary_witness : is_Some (pattern_score ("evil" +:+ "example.com") ("*." +:+ "example.com")).
Proof. apply (wildcard_ignores_boundary "example.com" "evil"). discriminate. Defined.
