(* ===== verification/Proxy.v ===== *)
(** * [pulsate-proxy]: pools, balancing, circuit breaking and forwarding

    [lib.rs] and [forward.rs].  The atomics and the mutex of a target are the
    fields of its state; one operation on them is one step.  The clock reading
    of an operation is an argument.  Parameters: the hash of the standard
    library's unspecified [DefaultHasher], the largest [Instant], the URI
    parser, and the HTTP client, which during its [await] may also let other
    tasks change the pool. *)

From Stdlib Require Import ZArith Ascii String Lia.
From stdpp Require Import base option list gmap strings.
From S2P Require Import Prelude RustStr RustNet CoreTypes UtilParse Http Message.
Local Open Scope string_scope.
Local Open Scope list_scope.
Local Open Scope Z_scope.
Local Open Scope rust_scope.

Module Proxy.

Inductive Policy := RoundRobin | LeastConn | Random | IpHash.

Definition policy_parse (s : string) : Policy :=
  if (s =? "least_conn")%string then LeastConn
  else if (s =? "random")%string then Random
  else if (s =? "ip_hash")%string then IpHash
  else RoundRobin.

Record RetryPolicy := mk_retry {
  attempts : Z;
  retry_on_status : list Z;
  on_connect_error : bool;
}.
Definition retry_default : RetryPolicy := mk_retry 1 [502; 503; 504] true.

Record BreakerPolicy := mk_breaker { threshold : Z; open_for : Duration }.
Definition breaker_default : BreakerPolicy := mk_breaker 5 (from_secs 15).

Record TargetState := mk_state {
  inflight : Z;
  consecutive_failures : Z;
  ejected_until : option Z;
}.
Definition state_default : TargetState := mk_state 0 0 None.

Record Backend := mk_backend { url : string; weight : Z; state : TargetState }.

Record Upstream := mk_upstream {
  up_name : string;
  backends : list Backend;
  policy : Policy;
  retry : RetryPolicy;
  breaker : BreakerPolicy;
  rr : Z;
}.

Definition upstream_new (name : string) (targets : list (string * Z)) (p : Policy) (r : RetryPolicy)
    (b : BreakerPolicy) : Upstream :=
  mk_upstream name
    ((fun '(url, weight) =>
        mk_backend (trim_end_matches (fun c => Ascii.eqb c "/") url) (Z.max weight 1) state_default) <$> targets)
    p r b 0.

Definition target_count (u : Upstream) : nat := length (backends u).
Definition target_url (u : Upstream) (i : nat) : option string := url <$> backends u !! i.

Definition set_backends (u : Upstream) (bs : list Backend) : Upstream :=
  mk_upstream (up_name u) bs (policy u) (retry u) (breaker u) (rr u).
Definition set_rr (u : Upstream) (n : Z) : Upstream :=
  mk_upstream (up_name u) (backends u) (policy u) (retry u) (breaker u) n.
(** Change the state of target [i]; nothing when there is none. *)
Definition on_target (i : nat) (f : TargetState -> TargetState) (u : Upstream) : Upstream :=
  set_backends u (alter (fun b => mk_backend (url b) (weight b) (f (state b))) i (backends u)).

Definition is_ejected (now : Z) (s : TargetState) : bool :=
  match ejected_until s with Some t => now <? t | None => false end.

(** The targets not ejected, by index; [now i] is the clock read for [i]. *)
Definition eligible (now : nat -> Z) (u : Upstream) : list nat :=
  omap (fun '(i, b) => if is_ejected (now i) (state b) then None else Some i) (imap pair (backends u)).

(** [min_by_key] keeps the first of the least. *)
Fixpoint min_by (f : nat -> Z) (best : nat) (l : list nat) : nat :=
  match l with
  | [] => best
  | i :: l' => min_by f (if f i <? f best then i else best) l'
  end.

Definition inflight_of (u : Upstream) (i : nat) : Z :=
  match backends u !! i with Some b => inflight (state b) | None => 0 end.

Section Pick.
(** [client_ip.hash(&mut DefaultHasher::new())], then [finish]. *)
Variable hash_ip : option IpAddr -> Z.

Definition nth_mod (l : list nat) (n : Z) : option nat :=
  l !! Z.to_nat (n mod Z.of_nat (length l)).

Definition pick (now : nat -> Z) (client_ip : option IpAddr) (u : Upstream) : option nat * Upstream :=
  match eligible now u with
  | [] => (None, u)
  | i :: rest =>
    let el := i :: rest in
    match policy u with
    | RoundRobin => (nth_mod el (rr u), set_rr u (rr u +₆₄ 1))
    | LeastConn => (Some (min_by (inflight_of u) i rest), u)
    | Random => (nth_mod el (rr u *₆₄ 2654435761), set_rr u (rr u +₆₄ 1))
    | IpHash => (nth_mod el (hash_ip client_ip), u)
    end
  end.

Definition record_success (i : nat) : Upstream -> Upstream :=
  on_target i (fun s => mk_state (inflight s) 0 None).

Definition wrap_u32 (z : Z) : Z := z mod 2 ^ 32.

(** [Instant + Duration] panics past the largest instant. *)
Variable instant_max : Z.
Definition instant_add {E} (now : Z) (d : Duration) : exec E Z :=
  if now + d <=? instant_max then Ok (now + d) else Panic.

Definition record_failure (now : Z) (i : nat) (u : Upstream) : exec () Upstream :=
  match backends u !! i with
  | None => Ok u
  | Some b =>
    let n := wrap_u32 (consecutive_failures (state b) + 1) in
    if threshold (breaker u) <=? n then
      until ← instant_add now (open_for (breaker u));
      Ok (on_target i (fun s => mk_state (inflight s) 0 (Some until)) u)
    else Ok (on_target i (fun s => mk_state (inflight s) n (ejected_until s)) u)
  end.

Definition inflight_inc (i : nat) : Upstream -> Upstream :=
  on_target i (fun s => mk_state (inflight s +₆₄ 1) (consecutive_failures s) (ejected_until s)).
Definition inflight_dec (i : nat) : Upstream -> Upstream :=
  on_target i (fun s => mk_state (inflight s -₆₄ 1) (consecutive_failures s) (ejected_until s)).

(** ** The registry: pools by name, each behind an [Arc] *)
Record Registry := mk_registry { reg_map : gmap string Upstream }.
Definition registry_new : Registry := mk_registry ∅.
Definition registry_insert (u : Upstream) (r : Registry) : Registry :=
  mk_registry (<[up_name u := u]> (reg_map r)).
Definition registry_get (name : string) (r : Registry) : option Upstream := reg_map r !! name.
Definition registry_len (r : Registry) : nat := size (reg_map r).
Definition registry_is_empty (r : Registry) : bool := (registry_len r =? 0)%nat.

(** ** Headers of one hop *)
Context `{HeaderOps}.

Definition HOP_BY_HOP : list string :=
  ["connection"; "keep-alive"; "proxy-authenticate"; "proxy-authorization"; "te"; "trailers";
   "transfer-encoding"; "upgrade"; "host"; "content-length"].

Definition connection_strip_set (h : HeaderMap) : list string :=
  HOP_BY_HOP ++
  match get_str h "connection" with
  | Some conn => filter (fun t => t <> "") ((to_ascii_lowercase ∘ trim) <$> split_char "," conn)
  | None => []
  end.

(** Insert every header of [src] that is not stripped. *)
Definition copy_header (strip : list string) (out : HeaderMap) (x : string * HeaderValue) : HeaderMap :=
  if decide (x.1 ∈ strip) then out else hm_insert x.1 x.2 out.
Definition copy_headers (strip : list string) (src out : HeaderMap) : HeaderMap :=
  foldl (copy_header strip) out (hm_iter src).

Definition insert_ok (name value : string) (h : HeaderMap) : HeaderMap :=
  match value_from_str value with Some v => hm_insert name v h | None => h end.

Definition apply_forwarded (orig : HeaderMap) (client_ip : option IpAddr) (orig_host : string)
    (out : HeaderMap) : HeaderMap :=
  let out := match client_ip with
             | Some ip =>
               let xff := match get_str orig "x-forwarded-for" with
                          | Some existing => existing +:+ ", " +:+ show_ip ip
                          | None => show_ip ip
                          end in
               insert_ok "x-forwarded-for" xff out
             | None => out
             end in
  let out := insert_ok "x-forwarded-host" orig_host out in
  let out := hm_insert "x-forwarded-proto" (value_from_static "http") out in
  hm_insert "via" (value_from_static "1.1 pulsate") out.

Record OutRequest := mk_out { out_method : string; out_uri : string; out_headers : HeaderMap; out_body : string }.

(** [str::parse::<Uri>]. *)
Variable parse_uri : string -> option string.

Definition build_request (method base path_and_query : string) (req_headers : HeaderMap) (body : string)
    (client_ip : option IpAddr) (orig_host : string) : option OutRequest :=
  uri ← parse_uri (base +:+ path_and_query);
  let headers := copy_headers (connection_strip_set req_headers) req_headers hm_empty in
  Some (mk_out method uri (apply_forwarded req_headers client_ip orig_host headers) body).

(** An upstream response; its body may fail to arrive. *)
Record UpResponse := mk_up { u_status : Z; u_headers : HeaderMap; u_body : option string }.

Definition normalize_response (r : UpResponse) : Response :=
  let headers := copy_headers (connection_strip_set (u_headers r)) (u_headers r) hm_empty in
  with_body (headers_mut (fun _ => headers) (response_new (u_status r))) (default "" (u_body r)).

Definition error_response (code : Code) : Response :=
  let status := default 502 (status_from_u16 (http_status code)) in
  let resp := headers_mut (hm_insert "content-type" (value_from_static "text/plain; charset=utf-8"))
                (response_new status) in
  with_body resp (code_display code +:+ ": " +:+ code_title code).

(** ** Forwarding *)

(** The HTTP client on its [k]-th call: a response or a transport error, and
    the pool as the other tasks left it. *)
Variable send : nat -> OutRequest -> Upstream -> option UpResponse * Upstream.
(** The clock at each try: when picking and when recording a failure. *)
Variable clock_pick : nat -> nat -> Z.
Variable clock_fail : nat -> Z.

Section Forward.
Variables (method path_and_query : string) (req_headers : HeaderMap) (body : string).
Variables (client_ip : option IpAddr) (orig_host : string).

(** The loop, with [n] tries left; the requests sent so far are [k]. *)
Fixpoint forward_loop (n : nat) (policy : RetryPolicy) (k : nat) (u : Upstream)
    : exec () (Response * nat * Upstream) :=
  match n with
  | O => Ok (error_response PRX_RETRY_EXHAUSTED, k, u)
  | S n =>
    let '(idx, u) := pick (clock_pick k) client_ip u in
    match idx with
    | None => Ok (error_response PRX_NO_HEALTHY, k, u)
    | Some idx =>
      match target_url u idx with
      | None => Ok (error_response PRX_NO_HEALTHY, k, u)
      | Some base =>
        match build_request method base path_and_query req_headers body client_ip orig_host with
        | None => Ok (error_response PRX_PROTOCOL_ERROR, k, u)
        | Some request =>
          let u := inflight_inc idx u in
          let '(result, u) := send k request u in
          let u := inflight_dec idx u in
          match result with
          | Some resp =>
            if decide (u_status resp ∈ retry_on_status policy) then
              u ← record_failure (clock_fail k) idx u;
              forward_loop n policy (S k) u
            else Ok (normalize_response resp, S k, record_success idx u)
          | None =>
            u ← record_failure (clock_fail k) idx u;
            if on_connect_error policy then forward_loop n policy (S k) u
            else Ok (error_response PRX_CONNECT_TIMEOUT, S k, u)
          end
        end
      end
    end
  end.

Definition forward (u : Upstream) : exec () (Response * nat * Upstream) :=
  forward_loop (Z.to_nat (Z.max (attempts (retry u)) 1)) (retry u) 0 u.
End Forward.
End Pick.
End Proxy.
