(* ===== verification/ProxyProps.v ===== *)
(** * Properties of [pulsate-proxy] *)

From Stdlib Require Import ZArith Ascii String Lia.
From stdpp Require Import base option list gmap strings.
From S2P Require Import Prelude RustStr RustNet CoreTypes UtilParse Http Message Proxy.
Import Proxy.
Local Open Scope string_scope.
Local Open Scope list_scope.
Local Open Scope Z_scope.

(** ** Picking a target *)

(** Target [i] exists and is not ejected. *)
Definition healthy (now : nat -> Z) (u : Upstream) (i : nat) : Prop :=
  exists b, backends u !! i = Some b /\ is_ejected (now i) (state b) = false.

Lemma elem_of_eligible now u i : i ∈ eligible now u <-> healthy now u i.
Proof.
  unfold eligible, healthy. rewrite list_elem_of_omap. split.
  - intros ([j b] & Hin & E). apply elem_of_lookup_imap in Hin as (j' & b' & [= <- <-] & Hb).
    destruct (is_ejected (now j) (state b)) eqn:Ej; [done|]. injection E as <-. eauto.
  - intros (b & Hb & Ej). exists (i, b). split; [by apply elem_of_lookup_imap_2|]. by rewrite Ej.
Qed.

Lemma nth_mod_Some l n : l <> [] -> exists i, nth_mod l n = Some i /\ i ∈ l.
Proof.
  intros Hl. unfold nth_mod. assert (0 < Z.of_nat (length l)) by (destruct l; [done|simpl; lia]).
  destruct (lookup_lt_is_Some_2 l (Z.to_nat (n mod Z.of_nat (length l)))) as [i Hi].
  { pose proof (Z.mod_pos_bound n (Z.of_nat (length l)) ltac:(lia)). lia. }
  exists i. split; [done|]. by eapply list_elem_of_lookup_2.
Qed.

Lemma min_by_spec f best l :
  let r := min_by f best l in r ∈ best :: l /\ forall i, i ∈ best :: l -> f r <= f i.
Proof.
  revert best. induction l as [|x l IH]; intros best; simpl.
  { split; [set_solver|]. intros i ->%list_elem_of_singleton. lia. }
  destruct (IH (if f x <? f best then x else best)) as [Hin Hle]. split.
  - destruct (f x <? f best); set_solver.
  - intros i Hi. destruct (Z.ltb_spec (f x) (f best)) as [Hlt|Hge].
    + pose proof (Hle x ltac:(set_solver)).
      apply elem_of_cons in Hi as [->|[->|Hi]%elem_of_cons]; [lia|lia|]. apply Hle. set_solver.
    + pose proof (Hle best ltac:(set_solver)).
      apply elem_of_cons in Hi as [->|[->|Hi]%elem_of_cons]; [lia|lia|]. apply Hle. set_solver.
Qed.

(** A pick never lands on an ejected target, and fails only when every
    target is ejected; under [least_conn] no healthy target has fewer requests
    in flight; and the pool changes at most in its rotation counter. *)
Theorem pick_healthy (hash_ip : option IpAddr -> Z) (now : nat -> Z) (client_ip : option IpAddr)
    (u : Upstream) :
  let '(idx, u') := pick hash_ip now client_ip u in
  match idx with
  | None => forall i, ~ healthy now u i
  | Some i => healthy now u i
      /\ (policy u = LeastConn -> forall j, healthy now u j -> inflight_of u i <= inflight_of u j)
  end
  /\ exists n, u' = set_rr u n.
Proof.
  assert (Hid : u = set_rr u (rr u)) by (by destruct u).
  unfold pick. pose proof (elem_of_eligible now u) as Hel.
  destruct (eligible now u) as [|i rest] eqn:E.
  { split; [|eauto]. intros i Hi%Hel. set_solver. }
  destruct (policy u) eqn:Ep.
  - destruct (nth_mod_Some (i :: rest) (rr u)) as (j & -> & Hj); [done|]. split; [|eauto].
    split; [by apply Hel|done].
  - destruct (min_by_spec (inflight_of u) i rest) as [Hin Hle]. split; [|eauto].
    split; [by apply Hel|]. intros _ j Hj%Hel. by apply Hle.
  - destruct (nth_mod_Some (i :: rest) (wrap_u64 (rr u * 2654435761))) as (j & -> & Hj); [done|].
    split; [|eauto]. split; [by apply Hel|done].
  - destruct (nth_mod_Some (i :: rest) (hash_ip client_ip)) as (j & -> & Hj); [done|]. split; [|eauto].
    split; [by apply Hel|done].
Qed.

(** [n] picks in a row, with nothing in between. *)
Fixpoint picks (hash_ip : option IpAddr -> Z) (now : nat -> Z) (ip : option IpAddr) (n : nat) (u : Upstream)
    : list (option nat) :=
  match n with
  | O => []
  | S n => let '(i, u') := pick hash_ip now ip u in i :: picks hash_ip now ip n u'
  end.

Lemma picks_round_robin hash_ip now ip n u el :
  policy u = RoundRobin -> eligible now u = el -> el <> [] -> 0 <= rr u ->
  rr u + Z.of_nat n <= u64_max ->
  picks hash_ip now ip n u = (fun j => nth_mod el (rr u + Z.of_nat j)) <$> seq 0 n.
Proof.
  intros Hp He Hne. revert u Hp He. induction n as [|n IH]; intros u Hp He H0 Hmax; [done|].
  cbn [picks]. unfold pick. rewrite He, Hp. destruct el as [|i rest]; [done|].
  rewrite IH; simpl; try done.
  - rewrite wrap_u64_small by lia. cbn [rr set_rr]. rewrite Z.add_0_r. f_equal.
    rewrite <-fmap_S_seq, <-list_fmap_compose. apply list_fmap_ext. intros j k _. simpl. f_equal. lia.
  - rewrite wrap_u64_small by lia. lia.
  - rewrite wrap_u64_small by lia. lia.
Qed.

(** Round-robin is fair: as long as the healthy targets stay the same, as
    many picks in a row as there are healthy targets choose each of them
    once. *)
Theorem round_robin_fair (hash_ip : option IpAddr -> Z) (now : nat -> Z) (ip : option IpAddr) (u : Upstream)
    (Hp : policy u = RoundRobin) (Hne : eligible now u <> [])
    (Hrr : 0 <= rr u /\ rr u + Z.of_nat (length (eligible now u)) <= u64_max) :
  picks hash_ip now ip (length (eligible now u)) u ≡ₚ Some <$> eligible now u.
Proof.
  set (el := eligible now u) in *. rewrite (picks_round_robin _ _ _ _ _ el) by (done || lia).
  trans (Some <$> rotate (Z.to_nat (rr u)) el).
  - apply reflexive_eq, list_eq. intros j. rewrite !list_lookup_fmap.
    destruct (decide (j < length el)%nat) as [Hj|Hj].
    + rewrite lookup_seq_lt, lookup_rotate_r by done. simpl. unfold nth_mod, rotate_nat_add.
      rewrite Z2Nat.id by lia.
      destruct (lookup_lt_is_Some_2 el (Z.to_nat ((rr u + Z.of_nat j) mod Z.of_nat (length el)))) as [x Hx].
      { pose proof (Z.mod_pos_bound (rr u + Z.of_nat j) (Z.of_nat (length el)) ltac:(lia)). lia. }
      by rewrite Hx.
    + rewrite lookup_seq_ge, (lookup_ge_None_2 (rotate _ _)) by (rewrite ?length_rotate; lia). done.
  - apply fmap_Permutation. unfold rotate.
    rewrite <-(take_drop (Z.to_nat (rr u) mod length el) el) at 5. apply Permutation_app_comm.
Qed.

Definition demo_pool : Upstream :=
  upstream_new "api" [("http://a/", 1); ("http://b", 0); ("http://c", 2)] RoundRobin retry_default breaker_default.

Lemma round_robin_fair_witness :
  picks (fun _ => 0) (fun _ => 0) None (length (eligible (fun _ => 0) demo_pool)) demo_pool
  ≡ₚ Some <$> eligible (fun _ => 0) demo_pool.
Proof.
  apply (round_robin_fair (fun _ => 0) (fun _ => 0) None demo_pool);
    [reflexivity|vm_compute; discriminate|vm_compute; split; discriminate].
Defined.

(** ** The circuit breaker *)

Lemma on_target_lookup i f u j :
  backends (on_target i f u) !! j =
  if decide (i = j) then (fun b => mk_backend (url b) (weight b) (f (state b))) <$> backends u !! j
  else backends u !! j.
Proof.
  unfold on_target, set_backends. simpl. case_decide as E; [subst|].
  - by rewrite list_lookup_alter_eq.
  - by rewrite list_lookup_alter_ne.
Qed.

(** Failures of target [i] at the given times, in order. *)
Fixpoint fail_all (instant_max : Z) (i : nat) (times : list Z) (u : Upstream) : exec () Upstream :=
  match times with
  | [] => Ok u
  | t :: rest => u' ← record_failure instant_max t i u; fail_all instant_max i rest u'
  end.

Lemma record_failure_spec instant_max now i u b :
  backends u !! i = Some b -> 0 <= consecutive_failures (state b) < u32_max ->
  let n := consecutive_failures (state b) + 1 in
  (n < threshold (breaker u) ->
     record_failure instant_max now i u
     = Ok (on_target i (fun s => mk_state (inflight s) n (ejected_until s)) u))
  /\ (threshold (breaker u) <= n -> now + open_for (breaker u) <= instant_max ->
     record_failure instant_max now i u
     = Ok (on_target i (fun s => mk_state (inflight s) 0 (Some (now + open_for (breaker u)))) u)).
Proof.
  intros Hb Hn. unfold record_failure. rewrite Hb. unfold wrap_u32, u32_max in *.
  rewrite Z.mod_small by lia. split; intros H.
  - by rewrite (proj2 (Z.leb_gt _ _)) by lia.
  - intros Hmax. rewrite (proj2 (Z.leb_le _ _)) by lia. unfold instant_add.
    by rewrite (proj2 (Z.leb_le _ _)) by lia.
Qed.

Lemma fail_streak instant_max i times : forall u b n,
  backends u !! i = Some b -> consecutive_failures (state b) = n -> 0 <= n ->
  n + Z.of_nat (length times) < threshold (breaker u) -> threshold (breaker u) <= u32_max ->
  exists u', fail_all instant_max i times u = Ok u' /\ breaker u' = breaker u
    /\ backends u' !! i = Some (mk_backend (url b) (weight b)
         (mk_state (inflight (state b)) (n + Z.of_nat (length times)) (ejected_until (state b)))).
Proof.
  induction times as [|t times IH]; intros u b n Hb Hn H0 Hlt Hmax.
  { exists u. split_and!; [done|done|]. rewrite Hb. destruct b as [? ? [? ? ?]]; simpl in *. subst. by rewrite Z.add_0_r. }
  cbn [fail_all length] in *. rewrite Nat2Z.inj_succ in *.
  destruct (record_failure_spec instant_max t i u b Hb) as [Hf _]; [lia|].
  rewrite Hf by lia. simpl.
  destruct (IH (on_target i (fun s => mk_state (inflight s) (consecutive_failures (state b) + 1) (ejected_until s)) u)
    (mk_backend (url b) (weight b) (mk_state (inflight (state b)) (n + 1) (ejected_until (state b)))) (n + 1))
    as (u' & E & Hbr & Hb'); try done; try (simpl; lia).
  { rewrite on_target_lookup, decide_True, Hb by done. simpl. by rewrite Hn. }
  exists u'. split_and!; [done|done|]. rewrite Hb'. simpl. do 3 f_equal. lia.
Qed.

Lemma fail_all_app instant_max i ts ts' u :
  fail_all instant_max i (ts ++ ts') u = (u' ← fail_all instant_max i ts u; fail_all instant_max i ts' u').
Proof.
  revert u. induction ts as [|t ts IH]; intros u; [done|]. cbn [app fail_all].
  destruct (record_failure instant_max t i u); [apply IH|done..].
Qed.

Lemma record_success_lookup i u b :
  backends u !! i = Some b ->
  backends (record_success i u) !! i = Some (mk_backend (url b) (weight b) (mk_state (inflight (state b)) 0 None)).
Proof. intros Hb. unfold record_success. by rewrite on_target_lookup, decide_True, Hb. Qed.

(** The breaker opens exactly at its threshold: after a success, fewer
    consecutive failures than the threshold leave the target in rotation; the
    failure that reaches it ejects the target until [open_for] later, with the
    streak back at zero; and a success puts it back at once. *)
Theorem breaker_opens_at_threshold (instant_max : Z) (i : nat) (u : Upstream) (b : Backend)
    (times : list Z) (t : Z)
    (Hb : backends u !! i = Some b)
    (Hth : threshold (breaker u) = Z.of_nat (length times) + 1)
    (Hu32 : threshold (breaker u) <= u32_max)
    (Hmax : t + open_for (breaker u) <= instant_max) :
  let u0 := record_success i u in
  (exists u1 b1, fail_all instant_max i times u0 = Ok u1 /\ backends u1 !! i = Some b1
     /\ (forall now, is_ejected now (state b1) = false))
  /\ (exists u2 b2, fail_all instant_max i (times ++ [t]) u0 = Ok u2 /\ backends u2 !! i = Some b2
     /\ consecutive_failures (state b2) = 0
     /\ (forall now, is_ejected now (state b2) = true <-> now < t + open_for (breaker u))
     /\ exists b3, backends (record_success i u2) !! i = Some b3
          /\ forall now, is_ejected now (state b3) = false).
Proof.
  intros u0. pose proof (record_success_lookup i u b Hb) as Hb0. fold u0 in Hb0.
  destruct (fail_streak instant_max i times u0 _ 0 Hb0) as (u1 & E1 & Hbr & Hb1); try done; [simpl; lia..|].
  split.
  { exists u1. eexists. split_and!; [done|done|]. intros now. reflexivity. }
  rewrite fail_all_app, E1. cbn [mbind exec_bind fail_all].
  destruct (record_failure_spec instant_max t i u1 _ Hb1) as [_ Hf]; [simpl; lia|].
  rewrite Hf by (rewrite Hbr; simpl; lia). cbn [mbind exec_bind].
  set (u2 := on_target i _ u1).
  assert (Hb2 : backends u2 !! i = Some (mk_backend (url b) (weight b)
    (mk_state (inflight (state b)) 0 (Some (t + open_for (breaker u)))))).
  { unfold u2. rewrite on_target_lookup, decide_True, Hb1 by done. simpl. by rewrite Hbr. }
  exists u2. eexists. split_and!; [done|exact Hb2|done| |].
  - intros now. unfold is_ejected. simpl. by rewrite Z.ltb_lt.
  - eexists. split; [by apply record_success_lookup|]. done.
Qed.

Lemma breaker_opens_at_threshold_witness :
  exists u1 b1, fail_all 1000000000000 1 [1; 2; 3; 4] (record_success 1 demo_pool) = Ok u1
    /\ backends u1 !! 1%nat = Some b1 /\ (forall now, is_ejected now (state b1) = false).
Proof.
  apply (breaker_opens_at_threshold 1000000000000 1 demo_pool
    (mk_backend "http://b" 1 state_default) [1; 2; 3; 4] 5);
    [vm_compute; reflexivity|vm_compute; reflexivity|vm_compute; discriminate|vm_compute; discriminate].
Defined.

(** ** Weights

    A backend keeps the weight it is given, and no policy reads it: whatever
    the weights, the same targets are picked. *)
Definition reweigh (f : nat -> Z) (u : Upstream) : Upstream :=
  set_backends u (imap (fun i b => mk_backend (url b) (f i) (state b)) (backends u)).

Lemma eligible_reweigh now f u : eligible now (reweigh f u) = eligible now u.
Proof.
  unfold eligible, reweigh, set_backends. cbn [backends].
  assert (G : forall (bs : list Backend) g h,
    omap (fun '(i, b) => if is_ejected (now i) (state b) then None else Some i)
      (imap (fun i b => (g i, b)) (imap (fun i b => mk_backend (url b) (f (h i)) (state b)) bs))
    = omap (fun '(i, b) => if is_ejected (now i) (state b) then None else Some i) (imap (fun i b => (g i, b)) bs)).
  { induction bs as [|b bs IH]; intros g h; [done|]. cbn. specialize (IH (g ∘ S) (h ∘ S)). unfold compose in IH.
    unfold compose. by rewrite IH. }
  apply (G (backends u) id id).
Qed.

Lemma inflight_reweigh f u i : inflight_of (reweigh f u) i = inflight_of u i.
Proof. unfold inflight_of, reweigh, set_backends. cbn [backends]. rewrite list_lookup_imap. by destruct (backends u !! i). Qed.

Lemma pick_ignores_weights hash_ip now client_ip f u :
  pick hash_ip now client_ip (reweigh f u) = let '(i, u') := pick hash_ip now client_ip u in (i, reweigh f u').
Proof.
  unfold pick. rewrite eligible_reweigh. destruct (eligible now u) as [|i rest]; [done|].
  change (policy (reweigh f u)) with (policy u). change (rr (reweigh f u)) with (rr u).
  destruct (policy u); try done.
  assert (G : forall best, min_by (inflight_of (reweigh f u)) best rest = min_by (inflight_of u) best rest).
  { induction rest as [|j rest IH]; intros best; [done|]. cbn [min_by]. by rewrite !inflight_reweigh, IH. }
  by rewrite G.
Qed.

(** ** Headers of one hop *)
Section Headers.
Context `{HeaderOps} `{!HeaderLaws}.

Lemma copy_values strip l n : forall out,
  hm_values (foldl (copy_header strip) out l) n
  = match last (snd <$> filter (fun x => same_name x.1 n /\ x.1 ∉ strip) l) with
    | Some v => [v]
    | None => hm_values out n
    end.
Proof.
  induction l as [|[m v] l IH]; intros out; [done|]. cbn [foldl]. rewrite IH, filter_cons.
  unfold copy_header. cbn [fst snd]. destruct (decide (m ∈ strip)) as [Hs|Hs].
  { by rewrite decide_False by (simpl; tauto). }
  destruct (decide (same_name m n)) as [Hn|Hn].
  - rewrite decide_True by done. cbn [fmap list_fmap snd]. rewrite last_cons, hm_values_insert, decide_True by done.
    by destruct (last _).
  - rewrite decide_False by (simpl; tauto). by rewrite hm_values_insert, decide_False.
Qed.

(** A copied map keeps, for each name that is not stripped, its last value. *)
Lemma copy_headers_values strip src n :
  hm_values (copy_headers strip src hm_empty) n
  = if decide (to_ascii_lowercase n ∈ strip) then []
    else option_list (last (hm_values src n)).
Proof.
  unfold copy_headers. rewrite copy_values, hm_values_empty. unfold hm_values.
  assert (E : forall l, (forall x, x ∈ l -> to_ascii_lowercase x.1 = x.1) ->
    filter (fun x : string * HeaderValue => same_name x.1 n /\ x.1 ∉ strip) l
    = if decide (to_ascii_lowercase n ∈ strip) then [] else filter (fun x => same_name x.1 n) l).
  { induction l as [|x l IH]; intros Hl; [by case_decide|]. rewrite !filter_cons, IH by set_solver.
    assert (same_name x.1 n -> x.1 = to_ascii_lowercase n).
    { unfold same_name. rewrite (Hl x) by set_solver. done. }
    destruct (decide (to_ascii_lowercase n ∈ strip)) as [Hs|Hs].
    - rewrite decide_False; [done|]. intros [Hx%H1 Hn]. by rewrite Hx in Hn.
    - destruct (decide (same_name x.1 n)) as [Hx|Hx].
      + rewrite decide_True; [done|]. split; [done|]. by rewrite H1.
      + by rewrite decide_False by tauto. }
  rewrite E by apply hm_iter_lower. case_decide; [done|]. by destruct (last _).
Qed.
End Headers.

(** The headers the proxy writes itself. *)
Definition proxy_headers : list string := ["x-forwarded-for"; "x-forwarded-host"; "x-forwarded-proto"; "via"].

Section Forwarded.
Context `{HeaderOps} `{!HeaderLaws}.

Lemma insert_ok_other n name value h :
  ~ same_name name n -> hm_values (insert_ok name value h) n = hm_values h n.
Proof.
  intros Hn. unfold insert_ok. destruct (value_from_str value); [|done]. by rewrite hm_values_insert, decide_False.
Qed.

Lemma apply_forwarded_other orig ip host out n :
  to_ascii_lowercase n ∉ proxy_headers ->
  hm_values (apply_forwarded orig ip host out) n = hm_values out n.
Proof.
  intros Hn. assert (Hother : forall m, m ∈ proxy_headers -> to_ascii_lowercase m = m -> ~ same_name m n).
  { intros m Hm Hl Hs. apply Hn. unfold same_name in Hs. by rewrite <-Hs, Hl. }
  unfold apply_forwarded. rewrite !hm_values_insert, !decide_False by (apply Hother; [set_solver|done]).
  rewrite insert_ok_other by (apply Hother; [set_solver|done]).
  destruct ip; [|done]. apply insert_ok_other. apply Hother; [set_solver|done].
Qed.
End Forwarded.

(** Hop-by-hop hygiene of a forwarded request: a header the hop strips
    (the static list, or any name in the client's [Connection] value, in any
    case) never reaches the upstream unless the proxy writes it itself; every
    other header arrives with its last value; and the client's address is
    appended to [X-Forwarded-For]. *)
Theorem forwarded_headers `{HeaderOps} `{!HeaderLaws} (parse_uri : string -> option string)
    (method base paq body host : string) (req : HeaderMap) (ip : option IpAddr) (out : OutRequest)
    (Hout : build_request parse_uri method base paq req body ip host = Some out) :
  (forall n, to_ascii_lowercase n ∉ proxy_headers ->
     hm_values (out_headers out) n
     = if decide (to_ascii_lowercase n ∈ connection_strip_set req) then [] else option_list (last (hm_values req n)))
  /\ (forall a v, ip = Some a ->
        value_from_str (match get_str req "x-forwarded-for" with
                        | Some existing => existing +:+ ", " +:+ show_ip a
                        | None => show_ip a
                        end) = Some v ->
        hm_values (out_headers out) "x-forwarded-for" = [v])
  /\ hm_values (out_headers out) "via" = [value_from_static "1.1 pulsate"]
  /\ hm_values (out_headers out) "x-forwarded-proto" = [value_from_static "http"].
Proof.
  unfold build_request in Hout. destruct (parse_uri _) as [uri|]; [|done]. injection Hout as <-. cbn [out_headers].
  split_and!.
  - intros n Hn. rewrite apply_forwarded_other by done. apply copy_headers_values.
  - intros a v -> Hv. unfold apply_forwarded. rewrite !hm_values_insert, !decide_False by done.
    rewrite insert_ok_other by done. unfold insert_ok. rewrite Hv. by rewrite hm_values_insert, decide_True.
  - unfold apply_forwarded. by rewrite hm_values_insert, decide_True.
  - unfold apply_forwarded. by rewrite hm_values_insert, decide_False, hm_values_insert, decide_True.
Qed.

(** A normalized response keeps one value per header: of several values
    of a name that is not stripped, such as [Set-Cookie], only the last
    reaches the client. *)
Theorem normalize_keeps_last_value `{HeaderOps} `{!HeaderLaws} (r : UpResponse) (n : string)
    (vs : list HeaderValue) (v : HeaderValue)
    (Hn : to_ascii_lowercase n ∉ connection_strip_set (u_headers r))
    (Hvs : hm_values (u_headers r) n = vs ++ [v]) :
  hm_values (resp_headers (normalize_response r)) n = [v].
Proof.
  unfold normalize_response. simpl. rewrite copy_headers_values, decide_False by done.
  by rewrite Hvs, last_snoc.
Qed.

(** ** Forwarding *)
Section Forward.
Variable hash_ip : option IpAddr -> Z.
Variable instant_max : Z.
Context `{HeaderOps}.
Variable parse_uri : string -> option string.
Variable send : nat -> OutRequest -> Upstream -> option UpResponse * Upstream.
Variable clock_pick : nat -> nat -> Z.
Variable clock_fail : nat -> Z.
Variables (method path_and_query : string) (req_headers : HeaderMap) (body : string).
Variables (client_ip : option IpAddr) (orig_host : string).

(** What the requests in flight look like to other tasks: the number of each
    target, in range. *)
Definition loads (u : Upstream) : list Z := (fun b => inflight (state b)) <$> backends u.


Lemma loads_on_target i f g u :
  (forall s, inflight (f s) = g (inflight s)) -> loads (on_target i f u) = alter g i (loads u).
Proof.
  intros Hf. apply list_eq. intros j. unfold loads. rewrite list_lookup_fmap, on_target_lookup.
  case_decide as E; [subst|].
  - rewrite list_lookup_alter_eq, list_lookup_fmap. destruct (backends u !! j); [|done]. simpl. by rewrite Hf.
  - by rewrite list_lookup_alter_ne, list_lookup_fmap.
Qed.

Lemma alter_id {A} (f : A -> A) i (l : list A) : (forall x, l !! i = Some x -> f x = x) -> alter f i l = l.
Proof.
  intros Hf. apply list_eq. intros j. destruct (decide (i = j)) as [->|Hj].
  - rewrite list_lookup_alter_eq. destruct (l !! j) as [a|] eqn:E; [|done]. simpl. by rewrite (Hf a eq_refl).
  - by rewrite list_lookup_alter_ne.
Qed.

Lemma alter_alter {A} (f g : A -> A) i (l : list A) : alter f i (alter g i l) = alter (f ∘ g) i l.
Proof.
  apply list_eq. intros j. destruct (decide (i = j)) as [->|Hj].
  - rewrite !list_lookup_alter_eq. by destruct (l !! j).
  - by rewrite !list_lookup_alter_ne.
Qed.

Lemma loads_record_failure now i u :
  exec_spec (record_failure instant_max now i u) (fun u' => loads u' = loads u /\ breaker u' = breaker u) (fun _ => False)
    (instant_max < now + open_for (breaker u)).
Proof.
  unfold record_failure. destruct (backends u !! i) as [b|]; [|done].
  destruct (_ <=? _).
  - unfold instant_add. destruct (Z.leb_spec (now + open_for (breaker u)) instant_max); [|done]. simpl.
    rewrite (loads_on_target _ _ id) by done. split; [by apply alter_id|done].
  - simpl. rewrite (loads_on_target _ _ id) by done. split; [by apply alter_id|done].
Qed.

Lemma loads_pick now u :
  loads (pick hash_ip now client_ip u).2 = loads u /\ breaker (pick hash_ip now client_ip u).2 = breaker u.
Proof.
  unfold pick. destruct (eligible now u); [done|]. by destruct (policy u).
Qed.

(** What a pool is configured with; its states are what changes. *)
Definition settings (u : Upstream) :=
  (up_name u, (fun b => (url b, weight b)) <$> backends u, policy u, retry u, breaker u).

Lemma settings_on_target i f u : settings (on_target i f u) = settings u.
Proof.
  unfold settings. cbn [on_target set_backends up_name backends policy retry breaker]. do 4 f_equal.
  apply list_eq. intros j. rewrite !list_lookup_fmap. destruct (decide (i = j)) as [->|].
  - rewrite list_lookup_alter_eq. by destruct (backends u !! j).
  - by rewrite list_lookup_alter_ne.
Qed.

Lemma settings_pick now u : settings (pick hash_ip now client_ip u).2 = settings u.
Proof. unfold pick. destruct (eligible now u); [done|]. by destruct (policy u). Qed.

Lemma settings_record_failure now i u u' : record_failure instant_max now i u = Ok u' -> settings u' = settings u.
Proof.
  unfold record_failure. destruct (backends u !! i); [|by intros [= <-]]. destruct (_ <=? _).
  - intros (z & _ & [= <-])%bind_Ok. apply settings_on_target.
  - intros [= <-]. apply settings_on_target.
Qed.

(** A response of [forward]: the upstream's own, with a status outside the
    retry list, or one of the proxy's errors. *)
Definition outcome (p : RetryPolicy) (r : Response) : Prop :=
  (exists up, r = normalize_response up /\ u_status up ∉ retry_on_status p)
  \/ (exists code, r = error_response code
       /\ code ∈ [PRX_NO_HEALTHY; PRX_PROTOCOL_ERROR; PRX_CONNECT_TIMEOUT; PRX_RETRY_EXHAUSTED]).

Abbreviation loop := (forward_loop hash_ip instant_max parse_uri send clock_pick clock_fail
  method path_and_query req_headers body client_ip orig_host).

Lemma inflight_balance idx u v :
  loads v = loads (inflight_inc idx u) -> Forall (fun z => 0 <= z < u64_max) (loads u) ->
  loads (inflight_dec idx v) = loads u.
Proof.
  intros Hv Hr. unfold inflight_dec, inflight_inc in *.
  rewrite (loads_on_target _ _ (fun z => wrap_u64 (z - 1))) by done. rewrite Hv.
  rewrite (loads_on_target _ _ (fun z => wrap_u64 (z + 1))) by done.
  rewrite alter_alter. apply alter_id. intros z Hz. simpl.
  eapply Forall_lookup_1 in Hr; [|done]. rewrite (wrap_u64_small (z + 1)) by lia. rewrite wrap_u64_small by lia. lia.
Qed.

(** What [forward] answers within [n] tries, of which [sent] reached an
    upstream. *)
Inductive answered (p : RetryPolicy) (n : nat) : nat -> Response -> Prop :=
| answered_upstream sent up :
    u_status up ∉ retry_on_status p -> (1 <= sent <= n)%nat -> answered p n sent (normalize_response up)
| answered_connect sent :
    on_connect_error p = false -> (1 <= sent <= n)%nat -> answered p n sent (error_response PRX_CONNECT_TIMEOUT)
| answered_unsent sent code :
    code ∈ [PRX_NO_HEALTHY; PRX_PROTOCOL_ERROR] -> (sent < n)%nat -> answered p n sent (error_response code)
| answered_exhausted : answered p n n (error_response PRX_RETRY_EXHAUSTED).

Lemma answered_S p n sent r : answered p n sent r -> answered p (S n) (S sent) r.
Proof. destruct 1; [apply answered_upstream|apply answered_connect|apply answered_unsent|apply answered_exhausted]; (done || lia). Qed.

Lemma answered_outcome p n sent r : answered p n sent r -> (sent <= n)%nat /\ outcome p r.
Proof.
  unfold outcome. destruct 1 as [sent up Hs|sent Hc|sent code Hc|]; (split; [lia|]); [left; by exists up| | |];
    right; (eexists; split; [done|set_solver]).
Qed.

(** A relation between the counts at two attempts that holds across one
    attempt holds across the loop. *)
Lemma forward_loop_rel (R : nat -> nat -> list Z -> list Z -> Prop) br n p :
  (forall k l, R k k l l) ->
  (forall k idx rq u b l', (S k <= b)%nat ->
     R (S k) b (loads (inflight_dec idx (send k rq (inflight_inc idx u)).2)) l' -> R k b (loads u) l') ->
  (forall k rq u, breaker (send k rq u).2 = breaker u) ->
  forall k u, breaker u = br ->
  exec_spec (loop n p k u)
    (fun '(r, k', u') => exists sent, k' = (k + sent)%nat /\ answered p n sent r /\ R k k' (loads u) (loads u'))
    (fun _ => False) (exists j, instant_max < clock_fail j + open_for br).
Proof using Type.
  intros Hrefl Hstep Hsb. induction n as [|n IH]; intros k u Hbr; cbn [forward_loop].
  { exists O. rewrite Nat.add_0_r. split_and!; [done|apply answered_exhausted|apply Hrefl]. }
  destruct (loads_pick (clock_pick k) u) as [Hp Hpb].
  assert (Hunsent : forall u1 code, loads u1 = loads u -> code ∈ [PRX_NO_HEALTHY; PRX_PROTOCOL_ERROR] ->
    exists sent, k = (k + sent)%nat /\ answered p (S n) sent (error_response code) /\ R k k (loads u) (loads u1)).
  { intros u1 code E Hc. exists O. rewrite Nat.add_0_r, E. split_and!; [done|apply answered_unsent; [done|lia]|apply Hrefl]. }
  destruct (pick hash_ip (clock_pick k) client_ip u) as [[idx|] u1]; cbn [snd] in Hp, Hpb; [|apply Hunsent; [done|set_solver]].
  destruct (target_url u1 idx) as [base|]; [|apply Hunsent; [done|set_solver]].
  destruct (build_request _ _ _ _ _ _ _ _) as [rq|]; [|apply Hunsent; [done|set_solver]].
  pose proof (Hsb k rq (inflight_inc idx u1)) as Hb. change (breaker (inflight_inc idx u1)) with (breaker u1) in Hb. pose proof (Hstep k idx rq u1) as Hone.
  destruct (send k rq (inflight_inc idx u1)) as [result u2]. cbn [snd] in Hb, Hone. rewrite Hp in Hone.
  set (u3 := inflight_dec idx u2) in *. assert (Hbr3 : breaker u3 = br) by (change (breaker u2 = br); congruence).
  assert (Hlast : forall u' r, loads u' = loads u3 -> answered p (S n) 1 r ->
    exists sent, S k = (k + sent)%nat /\ answered p (S n) sent r /\ R k (S k) (loads u) (loads u')).
  { intros u' r E Ha. exists 1%nat. split_and!; [lia|done|]. apply Hone; [lia|]. rewrite E. apply Hrefl. }
  assert (Hfail : exec_spec (record_failure instant_max (clock_fail k) idx u3)
    (fun u' => loads u' = loads u3 /\ breaker u' = br)
    (fun _ => False) (exists j, instant_max < clock_fail j + open_for br)).
  { rewrite <-Hbr3. eapply exec_spec_mono; [apply loads_record_failure|done|done|]. intros. by exists k. }
  assert (Hnext : exec_spec (u' ← record_failure instant_max (clock_fail k) idx u3; loop n p (S k) u')
      (fun '(r, k', u') => exists sent, k' = (k + sent)%nat /\ answered p (S n) sent r /\ R k k' (loads u) (loads u'))
      (fun _ => False) (exists j, instant_max < clock_fail j + open_for br)).
  { eapply exec_spec_bind; [exact Hfail|]. intros u' [Hu' Hb'].
    eapply exec_spec_mono; [apply (IH (S k) u'); exact Hb'| |done|done].
    intros [[r k'] u''] (sent & -> & Ha & HR). exists (S sent). split_and!; [lia|by apply answered_S|]. apply Hone; [lia|]. by rewrite <-Hu'. }
  destruct result as [resp|].
  - destruct (decide (u_status resp ∈ retry_on_status p)) as [Hin|Hout]; [exact Hnext|].
    apply Hlast; [|apply answered_upstream; [done|lia]].
    unfold record_success. rewrite (loads_on_target _ _ id) by done. by rewrite alter_id.
  - destruct (on_connect_error p) eqn:Ec; [exact Hnext|]. eapply exec_spec_bind; [exact Hfail|]. intros u' [Hu' _].
    apply Hlast; [done|]. apply answered_connect; [done|lia].
Qed.

(** During an [await] the other tasks leave the counters of this pool as they
    found them, and never change its breaker policy. *)
Hypothesis send_frame : forall k r u, loads (send k r u).2 = loads u /\ breaker (send k r u).2 = breaker u.

Lemma forward_loop_spec br n p k u :
  Forall (fun z => 0 <= z < u64_max) (loads u) -> breaker u = br ->
  exec_spec (loop n p k u)
    (fun '(r, k', u') => (k' <= k + n)%nat /\ outcome p r /\ loads u' = loads u)
    (fun _ => False) (exists j, instant_max < clock_fail j + open_for br).
Proof.
  intros Hr Hbr. eapply exec_spec_mono;
    [apply (forward_loop_rel (fun _ _ l l' => Forall (fun z => 0 <= z < u64_max) l -> l' = l) br n p)| |done|done]; try done.
  - intros k0 idx rq u0 b l' _ Hl Hu. assert (Hb : loads (inflight_dec idx (send k0 rq (inflight_inc idx u0)).2) = loads u0)
      by (apply inflight_balance; [apply send_frame|done]).
    rewrite Hb in Hl. by apply Hl.
  - intros k0 rq u0. apply send_frame.
  - intros [[r k'] u'] (sent & -> & Ha & HR). apply answered_outcome in Ha as [? ?]. split_and!; [lia|done|by apply HR].
Qed.

(** Forwarding leaves the settings of the pool alone, when the other tasks do. *)
Lemma forward_loop_settings n p : (forall k r u, settings (send k r u).2 = settings u) ->
  forall k u r k' u', loop n p k u = Ok (r, k', u') -> settings u' = settings u.
Proof.
  intros Hsend. induction n as [|n IH]; intros k u r k' u'; cbn [forward_loop]; [by intros [= _ _ <-]|].
  pose proof (settings_pick (clock_pick k) u) as Hp.
  destruct (pick hash_ip (clock_pick k) client_ip u) as [[idx|] u1]; cbn [snd] in Hp; [|by intros [= _ _ <-]].
  destruct (target_url u1 idx); [|by intros [= _ _ <-]].
  destruct (build_request _ _ _ _ _ _ _ _) as [rq|]; [|by intros [= _ _ <-]].
  pose proof (Hsend k rq (inflight_inc idx u1)) as Hs. destruct (send k rq (inflight_inc idx u1)) as [result u2].
  cbn [snd] in Hs. unfold inflight_inc in Hs. rewrite settings_on_target, Hp in Hs.
  assert (Hd : settings (inflight_dec idx u2) = settings u) by (unfold inflight_dec; by rewrite settings_on_target).
  assert (Hnext : (u3 ← record_failure instant_max (clock_fail k) idx (inflight_dec idx u2); loop n p (S k) u3)
    = Ok (r, k', u') -> settings u' = settings u).
  { intros (u3 & Hf & Hl)%bind_Ok. apply settings_record_failure in Hf. apply IH in Hl. congruence. }
  destruct result as [resp|].
  - destruct (decide _); [exact Hnext|]. intros [= _ _ <-]. unfold record_success. by rewrite settings_on_target.
  - destruct (on_connect_error p); [exact Hnext|]. intros (u3 & Hf & [= _ _ <-])%bind_Ok.
    apply settings_record_failure in Hf. congruence.
Qed.

(** The requests sent are counted within the tries. *)
Lemma forward_loop_count n p : forall k u r k' u', loop n p k u = Ok (r, k', u') -> (k' <= k + n)%nat.
Proof.
  induction n as [|n IH]; intros k u r k' u'; cbn [forward_loop]; [intros [= _ <- _]; lia|].
  destruct (pick hash_ip (clock_pick k) client_ip u) as [[idx|] u1]; [|intros [= _ <- _]; lia].
  destruct (target_url u1 idx); [|intros [= _ <- _]; lia].
  destruct (build_request _ _ _ _ _ _ _ _); [|intros [= _ <- _]; lia].
  destruct (send _ _ _) as [result u2].
  assert (Hnext : forall u3, loop n p (S k) u3 = Ok (r, k', u') -> (k' <= k + S n)%nat) by (intros u3 Hl%IH; lia).
  destruct result as [resp|].
  - destruct (decide _); [intros (u3 & _ & Hl)%bind_Ok; by eapply Hnext|]. intros [= _ <- _]. lia.
  - intros (u3 & _ & Hl)%bind_Ok. destruct (on_connect_error p); [by eapply Hnext|]. injection Hl as _ <- _. lia.
Qed.
End Forward.

(** ** Counts that other requests change meanwhile *)

(** [l'] is [l] with [d i] added to the count of target [i], in 64 bits. *)
Definition drifted (d : nat -> Z) (l l' : list Z) : Prop :=
  length l' = length l /\ forall i z z', l !! i = Some z -> l' !! i = Some z' -> wrap_u64 z' = wrap_u64 (z + d i).

Lemma drifted_refl l : drifted (fun _ => 0) l l.
Proof. split; [done|]. intros i z z' -> [= ->]. by rewrite Z.add_0_r. Qed.

Lemma drifted_trans d1 d2 d l1 l2 l3 : (forall i, d i = d1 i + d2 i) -> drifted d1 l1 l2 -> drifted d2 l2 l3 -> drifted d l1 l3.
Proof.
  intros Hd [L1 H1] [L2 H2]. split; [congruence|]. intros i z z3 Hz Hz3.
  destruct (lookup_lt_is_Some_2 l2 i) as [z2 Hz2]; [apply lookup_lt_Some in Hz; lia|].
  rewrite (H2 i z2 z3 Hz2 Hz3), Hd. specialize (H1 i z z2 Hz Hz2). unfold wrap_u64 in *.
  rewrite <-(Zplus_mod_idemp_l z2), H1, Zplus_mod_idemp_l. f_equal. lia.
Qed.

Lemma drifted_alter f e i l : (forall z, wrap_u64 (f z) = wrap_u64 (z + e)) ->
  drifted (fun j => if decide (j = i) then e else 0) l (alter f i l).
Proof.
  intros Hf. split; [apply length_alter|]. intros j z z' Hz Hz'. case_decide as E; [subst|].
  - rewrite list_lookup_alter_eq, Hz in Hz'. injection Hz' as <-. apply Hf.
  - rewrite list_lookup_alter_ne, Hz in Hz' by done. injection Hz' as <-. by rewrite Z.add_0_r.
Qed.

(** The sum of what happened at the attempts from [k] on. *)
Definition total_drift (drift : nat -> nat -> Z) (k n i : nat) : Z := foldr Z.add 0 ((fun j => drift j i) <$> seq k n).

(** One attempt: the count it takes and gives back cancels. *)
Lemma attempt_drifted d idx (u v : Upstream) :
  drifted d (loads (inflight_inc idx u)) (loads v) -> drifted d (loads u) (loads (inflight_dec idx v)).
Proof.
  intros H. unfold inflight_inc, inflight_dec in *.
  rewrite (loads_on_target _ _ (fun z => wrap_u64 (z + 1))) in H by done. rewrite (loads_on_target _ _ (fun z => wrap_u64 (z - 1))) by done.
  assert (Hw : forall z, wrap_u64 (wrap_u64 z) = wrap_u64 z) by (intros z; unfold wrap_u64; by rewrite Zmod_mod).
  eapply drifted_trans; [|apply (drifted_alter (fun z => wrap_u64 (z + 1)) 1); intros; apply Hw|].
  2:{ eapply (drifted_trans d); [|exact H|apply (drifted_alter (fun z => wrap_u64 (z - 1)) (-1)); intros; apply Hw]. done. }
  intros i. cbv beta. case_decide; lia.
Qed.

(** C15. Forwarding terminates within its budget and balances its books.  It
    sends at most [max(attempts, 1)] requests in all; the documents call
    [attempts] the additional ones, so that the default of 1 never retries.  The
    answer is an upstream response whose status is not in the retry list, a
    connection error when those are not retried, the lack of a target or an
    unusable URI before the budget is spent, or the exhausted budget after
    exactly that many requests.  Every count it takes on a target it gives
    back: when the other requests change the in-flight count of target [i] by
    [drift k i] while attempt [k] waits, the count has changed by the sum of
    those and nothing else, and by nothing at all when they leave the counts
    alone.  It panics only when a target would be ejected past the last
    representable instant, and with instants in range never. *)
Theorem forward_bounded_and_balanced `{HeaderOps} (hash_ip : option IpAddr -> Z) (instant_max : Z)
    (parse_uri : string -> option string)
    (send : nat -> OutRequest -> Upstream -> option UpResponse * Upstream)
    (clock_pick : nat -> nat -> Z) (clock_fail : nat -> Z)
    (method paq : string) (req : HeaderMap) (body : string) (ip : option IpAddr) (host : string) (u : Upstream)
    (drift : nat -> nat -> Z)
    (Hothers : forall k r u, drifted (drift k) (loads u) (loads (send k r u).2))
    (Hbreaker : forall k r u, breaker (send k r u).2 = breaker u) :
  exec_spec (forward hash_ip instant_max parse_uri send clock_pick clock_fail method paq req body ip host u)
    (fun '(r, sent, u') => answered (retry u) (Z.to_nat (Z.max (attempts (retry u)) 1)) sent r
       /\ drifted (total_drift drift 0 sent) (loads u) (loads u')
       /\ ((forall k r u, loads (send k r u).2 = loads u) -> Forall (fun z => 0 <= z < u64_max) (loads u) -> loads u' = loads u))
    (fun _ => False) (exists j, instant_max < clock_fail j + open_for (breaker u)).
Proof.
  unfold forward. eapply exec_spec_mono; [apply (forward_loop_rel hash_ip instant_max parse_uri send clock_pick clock_fail method paq req body ip host
    (fun k b l l' => drifted (total_drift drift k (b - k)) l l'
       /\ ((forall k r u, loads (send k r u).2 = loads u) -> Forall (fun z => 0 <= z < u64_max) l -> l' = l)))| |done|done].
  - intros k l. rewrite Nat.sub_diag. split; [apply drifted_refl|done].
  - intros k idx rq v b l' Hb [Hd Hl]. pose proof (Hothers k rq (inflight_inc idx v)) as Ho. split.
    + apply attempt_drifted in Ho. eapply drifted_trans; [|exact Ho|exact Hd]. intros i. unfold total_drift.
      replace (b - k)%nat with (S (b - S k)) by lia. done.
    + intros Hframe Hr. assert (E : loads (inflight_dec idx (send k rq (inflight_inc idx v)).2) = loads v)
        by (apply inflight_balance; [apply Hframe|done]). rewrite E in Hl. by apply Hl.
  - exact Hbreaker.
  - reflexivity.
  - intros [[r k'] u'] (sent & -> & Ha & Hd & Hl). rewrite Nat.sub_0_r in Hd. by split_and!.
Qed.

(** ** On concrete inputs *)
Section Witnesses.
#[local] Existing Instance ListHeaders.list_headers.
#[local] Existing Instance ListHeaders.list_laws.

Definition demo_headers : @HeaderMap ListHeaders.list_headers :=
  [("Connection", "close, X-Secret"); ("x-secret", "1"); ("accept", "a"); ("accept", "b")].

Definition demo_out : OutRequest :=
  mk_out "GET" "http://a/p" (apply_forwarded demo_headers (Some (V4 1)) "h"
    (copy_headers (connection_strip_set demo_headers) demo_headers hm_empty)) "".

Lemma forwarded_headers_witness : hm_values (out_headers demo_out) "x-secret" = [].
Proof.
  rewrite (proj1 (forwarded_headers Some "GET" "http://a" "/p" "" "h" demo_headers (Some (V4 1)) demo_out eq_refl)).
  - vm_compute. reflexivity.
  - decide_closed.
Defined.

Lemma normalize_keeps_last_value_witness :
  let r := mk_up 200 ([("set-cookie", "a=1"); ("set-cookie", "b=2")] : @HeaderMap ListHeaders.list_headers) None in
  hm_values (resp_headers (normalize_response r)) "set-cookie" = ["b=2"].
Proof.
  intros r. apply (normalize_keeps_last_value r "set-cookie" ["a=1"] "b=2");
    [decide_closed|vm_compute; reflexivity].
Defined.

(** A client whose first target refuses and whose others answer. *)
Definition demo_send (k : nat) (r : OutRequest) (u : Upstream) : option UpResponse * Upstream :=
  (if (out_uri r =? "http://a/p")%string then None else Some (mk_up 200 hm_empty (Some "ok")), u).

(** With the default policy there is no second attempt. *)
Example default_never_retries :
  match forward (fun _ => 0) 1000000000000 Some demo_send (fun _ _ => 0) (fun _ => 0) "GET" "/p" demo_headers "" None "h"
    (upstream_new "a" [("http://a", 1); ("http://b", 1)] RoundRobin retry_default breaker_default) with
  | Ok (r, sent, _) => resp_status r = 502 /\ sent = 1%nat
  | _ => False
  end.
Proof. vm_compute. split; reflexivity. Qed.

Lemma forward_bounded_and_balanced_witness :
  exec_spec (forward (fun _ => 0) 1000000000000 Some demo_send (fun _ _ => 0) (fun _ => 0)
               "GET" "/p" demo_headers "" None "h" demo_pool)
    (fun '(r, sent, u') => answered (retry demo_pool) (Z.to_nat (Z.max (attempts (retry demo_pool)) 1)) sent r
       /\ drifted (total_drift (fun _ _ => 0) 0 sent) (loads demo_pool) (loads u')
       /\ ((forall k r u, loads (demo_send k r u).2 = loads u) -> Forall (fun z => 0 <= z < u64_max) (loads demo_pool) -> loads u' = loads demo_pool))
    (fun _ => False) (exists j : nat, 1000000000000 < (fun _ => 0) j + open_for (breaker demo_pool)).
Proof.
  apply (forward_bounded_and_balanced (fun _ => 0) 1000000000000 Some demo_send (fun _ _ => 0) (fun _ => 0)
    "GET" "/p" demo_headers "" None "h" demo_pool (fun _ _ => 0)).
  - intros k r u. apply drifted_refl.
  - intros k r u. reflexivity.
Defined.
End Witnesses.
