(* ===== verification/Cluster.v ===== *)
(** * [pulsate-cluster]: membership, leader, counter

    [lib.rs].  A node identifier is its string, compared byte-wise as [Ord for
    String] does; a [BTreeSet] is a finite set read in sorted order.  Counter
    arithmetic wraps at [u64], as in a release build. *)

From Stdlib Require Import ZArith Ascii String Lia.
From stdpp Require Import base option list gmap sorting strings.
From S2P Require Import Prelude RustStr.
Local Open Scope string_scope.
Local Open Scope list_scope.
Local Open Scope Z_scope.
Local Open Scope rust_scope.

Definition NodeId : Type := string.

(** [Ord for String]. *)
Definition node_le : NodeId -> NodeId -> Prop := String.le.
#[global] Instance node_le_dec : RelDecision node_le.
Proof. unfold node_le. apply _. Defined.
#[global] Instance node_le_trans : Transitive node_le.
Proof. unfold node_le. apply _. Qed.
#[global] Instance node_le_total : Total node_le.
Proof. unfold node_le. apply _. Qed.

Record Membership := mk_membership { m_me : NodeId; nodes : gset NodeId }.

Definition membership_new (me : NodeId) : Membership := mk_membership me {[me]}.
Definition join_node (node : NodeId) (m : Membership) : Membership :=
  mk_membership (m_me m) ({[node]} ∪ nodes m).
Definition leave (node : NodeId) (m : Membership) : Membership :=
  if (node =? m_me m)%string then m else mk_membership (m_me m) (nodes m ∖ {[node]}).
Definition membership_len (m : Membership) : nat := size (nodes m).
Definition membership_is_empty (m : Membership) : bool := (membership_len m =? 0)%nat.
Definition members (m : Membership) : list NodeId := merge_sort node_le (elements (nodes m)).
Definition leader (m : Membership) : option NodeId := head (members m).
Definition is_leader (m : Membership) : bool := bool_decide (leader m = Some (m_me m)).

Record GCounter := mk_counter { counts : gmap NodeId Z }.

Definition counter_new : GCounter := mk_counter ∅.
Definition incr (node : NodeId) (n : Z) (c : GCounter) : GCounter :=
  mk_counter (<[node := default 0 (counts c !! node) +₆₄ n]> (counts c)).
Definition value (c : GCounter) : Z := wrap_u64 (map_fold (fun _ n acc => n + acc) 0 (counts c)).
Definition merge (c other : GCounter) : GCounter :=
  mk_counter (union_with (fun a b => Some (Z.max a b)) (counts c) (counts other)).
