(* ===== verification/Gossip.v ===== *)
(** * [pulsate-cluster]: the SWIM gossip runtime

    [gossip/wire.rs] and [gossip/mod.rs].  A handler maps the runtime to its
    next state and the datagrams it sends, in order.  A clock reading is an
    argument; parameters are the [postcard] codec and the order of
    [HashMap::iter].  [Instant] arithmetic is not bounded. *)

From Stdlib Require Import ZArith Ascii String Lia.
From stdpp Require Import base option list gmap sorting strings.
From S2P Require Import Prelude RustStr RustNet UtilParse Cluster.
Local Open Scope string_scope.
Local Open Scope list_scope.
Local Open Scope Z_scope.
Local Open Scope rust_scope.

Module Gossip.

(** ** [wire.rs] *)
Definition PROTOCOL_VERSION : Z := 1.

Record SocketAddr := mk_addr { sa_ip : IpAddr; sa_port : Z }.
#[global] Instance SocketAddr_eq_dec : EqDecision SocketAddr.
Proof. solve_decision. Defined.

Inductive MemberState := Alive | Suspect | Dead.
#[global] Instance MemberState_eq_dec : EqDecision MemberState.
Proof. solve_decision. Defined.

Definition rank (s : MemberState) : Z :=
  match s with
  | Alive => 0
  | Suspect => 1
  | Dead => 2
  end.

Record MemberUpdate := mk_update {
  up_node : NodeId;
  up_addr : SocketAddr;
  up_incarnation : Z;
  up_state : MemberState;
}.

Inductive Kind := Ping | Ack | PingReq (target : SocketAddr).

Record Frame := mk_frame {
  version : Z;
  from : NodeId;
  from_addr : SocketAddr;
  fr_seq : Z;
  fr_kind : Kind;
  updates : list MemberUpdate;
  fr_counter : GCounter;
}.

(** ** [mod.rs]: the state *)
Record Config := mk_config {
  bind_addr : SocketAddr;
  seeds : list SocketAddr;
  probe_interval : Duration;
  probe_timeout : Duration;
  suspicion_timeout : Duration;
  indirect_probes : nat;
  gossip_fanout : nat;
}.

Definition config_new (b : SocketAddr) : Config :=
  mk_config b [] (from_secs 1) (from_millis 300) (from_secs 3) 3 3.

Record Peer := mk_peer {
  addr : SocketAddr;
  incarnation : Z;
  state : MemberState;
  suspect_deadline : option Z;
}.

Record Shared := mk_shared {
  me : NodeId;
  local_addr : SocketAddr;
  my_incarnation : Z;
  membership : Membership;
  counter : GCounter;
  peers : gmap NodeId Peer;
}.

Definition shared_new (me : NodeId) (local : SocketAddr) : Shared :=
  mk_shared me local 0 (membership_new me) counter_new ∅.

Definition set_incarnation (n : Z) (s : Shared) : Shared :=
  mk_shared (me s) (local_addr s) n (membership s) (counter s) (peers s).
Definition set_peers (f : gmap NodeId Peer -> gmap NodeId Peer) (s : Shared) : Shared :=
  mk_shared (me s) (local_addr s) (my_incarnation s) (membership s) (counter s) (f (peers s)).
Definition set_membership (f : Membership -> Membership) (s : Shared) : Shared :=
  mk_shared (me s) (local_addr s) (my_incarnation s) (f (membership s)) (counter s) (peers s).
Definition set_counter (f : GCounter -> GCounter) (s : Shared) : Shared :=
  mk_shared (me s) (local_addr s) (my_incarnation s) (membership s) (f (counter s)) (peers s).

Inductive ProbePhase := Direct | Indirect.

Record Probe := mk_probe {
  pr_seq : Z;
  pr_target : NodeId;
  pr_addr : SocketAddr;
  phase : ProbePhase;
  deadline : Z;
}.

Record Relay := mk_relay { rl_origin : SocketAddr; rl_target : SocketAddr; expire : Z }.

Record Runtime := mk_runtime {
  config : Config;
  shared : Shared;
  rng : Z;
  seq : Z;
  probe : option Probe;
  relays : gmap Z Relay;
  round_robin : Z;
}.

Definition set_shared (f : Shared -> Shared) (r : Runtime) : Runtime :=
  mk_runtime (config r) (f (shared r)) (rng r) (seq r) (probe r) (relays r) (round_robin r).
Definition set_probe (p : option Probe) (r : Runtime) : Runtime :=
  mk_runtime (config r) (shared r) (rng r) (seq r) p (relays r) (round_robin r).
Definition set_relays (f : gmap Z Relay -> gmap Z Relay) (r : Runtime) : Runtime :=
  mk_runtime (config r) (shared r) (rng r) (seq r) (probe r) (f (relays r)) (round_robin r).
Definition set_rng (n : Z) (r : Runtime) : Runtime :=
  mk_runtime (config r) (shared r) n (seq r) (probe r) (relays r) (round_robin r).
Definition set_round_robin (n : Z) (r : Runtime) : Runtime :=
  mk_runtime (config r) (shared r) (rng r) (seq r) (probe r) (relays r) n.

(** ** The random numbers *)
Definition rng_seeded (nanos count : Z) : Z :=
  Z.lor (Z.lxor nanos (count *₆₄ 11400714819323198485)) 1.

Definition next_u64 (x : Z) : Z :=
  let x := Z.lxor x (wrap_u64 (Z.shiftl x 13)) in
  let x := Z.lxor x (Z.shiftr x 7) in
  Z.lxor x (wrap_u64 (Z.shiftl x 17)).

(** Exchange two elements. *)
Definition swap {A} (i j : nat) (l : list A) : list A :=
  match l !! i, l !! j with
  | Some x, Some y => <[j := x]> (<[i := y]> l)
  | _, _ => l
  end.

(** Fisher-Yates from the last index down to 1. *)
Fixpoint shuffle_from {A} (i : nat) (x : Z) (l : list A) : Z * list A :=
  match i with
  | O => (x, l)
  | S i' =>
    let x := next_u64 x in
    shuffle_from i' x (swap i (Z.to_nat (x mod (Z.of_nat i + 1))) l)
  end.
Definition shuffle {A} (x : Z) (l : list A) : Z * list A := shuffle_from (length l - 1) x l.

Definition next_seq (r : Runtime) : Z * Runtime :=
  let n := seq r +₆₄ 1 in
  (n, mk_runtime (config r) (shared r) (rng r) n (probe r) (relays r) (round_robin r)).

Section Gossip.
(** [HashMap::iter] over the peers, and the codec. *)
Variable iter : gmap NodeId Peer -> list (NodeId * Peer).
Variable encode : Frame -> option (list ascii).
Variable decode : list ascii -> option Frame.

(** A datagram: its destination and its bytes. *)
Definition datagram : Type := SocketAddr * list ascii.

Definition self_update (s : Shared) : MemberUpdate :=
  mk_update (me s) (local_addr s) (my_incarnation s) Alive.
Definition peer_update (x : NodeId * Peer) : MemberUpdate :=
  mk_update x.1 (addr x.2) (incarnation x.2) (state x.2).

Definition snapshot (s : Shared) (sq : Z) (k : Kind) : Frame :=
  mk_frame PROTOCOL_VERSION (me s) (local_addr s) sq k
    (self_update s :: (peer_update <$> iter (peers s))) (counter s).

Definition send (a : SocketAddr) (sq : Z) (k : Kind) (r : Runtime) : list datagram :=
  match encode (snapshot (shared r) sq k) with Some bs => [(a, bs)] | None => [] end.

(** ** Dissemination *)
Definition alive_addrs (s : Shared) : list SocketAddr :=
  omap (fun x : NodeId * Peer => if decide (state x.2 = Dead) then None else Some (addr x.2)) (iter (peers s)).

Fixpoint send_pings (dests : list SocketAddr) (r : Runtime) : Runtime * list datagram :=
  match dests with
  | [] => (r, [])
  | a :: rest =>
    let '(sq, r) := next_seq r in
    let out := send a sq Ping r in
    let '(r', out') := send_pings rest r in
    (r', out ++ out')
  end.

Definition gossip_round (r : Runtime) : Runtime * list datagram :=
  let '(x, dests) := shuffle (rng r) (alive_addrs (shared r)) in
  let dests := take (gossip_fanout (config r)) dests in
  let dests := foldl (fun ds s => if decide (s ∈ ds) then ds else ds ++ [s]) dests (seeds (config r)) in
  send_pings dests (set_rng x r).

Definition pick_indirect (target : SocketAddr) (r : Runtime) : list SocketAddr * Runtime :=
  let helpers := omap (fun x : NodeId * Peer =>
    if decide (state x.2 = Alive /\ addr x.2 <> target) then Some (addr x.2) else None) (iter (peers (shared r))) in
  let '(x, helpers) := shuffle (rng r) helpers in
  (take (indirect_probes (config r)) helpers, set_rng x r).

(** ** Failure detection *)

(** The suspects whose deadline has passed. *)
Definition expired (now : Z) (p : Peer) : bool :=
  bool_decide (state p = Suspect) && match suspect_deadline p with Some d => d <=? now | None => false end.
Definition bury (now : Z) (p : Peer) : Peer :=
  if expired now p then mk_peer (addr p) (incarnation p) Dead None else p.

Definition reap_suspects (now : Z) (r : Runtime) : Runtime * list datagram :=
  let dead := fst <$> filter (fun x => expired now x.2 = true) (iter (peers (shared r))) in
  let r' := set_shared (fun s =>
    set_membership (fun m => foldl (fun m n => leave n m) m dead) (set_peers (fmap (bury now)) s)) r in
  match dead with
  | [] => (r', [])
  | _ => gossip_round r'
  end.

Definition mark_suspect (node : NodeId) (now : Z) (r : Runtime) : Runtime :=
  match peers (shared r) !! node with
  | Some p =>
    if decide (state p = Alive) then
      set_shared (set_peers (insert node
        (mk_peer (addr p) (incarnation p) Suspect (Some (now + suspicion_timeout (config r)))))) r
    else r
  | None => r
  end.

Definition mark_alive (node : NodeId) (r : Runtime) : Runtime :=
  match peers (shared r) !! node with
  | Some p =>
    if decide (state p = Dead) then r
    else set_shared (fun s => set_membership (join_node node)
           (set_peers (insert node (mk_peer (addr p) (incarnation p) Alive None)) s)) r
  | None => r
  end.

Definition advance_probe (now : Z) (r : Runtime) : Runtime * list datagram :=
  match probe r with
  | None => (r, [])
  | Some p =>
    if now <? deadline p then (r, [])
    else
      let r := set_probe None r in
      match phase p with
      | Direct =>
        let '(helpers, r) := pick_indirect (pr_addr p) r in
        let out := helpers ≫= fun a => send a (pr_seq p) (PingReq (pr_addr p)) r in
        (set_probe (Some (mk_probe (pr_seq p) (pr_target p) (pr_addr p) Indirect
                            (now + probe_timeout (config r)))) r, out)
      | Indirect => gossip_round (mark_suspect (pr_target p) now r)
      end
  end.

(** The peers to probe, by node identifier. *)
Definition by_node (x y : NodeId * SocketAddr) : Prop := node_le x.1 y.1.
#[local] Instance by_node_dec : RelDecision by_node.
Proof. intros x y. unfold by_node. apply _. Defined.

Definition candidates (s : Shared) : list (NodeId * SocketAddr) :=
  merge_sort by_node
    (omap (fun x : NodeId * Peer => if decide (state x.2 = Dead) then None else Some (x.1, addr x.2)) (iter (peers s))).

Definition start_probe (now : Z) (r : Runtime) : Runtime * list datagram :=
  match probe r with
  | Some _ => (r, [])
  | None =>
    let cs := candidates (shared r) in
    match cs !! Z.to_nat (round_robin r mod Z.of_nat (length cs)) with
    | None => (r, []) (* no candidate *)
    | Some (node, a) =>
      let r := set_round_robin (round_robin r +₆₄ 1) r in
      let '(sq, r) := next_seq r in
      let out := send a sq Ping r in
      (set_probe (Some (mk_probe sq node a Direct (now + probe_timeout (config r)))) r, out)
    end
  end.

(** ** Reconciliation *)
Definition supersedes (u : MemberUpdate) (p : Peer) : bool :=
  (incarnation p <? up_incarnation u)
  || ((up_incarnation u =? incarnation p) && (rank (state p) <? rank (up_state u))).

Definition deadline_of (st : MemberState) (now : Z) (timeout : Duration) : option Z :=
  match st with Suspect => Some (now + timeout) | _ => None end.

Definition apply_update (now : Z) (timeout : Duration) (u : MemberUpdate) (s : Shared) : bool * Shared :=
  if (up_node u =? me s)%string then
    if bool_decide (up_state u = Suspect \/ up_state u = Dead) && (my_incarnation s <=? up_incarnation u) then
      (true, set_incarnation (up_incarnation u +₆₄ 1) s)
    else (false, s)
  else
    let p' := mk_peer (up_addr u) (up_incarnation u) (up_state u) (deadline_of (up_state u) now timeout) in
    match peers s !! up_node u with
    | None =>
      let s := set_peers (insert (up_node u) p') s in
      (false, if decide (up_state u = Dead) then s else set_membership (join_node (up_node u)) s)
    | Some p =>
      if supersedes u p then
        let s := set_peers (insert (up_node u) p') s in
        (false, match up_state u with
                | Alive | Suspect => set_membership (join_node (up_node u)) s
                | Dead => set_membership (leave (up_node u)) s
                end)
      else (false, s)
    end.

(** The updates of a frame in order; [clock i] is read for the [i]-th. *)
Fixpoint apply_updates (clock : nat -> Z) (i : nat) (timeout : Duration) (us : list MemberUpdate) (s : Shared)
    : bool * Shared :=
  match us with
  | [] => (false, s)
  | u :: rest =>
    let '(r1, s) := apply_update (clock i) timeout u s in
    let '(r2, s) := apply_updates clock (S i) timeout rest s in
    (r1 || r2, s)
  end.

Definition reconcile (clock : nat -> Z) (timeout : Duration) (f : Frame) (s : Shared) : bool * Shared :=
  let '(refuted, s) := apply_updates clock 0 timeout (updates f) s in
  (refuted, set_counter (fun c => merge c (fr_counter f)) s).

(** ** Incoming datagrams *)
Definition handle_ack (f : Frame) (r : Runtime) : Runtime * list datagram :=
  let r := match probe r with
           | Some p => if pr_seq p =? fr_seq f then mark_alive (pr_target p) (set_probe None r) else r
           | None => r
           end in
  match relays r !! fr_seq f with
  | Some rl =>
    let r := set_relays (delete (fr_seq f)) r in
    (r, if decide (rl_target rl = from_addr f) then send (rl_origin rl) (fr_seq f) Ack r else [])
  | None => (r, [])
  end.

Definition handle (clock : nat -> Z) (bytes : list ascii) (r : Runtime) : Runtime * list datagram :=
  match decode bytes with
  | None => (r, [])
  | Some f =>
    if negb (version f =? PROTOCOL_VERSION) then (r, [])
    else
      let '(refuted, s) := reconcile clock (suspicion_timeout (config r)) f (shared r) in
      let r := set_shared (fun _ => s) r in
      let '(r, out) := if refuted then gossip_round r else (r, []) in
      match fr_kind f with
      | Ping => (r, out ++ send (from_addr f) (fr_seq f) Ack r)
      | PingReq target =>
        let expire := clock (length (updates f)) + probe_timeout (config r) * 2 in
        let r := set_relays (insert (fr_seq f) (mk_relay (from_addr f) target expire)) r in
        (r, out ++ send target (fr_seq f) Ping r)
      | Ack => let '(r, out') := handle_ack f r in (r, out ++ out')
      end
  end.

(** ** The event loop *)
Definition next_deadline (next_tick : Z) (r : Runtime) : Z :=
  let d := match probe r with Some p => Z.min next_tick (deadline p) | None => next_tick end in
  let d := map_fold (fun _ rl d => Z.min d (expire rl)) d (relays r) in
  map_fold (fun _ p d => match suspect_deadline p with Some w => Z.min d w | None => d end) d (peers (shared r)).

(** The timed duties of one iteration. *)
Definition duties (now next_tick : Z) (r : Runtime) : Runtime * Z * list datagram :=
  let '(r, out1) := reap_suspects now r in
  let '(r, out2) := advance_probe now r in
  let '(r, next_tick, out3) :=
    if next_tick <=? now then
      let '(r, o1) := gossip_round r in
      let '(r, o2) := start_probe now r in
      (r, now + probe_interval (config r), o1 ++ o2)
    else (r, next_tick, []) in
  (set_relays (filter (fun x => now < expire x.2)) r, next_tick, out1 ++ out2 ++ out3).

(** What wakes the loop, or a call on the handle. *)
Inductive event :=
| Wake (now : Z)
| Receive (now : Z) (clock : nat -> Z) (bytes : list ascii)
| Incr (n : Z).

Definition cluster_incr (n : Z) (r : Runtime) : Runtime :=
  set_shared (fun s => set_counter (incr (me s) n) s) r.

(** One iteration: its duties at [now], then a datagram if one is received. *)
Definition gossip_step (e : event) (x : Runtime * Z) : Runtime * Z * list datagram :=
  let '(r, tick) := x in
  match e with
  | Wake now => duties now tick r
  | Receive now clock bytes =>
    let '(r, tick, out) := duties now tick r in
    let '(r, out') := handle clock bytes r in
    (r, tick, out ++ out')
  | Incr n => (cluster_incr n r, tick, [])
  end.

Definition runtime_new (c : Config) (me : NodeId) (local : SocketAddr) (seed : Z) : Runtime :=
  let x := next_u64 seed in
  mk_runtime c (shared_new me local) x x None ∅ 0.

(** [run]: the first round, and the first tick one interval later. *)
Definition run_start (now : Z) (r : Runtime) : Runtime * Z * list datagram :=
  let '(r, out) := gossip_round r in (r, now + probe_interval (config r), out).

(** The handle's queries. *)
Definition counter_value (r : Runtime) : Z := value (counter (shared r)).
Definition cluster_members (r : Runtime) : list NodeId := members (membership (shared r)).
Definition cluster_leader (r : Runtime) : option NodeId := leader (membership (shared r)).
Definition cluster_is_leader (r : Runtime) : bool := is_leader (membership (shared r)).

(** ** The handle *)

(** [SocketAddr::to_string]. *)
Definition show_addr (a : SocketAddr) : string :=
  match sa_ip a with
  | V4 _ => show_ip (sa_ip a) +:+ ":" +:+ show_u (sa_port a)
  | V6 _ => "[" +:+ show_ip (sa_ip a) +:+ "]:" +:+ show_u (sa_port a)
  end.

(** The task of the event loop, as the runtime sees it: running, with or
    without a stored notification, ended, or aborted. *)
Inductive LoopTask := Looping (notified : bool) | Ended | Aborted.

(** The handle; its [handle] is taken by the one that stops the task. *)
Record ClusterHandle := mk_handle { h_me : NodeId; h_local_addr : SocketAddr; h_task : bool }.

(** [Cluster::spawn], given what [bind] and [local_addr] return and the seed
    of the random numbers. *)
Definition cluster_spawn (bind : SocketAddr -> string + unit) (socket_addr : string + SocketAddr) (seed : Z) (c : Config)
    : string + (ClusterHandle * Runtime * LoopTask) :=
  match bind (bind_addr c), socket_addr with
  | inl e, _ => inl e
  | inr _, inl e => inl e
  | inr _, inr local =>
    let me := show_addr local in
    inr (mk_handle me local true, runtime_new c me local seed, Looping false)
  end.

Definition notify_one (t : LoopTask) : LoopTask := match t with Looping _ => Looping true | t => t end.
Definition task_abort (t : LoopTask) : LoopTask := match t with Looping _ => Aborted | t => t end.

(** [Drop]. *)
Definition cluster_drop (h : ClusterHandle) (t : LoopTask) : LoopTask := if h_task h then task_abort t else t.

(** [shutdown] up to its [await]: notify, take the handle.  The rest awaits the
    end of the task; then, or when it is cancelled, [self] is dropped. *)
Definition shutdown_start (h : ClusterHandle) (t : LoopTask) : ClusterHandle * LoopTask :=
  (mk_handle (h_me h) (h_local_addr h) false, notify_one t).
Definition shutdown_poll (h : ClusterHandle) (t : LoopTask) : option LoopTask :=
  match t with Looping _ => None | t => Some (cluster_drop h t) end.

(** The [select!] of the loop: it breaks on a notification when no other branch
    is ready, and when the others are, if it is [chosen]. *)
Definition loop_select (other_ready chosen : bool) (t : LoopTask) : LoopTask :=
  match t with
  | Looping true => if negb other_ready || chosen then Ended else Looping true
  | t => t
  end.

End Gossip.
End Gossip.
