(* ===== verification/GossipProps.v ===== *)
(** * Properties of [pulsate-cluster] *)

From Stdlib Require Import ZArith Ascii String Lia.
From stdpp Require Import base option list gmap sorting strings.
From S2P Require Import Prelude RustStr RustNet UtilParse Cluster Gossip.
Import Gossip.
Local Open Scope string_scope.
Local Open Scope list_scope.
Local Open Scope Z_scope.

(** ** The counter is a join_node semilattice *)

Lemma merge_lookup c d n :
  counts (merge c d) !! n = union_with (fun a b => Some (Z.max a b)) (counts c !! n) (counts d !! n).
Proof. unfold merge. simpl. apply lookup_union_with. Qed.

Lemma counter_eq c d : (forall n, counts c !! n = counts d !! n) -> c = d.
Proof. intros E. destruct c, d. f_equal. by apply map_eq. Qed.

Ltac counter_lattice :=
  apply counter_eq; intros n; rewrite ?merge_lookup;
  repeat match goal with |- context [counts ?c !! n] => destruct (counts c !! n) end;
  simpl; try done; f_equal; lia.

Lemma merge_comm c d : merge c d = merge d c.
Proof. counter_lattice. Qed.
Lemma merge_assoc c d e : merge c (merge d e) = merge (merge c d) e.
Proof. counter_lattice. Qed.
Lemma merge_idemp c : merge c c = c.
Proof. counter_lattice. Qed.

(** [d] knows at least what [c] knows. *)
Definition counter_le (c d : GCounter) : Prop := merge c d = d.

#[export] Instance counter_le_preorder : PreOrder counter_le.
Proof.
  split; [intros c; apply merge_idemp|]. unfold counter_le. intros c d e Hcd Hde.
  by rewrite <-Hde, merge_assoc, Hcd.
Qed.

#[export] Instance merge_proper : Proper (counter_le ==> counter_le ==> counter_le) merge.
Proof.
  unfold counter_le. intros c c' Hc d d' Hd. rewrite <-Hc, <-Hd at 2. rewrite <-Hc, <-Hd at 1. counter_lattice.
Qed.

Lemma merge_lub c d u : counter_le c u -> counter_le d u -> counter_le (merge c d) u.
Proof. unfold counter_le. intros Hc Hd. by rewrite <-merge_assoc, Hd. Qed.
Lemma merge_ub_l c d : counter_le c (merge c d).
Proof. unfold counter_le. by rewrite merge_assoc, merge_idemp. Qed.
Lemma merge_ub_r c d : counter_le d (merge c d).
Proof. rewrite merge_comm. apply merge_ub_l. Qed.

Lemma counter_le_antisym c d : counter_le c d -> counter_le d c -> c = d.
Proof. unfold counter_le. intros Hc Hd. by rewrite <-Hd, merge_comm. Qed.

Lemma merge_all_ub l : forall c x, x = c \/ x ∈ l -> counter_le x (foldl merge c l).
Proof.
  induction l as [|y l IH]; intros c x Hx; simpl.
  - destruct Hx as [->|Hx]; [reflexivity|set_solver].
  - destruct Hx as [->|[->|Hx]%elem_of_cons]; [| |apply IH; by right];
      (etrans; [|apply IH; left; reflexivity]); [apply merge_ub_l|apply merge_ub_r].
Qed.

Lemma merge_all_lub l : forall c u, counter_le c u -> (forall x, x ∈ l -> counter_le x u) -> counter_le (foldl merge c l) u.
Proof.
  induction l as [|y l IH]; intros c u Hc Hl; simpl; [done|]. apply IH; [apply merge_lub; [done|]|]; set_solver.
Qed.

(** The counter converges: replicas that start alike and merge the same
    counters, in any order and any number of times, end up equal, and each
    node's slot is the maximum of those merged. *)
Theorem counter_converges (c : GCounter) (l l' : list GCounter) (Hsame : forall x, x ∈ l <-> x ∈ l') :
  foldl merge c l = foldl merge c l' /\ value (foldl merge c l) = value (foldl merge c l')
  /\ forall d n, map_Forall (fun _ z => 0 <= z) (counts c) -> map_Forall (fun _ z => 0 <= z) (counts d) ->
       default 0 (counts (merge c d) !! n) = Z.max (default 0 (counts c !! n)) (default 0 (counts d !! n)).
Proof.
  assert (E : foldl merge c l = foldl merge c l').
  { apply counter_le_antisym; (apply merge_all_lub; [apply merge_all_ub; by left|]);
      intros x Hx; apply merge_all_ub; right; by apply Hsame. }
  split_and!; [done|by rewrite E|]. intros d n Hc Hd. rewrite merge_lookup.
  destruct (counts c !! n) eqn:Ec, (counts d !! n) eqn:Ed; simpl; try apply Hc in Ec; try apply Hd in Ed; lia.
Qed.

Lemma counter_converges_witness :
  let a := incr "a" 2 counter_new in let b := incr "b" 3 counter_new in
  foldl merge counter_new [a; b] = foldl merge counter_new [b; a; b].
Proof. intros a b. apply (counter_converges counter_new [a; b] [b; a; b]). set_solver. Defined.

(** ** Reconciliation converges *)

(** The precedence of a record, as one number. *)
Definition precedence (incarnation : Z) (s : MemberState) : Z := 3 * incarnation + rank s.

Lemma precedence_inj i s i' s' : precedence i s = precedence i' s' -> i = i' /\ s = s'.
Proof. unfold precedence. destruct s, s'; simpl; intros; split; try done; lia. Qed.

(** What a view records for a node: an address, an incarnation and a state. *)
Definition Claim : Type := SocketAddr * Z * MemberState.
Definition claim_precedence (c : Claim) : Z := precedence c.1.2 c.2.
Definition claim_of (u : MemberUpdate) : Claim := (up_addr u, up_incarnation u, up_state u).

Definition record (s : Shared) (n : NodeId) : option Claim :=
  (fun p => (addr p, incarnation p, state p)) <$> peers s !! n.
Definition view (s : Shared) (n : NodeId) : option (Z * MemberState) := (fun c : Claim => (c.1.2, c.2)) <$> record s n.

Lemma supersedes_spec u p :
  supersedes u p = (precedence (incarnation p) (state p) <? precedence (up_incarnation u) (up_state u)).
Proof.
  apply eq_iff_eq_true. unfold supersedes, precedence. rewrite orb_true_iff, andb_true_iff, !Z.ltb_lt, Z.eqb_eq.
  destruct (state p), (up_state u); simpl; lia.
Qed.

(** The first of the highest claims about [n]. *)
Definition absorb (n : NodeId) (best : option Claim) (u : MemberUpdate) : option Claim :=
  if (up_node u =? n)%string then
    match best with
    | Some b => Some (if claim_precedence b <? claim_precedence (claim_of u) then claim_of u else b)
    | None => Some (claim_of u)
    end
  else best.

Lemma apply_update_record now timeout u s n :
  n <> me s ->
  record (apply_update now timeout u s).2 n = absorb n (record s n) u /\ me (apply_update now timeout u s).2 = me s.
Proof.
  intros Hn. unfold apply_update, absorb, record.
  destruct (String.eqb_spec (up_node u) (me s)) as [E|E].
  { destruct (String.eqb_spec (up_node u) n) as [E'|_]; [congruence|]. by destruct (_ && _). }
  destruct (peers s !! up_node u) as [p|] eqn:Ep.
  - rewrite supersedes_spec. destruct (precedence _ _ <? _) eqn:Eu.
    + split; [|by destruct (up_state u)].
      transitivity ((fun p => (addr p, incarnation p, state p)) <$> <[up_node u := mk_peer (up_addr u) (up_incarnation u)
        (up_state u) (deadline_of (up_state u) now timeout)]> (peers s) !! n); [by destruct (up_state u)|].
      destruct (String.eqb_spec (up_node u) n) as [<-|Hne]; [|by rewrite lookup_insert_ne].
      rewrite lookup_insert_eq, Ep. cbn. unfold claim_precedence. cbn. by rewrite Eu.
    + split; [|done]. destruct (String.eqb_spec (up_node u) n) as [<-|Hne]; [|done].
      cbn [snd]. rewrite Ep. cbn. unfold claim_precedence. cbn. by rewrite Eu.
  - split; [|by case_decide]. cbn [snd].
    transitivity ((fun p => (addr p, incarnation p, state p)) <$> <[up_node u := mk_peer (up_addr u) (up_incarnation u)
      (up_state u) (deadline_of (up_state u) now timeout)]> (peers s) !! n); [by case_decide|].
    destruct (String.eqb_spec (up_node u) n) as [<-|Hne]; [by rewrite lookup_insert_eq, Ep|by rewrite lookup_insert_ne].
Qed.

Lemma apply_updates_record clock timeout us : forall i s n,
  n <> me s ->
  record (apply_updates clock i timeout us s).2 n = foldl (absorb n) (record s n) us.
Proof.
  induction us as [|u us IH]; intros i s n Hn; [done|]. cbn [apply_updates foldl].
  destruct (apply_update_record (clock i) timeout u s n Hn) as [Ev Em].
  destruct (apply_update (clock i) timeout u s) as [r1 s1]. simpl in Ev, Em.
  specialize (IH (S i) s1 n). rewrite Em, Ev in IH. specialize (IH Hn).
  by destruct (apply_updates clock (S i) timeout us s1).
Qed.

(** The claims about [n] a node has met. *)
Definition claims (n : NodeId) (us : list MemberUpdate) : list Claim :=
  claim_of <$> filter (fun u => up_node u = n) us.
Definition met (n : NodeId) (start : option Claim) (us : list MemberUpdate) : list Claim := option_list start ++ claims n us.

Lemma elem_of_claims n us c : c ∈ claims n us <-> exists u, u ∈ us /\ up_node u = n /\ c = claim_of u.
Proof.
  unfold claims. rewrite list_elem_of_fmap. split.
  - intros (u & -> & [Hn Hu]%list_elem_of_filter). eauto.
  - intros (u & Hu & Hn & ->). exists u. split; [done|]. by apply list_elem_of_filter.
Qed.

(** [best] is one of the highest claims of [l]. *)
Definition highest (best : option Claim) (l : list Claim) : Prop :=
  match best with
  | Some b => b ∈ l /\ forall c, c ∈ l -> claim_precedence c <= claim_precedence b
  | None => l = []
  end.

Lemma absorb_highest n us : forall start, highest (foldl (absorb n) start us) (met n start us).
Proof.
  induction us as [|u us IH]; intros start; cbn [foldl].
  { unfold met, claims. cbn. rewrite app_nil_r. destruct start as [b|]; [|done]. split; [set_solver|].
    intros c ->%list_elem_of_singleton. done. }
  specialize (IH (absorb n start u)). revert IH. unfold absorb, met, claims. rewrite filter_cons.
  destruct (String.eqb_spec (up_node u) n) as [E|E]; [rewrite decide_True by done|by rewrite decide_False].
  destruct start as [b|]; cbn [option_list fmap list_fmap app]; [|done].
  destruct (Z.ltb_spec (claim_precedence b) (claim_precedence (claim_of u))) as [Hlt|Hge];
    (destruct (foldl _ _ us) as [r|]; cbn [highest]; [|done]); intros [Hin Hmax]; (split; [set_solver|]);
    intros c [->|[->|Hc]%elem_of_cons]%elem_of_cons; try (apply Hmax; set_solver).
  - etrans; [|apply Hmax; left]. lia.
  - etrans; [|apply Hmax; left]. lia.
Qed.

Lemma highest_precedence b b' l l' :
  highest b l -> highest b' l' ->
  (forall k, k ∈ claim_precedence <$> l <-> k ∈ claim_precedence <$> l') ->
  claim_precedence <$> b = claim_precedence <$> b'.
Proof.
  intros Hb Hb' Hl. destruct b as [b|], b' as [b'|]; cbn in *; [|subst..|done].
  - destruct Hb as [Hb Hm], Hb' as [Hb' Hm']. f_equal.
    assert (H1 : claim_precedence b ∈ claim_precedence <$> l') by (apply Hl, list_elem_of_fmap; eauto).
    assert (H2 : claim_precedence b' ∈ claim_precedence <$> l) by (apply Hl, list_elem_of_fmap; eauto).
    apply list_elem_of_fmap in H1 as (c & E1 & Hc%Hm'), H2 as (c' & E2 & Hc'%Hm). lia.
  - destruct Hb as [Hb _]. assert (H1 : claim_precedence b ∈ claim_precedence <$> []) by (apply Hl, list_elem_of_fmap; eauto).
    set_solver.
  - destruct Hb' as [Hb _]. assert (H1 : claim_precedence b' ∈ claim_precedence <$> []) by (apply Hl, list_elem_of_fmap; eauto).
    set_solver.
Qed.

(** The precedences met are those of the starting view and of the updates. *)
Lemma met_precedences n (v v' : option Claim) us us' k :
  (forall u, u ∈ us -> u ∈ us') ->
  (fun c : Claim => (c.1.2, c.2)) <$> v = (fun c : Claim => (c.1.2, c.2)) <$> v' ->
  k ∈ claim_precedence <$> met n v us -> k ∈ claim_precedence <$> met n v' us'.
Proof.
  intros Hsub Hv (c & -> & Hc)%list_elem_of_fmap. unfold met in *. apply elem_of_app in Hc as [Hc|Hc].
  - destruct v as [x|]; [|set_solver]. apply list_elem_of_singleton in Hc as ->. destruct v' as [y|]; [|done].
    cbn in Hv. injection Hv as E1 E2. apply list_elem_of_fmap. exists y. unfold claim_precedence. rewrite E1, E2. split; [done|set_solver].
  - apply list_elem_of_fmap. exists c. split; [done|]. apply elem_of_app. right.
    apply elem_of_claims in Hc as (u & Hu & E). apply elem_of_claims. eauto.
Qed.

Lemma view_of_precedence (b b' : option Claim) :
  claim_precedence <$> b = claim_precedence <$> b' ->
  (fun c : Claim => (c.1.2, c.2)) <$> b = (fun c : Claim => (c.1.2, c.2)) <$> b'.
Proof.
  destruct b as [b|], b' as [b'|]; cbn; try done. intros [= [-> ->]%precedence_inj]. done.
Qed.

(** ** The invariant of the runtime *)

(** The live view is this node and the peers not dead; a peer has a deadline
    exactly when it is suspect. *)
Definition shared_ok (s : Shared) : Prop :=
  m_me (membership s) = me s /\ peers s !! me s = None
  /\ (forall n, n ∈ nodes (membership s) <-> n = me s \/ exists p, peers s !! n = Some p /\ state p <> Dead)
  /\ map_Forall (fun _ p => state p = Suspect <-> is_Some (suspect_deadline p)) (peers s).

Lemma shared_new_ok me local : shared_ok (shared_new me local).
Proof.
  split_and!; simpl; [done|done| |apply map_Forall_empty]. intros n. rewrite elem_of_singleton.
  split; [by left|]. by intros [?|(p & ? & _)].
Qed.

(** Record a peer and make the live view follow. *)
Lemma insert_peer_ok s n p f :
  shared_ok s -> n <> me s -> (state p = Suspect <-> is_Some (suspect_deadline p)) ->
  m_me (f (membership s)) = m_me (membership s) ->
  (forall x, x ∈ nodes (f (membership s))
     <-> (x = n /\ state p <> Dead) \/ (x <> n /\ x ∈ nodes (membership s))) ->
  shared_ok (set_membership f (set_peers (insert n p) s)).
Proof.
  intros (Hme & Hno & Hn & Hd) Hne Hp Hf1 Hf2. split_and!; simpl.
  - by rewrite Hf1.
  - by rewrite lookup_insert_ne.
  - intros x. rewrite Hf2, Hn. destruct (decide (x = n)) as [->|Hx].
    + rewrite lookup_insert_eq. naive_solver.
    + rewrite lookup_insert_ne by done. naive_solver.
  - by apply map_Forall_insert_2.
Qed.

Lemma join_peer_ok s n p :
  shared_ok s -> n <> me s -> (state p = Suspect <-> is_Some (suspect_deadline p)) -> state p <> Dead ->
  shared_ok (set_membership (join_node n) (set_peers (insert n p) s)).
Proof.
  intros Hok Hn Hp Hs. apply insert_peer_ok; [done..|]. intros x. unfold join_node. simpl.
  rewrite elem_of_union, elem_of_singleton. destruct (decide (x = n)); naive_solver.
Qed.

Lemma leave_me n m : m_me (leave n m) = m_me m.
Proof. unfold leave. by destruct (_ =? _)%string. Qed.

Lemma leave_nodes n m x : n <> m_me m -> x ∈ nodes (leave n m) <-> x ∈ nodes m /\ x <> n.
Proof.
  intros Hn. unfold leave. destruct (String.eqb_spec n (m_me m)); [done|]. simpl.
  by rewrite elem_of_difference, elem_of_singleton.
Qed.

Lemma leave_peer_ok s n p :
  shared_ok s -> n <> me s -> suspect_deadline p = None -> state p = Dead ->
  shared_ok (set_membership (leave n) (set_peers (insert n p) s)).
Proof.
  intros Hok Hn Hp Hs. apply insert_peer_ok; [done|done| | |].
  - rewrite Hp, Hs. split; [done|by intros [? ?]].
  - apply leave_me.
  - intros x. rewrite leave_nodes by (destruct Hok as [-> _]; done). naive_solver.
Qed.

(** Recording a dead stranger leaves the live view alone. *)
Lemma tombstone_ok s n p :
  shared_ok s -> n <> me s -> peers s !! n = None -> suspect_deadline p = None -> state p = Dead ->
  shared_ok (set_peers (insert n p) s).
Proof.
  intros Hok Hn Hnone Hp Hs. assert (set_peers (insert n p) s = set_membership id (set_peers (insert n p) s)) as -> by done.
  apply insert_peer_ok; [done|done| |done|].
  - rewrite Hp, Hs. split; [done|by intros [? ?]].
  - intros x. destruct Hok as (_ & _ & Hv & _). simpl. destruct (decide (x = n)) as [->|Hx]; [|naive_solver].
    rewrite Hv, Hnone. naive_solver.
Qed.

Lemma apply_update_ok now timeout u s :
  shared_ok s -> shared_ok (apply_update now timeout u s).2 /\ me (apply_update now timeout u s).2 = me s.
Proof.
  intros Hok. unfold apply_update. destruct (String.eqb_spec (up_node u) (me s)) as [E|E].
  { by destruct (_ && _). }
  destruct (peers s !! up_node u) as [p|] eqn:Ep.
  - destruct (supersedes u p); [|done]. destruct (up_state u) eqn:Eu; cbn [snd]; (split; [|done]).
    + apply join_peer_ok; [done..| |done]. simpl. split; [done|by intros [? ?]].
    + apply join_peer_ok; [done..| |done]. simpl. by split.
    + by apply leave_peer_ok.
  - cbn [snd]. destruct (decide (up_state u = Dead)) as [Eu|Eu]; (split; [|done]).
    + apply tombstone_ok; [done..| |done]. simpl. by rewrite Eu.
    + apply join_peer_ok; [done..| |done]. simpl. destruct (up_state u); simpl; [|by split|done].
      split; [done|by intros [? ?]].
Qed.

Lemma apply_updates_ok clock timeout us : forall i s,
  shared_ok s -> shared_ok (apply_updates clock i timeout us s).2 /\ me (apply_updates clock i timeout us s).2 = me s.
Proof.
  induction us as [|u us IH]; intros i s Hok; [done|]. cbn [apply_updates].
  destruct (apply_update_ok (clock i) timeout u s Hok) as [H1 E1].
  destruct (apply_update (clock i) timeout u s) as [r1 s1]. simpl in H1, E1.
  destruct (IH (S i) s1 H1) as [H2 E2]. destruct (apply_updates clock (S i) timeout us s1).
  simpl in *. split; [done|congruence].
Qed.

(** A member is in the live view when what is recorded of it is not a death. *)
Lemma live_view s n : shared_ok s -> n <> me s -> n ∈ nodes (membership s) <-> exists i st, view s n = Some (i, st) /\ st <> Dead.
Proof.
  intros (_ & _ & Hv & _) Hn. rewrite Hv. unfold view, record. destruct (peers s !! n) as [p|]; cbn.
  - split; [intros [?|(q & [= <-] & Hs)]; [done|eauto]|]. intros (i & st & [= <- <-] & Hs). eauto.
  - split; [by intros [?|(q & ? & _)]|by intros (? & ? & ? & _)].
Qed.

(** C30. Views converge.  Two nodes that record the same incarnation and state
    for a third, and receive the same updates, in any order, any number of
    times and at any moments, end with the same incarnation and state for it,
    the highest among what was recorded and what was received about it; and
    the third is in the live view of both or of neither.  They also record the
    same address for it when no two claims of the same incarnation and state
    give it different addresses, which holds of honest nodes, named after
    their address.  It does not hold otherwise: see [address_depends_on_order]. *)
Theorem reconcile_converges (clock clock' : nat -> Z) (timeout timeout' : Duration)
    (us us' : list MemberUpdate) (s s' : Shared) (n : NodeId)
    (Hsame : forall u, u ∈ us <-> u ∈ us') (Hview : view s n = view s' n)
    (Hn : n <> me s) (Hn' : n <> me s') :
  let after := (apply_updates clock 0 timeout us s).2 in
  let after' := (apply_updates clock' 0 timeout' us' s').2 in
  view after n = view after' n
  /\ highest (record after n) (met n (record s n) us)
  /\ (shared_ok s -> shared_ok s' -> n ∈ nodes (membership after) <-> n ∈ nodes (membership after'))
  /\ ((forall c c', c ∈ met n (record s n) us -> c' ∈ met n (record s' n) us' ->
         claim_precedence c = claim_precedence c' -> c.1.1 = c'.1.1) ->
       record after n = record after' n).
Proof.
  cbv zeta. pose proof (apply_updates_record clock timeout us 0 s n Hn) as E.
  pose proof (apply_updates_record clock' timeout' us' 0 s' n Hn') as E'.
  pose proof (absorb_highest n us (record s n)) as Hb. rewrite <-E in Hb.
  pose proof (absorb_highest n us' (record s' n)) as Hb'. rewrite <-E' in Hb'.
  assert (Hprec : claim_precedence <$> record (apply_updates clock 0 timeout us s).2 n
    = claim_precedence <$> record (apply_updates clock' 0 timeout' us' s').2 n).
  { eapply highest_precedence; [exact Hb|exact Hb'|]. intros k. split; apply met_precedences; naive_solver. }
  pose proof (view_of_precedence _ _ Hprec) as Hafter. split_and!; [done|done| |].
  - intros [Hok Em]%(apply_updates_ok clock timeout us 0) [Hok' Em']%(apply_updates_ok clock' timeout' us' 0).
    rewrite !live_view by (done || congruence). unfold view. by rewrite Hafter.
  - intros Haddr. destruct (record _ n) as [[[a i] st]|], (record (apply_updates clock' _ _ _ _).2 n) as [[[a' i'] st']|];
      try done. cbn in Hafter. injection Hafter as -> ->. do 3 f_equal. apply (Haddr (a, i', st') (a', i', st')); [apply Hb|apply Hb'|done].
Qed.

Section Steps.
Variable iter : gmap NodeId Peer -> list (NodeId * Peer).
Hypothesis iter_perm : forall m, iter m ≡ₚ map_to_list m.
Variable encode : Frame -> option (list ascii).
Variable decode : list ascii -> option Frame.

Lemma send_pings_shared dests r : shared (send_pings iter encode dests r).1 = shared r.
Proof.
  revert r. induction dests as [|a dests IH]; intros r; [done|]. cbn [send_pings].
  destruct (next_seq r) as [sq r1] eqn:E. specialize (IH r1).
  destruct (send_pings iter encode dests r1). simpl in *. rewrite IH. unfold next_seq in E. by injection E as _ <-.
Qed.

Lemma gossip_round_shared r : shared (gossip_round iter encode r).1 = shared r.
Proof.
  unfold gossip_round. destruct (shuffle _ _) as [x dests]. by rewrite send_pings_shared.
Qed.

Lemma leave_all_nodes dead : forall m x, m_me m ∉ dead ->
  m_me (foldl (fun m n => leave n m) m dead) = m_me m
  /\ (x ∈ nodes (foldl (fun m n => leave n m) m dead) <-> x ∈ nodes m /\ x ∉ dead).
Proof.
  induction dead as [|n dead IH]; intros m x Hm; simpl; [set_solver|].
  destruct (IH (leave n m) x) as [E1 E2]; [rewrite leave_me; set_solver|].
  rewrite E1, E2, leave_me. split; [done|]. rewrite leave_nodes by set_solver. set_solver.
Qed.

Lemma reap_ok now r : shared_ok (shared r) -> shared_ok (shared (reap_suspects iter encode now r).1).
Proof.
  intros (Hme & Hno & Hv & Hd). unfold reap_suspects.
  set (dead := fst <$> filter _ _). set (s := shared r) in *.
  assert (Hdead : forall n, n ∈ dead <-> exists p, peers s !! n = Some p /\ expired now p = true).
  { intros n. unfold dead. rewrite list_elem_of_fmap. split.
    - intros ([n' p] & -> & [He Hp]%list_elem_of_filter). rewrite iter_perm, elem_of_map_to_list in Hp. eauto.
    - intros (p & Hp & He). exists (n, p). split; [done|]. apply list_elem_of_filter. split; [done|].
      by rewrite iter_perm, elem_of_map_to_list. }
  assert (Hok : shared_ok (set_membership (fun m => foldl (fun m n => leave n m) m dead)
                             (set_peers (fmap (bury now)) s))).
  { assert (Hnd : m_me (membership s) ∉ dead).
    { rewrite Hdead, Hme, Hno. naive_solver. }
    split_and!; simpl.
    - by rewrite (proj1 (leave_all_nodes dead _ "" Hnd)).
    - by rewrite lookup_fmap, Hno.
    - intros n. rewrite (proj2 (leave_all_nodes dead _ n Hnd)), Hv, Hdead, lookup_fmap. split.
      + intros [[->|(p & Hp & Hs)] Hn]; [by left|right]. exists p. rewrite Hp. simpl. unfold bury.
        destruct (expired now p) eqn:E; [naive_solver|done].
      + intros [->|(p & Hp & Hs)].
        * split; [by left|]. rewrite Hno. naive_solver.
        * destruct (peers s !! n) as [q|] eqn:Eq; [|done]. simpl in Hp. injection Hp as <-. unfold bury in Hs.
          destruct (expired now q) eqn:E; [done|]. split; [right; eauto|]. intros (p & [= <-] & E'). congruence.
    - intros n p. rewrite lookup_fmap. destruct (peers s !! n) as [q|] eqn:Eq; [|done]. simpl. intros [= <-].
      unfold bury. destruct (expired now q); [|by apply (Hd n)]. simpl. split; [done|by intros [? ?]]. }
  destruct dead; [exact Hok|]. by rewrite gossip_round_shared.
Qed.

Lemma mark_suspect_ok node now r :
  shared_ok (shared r) -> shared_ok (shared (mark_suspect node now r)).
Proof.
  intros Hok. unfold mark_suspect. destruct (peers (shared r) !! node) as [p|] eqn:E; [|done].
  case_decide as Hs; [|done]. cbn [shared set_shared].
  assert (node <> me (shared r)) as Hn by (intros ->; destruct Hok as (_ & Hno & _); congruence).
  destruct Hok as (Hme & Hno & Hv & Hd). split_and!; simpl; [done|by rewrite lookup_insert_ne| |].
  - intros x. rewrite Hv. destruct (decide (x = node)) as [->|Hx].
    + rewrite lookup_insert_eq, E. split; intros [?|_]; try done; right; eexists; (split; [done|]); [done|congruence].
    + by rewrite lookup_insert_ne.
  - apply map_Forall_insert_2; [|done]. simpl. by split.
Qed.

Lemma mark_alive_ok node r : shared_ok (shared r) -> shared_ok (shared (mark_alive node r)).
Proof.
  intros Hok. unfold mark_alive. destruct (peers (shared r) !! node) as [p|] eqn:E; [|done].
  case_decide as Hs; [done|]. cbn [shared set_shared]. apply join_peer_ok; [done| | |done].
  - intros ->. destruct Hok as (_ & Hno & _). congruence.
  - simpl. split; [done|by intros [? ?]].
Qed.

Lemma advance_ok now r : shared_ok (shared r) -> shared_ok (shared (advance_probe iter encode now r).1).
Proof.
  intros Hok. unfold advance_probe. destruct (probe r) as [p|]; [|done]. destruct (now <? deadline p); [done|].
  destruct (phase p).
  - unfold pick_indirect. by destruct (shuffle _ _).
  - rewrite gossip_round_shared. by apply mark_suspect_ok.
Qed.

Lemma start_probe_shared now r : shared (start_probe iter encode now r).1 = shared r.
Proof.
  unfold start_probe. destruct (probe r); [done|]. by destruct (candidates _ _ !! _) as [[node a]|].
Qed.

Lemma handle_ack_ok f r : shared_ok (shared r) -> shared_ok (shared (handle_ack iter encode f r).1).
Proof.
  intros Hok. unfold handle_ack. set (r' := match probe r with Some _ => _ | None => r end).
  assert (shared_ok (shared r')).
  { unfold r'. destruct (probe r) as [p|]; [|done]. destruct (_ =? _); [|done]. by apply mark_alive_ok. }
  by destruct (relays r' !! fr_seq f).
Qed.

Lemma handle_ok clock bytes r :
  shared_ok (shared r) -> shared_ok (shared (handle iter encode decode clock bytes r).1).
Proof.
  intros Hok. unfold handle. destruct (decode bytes) as [f|]; [|done]. destruct (negb _); [done|].
  unfold reconcile. destruct (apply_updates_ok clock (suspicion_timeout (config r)) (updates f) 0 _ Hok) as [H1 _].
  destruct (apply_updates _ _ _ _ _) as [refuted s]. simpl in H1.
  set (r1 := set_shared _ r). assert (H2 : shared_ok (shared r1)) by exact H1.
  destruct (if refuted then gossip_round iter encode r1 else (r1, [])) as [r2 out] eqn:E.
  assert (H3 : shared_ok (shared r2)).
  { destruct refuted; [|by injection E as <- _]. assert (r2 = (gossip_round iter encode r1).1) as -> by by rewrite E.
    by rewrite gossip_round_shared. }
  destruct (fr_kind f); [done| |done]. pose proof (handle_ack_ok f r2 H3) as H4.
  by destruct (handle_ack iter encode f r2).
Qed.

Lemma duties_ok now tick r : shared_ok (shared r) -> shared_ok (shared (duties iter encode now tick r).1.1).
Proof.
  intros Hok. unfold duties. pose proof (reap_ok now r Hok) as H1.
  destruct (reap_suspects iter encode now r) as [r1 out1]. simpl in H1.
  pose proof (advance_ok now r1 H1) as H2. destruct (advance_probe iter encode now r1) as [r2 out2]. simpl in H2.
  destruct (tick <=? now); [|done].
  pose proof (gossip_round_shared r2) as E1. destruct (gossip_round iter encode r2) as [r3 o1]. simpl in E1.
  pose proof (start_probe_shared now r3) as E2. destruct (start_probe iter encode now r3) as [r4 o2].
  simpl in *. congruence.
Qed.

Lemma step_ok e x : shared_ok (shared x.1) -> shared_ok (shared (gossip_step iter encode decode e x).1.1).
Proof.
  destruct x as [r tick]. simpl. intros Hok. destruct e as [now|now clock bytes|n]; simpl.
  - by apply duties_ok.
  - pose proof (duties_ok now tick r Hok) as H1. destruct (duties iter encode now tick r) as [[r1 t] out]. simpl in H1.
    pose proof (handle_ok clock bytes r1 H1) as H2. by destruct (handle iter encode decode clock bytes r1).
  - exact Hok.
Qed.
End Steps.

(** The states the runtime goes through: the first round, then any sequence of
    wake-ups, datagrams (of any content) and increments. *)
Inductive reachable (iter : gmap NodeId Peer -> list (NodeId * Peer)) (encode : Frame -> option (list ascii))
    (decode : list ascii -> option Frame) (c : Config) (id : NodeId) (local : SocketAddr) (seed now : Z)
    : Runtime * Z -> Prop :=
| reach_start : reachable iter encode decode c id local seed now
    (run_start iter encode now (runtime_new c id local seed)).1
| reach_step e x : reachable iter encode decode c id local seed now x ->
    reachable iter encode decode c id local seed now (gossip_step iter encode decode e x).1.

Lemma members_spec m n : n ∈ members m <-> n ∈ nodes m.
Proof. unfold members. by rewrite merge_sort_Permutation, elem_of_elements. Qed.

Lemma leader_spec m :
  match leader m with
  | Some l => l ∈ nodes m /\ forall n, n ∈ nodes m -> node_le l n
  | None => forall n, n ∉ nodes m
  end.
Proof.
  unfold leader. pose proof (StronglySorted_merge_sort node_le (elements (nodes m))) as Hs.
  pose proof (members_spec m) as Hm. unfold members in *.
  destruct (merge_sort node_le (elements (nodes m))) as [|l rest]; simpl.
  - intros n Hn%Hm. set_solver.
  - split; [apply Hm; set_solver|]. intros n Hn%Hm. apply StronglySorted_inv in Hs as [_ Hs].
    apply elem_of_cons in Hn as [->|Hn]; [by destruct (node_le_total l l)|].
    rewrite Forall_forall in Hs. by apply Hs.
Qed.

(** Whatever datagrams arrive and however the timers fire, the live view
    is exactly this node and the peers recorded as not dead, only suspects
    have a death deadline, and the leader is the least live node; so two nodes
    with the same live view elect the same leader. *)
Theorem live_view_invariant (iter : gmap NodeId Peer -> list (NodeId * Peer)) (encode : Frame -> option (list ascii))
    (decode : list ascii -> option Frame) (c : Config) (id : NodeId) (local : SocketAddr) (seed now : Z)
    (x : Runtime * Z)
    (Hiter : forall m, iter m ≡ₚ map_to_list m)
    (Hx : reachable iter encode decode c id local seed now x) :
  let s := shared x.1 in
  shared_ok s
  /\ (exists l, cluster_leader x.1 = Some l /\ l ∈ nodes (membership s)
        /\ forall n, n ∈ nodes (membership s) -> node_le l n)
  /\ forall y, nodes (membership (shared y)) = nodes (membership s) -> cluster_leader y = cluster_leader x.1.
Proof.
  assert (Hok : shared_ok (shared x.1)).
  { induction Hx as [|e x _ IH].
    - unfold run_start. pose proof (gossip_round_shared iter encode (runtime_new c id local seed)) as E.
      destruct (gossip_round _ _ _) as [r out]. simpl in *. rewrite E. apply shared_new_ok.
    - by apply step_ok. }
  cbv zeta. split_and!; [done| |].
  - pose proof (leader_spec (membership (shared x.1))) as Hl. unfold cluster_leader.
    destruct (leader _) as [l|]; [by exists l|]. exfalso. destruct Hok as (_ & _ & Hv & _).
    apply (Hl (me (shared x.1))), Hv. by left.
  - intros y E. unfold cluster_leader, leader, members. by rewrite E.
Qed.

Definition demo_addr : SocketAddr := mk_addr (V4 2130706433) 7000.

Lemma live_view_invariant_witness :
  let r := (run_start map_to_list (fun _ => Some []) 0 (runtime_new (config_new demo_addr) "a" demo_addr 1)).1 in
  shared_ok (shared (gossip_step map_to_list (fun _ => Some []) (fun _ => None) (Wake 5) r).1.1).
Proof.
  intros r. apply (live_view_invariant map_to_list (fun _ => Some []) (fun _ => None) (config_new demo_addr) "a"
    demo_addr 1 0); [done|]. apply reach_step, reach_start.
Defined.

Definition u_suspect : MemberUpdate := mk_update "b" demo_addr 1 Suspect.
Definition u_alive : MemberUpdate := mk_update "b" demo_addr 2 Alive.
Definition u_moved : MemberUpdate := mk_update "b" (mk_addr (V4 2130706433) 7001) 2 Alive.

Lemma reconcile_converges_witness :
  let after := (apply_updates (fun _ => 0) 0 5 [u_suspect; u_alive] (shared_new "a" demo_addr)).2 in
  let after' := (apply_updates (fun _ => 9) 0 5 [u_alive; u_suspect; u_alive] (shared_new "c" demo_addr)).2 in
  record after "b" = Some (demo_addr, 2, Alive) /\ record after' "b" = record after "b"
  /\ ("b" ∈ nodes (membership after) <-> "b" ∈ nodes (membership after')).
Proof.
  cbv zeta. destruct (reconcile_converges (fun _ => 0) (fun _ => 9) 5 5 [u_suspect; u_alive] [u_alive; u_suspect; u_alive]
    (shared_new "a" demo_addr) (shared_new "c" demo_addr) "b") as (_ & _ & Hl & Hr);
    [set_solver|reflexivity|discriminate|discriminate|]. split_and!; [reflexivity| |by apply Hl; apply shared_new_ok].
  symmetry. apply Hr. intros c c'. cbn. set_solver.
Defined.

(** Two claims of one incarnation and state and two addresses: the first wins. *)
Example address_depends_on_order :
  let after us := record (apply_updates (fun _ => 0) 0 5 us (shared_new "a" demo_addr)).2 "b" in
  after [u_alive; u_moved] <> after [u_moved; u_alive].
Proof. vm_compute. discriminate. Qed.

(** A node suspected or declared dead refutes: it moves past the
    incarnation of the accusation, so that its next frame supersedes every
    record at or below it.  The one exception is an accusation at [u64::MAX],
    after which the incarnation wraps to zero and its frames supersede no such
    record. *)
Theorem refutation (now : Z) (timeout : Duration) (u : MemberUpdate) (s : Shared)
    (Hme : up_node u = me s) (Hacc : up_state u <> Alive) (Hinc : my_incarnation s <= up_incarnation u)
    (Hrange : 0 <= up_incarnation u <= u64_max) :
  let '(refuted, s') := apply_update now timeout u s in
  refuted = true
  /\ (up_incarnation u < u64_max -> my_incarnation s' = up_incarnation u + 1
        /\ forall p, incarnation p <= up_incarnation u -> supersedes (self_update s') p = true)
  /\ (up_incarnation u = u64_max -> my_incarnation s' = 0
        /\ forall p, incarnation p = u64_max -> supersedes (self_update s') p = false).
Proof.
  unfold apply_update. rewrite Hme, String.eqb_refl.
  assert (bool_decide (up_state u = Suspect \/ up_state u = Dead) = true) as ->
    by (apply bool_decide_eq_true; destruct (up_state u); auto; done).
  rewrite (proj2 (Z.leb_le _ _)) by done. simpl. split_and!; [done| |].
  - intros Hlt. rewrite wrap_u64_small by lia. split; [done|]. intros p Hp. unfold supersedes. simpl.
    apply orb_true_iff. left. apply Z.ltb_lt. lia.
  - intros ->. split; [reflexivity|]. intros p Hp. unfold supersedes. simpl. rewrite Hp. reflexivity.
Qed.

Lemma refutation_witness :
  let '(refuted, s') := apply_update 0 5 (mk_update "a" demo_addr 3 Dead) (shared_new "a" demo_addr) in
  refuted = true
  /\ (3 < u64_max -> my_incarnation s' = 3 + 1
        /\ forall p, incarnation p <= 3 -> supersedes (self_update s') p = true)
  /\ (3 = u64_max -> my_incarnation s' = 0
        /\ forall p, incarnation p = u64_max -> supersedes (self_update s') p = false).
Proof.
  apply (refutation 0 5 (mk_update "a" demo_addr 3 Dead) (shared_new "a" demo_addr));
    [reflexivity|discriminate|simpl; lia|simpl; unfold u64_max; lia].
Defined.

(** ** The handle *)

(** What may happen to a spawned cluster: selections of its loop, and at most
    one of [shutdown], dropped while it waits or not, and [Drop]. *)
Inductive HandleStep : option ClusterHandle * LoopTask -> option ClusterHandle * LoopTask -> Prop :=
| step_select h t other chosen : HandleStep (h, t) (h, loop_select other chosen t)
| step_shutdown h t : h_task h = true -> HandleStep (Some h, t) (Some (shutdown_start h t).1, (shutdown_start h t).2)
| step_return h t t' : h_task h = false -> shutdown_poll h t = Some t' -> HandleStep (Some h, t) (None, t')
| step_drop h t : HandleStep (Some h, t) (None, cluster_drop h t).

(** Once its handle is gone or shutting down, the loop has ended, was aborted,
    or ends at the first selection with nothing else ready; until then it
    runs; and [shutdown] returns only after it. *)
Lemma handle_stops_loop h0 x : h_task h0 = true -> rtc HandleStep (Some h0, Looping false) x ->
  match x with
  | (Some h, t) => if h_task h then t = Looping false else loop_select false true t = Ended
  | (None, t) => loop_select false true t = Ended \/ t = Aborted
  end.
Proof.
  intros H0. revert x. apply (rtc_ind_r (fun x => match x with
    | (Some h, t) => if h_task h then t = Looping false else loop_select false true t = Ended
    | (None, t) => loop_select false true t = Ended \/ t = Aborted
    end)); [by rewrite H0|].
  intros y z _ Hyz IH. destruct Hyz as [h t other chosen|h t Hh|h t t' Hh Hp|h t].
  - destruct h as [h|]; [destruct (h_task h); [by subst t|]|]; destruct t as [[]| |]; try done; try (by destruct IH);
      cbn; by destruct (negb other || chosen); auto.
  - cbn. rewrite Hh in IH. by subst t.
  - rewrite Hh in IH. unfold shutdown_poll, cluster_drop in Hp. rewrite Hh in Hp. destruct t; by simplify_eq; auto.
  - unfold cluster_drop. destruct (h_task h); [subst t; by right|by left].
Qed.

(** A node bound to the wildcard address has the identity the operating system
    reports for it, [0.0.0.0:port], as has every other such node: they take
    each other for themselves, and each stays alone in its view. *)
Definition alone (local : SocketAddr) (s : Shared) : Prop :=
  me s = show_addr local /\ peers s = ∅ /\ membership s = membership_new (show_addr local).

Definition cluster_members_of (s : Shared) : list NodeId := members (membership s).

Lemma spawned_alone bind local seed c h r t :
  cluster_spawn bind (inr local) seed c = inr (h, r, t) -> alone local (shared r) /\ h_me h = show_addr local.
Proof. unfold cluster_spawn. destruct (bind _); [done|]. by intros [= <- <- <-]. Qed.

Lemma wildcard_binding_isolates iter local s s' sq k clock timeout :
  iter ∅ = [] -> alone local s -> alone local s' ->
  let '(refuted, s1) := reconcile clock timeout (snapshot iter s' sq k) s in
  refuted = false /\ alone local s1 /\ cluster_members_of s1 = [show_addr local].
Proof.
  intros Hi (Hm & Hp & Hn) (Hm' & Hp' & _). unfold reconcile, snapshot. cbn [updates]. rewrite Hp', Hi. cbn [fmap list_fmap].
  cbn [apply_updates]. unfold apply_update, self_update. cbn [up_node up_state]. rewrite Hm, Hm', String.eqb_refl. cbn.
  split_and!; [done..|]. unfold cluster_members_of. cbn. rewrite Hn. unfold members, membership_new. cbn [nodes].
  by rewrite elements_singleton.
Qed.

(** Their counters meet in one slot, where the larger one hides the other. *)
Lemma wildcard_counts_once :
  let one := incr "0.0.0.0:7700" 1 counter_new in
  let node := mk_addr (V4 0) 7700 in
  show_addr node = "0.0.0.0:7700" /\ value (merge one one) = 1.
Proof. split; vm_compute; reflexivity. Qed.
