(* ===== verification/Observe.v ===== *)
(** * [pulsate-observe]: request identifiers, access log, metrics

    [ids.rs], [log.rs], [metrics.rs] and [lib.rs].  An [f64] is a binary64
    [spec_float]; its decimal renderings are parameters.  The process-wide
    counter and the metrics behind their mutexes are states that the operations
    thread. *)

From Stdlib Require Import ZArith Ascii String Lia SpecFloat.
From stdpp Require Import base option list gmap strings sorting.
From S2P Require Import Prelude RustStr UtilParse FlowLexer.
Local Open Scope string_scope.
Local Open Scope list_scope.
Local Open Scope Z_scope.
Local Open Scope rust_scope.

(** ** [f64] *)
Abbreviation f64 := spec_float.
Definition f64_of_Z (z : Z) : f64 := binary_normalize 53 1024 z 0 false.
Definition f64_add : f64 -> f64 -> f64 := SFadd 53 1024.
Definition f64_mul : f64 -> f64 -> f64 := SFmul 53 1024.
Definition f64_div : f64 -> f64 -> f64 := SFdiv 53 1024.
Definition f64_leb : f64 -> f64 -> bool := SFleb.
(** A decimal literal [p / q], rounded once. *)
Definition f64_lit (p q : Z) : f64 := f64_div (f64_of_Z p) (f64_of_Z q).

(** [Duration::as_secs_f64]. *)
Definition as_secs_f64 (d : Duration) : f64 :=
  f64_add (f64_of_Z (d / nanos_per_sec)) (f64_div (f64_of_Z (d mod nanos_per_sec)) (f64_of_Z nanos_per_sec)).

(** ** Request identifiers *)
Module Ids.
Definition CROCKFORD : string := "0123456789ABCDEFGHJKMNPQRSTVWXYZ".

(** [CROCKFORD[(v & 0x1f) as usize]]. *)
Definition crockford (v : Z) : ascii := default "0"%char (String.get (Z.to_nat (Z.land v 31)) CROCKFORD).

(** [SystemTime::now().duration_since(UNIX_EPOCH)], in milliseconds. *)
Definition now_ms (since_epoch : option Duration) : Z :=
  match since_epoch with
  | None => 0
  | Some d => let ms := d / 1000000 in if ms <=? u64_max then ms else u64_max
  end.

(** The slots of the output from the last to the first. *)
Fixpoint encode_slots (n : nat) (v : Z) (out : list ascii) : list ascii :=
  match n with
  | O => out
  | S n => encode_slots n (Z.shiftr v 5) (crockford v :: out)
  end.

Definition encode (v : Z) : string := str_of (encode_slots 26 v []).

(** The identifier, and the counter after [fetch_add]. *)
Definition request_id (now : Z) (counter : Z) : string * Z :=
  let ms := Z.land now (Z.shiftl 1 48 - 1) in
  let ctr := counter in
  let low := Z.land ((ctr * 11400714819323198485) mod 2 ^ 128) (Z.shiftl 1 80 - 1) in
  (encode (Z.lor (Z.shiftl ms 80) low), counter +₆₄ 1).
End Ids.

(** ** The access log *)
Module Log.
Record AccessLog := mk_log {
  ts_ms : Z;
  method : string;
  host : string;
  path : string;
  status : Z;
  dur_ms : f64;
  request_id : string;
  bytes : Z;
}.

Definition bslash : ascii := "\"%char.

(** [{:04x}] of a [u32] below [2^16]. *)
Definition hex4 (c : Z) : string := hex_byte (c / 256) +:+ hex_byte (c mod 256).

(** One character of [escape]. *)
Definition escape1 (c : Z) : string :=
  if c =? 34 then String bslash (String dquote "")
  else if c =? 92 then String bslash (String bslash "")
  else if c =? 10 then String bslash "n"
  else if c =? 13 then String bslash "r"
  else if c =? 9 then String bslash "t"
  else if c <? 32 then String bslash ("u" +:+ hex4 c)
  else str_of (encode1 c).

Fixpoint escape_chars (cs : list Z) : string :=
  match cs with
  | [] => ""
  | c :: cs => escape1 c +:+ escape_chars cs
  end.

Definition escape (v : string) : string := escape_chars (chars v).

Definition quoted (s : string) : string := String dquote (s +:+ String dquote "").

(** The field as [push_str_field] appends it. *)
Definition str_field (k value : string) : string := "," +:+ quoted k +:+ ":" +:+ quoted (escape value).
(** [write!(s, ",\"key\":{}", value)]. *)
Definition raw_field (k value : string) : string := "," +:+ quoted k +:+ ":" +:+ value.

Section Render.
(** [{:.3}] of an [f64]. *)
Variable show_f64_3 : f64 -> string.

Definition to_json (l : AccessLog) : string :=
  "{" +:+ quoted "ts" +:+ ":" +:+ show_u (ts_ms l)
  +:+ str_field "method" (method l)
  +:+ str_field "host" (host l)
  +:+ str_field "path" (path l)
  +:+ raw_field "status" (show_u (status l))
  +:+ raw_field "dur_ms" (show_f64_3 (dur_ms l))
  +:+ str_field "req_id" (request_id l)
  +:+ raw_field "bytes" (show_u (bytes l))
  +:+ "}".
End Render.
End Log.

(** ** Metrics *)
Module Metrics.
Definition lf : string := String "010"%char "".

Record CounterVec := mk_counter {
  cv_name : string;
  cv_help : string;
  label_names : list string;
  cap : nat;
  values : gmap (list string) Z;
}.

Definition counter_vec_new (name help : string) (label_names : list string) (cap : nat) : CounterVec :=
  mk_counter name help label_names cap ∅.

Definition set_values (c : CounterVec) (m : gmap (list string) Z) : CounterVec :=
  mk_counter (cv_name c) (cv_help c) (label_names c) (cap c) m.

Definition add (label_values : list string) (n : Z) (c : CounterVec) : CounterVec :=
  match values c !! label_values with
  | Some v => set_values c (<[label_values := v +₆₄ n]> (values c))
  | None =>
    if (size (values c) <? cap c)%nat then set_values c (<[label_values := n]> (values c)) else c
  end.

Definition inc (label_values : list string) (c : CounterVec) : CounterVec := add label_values 1 c.

Definition escape_label (v : string) : string :=
  replace (String "010"%char "") (String Log.bslash "n")
    (replace (String dquote "") (String Log.bslash (String dquote ""))
       (replace (String Log.bslash "") (String Log.bslash (String Log.bslash "")) v)).

Definition render_labels (names vals : list string) : string :=
  match names with
  | [] => ""
  | _ => "{" +:+ join "," (zip_with (fun n v => n +:+ "=" +:+ Log.quoted (escape_label v)) names vals) +:+ "}"
  end.

(** The order of [Vec<String>]: lexicographic, strings by their bytes. *)
Fixpoint str_leb (a b : string) : bool :=
  match a, b with
  | "", _ => true
  | String _ _, "" => false
  | String c a', String d b' => (byte_val c <? byte_val d) || ((byte_val c =? byte_val d) && str_leb a' b')
  end.

Fixpoint labels_leb (a b : list string) : bool :=
  match a, b with
  | [], _ => true
  | _ :: _, [] => false
  | x :: a', y :: b' => if (x =? y)%string then labels_leb a' b' else str_leb x y
  end.

Definition row_le (x y : list string * Z) : Prop := labels_leb x.1 y.1 = true.
#[global] Instance row_le_dec x y : Decision (row_le x y).
Proof. unfold row_le. apply _. Defined.

Section Render.
(** [HashMap::iter]: each series once, in an order of its own. *)
Variable iter : gmap (list string) Z -> list (list string * Z).

Definition counter_rows (c : CounterVec) : list (list string * Z) := merge_sort row_le (iter (values c)).

(** What [CounterVec::render_into] appends. *)
Definition counter_render (c : CounterVec) : string :=
  "# HELP " +:+ cv_name c +:+ " " +:+ cv_help c +:+ lf
  +:+ "# TYPE " +:+ cv_name c +:+ " counter" +:+ lf
  +:+ foldr (fun row out =>
        cv_name c +:+ render_labels (label_names c) row.1 +:+ " " +:+ show_u row.2 +:+ lf +:+ out)
      "" (counter_rows c).

Record HistState := mk_hist_state { bucket_counts : list Z; sum : f64; count : Z }.
Record Histogram := mk_hist { h_name : string; h_help : string; buckets : list f64; h_state : HistState }.

Definition histogram_new (name help : string) (buckets : list f64) : Histogram :=
  mk_hist name help buckets (mk_hist_state (replicate (length buckets) 0) (S754_zero false) 0).

(** The loop of [observe] from bucket [i] on; [bucket_counts[i]] panics out of
    range. *)
Fixpoint observe_buckets (value : f64) (i : nat) (bounds : list f64) (counts : list Z) : exec () (list Z) :=
  match bounds with
  | [] => Ok counts
  | bound :: bounds =>
    if f64_leb value bound then
      match counts !! i with
      | Some n => observe_buckets value (S i) bounds (<[i := n +₆₄ 1]> counts)
      | None => Panic
      end
    else observe_buckets value (S i) bounds counts
  end.

Definition observe (value : f64) (h : Histogram) : exec () Histogram :=
  let s := h_state h in
  counts ← observe_buckets value 0 (buckets h) (bucket_counts s);
  Ok (mk_hist (h_name h) (h_help h) (buckets h) (mk_hist_state counts (f64_add (sum s) value) (count s +₆₄ 1))).

(** [{}] of an [f64]. *)
Variable show_f64 : f64 -> string.

Fixpoint bucket_lines (name : string) (i : nat) (bounds : list f64) (counts : list Z) : exec () string :=
  match bounds with
  | [] => Ok ""
  | bound :: bounds =>
    match counts !! i with
    | Some n =>
      rest ← bucket_lines name (S i) bounds counts;
      Ok (name +:+ "_bucket{le=" +:+ Log.quoted (show_f64 bound) +:+ "} " +:+ show_u n +:+ lf +:+ rest)
    | None => Panic
    end
  end.

Definition histogram_render (h : Histogram) : exec () string :=
  let s := h_state h in
  lines ← bucket_lines (h_name h) 0 (buckets h) (bucket_counts s);
  Ok ("# HELP " +:+ h_name h +:+ " " +:+ h_help h +:+ lf
      +:+ "# TYPE " +:+ h_name h +:+ " histogram" +:+ lf
      +:+ lines
      +:+ h_name h +:+ "_bucket{le=" +:+ Log.quoted "+Inf" +:+ "} " +:+ show_u (count s) +:+ lf
      +:+ h_name h +:+ "_sum " +:+ show_f64 (sum s) +:+ lf
      +:+ h_name h +:+ "_count " +:+ show_u (count s) +:+ lf).

(** ** The telemetry of a gateway *)
Record Telemetry := mk_telemetry {
  requests_total : CounterVec;
  errors_total : CounterVec;
  request_duration : Histogram;
}.

Definition telemetry_new : Telemetry :=
  mk_telemetry
    (counter_vec_new "pulsate_http_requests_total" "Total HTTP requests by method and status" ["method"; "status"] 1024)
    (counter_vec_new "pulsate_errors_total" "Total errors by stable code" ["code"] 512)
    (histogram_new "pulsate_http_request_duration_seconds" "HTTP request duration in seconds"
       [f64_lit 1 1000; f64_lit 5 1000; f64_lit 1 100; f64_lit 25 1000; f64_lit 5 100; f64_lit 1 10;
        f64_lit 25 100; f64_lit 5 10; f64_lit 1 1; f64_lit 25 10; f64_lit 5 1; f64_lit 10 1]).

Definition record_request (method : string) (status : Z) (duration_secs : f64) (t : Telemetry) : exec () Telemetry :=
  let requests := inc [method; show_u status] (requests_total t) in
  duration ← observe duration_secs (request_duration t);
  Ok (mk_telemetry requests (errors_total t) duration).

Definition incr_error (code : string) (t : Telemetry) : Telemetry :=
  mk_telemetry (requests_total t) (inc [code] (errors_total t)) (request_duration t).

Definition telemetry_render (t : Telemetry) : exec () string :=
  duration ← histogram_render (request_duration t);
  Ok (counter_render (requests_total t) +:+ counter_render (errors_total t) +:+ duration).
End Render.
End Metrics.
