(* ===== verification/ObserveProps.v ===== *)
(** * Properties of [pulsate-observe]

    Request identifiers are unique and sort by time, an access-log line reads
    back as its record, and the metrics count what happened within their
    cardinality bound. *)

From Stdlib Require Import ZArith Ascii String Lia SpecFloat.
From stdpp Require Import base option list gmap strings sorting.
From S2P Require Import Prelude RustStr UtilParse FlowLexer Observe.
Local Open Scope string_scope.
Local Open Scope list_scope.
Local Open Scope Z_scope.
Local Open Scope rust_scope.

(** ** Request identifiers *)
Section Ids.
Import Ids.

(** The digit a Crockford character stands for. *)
Definition digit_of (c : ascii) : Z :=
  default 0 (Z.of_nat <$> String.index 0 (String c "") CROCKFORD).

Definition decode_chars (l : list ascii) : Z := foldl (fun acc c => acc * 32 + digit_of c) 0 l.
Definition decode (s : string) : Z := decode_chars (bytes_of s).
Lemma decode_bytes s : decode s = decode_chars (bytes_of s).
Proof. done. Qed.

(** Characters of the alphabet, in the order of their digits and bytes. *)
Lemma crockford_facts i j : 0 <= i < 32 -> 0 <= j < 32 ->
  digit_of (crockford i) = i
  /\ contains (String (crockford i) "") CROCKFORD = true
  /\ (i < j -> byte_val (crockford i) < byte_val (crockford j)).
Proof.
  intros Hi Hj.
  assert (Forall (fun i => Forall (fun j => digit_of (crockford i) = i
    /\ contains (String (crockford i) "") CROCKFORD = true
    /\ (i < j -> byte_val (crockford i) < byte_val (crockford j))) (seqZ 0 32)) (seqZ 0 32)) as H
    by decide_closed.
  rewrite Forall_forall in H. specialize (H i). rewrite elem_of_seqZ in H. specialize (H ltac:(lia)).
  rewrite Forall_forall in H. apply H. apply elem_of_seqZ. lia.
Qed.

Lemma crockford_mod v : crockford v = crockford (v mod 32).
Proof.
  unfold crockford. change 31 with (Z.ones 5). rewrite !Z.land_ones by lia. change (2 ^ 5) with 32.
  by rewrite Zmod_mod.
Qed.

Lemma decode_chars_shift l acc :
  foldl (fun acc c => acc * 32 + digit_of c) acc l = acc * 32 ^ Z.of_nat (length l) + decode_chars l.
Proof.
  unfold decode_chars. revert acc. induction l as [|c l IH]; intros acc.
  { change (acc = acc * 1 + 0). lia. }
  cbn [foldl length]. rewrite (IH (acc * 32 + _)), (IH (0 * 32 + _)).
  rewrite Nat2Z.inj_succ, Z.pow_succ_r by lia. ring.
Qed.

Lemma decode_slots n v out :
  decode_chars (encode_slots n v out) = (v mod 32 ^ Z.of_nat n) * 32 ^ Z.of_nat (length out) + decode_chars out.
Proof.
  revert v out. induction n as [|n IH]; intros v out; cbn [encode_slots].
  - change (32 ^ Z.of_nat 0) with 1. rewrite Z.mod_1_r. lia.
  - rewrite IH. cbn [length]. unfold decode_chars at 1. cbn [foldl]. rewrite decode_chars_shift.
    rewrite crockford_mod, (proj1 (crockford_facts (v mod 32) 0 (Z.mod_pos_bound v 32 eq_refl) ltac:(lia))).
    rewrite Z.shiftr_div_pow2 by lia. change (2 ^ 5) with 32.
    rewrite !Nat2Z.inj_succ, !Z.pow_succ_r by lia.
    rewrite (Z.rem_mul_r v 32 (32 ^ Z.of_nat n)) by lia. ring.
Qed.

Lemma decode_encode v : 0 <= v < 2 ^ 130 -> decode (encode v) = v.
Proof.
  intros Hv. unfold decode, encode. rewrite bytes_of_str, decode_slots. cbn [length].
  change (32 ^ Z.of_nat 26) with (2 ^ 130). rewrite Z.mod_small by lia. unfold decode_chars. simpl. lia.
Qed.

(** A list over the alphabet. *)
Definition over_crockford (l : list ascii) : Prop := Forall (fun c => exists i, 0 <= i < 32 /\ c = crockford i) l.

Lemma slots_over n v out : over_crockford out -> over_crockford (encode_slots n v out).
Proof.
  revert v out. induction n as [|n IH]; intros v out Ho; [done|]. cbn [encode_slots]. apply IH.
  constructor; [|done]. exists (v mod 32). split; [by apply Z.mod_pos_bound|apply crockford_mod].
Qed.

Lemma slots_length n v out : length (encode_slots n v out) = (n + length out)%nat.
Proof. revert v out. induction n as [|n IH]; intros; [done|]. cbn [encode_slots]. rewrite IH. simpl. lia. Qed.

Lemma decode_bound l : over_crockford l -> 0 <= decode_chars l < 32 ^ Z.of_nat (length l).
Proof.
  induction l as [|c l IH]; [done|]. intros [(i & Hi & ->) Hl]%Forall_cons. unfold decode_chars. cbn [foldl].
  rewrite decode_chars_shift, (proj1 (crockford_facts i 0 Hi ltac:(lia))). cbn [length].
  rewrite Nat2Z.inj_succ, Z.pow_succ_r by lia. specialize (IH Hl). nia.
Qed.

(** Lists of one length compare like their values. *)
Lemma decode_order a b :
  over_crockford a -> over_crockford b -> length a = length b -> decode_chars a < decode_chars b ->
  Metrics.str_leb (str_of a) (str_of b) = true.
Proof.
  revert b. induction a as [|c a IH]; intros [|d b]; [done|done|done|].
  intros [(i & Hi & ->) Ha]%Forall_cons [(j & Hj & ->) Hb]%Forall_cons [= Hlen].
  unfold decode_chars. cbn [foldl]. rewrite !decode_chars_shift.
  rewrite (proj1 (crockford_facts i j Hi Hj)), (proj1 (crockford_facts j i Hj Hi)), Hlen.
  pose proof (decode_bound a Ha). pose proof (decode_bound b Hb). rewrite Hlen in *.
  intros Hlt. cbn [string_of_list_ascii Metrics.str_leb].
  destruct (Z.lt_trichotomy i j) as [Hij|[->|Hij]]; [| |nia].
  - apply orb_true_iff. left. apply Z.ltb_lt. by apply crockford_facts.
  - apply orb_true_iff. right. rewrite Z.eqb_refl. apply IH; [done..|lia].
Qed.

Lemma encode_length v : String.length (encode v) = 26%nat.
Proof. unfold encode. by rewrite <-length_bytes, bytes_of_str, slots_length. Qed.

Lemma encode_over v : over_crockford (bytes_of (encode v)).
Proof. unfold encode. rewrite bytes_of_str. apply slots_over. constructor. Qed.

Lemma encode_inj v w : 0 <= v < 2 ^ 130 -> 0 <= w < 2 ^ 130 -> encode v = encode w -> v = w.
Proof. intros Hv Hw He. by rewrite <-(decode_encode v), <-(decode_encode w), He. Qed.

Lemma encode_order v w : 0 <= v -> v < w -> w < 2 ^ 130 -> Metrics.str_leb (encode v) (encode w) = true.
Proof.
  intros Hv Hvw Hw. pose proof (decode_encode v ltac:(lia)) as Dv. pose proof (decode_encode w ltac:(lia)) as Dw.
  rewrite decode_bytes in Dv, Dw. pose proof (encode_over v) as Ov. pose proof (encode_over w) as Ow.
  pose proof (encode_length v) as Lv. pose proof (encode_length w) as Lw.
  generalize dependent (encode v). generalize dependent (encode w). intros b Db Ob Lb a Da Oa La.
  rewrite <-(str_of_bytes a), <-(str_of_bytes b). apply decode_order; [done..| |lia].
  by rewrite !length_bytes, La, Lb.
Qed.

(** The two halves of an identifier. *)
Definition id_value (now ctr : Z) : Z := (now mod 2 ^ 48) * 2 ^ 80 + (ctr * 11400714819323198485) mod 2 ^ 80.

Lemma request_id_encode now ctr :
  0 <= now -> 0 <= ctr <= u64_max -> (request_id now ctr).1 = encode (id_value now ctr).
Proof.
  intros Hn Hc. unfold request_id, id_value. cbn [fst]. f_equal. unfold u64_max in Hc.
  rewrite (Z.mod_small (ctr * _)) by lia.
  change (Z.shiftl 1 48 - 1) with (Z.ones 48). change (Z.shiftl 1 80 - 1) with (Z.ones 80).
  rewrite !Z.land_ones, Z.shiftl_mul_pow2 by lia.
  rewrite <- Z.add_lor_land.
  enough (Z.land (now mod 2 ^ 48 * 2 ^ 80) ((ctr * 11400714819323198485) mod 2 ^ 80) = 0) as ->.
  { by rewrite Z.add_0_r. }
  apply Z.bits_inj'. intros k Hk. rewrite Z.land_spec, Z.bits_0.
  destruct (Z.lt_ge_cases k 80).
  - by rewrite Z.mul_pow2_bits_low.
  - rewrite (Z.mod_pow2_bits_high _ 80) by lia. apply andb_false_r.
Qed.

Lemma id_value_range now ctr : 0 <= id_value now ctr < 2 ^ 128.
Proof.
  unfold id_value. pose proof (Z.mod_pos_bound now (2 ^ 48) ltac:(lia)).
  pose proof (Z.mod_pos_bound (ctr * 11400714819323198485) (2 ^ 80) ltac:(lia)). lia.
Qed.

(** The multiplier is odd, so it spreads the counters without collision. *)
Lemma spread_injective c c' :
  0 <= c <= u64_max -> 0 <= c' <= u64_max ->
  (c * 11400714819323198485) mod 2 ^ 80 = (c' * 11400714819323198485) mod 2 ^ 80 -> c = c'.
Proof.
  intros Hc Hc' Heq. unfold u64_max in *.
  assert ((2 ^ 80 | (c - c') * 11400714819323198485)) as Hd.
  { apply Z.mod_divide; [lia|]. rewrite Z.mul_sub_distr_r, Zminus_mod, Heq, Z.sub_diag. done. }
  rewrite Z.mul_comm in Hd. apply Z.gauss in Hd; [|reflexivity].
  destruct Hd as [k Hk]. assert (k = 0) by lia. lia.
Qed.

(** Request identifiers are 26 characters of the Crockford alphabet, are
    unique (two requests get the same identifier only if they have the same
    millisecond modulo 2^48 and the same counter), and sort by time: an earlier
    millisecond gives a string that is smaller byte by byte, whatever the
    counters. *)
Theorem request_id_unique_sorted (now now' ctr ctr' : Z)
    (Hn : 0 <= now) (Hn' : 0 <= now') (Hc : 0 <= ctr <= u64_max) (Hc' : 0 <= ctr' <= u64_max) :
  let id := (request_id now ctr).1 in
  let id' := (request_id now' ctr').1 in
  String.length id = 26%nat
  /\ Forall (fun c => contains (String c "") CROCKFORD = true) (bytes_of id)
  /\ (id = id' -> now mod 2 ^ 48 = now' mod 2 ^ 48 /\ ctr = ctr')
  /\ (now < now' < 2 ^ 48 -> Metrics.str_leb id id' = true /\ id <> id').
Proof.
  pose proof (id_value_range now ctr) as Hr. pose proof (id_value_range now' ctr') as Hr'.
  cbv zeta. rewrite !request_id_encode by done.
  assert (Hlow : forall c, 0 <= (c * 11400714819323198485) mod 2 ^ 80 < 2 ^ 80) by (intros; by apply Z.mod_pos_bound).
  pose proof (Hlow ctr). pose proof (Hlow ctr').
  assert (Hinj : encode (id_value now ctr) = encode (id_value now' ctr') ->
    now mod 2 ^ 48 = now' mod 2 ^ 48 /\ ctr = ctr').
  { intros He. apply encode_inj in He; [|lia..]. unfold id_value in He.
    split; [lia|apply spread_injective; [done..|lia]]. }
  split_and!; [apply encode_length| |exact Hinj|].
  - eapply Forall_impl; [apply encode_over|]. intros c (i & Hi & ->). by apply (crockford_facts i 0).
  - intros Hlt. split; [|intros He; apply Hinj in He as [He _]; rewrite !Z.mod_small in He by lia; lia].
    apply encode_order; [lia| |lia]. unfold id_value. rewrite !(Z.mod_small _ (2 ^ 48)) by lia. lia.
Qed.

Lemma request_id_unique_sorted_witness :
  String.length (request_id 1700000000000 5).1 = 26%nat
  /\ Forall (fun c => contains (String c "") CROCKFORD = true) (bytes_of (request_id 1700000000000 5).1)
  /\ ((request_id 1700000000000 5).1 = (request_id 1700000000001 3).1 ->
      1700000000000 mod 2 ^ 48 = 1700000000001 mod 2 ^ 48 /\ 5 = 3)
  /\ (1700000000000 < 1700000000001 < 2 ^ 48 ->
      Metrics.str_leb (request_id 1700000000000 5).1 (request_id 1700000000001 3).1 = true
      /\ (request_id 1700000000000 5).1 <> (request_id 1700000000001 3).1).
Proof. apply (request_id_unique_sorted 1700000000000 1700000000001 5 3); unfold u64_max; lia. Defined.
End Ids.

(** ** The access log *)
Section AccessLog.
Import Log.

(** A reader of flat JSON objects (RFC 8259): strings with their escapes,
    numbers as the text they are written with. *)
Inductive json_value := JStr (s : string) | JNum (token : string).

Definition hex4_value (a b c d : ascii) : option Z :=
  a ← to_digit16 a; b ← to_digit16 b; c ← to_digit16 c; d ← to_digit16 d;
  Some (((a * 16 + b) * 16 + c) * 16 + d).

(** The rest of a string literal after its opening quote, and what follows.
    A raw control character ends it with an error. *)
Fixpoint read_string (s : string) : option (string * string) :=
  match s with
  | "" => None
  | String c s' =>
    if Ascii.eqb c dquote then Some ("", s')
    else if Ascii.eqb c bslash then
      match s' with
      | "" => None
      | String e s'' =>
        if Ascii.eqb e "u" then
          match s'' with
          | String a (String b (String c (String d r))) =>
            v ← hex4_value a b c d; '(t, rest) ← read_string r; Some (str_of (encode1 v) +:+ t, rest)
          | _ => None
          end
        else
          v ← (if Ascii.eqb e dquote then Some dquote else if Ascii.eqb e bslash then Some bslash
               else if Ascii.eqb e "n" then Some "010"%char else if Ascii.eqb e "r" then Some "013"%char
               else if Ascii.eqb e "t" then Some "009"%char else None);
          '(t, rest) ← read_string s''; Some (String v t, rest)
      end
    else if byte_val c <? 32 then None
    else '(t, rest) ← read_string s'; Some (String c t, rest)
  end.

Definition number_char (c : ascii) : bool := is_ascii_digit c || contains (String c "") "+-.eE".

Definition read_value (s : string) : option (json_value * string) :=
  match s with
  | String c s' =>
    if Ascii.eqb c dquote then '(t, rest) ← read_string s'; Some (JStr t, rest)
    else
      match span_while number_char s with
      | ("", _) => None
      | (t, rest) => Some (JNum t, rest)
      end
  | "" => None
  end.

Definition read_member (s : string) : option (string * json_value * string) :=
  r ← strip_prefix (String dquote "") s;
  '(k, r) ← read_string r;
  r ← strip_prefix ":" r;
  '(v, r) ← read_value r;
  Some (k, v, r).

(** Members up to the closing brace; [n] bounds their number. *)
Fixpoint read_members (n : nat) (s : string) : option (list (string * json_value) * string) :=
  match n with
  | O => None
  | S n =>
    match read_member s with
    | Some (kv, String c r) =>
      if Ascii.eqb c "," then '(ms, rest) ← read_members n r; Some (kv :: ms, rest)
      else if Ascii.eqb c "}" then Some ([kv], r) else None
    | _ => None
    end
  end.

Definition read_object (s : string) : option (list (string * json_value)) :=
  r ← strip_prefix "{" s;
  '(ms, rest) ← read_members (String.length r) r;
  if (rest =? "")%string then Some ms else None.

(** *** Strings *)
Lemma hex_digit_value d : 0 <= d < 16 -> to_digit16 (hex_digit d) = Some d.
Proof.
  intros Hd. assert (Forall (fun d => to_digit16 (hex_digit d) = Some d) (seqZ 0 16)) as H by decide_closed.
  rewrite Forall_forall in H. apply H, elem_of_seqZ. lia.
Qed.

(** A control character is written as an escape that reads back. *)
Lemma read_escape1_control c tail :
  0 <= c < 32 -> read_string (escape1 c +:+ tail) = '(t, rest) ← read_string tail; Some (str_of (encode1 c) +:+ t, rest).
Proof.
  intros Hc. rewrite <-(Z2Nat.id c) by lia. assert (Z.to_nat c < 32)%nat as Hn by lia. revert Hn.
  generalize (Z.to_nat c) as n. clear. intros n Hn.
  do 32 (destruct n as [|n]; [reflexivity|]). lia.
Qed.

Lemma read_plain l tail :
  Forall (fun c => 32 <= byte_val c /\ c <> dquote /\ c <> bslash) l ->
  read_string (str_of l +:+ tail) = '(t, rest) ← read_string tail; Some (str_of l +:+ t, rest).
Proof.
  induction 1 as [|c l (Hc & Hq & Hb) _ IH]; cbn [string_of_list_ascii].
  - rewrite append_nil_l. destruct (read_string tail) as [[t rest]|]; done.
  - rewrite append_cons. cbn [read_string].
    rewrite (proj2 (Ascii.eqb_neq _ _) Hq), (proj2 (Ascii.eqb_neq _ _) Hb), (proj2 (Z.ltb_ge _ _)) by lia.
    rewrite IH. destruct (read_string tail) as [[t rest]|]; done.
Qed.

Lemma read_escape1 c tail :
  scalar c -> read_string (escape1 c +:+ tail) = '(t, rest) ← read_string tail; Some (str_of (encode1 c) +:+ t, rest).
Proof.
  intros Hs. destruct (Z.lt_ge_cases c 32) as [Hc|Hc]; [apply read_escape1_control; unfold scalar in Hs; lia|].
  destruct (Z.eq_dec c 34) as [->|Hq]; [reflexivity|]. destruct (Z.eq_dec c 92) as [->|Hb]; [reflexivity|].
  unfold escape1. zcmp. apply read_plain.
  destruct (Z.lt_ge_cases c 128).
  - unfold encode1. zcmp. cbn [fmap list_fmap]. constructor; [|constructor].
    rewrite byte_val_of by lia. split_and!; [lia|..]; intros He; apply (f_equal byte_val) in He;
      rewrite byte_val_of in He by lia; [by apply Hq|by apply Hb].
  - eapply Forall_impl; [by apply encode1_high|]. intros b Hb'. cbv beta in Hb'.
    split_and!; [lia|intros ->; by apply Hb'..].
Qed.

Lemma str_of_utf8_cons c cs : of_chars (c :: cs) = str_of (encode1 c) +:+ of_chars cs.
Proof. unfold of_chars, utf8_encode. cbn [mbind list_bind]. apply str_of_app. Qed.

Lemma read_escape_chars cs tail :
  Forall scalar cs -> read_string (escape_chars cs +:+ String dquote tail) = Some (of_chars cs, tail).
Proof.
  induction 1 as [|c cs Hc _ IH]; [reflexivity|]. cbn [escape_chars].
  by rewrite <-append_assoc, read_escape1, IH, str_of_utf8_cons.
Qed.

(** An escaped string reads back, up to its closing quote. *)
Lemma read_escape v tail :
  utf8_valid v = true -> read_string (escape v +:+ String dquote tail) = Some (v, tail).
Proof.
  intros Hv. unfold escape. rewrite read_escape_chars by apply utf8_decode_scalar.
  by rewrite (bool_decide_unpack _ (eq_ind_r _ I Hv)).
Qed.

(** *** Objects *)

(** A member's text reads as a key and a value, before a comma or a brace. *)
Definition reads_as (m : string) (kv : string * json_value) : Prop :=
  forall c tail, c = ","%char \/ c = "}"%char -> read_member (m +:+ String c tail) = Some (kv, String c tail).

Lemma reads_as_nonempty m kv : reads_as m kv -> m <> "".
Proof. intros Hm ->. specialize (Hm ","%char "" (or_introl eq_refl)). done. Qed.

Lemma read_members_join ms kvs n tail :
  Forall2 reads_as ms kvs -> ms <> [] -> (length ms <= n)%nat ->
  read_members n (join "," ms +:+ String "}" tail) = Some (kvs, tail).
Proof.
  intros H. revert n. induction H as [|m kv ms kvs Hm Hms IH]; [done|]. intros [|n] _ Hn; [simpl in Hn; lia|].
  cbn [read_members]. destruct ms as [|m' ms].
  - inversion Hms; subst. cbn [join]. rewrite Hm by auto. done.
  - change (join "," (m :: m' :: ms)) with (m +:+ String "," (join "," (m' :: ms))).
    rewrite <-append_assoc, append_cons, Hm by auto. cbn [Ascii.eqb Bool.eqb]. rewrite (IH n); [done|done|simpl in *; lia].
Qed.

Lemma length_join ms kvs : Forall2 reads_as ms kvs -> (length ms <= String.length (join "," ms))%nat.
Proof.
  induction 1 as [|m kv ms kvs Hm Hms IH]; [simpl; lia|]. apply reads_as_nonempty in Hm.
  assert (String.length m <> O) by (by destruct m). destruct ms as [|m' ms]; cbn [join length] in *; [lia|].
  rewrite !length_append in *. simpl. simpl in IH. lia.
Qed.

Lemma read_object_join ms kvs :
  Forall2 reads_as ms kvs -> ms <> [] -> read_object ("{" +:+ join "," ms +:+ "}") = Some kvs.
Proof.
  intros H Hne. unfold read_object. rewrite strip_prefix_app. cbn [mbind option_bind].
  rewrite (read_members_join ms kvs); [done|done|done|].
  pose proof (length_join _ _ H). rewrite length_append. lia.
Qed.

Lemma strip_char c s : strip_prefix (String c "") (String c s) = Some s.
Proof. cbn [strip_prefix]. by rewrite Ascii.eqb_refl. Qed.

(** A text that reads as the key [k]. *)
Definition key_reads (t k : string) : Prop := forall tail, read_string (t +:+ String dquote tail) = Some (k, tail).

Lemma reads_string_member kt k v :
  key_reads kt k -> utf8_valid v = true -> reads_as (quoted kt +:+ ":" +:+ quoted (escape v)) (k, JStr v).
Proof.
  intros Hk Hv c tail Hc. unfold read_member, quoted.
  rewrite !append_cons, <-!append_assoc, !append_cons, !append_nil_l, strip_char. cbn [mbind option_bind].
  rewrite Hk. cbn [mbind option_bind].
  rewrite strip_char. cbn [mbind option_bind].
  rewrite append_cons. unfold read_value. rewrite Ascii.eqb_refl.
  by rewrite <-append_assoc, append_cons, append_nil_l, read_escape.
Qed.

Lemma reads_number_member kt k t :
  key_reads kt k -> t <> "" -> Forall (fun c => number_char c = true) (bytes_of t) ->
  reads_as (quoted kt +:+ ":" +:+ t) (k, JNum t).
Proof.
  intros Hk Hne Ht c tail Hc. unfold read_member, quoted.
  rewrite !append_cons, <-!append_assoc, !append_cons, !append_nil_l, strip_char. cbn [mbind option_bind].
  rewrite Hk. cbn [mbind option_bind].
  rewrite strip_char. cbn [mbind option_bind].
  assert (span_while number_char (t +:+ String c tail) = (t, String c tail)) as Hspan.
  { apply span_while_app; [done|by destruct Hc as [-> | ->]]. }
  destruct t as [|d t]; [done|]. rewrite append_cons in *. unfold read_value.
  assert (Ascii.eqb d dquote = false) as ->.
  { apply Ascii.eqb_neq. intros ->. by apply Forall_cons_1 in Ht as [? _]. }
  rewrite Hspan. done.
Qed.

(** The members of an access-log line. *)
Definition log_members (show3 : f64 -> string) (l : AccessLog) : list string :=
  [quoted "ts" +:+ ":" +:+ show_u (ts_ms l);
   quoted "method" +:+ ":" +:+ quoted (escape (method l));
   quoted "host" +:+ ":" +:+ quoted (escape (host l));
   quoted "path" +:+ ":" +:+ quoted (escape (path l));
   quoted "status" +:+ ":" +:+ show_u (status l);
   quoted "dur_ms" +:+ ":" +:+ show3 (dur_ms l);
   quoted "req_id" +:+ ":" +:+ quoted (escape (request_id l));
   quoted "bytes" +:+ ":" +:+ show_u (bytes l)].

Lemma to_json_members show3 l : to_json show3 l = "{" +:+ join "," (log_members show3 l) +:+ "}".
Proof.
  unfold to_json, str_field, raw_field, log_members. cbn [join]. by rewrite <-!append_assoc.
Qed.

Lemma show_u_number z : 0 <= z -> Forall (fun c => number_char c = true) (bytes_of (show_u z)).
Proof.
  intros Hz. eapply Forall_impl; [by apply show_u_digits|]. intros c Hc. unfold number_char.
  apply orb_true_iff. by left.
Qed.

(** No control character, so no line break. *)
Definition printable (s : string) : Prop := Forall (fun b => 32 <= byte_val b) (bytes_of s).

Lemma printable_app a b : printable a -> printable b -> printable (a +:+ b).
Proof. intros. unfold printable. rewrite bytes_of_app. by apply Forall_app. Qed.

Lemma printable_number s : Forall (fun c => number_char c = true) (bytes_of s) -> printable s.
Proof.
  intros Hs. eapply Forall_impl; [exact Hs|]. intros c Hc. destruct (Z.lt_ge_cases (byte_val c) 32) as [Hlt|]; [|done].
  exfalso. destruct c as [[] [] [] [] [] [] [] []]; try discriminate Hc; vm_compute in Hlt; discriminate Hlt.
Qed.

Lemma escape1_printable c : scalar c -> printable (escape1 c).
Proof.
  intros Hs. destruct (Z.lt_ge_cases c 32) as [Hc|Hc].
  - rewrite <-(Z2Nat.id c) by (unfold scalar in Hs; lia). assert (Z.to_nat c < 32)%nat as Hn by lia. revert Hn.
    generalize (Z.to_nat c) as n. clear. intros n Hn.
    do 32 (destruct n as [|n]; [decide_closed|]). lia.
  - unfold escape1. do 5 (case_match; [decide_closed|]). rewrite (proj2 (Z.ltb_ge c 32)) by lia.
    unfold printable. rewrite bytes_of_str. destruct (Z.lt_ge_cases c 128).
    + unfold encode1. zcmp. constructor; [|constructor]. rewrite byte_val_of; lia.
    + eapply Forall_impl; [by apply encode1_high|]. intros b Hb. cbv beta in Hb. lia.
Qed.

Lemma printable_escape v : printable (escape v).
Proof.
  unfold escape, chars. induction (utf8_decode_scalar (bytes_of v)) as [|c cs Hc _ IH]; [constructor|].
  apply printable_app; [by apply escape1_printable|done].
Qed.

Lemma printable_quoted s : printable s -> printable (quoted s).
Proof. intros Hs. constructor; [done|]. apply printable_app; [done|decide_closed]. Qed.

Create HintDb printable.
#[local] Hint Resolve printable_app printable_quoted printable_escape printable_number show_u_number : printable.
#[local] Hint Extern 1 (printable (String _ _)) => decide_closed : printable.
#[local] Hint Opaque printable quoted escape : printable.

(** C25. An access-log line is valid JSON on one line and reads back as its
    record, whatever bytes the client put in the method, the host and the path:
    a flat-object reader recovers exactly the eight fields with their values,
    and no control character (no line break) occurs in the line.  The duration
    is what the formatter of [f64] printed, a decimal number. *)
Theorem access_log_roundtrip (show3 : f64 -> string) (l : AccessLog)
    (Hshow : show3 (dur_ms l) <> "" /\ Forall (fun c => number_char c = true) (bytes_of (show3 (dur_ms l))))
    (Hnum : 0 <= ts_ms l /\ 0 <= status l /\ 0 <= bytes l)
    (Hval : Forall (fun s => utf8_valid s = true) [method l; host l; path l; request_id l]) :
  read_object (to_json show3 l) =
    Some [("ts", JNum (show_u (ts_ms l))); ("method", JStr (method l)); ("host", JStr (host l));
          ("path", JStr (path l)); ("status", JNum (show_u (status l)));
          ("dur_ms", JNum (show3 (dur_ms l))); ("req_id", JStr (request_id l));
          ("bytes", JNum (show_u (bytes l)))]
  /\ Forall (fun b => 32 <= byte_val b) (bytes_of (to_json show3 l)).
Proof.
  destruct Hshow as [Hne Hd]. destruct Hnum as (Ht & Hst & Hb).
  rewrite !Forall_cons in Hval. destruct Hval as (Hm & Hh & Hp & Hr & _). split.
  - rewrite to_json_members. apply read_object_join; [|done].
    repeat constructor; (apply reads_number_member || apply reads_string_member);
      auto using show_u_nonempty, show_u_number; intros ?; reflexivity.
  - change (printable (to_json show3 l)). unfold to_json, str_field, raw_field. auto 40 with printable.
Qed.

Definition demo_log : AccessLog :=
  mk_log 1700000000000 "GET" "app.example.com" ("/a" +:+ String dquote (String "010"%char "b")) 200 (f64_lit 3 2)
    "01JTEST" 42.

Lemma access_log_roundtrip_witness :
  read_object (to_json (fun _ => "1.500") demo_log) =
    Some [("ts", JNum "1700000000000"); ("method", JStr "GET"); ("host", JStr "app.example.com");
          ("path", JStr ("/a" +:+ String dquote (String "010"%char "b"))); ("status", JNum "200");
          ("dur_ms", JNum "1.500"); ("req_id", JStr "01JTEST"); ("bytes", JNum "42")]
  /\ Forall (fun b => 32 <= byte_val b) (bytes_of (to_json (fun _ => "1.500") demo_log)).
Proof.
  apply (access_log_roundtrip (fun _ => "1.500") demo_log).
  - split; [done|]. decide_closed.
  - simpl. lia.
  - decide_closed.
Defined.
End AccessLog.

(** ** Counters *)
Section Counters.
Import Metrics.

(** What was added to a series. *)
Definition added (ops : list (list string * Z)) (k : list string) : Z :=
  foldr (fun op acc => (if decide (op.1 = k) then op.2 else 0) + acc) 0 ops.

Lemma added_snoc ops op k : added (ops ++ [op]) k = added ops k + (if decide (op.1 = k) then op.2 else 0).
Proof. induction ops as [|o ops IH]; simpl; [lia|]. unfold added in *. simpl. lia. Qed.

Lemma added_fresh ops k : k ∉ ops.*1 -> added ops k = 0.
Proof.
  induction ops as [|o ops IH]; [done|]. rewrite fmap_cons, not_elem_of_cons. intros [Hk Hops].
  change (added (o :: ops) k) with ((if decide (o.1 = k) then o.2 else 0) + added ops k).
  rewrite decide_False by congruence. by rewrite IH.
Qed.

Definition run_adds (ops : list (list string * Z)) (c : CounterVec) : CounterVec :=
  foldl (fun c op => add op.1 op.2 c) c ops.

(** Series are created until the cap and then never; a series that exists has
    the total of its additions. *)
Lemma counter_inv name help names cap ops :
  Forall (fun op => 0 <= op.2 <= u64_max) ops ->
  let c := run_adds ops (counter_vec_new name help names cap) in
  Metrics.cap c = cap /\ (size (values c) <= cap)%nat
  /\ forall k, match values c !! k with
               | Some v => k ∈ ops.*1 /\ v = wrap_u64 (added ops k)
               | None => k ∈ ops.*1 -> size (values c) = cap
               end.
Proof.
  induction ops as [|op ops IH] using rev_ind; intros Hops; cbv zeta.
  { unfold run_adds, counter_vec_new. simpl. rewrite map_size_empty. split_and!; [done|lia|].
    intros k. rewrite lookup_empty. set_solver. }
  apply Forall_app in Hops as [Hops [Hop _]%Forall_cons]. destruct (IH Hops) as (Hcap & Hsize & Hval). clear IH.
  unfold run_adds in *. rewrite foldl_app. cbn [foldl].
  set (c := foldl _ _ ops) in *. pose proof (Hval op.1) as Hk. unfold add.
  destruct (values c !! op.1) as [v|] eqn:Ev; [|destruct (Nat.ltb_spec (size (values c)) (Metrics.cap c)) as [Hlt|Hge]].
  - cbn [set_values values Metrics.cap]. rewrite map_size_insert, Ev. split_and!; [done|done|].
    intros k. rewrite fmap_app. destruct (decide (op.1 = k)) as [<-|Hne].
    + rewrite lookup_insert_eq. destruct Hk as [Hin ->]. split; [set_solver|].
      rewrite added_snoc, decide_True by done. unfold wrap_u64. by rewrite Zplus_mod_idemp_l.
    + rewrite lookup_insert_ne by done. specialize (Hval k). destruct (values c !! k).
      * rewrite added_snoc, decide_False, Z.add_0_r by done. set_solver.
      * set_solver.
  - cbn [set_values values Metrics.cap]. rewrite map_size_insert_None by done. split_and!; [done|lia|].
    intros k. rewrite fmap_app. destruct (decide (op.1 = k)) as [<-|Hne].
    + rewrite lookup_insert_eq. split; [set_solver|]. rewrite added_snoc, decide_True by done.
      rewrite added_fresh by (intros Hin; apply Hk in Hin; lia). by rewrite Z.add_0_l, wrap_u64_small.
    + rewrite lookup_insert_ne by done. specialize (Hval k). destruct (values c !! k).
      * rewrite added_snoc, decide_False, Z.add_0_r by done. set_solver.
      * intros Hin. assert (size (values c) = cap) by set_solver. lia.
  - split_and!; [done|done|]. intros k. rewrite fmap_app. specialize (Hval k). destruct (values c !! k) eqn:Ek.
    + rewrite added_snoc, decide_False, Z.add_0_r by congruence. set_solver.
    + intros _. lia.
Qed.

(** ** The histogram *)

(** The observations at most [b]. *)
Definition at_most (b : f64) (vs : list f64) : Z := Z.of_nat (length (filter (fun v => f64_leb v b = true) vs)).

Definition run_observe (vs : list f64) (h : Histogram) : exec () Histogram :=
  foldl (fun m v => h ← m; observe v h) (Ok h) vs.

Lemma observe_buckets_spec v bounds : forall i counts,
  (i + length bounds <= length counts)%nat ->
  exists counts', observe_buckets v i bounds counts = Ok counts'
    /\ length counts' = length counts
    /\ forall j, counts' !! j =
         match bounds !! (j - i)%nat with
         | Some b => if decide (i <= j)%nat then
                       (fun n => if f64_leb v b then n +₆₄ 1 else n) <$> counts !! j
                     else counts !! j
         | None => counts !! j
         end.
Proof.
  induction bounds as [|b bounds IH]; intros i counts Hlen; cbn [observe_buckets length] in *.
  { exists counts. split_and!; [done..|]. intros j. by rewrite lookup_nil. }
  assert (exists n, counts !! i = Some n) as [n Hn] by (apply lookup_lt_is_Some; lia).
  assert (Hstep : exists counts1, (if f64_leb v b
       then match counts !! i with
            | Some n => observe_buckets v (S i) bounds (<[i:=n +₆₄ 1]> counts)
            | None => Panic
            end
       else observe_buckets v (S i) bounds counts) = observe_buckets v (S i) bounds counts1
     /\ counts1 = <[i := if f64_leb v b then n +₆₄ 1 else n]> counts).
  { rewrite Hn. destruct (f64_leb v b); [by eexists|]. exists counts. split; [done|].
    by rewrite list_insert_id. }
  destruct Hstep as (counts1 & -> & ->).
  destruct (IH (S i) (<[i := if f64_leb v b then n +₆₄ 1 else n]> counts)) as (counts' & -> & Hl & Hj);
    [rewrite length_insert; lia|].
  exists counts'. rewrite length_insert in Hl. split_and!; [done..|]. intros j. rewrite Hj.
  destruct (Nat.lt_trichotomy j i) as [Hji|[->|Hji]].
  - rewrite list_lookup_insert_ne by lia. repeat (case_match || case_decide); done || lia.
  - replace (i - S i)%nat with O by lia. rewrite Nat.sub_diag. cbn [lookup list_lookup].
    rewrite list_lookup_insert_eq by (apply lookup_lt_Some in Hn; lia). rewrite Hn.
    rewrite (decide_True (P := (i <= i)%nat)) by lia. cbn [fmap option_fmap option_map].
    repeat (case_match || case_decide); done || lia.
  - rewrite list_lookup_insert_ne by lia. replace (j - i)%nat with (S (j - S i)) by lia.
    change ((b :: bounds) !! S (j - S i)) with (bounds !! (j - S i)%nat).
    destruct (bounds !! (j - S i)%nat); [|done]. by rewrite !decide_True by lia.
Qed.

Lemma at_most_snoc b vs v :
  at_most b (vs ++ [v]) = at_most b vs + (if f64_leb v b then 1 else 0).
Proof.
  unfold at_most. rewrite filter_app, length_app, filter_cons.
  destruct (f64_leb v b); [rewrite decide_True by done|rewrite decide_False by done]; simpl; lia.
Qed.

Lemma observe_inv name help bs vs :
  exists h, run_observe vs (histogram_new name help bs) = Ok h
    /\ buckets h = bs /\ count (h_state h) = wrap_u64 (Z.of_nat (length vs))
    /\ bucket_counts (h_state h) = (fun b => wrap_u64 (at_most b vs)) <$> bs
    /\ sum (h_state h) = foldl f64_add (S754_zero false) vs.
Proof.
  unfold run_observe. induction vs as [|v vs IH] using rev_ind.
  { exists (histogram_new name help bs). split_and!; try done. simpl. by induction bs as [|b bs IH]; simpl; f_equal. }
  destruct IH as (h & Hr & Hb & Hc & Hn & Hs). rewrite foldl_app. cbn [foldl]. rewrite Hr. cbn [mbind exec_bind].
  unfold observe.
  destruct (observe_buckets_spec v (buckets h) 0 (bucket_counts (h_state h))) as (counts & -> & Hl & Hj).
  { rewrite Hn, Hb, length_fmap. lia. }
  cbn [mbind exec_bind]. eexists. split; [done|]. cbn [buckets h_state count bucket_counts sum].
  split_and!; [done| | |by rewrite foldl_app, <-Hs].
  - rewrite Hc, length_app. unfold wrap_u64. rewrite Zplus_mod_idemp_l. f_equal. simpl. lia.
  - apply list_eq. intros j. rewrite Hj, Hn, Hb, !list_lookup_fmap, Nat.sub_0_r.
    destruct (bs !! j) as [b|]; [|done]. rewrite decide_True by lia. cbn. f_equal. rewrite at_most_snoc.
    destruct (f64_leb v b); [|by rewrite Z.add_0_r]. unfold wrap_u64. by rewrite Zplus_mod_idemp_l.
Qed.

(** [f64_leb] is transitive: larger buckets hold all that smaller ones do. *)
Lemma f64_leb_trans x y z : f64_leb x y = true -> f64_leb y z = true -> f64_leb x z = true.
Proof.
  unfold f64_leb, SFleb, SFcompare.
  destruct x as [[]|[]| |[] mx ex], y as [[]|[]| |[] my ey], z as [[]|[]| |[] mz ez]; try done.
  all: destruct (Z.compare_spec ex ey), (Z.compare_spec ey ez), (Z.compare_spec ex ez); try done; try lia.
  all: change (@PosDef.Pos.compare_cont Eq) with Pos.compare.
  all: destruct (Pos.compare_spec mx my), (Pos.compare_spec my mz), (Pos.compare_spec mx mz); simpl; try done; lia.
Qed.

Lemma at_most_mono b b' vs : f64_leb b b' = true -> at_most b vs <= at_most b' vs.
Proof.
  intros Hb. induction vs as [|v vs IH] using rev_ind; [done|]. rewrite !at_most_snoc.
  destruct (f64_leb v b) eqn:E; [by rewrite (f64_leb_trans _ _ _ E Hb); lia|]. destruct (f64_leb v b'); lia.
Qed.

(** ** The telemetry *)
Definition request := (string * Z * f64)%type.

Definition run_requests (reqs : list request) (t : Telemetry) : exec () Telemetry :=
  foldl (fun m '(method, status, dur) => t ← m; record_request method status dur t) (Ok t) reqs.

Definition labels_of (r : request) : list string := [r.1.1; show_u r.1.2].

(** The parts of the telemetry evolve on their own. *)
Lemma run_requests_parts reqs t h :
  run_observe reqs.*2 (request_duration t) = Ok h ->
  run_requests reqs t =
    Ok (mk_telemetry (run_adds ((fun r => (labels_of r, 1)) <$> reqs) (requests_total t)) (errors_total t) h).
Proof.
  revert h. unfold run_requests, run_observe, run_adds. induction reqs as [|[[m st] d] reqs IH] using rev_ind; intros h.
  - cbn. intros [= <-]. by destruct t.
  - rewrite !fmap_app, !foldl_app. cbn [fmap list_fmap foldl fst snd labels_of]. intros Hh.
    destruct (foldl _ (Ok (request_duration t)) _) as [h0| | |] eqn:E0; try done.
    rewrite (IH h0 eq_refl). cbn [mbind exec_bind] in *. unfold record_request.
    cbn [requests_total errors_total request_duration]. rewrite Hh. done.
Qed.

Lemma show_u_inj a b : 0 <= a -> 0 <= b -> show_u a = show_u b -> a = b.
Proof.
  intros Ha Hb He. pose proof (digits_val_show a Ha) as H1. rewrite He, (digits_val_show b Hb) in H1. congruence.
Qed.

(** The requests with a method and a status. *)
Definition requests_with (m : string) (st : Z) (reqs : list request) : list request :=
  filter (fun r => r.1 = (m, st)) reqs.

Lemma added_requests m st reqs :
  0 <= st -> Forall (fun r : request => 0 <= r.1.2) reqs ->
  added ((fun r => (labels_of r, 1)) <$> reqs) [m; show_u st] = Z.of_nat (length (requests_with m st reqs)).
Proof.
  intros Hst. unfold requests_with. induction 1 as [|[[m' s'] d] reqs Hr _ IH]; [done|].
  rewrite fmap_cons, filter_cons. change (added ?l ?k) with (added l k) in IH.
  change (added ((labels_of (m', s', d), 1) :: ?l) ?k) with ((if decide (labels_of (m', s', d) = k) then 1 else 0) + added l k).
  rewrite IH. cbn [fst] in *. unfold labels_of. cbn [fst snd].
  destruct (decide ((m', s') = (m, st))) as [[= -> ->]|Hne].
  - rewrite decide_True by done. cbn [length]. rewrite Nat2Z.inj_succ. apply Z.add_1_l.
  - rewrite decide_False; [apply Z.add_0_l|]. intros [= -> He]. apply Hne. f_equal. by apply show_u_inj.
Qed.

(** The metrics count the requests served.  After any number of completed
    requests no observation has panicked; there are at most 1024 series of
    methods and statuses; a series holds the number of requests with its method
    and status, modulo 2^64, and one is missing only for want of such requests
    or because the cap is reached; each bucket of the histogram holds the
    number of durations up to its bound, so that the buckets are cumulative,
    and the total is the number of requests. *)
Theorem telemetry_counts (reqs : list request) (Hst : Forall (fun r => 0 <= r.1.2) reqs) :
  exists t, run_requests reqs telemetry_new = Ok t
  /\ (size (values (requests_total t)) <= 1024)%nat
  /\ (forall m st, 0 <= st ->
        match values (requests_total t) !! [m; show_u st] with
        | Some v => v = wrap_u64 (Z.of_nat (length (requests_with m st reqs)))
        | None => requests_with m st reqs = [] \/ size (values (requests_total t)) = 1024%nat
        end)
  /\ let h := request_duration t in
     count (h_state h) = wrap_u64 (Z.of_nat (length reqs))
     /\ bucket_counts (h_state h) = (fun b => wrap_u64 (at_most b reqs.*2)) <$> buckets h
     /\ forall i j b b', (i <= j)%nat -> buckets h !! i = Some b -> buckets h !! j = Some b' ->
          at_most b reqs.*2 <= at_most b' reqs.*2.
Proof.
  destruct (observe_inv (h_name (request_duration telemetry_new)) (h_help (request_duration telemetry_new))
              (buckets (request_duration telemetry_new)) reqs.*2) as (h & Hr & Hb & Hc & Hn & _).
  eexists. split; [apply run_requests_parts; exact Hr|]. cbn [requests_total request_duration].
  destruct (counter_inv "pulsate_http_requests_total" "Total HTTP requests by method and status" ["method"; "status"]
              1024 ((fun r => (labels_of r, 1)) <$> reqs)) as (_ & Hsize & Hval).
  { apply Forall_fmap, Forall_true. intros r. simpl. unfold u64_max. lia. }
  split_and!; [exact Hsize| | | |].
  - intros m st Hs. specialize (Hval [m; show_u st]).
    change (requests_total telemetry_new) with
      (counter_vec_new "pulsate_http_requests_total" "Total HTTP requests by method and status" ["method"; "status"] 1024).
    destruct (_ !! _) as [v|]; [by rewrite <-added_requests by done; destruct Hval|].
    destruct (requests_with m st reqs) as [|r l] eqn:El; [by left|]. right. apply Hval.
    assert (r ∈ requests_with m st reqs) as Hin by (rewrite El; left).
    apply list_elem_of_filter in Hin as [Hrm Hin]. apply list_elem_of_fmap. eexists. split; [|apply list_elem_of_fmap; eauto].
    unfold labels_of. cbn [fst]. by rewrite Hrm.
  - by rewrite Hc, length_fmap.
  - by rewrite Hn, Hb.
  - intros i j b b' Hij Hi Hj. apply at_most_mono. rewrite Hb in Hi, Hj.
    assert (Forall (fun i => Forall (fun j => (i <= j)%nat ->
      f64_leb (default S754_nan (buckets (request_duration telemetry_new) !! i))
              (default S754_nan (buckets (request_duration telemetry_new) !! j)) = true) (seq 0 12)) (seq 0 12)) as Hasc
      by decide_closed.
    pose proof (lookup_lt_Some _ _ _ Hi) as Li. pose proof (lookup_lt_Some _ _ _ Hj) as Lj.
    change (length _) with 12%nat in Li, Lj.
    rewrite Forall_forall in Hasc. specialize (Hasc i). rewrite elem_of_seq in Hasc. specialize (Hasc ltac:(lia)).
    rewrite Forall_forall in Hasc. specialize (Hasc j). rewrite elem_of_seq in Hasc. specialize (Hasc ltac:(lia) Hij).
    by rewrite Hi, Hj in Hasc.
Qed.

Definition demo_requests : list request := [("GET", 200, f64_lit 12 1000); ("GET", 200, f64_lit 30 1000)].
Lemma telemetry_counts_witness :
  exists t, run_requests demo_requests telemetry_new = Ok t /\ count (h_state (request_duration t)) = 2.
Proof.
  destruct (telemetry_counts demo_requests) as (t & Ht & _ & _ & Hc & _); [decide_closed|].
  exists t. split; [exact Ht|]. rewrite Hc. reflexivity.
Defined.

(** ** The exposition *)
Lemma str_leb_total a b : str_leb a b = true \/ str_leb b a = true.
Proof.
  revert b. induction a as [|c a IH]; intros [|d b]; cbn [str_leb]; auto.
  destruct (Z.lt_trichotomy (byte_val c) (byte_val d)) as [H|[H|H]].
  - left. apply orb_true_iff. left. by apply Z.ltb_lt.
  - rewrite H, Z.eqb_refl. destruct (IH b) as [-> | ->]; rewrite orb_true_r; auto.
  - right. apply orb_true_iff. left. by apply Z.ltb_lt.
Qed.

Lemma str_leb_antisym a b : str_leb a b = true -> str_leb b a = true -> a = b.
Proof.
  revert b. induction a as [|c a IH]; intros [|d b]; cbn [str_leb]; try done.
  rewrite !orb_true_iff, !andb_true_iff, !Z.ltb_lt, !Z.eqb_eq. intros [?|[Hcd Ha]] [?|[? Hb]]; try lia.
  f_equal; [by apply byte_val_inj|auto].
Qed.

Lemma str_leb_trans a b c : str_leb a b = true -> str_leb b c = true -> str_leb a c = true.
Proof.
  revert b c. induction a as [|x a IH]; intros [|y b] [|z c]; cbn [str_leb]; try done.
  rewrite !orb_true_iff, !andb_true_iff, !Z.ltb_lt, !Z.eqb_eq. intros [?|[? ?]] [?|[? ?]]; [lia..|].
  right. split; [lia|eauto].
Qed.

#[local] Instance labels_total : Total row_le.
Proof.
  intros [a n1] [b n2]. unfold row_le. cbn [fst]. clear. revert b. induction a as [|x a IH]; intros [|y b]; cbn [labels_leb]; auto.
  rewrite (String.eqb_sym y x). destruct (x =? y)%string; [auto|apply str_leb_total].
Qed.

#[local] Instance labels_trans : Transitive row_le.
Proof.
  intros [a n1] [b n2] [c n3]. unfold row_le. cbn [fst]. clear. revert b c.
  induction a as [|x a IH]; intros [|y b] [|z c]; cbn [labels_leb]; try done.
  destruct (String.eqb_spec x y) as [->|Hxy].
  - destruct (y =? z)%string; eauto.
  - destruct (String.eqb_spec y z) as [<-|Hyz]; intros H1 H2.
    + by rewrite (proj2 (String.eqb_neq _ _)) by done.
    + destruct (String.eqb_spec x z) as [->|_]; [|by eapply str_leb_trans].
      by destruct Hxy, (str_leb_antisym _ _ H1 H2).
Qed.

Lemma labels_antisym a b : labels_leb a b = true -> labels_leb b a = true -> a = b.
Proof.
  revert b. induction a as [|x a IH]; intros [|y b]; cbn [labels_leb]; try done.
  rewrite (String.eqb_sym y x). destruct (String.eqb_spec x y) as [->|Hxy]; [intros; f_equal; auto|].
  intros H1 H2. by destruct Hxy, (str_leb_antisym _ _ H1 H2).
Qed.

(** The exposition does not depend on the order in which the hash map
    lists its series: two listings of the same counters render alike, with the
    series sorted by their labels. *)
Theorem render_deterministic (iter iter' : gmap (list string) Z -> list (list string * Z)) (c : CounterVec)
    (Hiter : iter (values c) ≡ₚ map_to_list (values c)) (Hiter' : iter' (values c) ≡ₚ map_to_list (values c)) :
  counter_render iter c = counter_render iter' c /\ StronglySorted row_le (counter_rows iter c).
Proof.
  assert (Hrows : counter_rows iter c = counter_rows iter' c).
  { unfold counter_rows. apply (StronglySorted_unique_strong row_le).
    - intros [a v] [b w] Ha Hb Hab Hba. rewrite merge_sort_Permutation, Hiter in Ha.
      rewrite merge_sort_Permutation, Hiter' in Hb.
      pose proof (labels_antisym _ _ Hab Hba) as [= ->].
      apply elem_of_map_to_list in Ha, Hb. congruence.
    - apply StronglySorted_merge_sort; [exact labels_trans|exact labels_total].
    - apply StronglySorted_merge_sort; [exact labels_trans|exact labels_total].
    - by rewrite !merge_sort_Permutation, Hiter, Hiter'. }
  split; [|apply StronglySorted_merge_sort; [exact labels_trans|exact labels_total]]. unfold counter_render. by rewrite Hrows.
Qed.

Definition demo_counter : CounterVec := run_adds [(["b"], 1); (["a"], 2)] (counter_vec_new "x" "h" ["k"] 2).
Lemma render_deterministic_witness :
  counter_render map_to_list demo_counter = counter_render (fun m => reverse (map_to_list m)) demo_counter
  /\ StronglySorted row_le (counter_rows map_to_list demo_counter).
Proof.
  apply (render_deterministic map_to_list (fun m => reverse (map_to_list m)) demo_counter);
    [done|apply reverse_Permutation].
Defined.
End Counters.
