(* ===== verification/Handlers.v ===== *)
(** * [pulsate-http]: the terminal handlers

    [handlers.rs].  The file system is a record of what [metadata] and [read]
    answer for a path text; paths follow the rules of [std::path] on Unix. *)

From Stdlib Require Import ZArith Ascii String Lia.
From stdpp Require Import base option list gmap strings.
From S2P Require Import Prelude RustStr CoreTypes Http Message Router.
Import Router.
Local Open Scope string_scope.
Local Open Scope list_scope.
Local Open Scope Z_scope.

Module Paths.
(** ** [std::path] *)
Inductive Component := RootDir | CurDir | ParentDir | Normal (c : string).
#[global] Instance Component_eq_dec : EqDecision Component.
Proof. solve_decision. Defined.

(** A piece between separators, after the start of the path. *)
Definition piece (p : string) : option Component :=
  if (p =? "")%string then None
  else if (p =? ".")%string then None
  else if (p =? "..")%string then Some ParentDir
  else Some (Normal p).

(** [Path::components]: repeated separators and inner dots are skipped, a
    leading dot is not. *)
Definition components (s : string) : list Component :=
  let pieces := split_char "/" s in
  (if starts_with "/" s then [RootDir]
   else if bool_decide (head pieces = Some ".") then [CurDir] else [])
  ++ omap piece pieces.

(** [PathBuf::push]: an absolute path replaces, another follows a separator. *)
Definition push (path c : string) : string :=
  if starts_with "/" c then c
  else if (path =? "")%string || ends_with "/" path then path +:+ c
  else path +:+ "/" +:+ c.

(** [Path::file_name]: the last component, when it is a name. *)
Definition file_name (path : string) : option string :=
  match last (components path) with Some (Normal c) => Some c | _ => None end.

(** [str::rsplit_once('.')]. *)
Fixpoint rsplit_dot (s : string) : option (string * string) :=
  match s with
  | "" => None
  | String c s' =>
    match rsplit_dot s' with
    | Some (a, b) => Some (String c a, b)
    | None => if Ascii.eqb c "." then Some ("", s') else None
    end
  end.

(** [Path::extension]: what follows the last dot of the file name, unless the
    name starts with its only dot. *)
Definition extension (path : string) : option string :=
  name ← file_name path;
  '(before, after) ← rsplit_dot name;
  if (before =? "")%string then None else Some after.
End Paths.

Module Handlers.
Import Paths.

(** What the file system answers: whether a path is a directory, and the bytes
    of a readable file. *)
Record FileSystem := mk_fs { metadata : string -> option bool; read : string -> option string }.

(** [rel.trim_start_matches('/')]. *)
Definition trim_slashes (s : string) : string := str_of (drop_while (fun c => Ascii.eqb c "/") (bytes_of s)).

Fixpoint join_components (out : string) (comps : list Component) : option string :=
  match comps with
  | [] => Some out
  | comp :: comps =>
    match comp with
    | Normal c => join_components (push out c) comps
    | CurDir => join_components out comps
    | ParentDir | RootDir => None
    end
  end.

Definition sanitized_join (root rel : string) : option string :=
  join_components root (components (trim_slashes rel)).

Definition content_type (path : string) : string :=
  let ext e := bool_decide (extension path = Some e) in
  if ext "html" || ext "htm" then "text/html; charset=utf-8"
  else if ext "css" then "text/css; charset=utf-8"
  else if ext "js" || ext "mjs" then "text/javascript; charset=utf-8"
  else if ext "json" then "application/json"
  else if ext "svg" then "image/svg+xml"
  else if ext "png" then "image/png"
  else if ext "jpg" || ext "jpeg" then "image/jpeg"
  else if ext "gif" then "image/gif"
  else if ext "ico" then "image/x-icon"
  else if ext "wasm" then "application/wasm"
  else if ext "txt" then "text/plain; charset=utf-8"
  else "application/octet-stream".

Definition name_owned (h : Handler) : string :=
  match h with
  | Files _ _ => "files"
  | Respond _ _ => "respond"
  | Redirect _ _ => "redirect"
  | Router.Proxy _ _ => "proxy"
  | Other n => n
  end.

Section Execute.
Context `{HeaderOps}.

Definition status_or (code fallback : Z) : Z := default fallback (status_from_u16 code).

Definition respond (status : Z) (body : string) : Response :=
  let resp := response_new (status_or status 200) in
  let resp :=
    if (body =? "")%string then resp
    else headers_mut (hm_insert "content-type" (value_from_static "text/plain; charset=utf-8")) resp in
  with_body resp body.

Definition redirect (status : Z) (to : string) : Response :=
  let resp := response_new (status_or status 308) in
  match value_from_str to with
  | Some value => headers_mut (hm_insert "location" value) resp
  | None => resp
  end.

Definition not_implemented (name : string) : Response :=
  respond 501 ("handler `" +:+ name +:+ "` is not implemented in this build").

Variable fs : FileSystem.

Definition try_serve_one (root rel : string) : option Response :=
  safe ← sanitized_join root rel;
  is_dir ← metadata fs safe;
  let target := if (is_dir : bool) then push safe "index.html" else safe in
  bytes ← read fs target;
  let resp := headers_mut (hm_insert "content-type" (value_from_static (content_type target))) (response_new 200) in
  Some (with_body resp bytes).

(** The candidates in order; the first that resolves is served. *)
Fixpoint serve_candidates (root : string) (candidates : list string) : Response :=
  match candidates with
  | [] => respond 404 "not found"
  | candidate :: candidates =>
    match try_serve_one root candidate with
    | Some resp => resp
    | None => serve_candidates root candidates
    end
  end.

Definition serve_files (root : string) (try_files : list string) (req_path : string) : Response :=
  let candidates :=
    match try_files with
    | [] => [req_path]
    | _ => (fun t => replace "{path}" req_path t) <$> try_files
    end in
  serve_candidates root candidates.

Definition execute (h : Handler) (path : string) : Response :=
  match h with
  | Respond status body => respond status body
  | Redirect to status => redirect status to
  | Files root try_files => serve_files root try_files path
  | Router.Proxy _ _ | Other _ => not_implemented (name_owned h)
  end.
End Execute.
End Handlers.

(** ** Confinement *)
Import Paths Handlers.

(** A path is under [root] when it is [root] followed by names: no component
    climbs, and none restarts from the root of the file system. *)
Definition proper_name (c : string) : Prop :=
  c <> "" /\ c <> "." /\ c <> ".." /\ ~ ("/"%char ∈ bytes_of c).

Inductive under (root : string) : string -> Prop :=
| under_root : under root root
| under_push p c : under root p -> proper_name c -> under root (push p c).

Lemma split_char_no_sep sep s : Forall (fun p => ~ (sep ∈ bytes_of p)) (split_char sep s).
Proof.
  induction s as [|c s IH]; cbn [split_char]; [repeat constructor; set_solver|].
  destruct (split_char sep s) as [|w ws]; [constructor|]. apply Forall_cons in IH as [Hw Hws].
  destruct (Ascii.eqb_spec c sep) as [->|Hc]; repeat constructor; simpl; try done; set_solver.
Qed.

Lemma components_names s : Forall (fun c => match c with Normal n => proper_name n | _ => True end) (components s).
Proof.
  unfold components. apply Forall_app. split; [repeat case_match; repeat constructor|].
  apply Forall_forall. intros c (p & Hp & Hc)%list_elem_of_omap.
  pose proof (split_char_no_sep "/" s) as Hs. rewrite Forall_forall in Hs. specialize (Hs p Hp).
  unfold piece in Hc. destruct (String.eqb_spec p ""); [done|]. destruct (String.eqb_spec p "."); [done|].
  destruct (String.eqb_spec p ".."); simplify_eq; done.
Qed.

Lemma join_components_under root out comps p :
  under root out -> Forall (fun c => match c with Normal n => proper_name n | _ => True end) comps ->
  join_components out comps = Some p -> under root p.
Proof.
  intros Hout Hc. revert out Hout. induction Hc as [|c comps Hc _ IH]; intros out Hout; cbn [join_components];
    [by intros [= <-]|]. destruct c; try done; apply IH; [done|]. by apply under_push.
Qed.

Lemma sanitized_join_under root rel p : sanitized_join root rel = Some p -> under root p.
Proof. apply join_components_under; [constructor|apply components_names]. Qed.

(** Two file systems agree under [root]. *)
Definition agree_under (root : string) (fs fs' : FileSystem) : Prop :=
  forall p, under root p -> metadata fs p = metadata fs' p /\ read fs p = read fs' p.

(** Such a path extends the text of the root. *)
Lemma under_prefix root p : under root p -> exists r, p = root +:+ r.
Proof.
  induction 1 as [|p c _ [r ->] (Hne & _ & _ & Hs)]; [exists ""; by rewrite append_nil_r|].
  unfold push. destruct (starts_with "/" c) eqn:E.
  - apply starts_with_spec in E as [x ->]. exfalso. apply Hs. simpl. set_solver.
  - destruct (_ || _); rewrite <-append_assoc; by eexists.
Qed.

Lemma join_parent_dir out comps : ParentDir ∈ comps -> join_components out comps = None.
Proof.
  revert out. induction comps as [|c comps IH]; intros out; [by intros ?%elem_of_nil|].
  intros [<-|Hin]%elem_of_cons; [done|]. cbn [join_components]. destruct c; auto.
Qed.

(** The paths that are tried for a request. *)
Definition candidates (try_files : list string) (req_path : string) : list string :=
  match try_files with [] => [req_path] | _ => (fun t => replace "{path}" req_path t) <$> try_files end.
(** A candidate with a parent component. *)
Definition climbs (candidate : string) : Prop := ParentDir ∈ components (trim_slashes candidate).

Section Serving.
Context `{HeaderOps}.
Implicit Types fs : FileSystem.

Lemma serve_one_climbs fs root rel : climbs rel -> try_serve_one fs root rel = None.
Proof. intros Hc. unfold try_serve_one, sanitized_join. by rewrite join_parent_dir. Qed.

(** What is served is a file under the root. *)
Lemma serve_one_file fs root rel resp : try_serve_one fs root rel = Some resp ->
  ~ climbs rel /\ exists p bytes, under root p /\ read fs p = Some bytes
    /\ resp_status resp = 200 /\ resp_body resp = body_from bytes
    /\ resp_headers resp = hm_insert "content-type" (value_from_static (content_type p)) (resp_headers (response_new 200)).
Proof.
  intros Hs. split; [intros Hc; by rewrite (serve_one_climbs fs root rel Hc) in Hs|]. unfold try_serve_one in Hs.
  apply bind_Some in Hs as (safe & Hj & (is_dir & _ & (bytes & Hr & [= <-])%bind_Some)%bind_Some).
  apply sanitized_join_under in Hj. eexists _, bytes. split; [|by split_and!].
  destruct is_dir; [|done]. apply under_push; [done|]. unfold proper_name. decide_closed.
Qed.

Lemma serve_one_agree fs fs' root rel : agree_under root fs fs' -> try_serve_one fs root rel = try_serve_one fs' root rel.
Proof.
  intros Hagree. unfold try_serve_one. destruct (sanitized_join root rel) as [p|] eqn:E; [|done].
  apply sanitized_join_under in E. cbn [mbind option_bind]. destruct (Hagree p E) as [-> Hp].
  destruct (metadata fs' p) as [[]|]; cbn [mbind option_bind]; [|by rewrite Hp|done].
  assert (proper_name "index.html") as Hi by (unfold proper_name; decide_closed).
  by rewrite (proj2 (Hagree _ (under_push _ _ _ E Hi))).
Qed.

Lemma serve_candidates_agree fs fs' root l : agree_under root fs fs' -> serve_candidates fs root l = serve_candidates fs' root l.
Proof. intros Hagree. induction l as [|rel l IH]; [done|]. cbn [serve_candidates]. by rewrite (serve_one_agree fs fs') , IH. Qed.

Lemma serve_candidates_first fs root l :
  (exists pre c post, l = pre ++ c :: post /\ Forall (fun c => try_serve_one fs root c = None) pre
     /\ try_serve_one fs root c = Some (serve_candidates fs root l))
  \/ Forall (fun c => try_serve_one fs root c = None) l /\ serve_candidates fs root l = respond 404 "not found".
Proof.
  induction l as [|c l IH]; cbn [serve_candidates]; [by right|].
  destruct (try_serve_one fs root c) as [resp|] eqn:E; [left; by exists [], c, l|].
  destruct IH as [(pre & c' & post & -> & Hpre & Hc)|[Hl IH]]; [left|right; split; [by constructor|done]].
  exists (c :: pre), c', post. split_and!; [done|by constructor|done].
Qed.
End Serving.

(** C14. The files handler cannot be made to leave its root.  For any request
    path and any [try_files] list the response depends only on what the file
    system holds under [root] (the root followed by ordinary names, never
    [..]): two file systems that agree there serve the same response, whatever
    else they contain.  It is a 404, or the contents of a readable file under
    the root, found by a candidate without a [..] component; so when all the
    candidates have one, it is a 404.  The candidates are the [try_files]
    templates with the request path put in, or the request path itself when
    there are none: then a request path with a [..] component is a 404, and
    with templates it is one unless a fallback that has none is found. *)
Theorem files_confined `{HeaderOps} (fs fs' : FileSystem) (root : string) (try_files : list string) (req_path : string)
    (Hagree : agree_under root fs fs') :
  let resp := execute fs (Files root try_files) req_path in
  resp = execute fs' (Files root try_files) req_path
  /\ (resp = respond 404 "not found"
      \/ exists c p bytes, c ∈ candidates try_files req_path /\ ~ climbs c /\ under root p /\ read fs p = Some bytes
           /\ resp_status resp = 200 /\ resp_body resp = body_from bytes)
  /\ (Forall climbs (candidates try_files req_path) -> resp = respond 404 "not found" /\ resp_status resp = 404).
Proof.
  cbv zeta. change (execute fs (Files root try_files) req_path) with (serve_candidates fs root (candidates try_files req_path)).
  change (execute fs' (Files root try_files) req_path) with (serve_candidates fs' root (candidates try_files req_path)).
  split; [by apply serve_candidates_agree|]. destruct (serve_candidates_first fs root (candidates try_files req_path)) as [(pre & c & post & E & _ & Hc)|[_ ->]].
  - apply serve_one_file in Hc as (Hn & p & bytes & Hp & Hr & Hs & Hb & _). assert (Hin : c ∈ candidates try_files req_path) by (rewrite E; set_solver).
    split; [right; by exists c, p, bytes|]. intros Hall. rewrite Forall_forall in Hall. by apply Hall in Hin.
  - split; [by left|]. by intros _.
Qed.

(** ** On concrete inputs *)
Section Witnesses.
#[local] Existing Instance ListHeaders.list_headers.

(** A site under [/srv]; [secret] is what lies outside. *)
Definition demo_fs (secret : string) : FileSystem :=
  mk_fs (fun p => if (p =? "/srv/site")%string then Some true
                  else if (p =? "/srv/site/index.html")%string then Some false
                  else if (p =? "/etc/passwd")%string then Some false else None)
        (fun p => if (p =? "/srv/site/index.html")%string then Some "<h1>hi</h1>"
                  else if (p =? "/etc/passwd")%string then Some secret else None).

Example demo_index :
  resp_body (execute (demo_fs "x") (Files "/srv/site" []) "/") = BodyBytes "<h1>hi</h1>".
Proof. reflexivity. Qed.

Example demo_extension : extension "/srv/a.tar.gz" = Some "gz" /\ extension "/srv/.bashrc" = None.
Proof. split; reflexivity. Qed.

Lemma files_confined_witness :
  execute (demo_fs "a") (Files "/srv/site" ["{path}"; "/../etc/passwd"]) "/../../etc/passwd"
  = execute (demo_fs "b") (Files "/srv/site" ["{path}"; "/../etc/passwd"]) "/../../etc/passwd"
  /\ resp_status (execute (demo_fs "a") (Files "/srv/site" ["{path}"; "/../etc/passwd"]) "/../../etc/passwd") = 404.
Proof.
  destruct (files_confined (demo_fs "a") (demo_fs "b") "/srv/site" ["{path}"; "/../etc/passwd"] "/../../etc/passwd")
    as (H1 & _ & H3).
  - intros p Hp. split; [done|]. apply under_prefix in Hp as [r ->]. cbn [demo_fs read].
    destruct (_ =? "/srv/site/index.html")%string; [done|].
    by destruct (String.eqb_spec ("/srv/site" +:+ r) "/etc/passwd").
  - split; [exact H1|]. apply H3. repeat (constructor; [unfold climbs; decide_closed|]). constructor.
Defined.
End Witnesses.
