(* ===== verification/Serve.v ===== *)
(** * [pulsate-http]: the request lifecycle

    [gateway.rs] and [serve.rs].  What requests share (limiters, cache stores,
    pools, metrics, the counter of identifiers, the log) is a [World] that
    [handle] threads; the gateway itself is immutable.  Other requests run while
    a handler awaits its client, a file or an upstream: what they do to the
    world meanwhile is the parameter [others].  The URI and the headers of a
    request are as the [http] crate parsed them, and the body is collected by
    [Limited] of [http_body_util], a parameter; the clock readings of one
    request are a record. *)

From Stdlib Require Import ZArith Ascii String Lia.
From stdpp Require Import base option list gmap strings.
From S2P Require Import Prelude RustStr RustNet CoreTypes UtilParse Http Message Waf Cache Pipeline Router Proxy Observe Handlers.
Local Open Scope string_scope.
Local Open Scope list_scope.
Local Open Scope Z_scope.

Module Serve.

(** ** The gateway *)
Record Gateway := mk_gateway {
  router : Router.Router;
  alt_svc : option string;
  max_request_body_bytes : Z;
}.

Definition DEFAULT_MAX_REQUEST_BODY_BYTES : Z := Z.shiftl 64 20.

Definition gateway_new (r : Router.Router) : Gateway := mk_gateway r None DEFAULT_MAX_REQUEST_BODY_BYTES.
Definition with_alt_svc (alt_svc : option string) (g : Gateway) : Gateway :=
  mk_gateway (router g) alt_svc (max_request_body_bytes g).
Definition with_max_request_body_bytes (max : Z) (g : Gateway) : Gateway := mk_gateway (router g) (alt_svc g) max.

(** What all requests share. *)
Record World := mk_world {
  w_limiters : limiters;
  w_stores : gmap nat Cache.Inner;
  w_upstreams : Proxy.Registry;
  w_counter : Z;
  w_telemetry : Metrics.Telemetry;
  w_log : list string;
}.

Definition set_limiters (ls : limiters) (w : World) : World :=
  mk_world ls (w_stores w) (w_upstreams w) (w_counter w) (w_telemetry w) (w_log w).
Definition set_store (a : nat) (i : Cache.Inner) (w : World) : World :=
  mk_world (w_limiters w) (<[a := i]> (w_stores w)) (w_upstreams w) (w_counter w) (w_telemetry w) (w_log w).
Definition set_pool (name : string) (u : Proxy.Upstream) (w : World) : World :=
  mk_world (w_limiters w) (w_stores w) (Proxy.mk_registry (<[name := u]> (Proxy.reg_map (w_upstreams w))))
    (w_counter w) (w_telemetry w) (w_log w).

(** The clock, as one request reads it. *)
Record Readings := mk_readings {
  at_id : Z;                   (* [now_ms] for the identifier *)
  at_ingress : nat -> Z;       (* each limiter check *)
  at_lookup : Z;
  at_pick : nat -> nat -> Z;   (* each try, each target *)
  at_fail : nat -> Z;
  at_store : Z;
  elapsed : Duration;
  at_log : Z;
}.

Section Serve.
Context `{HeaderOps}.

(** [http::request::Parts]. *)
Record Parts := mk_parts {
  p_method : string;
  p_path : string;
  p_query : option string;
  p_authority : option string;
  p_headers : HeaderMap;
}.

(** ** Responses *)
Definition set_header (name value : string) (resp : Response) : Response := headers_mut (insert_str name value) resp.

Definition text_plain (resp : Response) : Response :=
  headers_mut (hm_insert "content-type" (value_from_static "text/plain; charset=utf-8")) resp.

Definition not_found : Response := with_body (text_plain (response_new 404)) "no route matched".
Definition payload_too_large : Response := with_body (text_plain (response_new 413)) "request body too large".

Definition body_bytes (b : Body) : string := match b with BodyBytes b => b | BodyEmpty => "" end.

(** The hyper response; its header map is filled with [insert]. *)
Record HyperResponse := mk_hyper { hyper_status : Z; hyper_headers : HeaderMap; hyper_body : string }.

Definition to_hyper (resp : Response) : HyperResponse :=
  mk_hyper (resp_status resp)
    (foldl (fun h x => hm_insert x.1 x.2 h) hm_empty (hm_iter (resp_headers resp)))
    (body_bytes (resp_body resp)).

(** ** The request *)
Definition request_host (parts : Parts) : string :=
  match get_str (p_headers parts) "host" with
  | Some h => h
  | None => default "" (p_authority parts)
  end.

(** [%XX] and [+]; a percent sign not followed by two digits stays. *)
Fixpoint percent_decode_bytes (bs : list ascii) : list ascii :=
  match bs with
  | [] => []
  | b :: rest =>
    let plain := if Ascii.eqb b "+" then " "%char else b in
    if Ascii.eqb b "%" then
      match rest with
      | hi :: lo :: rest' =>
        match to_digit16 hi, to_digit16 lo with
        | Some h, Some l => byte_of (h * 16 + l) :: percent_decode_bytes rest'
        | _, _ => plain :: percent_decode_bytes rest
        end
      | _ => plain :: percent_decode_bytes rest
      end
    else plain :: percent_decode_bytes rest
  end.

Definition percent_decode (s : string) : string := from_utf8_lossy (percent_decode_bytes (bytes_of s)).

(** A path with its query. *)
Definition with_query (path : string) (query : option string) : string :=
  match query with Some q => path +:+ "?" +:+ q | None => path end.

(** ** The cache *)

(** [HashMap::iter] of a cache store. *)
Variable iter : gmap string Cache.Entry -> list (string * Cache.Entry).

(** The headers of a hit, as they are put back. *)
Definition insert_hit_header (h : HeaderMap) (x : string * string) : HeaderMap :=
  match name_try_from x.1, value_from_str x.2 with
  | Some n, Some v => hm_insert n v h
  | _, _ => h
  end.

Definition hit_response (hit : Cache.Hit) : Response :=
  let resp := headers_mut (fun h => foldl insert_hit_header h (Cache.hit_headers hit)) (response_new (Cache.hit_status hit)) in
  let resp := set_header "age" (show_u (Cache.age_secs hit)) resp in
  let state := match Cache.freshness hit with Cache.Stale => "STALE" | Cache.Fresh => "HIT" end in
  with_body (set_header "x-cache" state resp) (str_of (Cache.hit_body hit)).

Definition cache_lookup (now : Z) (route : Router.Route) (method host target : string) (req : HeaderMap) (w : World)
    : exec () (option Response * World) :=
  match Router.cache route with
  | None => Ok (None, w)
  | Some layer =>
    let config := Router.layer_config layer in
    if negb (Cache.request_allows_cache config method req) then Ok (None, w)
    else
      match w_stores w !! Router.layer_store layer with
      | None => Panic (* no such store: excluded by the [Arc] *)
      | Some store =>
        let key := Cache.key config method host target req in
        '(hit, store') ← Cache.lookup now key store;
        Ok (fmap (M:=option) hit_response hit, set_store (Router.layer_store layer) store' w)
      end
  end.

Definition cache_store (now : Z) (route : Router.Route) (method host target : string) (req : HeaderMap)
    (resp : Response) (w : World) : exec () (Response * World) :=
  match Router.cache route with
  | None => Ok (resp, w)
  | Some layer =>
    let config := Router.layer_config layer in
    if negb (Cache.request_allows_cache config method req) then Ok (set_header "x-cache" "BYPASS" resp, w)
    else
      match w_stores w !! Router.layer_store layer with
      | None => Panic
      | Some store =>
        let key := Cache.key config method host target req in
        '(stored, store') ← Cache.maybe_store config iter now key (resp_status resp) (resp_headers resp)
                              (bytes_of (body_bytes (resp_body resp))) store;
        Ok (set_header "x-cache" (if (stored : bool) then "MISS" else "BYPASS") resp,
            set_store (Router.layer_store layer) store' w)
      end
  end.

(** ** Dispatch *)
Variable hash_ip : option IpAddr -> Z.
Variable instant_max : Z.
Variable parse_uri : string -> option string.
Variable send : nat -> Proxy.OutRequest -> Proxy.Upstream -> option Proxy.UpResponse * Proxy.Upstream.
Variable fs : Handlers.FileSystem.
Variable others : World -> World.

(** The pool of a direct [proxy(http://host:port)]. *)
Definition direct_pool (url : string) : Proxy.Upstream :=
  Proxy.upstream_new "_direct" [(url, 1)] Proxy.RoundRobin Proxy.retry_default Proxy.breaker_default.

(** The response, the number of requests sent upstream, and the world. *)
Definition proxy (now : Readings) (upstream target : option string) (method path_and_query : string)
    (headers : HeaderMap) (body : string) (peer : IpAddr) (host : string) (w : World)
    : exec () (Response * nat * World) :=
  let forward :=
    Proxy.forward hash_ip instant_max parse_uri send (at_pick now) (at_fail now) method path_and_query headers body
      (Some peer) host in
  match upstream, target with
  | Some name, _ =>
    match Proxy.registry_get name (w_upstreams w) with
    | Some up =>
      '(resp, sent, up') ← forward up;
      Ok (resp, sent, set_pool name up' w)
    | None => Ok (with_body (response_new 502) "upstream not found", O, w)
    end
  | None, Some url =>
    '(resp, sent, _) ← forward (direct_pool url);
    Ok (resp, sent, w)
  | None, None => Ok (with_body (response_new 502) "upstream not found", O, w)
  end.

(** The body of a request as it arrives, and [Limited::new(body, cap)]
    collected: the bytes, or an error. *)
Variable Incoming : Type.
Variable collect_limited : Z -> Incoming -> option string.

Variable show_f64_3 : f64 -> string.

(** Run the terminal handler of a route. *)
Definition run_handler (now : Readings) (gateway : Gateway) (handler : Router.Handler) (method eff_path eff_pq : string)
    (headers : HeaderMap) (body : Incoming) (peer : IpAddr) (host : string) (w : World)
    : exec () (Response * nat * World) :=
  match handler with
  | Router.Proxy upstream target =>
    match collect_limited (max_request_body_bytes gateway) body with
    | None => Ok (payload_too_large, O, w)
    | Some bytes => proxy now upstream target method eff_pq headers bytes peer host w
    end
  | other => Ok (Handlers.execute fs other eff_path, O, w)
  end.

(** Stamp the identifier, advertise HTTP/3, record the metrics, log. *)
Definition finalize (now : Readings) (gateway : Gateway) (rid method host path : string) (resp : Response) (w : World)
    : exec () (Response * World) :=
  let resp := set_header "x-request-id" rid resp in
  let resp := match alt_svc gateway with Some alt => set_header "alt-svc" alt resp | None => resp end in
  let bytes := Z.of_nat (default O (body_len_hint (resp_body resp))) in
  telemetry ← Metrics.record_request method (resp_status resp) (as_secs_f64 (elapsed now)) (w_telemetry w);
  let line := Log.to_json show_f64_3
    (Log.mk_log (at_log now) method host path (resp_status resp) (f64_mul (as_secs_f64 (elapsed now)) (f64_of_Z 1000))
       rid bytes) in
  Ok (resp, mk_world (w_limiters w) (w_stores w) (w_upstreams w) (w_counter w) telemetry (w_log w ++ [line])).

(** The part between the request and its finalization. *)
Definition respond_to (now : Readings) (gateway : Gateway) (parts : Parts) (body : Incoming) (peer : IpAddr) (w : World)
    : exec () (Response * nat * World) :=
  let host := request_host parts in
  let path := p_path parts in
  let full_target := with_query path (p_query parts) in
  let method := p_method parts in
  let origin := get_str (p_headers parts) "origin" in
  match Router.route (router gateway) host path method with
  | None => Ok (not_found, O, w)
  | Some route =>
    let view := mk_view method path (percent_decode full_target) origin (Some peer) in
    '(short, view, ls) ← ingress (at_ingress now) (Router.middleware route) view (w_limiters w);
    let w := set_limiters ls w in
    match short with
    | Some short => Ok (short, O, w)
    | None =>
      '(hit, w) ← cache_lookup (at_lookup now) route method host full_target (p_headers parts) w;
      match hit with
      | Some hit => Ok (hit, O, w)
      | None =>
        let eff_path := Pipeline.path view in
        let eff_pq := with_query eff_path (p_query parts) in
        '(resp, sent, w) ← run_handler now gateway (Router.handler route) method eff_path eff_pq (p_headers parts)
                            body peer host w;
        let w := others w in
        let resp := egress (Router.middleware route) origin resp in
        '(resp, w) ← cache_store (at_store now) route method host full_target (p_headers parts) resp w;
        Ok (resp, sent, w)
      end
    end
  end.

(** One request: its response, the requests it sent upstream, the world. *)
Definition handle (now : Readings) (gateway : Gateway) (parts : Parts) (body : Incoming) (peer : IpAddr) (w : World)
    : exec () (HyperResponse * nat * World) :=
  let '(rid, counter) := Ids.request_id (at_id now) (w_counter w) in
  let w := mk_world (w_limiters w) (w_stores w) (w_upstreams w) counter (w_telemetry w) (w_log w) in
  '(resp, sent, w) ← respond_to now gateway parts body peer w;
  '(resp, w) ← finalize now gateway rid (p_method parts) (request_host parts) (p_path parts) resp w;
  Ok (to_hyper resp, sent, w).
End Serve.
End Serve.
