(* ===== verification/Http3.v ===== *)
(** * [pulsate-http3]: the same lifecycle over QUIC

    [lib.rs] and [dispatch.rs].  The crate repeats the orchestration of
    [pulsate-http] function by function against the same building blocks, and
    so does this file; the state, the requests and the parameters are those of
    [Serve].  The body of a request arrives collected. *)

From Stdlib Require Import ZArith Ascii String Lia.
From stdpp Require Import base option list gmap strings.
From S2P Require Import Prelude RustStr RustNet CoreTypes UtilParse Http Message Waf Cache Pipeline Router Proxy FlowLexer Observe Handlers Serve.
Import Serve.
Local Open Scope string_scope.
Local Open Scope list_scope.
Local Open Scope Z_scope.

Module Http3.

(** ** Discovery *)
Record Http3Config := mk_http3 { enabled : bool; port : Z; max_age_secs : Z }.

Definition http3_default : Http3Config := mk_http3 false 443 86400.
Definition http3_enabled (port : Z) : Http3Config := mk_http3 true port (max_age_secs http3_default).

(** The [Alt-Svc] value of an enabled endpoint. *)
Definition alt_svc_value (c : Http3Config) : option string :=
  if enabled c then
    Some ("h3=" +:+ String dquote (":" +:+ show_u (port c) +:+ String dquote ("; ma=" +:+ show_u (max_age_secs c))))
  else None.

Section Dispatch.
Context `{HeaderOps}.

(** ** Helpers *)
Definition set_header (name value : string) (resp : Response) : Response := headers_mut (insert_str name value) resp.

Definition not_found : Response := with_body (headers_mut (hm_insert "content-type" (value_from_static "text/plain; charset=utf-8")) (response_new 404))
    "no route matched".

Definition request_host (parts : Parts) : string :=
  match get_str (p_headers parts) "host" with
  | Some h => h
  | None => default "" (p_authority parts)
  end.

(** [%XX] and [+]; a percent sign not followed by two digits stays. *)
Fixpoint percent_decode_bytes (bs : list ascii) : list ascii :=
  match bs with
  | [] => []
  | b :: rest =>
    let plain := if Ascii.eqb b "+" then " "%char else b in
    if Ascii.eqb b "%" then
      match rest with
      | hi :: lo :: rest' =>
        match to_digit16 hi, to_digit16 lo with
        | Some h, Some l => byte_of (h * 16 + l) :: percent_decode_bytes rest'
        | _, _ => plain :: percent_decode_bytes rest
        end
      | _ => plain :: percent_decode_bytes rest
      end
    else plain :: percent_decode_bytes rest
  end.

Definition percent_decode (s : string) : string := from_utf8_lossy (percent_decode_bytes (bytes_of s)).

(** ** The cache *)
Variable iter : gmap string Cache.Entry -> list (string * Cache.Entry).

Definition hit_response (hit : Cache.Hit) : Response :=
  let resp := headers_mut (fun h => foldl insert_hit_header h (Cache.hit_headers hit)) (response_new (Cache.hit_status hit)) in
  let resp := set_header "age" (show_u (Cache.age_secs hit)) resp in
  let state := match Cache.freshness hit with Cache.Stale => "STALE" | Cache.Fresh => "HIT" end in
  with_body (set_header "x-cache" state resp) (str_of (Cache.hit_body hit)).

Definition cache_lookup (now : Z) (route : Router.Route) (method host target : string) (req : HeaderMap) (w : World)
    : exec () (option Response * World) :=
  match Router.cache route with
  | None => Ok (None, w)
  | Some layer =>
    let config := Router.layer_config layer in
    if negb (Cache.request_allows_cache config method req) then Ok (None, w)
    else
      match w_stores w !! Router.layer_store layer with
      | None => Panic (* no such store: excluded by the [Arc] *)
      | Some store =>
        let key := Cache.key config method host target req in
        '(hit, store') ← Cache.lookup now key store;
        Ok (fmap (M:=option) hit_response hit, set_store (Router.layer_store layer) store' w)
      end
  end.

Definition cache_store (now : Z) (route : Router.Route) (method host target : string) (req : HeaderMap)
    (resp : Response) (w : World) : exec () (Response * World) :=
  match Router.cache route with
  | None => Ok (resp, w)
  | Some layer =>
    let config := Router.layer_config layer in
    if negb (Cache.request_allows_cache config method req) then Ok (set_header "x-cache" "BYPASS" resp, w)
    else
      match w_stores w !! Router.layer_store layer with
      | None => Panic
      | Some store =>
        let key := Cache.key config method host target req in
        '(stored, store') ← Cache.maybe_store config iter now key (resp_status resp) (resp_headers resp)
                              (bytes_of (body_bytes (resp_body resp))) store;
        Ok (set_header "x-cache" (if (stored : bool) then "MISS" else "BYPASS") resp,
            set_store (Router.layer_store layer) store' w)
      end
  end.

(** ** Dispatch *)
Variable hash_ip : option IpAddr -> Z.
Variable instant_max : Z.
Variable parse_uri : string -> option string.
Variable send : nat -> Proxy.OutRequest -> Proxy.Upstream -> option Proxy.UpResponse * Proxy.Upstream.
Variable fs : Handlers.FileSystem.
Variable others : World -> World.
Variable show_f64_3 : f64 -> string.

(** The pool of a direct [proxy(http://host:port)]. *)
Definition direct_pool (url : string) : Proxy.Upstream :=
  Proxy.upstream_new "_direct" [(url, 1)] Proxy.RoundRobin Proxy.retry_default Proxy.breaker_default.

(** The response, the number of requests sent upstream, and the world. *)
Definition proxy (now : Readings) (upstream target : option string) (method path_and_query : string)
    (headers : HeaderMap) (body : string) (peer : IpAddr) (host : string) (w : World)
    : exec () (Response * nat * World) :=
  let forward :=
    Proxy.forward hash_ip instant_max parse_uri send (at_pick now) (at_fail now) method path_and_query headers body
      (Some peer) host in
  match upstream, target with
  | Some name, _ =>
    match Proxy.registry_get name (w_upstreams w) with
    | Some up =>
      '(resp, sent, up') ← forward up;
      Ok (resp, sent, set_pool name up' w)
    | None => Ok (with_body (response_new 502) "upstream not found", O, w)
    end
  | None, Some url =>
    '(resp, sent, _) ← forward (direct_pool url);
    Ok (resp, sent, w)
  | None, None => Ok (with_body (response_new 502) "upstream not found", O, w)
  end.

(** One request: its response, the requests it sent upstream, the world. *)
Definition dispatch (now : Readings) (gateway : Gateway) (parts : Parts) (body : string) (peer : IpAddr) (w : World)
    : exec () (Response * nat * World) :=
  let '(rid, counter) := Ids.request_id (at_id now) (w_counter w) in
  let w := mk_world (w_limiters w) (w_stores w) (w_upstreams w) counter (w_telemetry w) (w_log w) in
  let host := request_host parts in
  let path := p_path parts in
  let query := p_query parts in
  let full_target := match query with Some q => path +:+ "?" +:+ q | None => path end in
  let method := p_method parts in
  let origin := get_str (p_headers parts) "origin" in
  '(response, sent, w) ←
    match Router.route (router gateway) host path method with
    | None => Ok (not_found, O, w)
    | Some route =>
      let view := mk_view method path (percent_decode full_target) origin (Some peer) in
      '(short, view, ls) ← ingress (at_ingress now) (Router.middleware route) view (w_limiters w);
      let w := set_limiters ls w in
      match short with
      | Some short => Ok (short, O, w)
      | None =>
        '(hit, w) ← cache_lookup (at_lookup now) route method host full_target (p_headers parts) w;
        match hit with
        | Some hit => Ok (hit, O, w)
        | None =>
          let eff_path := Pipeline.path view in
          let eff_pq := match query with Some q => eff_path +:+ "?" +:+ q | None => eff_path end in
          '(resp, sent, w) ←
            match Router.handler route with
            | Router.Proxy upstream target =>
              proxy now upstream target method eff_pq (p_headers parts) body peer host w
            | other => Ok (Handlers.execute fs other eff_path, O, w)
            end;
          let w := others w in
          let resp := egress (Router.middleware route) origin resp in
          '(resp, w) ← cache_store (at_store now) route method host full_target (p_headers parts) resp w;
          Ok (resp, sent, w)
        end
      end
    end;
  let response := set_header "x-request-id" rid response in
  let response := match alt_svc gateway with Some alt => set_header "alt-svc" alt response | None => response end in
  let status := resp_status response in
  let bytes := Z.of_nat (default O (body_len_hint (resp_body response))) in
  let dur := as_secs_f64 (elapsed now) in
  telemetry ← Metrics.record_request method status dur (w_telemetry w);
  let line := Log.to_json show_f64_3
    (Log.mk_log (at_log now) method host path status (f64_mul dur (f64_of_Z 1000)) rid bytes) in
  Ok (response, sent,
      mk_world (w_limiters w) (w_stores w) (w_upstreams w) (w_counter w) telemetry (w_log w ++ [line])).
End Dispatch.
End Http3.
