(* ===== verification/Http3Server.v ===== *)
(** * [pulsate-http3]: the QUIC listener

    [server.rs].  quinn and h3 are parameters: what a request stream yields and
    accepts, what a connection accepts, whether a value fits a QUIC limit.
    [handle_request] reads one request and answers it through
    [Http3.dispatch]; [Connection] is the loop of one connection and
    [Listener] the loop of the endpoint, each a state machine over its polls. *)

From Stdlib Require Import ZArith Ascii String Lia.
From stdpp Require Import base option list gmap strings.
From S2P Require Import Prelude RustStr RustNet CoreTypes UtilParse Http Message Waf Cache Pipeline Router Proxy Observe Handlers Serve Http3.
Import Serve.
Local Open Scope string_scope.
Local Open Scope list_scope.
Local Open Scope Z_scope.

Module Http3Server.

Definition H3_NO_ERROR : Z := 256.
Definition CONNECTION_SPECIFIC : list string :=
  ["connection"; "keep-alive"; "proxy-connection"; "transfer-encoding"; "upgrade"].

(** ** Binding *)
Record TransportConfig := mk_transport {
  max_idle_timeout : Z;              (* ms *)
  max_concurrent_bidi_streams : Z;
  max_concurrent_uni_streams : Z;
  drain_timeout : Z                  (* ms *)
}.
Definition transport_default : TransportConfig := mk_transport 30000 100 100 10000.

Inductive Http3Error := Crypto (e : string) | Transport (e : string) | Io (e : string).
Definition http3_error_display (e : Http3Error) : string :=
  match e with
  | Crypto e => "http3 quic crypto: " +:+ e
  | Transport e => "http3 transport config: " +:+ e
  | Io e => "http3 bind: " +:+ e
  end.
Definition http3_error_source (e : Http3Error) : option string :=
  match e with Io e => Some e | Crypto _ | Transport _ => None end.

(** The settings quinn and rustls are given. *)
Record QuinnTransport := mk_quinn { idle : Z; bidi_streams : Z; uni_streams : Z }.
Record RustlsConfig := mk_rustls { tls13_only : bool; alpn_protocols : list string; max_early_data_size : Z }.

Section Bind.
(** [IdleTimeout::try_from], rustls's protocol versions, the conversion of its
    configuration for QUIC, and the socket; each fails with a text. *)
Variable idle_timeout : Z -> string + Z.
Variable protocol_versions : option string.
Variable quic_crypto : RustlsConfig -> option string.
Variable endpoint_server : RustlsConfig -> QuinnTransport -> option string.

Definition build_transport (cfg : TransportConfig) : Http3Error + QuinnTransport :=
  match idle_timeout (max_idle_timeout cfg) with
  | inl e => inl (Transport ("max_idle_timeout: " +:+ e))
  | inr idle => inr (mk_quinn idle (max_concurrent_bidi_streams cfg) (max_concurrent_uni_streams cfg))
  end.

Definition server_crypto : Http3Error + RustlsConfig :=
  match protocol_versions with
  | Some e => inl (Crypto ("tls 1.3 setup: " +:+ e))
  | None => inr (mk_rustls true ["h3"] 0)
  end.

Definition h3_bind (transport : TransportConfig) : Http3Error + (RustlsConfig * QuinnTransport) :=
  match server_crypto with
  | inl e => inl e
  | inr crypto =>
    match quic_crypto crypto with
    | Some e => inl (Crypto e)
    | None =>
      match build_transport transport with
      | inl e => inl e
      | inr t =>
        match endpoint_server crypto t with
        | Some e => inl (Io e)
        | None => inr (crypto, t)
        end
      end
    end
  end.
End Bind.

(** ** Responses *)
Section Request.
Context `{HeaderOps}.

Definition h3_payload_too_large : Response :=
  with_body (headers_mut (hm_insert "content-type" (value_from_static "text/plain; charset=utf-8")) (response_new 413))
    "request body too large".

(** The head of an HTTP/3 response. *)
Record Head := mk_head { head_status : Z; head_headers : HeaderMap }.

Definition insert_framed (h : HeaderMap) (x : string * HeaderValue) : HeaderMap :=
  if bool_decide (x.1 ∈ CONNECTION_SPECIFIC) then h else hm_insert x.1 x.2 h.

Definition translate (response : Response) : Head * string :=
  let body := body_bytes (resp_body response) in
  let headers := foldl insert_framed hm_empty (hm_iter (resp_headers response)) in
  let headers :=
    if hm_contains_key headers "content-length" then headers
    else match value_from_str (show_u (Z.of_nat (String.length body))) with
         | Some value => hm_insert "content-length" value headers
         | None => headers
         end in
  (mk_head (resp_status response) headers, body).

(** ** One request *)

(** What the stream yields before its end, and what it is sent. *)
Inductive Recv := Data (chunk : string) | RecvError.
Inductive Sent := SendResponse (head : Head) | SendData (payload : string) | Finish.

(** [None] when the stream fails, [Some None] past the cap. *)
Fixpoint read_body (max_body : Z) (body : string) (stream : list Recv) : option (option string) :=
  match stream with
  | [] => Some (Some body)
  | RecvError :: _ => None
  | Data data :: stream =>
    if max_body <? Z.min u64_max (Z.of_nat (String.length body) + Z.of_nat (String.length data)) then Some None
    else read_body max_body (body +:+ data) stream
  end.

Definition frames (r : Head * string) : list Sent :=
  SendResponse r.1 :: (if (r.2 =? "")%string then [] else [SendData r.2]) ++ [Finish].

(** Sends in order, the first refused one ends the request; [accepts k] is
    whether the stream takes the [k]-th. *)
Fixpoint send_frames (accepts : nat -> bool) (k : nat) (l : list Sent) : list Sent * bool :=
  match l with
  | [] => ([], true)
  | x :: l => if accepts k then let '(sent, ok) := send_frames accepts (S k) l in (x :: sent, ok) else ([], false)
  end.

Variable iter : gmap string Cache.Entry -> list (string * Cache.Entry).
Variable hash_ip : option IpAddr -> Z.
Variable instant_max : Z.
Variable parse_uri : string -> option string.
Variable send : nat -> Proxy.OutRequest -> Proxy.Upstream -> option Proxy.UpResponse * Proxy.Upstream.
Variable fs : Handlers.FileSystem.
Variable others : World -> World.
Variable show_f64_3 : f64 -> string.

(** The frames that were sent, whether the request ended well, the requests sent
    upstream and the world; [request] is [None] when it does not resolve. *)
Definition handle_request (now : Readings) (gateway : Gateway) (request : option Parts) (stream : list Recv)
    (accepts : nat -> bool) (peer : IpAddr) (w : World) : exec () (list Sent * bool * nat * World) :=
  match request with
  | None => Ok ([], false, O, w)
  | Some parts =>
    match read_body (max_request_body_bytes gateway) "" stream with
    | None => Ok ([], false, O, w)
    | Some None => Ok (send_frames accepts 0 (frames (translate h3_payload_too_large)), O, w)
    | Some (Some body) =>
      '(response, sent, w) ← Http3.dispatch iter hash_ip instant_max parse_uri send fs others show_f64_3
                               now gateway parts body peer w;
      Ok (send_frames accepts 0 (frames (translate response)), sent, w)
    end
  end.
End Request.

(** ** One connection *)
Module Connection.
(** The drain channel, as this connection has seen it. *)
Record Drain := mk_drain { value : bool; unseen : bool; closed : bool }.

Inductive ConnPhase := Serving | Closed.
Record ConnState := mk_state { phase : ConnPhase; draining : bool; goaways : nat; spawned : nat; drain : Drain }.

(** After the handshake; [goaway_ok] is whether [shutdown(0)] succeeds. *)
Definition conn_start (d : Drain) (goaway_ok : bool) : ConnState :=
  let d' := mk_drain (value d) false (closed d) in
  if value d then mk_state (if goaway_ok then Serving else Closed) true 1 0 d'
  else mk_state Serving false 0 0 d'.

(** What [accept] yields: a request, or the end of the connection. *)
Inductive Accept := Pending | Request_ | Ended.

Definition conn_poll (a : Accept) (goaway_ok : bool) (s : ConnState) : ConnState :=
  match phase s with
  | Closed => s
  | Serving =>
    match a with
    | Request_ => mk_state Serving (draining s) (goaways s) (S (spawned s)) (drain s)
    | Ended => mk_state Closed (draining s) (goaways s) (spawned s) (drain s)
    | Pending =>
      if draining s then s
      else if unseen (drain s) then
        mk_state (if goaway_ok then Serving else Closed) true (S (goaways s)) (spawned s)
          (mk_drain (value (drain s)) false (closed (drain s)))
      else if closed (drain s) then mk_state Closed true (goaways s) (spawned s) (drain s)
      else s
    end
  end.

Inductive ConnEvent := Poll (a : Accept) (goaway_ok : bool) | Drain_ | Gone.

(** The endpoint sends [true] once, and may be gone. *)
Definition conn_step (s : ConnState) (e : ConnEvent) : ConnState :=
  match e with
  | Poll a ok => conn_poll a ok s
  | Drain_ => mk_state (phase s) (draining s) (goaways s) (spawned s) (mk_drain true true (closed (drain s)))
  | Gone => mk_state (phase s) (draining s) (goaways s) (spawned s) (mk_drain (value (drain s)) (unseen (drain s)) true)
  end.
Definition conn_run : list ConnEvent -> ConnState -> ConnState := flip (foldl conn_step).
End Connection.

(** ** The endpoint *)
Module Listener.
Inductive EndpointPhase :=
| Accepting
| Draining (since : Z)     (* the drain flag is sent, waiting to be idle *)
| Closing                  (* force-closed with [H3_NO_ERROR], waiting to be idle *)
| Returned.

Record EndpointState := mk_state { phase : EndpointPhase; tasks : nat; drain_sent : bool; close_code : option Z; now : Z }.
Definition endpoint_start (t : Z) : EndpointState := mk_state Accepting 0 false None t.

(** [shutdown] is whether the shutdown future is ready, [accept] what the
    endpoint yields ([Some false]: it is closed), [idle] whether it has no
    connection left. *)
Definition endpoint_poll (cfg : TransportConfig) (shutdown : bool) (accept : option bool) (idle : bool) (s : EndpointState) : EndpointState :=
  match phase s with
  | Accepting =>
    let drain := mk_state (Draining (now s)) (tasks s) true (close_code s) (now s) in
    if shutdown then drain
    else match accept with
         | Some true => mk_state Accepting (S (tasks s)) (drain_sent s) (close_code s) (now s)
         | Some false => drain
         | None => s
         end
  | Draining since =>
    if idle then mk_state Returned (tasks s) (drain_sent s) (close_code s) (now s)
    else if since + drain_timeout cfg <=? now s
    then mk_state Closing (tasks s) (drain_sent s) (Some H3_NO_ERROR) (now s)
    else s
  | Closing => if idle then mk_state Returned (tasks s) (drain_sent s) (close_code s) (now s) else s
  | Returned => s
  end.

Inductive EndpointEvent := Poll (shutdown : bool) (accept : option bool) (idle : bool) | Tick (ms : N).
Definition endpoint_turn (cfg : TransportConfig) (s : EndpointState) (e : EndpointEvent) : EndpointState :=
  match e with
  | Poll shutdown accept idle => endpoint_poll cfg shutdown accept idle s
  | Tick ms => mk_state (phase s) (tasks s) (drain_sent s) (close_code s) (now s + Z.of_N ms)
  end.
Definition endpoint_turns (cfg : TransportConfig) : list EndpointEvent -> EndpointState -> EndpointState := flip (foldl (endpoint_turn cfg)).
End Listener.
End Http3Server.
