(* ===== verification/ServeProps.v ===== *)
(** * Properties of the request lifecycle

    Nothing reaches an upstream or the cache without a route and the consent of
    its middleware; every request is answered, stamped, counted and logged in
    every reachable world; HTTP/3 answers as HTTP/1 and HTTP/2 do; and the
    cache answers with what it was given. *)

From Stdlib Require Import ZArith Ascii String Lia.
From stdpp Require Import base option list gmap strings.
From S2P Require Import Prelude RustStr RustNet CoreTypes UtilParse Http Message Waf Cache CacheProps Pipeline PipelineProps Router RouterProps Proxy ProxyProps Observe ObserveProps Handlers Serve Http3.
Import Serve.
Local Open Scope string_scope.
Local Open Scope list_scope.
Local Open Scope Z_scope.

Section Hyper.
Context `{HeaderOps} `{!HeaderLaws}.

(** The hyper response has the last value of each name. *)
Lemma hyper_values resp n :
  hm_values (hyper_headers (to_hyper resp)) n = option_list (last (hm_values (resp_headers resp) n)).
Proof.
  cbn [to_hyper hyper_headers].
  assert (E : forall l out, foldl (fun h x => hm_insert x.1 x.2 h) out l = foldl (Proxy.copy_header []) out l).
  { induction l as [|x l IH]; intros out; [done|]. cbn [foldl]. rewrite IH. unfold Proxy.copy_header.
    by rewrite decide_False by set_solver. }
  rewrite E. change (hm_values (Proxy.copy_headers [] (resp_headers resp) hm_empty) n = option_list (last (hm_values (resp_headers resp) n))).
  rewrite copy_headers_values. by rewrite decide_False by set_solver.
Qed.

End Hyper.

Section Lifecycle.
Context `{HeaderOps}.
Variable iter : gmap string Cache.Entry -> list (string * Cache.Entry).
Variable hash_ip : option IpAddr -> Z.
Variable instant_max : Z.
Variable parse_uri : string -> option string.
Variable send : nat -> Proxy.OutRequest -> Proxy.Upstream -> option Proxy.UpResponse * Proxy.Upstream.
Variable fs : Handlers.FileSystem.
Variable others : World -> World.
Variable Incoming : Type.
Variable collect_limited : Z -> Incoming -> option string.
Variable show3 : f64 -> string.

Abbreviation handle := (Serve.handle iter hash_ip instant_max parse_uri send fs others Incoming collect_limited show3).
Abbreviation respond_to := (Serve.respond_to iter hash_ip instant_max parse_uri send fs others Incoming collect_limited).

(** ** What a request goes through *)

(** The route of a request, and what its ingress phase says in a world. *)
Definition route_of (gw : Gateway) (parts : Parts) : option Router.Route :=
  Router.route (router gw) (request_host parts) (p_path parts) (p_method parts).

Definition target_of (parts : Parts) : string := with_query (p_path parts) (p_query parts).

Definition ingress_of (now : Readings) (rt : Router.Route) (parts : Parts) (peer : IpAddr) (w : World) :=
  ingress (at_ingress now) (Router.middleware rt)
    (mk_view (p_method parts) (p_path parts) (percent_decode (target_of parts)) (get_str (p_headers parts) "origin")
       (Some peer)) (w_limiters w).

(** Every gate let the request through. *)
Definition admitted (now : Readings) (rt : Router.Route) (parts : Parts) (peer : IpAddr) (w : World) : Prop :=
  exists view ls, ingress_of now rt parts peer w = Ok (None, view, ls).

(** The world once the identifier is taken. *)
Definition stamped (now : Readings) (w : World) : World :=
  mk_world (w_limiters w) (w_stores w) (w_upstreams w) (Ids.request_id (at_id now) (w_counter w)).2
    (w_telemetry w) (w_log w).

(** What the cache answers after an ingress phase that left the limiters [ls]. *)
Definition cached (now : Readings) (rt : Router.Route) (parts : Parts) (ls : limiters) (w : World) :=
  cache_lookup (at_lookup now) rt (p_method parts) (request_host parts) (target_of parts) (p_headers parts)
    (set_limiters ls (stamped now w)).

(** Finalization only touches headers, metrics and log. *)
Lemma finalize_frame now gw rid m h p resp w resp' w' :
  finalize show3 now gw rid m h p resp w = Ok (resp', w') ->
  resp_status resp' = resp_status resp /\ resp_body resp' = resp_body resp
  /\ w_stores w' = w_stores w /\ w_upstreams w' = w_upstreams w /\ w_limiters w' = w_limiters w.
Proof.
  unfold finalize. intros (t & _ & [= <- <-])%bind_Ok. destruct (alt_svc gw); done.
Qed.

(** The cache stage leaves the pools alone. *)
Lemma cache_lookup_frame now rt m h t req w r w' :
  cache_lookup now rt m h t req w = Ok (r, w') -> w_upstreams w' = w_upstreams w.
Proof.
  unfold cache_lookup. destruct (Router.cache rt) as [layer|]; [|by intros [= _ <-]].
  destruct (negb _); [by intros [= _ <-]|]. destruct (w_stores w !! _); [|done].
  intros ([hit st] & _ & [= _ <-])%bind_Ok. done.
Qed.

(** The stages a request went through, from what [respond_to] returned. *)
Lemma respond_stages now gw parts body peer w r n w' :
  respond_to now gw parts body peer w = Ok (r, n, w') ->
  match route_of gw parts with
  | None => r = not_found /\ n = O /\ w' = w
  | Some rt => exists short view ls, ingress_of now rt parts peer w = Ok (short, view, ls) /\
    match short with
    | Some s => r = s /\ n = O /\ w' = set_limiters ls w
    | None => exists hit w1,
        cache_lookup (at_lookup now) rt (p_method parts) (request_host parts) (target_of parts) (p_headers parts)
          (set_limiters ls w) = Ok (hit, w1) /\
        match hit with
        | Some h => r = h /\ n = O /\ w' = w1
        | None => exists resp w2,
            run_handler hash_ip instant_max parse_uri send fs Incoming collect_limited now gw (Router.handler rt)
              (p_method parts) (Pipeline.path view) (with_query (Pipeline.path view) (p_query parts)) (p_headers parts)
              body peer (request_host parts) w1 = Ok (resp, n, w2)
            /\ cache_store iter (at_store now) rt (p_method parts) (request_host parts) (target_of parts) (p_headers parts)
                 (egress (Router.middleware rt) (get_str (p_headers parts) "origin") resp) (others w2) = Ok (r, w')
        end
    end
  end.
Proof.
  unfold respond_to. fold (route_of gw parts). fold (target_of parts).
  destruct (route_of gw parts) as [rt|]; [|by intros [= <- <- <-]].
  intros ([[short view] ls] & Hi & Hrun)%bind_Ok. exists short, view, ls. split; [exact Hi|].
  destruct short as [s|]; [by injection Hrun as <- <- <-|].
  apply bind_Ok in Hrun as ([hit w1] & Hl & Hrun). exists hit, w1. split; [exact Hl|].
  destruct hit as [h|]; [by injection Hrun as <- <- <-|].
  apply bind_Ok in Hrun as ([[resp k] w2] & Hh & Hrun). apply bind_Ok in Hrun as ([r' w3] & Hs & [= <- <- <-]).
  by exists resp, w2.
Qed.

(** C9. No request gets past its gates.  A request is forwarded upstream only
    if a proxy route matched it, every middleware of that route admitted it,
    and its body was within the limit; the shared caches and pools change only
    for an admitted request; without a route the answer is 404; a request that a
    middleware refuses gets that middleware's response and leaves caches and
    pools as they were; and a request the cache answers gets that answer and is
    not forwarded. *)
Theorem handle_gated (now : Readings) (gw : Gateway) (parts : Parts) (body : Incoming) (peer : IpAddr) (w : World)
    (resp : HyperResponse) (sent : nat) (w' : World)
    (Hrun : handle now gw parts body peer w = Ok (resp, sent, w')) :
  (sent <> O -> exists rt up t bytes, route_of gw parts = Some rt /\ Router.handler rt = Router.Proxy up t
     /\ admitted now rt parts peer w /\ collect_limited (max_request_body_bytes gw) body = Some bytes)
  /\ (w_stores w' <> w_stores w \/ w_upstreams w' <> w_upstreams w ->
      exists rt, route_of gw parts = Some rt /\ admitted now rt parts peer w)
  /\ (route_of gw parts = None -> hyper_status resp = 404)
  /\ (forall rt r view ls, route_of gw parts = Some rt -> ingress_of now rt parts peer w = Ok (Some r, view, ls) ->
        hyper_status resp = resp_status r /\ hyper_body resp = body_bytes (resp_body r) /\ w_limiters w' = ls)
  /\ (forall rt view ls hit w1, route_of gw parts = Some rt ->
        ingress_of now rt parts peer w = Ok (None, view, ls) -> cached now rt parts ls w = Ok (Some hit, w1) ->
        hyper_status resp = resp_status hit /\ hyper_body resp = body_bytes (resp_body hit)
        /\ sent = O /\ w_upstreams w' = w_upstreams w).
Proof.
  unfold handle in Hrun. destruct (Ids.request_id _ _) as [rid counter] eqn:Eid.
  replace counter with (Ids.request_id (at_id now) (w_counter w)).2 in Hrun by by rewrite Eid.
  fold (stamped now w) in Hrun.
  apply bind_Ok in Hrun as ([[r0 n] w1] & Hresp & Hrun). apply bind_Ok in Hrun as ([r1 w2] & Hfin & [= <- <- <-]).
  apply finalize_frame in Hfin as (Hst & Hb & Hs & Hu & Hl). cbn [to_hyper hyper_status hyper_body]. rewrite Hst, Hb, Hs, Hu, Hl.
  clear r1 w2 Hst Hb Hs Hu Hl. apply respond_stages in Hresp.
  destruct (route_of gw parts) as [rt|] eqn:Ert.
  2:{ destruct Hresp as (-> & -> & ->). split_and!; [done|by intros [?|?]|done..]. }
  destruct Hresp as (short & view & ls & Hing & Hresp). change (ingress_of now rt parts peer w = Ok (short, view, ls)) in Hing.
  destruct short as [r|].
  { destruct Hresp as (-> & -> & ->).
    split_and!; [done|by intros [?|?]|done|intros ? ? ? ? [= <-] Hi|intros ? ? ? ? ? [= <-] Hi];
      rewrite Hi in Hing; [by simplify_eq|done]. }
  assert (Hadm : admitted now rt parts peer w) by (by eexists _, _).
  destruct Hresp as (hit & w3 & Hlk & Hresp). fold (cached now rt parts ls w) in Hlk. destruct hit as [hit|].
  { destruct Hresp as (-> & -> & ->). split_and!; [done|intros _; by exists rt|done|intros ? ? ? ? [= <-] Hi; by rewrite Hi in Hing|].
    intros ? ? ? ? ? [= <-] Hi Hc. rewrite Hi in Hing. simplify_eq. rewrite Hc in Hlk. simplify_eq.
    split_and!; [done..|]. by apply cache_lookup_frame in Hc. }
  destruct Hresp as (r2 & w4 & Hh & _).
  split_and!; [|intros _; by exists rt|done|intros ? ? ? ? [= <-] Hi; by rewrite Hi in Hing|].
  2:{ intros ? ? ? ? ? [= <-] Hi Hc. rewrite Hi in Hing. simplify_eq. by rewrite Hc in Hlk. }
  intros Hn. unfold run_handler in Hh. destruct (Router.handler rt) as [root tf|s b|to s|up t|nm] eqn:Eh;
    try (injection Hh as _ <- _; done).
  destruct (collect_limited _ body) as [bytes|] eqn:Ec; [|injection Hh as _ <- _; done].
  by exists rt, up, t, bytes.
Qed.

(** ** Every request is answered *)
Variable configs : nat -> Cache.CacheConfig.

Definition routes_of (gw : Gateway) (rt : Router.Route) : Prop :=
  exists site, site ∈ Router.sites (router gw) /\ rt ∈ Router.routes site.

Lemma route_of_elem gw parts rt : route_of gw parts = Some rt -> routes_of gw rt.
Proof.
  unfold route_of, Router.route. intros Hr.
  pose proof (best_by_spec (fun s => Router.host_score s (Router.host_without_port (request_host parts)))
                (Router.sites (router gw))) as Hs.
  destruct (Router.best_by _ (Router.sites (router gw))) as [site|]; [|done]. simpl in Hr.
  pose proof (best_by_spec (fun rt => Router.score rt (p_path parts) (p_method parts)) (Router.routes site)) as Hb.
  rewrite Hr in Hb. exists site. split; by eapply is_best_elem.
Qed.

(** A world fits a gateway: the limiters and the stores its routes refer to
    exist, a store is used with one configuration and is sound for it, the
    in-flight counters are in range, and the histogram has its buckets. *)
Record serve_ok (gw : Gateway) (w : World) : Prop := {
  ok_limiters rt mw id : routes_of gw rt -> mw ∈ Router.middleware rt -> limiter_of mw = Some id ->
    is_Some (w_limiters w !! id);
  ok_layers rt layer : routes_of gw rt -> Router.cache rt = Some layer ->
    Router.layer_config layer = configs (Router.layer_store layer)
    /\ is_Some (w_stores w !! Router.layer_store layer);
  ok_stores a i : w_stores w !! a = Some i -> store_ok (configs a) i;
  ok_pools name u : Proxy.registry_get name (w_upstreams w) = Some u -> Forall (fun z => 0 <= z < u64_max) (loads u);
  ok_histogram : let h := Metrics.request_duration (w_telemetry w) in
    length (Metrics.bucket_counts (Metrics.h_state h)) = length (Metrics.buckets h);
}.

(** The clock of a request is within the range of [Duration]. *)
Definition readings_ok (now : Readings) : Prop :=
  0 <= at_store now /\ 0 <= at_lookup now
  /\ forall a, at_lookup now + Cache.stale_while_revalidate (configs a) <= duration_max.

(** A pool a request may use. *)
Definition pool_of (w : World) (u : Proxy.Upstream) : Prop :=
  (exists name, Proxy.registry_get name (w_upstreams w) = Some u) \/ exists url, u = direct_pool url.

(** An ejection at the end of the range of [Instant], the only panic. *)
Definition instant_overflow (now : Readings) (w : World) : Prop :=
  exists u j, pool_of w u /\ instant_max < at_fail now j + Proxy.open_for (Proxy.breaker u).

Hypothesis iter_perm : forall m, iter m ≡ₚ map_to_list m.
Hypothesis send_frame : forall k r u,
  loads (send k r u).2 = loads u /\ Proxy.breaker (send k r u).2 = Proxy.breaker u.

Lemma set_store_ok gw w a i i0 :
  w_stores w !! a = Some i0 -> store_ok (configs a) i -> serve_ok gw w -> serve_ok gw (set_store a i w).
Proof.
  intros Ha Hi [Hl Hy Hs Hp Hh]. split; try done.
  - intros rt layer Hrt Hc. destruct (Hy rt layer Hrt Hc) as [? [? ?]]. split; [done|]. cbn [set_store w_stores].
    destruct (decide (a = Router.layer_store layer)) as [->|]; [rewrite lookup_insert_eq|rewrite lookup_insert_ne by done]; eauto.
  - intros a' i'. cbn [set_store w_stores]. destruct (decide (a = a')) as [->|].
    + rewrite lookup_insert_eq. by intros [= <-].
    + rewrite lookup_insert_ne by done. apply Hs.
Qed.

Lemma set_limiters_ok gw w ls : dom ls = dom (w_limiters w) -> serve_ok gw w -> serve_ok gw (set_limiters ls w).
Proof.
  intros Hd [Hl Hy Hs Hp Hh]. split; try done. intros rt mw id Hrt Hmw Hid. cbn [set_limiters w_limiters].
  apply elem_of_dom. rewrite Hd. apply elem_of_dom. by eapply Hl.
Qed.

Lemma set_pool_ok gw w name u u' :
  Proxy.registry_get name (w_upstreams w) = Some u -> loads u' = loads u -> serve_ok gw w ->
  serve_ok gw (set_pool name u' w).
Proof.
  intros Hg Hu [Hl Hy Hs Hp Hh]. split; try done. intros name' v. unfold Proxy.registry_get.
  cbn [set_pool w_upstreams Proxy.reg_map]. destruct (decide (name = name')) as [->|].
  - rewrite lookup_insert_eq. intros [= <-]. rewrite Hu. by eapply Hp.
  - rewrite lookup_insert_ne by done. apply Hp.
Qed.

Lemma cache_lookup_ok gw now rt m h t req w :
  serve_ok gw w -> readings_ok now -> routes_of gw rt ->
  exec_spec (cache_lookup (at_lookup now) rt m h t req w)
    (fun '(_, w') => serve_ok gw w' /\ w_upstreams w' = w_upstreams w) (fun _ => False) False.
Proof.
  intros Hw (_ & Hn & Hc) Hrt. unfold cache_lookup. destruct (Router.cache rt) as [layer|] eqn:E; [|done].
  destruct (negb _); [done|]. destruct (ok_layers _ _ Hw _ _ Hrt E) as [Hcfg [i Hi]]. rewrite Hi.
  pose proof (ok_stores _ _ Hw _ _ Hi) as Hok.
  eapply exec_spec_bind; [by eapply lookup_ok|]. intros [hit i'] Hi'. simpl. split; [by eapply set_store_ok|done].
Qed.

Lemma cache_store_ok gw now rt m h t req resp w :
  serve_ok gw w -> readings_ok now -> routes_of gw rt ->
  exec_spec (cache_store iter (at_store now) rt m h t req resp w) (fun '(_, w') => serve_ok gw w') (fun _ => False) False.
Proof.
  intros Hw (Hn & _) Hrt. unfold cache_store. destruct (Router.cache rt) as [layer|] eqn:E; [|done].
  destruct (negb _); [done|]. destruct (ok_layers _ _ Hw _ _ Hrt E) as [Hcfg [i Hi]]. rewrite Hi.
  pose proof (ok_stores _ _ Hw _ _ Hi) as Hok. rewrite Hcfg.
  eapply exec_spec_bind; [apply (maybe_store_spec _ _ iter_perm); [exact Hok|done]|].
  intros [stored i'] [Hi' _]. simpl. by eapply set_store_ok.
Qed.

Lemma forward_ok gw now w u m pq req b ip h :
  serve_ok gw w -> pool_of w u ->
  exec_spec (Proxy.forward hash_ip instant_max parse_uri send (at_pick now) (at_fail now) m pq req b ip h u)
    (fun '(_, _, u') => loads u' = loads u) (fun _ => False) (instant_overflow now w).
Proof.
  intros Hw Hu. unfold Proxy.forward.
  assert (Hr : Forall (fun z => 0 <= z < u64_max) (loads u)).
  { destruct Hu as [[name Hg]|[url ->]]; [by eapply ok_pools|]. repeat constructor; vm_compute; done. }
  eapply exec_spec_mono; [eapply forward_loop_spec; [exact send_frame|exact Hr|reflexivity]| |done|].
  - intros [[r k] u'] (_ & _ & Hl). done.
  - intros [j Hj]. by exists u, j.
Qed.

Lemma run_handler_ok gw now handler m ep eq req body peer h w :
  serve_ok gw w ->
  exec_spec (run_handler hash_ip instant_max parse_uri send fs Incoming collect_limited now gw handler m ep eq req body peer h w)
    (fun '(_, _, w') => serve_ok gw w') (fun _ => False) (instant_overflow now w).
Proof.
  intros Hw. unfold run_handler. destruct handler as [| | |up t|]; try done.
  destruct (collect_limited _ _) as [bytes|]; [|done]. unfold proxy.
  destruct up as [name|].
  - destruct (Proxy.registry_get name (w_upstreams w)) as [u|] eqn:Eg; [|done].
    eapply exec_spec_bind; [apply (forward_ok gw); [done|by left; exists name]|].
    intros [[r n] u'] Hl. simpl. by eapply set_pool_ok.
  - destruct t as [url|]; [|done].
    eapply exec_spec_bind; [apply (forward_ok gw); [done|by right; exists url]|]. intros [[r n] u'] _. done.
Qed.

Hypothesis others_ok : forall gw w, serve_ok gw w -> serve_ok gw (others w).

Lemma respond_to_ok gw now parts body peer w :
  serve_ok gw w -> readings_ok now ->
  exec_spec (respond_to now gw parts body peer w) (fun '(_, _, w') => serve_ok gw w') (fun _ => False)
    (instant_overflow now w).
Proof.
  intros Hw Hn. unfold respond_to. fold (route_of gw parts).
  destruct (route_of gw parts) as [rt|] eqn:Ert; [|done]. apply route_of_elem in Ert.
  exec_seq (ingress_from_spec (at_ingress now) (Router.middleware rt) 0
    (mk_view (p_method parts) (p_path parts) (percent_decode (target_of parts)) (get_str (p_headers parts) "origin")
       (Some peer)) (w_limiters w)); [done| |].
  { intros (mw & id & Hin & Hl & Hnone). destruct (ok_limiters _ _ Hw _ _ _ Ert Hin Hl) as [? ?]. congruence. }
  intros [[short view] ls] (_ & Hd & _). destruct short as [r|]; [by apply set_limiters_ok|].
  assert (Hw1 : serve_ok gw (set_limiters ls w)) by by apply set_limiters_ok.
  exec_seq (cache_lookup_ok gw now rt (p_method parts) (request_host parts) (target_of parts) (p_headers parts) _ Hw1 Hn Ert);
    [done|done|].
  intros [hit w2] [Hw2 Hu2]. destruct hit as [hit|]; [done|].
  exec_seq (run_handler_ok gw now (Router.handler rt) (p_method parts) (Pipeline.path view)
    (with_query (Pipeline.path view) (p_query parts)) (p_headers parts) body peer (request_host parts) w2 Hw2); [done| |].
  { intros (u & j & Hu & Hj). exists u, j. split; [|done]. unfold pool_of in *. by rewrite Hu2 in Hu. }
  intros [[resp n] w3] Hw3.
  exec_seq (cache_store_ok gw now rt (p_method parts) (request_host parts) (target_of parts) (p_headers parts)
    (egress (Router.middleware rt) (get_str (p_headers parts) "origin") resp) (others w3) (others_ok _ _ Hw3) Hn Ert);
    [done|done|].
  by intros [r w4] Hw4.
Qed.

(** *** Finalization *)
Context `{!HeaderLaws}.

Lemma crockford_visible v : 32 <= byte_val (Ids.crockford v) < 127.
Proof.
  rewrite crockford_mod. pose proof (Z.mod_pos_bound v 32 eq_refl) as Hv. revert Hv. generalize (v mod 32). intros i Hi.
  assert (Forall (fun i => 32 <= byte_val (Ids.crockford i) < 127) (seqZ 0 32)) as Hall by decide_closed.
  rewrite Forall_forall in Hall. apply Hall, elem_of_seqZ. lia.
Qed.

Lemma request_id_header now ctr : exists v,
  value_from_str (Ids.request_id now ctr).1 = Some v /\ to_str v = Some (Ids.request_id now ctr).1.
Proof.
  destruct (value_from_str_visible (Ids.request_id now ctr).1) as [v Hv].
  - unfold Ids.request_id. cbn [fst]. eapply Forall_impl; [apply encode_over|].
    intros c (i & _ & ->). apply crockford_visible.
  - exists v. split; [done|]. by apply to_str_from_str.
Qed.

Lemma record_request_ok m st d t :
  let h := Metrics.request_duration t in
  length (Metrics.bucket_counts (Metrics.h_state h)) = length (Metrics.buckets h) ->
  exists t', Metrics.record_request m st d t = Ok t'
    /\ let h' := Metrics.request_duration t' in
       length (Metrics.bucket_counts (Metrics.h_state h')) = length (Metrics.buckets h').
Proof.
  cbv zeta. intros Hl. unfold Metrics.record_request, Metrics.observe.
  destruct (observe_buckets_spec d (Metrics.buckets (Metrics.request_duration t)) 0
    (Metrics.bucket_counts (Metrics.h_state (Metrics.request_duration t)))) as (c & -> & Hc & _); [lia|].
  cbn [mbind exec_bind]. eexists. split; [done|]. cbn. by rewrite Hc.
Qed.

(** The log line of an answered request. *)
Definition log_line (now : Readings) (parts : Parts) (rid : string) (resp : HyperResponse) : string :=
  Log.to_json show3
    (Log.mk_log (at_log now) (p_method parts) (request_host parts) (p_path parts) (hyper_status resp)
       (f64_mul (as_secs_f64 (elapsed now)) (f64_of_Z 1000)) rid (Z.of_nat (String.length (hyper_body resp)))).

Lemma finalize_ok now gw parts rid resp w :
  serve_ok gw w -> (exists v, value_from_str rid = Some v /\ to_str v = Some rid) ->
  exists resp' w', finalize show3 now gw rid (p_method parts) (request_host parts) (p_path parts) resp w = Ok (resp', w')
    /\ serve_ok gw w'
    /\ get_str (hyper_headers (to_hyper resp')) "x-request-id" = Some rid
    /\ (forall alt v, alt_svc gw = Some alt -> value_from_str alt = Some v ->
          hm_get (hyper_headers (to_hyper resp')) "alt-svc" = Some v)
    /\ w_log w' = w_log w ++ [log_line now parts rid (to_hyper resp')].
Proof.
  intros [Hl Hy Hs Hp Hh] (v & Hv & Hvs). unfold finalize.
  set (resp2 := match alt_svc gw with Some alt => _ | None => _ end).
  destruct (record_request_ok (p_method parts) (resp_status resp2) (as_secs_f64 (elapsed now)) (w_telemetry w) Hh)
    as (t' & -> & Ht').
  cbn [mbind exec_bind]. eexists _, _. split; [done|]. split_and!.
  - split; done.
  - unfold get_str. rewrite hm_get_values, hyper_values. subst resp2.
    assert (Hx : hm_values (resp_headers (set_header "x-request-id" rid resp)) "x-request-id" = [v]).
    { unfold set_header, headers_mut, insert_str. cbn [resp_headers]. rewrite Hv. rewrite hm_values_insert. by rewrite decide_True. }
    assert (Hx' : hm_values (resp_headers (match alt_svc gw with
      | Some alt => set_header "alt-svc" alt (set_header "x-request-id" rid resp)
      | None => set_header "x-request-id" rid resp end)) "x-request-id" = [v]).
    { destruct (alt_svc gw) as [alt|]; [|done]. unfold set_header at 1, headers_mut, insert_str at 1. cbn [resp_headers].
      destruct (value_from_str alt); [|done]. rewrite hm_values_insert. by rewrite decide_False by decide_closed. }
    rewrite Hx'. done.
  - intros alt v' Ha Hv'. rewrite hm_get_values, hyper_values. subst resp2. rewrite Ha.
    unfold set_header at 1, headers_mut, insert_str at 1. cbn [resp_headers]. rewrite Hv', hm_values_insert.
    by rewrite decide_True.
  - cbn [w_log]. unfold log_line. cbn [to_hyper hyper_status hyper_body].
    by destruct (resp_body resp2).
Qed.

(** [handle] is [respond_to] and the finalization of its response. *)
Lemma handle_spec now gw parts body peer w : serve_ok gw w -> readings_ok now ->
  exec_spec (handle now gw parts body peer w)
    (fun '(resp, sent, w') => let rid := (Ids.request_id (at_id now) (w_counter w)).1 in
       exists r w1, respond_to now gw parts body peer (stamped now w) = Ok (r, sent, w1)
       /\ hyper_status resp = resp_status r /\ hyper_body resp = body_bytes (resp_body r)
       /\ w_upstreams w' = w_upstreams w1 /\ serve_ok gw w'
       /\ get_str (hyper_headers resp) "x-request-id" = Some rid
       /\ (forall alt v, alt_svc gw = Some alt -> value_from_str alt = Some v -> hm_get (hyper_headers resp) "alt-svc" = Some v)
       /\ w_log w' = w_log w1 ++ [log_line now parts rid resp])
    (fun _ => False) (instant_overflow now w).
Proof.
  intros Hw Hnow. unfold handle. pose proof (request_id_header (at_id now) (w_counter w)) as Hrid.
  destruct (Ids.request_id (at_id now) (w_counter w)) as [rid counter] eqn:Eid. cbn [fst] in *.
  replace counter with (Ids.request_id (at_id now) (w_counter w)).2 by by rewrite Eid. fold (stamped now w).
  assert (Hw0 : serve_ok gw (stamped now w)) by (destruct Hw; by split).
  pose proof (respond_to_ok gw now parts body peer (stamped now w) Hw0 Hnow) as Hr.
  destruct (respond_to now gw parts body peer (stamped now w)) as [[[r n] w1]| | |]; [|done..].
  cbn [mbind exec_bind exec_spec] in *.
  destruct (finalize_ok now gw parts rid r w1 Hr Hrid) as (r' & w' & E & Hw' & Hx & Ha & Hlog).
  rewrite E. cbn [mbind exec_bind exec_spec]. apply finalize_frame in E as (Hst & Hb & _ & Hu & _).
  exists r, w1. cbn [to_hyper hyper_status hyper_body] in *. rewrite Hst, Hb. done.
Qed.


(** ** HTTP/3 *)
Abbreviation dispatch := (Http3.dispatch iter hash_ip instant_max parse_uri send fs others show3).

(** HTTP/3 is the same data plane.  Dispatching a request whose body has
    arrived is handling it: same response up to the conversion for hyper, same
    upstream requests, same effects on limiters, caches, pools, metrics and
    log, panics included, when the body is within the limit of the gateway. *)
Theorem dispatch_is_handle (now : Readings) (gw : Gateway) (parts : Parts) (body : Incoming) (bytes : string)
    (peer : IpAddr) (w : World)
    (Hbody : collect_limited (max_request_body_bytes gw) body = Some bytes) :
  handle now gw parts body peer w
  = ('(resp, sent, w') ← dispatch now gw parts bytes peer w; Ok (to_hyper resp, sent, w')).
Proof.
  unfold handle, Http3.dispatch. destruct (Ids.request_id _ _) as [rid counter]. cbv zeta.
  rewrite bind_assoc. apply bind_ext.
  - unfold respond_to. destruct (Router.route _ _ _ _) as [rt|]; [|done].
    apply bind_ext; [done|]. intros [[[short|] view] ls]; [done|].
    apply bind_ext; [done|]. intros [[hit|] w2]; [done|].
    apply bind_ext; [|by intros [[r n] w3]].
    unfold run_handler. by destruct (Router.handler rt); rewrite ?Hbody.
  - intros [[resp n] w1]. unfold finalize. rewrite !bind_assoc. apply bind_ext; [|done]. by destruct (alt_svc gw).
Qed.

(** ** The cache answers with what it was given *)
Lemma vary_key_agree req req' names :
  Forall (fun n => get_str req n = get_str req' n) names -> Cache.vary_key req names = Cache.vary_key req' names.
Proof. induction 1 as [|n names Hn _ IH]; [done|]. cbn [Cache.vary_key]. by rewrite Hn, IH. Qed.

Lemma get_set_header resp n v : is_Some (value_from_str v) ->
  get_str (resp_headers (set_header n v resp)) n = Some v.
Proof.
  intros [x Hx]. unfold set_header, headers_mut, insert_str, get_str. cbn [resp_headers]. rewrite Hx, hm_get_insert.
  rewrite decide_True by done. simpl. by apply to_str_from_str.
Qed.

Lemma get_set_header_ne resp n n' v : ~ same_name n n' ->
  get_str (resp_headers (set_header n v resp)) n' = get_str (resp_headers resp) n'.
Proof.
  intros Hn. unfold set_header, headers_mut, insert_str, get_str. cbn [resp_headers].
  destruct (value_from_str v); [|done]. by rewrite hm_get_insert, decide_False.
Qed.

Lemma literal_value s : Forall (fun c => 32 <= byte_val c < 127) (bytes_of s) -> is_Some (value_from_str s).
Proof. apply value_from_str_visible. Qed.

Lemma body_bytes_from s : body_bytes (body_from s) = s.
Proof. by destruct s. Qed.

Lemma digits_visible z : 0 <= z -> Forall (fun c => 32 <= byte_val c < 127) (bytes_of (show_u z)).
Proof.
  intros Hz. eapply Forall_impl; [by apply show_u_digits|]. intros c Hc. unfold is_ascii_digit in Hc.
  apply in_range_spec in Hc. lia.
Qed.

Lemma hit_response_spec hit : 0 <= Cache.age_secs hit ->
  resp_status (hit_response hit) = Cache.hit_status hit
  /\ body_bytes (resp_body (hit_response hit)) = str_of (Cache.hit_body hit)
  /\ get_str (resp_headers (hit_response hit)) "x-cache"
     = Some match Cache.freshness hit with Cache.Stale => "STALE" | Cache.Fresh => "HIT" end
  /\ get_str (resp_headers (hit_response hit)) "age" = Some (show_u (Cache.age_secs hit)).
Proof.
  intros Hage. unfold hit_response. cbn [with_body resp_status resp_body resp_headers]. rewrite body_bytes_from. split_and!; [done|done| |].
  - apply get_set_header, literal_value. destruct (Cache.freshness hit); decide_closed.
  - rewrite get_set_header_ne by decide_closed. by apply get_set_header, literal_value, digits_visible.
Qed.

(** What a response served from the cache says of the response it repeats:
    status, body, age and freshness. *)
Definition repeats (hit : Response) (st : Z) (body : string) (age : Z) (state : string) : Prop :=
  resp_status hit = st /\ body_bytes (resp_body hit) = body
  /\ get_str (resp_headers hit) "x-cache" = Some state
  /\ get_str (resp_headers hit) "age" = Some (show_u (age / nanos_per_sec)).

(** A request is answered from the cache by the entry of its key. *)
Lemma cache_lookup_entry later rt layer m host target req w i e :
  Router.cache rt = Some layer -> Cache.request_allows_cache (Router.layer_config layer) m req = true ->
  w_stores w !! Router.layer_store layer = Some i ->
  Cache.map i !! Cache.key (Router.layer_config layer) m host target req = Some e ->
  saturating_sub later (Cache.stored_at e) <= Cache.ttl e ->
  exists hit w', cache_lookup later rt m host target req w = Ok (Some hit, w')
    /\ repeats hit (Cache.status e) (str_of (Cache.body e)) (saturating_sub later (Cache.stored_at e)) "HIT".
Proof.
  intros Hcache Hallow Hi He Hage. unfold cache_lookup. rewrite Hcache, Hallow. cbn [negb]. rewrite Hi. unfold Cache.lookup. rewrite He.
  rewrite (proj2 (Z.leb_le _ _)) by done. cbn [mbind exec_bind fmap option_fmap option_map]. eexists _, _. split; [done|].
  apply hit_response_spec. cbn [Cache.age_secs]. unfold as_secs, saturating_sub. apply Z.div_pos; [lia|done].
Qed.

Lemma cache_lookup_hit later rt layer m host target req w i hit w' :
  Router.cache rt = Some layer -> w_stores w !! Router.layer_store layer = Some i ->
  cache_lookup later rt m host target req w = Ok (Some hit, w') ->
  exists e, Cache.map i !! Cache.key (Router.layer_config layer) m host target req = Some e
    /\ saturating_sub later (Cache.stored_at e) <= Z.max (Cache.ttl e) (Cache.ttl e + Cache.swr e)
    /\ repeats hit (Cache.status e) (str_of (Cache.body e)) (saturating_sub later (Cache.stored_at e))
         (if saturating_sub later (Cache.stored_at e) <=? Cache.ttl e then "HIT" else "STALE").
Proof.
  intros Hcache Hi. unfold cache_lookup. rewrite Hcache. destruct (negb _); [done|]. rewrite Hi.
  intros ([h store'] & Hl & Hr)%bind_Ok. destruct h as [h|]; [|done]. cbn [fmap option_fmap option_map] in Hr. injection Hr as <- _.
  apply lookup_hit in Hl as (e & He & Hage & ->). exists e. split; [done|]. split; [done|].
  match goal with |- repeats (hit_response ?h) _ _ _ _ => destruct (hit_response_spec h) as (H1 & H2 & H3 & H4) end.
  { cbn [Cache.age_secs]. unfold as_secs, saturating_sub. apply Z.div_pos; [lia|done]. }
  split_and!; [exact H1|exact H2| |exact H4]. rewrite H3. cbn [Cache.freshness]. by destruct (_ <=? _).
Qed.

(** C19. What the cache is given is what it serves.  When [cache_store] marks a
    response [MISS] it has stored it, and whatever the store goes through since
    ([since]: lookups, stores, purges and clears, by other requests and by the
    admin), a later request of the same method, host and target that agrees on
    the [Vary] headers of the layer is answered like this.  If since then
    nothing was stored under the same key, no tag of the response purged and
    the store not cleared, and the bodies stored fit the byte budget without an
    eviction, then until the lifetime is over the answer is that response, same
    status and body, marked [HIT], with its age.  And in any case an answer from
    the cache is that response or one stored since under the same key, not
    older than its lifetime and stale window, marked [HIT] within the lifetime
    and [STALE] after it. *)
Theorem served_from_cache (now later : Z) (rt : Router.Route) (layer : Router.CacheLayer) (m host target : string)
    (req req' : HeaderMap) (resp resp1 : Response) (i i1 i2 : Cache.Inner) (w w1 w2 : World) (since : list op)
    (Hcache : Router.cache rt = Some layer)
    (Hi : w_stores w !! Router.layer_store layer = Some i) (Hok : store_ok (Router.layer_config layer) i)
    (Hstore : cache_store iter now rt m host target req resp w = Ok (resp1, w1))
    (Hmiss : get_str (resp_headers resp1) "x-cache" = Some "MISS")
    (Hi1 : w_stores w1 !! Router.layer_store layer = Some i1)
    (Hsince : Forall (clock_ok (Router.layer_config layer)) since)
    (Hrun : run_ops (Router.layer_config layer) iter since i1 = Ok i2)
    (Hi2 : w_stores w2 !! Router.layer_store layer = Some i2)
    (Hvary : Forall (fun n => get_str req n = get_str req' n) (Cache.vary (Router.layer_config layer)))
    (Hallow : Cache.request_allows_cache (Router.layer_config layer) m req' = true)
    (Hclock : 0 <= now <= later) :
  let config := Router.layer_config layer in
  let k := Cache.key config m host target req in
  let body := body_bytes (resp_body resp) in
  exists t, Cache.cacheable_ttl config (resp_status resp) (resp_headers resp) = Some t
  /\ let e := Cache.mk_entry (resp_status resp) (Cache.stored_headers (resp_headers resp)) (bytes_of body) now t
                (Cache.stale_while_revalidate config) (Cache.parse_tags (resp_headers resp)) in
     (Forall (spares k e) since -> Cache.bytes i1 + intake since <= Cache.max_total_bytes config -> later - now <= t ->
      exists hit w3, cache_lookup later rt m host target req' w2 = Ok (Some hit, w3)
        /\ repeats hit (resp_status resp) body (later - now) "HIT")
  /\ (forall hit w3, cache_lookup later rt m host target req' w2 = Ok (Some hit, w3) ->
      exists at_store st h b t', (at_store = now /\ st = resp_status resp /\ h = resp_headers resp /\ b = bytes_of body
                                 \/ OpStore at_store k st h b ∈ since)
        /\ Cache.cacheable_ttl config st h = Some t'
        /\ let age := saturating_sub later at_store in
           age <= Z.max t' (t' + Cache.stale_while_revalidate config)
           /\ repeats hit st (str_of b) age (if age <=? t' then "HIT" else "STALE")).
Proof.
  cbv zeta. unfold cache_store in Hstore. rewrite Hcache, Hi in Hstore. destruct (negb _) eqn:Eal.
  { injection Hstore as <- _. rewrite get_set_header in Hmiss by (apply literal_value; decide_closed). done. }
  apply bind_Ok in Hstore as ([stored i'] & Hms & [= <- <-]). destruct stored.
  2:{ rewrite get_set_header in Hmiss by (apply literal_value; decide_closed). done. }
  cbn [set_store w_stores] in Hi1. rewrite lookup_insert_eq in Hi1. injection Hi1 as ->.
  pose proof (maybe_store_spec _ _ iter_perm now (Cache.key (Router.layer_config layer) m host target req)
    (resp_status resp) (resp_headers resp) (bytes_of (body_bytes (resp_body resp))) i Hok (proj1 Hclock)) as Hs.
  rewrite Hms in Hs. destruct Hs as (Hok1 & _ & Hs). destruct (Hs eq_refl) as (t & Ht & Hk). exists t. split; [done|].
  assert (Ekey : Cache.key (Router.layer_config layer) m host target req' = Cache.key (Router.layer_config layer) m host target req).
  { unfold Cache.key. by rewrite (vary_key_agree req req'). }
  split.
  - intros Hsp Hroom Hage. pose proof (run_kept _ _ iter_perm since _ _ _ _ Hok1 Hsince Hrun Hk Hsp Hroom) as Hk2. rewrite <-Ekey in Hk2.
    assert (Es : saturating_sub later now = later - now) by (unfold saturating_sub; lia).
    destruct (cache_lookup_entry later rt layer m host target req' w2 i2 _ Hcache Hallow Hi2 Hk2) as (hit & w3 & Hl & Hr);
      cbn [Cache.stored_at Cache.ttl Cache.status Cache.body] in *; rewrite Es in *; [done|].
    exists hit, w3. split; [done|]. by rewrite str_of_bytes in Hr.
  - intros hit w3 Hl. destruct (cache_lookup_hit _ _ _ _ _ _ _ _ _ _ _ Hcache Hi2 Hl) as (e & He & Hage & Hr). rewrite Ekey in He.
    destruct (run_source _ _ iter_perm since _ _ _ _ Hok1 Hsince Hrun He) as [He1|(o & Hin & Hm)].
    + rewrite Hk in He1. injection He1 as <-. exists now, (resp_status resp), (resp_headers resp), (bytes_of (body_bytes (resp_body resp))), t.
      split; [by left|]. split; [done|]. by split.
    + destruct o as [|at_store k' st h b| |]; try done. destruct Hm as (-> & t' & Ht' & ->).
      exists at_store, st, h, b, t'. split; [by right|]. split; [done|]. by split.
Qed.
End Lifecycle.

(** ** The target the firewall sees *)

(** A percent-encoder: it escapes the bytes that [f] chooses, percent signs and
    plus signs always. *)
Definition encode_byte (f : ascii -> bool) (c : ascii) : list ascii :=
  if f c || Ascii.eqb c "%" || Ascii.eqb c "+" then "%"%char :: bytes_of (hex_byte (byte_val c)) else [c].
Definition percent_encode (f : ascii -> bool) (s : string) : string := str_of (bytes_of s ≫= encode_byte f).

Lemma decode_encode_bytes f bs : percent_decode_bytes (bs ≫= encode_byte f) = bs.
Proof.
  induction bs as [|c bs IH]; [done|]. cbn [mbind list_bind]. unfold encode_byte at 1.
  destruct (Ascii.eqb_spec c "%") as [->|Hp]; [rewrite orb_true_r; cbn; by rewrite IH|].
  destruct (Ascii.eqb_spec c "+") as [->|Hq]; [rewrite !orb_true_r; cbn; by rewrite IH|].
  rewrite !orb_false_r. destruct (f c).
  - pose proof (byte_val_range c) as Hr. cbn [hex_byte list_ascii_of_string app percent_decode_bytes].
    rewrite !hex_digit_value by (pose proof (Z.mod_pos_bound (byte_val c) 16 eq_refl); split; try apply Z.div_pos; try apply Z.div_lt_upper_bound; lia).
    change (Ascii.eqb "%" "%") with true. cbv iota. rewrite IH. f_equal.
    rewrite Z.mul_comm, <-Z.div_mod by done. apply byte_of_val.
  - cbn [app percent_decode_bytes]. rewrite (proj2 (Ascii.eqb_neq _ _)), (proj2 (Ascii.eqb_neq _ _)) by done. by rewrite IH.
Qed.

(** Percent-encoding hides nothing from the firewall: however a client
    encodes a target, escaping any choice of its bytes, the request view that
    the middleware inspect holds the target itself. *)
Theorem percent_decode_encode (f : ascii -> bool) (s : string) (Hs : utf8_valid s = true) :
  percent_decode (percent_encode f s) = s.
Proof.
  unfold percent_decode, percent_encode. rewrite bytes_of_str, decode_encode_bytes. by apply from_utf8_lossy_valid.
Qed.

Lemma percent_decode_encode_witness :
  percent_encode (fun c => Ascii.eqb c " ") "/q?x=union select+1" = "/q?x=union%20select%2b1"
  /\ percent_decode (percent_encode (fun c => Ascii.eqb c " ") "/q?x=union select+1") = "/q?x=union select+1".
Proof. split; [reflexivity|]. apply percent_decode_encode. reflexivity. Defined.

(** ** On concrete inputs *)
Section Witnesses.
#[local] Existing Instance ListHeaders.list_headers.
#[local] Existing Instance ListHeaders.list_laws.

Definition no_headers : @HeaderMap ListHeaders.list_headers := [].
Definition demo_config : Cache.CacheConfig := Cache.mk_config (from_secs 60) ["GET"] [] 0 10 1000 1000.
Definition demo_cors : Cors := mk_cors ["https://a"; "https://b"] [] false.

(** One site: a cached page behind a CORS policy, and a proxy. *)
Definition demo_gateway : Gateway :=
  with_alt_svc (Some "h3") (gateway_new (Router.mk_router
    [Router.mk_site ["site"]
       [Router.mk_route Router.Exact "/page" None [MCors demo_cors] (Some (Router.mk_layer 0 demo_config))
          (Router.Respond 200 "hi");
        Router.mk_route Router.Prefix "/api" None [MWaf Mode.Block] None (Router.Proxy (Some "pool") None)]])).

Definition demo_world : World :=
  mk_world ∅ {[0%nat := Cache.store_new]}
    (Proxy.registry_insert (Proxy.upstream_new "pool" [("http://u", 1)] Proxy.RoundRobin Proxy.retry_default Proxy.breaker_default)
       Proxy.registry_new)
    7 Metrics.telemetry_new [].

Definition demo_readings (t : Z) : Readings :=
  mk_readings t (fun _ => t) t (fun _ _ => t) (fun _ => t) t 1000000 t.

Definition demo_parts (path : string) (headers : HeaderMap) : Parts := mk_parts "GET" path None (Some "site") headers.

Definition pool_send (k : nat) (r : Proxy.OutRequest) (u : Proxy.Upstream) : option Proxy.UpResponse * Proxy.Upstream :=
  (Some (Proxy.mk_up 200 no_headers (Some "pong")), u).

Definition demo_limited (cap : Z) (b : string) : option string :=
  if Z.of_nat (String.length b) <=? cap then Some b else None.

Definition demo_handle (t : Z) (parts : Parts) (w : World) : exec () (HyperResponse * nat * World) :=
  Serve.handle map_to_list (fun _ => 0) 1000000000000000 Some pool_send (Handlers.mk_fs (fun _ => None) (fun _ => None)) id
    string demo_limited (fun _ => "1.000") (demo_readings t) demo_gateway parts "" (V4 1) w.

(** What the last stages made of a request: status, header, requests sent. *)
Definition observed (name : string) (m : exec () (HyperResponse * nat * World)) : option (Z * option string * nat) :=
  match m with Ok (r, n, _) => Some (hyper_status r, get_str (hyper_headers r) name, n) | _ => None end.

Lemma handle_gated_witness :
  exists rt up t bytes, route_of demo_gateway (demo_parts "/api/v" []) = Some rt
     /\ Router.handler rt = Router.Proxy up t
     /\ admitted (demo_readings 5) rt (demo_parts "/api/v" []) (V4 1) demo_world
     /\ demo_limited (max_request_body_bytes demo_gateway) "" = Some bytes.
Proof.
  assert (Hs : observed "x" (demo_handle 5 (demo_parts "/api/v" []) demo_world) = Some (200, None, 1%nat))
    by (vm_compute; reflexivity).
  destruct (demo_handle 5 (demo_parts "/api/v" []) demo_world) as [[[resp sent] w']| | |] eqn:E; try discriminate Hs.
  destruct (handle_gated _ _ _ _ _ _ _ _ _ _ _ _ _ _ _ _ _ _ _ E) as (H1 & _). apply H1.
  injection Hs as _ _ ->. discriminate.
Defined.

Lemma demo_send_frame k r u :
  loads (pool_send k r u).2 = loads u /\ Proxy.breaker (pool_send k r u).2 = Proxy.breaker u.
Proof. done. Qed.

Lemma demo_world_ok : serve_ok (fun _ => demo_config) demo_gateway demo_world.
Proof.
  split.
  - intros rt mw id (site & ->%list_elem_of_singleton & Hrt) Hmw Hid.
    repeat (apply elem_of_cons in Hrt as [->|Hrt]; [by repeat (apply elem_of_cons in Hmw as [->|Hmw]; [done|]); set_solver|]).
    set_solver.
  - intros rt layer (site & ->%list_elem_of_singleton & Hrt) Hc.
    repeat (apply elem_of_cons in Hrt as [->|Hrt]; [by simplify_eq/=|]). set_solver.
  - intros a i. cbn [demo_world w_stores]. intros [<- <-]%lookup_singleton_Some. split_and!; [done|done|vm_compute; lia|apply map_Forall_empty].
  - intros name u. unfold Proxy.registry_get. cbn. rewrite lookup_insert_Some. intros [[_ <-]|[_ Hn]]; [|by rewrite lookup_empty in Hn].
    repeat constructor; vm_compute; done.
  - reflexivity.
Qed.


Lemma dispatch_is_handle_witness :
  demo_handle 5 (demo_parts "/api" []) demo_world
  = ('(resp, sent, w') ← Http3.dispatch map_to_list (fun _ => 0) 1000000000000000 Some pool_send
        (Handlers.mk_fs (fun _ => None) (fun _ => None)) id (fun _ => "1.000") (demo_readings 5) demo_gateway
        (demo_parts "/api" []) "" (V4 1) demo_world;
     Ok (to_hyper resp, sent, w')).
Proof.
  exact (dispatch_is_handle map_to_list (fun _ => 0) 1000000000000000 Some pool_send
    (Handlers.mk_fs (fun _ => None) (fun _ => None)) id string demo_limited (fun _ => "1.000") (demo_readings 5)
    demo_gateway (demo_parts "/api" []) "" "" (V4 1) demo_world eq_refl).
Defined.

Definition demo_page : Router.Route :=
  Router.mk_route Router.Exact "/page" None [MCors demo_cors] (Some (Router.mk_layer 0 demo_config)) (Router.Respond 200 "hi").

(** Stored at 0, looked up by another request at 3, beside another page; asked
    for again at 5. *)
Definition demo_since : list op := [OpLookup 3 (Cache.key demo_config "GET" "site" "/page" no_headers);
  OpStore 4 "other" 200 no_headers (bytes_of "page")].

Definition demo_stored : Response * World :=
  match cache_store map_to_list 0 demo_page "GET" "site" "/page" no_headers (with_body (response_new 200) "hi") demo_world with
  | Ok stored => stored
  | _ => (response_new 500, demo_world)
  end.
Definition demo_store : Cache.Inner := default Cache.store_new (w_stores demo_stored.2 !! 0%nat).
Definition demo_store_later : Cache.Inner :=
  match run_ops demo_config map_to_list demo_since demo_store with Ok i => i | _ => Cache.store_new end.

Lemma served_from_cache_witness :
  exists hit w3, cache_lookup 5 demo_page "GET" "site" "/page" no_headers (set_store 0 demo_store_later demo_stored.2) = Ok (Some hit, w3)
    /\ repeats hit 200 "hi" 5 "HIT".
Proof.
  destruct (served_from_cache map_to_list (fun m => reflexivity _) 0 5 demo_page (Router.mk_layer 0 demo_config) "GET" "site" "/page"
    no_headers no_headers (with_body (response_new 200) "hi") demo_stored.1 Cache.store_new demo_store demo_store_later demo_world
    demo_stored.2 (set_store 0 demo_store_later demo_stored.2) demo_since) as (t & Ht & Hs & _).
  1, 2, 6, 9, 10, 11, 12: first [reflexivity|constructor|done].
  1, 2: lia.
  - split_and!; [done|done|vm_compute; lia|apply map_Forall_empty].
  - vm_compute. reflexivity.
  - vm_compute. reflexivity.
  - repeat (constructor; [split; vm_compute; discriminate|]). constructor.
  - vm_compute. reflexivity.
  - assert (E : t = from_secs 60) by (vm_compute in Ht; injection Ht as <-; reflexivity). subst t. apply Hs.
    + constructor; [intros _; vm_compute; discriminate|]. constructor; [vm_compute; discriminate|]. constructor.
    + vm_compute. discriminate.
    + vm_compute. discriminate.
Defined.

(** A cached response keeps the [Access-Control-Allow-Origin] of the request
    that filled the cache: a request from another allowed origin is told the
    first origin, which its browser refuses. *)
Lemma cached_cors_origin :
  match demo_handle 5 (demo_parts "/page" [("origin", "https://a")]) demo_world with
  | Ok (r1, _, w1) =>
    let second := demo_handle 6 (demo_parts "/page" [("origin", "https://b")]) w1 in
    get_str (hyper_headers r1) "access-control-allow-origin" = Some "https://a"
    /\ observed "x-cache" second = Some (200, Some "HIT", O)
    /\ observed "access-control-allow-origin" second = Some (200, Some "https://a", O)
  | _ => False
  end.
Proof. vm_compute. auto. Qed.
End Witnesses.
