(* ===== verification/Http3ServerProps.v ===== *)
(** * The QUIC listener answers as the TCP one

    The frames of a request against the HTTP/1 response; what happens to a body
    past the cap; the drain of a connection and of the endpoint. *)

From Stdlib Require Import ZArith Ascii String Lia.
From stdpp Require Import base option list gmap strings.
From S2P Require Import Prelude RustStr RustNet CoreTypes UtilParse Http Message Waf Cache Pipeline Router Proxy ProxyProps Observe Handlers Serve Http3 Http3Server ServeProps.
Import Serve Http3Server.
Local Open Scope string_scope.
Local Open Scope list_scope.
Local Open Scope Z_scope.

Section Requests.
Context `{HeaderOps} `{!HeaderLaws}.

(** ** Heads *)

(** The values of a name in an HTTP/3 head, from those of the HTTP/1 head. *)
Definition framed (length : Z) (n : string) (values : list HeaderValue) : list HeaderValue :=
  if decide (to_ascii_lowercase n ∈ CONNECTION_SPECIFIC) then []
  else match values with
       | [] => if decide (same_name "content-length" n) then option_list (value_from_str (show_u length)) else []
       | vs => vs
       end.

Lemma insert_framed_copy l : forall out, foldl insert_framed out l = foldl (Proxy.copy_header CONNECTION_SPECIFIC) out l.
Proof.
  induction l as [|x l IH]; intros out; [done|]. cbn [foldl]. rewrite IH. unfold insert_framed, Proxy.copy_header.
  f_equal. destruct (decide (x.1 ∈ CONNECTION_SPECIFIC)) as [Hx|Hx].
  - by rewrite bool_decide_true.
  - by rewrite bool_decide_false.
Qed.

Lemma translate_head resp n :
  let body := body_bytes (resp_body resp) in
  (translate resp).2 = body
  /\ head_status (translate resp).1 = resp_status resp
  /\ hm_values (head_headers (translate resp).1) n
     = framed (Z.of_nat (String.length body)) n (hm_values (hyper_headers (to_hyper resp)) n).
Proof.
  cbv zeta. split_and!; [done|done|]. rewrite hyper_values. unfold framed, translate. cbv zeta. cbn [fst head_headers].
  rewrite insert_framed_copy. fold (Proxy.copy_headers CONNECTION_SPECIFIC (resp_headers resp) hm_empty).
  set (h := Proxy.copy_headers CONNECTION_SPECIFIC (resp_headers resp) hm_empty).
  assert (Hv : forall n, hm_values h n = if decide (to_ascii_lowercase n ∈ CONNECTION_SPECIFIC) then []
    else option_list (last (hm_values (resp_headers resp) n))) by (intros; apply copy_headers_values).
  assert (Hcl : hm_contains_key h "content-length" = true <-> hm_values h "content-length" <> []).
  { unfold hm_contains_key. rewrite bool_decide_eq_true, hm_get_values. destruct (hm_values h "content-length"); split; try done.
    by intros [? ?]. }
  assert (Hsame : same_name "content-length" n -> hm_values h n = hm_values h "content-length"
      /\ to_ascii_lowercase n ∉ CONNECTION_SPECIFIC).
  { intros Hn. split; [by apply hm_values_same|]. rewrite <-Hn. decide_closed. }
  destruct (hm_contains_key h "content-length") eqn:Ek.
  - rewrite Hv. case_decide as Hs; [done|]. destruct (last (hm_values (resp_headers resp) n)) eqn:El; [done|]. cbn [option_list].
    rewrite decide_False; [done|]. intros Hn. destruct (Hsame Hn) as [E _]. apply (proj1 Hcl eq_refl).
    rewrite <-E, Hv, decide_False by done. by rewrite El.
  - assert (Hnil : hm_values h "content-length" = []).
    { destruct (hm_values h "content-length"); [done|]. by discriminate (proj2 Hcl). }
    destruct (decide (same_name "content-length" n)) as [Hn|Hn].
    + destruct (Hsame Hn) as [E Hns]. rewrite decide_False by done.
      pose proof (Hv n) as Hvn. rewrite E, Hnil, decide_False in Hvn by done. rewrite <-Hvn.
      destruct (value_from_str _); [by rewrite hm_values_insert, decide_True|by rewrite E].
    + assert (E : hm_values (match value_from_str (show_u (Z.of_nat (String.length (body_bytes (resp_body resp))))) with
          | Some value => hm_insert "content-length" value h | None => h end) n = hm_values h n).
      { destruct (value_from_str _); [by rewrite hm_values_insert, decide_False|done]. }
      rewrite E, Hv. case_decide; [done|]. by destruct (last _).
Qed.

(** ** Bodies *)
Definition data_total (chunks : list string) : Z := Z.of_nat (String.length (String.concat "" chunks)).

Lemma concat_cons x l : String.concat "" (x :: l) = x +:+ String.concat "" l.
Proof. destruct l; [by rewrite append_nil_r|done]. Qed.

Lemma data_total_cons x l : data_total (x :: l) = Z.of_nat (String.length x) + data_total l.
Proof. unfold data_total. rewrite concat_cons, length_append. lia. Qed.

Lemma data_nonneg l : 0 <= data_total l.
Proof. unfold data_total. lia. Qed.

(** The body is taken whole exactly when it is within the cap. *)
Lemma read_body_spec cap chunks : cap < u64_max -> forall body, Z.of_nat (String.length body) <= cap ->
  read_body cap body (Data <$> chunks)
  = Some (if Z.of_nat (String.length body) + data_total chunks <=? cap then Some (body +:+ String.concat "" chunks) else None).
Proof.
  intros Hcap. induction chunks as [|x chunks IH]; intros body Hb.
  - unfold data_total. cbn. rewrite append_nil_r. destruct (Z.leb_spec (Z.of_nat (String.length body) + Z.of_nat 0) cap); [done|lia].
  - cbn [fmap list_fmap read_body]. rewrite data_total_cons, concat_cons. pose proof (data_nonneg chunks).
    destruct (Z.ltb_spec cap (Z.min u64_max (Z.of_nat (String.length body) + Z.of_nat (String.length x)))).
    + by destruct (Z.leb_spec (Z.of_nat (String.length body) + (Z.of_nat (String.length x) + data_total chunks)) cap); [lia|].
    + rewrite IH; rewrite length_append; [|lia]. rewrite Nat2Z.inj_add, <-Z.add_assoc. by rewrite append_assoc.
Qed.

Lemma send_all frames : forall accepts k, (forall i, accepts i = true) -> send_frames accepts k frames = (frames, true).
Proof. induction frames as [|x l IH]; intros accepts k Ha; [done|]. cbn [send_frames]. by rewrite Ha, IH. Qed.

(** ** Requests *)
Variable iter : gmap string Cache.Entry -> list (string * Cache.Entry).
Variable hash_ip : option IpAddr -> Z.
Variable instant_max : Z.
Variable parse_uri : string -> option string.
Variable send : nat -> Proxy.OutRequest -> Proxy.Upstream -> option Proxy.UpResponse * Proxy.Upstream.
Variable fs : Handlers.FileSystem.
Variable others : World -> World.
Variable Incoming : Type.
Variable collect_limited : Z -> Incoming -> option string.
Variable show3 : f64 -> string.

Abbreviation handle := (Serve.handle iter hash_ip instant_max parse_uri send fs others Incoming collect_limited show3).
Abbreviation handle_request := (Http3Server.handle_request iter hash_ip instant_max parse_uri send fs others show3).

(** What an HTTP/3 client reads of an HTTP/1 response. *)
Definition same_answer (hyper : HyperResponse) (head : Head) : Prop :=
  head_status head = hyper_status hyper
  /\ forall n, hm_values (head_headers head) n
     = framed (Z.of_nat (String.length (hyper_body hyper))) n (hm_values (hyper_headers hyper) n).

(** C18. A request over HTTP/3 is answered as over HTTP/1.  When its data fits the
    cap the stream is sent one head, the body of the HTTP/1 response when there
    is one, and the end; the head has the same status and the same header
    values, without the connection-specific headers and with the length of the
    body where none was given; the upstream requests and every effect are the
    same, panics included.  Past the cap the stream is sent a 413 and nothing
    else happens. *)
Theorem h3_answers_like_h1 (now : Readings) (gw : Gateway) (parts : Parts) (incoming : Incoming) (chunks : list string)
    (accepts : nat -> bool) (peer : IpAddr) (w : World)
    (Hcap : 0 <= max_request_body_bytes gw < u64_max)
    (Hsame : collect_limited (max_request_body_bytes gw) incoming
             = if data_total chunks <=? max_request_body_bytes gw then Some (String.concat "" chunks) else None)
    (Haccepts : forall k, accepts k = true) :
  let h3 := handle_request now gw (Some parts) (Data <$> chunks) accepts peer w in
  if data_total chunks <=? max_request_body_bytes gw then
    match handle now gw parts incoming peer w with
    | Ok (hyper, sent, w') => exists head, same_answer hyper head
        /\ h3 = Ok (frames (head, hyper_body hyper), true, sent, w')
    | Err e => h3 = Err e
    | Panic => h3 = Panic
    | OutOfFuel => h3 = OutOfFuel
    end
  else exists head, head_status head = 413 /\ h3 = Ok (frames (head, "request body too large"), true, O, w).
Proof.
  cbv zeta. unfold Http3Server.handle_request. rewrite read_body_spec; [|lia|cbn; lia]. rewrite !append_nil_l. cbn [String.length].
  change (Z.of_nat 0) with 0. rewrite Z.add_0_l. destruct (data_total chunks <=? max_request_body_bytes gw) eqn:Efits.
  - rewrite (dispatch_is_handle _ _ _ _ _ _ _ _ _ _ _ _ _ _ _ _ _ Hsame).
    destruct (Http3.dispatch _ _ _ _ _ _ _ _ _ _ _ _ _ _) as [[[resp n] w']|[]| |]; [|done|done|done].
    cbn [mbind exec_bind]. rewrite send_all by done. destruct (translate_head resp "") as (Hbody & Hstatus & _). cbv zeta in *.
    exists (translate resp).1. split.
    + split; [done|]. intros m. destruct (translate_head resp m) as (_ & _ & Hm). exact Hm.
    + rewrite (surjective_pairing (translate resp)), Hbody. done.
  - rewrite send_all by done. destruct (translate_head h3_payload_too_large "") as (Hbody & Hstatus & _). cbv zeta in *.
    exists (translate h3_payload_too_large).1. split; [done|]. by rewrite (surjective_pairing (translate h3_payload_too_large)), Hbody.
Qed.
End Requests.

(** ** Draining a connection *)
Section ConnectionRuns.
Import Connection.

Lemma run_step_ind (P : ConnState -> Prop) : (forall s e, P s -> P (conn_step s e)) -> forall evs s, P s -> P (conn_run evs s).
Proof. intros Hstep evs. induction evs as [|e evs IH]; intros s Hs; [done|]. apply IH. by apply Hstep. Qed.

(** One GOAWAY at most, and only on a drain. *)
Definition goaway_ok (s : ConnState) : Prop :=
  if draining s then goaways s = 1%nat \/ ((goaways s <= 1)%nat /\ phase s = Closed) else goaways s = O.

Lemma goaway_step s e : goaway_ok s -> goaway_ok (conn_step s e).
Proof.
  unfold goaway_ok. destruct e as [a ok'| |]; cbn [conn_step]; [|by cbn|by cbn]. unfold conn_poll.
  destruct (phase s) eqn:Ep; [|by rewrite Ep]. destruct a; cbn.
  - destruct (draining s) eqn:Ed; [by rewrite Ed, Ep|]. intros Hg. destruct (unseen (drain s)); [cbn; left; lia|].
    destruct (closed (drain s)); cbn; [right; split; [lia|done]|by rewrite Ed].
  - destruct (draining s); [|done]. intros [?|[_ ?]]; [by left|done].
  - destruct (draining s); [|done]. intros [?|[_ ?]]; [by left|done].
Qed.

(** A connection sends at most one GOAWAY, in any interleaving of polls with
    the drain signal and the end of the endpoint; once the signal is sent, a
    poll that finds no request pending has sent it, or ended the connection. *)
Theorem goaway_at_most_once d ok evs :
  (goaways (conn_run evs (conn_start d ok)) <= 1)%nat
  /\ (unseen (drain (conn_run evs (conn_start d ok))) = true -> forall ok',
        let s := conn_poll Pending ok' (conn_run evs (conn_start d ok)) in
        phase s = Closed \/ (goaways s = 1%nat /\ draining s = true)).
Proof.
  assert (H : goaway_ok (conn_run evs (conn_start d ok))).
  { apply run_step_ind; [exact goaway_step|]. unfold conn_start, goaway_ok. destruct (value d); cbn; auto. }
  unfold goaway_ok in H. split.
  - destruct (draining _); [destruct H as [?|[? ?]]; lia|lia].
  - intros Hu ok'. cbv zeta. unfold conn_poll. destruct (phase (conn_run evs (conn_start d ok))) eqn:Ep; [|by left].
    destruct (draining (conn_run evs (conn_start d ok))) eqn:Ed; [destruct H as [?|[_ ?]]; [by right|congruence]|].
    rewrite Hu. right. cbn. by rewrite H.
Qed.
End ConnectionRuns.

(** ** Draining the endpoint *)
Section ListenerRuns.
Import Listener.
Context (cfg : TransportConfig).

Definition stopped (p : EndpointPhase) : bool := match p with Accepting => false | _ => true end.

(** What an endpoint has kept: the drain is sent when it stops accepting, and it
    is closed by force only after the deadline. *)
Definition endpoint_ok (s : EndpointState) : Prop :=
  drain_sent s = stopped (phase s)
  /\ (close_code s <> None -> close_code s = Some H3_NO_ERROR /\ (phase s = Closing \/ phase s = Returned))
  /\ (phase s = Closing -> close_code s = Some H3_NO_ERROR)
  /\ (forall since, phase s = Draining since -> since <= now s /\ close_code s = None).

Lemma endpoint_step s e : endpoint_ok s -> endpoint_ok (endpoint_turn cfg s e).
Proof.
  unfold endpoint_ok. destruct e as [sh a idle|ms]; cbn [endpoint_turn].
  - unfold endpoint_poll. destruct (phase s) eqn:Ep; intros (Ht & Hc & Hl & Hd).
    + destruct (close_code s) eqn:Ec; [destruct (Hc ltac:(done)) as [_ [?|?]]; done|].
      destruct sh, a as [[]|]; cbn; rewrite ?Ep, ?Ec; split_and!; try done; try (intros ? [= <-]; split; [lia|done]).
    + destruct (Hd since eq_refl) as [Hs Ec]. destruct idle; cbn; [rewrite Ec; split_and!; done|].
      destruct (Z.leb_spec (since + drain_timeout cfg) (now s)); cbn; rewrite ?Ep, ?Ec; split_and!; try done; auto; by intros ? [= <-].
    + destruct idle; cbn; rewrite ?Ep; split_and!; try done; auto.
    + rewrite Ep. split_and!; try done; auto.
  - cbn. intros (Ht & Hc & Hl & Hd). split_and!; try done. intros since Hp. destruct (Hd since Hp). split; [lia|done].
Qed.

Lemma endpoint_run t evs : endpoint_ok (endpoint_turns cfg evs (endpoint_start t)).
Proof.
  assert (H : forall s, endpoint_ok s -> endpoint_ok (endpoint_turns cfg evs s)).
  { induction evs as [|e evs IH]; intros s Hs; [done|]. apply IH. by apply endpoint_step. }
  apply H. split_and!; cbn; done.
Qed.

(** From the shutdown on: an endpoint takes no connection; it returns at a poll
    that finds it idle; otherwise it is closed by force, with [H3_NO_ERROR], at
    the first poll after the deadline and not before, and returns when idle. *)
Theorem endpoint_drains t evs :
  let s := endpoint_turns cfg evs (endpoint_start t) in
  (phase s = Accepting -> forall a i, exists since, phase (endpoint_poll cfg true a i s) = Draining since /\ drain_sent (endpoint_poll cfg true a i s) = true)
  /\ (phase s <> Accepting -> forall sh a i,
        tasks (endpoint_poll cfg sh a i s) = tasks s
        /\ phase (endpoint_poll cfg sh a true s) = Returned
        /\ (close_code (endpoint_poll cfg sh a false s) <> close_code s ->
             exists since, phase s = Draining since /\ since + drain_timeout cfg <= now s /\ close_code (endpoint_poll cfg sh a false s) = Some H3_NO_ERROR)
        /\ (forall since, phase s = Draining since -> since + drain_timeout cfg <= now s -> phase (endpoint_poll cfg sh a false s) = Closing)).
Proof.
  cbv zeta. destruct (endpoint_run t evs) as (_ & _ & _ & Hd). set (s := endpoint_turns cfg evs (endpoint_start t)) in *. unfold endpoint_poll. split.
  - intros -> a i. by eexists.
  - destruct (phase s) eqn:Ep; intros Hp sh a i; [done| | |]; split_and!; try done; try (by destruct i).
    + destruct i; [done|]. by destruct (_ <=? _).
    + destruct (Z.leb_spec (since + drain_timeout cfg) (now s)); cbn; [|done]. intros _. by exists since.
    + intros since' [= <-] Hle. by destruct (Z.leb_spec (since + drain_timeout cfg) (now s)); [|lia].
Qed.
End ListenerRuns.

(** ** On concrete inputs *)
Section Witnesses.
#[local] Existing Instance ListHeaders.list_headers.
#[local] Existing Instance ListHeaders.list_laws.

Definition no_files : Handlers.FileSystem := Handlers.mk_fs (fun _ => None) (fun _ => None).
Definition h3_demo (gw : Gateway) (path : string) (chunks : list string) :=
  Http3Server.handle_request map_to_list (fun _ => 0) 1000000000000000 Some pool_send no_files id (fun _ => "1.000")
    (demo_readings 5) gw (Some (demo_parts path [])) (Data <$> chunks) (fun _ => true) (V4 1) demo_world.
Definition h1_demo (gw : Gateway) (path body : string) :=
  Serve.handle map_to_list (fun _ => 0) 1000000000000000 Some pool_send no_files id string demo_limited (fun _ => "1.000")
    (demo_readings 5) gw (demo_parts path []) body (V4 1) demo_world.

Lemma h3_answers_like_h1_witness :
  match h1_demo demo_gateway "/api" "ping" with
  | Ok (hyper, sent, w') => exists head, same_answer hyper head
      /\ h3_demo demo_gateway "/api" ["pi"; "ng"] = Ok (frames (head, hyper_body hyper), true, sent, w')
  | _ => False
  end.
Proof.
  pose proof (h3_answers_like_h1 map_to_list (fun _ => 0) 1000000000000000 Some pool_send no_files id string demo_limited
    (fun _ => "1.000") (demo_readings 5) demo_gateway (demo_parts "/api" []) "ping" ["pi"; "ng"] (fun _ => true) (V4 1) demo_world) as H.
  assert (E : match h1_demo demo_gateway "/api" "ping" with Ok _ => true | _ => false end = true) by (vm_compute; reflexivity).
  specialize (H ltac:(vm_compute; split; congruence) ltac:(reflexivity) ltac:(done)). cbv zeta in H.
  change (data_total ["pi"; "ng"] <=? max_request_body_bytes demo_gateway) with true in H. fold h1_demo in H.
  unfold h1_demo in *. destruct (Serve.handle _ _ _ _ _ _ _ _ _ _ _ _ _ _ _ _) as [[[hyper sent] w']| | |]; [exact H|discriminate E..].
Defined.

Definition small_gateway : Gateway := with_max_request_body_bytes 3 demo_gateway.

(** A body past the cap on a route that does not read it: answered over HTTP/1,
    with a log line; refused over HTTP/3, without one and without an
    identifier. *)
Definition h1_seen (m : exec () (HyperResponse * nat * World)) : option (Z * bool * nat) :=
  match m with
  | Ok (r, _, w) => Some (hyper_status r, bool_decide (is_Some (get_str (hyper_headers r) "x-request-id")), length (w_log w))
  | _ => None
  end.
Definition h3_seen (m : exec () (list Sent * bool * nat * World)) : option (list (Z * bool) * nat) :=
  match m with
  | Ok (sent, _, _, w) =>
    Some (omap (fun f => match f with
                | SendResponse h => Some (head_status h, bool_decide (is_Some (get_str (head_headers h) "x-request-id")))
                | _ => None end) sent, length (w_log w))
  | _ => None
  end.

Lemma oversize_differs :
  h1_seen (h1_demo small_gateway "/page" "four") = Some (200, true, 1%nat)
  /\ h3_seen (h3_demo small_gateway "/page" ["four"]) = Some ([(413, false)], 0%nat)
  /\ h3_seen (h3_demo small_gateway "/page" ["for"]) = Some ([(200, true)], 1%nat).
Proof. split_and!; vm_compute; reflexivity. Qed.

Example goaway_at_most_once_witness :
  let s := Connection.conn_run [Connection.Poll Connection.Request_ true; Connection.Drain_] (Connection.conn_start (Connection.mk_drain false false false) true) in
  Connection.phase (Connection.conn_poll Connection.Pending true s) = Connection.Closed
  \/ (Connection.goaways (Connection.conn_poll Connection.Pending true s) = 1%nat /\ Connection.draining (Connection.conn_poll Connection.Pending true s) = true).
Proof.
  cbv zeta. apply (goaway_at_most_once (Connection.mk_drain false false false) true
    [Connection.Poll Connection.Request_ true; Connection.Drain_]). reflexivity.
Defined.
End Witnesses.
