(* ===== verification/ConfigModel.v ===== *)
(** * [pulsate-config]: the typed model

    [model.rs], and the argument readers at the end of [compile.rs].  The
    process environment is a parameter of the readers that use it. *)

From Stdlib Require Import ZArith Ascii String Lia.
From stdpp Require Import base option list gmap strings.
From S2P Require Import Prelude RustStr CoreTypes UtilParse FlowSyntax.
Local Open Scope string_scope.
Local Open Scope list_scope.
Local Open Scope Z_scope.

Module Model.

Record CacheDef := mk_cache_def {
  cd_name : string;
  cd_span : Span;
  default_ttl_secs : Z;
  cd_methods : list string;
  cd_vary : list string;
  swr_secs : Z;
}.

Record WafDef := mk_waf_def {
  wd_name : string;
  wd_span : Span;
  wd_mode : string;
  ip_deny : list string;
  ip_allow : list string;
}.

Inductive MwSpec :=
| SpecStripPrefix (prefix : string)
| SpecCors (origins methods : list string) (credentials : bool)
| SpecRateLimit (count per_secs : Z) (key : string)
| SpecWaf (name : string)
| SpecCache (name : string).

(** A name and where it is defined: [Named] and [NameRef]. *)
Record NamedDef := mk_named { nm_name : string; nm_span : Span }.

Record Target := mk_target { tg_url : string; tg_weight : Z }.
Record Retry := mk_retry_def { rt_attempts : Z; rt_on_status : list Z; rt_on_connect_error : bool }.
Record Breaker := mk_breaker_def { br_consecutive_failures : Z; open_for_secs : Z }.

Record UpstreamDef := mk_upstream_def {
  ud_name : string;
  ud_span : Span;
  ud_targets : list Target;
  ud_policy : string;
  ud_retry : option Retry;
  ud_breaker : option Breaker;
}.

Inductive TlsMode := TlsAuto | TlsOff | TlsManual.

Record Host := mk_host { host_pattern : string; host_span : Span }.

Inductive HandlerDef :=
| HFiles (root : string) (try_files : list string)
| HRespond (status : Z) (body : string)
| HRedirect (to : string) (status : Z)
| HProxy (upstream target : option string)
| HOther (name : string).

Definition handler_name (h : HandlerDef) : string :=
  match h with
  | HFiles _ _ => "files"
  | HRespond _ _ => "respond"
  | HRedirect _ _ => "redirect"
  | HProxy _ _ => "proxy"
  | HOther n => n
  end.

Record RefUse := mk_ref { ref_name : string; ref_span : Span }.

Record RouteDef := mk_route_def {
  rd_kind : MatchKind.MatchKind;
  rd_pattern : string;
  rd_method : option string;
  rd_middleware : list string;
  mw_specs : list MwSpec;
  rd_handler : option HandlerDef;
  refs : list RefUse;
  rd_span : Span;
}.

Record Site := mk_site_def {
  site_hosts : list Host;
  tls : TlsMode;
  site_routes : list RouteDef;
  site_span : Span;
}.

Record Config := mk_config {
  flow_version : option string;
  upstreams : list UpstreamDef;
  caches : list CacheDef;
  wafs : list WafDef;
  user_sets : list NamedDef;
  sites : list Site;
}.

Definition upstream_names (c : Config) : list NamedDef := (fun u => mk_named (ud_name u) (ud_span u)) <$> upstreams c.
Definition cache_names (c : Config) : list NamedDef := (fun d => mk_named (cd_name d) (cd_span d)) <$> caches c.
Definition waf_names (c : Config) : list NamedDef := (fun w => mk_named (wd_name w) (wd_span w)) <$> wafs c.

Definition defined_names (c : Config) : list NamedDef :=
  upstream_names c ++ cache_names c ++ waf_names c ++ user_sets c.

Definition find_cache (c : Config) (name : string) : option CacheDef :=
  snd <$> list_find (fun d => cd_name d = name) (caches c).
Definition find_waf (c : Config) (name : string) : option WafDef :=
  snd <$> list_find (fun w => wd_name w = name) (wafs c).

(** ** Reading arguments *)
Fixpoint find_map {A B} (f : A -> option B) (l : list A) : option B :=
  match l with
  | [] => None
  | x :: l' => match f x with Some y => Some y | None => find_map f l' end
  end.

Definition first_positional (args : list Arg) : option Value :=
  find_map (fun a => match a with Positional v => Some (node v) | Named _ _ => None end) args.

Definition first_positional_str (args : list Arg) : option string :=
  match first_positional args with Some (VStr s) => Some s | _ => None end.

Definition resolve_str (env : string -> option string) (v : Value) : option string :=
  match v with
  | VStr s => Some s
  | VEnv var dflt => match env var with Some s => Some s | None => dflt end
  | _ => None
  end.

Definition named_value (args : list Arg) (key : string) : option Value :=
  find_map (fun a => match a with
                     | Named name value => if (node name =? key)%string then Some (node value) else None
                     | Positional _ => None
                     end) args.

Definition named_str (args : list Arg) (key : string) : option string :=
  match named_value args key with Some (VStr s) => Some s | _ => None end.

(** The string items of an array. *)
Definition str_items (v : option Value) : list string :=
  match v with
  | Some (VArray items) => omap (fun i => match node i with VStr s => Some s | _ => None end) items
  | _ => []
  end.

Definition named_str_array (args : list Arg) (key : string) : list string := str_items (named_value args key).
Definition positional_str_array (args : list Arg) : list string := str_items (first_positional args).

Definition status_arg (args : list Arg) (default : Z) : Z :=
  let int := match named_value args "status" with
             | Some (VInt i) => Some i
             | _ => match first_positional args with Some (VInt i) => Some i | _ => None end
             end in
  match int with
  | Some i => match try_from_u u16_max i with Some s => s | None => default end
  | None => default
  end.

Definition first_ref (args : list Arg) : option string :=
  find_map (fun a => match a with
                     | Positional v | Named _ v => match node v with VRef r => Some r | _ => None end
                     end) args.
End Model.
