(* ===== verification/Config.v ===== *)
(** * [pulsate-config]: lowering and validation

    [compile.rs]: the syntax tree is lowered into the typed configuration,
    validated, and published as a snapshot.  A function of the source that
    pushes to [diags] returns what it pushes, in order.  Parameters: the
    process environment, and the [Debug] renderings of strings, values and
    configurations. *)

From Stdlib Require Import ZArith Ascii String Lia.
From stdpp Require Import base option list gmap strings.
From S2P Require Import Prelude RustStr CoreTypes UtilParse FlowSyntax FlowLexer FlowParser ConfigModel.
Import Model.
Local Open Scope string_scope.
Local Open Scope list_scope.
Local Open Scope Z_scope.
Local Open Scope rust_scope.

Module Compile.

Definition HANDLERS : list string := ["proxy"; "files"; "redirect"; "respond"; "grpc"; "ws"].
Definition SUPPORTED_FLOW_VERSIONS : list string := ["1"].

Record Compiled := mk_compiled {
  config : Config;
  snapshot : ConfigSnapshot;
  warnings : list Diagnostic;
}.

(** [Vec::contains] and [slice::contains] on strings. *)
Definition has (l : list string) (s : string) : bool := existsb (fun x => x =? s)%string l.

(** The keyword of a block or a directive. *)
Definition keyword_is (kw : Spanned string) (s : string) : bool := (node kw =? s)%string.

(** ** Handlers and middleware *)
Definition proxy_arg (acc : option string * option string) (a : Arg) : option string * option string :=
  let '(upstream, target) := acc in
  match node (match a with Positional v | Named _ v => v end) with
  | VRef r => if bool_decide (upstream = None) then (Some r, target) else acc
  | VStr s => if bool_decide (target = None) then (upstream, Some s) else acc
  | _ => acc
  end.

Definition build_handler (s : Step) : HandlerDef :=
  let args := step_args s in
  let name := node (step_name s) in
  if (name =? "files")%string then
    HFiles (default "" (first_positional_str args)) (named_str_array args "try")
  else if (name =? "respond")%string then
    HRespond (status_arg args 200) (default "" (named_str args "body"))
  else if (name =? "redirect")%string then
    HRedirect (default "" (match named_str args "to" with Some t => Some t | None => first_positional_str args end))
      (status_arg args 308)
  else if (name =? "proxy")%string then
    let '(upstream, target) := foldl proxy_arg (None, None) args in HProxy upstream target
  else HOther name.

Definition rate_window_secs (per : RateWindow) : Z :=
  match per with Second => 1 | Minute => 60 | Hour => 3600 end.

Definition build_middleware (s : Step) : option MwSpec :=
  let args := step_args s in
  let name := node (step_name s) in
  if (name =? "strip_prefix")%string then SpecStripPrefix <$> first_positional_str args
  else if (name =? "cors")%string then
    Some (SpecCors (named_str_array args "origins") (named_str_array args "methods")
            (match named_value args "credentials" with Some (VBool true) => true | _ => false end))
  else if (name =? "rate_limit")%string then
    match first_positional args with
    | Some (VRate count per) =>
      Some (SpecRateLimit count (rate_window_secs per) (default "ip" (named_str args "key")))
    | _ => None
    end
  else if (name =? "waf")%string then SpecWaf <$> first_ref args
  else if (name =? "cache")%string then SpecCache <$> first_ref args
  else None.

Fixpoint collect_refs_value (v : Value) (sp : Span) : list RefUse :=
  match v with
  | VRef name => [mk_ref name sp]
  | VArray items => flat_map (fun i => collect_refs_value (node i) (span_of i)) items
  | _ => []
  end.

Definition collect_refs (args : list Arg) : list RefUse :=
  flat_map (fun a => match a with Positional v | Named _ v => collect_refs_value (node v) (span_of v) end) args.

(** ** Routes and sites *)
Definition is_handler (s : Step) : bool := has HANDLERS (node (step_name s)).
Definition is_plugin (s : Step) : bool := starts_with "plugin." (node (step_name s)).

(** The indices of the elements that satisfy [p]. *)
Definition indices {A} (p : A -> bool) (l : list A) : list nat :=
  omap (fun '(i, x) => if p x then Some i else None) (imap pair l).
Definition rposition {A} (p : A -> bool) (l : list A) : option nat := last (indices p l).

(** [l[i]]. *)
Definition at_index {E A} (l : list A) (i : nat) : exec E A :=
  match l !! i with Some x => Ok x | None => Panic end.

Definition no_handler (r : Route) : Diagnostic :=
  with_help (diag_error CFG_MISSING_FIELD "route has no terminal handler" (route_span r))
    "end the pipeline with a handler, e.g. `~> proxy(@api)`".
Definition multi_handler (sp : Span) : Diagnostic :=
  with_help (diag_error CFG_MULTI_HANDLER "a route has more than one terminal handler" sp)
    "a route has exactly one handler; make earlier steps middleware".

Definition terminal_idx {E} (r : Route) : exec E (option nat * list Diagnostic) :=
  match indices is_handler (route_steps r) with
  | [i] => Ok (Some i, [])
  | [] =>
    match rposition is_plugin (route_steps r) with
    | Some i =>
      if (i =? length (route_steps r) - 1)%nat then Ok (Some i, []) else Ok (None, [no_handler r])
    | None => Ok (None, [no_handler r])
    end
  | i :: j :: _ =>
    s ← at_index (route_steps r) j;
    Ok (Some i, [multi_handler (step_span s)])
  end.

Definition mw_steps (t : option nat) (steps : list Step) : list Step :=
  omap (fun '(i, s) => if bool_decide (Some i = t) then None else Some s) (imap pair steps).

Definition lower_route {E} (r : Route) : exec E (RouteDef * list Diagnostic) :=
  '(t, ds) ← terminal_idx r;
  handler ← match t with
            | Some i => s ← at_index (route_steps r) i; Ok (Some (build_handler s))
            | None => Ok None
            end;
  let mws := mw_steps t (route_steps r) in
  let mt := route_matcher r in
  Ok (mk_route_def (matcher_kind mt) (node (matcher_pattern mt))
        (to_ascii_uppercase ∘ pred_value <$>
          find_map (fun p => if (pred_key p =? "method")%string then Some p else None) (matcher_predicates mt))
        ((fun s => node (step_name s)) <$> mws)
        (omap build_middleware mws)
        handler
        (flat_map (fun s => collect_refs (step_args s)) (route_steps r))
        (route_span r),
      ds).

Definition site_host (a : Arg) : option Host :=
  match a with
  | Positional v => match node v with VStr s => Some (mk_host s (span_of v)) | _ => None end
  | Named _ _ => None
  end.

Definition tls_directive (args : list Arg) : TlsMode :=
  match first_positional args with
  | Some (VBool false) => TlsOff
  | Some (VStr s) =>
    if (s =? "off")%string then TlsOff else if (s =? "auto")%string then TlsAuto else TlsManual
  | _ => TlsManual
  end.

(** One statement of a site: the TLS mode, the routes and the diagnostics so far. *)
Definition lower_site_stmt {E} (acc : TlsMode * list RouteDef * list Diagnostic) (s : Stmt)
    : exec E (TlsMode * list RouteDef * list Diagnostic) :=
  let '(tls, routes, ds) := acc in
  match s with
  | SDirective d =>
    Ok (if keyword_is (directive_keyword d) "tls" then tls_directive (directive_args d) else tls, routes, ds)
  | SBlock kw _ _ _ => Ok (if keyword_is kw "tls" then TlsManual else tls, routes, ds)
  | SRoute r =>
    '(rd, ds') ← lower_route r;
    Ok (tls, routes ++ [rd], ds ++ ds')
  end.

(** Thread an accumulator through a list. *)
Fixpoint fold_exec {E A B} (f : A -> B -> exec E A) (acc : A) (l : list B) : exec E A :=
  match l with
  | [] => Ok acc
  | x :: l' => acc' ← f acc x; fold_exec f acc' l'
  end.

Definition lower_site {E} (args : list Arg) (body : list Stmt) (sp : Span) : exec E (Site * list Diagnostic) :=
  '(tls, routes, ds) ← fold_exec lower_site_stmt (TlsAuto, [], []) body;
  Ok (mk_site_def (omap site_host args) tls routes sp, ds).

(** ** Upstreams, caches and WAF rulesets *)
Definition retry_status (acc : list Z * bool) (i : Spanned Value) : list Z * bool :=
  let '(on_status, on_connect_error) := acc in
  match node i with
  | VInt i =>
    match try_from_u u16_max i with Some s => (on_status ++ [s], on_connect_error) | None => acc end
  | VStr s => if (s =? "connect_error")%string then (on_status, true) else acc
  | _ => acc
  end.

Definition lower_retry_stmt (r : Retry) (s : Stmt) : Retry :=
  match s with
  | SDirective d =>
    if keyword_is (directive_keyword d) "attempts" then
      match first_positional (directive_args d) with
      | Some (VInt i) =>
        mk_retry_def (default 1 (try_from_u u32_max i)) (rt_on_status r) (rt_on_connect_error r)
      | _ => r
      end
    else if keyword_is (directive_keyword d) "on" then
      match first_positional (directive_args d) with
      | Some (VArray items) =>
        let '(st, ce) := foldl retry_status (rt_on_status r, rt_on_connect_error r) items in
        mk_retry_def (rt_attempts r) st ce
      | _ => r
      end
    else r
  | _ => r
  end.
Definition lower_retry (body : list Stmt) : Retry := foldl lower_retry_stmt (mk_retry_def 1 [] true) body.

Definition lower_breaker_stmt (b : Breaker) (s : Stmt) : Breaker :=
  match s with
  | SDirective d =>
    if keyword_is (directive_keyword d) "min_requests" || keyword_is (directive_keyword d) "consecutive" then
      match first_positional (directive_args d) with
      | Some (VInt i) => mk_breaker_def (default 5 (try_from_u u32_max i)) (open_for_secs b)
      | _ => b
      end
    else if keyword_is (directive_keyword d) "open_for" then
      match first_positional (directive_args d) with
      | Some (VDuration dur) => mk_breaker_def (br_consecutive_failures b) (as_secs dur)
      | _ => b
      end
    else b
  | _ => b
  end.
Definition lower_breaker (body : list Stmt) : Breaker := foldl lower_breaker_stmt (mk_breaker_def 5 15) body.

Definition target_weight (args : list Arg) : Z :=
  match named_value args "weight" with
  | Some (VInt i) => default 1 (try_from_u u32_max i)
  | _ => 1
  end.

Section Lower.
Variable env : string -> option string.

Definition lower_upstream_stmt (u : UpstreamDef) (s : Stmt) : UpstreamDef :=
  let '(mk_upstream_def n sp ts p r b) := u in
  match s with
  | SDirective d =>
    if keyword_is (directive_keyword d) "target" then
      match first_positional (directive_args d) ≫= resolve_str env with
      | Some url => mk_upstream_def n sp (ts ++ [mk_target url (target_weight (directive_args d))]) p r b
      | None => u
      end
    else if keyword_is (directive_keyword d) "policy" then
      match first_positional_str (directive_args d) with
      | Some p' => mk_upstream_def n sp ts p' r b
      | None => u
      end
    else u
  | SBlock kw _ body _ =>
    if keyword_is kw "retry" then mk_upstream_def n sp ts p (Some (lower_retry body)) b
    else if keyword_is kw "breaker" then mk_upstream_def n sp ts p r (Some (lower_breaker body))
    else u
  | SRoute _ => u
  end.

Definition lower_upstream (kw : Spanned string) (args : list Arg) (body : list Stmt) : UpstreamDef :=
  foldl lower_upstream_stmt
    (mk_upstream_def (default "" (first_positional_str args)) (span_of kw) [] "round_robin" None None) body.

Definition lower_cache_stmt (c : CacheDef) (s : Stmt) : CacheDef :=
  let '(mk_cache_def n sp ttl ms v swr) := c in
  match s with
  | SDirective d =>
    let args := directive_args d in
    if keyword_is (directive_keyword d) "default_ttl" then
      match first_positional args with
      | Some (VDuration dur) => mk_cache_def n sp (as_secs dur) ms v swr
      | _ => c
      end
    else if keyword_is (directive_keyword d) "methods" then
      mk_cache_def n sp ttl (positional_str_array args) v swr
    else if keyword_is (directive_keyword d) "vary" then
      mk_cache_def n sp ttl ms (positional_str_array args) swr
    else if keyword_is (directive_keyword d) "stale_while_revalidate" then
      match first_positional args with
      | Some (VDuration dur) => mk_cache_def n sp ttl ms v (as_secs dur)
      | _ => c
      end
    else c
  | _ => c
  end.

Definition lower_cache (kw : Spanned string) (args : list Arg) (body : list Stmt) : CacheDef :=
  foldl lower_cache_stmt
    (mk_cache_def (default "" (first_positional_str args)) (span_of kw) 60 ["GET"; "HEAD"] [] 0) body.

Definition lower_ip_stmt (w : WafDef) (s : Stmt) : WafDef :=
  let '(mk_waf_def n sp m dn al) := w in
  match s with
  | SDirective d =>
    if keyword_is (directive_keyword d) "deny" then mk_waf_def n sp m (positional_str_array (directive_args d)) al
    else if keyword_is (directive_keyword d) "allow" then
      mk_waf_def n sp m dn (positional_str_array (directive_args d))
    else w
  | _ => w
  end.

Definition lower_waf_stmt (w : WafDef) (s : Stmt) : WafDef :=
  match s with
  | SDirective d =>
    if keyword_is (directive_keyword d) "mode" then
      match first_positional_str (directive_args d) with
      | Some m => mk_waf_def (wd_name w) (wd_span w) m (ip_deny w) (ip_allow w)
      | None => w
      end
    else w
  | SBlock kw _ body _ => if keyword_is kw "ip" then foldl lower_ip_stmt w body else w
  | SRoute _ => w
  end.

Definition lower_waf (kw : Spanned string) (args : list Arg) (body : list Stmt) : WafDef :=
  foldl lower_waf_stmt
    (mk_waf_def (default "" (first_positional_str args)) (span_of kw) "block" [] []) body.

Definition push_named (out : list NamedDef) (kw : Spanned string) (args : list Arg) : list NamedDef :=
  match first_positional args with
  | Some (VStr name) => out ++ [mk_named name (span_of kw)]
  | _ => out
  end.

(** ** The document *)
(** [format!("{:?}", s)] of a string. *)
Variable debug_str : string -> string.

Definition bad_version (v : string) (sp : Span) : Diagnostic :=
  with_help (diag_error CFG_TYPE_MISMATCH ("unsupported flow_version " +:+ debug_str v) sp)
    ("this binary supports flow_version " +:+ String dquote "1" +:+ String dquote "").

Definition lower_stmt {E} (acc : Config * list Diagnostic) (s : Stmt) : exec E (Config * list Diagnostic) :=
  let '(c, ds) := acc in
  let '(mk_config fv ups cas wfs us sts) := c in
  match s with
  | SDirective d =>
    if keyword_is (directive_keyword d) "flow_version" then
      match first_positional (directive_args d) with
      | Some (VStr v) =>
        Ok (mk_config (Some v) ups cas wfs us sts,
            ds ++ if has SUPPORTED_FLOW_VERSIONS v then [] else [bad_version v (directive_span d)])
      | _ => Ok acc
      end
    else Ok acc
  | SBlock kw args body sp =>
    if keyword_is kw "upstream" then Ok (mk_config fv (ups ++ [lower_upstream kw args body]) cas wfs us sts, ds)
    else if keyword_is kw "cache" then Ok (mk_config fv ups (cas ++ [lower_cache kw args body]) wfs us sts, ds)
    else if keyword_is kw "waf" then Ok (mk_config fv ups cas (wfs ++ [lower_waf kw args body]) us sts, ds)
    else if keyword_is kw "users" then Ok (mk_config fv ups cas wfs (push_named us kw args) sts, ds)
    else if keyword_is kw "site" then
      '(st, ds') ← lower_site args body sp;
      Ok (mk_config fv ups cas wfs us (sts ++ [st]), ds ++ ds')
    else Ok acc
  | SRoute _ => Ok acc
  end.

Definition lower {E} (ast : Ast) : exec E (Config * list Diagnostic) :=
  fold_exec lower_stmt (mk_config None [] [] [] [] [], []) (stmts ast).
End Lower.

(** ** Suggestions *)

(** One row of the edit-distance table, left to right: [prev] is the row
    above from the current column on, [left] the cell just computed. *)
Fixpoint lev_cells (ca : Z) (b : list Z) (prev : list nat) (left : nat) : list nat :=
  match b, prev with
  | cb :: b', diag :: ((up :: _) as prev') =>
    let cost := if bool_decide (ca = cb) then O else 1%nat in
    let cell := Nat.min (Nat.min (up + 1) (left + 1)) (diag + cost) in
    cell :: lev_cells ca b' prev' cell
  | _, _ => []
  end.

Fixpoint lev_rows (i : nat) (a b : list Z) (prev : list nat) : list nat :=
  match a with
  | [] => prev
  | ca :: a' => lev_rows (S i) a' b (S i :: lev_cells ca b prev (S i))
  end.

Definition levenshtein (a b : string) : nat :=
  let a := chars a in
  let b := chars b in
  default O (lev_rows 0 a b (seq 0 (S (length b))) !! length b).

(** [min_by_key] keeps the first of several minima. *)
Definition nearer (best : option (nat * string)) (x : nat * string) : option (nat * string) :=
  match best with
  | Some (d, _) => if (x.1 <? d)%nat then Some x else best
  | None => Some x
  end.

Definition nearest (name : string) (defined : list NamedDef) : option string :=
  snd <$> foldl nearer None
    (filter (fun x : nat * string => (x.1 <= 2)%nat)
       ((fun n => (levenshtein name (nm_name n), nm_name n)) <$> defined)).

(** ** Validation *)
Definition duplicate (kind : string) (n : NamedDef) : Diagnostic :=
  with_help (diag_error CFG_DUPLICATE ("duplicate " +:+ kind +:+ " named `" +:+ nm_name n +:+ "`") (nm_span n))
    "each name must be unique; remove or rename the duplicate".

Fixpoint check_dup_from (kind : string) (seen : list string) (names : list NamedDef) : list Diagnostic :=
  match names with
  | [] => []
  | n :: names' =>
    if has seen (nm_name n) then duplicate kind n :: check_dup_from kind seen names'
    else check_dup_from kind (seen ++ [nm_name n]) names'
  end.
Definition check_dup_names (names : list NamedDef) (kind : string) : list Diagnostic :=
  check_dup_from kind [] names.

Definition check_ref (defined : list NamedDef) (r : RefUse) : list Diagnostic :=
  if existsb (fun n => nm_name n =? ref_name r)%string defined then []
  else
    let d := diag_error CFG_UNKNOWN_REF ("no definition named `" +:+ ref_name r +:+ "`") (ref_span r) in
    [match nearest (ref_name r) defined with
     | Some s => with_help d ("did you mean `@" +:+ s +:+ "`?")
     | None => d
     end].

Definition check_cors (sp : Span) (m : MwSpec) : list Diagnostic :=
  match m with
  | SpecCors origins _ credentials =>
    if credentials && has origins "*" then
      [with_help (diag_error CFG_INVALID_CORS "cors(credentials=true) cannot be combined with a `*` origin" sp)
         "list explicit origins, or set credentials=false"]
    else []
  | _ => []
  end.

Definition host_collision (h : Host) : Diagnostic :=
  with_help (diag_error CFG_HOST_COLLISION
               ("host `" +:+ host_pattern h +:+ "` is claimed by more than one site") (host_span h))
    "two sites cannot bind the same host:port".

Fixpoint check_hosts_from (seen : list string) (hosts : list Host) : list Diagnostic :=
  match hosts with
  | [] => []
  | h :: hosts' =>
    if has seen (host_pattern h) then host_collision h :: check_hosts_from seen hosts'
    else check_hosts_from (seen ++ [host_pattern h]) hosts'
  end.
Definition check_host_collisions (c : Config) : list Diagnostic :=
  check_hosts_from [] (flat_map site_hosts (sites c)).

Definition all_routes (c : Config) : list RouteDef := flat_map site_routes (sites c).

Definition validate (c : Config) : list Diagnostic :=
  check_dup_names (upstream_names c) "upstream"
  ++ check_dup_names (cache_names c) "cache"
  ++ check_dup_names (waf_names c) "waf"
  ++ check_dup_names (user_sets c) "users"
  ++ flat_map (fun r => flat_map (check_ref (defined_names c)) (refs r)) (all_routes c)
  ++ flat_map (fun r => flat_map (check_cors (rd_span r)) (mw_specs r)) (all_routes c)
  ++ check_host_collisions c.

(** ** Snapshots *)
Definition fnv1a (s : string) : Z :=
  foldl (fun hash b => Z.lxor hash (byte_val b) *₆₄ 1099511628211) 14695981039346656037 (bytes_of s).

Section Compile.
Variable env : string -> option string.
Variable debug_str : string -> string.
Variable debug_value : Value -> string.
(** [format!("{config:?}")]. *)
Variable debug_config : Config -> string.

Definition build_snapshot (c : Config) (generation : Z) : ConfigSnapshot :=
  mk_snapshot (fnv1a (debug_config c)) generation.

Definition is_error (d : Diagnostic) : bool := bool_decide (diag_severity d = Error).

Definition compile (text : string) (generation : Z) : exec (list Diagnostic) Compiled :=
  ast ← match flow_parse debug_value text with
        | Ok ast => Ok ast
        | Err d => Err [d]
        | Panic => Panic
        | OutOfFuel => OutOfFuel
        end;
  '(c, ds) ← lower env debug_str ast;
  let diags := ds ++ validate c in
  match List.filter is_error diags with
  | [] => Ok (mk_compiled c (build_snapshot c generation) (List.filter (fun d => negb (is_error d)) diags))
  | errors => Err errors
  end.
End Compile.
End Compile.
