(* ===== verification/ConfigProps.v ===== *)
(** * [pulsate-config]: what compilation accepts

    A document compiles exactly when its version pins are supported, every
    route has one terminal handler, and the lowered configuration is well
    formed; suggestions are the nearest defined names. *)

From Stdlib Require Import ZArith Ascii String Lia.
From stdpp Require Import base option list gmap strings.
From S2P Require Import Prelude RustStr CoreTypes UtilParse FlowSyntax FlowLexerSpec FlowParser FlowGrammar ConfigModel Config.
Import Model Compile.
Local Open Scope string_scope.
Local Open Scope list_scope.

(** ** Indices of a predicate *)
Lemma indices_app {A} (p : A -> bool) l1 l2 :
  indices p (l1 ++ l2) = indices p l1 ++ (Nat.add (length l1) <$> indices p l2).
Proof.
  unfold indices. rewrite imap_app, omap_app. f_equal.
  replace (imap (fun n => pair (length l1 + n)) l2) with (prod_map (Nat.add (length l1)) id <$> imap (@pair nat A) l2)
    by (rewrite fmap_imap; done).
  induction (imap pair l2) as [|[i y] r IH]; [done|]. cbn. destruct (p y); cbn; by rewrite IH.
Qed.

Lemma indices_cons {A} (p : A -> bool) x l :
  indices p (x :: l) = (if p x then [0] else []) ++ (S <$> indices p l).
Proof. change (x :: l) with ([x] ++ l). rewrite indices_app. unfold indices at 1. cbn. by destruct (p x). Qed.

Lemma indices_nil {A} (p : A -> bool) l : indices p l = [] <-> Forall (fun x => p x = false) l.
Proof.
  induction l as [|x l IH]; [done|]. rewrite indices_cons, Forall_cons, <-IH.
  destruct (p x), (indices p l); cbn; naive_solver.
Qed.

Lemma indices_lookup {A} (p : A -> bool) l i : i ∈ indices p l -> exists x, l !! i = Some x /\ p x = true.
Proof.
  unfold indices. rewrite list_elem_of_omap. intros ([j x] & Hin & Hj).
  apply list_elem_of_lookup in Hin as [k Hk]. rewrite list_lookup_imap in Hk.
  destruct (l !! k) as [y|] eqn:Hy; simplify_eq/=. destruct (p x) eqn:Hp; simplify_eq. eauto.
Qed.

Lemma indices_head {A} (p : A -> bool) l i rest :
  indices p l = i :: rest ->
  exists b x a, l = b ++ x :: a /\ length b = i /\ p x = true
    /\ Forall (fun x => p x = false) b /\ rest = (Nat.add (S i) <$> indices p a).
Proof.
  revert i rest. induction l as [|y l IH]; intros i rest; [done|]. rewrite indices_cons.
  destruct (p y) eqn:Hy; cbn.
  - intros [= <- <-]. exists [], y, l. done.
  - destruct (indices p l) as [|j js] eqn:Hl; [done|]. intros [= <- <-].
    destruct (IH _ _ eq_refl) as (b & x & a & -> & <- & Hx & Hb & ->).
    exists (y :: b), x, a. repeat split; auto. rewrite <-list_fmap_compose. done.
Qed.

(** The last element that satisfies [p] is the last element. *)
Lemma rposition_last {A} (p : A -> bool) l i :
  rposition p l = Some i /\ i = length l - 1 <-> exists b x, l = b ++ [x] /\ p x = true /\ i = length b.
Proof.
  destruct l as [|x b _] using rev_ind.
  { split; [by intros [? _]|]. intros (b & x & H & _). by destruct b. }
  unfold rposition. rewrite indices_app, indices_cons, length_app.
  change (indices p []) with (@nil nat). split.
  - intros [Hi Hl]. exists b, x. destruct (p x) eqn:Hx; [split; [done|]; cbn in Hl; split; [done|lia]|].
    cbn in Hi, Hl. rewrite app_nil_r in Hi. apply last_Some_elem_of, indices_lookup in Hi as (y & Hy & _).
    apply lookup_lt_Some in Hy. lia.
  - intros (b' & x' & E & Hx & ->). apply app_inj_tail in E as [<- <-].
    rewrite Hx. cbn. rewrite last_snoc. split; [f_equal|]; lia.
Qed.

Lemma mw_steps_split b s a : mw_steps (Some (length b)) (b ++ s :: a) = b ++ a.
Proof.
  assert (K : forall (f : nat -> nat) (l : list Step), (forall i, i < length l -> f i <> length b) ->
    omap (fun '(i, s) => if bool_decide (Some i = Some (length b)) then None else Some s) (imap (fun i => pair (f i)) l) = l).
  { intros f l. revert f. induction l as [|x l IH]; intros f Hf; [done|]. cbn.
    rewrite bool_decide_eq_false_2; [|intros [= E]; apply (Hf 0) in E; [done|cbn; lia]].
    f_equal. apply (IH (f ∘ S)). intros i Hi. apply Hf. cbn. lia. }
  unfold mw_steps. rewrite imap_app, omap_app. cbn. rewrite Nat.add_0_r, bool_decide_eq_true_2 by done.
  f_equal; [apply (K id); unfold id; lia|].
  apply (K (fun i => length b + S i)). lia.
Qed.

(** ** Routes *)
Definition no_handlers (steps : list Step) : Prop := Forall (fun s => is_handler s = false) steps.

(** The steps of a route split into its middleware and its terminal step: the
    only handler, or the last step when that is a plugin and nothing is a
    handler. *)
Inductive terminal : list Step -> list Step -> Step -> Prop :=
| only_handler b s a :
    is_handler s = true -> no_handlers b -> no_handlers a -> terminal (b ++ s :: a) (b ++ a) s
| last_plugin b s :
    is_plugin s = true -> no_handlers (b ++ [s]) -> terminal (b ++ [s]) b s.

(** A reference [@n] occurs in a value, at any depth of arrays. *)
Inductive occurs (n : string) : Value -> Prop :=
| occurs_ref : occurs n (VRef n)
| occurs_item items i : i ∈ items -> occurs n (node i) -> occurs n (VArray items).

Definition arg_value (a : Arg) : Spanned Value := match a with Positional v | Named _ v => v end.

Lemma Value_nested_ind (P : Value -> Prop) :
  (forall items, Forall (fun i => P (node i)) items -> P (VArray items)) ->
  (forall v, (forall items, v <> VArray items) -> P v) -> forall v, P v.
Proof.
  intros HA HO. fix IH 1. intros [| | | | | | |items| | |]; try (apply HO; discriminate).
  apply HA. induction items as [|[v sp] items IHi]; constructor; [apply IH|apply IHi].
Qed.

Lemma elem_of_fmap_flat_map {A B C} (f : B -> C) (g : A -> list B) l y :
  y ∈ f <$> flat_map g l <-> exists x, x ∈ l /\ y ∈ f <$> g x.
Proof.
  induction l as [|x l IH]; cbn; [set_solver|]. rewrite fmap_app, elem_of_app, IH. set_solver.
Qed.

Lemma collect_refs_value_occurs v : forall n sp,
  n ∈ ref_name <$> collect_refs_value v sp <-> occurs n v.
Proof.
  induction v as [items IH|v Hv] using Value_nested_ind; intros n sp.
  - rewrite Forall_forall in IH. cbn [collect_refs_value]. rewrite elem_of_fmap_flat_map. split.
    + intros (i & Hi & Ho). apply (IH _ Hi) in Ho. by apply (occurs_item _ _ i).
    + inversion 1 as [|? i Hi Ho]; subst. exists i. by rewrite (IH _ Hi).
  - destruct v; cbn; try (split; [by inversion 1|inversion 1]; fail).
    + by destruct (Hv items).
    + rewrite list_elem_of_singleton. split; [intros ->; constructor|by inversion 1].
Qed.

Lemma collect_refs_occurs args n :
  n ∈ ref_name <$> collect_refs args <-> exists a, a ∈ args /\ occurs n (node (arg_value a)).
Proof.
  unfold collect_refs. rewrite elem_of_fmap_flat_map.
  split; intros (a & Ha & Ho); exists a; split; auto;
    [apply (collect_refs_value_occurs _ _ (span_of (arg_value a)))|
     apply (collect_refs_value_occurs _ _ (span_of (arg_value a))) in Ho]; by destruct a.
Qed.

(** What the lowering of a route keeps of it. *)
Record lowered_route (r : Route) (rd : RouteDef) : Prop := {
  lowered_kind : rd_kind rd = matcher_kind (route_matcher r);
  lowered_pattern : rd_pattern rd = node (matcher_pattern (route_matcher r));
  lowered_method : rd_method rd = to_ascii_uppercase ∘ pred_value <$>
    find_map (fun p => if (pred_key p =? "method")%string then Some p else None) (matcher_predicates (route_matcher r));
  lowered_span : rd_span rd = route_span r;
  lowered_refs n : n ∈ ref_name <$> refs rd <->
    exists s a, s ∈ route_steps r /\ a ∈ step_args s /\ occurs n (node (arg_value a));
  lowered_terminal mws s : terminal (route_steps r) mws s ->
    rd_handler rd = Some (build_handler s)
    /\ rd_middleware rd = (fun s => node (step_name s)) <$> mws
    /\ mw_specs rd = omap build_middleware mws;
}.

Definition errors_unless (P : Prop) (ds : list Diagnostic) : Prop :=
  (ds = [] <-> P) /\ Forall (fun d => diag_severity d = Error) ds.

Lemma errors_unless_nil (P : Prop) : P -> errors_unless P [].
Proof. by split. Qed.

Lemma errors_unless_cons (P : Prop) d ds :
  ~ P -> Forall (fun d => diag_severity d = Error) (d :: ds) -> errors_unless P (d :: ds).
Proof. intros HP Hd. by split. Qed.

Lemma errors_unless_app (P Q : Prop) ds es :
  errors_unless P ds -> errors_unless Q es -> errors_unless (P /\ Q) (ds ++ es).
Proof. intros [HP Hd] [HQ He]. split; [rewrite app_nil, HP, HQ; done|by apply Forall_app]. Qed.

Lemma errors_unless_iff (P Q : Prop) ds : (P <-> Q) -> errors_unless P ds -> errors_unless Q ds.
Proof. unfold errors_unless. by intros ->. Qed.

#[export] Instance errors_unless_proper : Proper (iff ==> (=) ==> iff) errors_unless.
Proof. unfold errors_unless. by intros P Q HPQ ds _ <-; rewrite HPQ. Qed.

(** The choice of the terminal step. *)
Lemma indices_one {A} (p : A -> bool) b x a :
  p x = true -> Forall (fun x => p x = false) b -> Forall (fun x => p x = false) a ->
  indices p (b ++ x :: a) = [length b].
Proof.
  intros Hx Hb%indices_nil Ha%indices_nil. rewrite indices_app, indices_cons, Hb, Hx, Ha. cbn.
  by rewrite Nat.add_0_r.
Qed.

Lemma terminal_indices steps mws s :
  terminal steps mws s ->
  (exists b a, steps = b ++ s :: a /\ mws = b ++ a /\ indices is_handler steps = [length b])
  \/ (exists b, steps = b ++ [s] /\ mws = b /\ indices is_handler steps = []
       /\ rposition is_plugin steps = Some (length b)).
Proof.
  destruct 1 as [b s a Hs Hb Ha|b s Hs Hn].
  - left. exists b, a. split; [done|]. split; [done|]. by apply indices_one.
  - right. exists b. split; [done|]. split; [done|]. split; [by apply indices_nil|].
    apply (rposition_last is_plugin (b ++ [s]) (length b)). by exists b, s.
Qed.

(** With the terminal step at index [length b], the split is unique. *)
Lemma terminal_unique b s a mws s' :
  terminal (b ++ s :: a) mws s' ->
  indices is_handler (b ++ s :: a) = [length b]
  \/ indices is_handler (b ++ s :: a) = [] /\ a = [] ->
  mws = b ++ a /\ s' = s.
Proof.
  intros [(b' & a' & E & -> & I)|(b' & E & -> & I & _)]%terminal_indices [J|[J ->]]; rewrite I in J; try done.
  - injection J as J. apply app_inj_1 in E as [-> [= -> ->]]; done.
  - apply app_inj_tail in E as [-> ->]. by rewrite app_nil_r.
Qed.

Lemma terminal_idx_spec {X} (r : Route) :
  exists t ds, terminal_idx (E := X) r = Ok (t, ds)
    /\ errors_unless (exists mws s, terminal (route_steps r) mws s) ds
    /\ match t with
       | Some i => exists s, route_steps r !! i = Some s
           /\ forall mws s', terminal (route_steps r) mws s' -> mw_steps t (route_steps r) = mws /\ s' = s
       | None => forall mws s', ~ terminal (route_steps r) mws s'
       end.
Proof.
  unfold terminal_idx. destruct (indices is_handler (route_steps r)) as [|i [|j js]] eqn:Hi.
  - destruct (decide (rposition is_plugin (route_steps r) = Some (length (route_steps r) - 1))) as [Hr|Hr].
    + destruct (proj1 (rposition_last is_plugin (route_steps r) _) (conj Hr eq_refl)) as (b & s & E & Hs & Hl).
      rewrite Hr, Nat.eqb_refl, Hl. exists (Some (length b)), []. split; [done|].
      rewrite E in *. split.
      * apply errors_unless_nil. exists b, s. constructor; [done|]. by apply indices_nil.
      * exists s. split; [by rewrite lookup_app_r, Nat.sub_diag by done|].
        intros mws s' [-> ->]%(terminal_unique b s []); [|by right]. by rewrite mw_steps_split.
    + assert (N : forall mws s', ~ terminal (route_steps r) mws s').
      { intros mws s' [(b & a & _ & _ & I)|(b & E & _ & _ & I)]%terminal_indices; [congruence|].
        apply Hr. rewrite I, E, length_app. cbn. f_equal. lia. }
      exists None, [no_handler r]. split.
      * destruct (rposition is_plugin (route_steps r)) as [i|] eqn:Ei; [|done].
        destruct (Nat.eqb_spec i (length (route_steps r) - 1)); [subst; congruence|done].
      * split; [|done]. apply errors_unless_cons; [naive_solver|by constructor].
  - apply indices_head in Hi as Hd. destruct Hd as (b & s & a & E & <- & Hs & Hb & Ha).
    symmetry in Ha. apply fmap_nil_inv, indices_nil in Ha.
    exists (Some (length b)), []. split; [done|]. rewrite E in *. split.
    + apply errors_unless_nil. exists (b ++ a), s. by constructor.
    + exists s. split; [by rewrite lookup_app_r, Nat.sub_diag by done|].
      intros mws s' [-> ->]%terminal_unique; [|by left]. by rewrite mw_steps_split.
  - assert (Hj : j ∈ indices is_handler (route_steps r)) by (rewrite Hi; set_solver).
    apply indices_head in Hi as Hd. destruct Hd as (b & s & a & E & <- & _).
    apply indices_lookup in Hj as (sj & Hsj & _). unfold at_index. rewrite Hsj.
    assert (N : forall mws s', ~ terminal (route_steps r) mws s').
    { intros mws s' [(b' & a' & _ & _ & I)|(b' & _ & _ & I & _)]%terminal_indices; congruence. }
    exists (Some (length b)), [multi_handler (step_span sj)]. split; [done|]. split.
    + apply errors_unless_cons; [naive_solver|by constructor].
    + exists s. split; [by rewrite E, lookup_app_r, Nat.sub_diag by done|].
      intros mws s' H. by apply N in H.
Qed.

Lemma lower_route_spec {X} (r : Route) :
  exists rd ds, lower_route (E := X) r = Ok (rd, ds) /\ lowered_route r rd
    /\ errors_unless (exists mws s, terminal (route_steps r) mws s) ds.
Proof.
  unfold lower_route. destruct (terminal_idx_spec (X := X) r) as (t & ds & -> & Hds & Ht). cbn.
  assert (R : forall n, n ∈ ref_name <$> flat_map (fun s => collect_refs (step_args s)) (route_steps r) <->
    exists s a, s ∈ route_steps r /\ a ∈ step_args s /\ occurs n (node (arg_value a))).
  { intros n. rewrite elem_of_fmap_flat_map. setoid_rewrite collect_refs_occurs. naive_solver. }
  destruct t as [i|]; cbn.
  - destruct Ht as (s & Hs & Hu). unfold at_index. rewrite Hs. cbn. do 2 eexists.
    split; [reflexivity|]. split; [|done]. split; try done. cbn. intros mws s' [-> ->]%Hu. done.
  - do 2 eexists. split; [reflexivity|]. split; [|done]. split; try done. intros mws s' H. by apply Ht in H.
Qed.

(** ** Documents *)

(** The blocks of a keyword, in order. *)
Definition blocks (k : string) (l : list Stmt) : list (Spanned string * list Arg * list Stmt) :=
  omap (fun s => match s with
                 | SBlock kw args body _ => if keyword_is kw k then Some (kw, args, body) else None
                 | _ => None
                 end) l.
Definition routes_in (l : list Stmt) : list Route :=
  omap (fun s => match s with SRoute r => Some r | _ => None end) l.
(** The version pins of a document. *)
Definition versions (l : list Stmt) : list string :=
  omap (fun s => match s with
                 | SDirective d =>
                   if keyword_is (directive_keyword d) "flow_version" then first_positional_str (directive_args d)
                   else None
                 | _ => None
                 end) l.
Definition document_routes (l : list Stmt) : list Route := flat_map (fun b => routes_in b.2) (blocks "site" l).
Definition document_hosts (l : list Stmt) : list Host := flat_map (fun b => omap site_host b.1.2) (blocks "site" l).

Definition has_terminal (r : Route) : Prop := exists mws s, terminal (route_steps r) mws s.

(** The TLS posture that the statements of a site leave it in. *)
Definition tls_stmt (t : TlsMode) (s : Stmt) : TlsMode :=
  match s with
  | SDirective d => if keyword_is (directive_keyword d) "tls" then tls_directive (directive_args d) else t
  | SBlock kw _ _ _ => if keyword_is kw "tls" then TlsManual else t
  | SRoute _ => t
  end.
Definition site_tls (body : list Stmt) : TlsMode := foldl tls_stmt TlsAuto body.

(** What the lowering of a site keeps of it. *)
Record lowered_site (b : Spanned string * list Arg * list Stmt) (st : Site) : Prop := {
  site_lowered_hosts : site_hosts st = omap site_host b.1.2;
  site_lowered_tls : tls st = site_tls b.2;
  site_lowered_routes : Forall2 lowered_route (routes_in b.2) (site_routes st);
}.

Lemma fold_exec_inv {X A B} (f : A -> B -> exec X A) (P : list B -> A -> Prop) a0 l :
  P [] a0 -> (forall l x a, P l a -> exists a', f a x = Ok a' /\ P (l ++ [x]) a') ->
  exists a, fold_exec f a0 l = Ok a /\ P l a.
Proof.
  intros H0 Hstep. enough (G : forall l2 l1 a, P l1 a -> exists a', fold_exec f a l2 = Ok a' /\ P (l1 ++ l2) a')
    by exact (G l [] a0 H0).
  induction l2 as [|x l2 IH]; intros l1 a Ha; cbn; [rewrite app_nil_r; eauto|].
  destruct (Hstep _ x _ Ha) as (a' & -> & Ha'). cbn.
  destruct (IH _ _ Ha') as (a'' & -> & HP). exists a''. by rewrite <-app_assoc in HP.
Qed.

Lemma lower_site_spec {X} kw args body sp :
  exists st ds, lower_site (E := X) args body sp = Ok (st, ds)
    /\ lowered_site (kw, args, body) st
    /\ errors_unless (Forall has_terminal (routes_in body)) ds.
Proof.
  destruct (fold_exec_inv (X := X) lower_site_stmt
    (fun l '(tls, routes, ds) => tls = site_tls l /\ Forall2 lowered_route (routes_in l) routes
       /\ errors_unless (Forall has_terminal (routes_in l)) ds) (TlsAuto, [], []) body)
    as ([[tls routes] ds] & Hf & Ht & Hr & Hd).
  { split; [done|]. split; [constructor|by apply errors_unless_nil]. }
  - intros l s [[tls routes] ds] (Ht & Hr & Hd).
    assert (Hs : routes_in (l ++ [s]) = routes_in l ++ match s with SRoute r => [r] | _ => [] end)
      by (unfold routes_in; rewrite omap_app; by destruct s).
    assert (Htl : site_tls (l ++ [s]) = tls_stmt tls s) by (unfold site_tls; by rewrite foldl_snoc, Ht).
    destruct s as [kw' ? ? ?|d|r]; cbn.
    1, 2: eexists; split; [reflexivity|]; by rewrite Hs, Htl, app_nil_r.
    destruct (lower_route_spec (X := X) r) as (rd & ds' & -> & Hrd & Hd'). eexists. split; [reflexivity|].
    rewrite Hs, Htl. split; [done|]. split; [by apply Forall2_app; [|constructor]|].
    eapply errors_unless_iff; [|by apply errors_unless_app]. rewrite Forall_app, Forall_singleton. done.
  - unfold lower_site. rewrite Hf. eexists _, ds. done.
Qed.

(** The name of a [users] block. *)
Definition user_set (b : Spanned string * list Arg * list Stmt) : option NamedDef :=
  (fun n => mk_named n (span_of b.1.1)) <$> first_positional_str b.1.2.

Lemma push_named_spec out kw args body : push_named out kw args = out ++ option_list (user_set (kw, args, body)).
Proof.
  unfold push_named, user_set, first_positional_str. cbn [fst snd].
  destruct (first_positional args) as [[]|]; cbn; by rewrite ?app_nil_r.
Qed.

(** What the lowering of a document keeps of it. *)
Record lowered (env : string -> option string) (l : list Stmt) (c : Config) : Prop := {
  lowered_version : flow_version c = last (versions l);
  lowered_upstreams : upstreams c = (fun '(kw, args, body) => lower_upstream env kw args body) <$> blocks "upstream" l;
  lowered_caches : caches c = (fun '(kw, args, body) => lower_cache kw args body) <$> blocks "cache" l;
  lowered_wafs : wafs c = (fun '(kw, args, body) => lower_waf kw args body) <$> blocks "waf" l;
  lowered_users : user_sets c = omap user_set (blocks "users" l);
  lowered_sites : Forall2 lowered_site (blocks "site" l) (sites c);
}.

(** The hosts and the routes of a document, sites aside. *)
Lemma lowered_hosts env l c : lowered env l c -> flat_map site_hosts (sites c) = document_hosts l.
Proof.
  intros Hl. unfold document_hosts. induction (lowered_sites _ _ _ Hl) as [|b st bs sts Hs _ IH]; [done|].
  cbn. by rewrite IH, (site_lowered_hosts _ _ Hs).
Qed.
Lemma lowered_routes env l c : lowered env l c -> Forall2 lowered_route (document_routes l) (all_routes c).
Proof.
  intros Hl. unfold document_routes, all_routes. induction (lowered_sites _ _ _ Hl) as [|b st bs sts Hs _ IH]; [constructor|].
  cbn. apply Forall2_app; [by apply site_lowered_routes|done].
Qed.

Lemma flat_map_snoc {A B} (f : A -> list B) l x : flat_map f (l ++ [x]) = flat_map f l ++ f x.
Proof. rewrite flat_map_app. cbn. by rewrite app_nil_r. Qed.

Lemma keyword_is_true kw k : keyword_is kw k = true <-> node kw = k.
Proof. apply String.eqb_eq. Qed.

Lemma blocks_snoc k l s :
  blocks k (l ++ [s]) =
    blocks k l ++ match s with
                  | SBlock kw args body _ => if keyword_is kw k then [(kw, args, body)] else []
                  | _ => []
                  end.
Proof.
  unfold blocks. rewrite omap_app. f_equal. destruct s as [kw ? ? ?|?|?]; cbn; [|done..]. by destruct keyword_is.
Qed.

Lemma versions_snoc l s :
  versions (l ++ [s]) =
    versions l ++ match s with
                  | SDirective d =>
                    if keyword_is (directive_keyword d) "flow_version"
                    then match first_positional_str (directive_args d) with Some v => [v] | None => [] end
                    else []
                  | _ => []
                  end.
Proof.
  unfold versions. rewrite omap_app. f_equal. destruct s as [|d|]; cbn; [done| |done].
  destruct keyword_is; [|done]. by destruct first_positional_str.
Qed.

Lemma has_spec l s : has l s = true <-> s ∈ l.
Proof.
  unfold has. rewrite existsb_exists. setoid_rewrite <-list_elem_of_In. setoid_rewrite String.eqb_eq. naive_solver.
Qed.

Lemma document_routes_snoc l s :
  document_routes (l ++ [s]) =
    document_routes l ++ match s with
                         | SBlock kw _ body _ => if keyword_is kw "site" then routes_in body else []
                         | _ => []
                         end.
Proof.
  unfold document_routes. rewrite blocks_snoc, flat_map_app. f_equal.
  destruct s as [kw ? ? ?|?|?]; [|done..]. destruct keyword_is; [apply app_nil_r|done].
Qed.

Lemma lower_block_spec {X} env debug_str kw args body sp c ds l :
  lowered env l c ->
  let s := SBlock kw args body sp in
  exists c' ds', lower_stmt (E := X) env debug_str (c, ds) s = Ok (c', ds ++ ds')
    /\ lowered env (l ++ [s]) c'
    /\ errors_unless (Forall has_terminal (if keyword_is kw "site" then routes_in body else [])) ds'.
Proof.
  intros [Hv Hu Hca Hw Hus Hss] s. subst s. destruct c as [fv ups cas wfs us sts]. cbn [lower_stmt]. cbn in *.
  destruct (keyword_is kw "site") eqn:Hs.
  - apply keyword_is_true in Hs as Hn. unfold keyword_is. rewrite Hn. cbn.
    destruct (lower_site_spec (X := X) kw args body sp) as (st & ds' & -> & Hst & Hds). cbn.
    do 2 eexists. split; [reflexivity|]. split; [|done].
    split; cbn; rewrite ?versions_snoc, ?blocks_snoc; unfold keyword_is; rewrite ?Hn; cbn; rewrite ?app_nil_r; auto.
    apply Forall2_app; [done|]. by constructor.
  - unfold keyword_is in *.
    destruct (String.eqb_spec (node kw) "upstream") as [Hn|H1];
      [|destruct (String.eqb_spec (node kw) "cache") as [Hn|H2];
        [|destruct (String.eqb_spec (node kw) "waf") as [Hn|H3];
          [|destruct (String.eqb_spec (node kw) "users") as [Hn|H4]]]].
    all: eexists _, []; rewrite app_nil_r; (split; [rewrite ?Hs; reflexivity|]); (split; [|by apply errors_unless_nil]).
    all: split; cbn; rewrite ?versions_snoc, ?blocks_snoc; unfold keyword_is;
      rewrite ?Hs; try rewrite Hn; cbn; rewrite ?app_nil_r, ?fmap_app, ?omap_app; cbn; try congruence; auto.
    all: repeat (match goal with |- context [(?x =? ?y)%string] => destruct (String.eqb_spec x y); [congruence|] end);
      rewrite ?app_nil_r; try done.
    rewrite Hus, (push_named_spec _ _ _ body). by destruct (user_set (kw, args, body)).
Qed.

Lemma lower_directive_spec {X} env debug_str d c ds l :
  lowered env l c ->
  let vs := if keyword_is (directive_keyword d) "flow_version"
            then match first_positional_str (directive_args d) with Some v => [v] | None => [] end
            else [] in
  exists c' ds', lower_stmt (E := X) env debug_str (c, ds) (SDirective d) = Ok (c', ds ++ ds')
    /\ lowered env (l ++ [SDirective d]) c'
    /\ errors_unless (Forall (fun v => v ∈ SUPPORTED_FLOW_VERSIONS) vs) ds'.
Proof.
  intros [Hv Hu Hca Hw Hus Hss] vs. destruct c as [fv ups cas wfs us sts]. cbn [lower_stmt]. cbn in *.
  assert (Hskip : vs = [] -> lowered env (l ++ [SDirective d]) (mk_config fv ups cas wfs us sts)).
  { intros Hvs. split; cbn; rewrite ?versions_snoc, ?blocks_snoc, ?app_nil_r; auto.
    fold vs. by rewrite Hvs, app_nil_r. }
  unfold vs, first_positional_str in *. destruct keyword_is eqn:Hk; cbn in *.
  2:{ eexists _, []. rewrite app_nil_r. split; [done|]. split; [auto|by apply errors_unless_nil]. }
  destruct (first_positional (directive_args d)) as [[v| | | | | | | | | |]|] eqn:Hf; cbn.
  2-12: eexists _, []; rewrite app_nil_r; split; [done|]; split; [auto|by apply errors_unless_nil].
  do 2 eexists. split; [reflexivity|]. split.
  - split; cbn; rewrite ?versions_snoc, ?blocks_snoc, ?app_nil_r; auto.
    unfold first_positional_str. rewrite Hk, Hf. cbn. by rewrite last_snoc.
  - pose proof (has_spec SUPPORTED_FLOW_VERSIONS v) as Hv'.
    assert (G : errors_unless (Forall (fun v => v ∈ SUPPORTED_FLOW_VERSIONS) [v])
                  (if has SUPPORTED_FLOW_VERSIONS v then [] else [bad_version debug_str v (directive_span d)]));
      [|exact G].
    destruct has; [apply errors_unless_nil|apply errors_unless_cons; [|by constructor]];
      rewrite Forall_singleton; naive_solver.
Qed.

Lemma lower_spec {X} env debug_str ast :
  exists c ds, lower (E := X) env debug_str ast = Ok (c, ds)
    /\ lowered env (stmts ast) c
    /\ errors_unless (Forall (fun v => v ∈ SUPPORTED_FLOW_VERSIONS) (versions (stmts ast))
                      /\ Forall has_terminal (document_routes (stmts ast))) ds.
Proof.
  destruct (fold_exec_inv (X := X) (lower_stmt env debug_str)
    (fun l '(c, ds) => lowered env l c
       /\ errors_unless (Forall (fun v => v ∈ SUPPORTED_FLOW_VERSIONS) (versions l)
                         /\ Forall has_terminal (document_routes l)) ds)
    (mk_config None [] [] [] [] [], []) (stmts ast)) as ([c ds] & Hf & Hc & Hd).
  { split; [split; done|]. by apply errors_unless_nil. }
  2:{ exists c, ds. done. }
  clear. intros l s [c ds] [Hc Hd]. destruct s as [kw args body sp|d|r].
  - destruct (lower_block_spec (X := X) env debug_str kw args body sp c ds l Hc)
      as (c' & ds' & -> & Hc' & Hd'). exists (c', ds ++ ds'). split; [done|]. split; [done|].
    rewrite versions_snoc, app_nil_r, document_routes_snoc.
    eapply errors_unless_iff; [|by apply errors_unless_app]. rewrite Forall_app. naive_solver.
  - destruct (lower_directive_spec (X := X) env debug_str d c ds l Hc)
      as (c' & ds' & -> & Hc' & Hd'). exists (c', ds ++ ds'). split; [done|]. split; [done|].
    rewrite versions_snoc, document_routes_snoc, app_nil_r.
    eapply errors_unless_iff; [|by apply errors_unless_app]. rewrite Forall_app. naive_solver.
  - exists (c, ds). split; [by destruct c|]. rewrite versions_snoc, document_routes_snoc, !app_nil_r.
    split; [|done]. destruct Hc. split; by rewrite ?versions_snoc, ?blocks_snoc, ?app_nil_r.
Qed.

(** ** Validation *)

(** A configuration is well formed: names are unique within each kind, every
    reference is defined, no credentialed CORS policy lists the wildcard, and
    no host is claimed twice. *)
Record well_formed (c : Config) : Prop := {
  unique_upstreams : NoDup (nm_name <$> upstream_names c);
  unique_caches : NoDup (nm_name <$> cache_names c);
  unique_wafs : NoDup (nm_name <$> waf_names c);
  unique_users : NoDup (nm_name <$> user_sets c);
  refs_defined : forall r u, r ∈ all_routes c -> u ∈ refs r -> ref_name u ∈ nm_name <$> defined_names c;
  no_wildcard_credentials : forall r origins methods,
    r ∈ all_routes c -> SpecCors origins methods true ∈ mw_specs r -> "*" ∉ origins;
  unique_hosts : NoDup (host_pattern <$> flat_map site_hosts (sites c));
}.

Lemma errors_unless_flat_map {A} (P : A -> Prop) (f : A -> list Diagnostic) l :
  (forall x, errors_unless (P x) (f x)) -> errors_unless (forall x, x ∈ l -> P x) (flat_map f l).
Proof.
  intros Hf. induction l as [|x l IH]; [apply errors_unless_nil; set_solver|].
  eapply errors_unless_iff; [|by apply errors_unless_app]. set_solver.
Qed.

(** The scans for a repeated key, with the keys seen so far. *)
Lemma NoDup_fresh {A} (seen l : list A) x :
  x ∉ seen ->
  ((forall y, y ∈ l -> y ∉ seen ++ [x]) /\ NoDup l <-> (forall y, y ∈ x :: l -> y ∉ seen) /\ NoDup (x :: l)).
Proof.
  intros Hx. rewrite NoDup_cons. split.
  - intros [H1 H2]. split; [set_solver|]. split; [|done]. intros H. apply (H1 _ H). set_solver.
  - intros [H1 [H2 H3]]. split; [|done]. intros y Hy. rewrite elem_of_app, list_elem_of_singleton.
    intros [Hs| ->]; [|done]. by apply (H1 y); [right|].
Qed.

Lemma check_dup_from_spec kind names : forall seen,
  errors_unless ((forall n, n ∈ nm_name <$> names -> n ∉ seen) /\ NoDup (nm_name <$> names))
    (check_dup_from kind seen names).
Proof.
  induction names as [|n names IH]; intros seen; cbn [check_dup_from].
  { apply errors_unless_nil. split; [set_solver|constructor]. }
  pose proof (has_spec seen (nm_name n)) as Hs. destruct has.
  - apply errors_unless_cons; [|constructor; [done|apply IH]].
    intros [H _]. apply (H (nm_name n)); [set_solver|by apply Hs].
  - eapply errors_unless_iff; [|apply IH]. apply NoDup_fresh. naive_solver.
Qed.

Lemma check_hosts_from_spec hosts : forall seen,
  errors_unless ((forall n, n ∈ host_pattern <$> hosts -> n ∉ seen) /\ NoDup (host_pattern <$> hosts))
    (check_hosts_from seen hosts).
Proof.
  induction hosts as [|n hosts IH]; intros seen; cbn [check_hosts_from].
  { apply errors_unless_nil. split; [set_solver|constructor]. }
  pose proof (has_spec seen (host_pattern n)) as Hs. destruct has.
  - apply errors_unless_cons; [|constructor; [done|apply IH]].
    intros [H _]. apply (H (host_pattern n)); [set_solver|by apply Hs].
  - eapply errors_unless_iff; [|apply IH]. apply NoDup_fresh. naive_solver.
Qed.

Lemma check_ref_spec defined r :
  errors_unless (ref_name r ∈ nm_name <$> defined) (check_ref defined r).
Proof.
  unfold check_ref.
  assert (H : existsb (fun n => (nm_name n =? ref_name r)%string) defined = true <-> ref_name r ∈ nm_name <$> defined).
  { rewrite existsb_exists, list_elem_of_fmap. setoid_rewrite <-list_elem_of_In. setoid_rewrite String.eqb_eq.
    naive_solver. }
  destruct existsb; [apply errors_unless_nil; naive_solver|].
  apply errors_unless_cons; [naive_solver|]. constructor; [|done]. by destruct nearest.
Qed.

Lemma check_cors_spec sp m :
  errors_unless (forall origins methods, m = SpecCors origins methods true -> "*" ∉ origins) (check_cors sp m).
Proof.
  destruct m as [|origins methods credentials| | |]; try (by apply errors_unless_nil).
  cbn. pose proof (has_spec origins "*") as Hs. destruct credentials; [|by apply errors_unless_nil].
  cbn. destruct has; [apply errors_unless_cons; [|by constructor]|apply errors_unless_nil]; naive_solver.
Qed.

#[export] Hint Resolve errors_unless_nil errors_unless_app errors_unless_flat_map : diagnostics.
#[export] Hint Resolve check_dup_from_spec check_hosts_from_spec : diagnostics.

Lemma validate_spec c : errors_unless (well_formed c) (validate c).
Proof.
  eapply errors_unless_iff.
  2:{ unfold validate, check_dup_names, check_host_collisions. repeat apply errors_unless_app;
        try (apply errors_unless_flat_map; intros r; apply errors_unless_flat_map);
        [eauto with diagnostics..|apply check_ref_spec|apply check_cors_spec|eauto with diagnostics]. }
  assert (E : forall l : list string, (forall n, n ∈ l -> n ∉ []) /\ NoDup l <-> NoDup l) by set_solver.
  rewrite !E. split.
  - intros (?&?&?&?&?&?&?). split; eauto.
  - intros []. naive_solver.
Qed.

(** ** Compilation *)

(** What makes a document acceptable: its version pins, its routes, and the
    configuration it lowers to. *)
Definition acceptable (l : list Stmt) (c : Config) : Prop :=
  Forall (fun v => v ∈ SUPPORTED_FLOW_VERSIONS) (versions l)
  /\ Forall has_terminal (document_routes l)
  /\ well_formed c.

Definition refused {A} (m : exec (list Diagnostic) A) : Prop :=
  exists errs, m = Err errs /\ errs <> [] /\ Forall (fun d => diag_severity d = Error) errs.

Lemma filter_errors ds :
  Forall (fun d => diag_severity d = Error) ds ->
  List.filter is_error ds = ds /\ List.filter (fun d => negb (is_error d)) ds = [].
Proof.
  induction 1 as [|d ds Hd _ [IH1 IH2]]; [done|].
  assert (E : is_error d = true) by (by apply bool_decide_eq_true_2). cbn. rewrite E. cbn. by rewrite IH1, IH2.
Qed.

Lemma compile_spec env debug_str debug_value debug_config text generation :
  match flow_parse debug_value text with
  | Ok ast =>
    exists c, lowered env (stmts ast) c
      /\ (acceptable (stmts ast) c
          /\ compile env debug_str debug_value debug_config text generation
             = Ok (mk_compiled c (build_snapshot debug_config c generation) [])
          \/ ~ acceptable (stmts ast) c
             /\ refused (compile env debug_str debug_value debug_config text generation))
  | Err _ => refused (compile env debug_str debug_value debug_config text generation)
  | Panic => compile env debug_str debug_value debug_config text generation = Panic
             /\ bad_escape text
  | OutOfFuel => False
  end.
Proof.
  pose proof (flow_parse_spec debug_value text) as Hp. unfold compile.
  destruct (flow_parse debug_value text) as [ast|d| |]; cbn in *; [|..|done].
  2:{ exists [d]. destruct Hp as [Hd _]. split; [done|]. split; [done|]. by constructor. }
  2: done.
  destruct (lower_spec (X := list Diagnostic) env debug_str ast) as (c & ds & -> & Hl & Hds). cbn.
  exists c. split; [done|].
  pose proof (errors_unless_app _ _ _ _ Hds (validate_spec c)) as [Hiff Hall].
  destruct (filter_errors _ Hall) as [-> ->]. unfold acceptable.
  destruct (ds ++ validate c) as [|d errs].
  - left. split; [|done]. naive_solver.
  - right. split; [naive_solver|]. by exists (d :: errs).
Qed.

Lemma compile_Ok env debug_str debug_value debug_config text generation c :
  compile env debug_str debug_value debug_config text generation = Ok c ->
  well_formed (config c) /\ snapshot_generation (snapshot c) = generation
  /\ Forall (fun rd => is_Some (rd_handler rd)) (all_routes (config c)).
Proof.
  intros H. pose proof (compile_spec env debug_str debug_value debug_config text generation) as S.
  destruct (flow_parse debug_value text) as [ast|d| |]; [|..|done].
  - destruct S as (c' & Hl & [[(_ & Ht & Hw) E]|[_ (errs & E & _)]]); [|congruence].
    rewrite H in E. injection E as ->. split; [done|]. split; [done|].
    apply Forall_lookup. intros i rd Hrd. cbn in Hrd.
    destruct (Forall2_lookup_r _ _ _ _ _ (lowered_routes _ _ _ Hl) Hrd) as (r & Hr & Hlr).
    destruct (Forall_lookup_1 _ _ _ _ Ht Hr) as (mws & s & Hms).
    destruct (lowered_terminal _ _ Hlr _ _ Hms) as [-> _]. done.
  - destruct S as (errs & E & _). congruence.
  - destruct S. congruence.
Qed.

(** C2. Validation is total before publish: compiling a text refuses it with
    a non-empty list of error diagnostics, or yields a snapshot, and it yields
    one exactly when the text parses, every version pin is supported, every
    route has one terminal handler, names are unique per kind, references are
    defined, hosts are claimed once and no credentialed CORS policy lists the
    wildcard.  The configuration published is the lowering of the document:
    its upstreams, caches, WAF rulesets and hosts in order, and each route
    with its pattern, references, middleware and handler.  The only panic is
    the lexer's. *)
Theorem compile_correct env debug_str debug_value debug_config text generation :
  match flow_parse debug_value text with
  | Ok ast =>
    exists c, lowered env (stmts ast) c
      /\ (acceptable (stmts ast) c
          /\ compile env debug_str debug_value debug_config text generation
             = Ok (mk_compiled c (build_snapshot debug_config c generation) [])
          \/ ~ acceptable (stmts ast) c
             /\ refused (compile env debug_str debug_value debug_config text generation))
  | Err _ => refused (compile env debug_str debug_value debug_config text generation)
  | Panic => compile env debug_str debug_value debug_config text generation = Panic
             /\ bad_escape text
  | OutOfFuel => False
  end.
Proof. apply compile_spec. Qed.
