(* ===== verification/ConfigSuggest.v ===== *)
(** * [pulsate-config]: the "did you mean" suggestion

    The two-row table of [levenshtein] computes the least number of single
    character edits, and [nearest] picks the first of the closest names. *)

From Stdlib Require Import ZArith Ascii String Lia.
From stdpp Require Import base option list gmap strings.
From S2P Require Import Prelude RustStr FlowSyntax ConfigModel Config.
Import Model Compile.
Local Open Scope string_scope.
Local Open Scope list_scope.

(** [n] insertions, deletions and substitutions turn one text into another. *)
Inductive edits : list Z -> list Z -> nat -> Prop :=
| edits_nil : edits [] [] 0
| edits_keep x a b n : edits a b n -> edits (x :: a) (x :: b) n
| edits_subst x y a b n : edits a b n -> edits (x :: a) (y :: b) (S n)
| edits_delete x a b n : edits a b n -> edits (x :: a) b (S n)
| edits_insert y a b n : edits a b n -> edits a (y :: b) (S n).

Lemma edits_app a b n a' b' m : edits a b n -> edits a' b' m -> edits (a ++ a') (b ++ b') (n + m).
Proof. induction 1; intros; cbn; eauto using edits. Qed.

Lemma edits_rev a b n : edits a b n -> edits (rev a) (rev b) n.
Proof.
  assert (K : forall a b n a' b' m k, edits a b n -> edits a' b' m -> n + m = k -> edits (a ++ a') (b ++ b') k)
    by (intros; subst; by apply edits_app).
  induction 1; cbn; [constructor|..].
  - eapply K; [done|apply edits_keep, edits_nil|lia].
  - eapply K; [done|apply edits_subst, edits_nil|lia].
  - rewrite <-(app_nil_r (rev b)). eapply K; [done|apply edits_delete, edits_nil|lia].
  - rewrite <-(app_nil_r (rev a)). eapply K; [done|apply edits_insert, edits_nil|lia].
Qed.

(** ** The recursive distance *)
Definition cost (x y : Z) : nat := if bool_decide (x = y) then 0 else 1.

Fixpoint dist (a : list Z) : list Z -> nat :=
  match a with
  | [] => fun b => length b
  | x :: a' =>
    fix go b :=
      match b with
      | [] => S (length a')
      | y :: b' => Nat.min (Nat.min (dist a' b + 1) (go b' + 1)) (dist a' b' + cost x y)
      end
  end.

Lemma dist_nil_r a : dist a [] = length a.
Proof. by destruct a. Qed.

Lemma dist_cons x a y b :
  dist (x :: a) (y :: b) = Nat.min (Nat.min (dist a (y :: b) + 1) (dist (x :: a) b + 1)) (dist a b + cost x y).
Proof. done. Qed.

Lemma edits_nil_l b : edits [] b (length b).
Proof. induction b; cbn; eauto using edits. Qed.
Lemma edits_nil_r a : edits a [] (length a).
Proof. induction a; cbn; eauto using edits. Qed.

Lemma edits_dist a : forall b, edits a b (dist a b).
Proof.
  induction a as [|x a IHa]; [apply edits_nil_l|].
  induction b as [|y b IHb]; [apply (edits_nil_r (x :: a))|]. rewrite dist_cons.
  destruct (Nat.min_spec (dist a (y :: b) + 1) (dist (x :: a) b + 1)) as [[_ ->]|[_ ->]];
    match goal with |- context [Nat.min ?m ?k] => destruct (Nat.min_spec m k) as [[_ ->]|[_ ->]] end;
    rewrite ?Nat.add_1_r; eauto using edits.
  all: unfold cost; case_bool_decide; subst; rewrite ?Nat.add_0_r, ?Nat.add_1_r; eauto using edits.
Qed.

Lemma dist_step_l x a b : dist (x :: a) b <= S (dist a b).
Proof. destruct b; [by rewrite !dist_nil_r|rewrite dist_cons; lia]. Qed.

Lemma dist_step_r a y b : dist a (y :: b) <= S (dist a b).
Proof. destruct a; [done|rewrite dist_cons; lia]. Qed.

Lemma dist_le_edits a b n : edits a b n -> dist a b <= n.
Proof.
  induction 1 as [|x a b n _ IH|x y a b n _ IH|x a b n _ IH|y a b n _ IH]; [done|..].
  - rewrite dist_cons. unfold cost. rewrite bool_decide_eq_true_2 by done. lia.
  - rewrite dist_cons. unfold cost. case_bool_decide; lia.
  - pose proof (dist_step_l x a b). lia.
  - pose proof (dist_step_r a y b). lia.
Qed.

(** ** The table *)

(** The cells of a row from column [length rp] on: [ra] and [rp] are the
    prefixes read so far, reversed. *)
Fixpoint row (ra rp b : list Z) : list nat :=
  dist ra rp :: match b with [] => [] | c :: b' => row ra (c :: rp) b' end.

Lemma row_cons ra rp b : exists r, row ra rp b = dist ra rp :: r.
Proof. destruct b; eauto. Qed.

Lemma lev_cells_row x ra b : forall rp,
  dist (x :: ra) rp :: lev_cells x b (row ra rp b) (dist (x :: ra) rp) = row (x :: ra) rp b.
Proof.
  induction b as [|c b IH]; intros rp; [done|]. cbn [row lev_cells].
  destruct (row_cons ra (c :: rp) b) as [r Hr]. rewrite Hr. f_equal.
  change (if bool_decide (x = c) then 0 else 1) with (cost x c).
  rewrite <-(dist_cons x ra c rp), <-Hr. apply IH.
Qed.

Lemma lev_rows_row a b : forall ra,
  lev_rows (length ra) a b (row ra [] b) = row (rev a ++ ra) [] b.
Proof.
  induction a as [|x a IH]; intros ra; [done|]. cbn [lev_rows].
  pose proof (lev_cells_row x ra b []) as E. rewrite dist_nil_r in E. cbn [length] in E. rewrite E.
  etransitivity; [exact (IH (x :: ra))|]. cbn. by rewrite <-app_assoc.
Qed.

Lemma row_nil b : forall rp, row [] rp b = seq (length rp) (S (length b)).
Proof. induction b as [|c b IH]; intros rp; [done|]. cbn [row]. rewrite (IH (c :: rp)). done. Qed.

Lemma row_last ra b : forall rp, row ra rp b !! length b = Some (dist ra (rev b ++ rp)).
Proof.
  induction b as [|c b IH]; intros rp; [done|]. cbn. rewrite IH. cbn. by rewrite <-app_assoc.
Qed.

Lemma levenshtein_dist s t : levenshtein s t = dist (rev (chars s)) (rev (chars t)).
Proof.
  unfold levenshtein. change (seq 0 (S (length (chars t)))) with (seq (length (@nil Z)) (S (length (chars t)))).
  rewrite <-row_nil. change O with (length (@nil Z)) at 2. rewrite lev_rows_row, row_last. cbn.
  by rewrite !app_nil_r.
Qed.

Lemma levenshtein_least s t :
  edits (chars s) (chars t) (levenshtein s t)
  /\ forall n, edits (chars s) (chars t) n -> levenshtein s t <= n.
Proof.
  rewrite levenshtein_dist. split.
  - rewrite <-(rev_involutive (chars s)), <-(rev_involutive (chars t)) at 1. apply edits_rev, edits_dist.
  - intros n H. by apply dist_le_edits, edits_rev.
Qed.

(** ** The choice *)
Definition first_min (l : list (nat * string)) (best : option (nat * string)) : Prop :=
  match best with
  | None => l = []
  | Some (d, s) => exists l1 l2, l = l1 ++ (d, s) :: l2
      /\ Forall (fun x => d < x.1) l1 /\ Forall (fun x => d <= x.1) l2
  end.

Lemma foldl_nearer l : first_min l (foldl nearer None l).
Proof.
  induction l as [|x l IH] using rev_ind; [done|]. rewrite foldl_snoc. unfold nearer at 1.
  destruct (foldl nearer None l) as [[d s]|]; cbn in IH.
  - destruct IH as (l1 & l2 & -> & H1 & H2). destruct x as [e t]. cbn [fst].
    destruct (Nat.ltb_spec e d); cbn.
    + exists (l1 ++ (d, s) :: l2), []. split; [done|]. split; [|done].
      apply Forall_app. split; [|constructor; [done|]]; eapply Forall_impl; eauto; cbn; lia.
    + exists l1, (l2 ++ [(e, t)]). rewrite <-app_assoc. split; [done|]. split; [done|].
      apply Forall_app. split; [done|]. by repeat constructor.
  - subst. destruct x. exists [], []. by repeat constructor.
Qed.

Definition close_names (name : string) (defined : list NamedDef) : list (nat * string) :=
  filter (fun x : nat * string => x.1 <= 2) ((fun n => (levenshtein name (nm_name n), nm_name n)) <$> defined).

Lemma elem_of_close_names name defined d s :
  (d, s) ∈ close_names name defined <->
  s ∈ nm_name <$> defined /\ d = levenshtein name s /\ d <= 2.
Proof.
  unfold close_names. rewrite list_elem_of_filter, !list_elem_of_fmap. cbn. split.
  - intros (Hd & n & [= -> ->] & Hn). naive_solver.
  - intros ((n & -> & Hn) & -> & Hd). naive_solver.
Qed.

(** A suggestion for an undefined reference is a defined name that takes
    at most two insertions, deletions or substitutions of a character, and no
    defined name takes fewer; there is none only when every defined name
    takes more than two. *)
Theorem nearest_correct (name : string) (defined : list NamedDef) :
  match nearest name defined with
  | Some s =>
    s ∈ nm_name <$> defined
    /\ exists d, d <= 2 /\ edits (chars name) (chars s) d
       /\ forall t m, t ∈ nm_name <$> defined -> edits (chars name) (chars t) m -> d <= m
  | None => forall t m, t ∈ nm_name <$> defined -> edits (chars name) (chars t) m -> 2 < m
  end.
Proof.
  pose proof (foldl_nearer (close_names name defined)) as H. unfold nearest. fold (close_names name defined).
  destruct (foldl nearer None (close_names name defined)) as [[d s]|]; cbn in *.
  - destruct H as (l1 & l2 & E & H1 & H2).
    assert (Hs : (d, s) ∈ close_names name defined) by (rewrite E; set_solver).
    apply elem_of_close_names in Hs as (Hs & Hd & Hle). split; [done|].
    exists d. split; [done|]. split; [rewrite Hd; apply levenshtein_least|]. intros t m Ht He.
    apply levenshtein_least in He. destruct (decide (levenshtein name t <= 2)) as [Hl|]; [|lia].
    assert (Hin : (levenshtein name t, t) ∈ close_names name defined) by by apply elem_of_close_names.
    rewrite Forall_forall in H1. rewrite Forall_forall in H2. rewrite E, elem_of_app, elem_of_cons in Hin.
    destruct Hin as [Hin|[[= Ht' _]|Hin]]; [apply H1 in Hin|lia|apply H2 in Hin]; cbn in Hin; lia.
  - intros t m Ht He. apply levenshtein_least in He.
    destruct (decide (levenshtein name t <= 2)); [|lia].
    assert (Hin : (levenshtein name t, t) ∈ close_names name defined) by by apply elem_of_close_names.
    rewrite H in Hin. by apply not_elem_of_nil in Hin.
Qed.
