(* ===== verification/ConfigStore.v ===== *)
(** * [pulsate-config]: the live configuration store

    [store.rs].  An operation is first written as the code reads, on a store no
    other thread touches; then as the sequence of its atomic actions
    ([fetch_add], the loads and stores of the two [ArcSwap]s), which a schedule
    may interleave with those of other threads. *)

From Stdlib Require Import ZArith Ascii String Lia.
From stdpp Require Import base option list gmap strings.
From S2P Require Import Prelude RustStr CoreTypes FlowSyntax ConfigModel Config.
Import Model.
Local Open Scope list_scope.
Local Open Scope Z_scope.
Local Open Scope rust_scope.

Module Store.

Record Generation := mk_generation { gen_config : Config; gen_snapshot : ConfigSnapshot }.

Record ConfigStore := mk_store {
  current : Generation;
  previous : option Generation;
  next_generation : Z;
}.

Definition generation_of (c : Compile.Compiled) : Generation :=
  mk_generation (Compile.config c) (Compile.snapshot c).

Definition store_generation (s : ConfigStore) : Z := snapshot_generation (gen_snapshot (current s)).

Section Store.
(** [compile], at the environment and renderings of the process. *)
Variable compile : string -> Z -> exec (list Diagnostic) Compile.Compiled.

Definition load (text : string) : exec (list Diagnostic) ConfigStore :=
  compiled ← compile text 0;
  Ok (mk_store (generation_of compiled) None 1).

(** ** The operations, alone *)
Definition reload (text : string) (s : ConfigStore) : exec (list Diagnostic) Generation * ConfigStore :=
  let gen_num := next_generation s in
  let s := mk_store (current s) (previous s) (next_generation s +₆₄ 1) in
  match compile text gen_num with
  | Ok compiled =>
    let new_gen := generation_of compiled in
    let outgoing := current s in
    let s := mk_store (current s) (Some outgoing) (next_generation s) in
    (Ok new_gen, mk_store new_gen (previous s) (next_generation s))
  | Err e => (Err e, s)
  | Panic => (Panic, s)
  | OutOfFuel => (OutOfFuel, s)
  end.

Definition rollback (s : ConfigStore) : option Generation * ConfigStore :=
  match previous s with
  | None => (None, s)
  | Some restored =>
    let outgoing := current s in
    (Some restored, mk_store restored (Some outgoing) (next_generation s))
  end.

(** ** The operations, one atomic action at a time *)
Inductive Outcome :=
| Reloaded (r : exec (list Diagnostic) Generation)
| RolledBack (r : option Generation).

(** Where a thread is in its operation, with its local variables. *)
Inductive Thread :=
| ReloadStart (text : string)
| ReloadCompile (text : string) (gen_num : Z)
| ReloadDemote (new_gen : Generation)
| ReloadStorePrevious (new_gen outgoing : Generation)
| ReloadPublish (new_gen : Generation)
| RollbackStart
| RollbackOutgoing (restored : Generation)
| RollbackPublish (restored outgoing : Generation)
| RollbackStorePrevious (restored outgoing : Generation)
| Finished (o : Outcome).

Definition thread_step (t : Thread) (s : ConfigStore) : Thread * ConfigStore :=
  match t with
  | ReloadStart text =>
    (ReloadCompile text (next_generation s), mk_store (current s) (previous s) (next_generation s +₆₄ 1))
  | ReloadCompile text gen_num =>
    (match compile text gen_num with
     | Ok compiled => ReloadDemote (generation_of compiled)
     | Err e => Finished (Reloaded (Err e))
     | Panic => Finished (Reloaded Panic)
     | OutOfFuel => Finished (Reloaded OutOfFuel)
     end, s)
  | ReloadDemote new_gen => (ReloadStorePrevious new_gen (current s), s)
  | ReloadStorePrevious new_gen outgoing =>
    (ReloadPublish new_gen, mk_store (current s) (Some outgoing) (next_generation s))
  | ReloadPublish new_gen =>
    (Finished (Reloaded (Ok new_gen)), mk_store new_gen (previous s) (next_generation s))
  | RollbackStart =>
    (match previous s with Some restored => RollbackOutgoing restored | None => Finished (RolledBack None) end, s)
  | RollbackOutgoing restored => (RollbackPublish restored (current s), s)
  | RollbackPublish restored outgoing =>
    (RollbackStorePrevious restored outgoing, mk_store restored (previous s) (next_generation s))
  | RollbackStorePrevious restored outgoing =>
    (Finished (RolledBack (Some restored)), mk_store (current s) (Some outgoing) (next_generation s))
  | Finished _ => (t, s)
  end.

Abbreviation world := (list Thread * ConfigStore)%type.

(** Thread [i] takes its next action. *)
Definition world_step (w : world) (i : nat) : world :=
  match w.1 !! i with
  | Some t => let '(t', s') := thread_step t w.2 in (<[i := t']> w.1, s')
  | None => w
  end.

Definition run_schedule (schedule : list nat) (w : world) : world := foldl world_step w schedule.
End Store.
End Store.
