(* ===== verification/ConfigStoreProps.v ===== *)
(** * [pulsate-config]: the store, alone and under contention

    The operations as the code reads, their refinement by the sequences of
    atomic actions, and what holds of every interleaving of those. *)

From Stdlib Require Import ZArith Ascii String Lia.
From stdpp Require Import base option list gmap strings.
From S2P Require Import Prelude RustStr CoreTypes FlowSyntax ConfigModel Config ConfigProps ConfigStore.
Import Model Store.
Local Open Scope string_scope.
Local Open Scope list_scope.
Local Open Scope Z_scope.
Local Open Scope rust_scope.

Section Alone.
Variable compile : string -> Z -> exec (list Diagnostic) Compile.Compiled.
Abbreviation reload := (reload compile).
Abbreviation run_schedule := (run_schedule compile).

Lemma reload_spec text s :
  match compile text (next_generation s) with
  | Ok c => reload text s
            = (Ok (generation_of c),
               mk_store (generation_of c) (Some (current s)) (next_generation s +₆₄ 1))
  | _ => current (reload text s).2 = current s /\ previous (reload text s).2 = previous s
  end.
Proof. unfold Store.reload. by destruct compile. Qed.

Lemma reload_actions text s :
  run_schedule [0; 0; 0; 0; 0]%nat ([ReloadStart text], s)
  = ([Finished (Reloaded (reload text s).1)], (reload text s).2).
Proof. unfold Store.run_schedule, Store.reload, world_step. cbn. by destruct compile. Qed.

Lemma rollback_actions s :
  run_schedule [0; 0; 0; 0]%nat ([RollbackStart], s) = ([Finished (RolledBack (rollback s).1)], (rollback s).2).
Proof. unfold Store.run_schedule, Store.rollback, world_step. cbn. by destruct (previous s). Qed.

(** The store keeps its contract.  A failed reload leaves the running and
    the previous generation untouched; a successful one publishes what was
    compiled at the next generation number and demotes the running generation,
    which one rollback brings back; a rollback without a previous generation
    changes nothing, and two in a row cancel.  The atomic actions of one
    operation, run_schedule without interference, are the operation. *)
Theorem store_contract text (s : ConfigStore) :
  match (reload text s).1 with
  | Ok g =>
    current (reload text s).2 = g
    /\ (exists c, compile text (next_generation s) = Ok c /\ g = generation_of c)
    /\ previous (reload text s).2 = Some (current s)
    /\ (rollback (reload text s).2).1 = Some (current s)
    /\ current (rollback (reload text s).2).2 = current s
  | _ => current (reload text s).2 = current s /\ previous (reload text s).2 = previous s
  end
  /\ next_generation (reload text s).2 = next_generation s +₆₄ 1
  /\ match rollback s with
     | (Some g, s') => previous s = Some g /\ current s' = g /\ previous s' = Some (current s) /\ (rollback s').2 = s
     | (None, s') => previous s = None /\ s' = s
     end
  /\ run_schedule [0; 0; 0; 0; 0]%nat ([ReloadStart text], s)
     = ([Finished (Reloaded (reload text s).1)], (reload text s).2)
  /\ run_schedule [0; 0; 0; 0]%nat ([RollbackStart], s)
     = ([Finished (RolledBack (rollback s).1)], (rollback s).2).
Proof.
  split; [|split; [|split; [|split; [apply reload_actions|apply rollback_actions]]]].
  - unfold Store.reload. destruct (compile text (next_generation s)) as [c| | |] eqn:E; cbn; eauto 10.
  - unfold Store.reload. by destruct compile.
  - unfold rollback. destruct s as [cur [g|] n]; cbn; eauto.
Qed.
End Alone.

(** ** Under contention *)
Section Contention.
Variable compile : string -> Z -> exec (list Diagnostic) Compile.Compiled.
Hypothesis Hgen : forall text n c, compile text n = Ok c -> snapshot_generation (Compile.snapshot c) = n.
Variable texts : list string.
Abbreviation run_schedule := (run_schedule compile).
Abbreviation thread_step := (thread_step compile).
Abbreviation world_step := (world_step compile).

(** A generation that compiling one of the submitted texts produced. *)
Definition published (g : Generation) : Prop :=
  exists text n c, text ∈ texts /\ compile text n = Ok c /\ g = generation_of c.

(** What a thread may hold. *)
Definition thread_ok (t : Thread) : Prop :=
  match t with
  | ReloadStart text | ReloadCompile text _ => text ∈ texts
  | ReloadDemote g | ReloadPublish g | RollbackOutgoing g | Finished (Reloaded (Ok g))
  | Finished (RolledBack (Some g)) => published g
  | ReloadStorePrevious g h | RollbackPublish g h | RollbackStorePrevious g h => published g /\ published h
  | RollbackStart | Finished _ => True
  end.

Definition pair_ok (s : ConfigStore) : Prop :=
  published (current s) /\ (forall g, previous s = Some g -> published g).

Lemma thread_step_ok t s :
  thread_ok t -> pair_ok s -> thread_ok (thread_step t s).1 /\ pair_ok (thread_step t s).2.
Proof.
  intros Ht [Hc Hp]. unfold pair_ok.
  destruct t as [text|text n|g|g h|g| |g|g h|g h|o]; cbn in *; try naive_solver.
  - destruct (compile text n) as [c| | |] eqn:E; cbn; [|naive_solver..].
    split; [|done]. by exists text, n, c.
  - destruct (previous s); cbn; naive_solver.
Qed.

(** The generation number a reload took. *)
Definition number (t : Thread) : option Z :=
  match t with
  | ReloadCompile _ n => Some n
  | ReloadDemote g | ReloadStorePrevious g _ | ReloadPublish g | Finished (Reloaded (Ok g)) =>
    Some (snapshot_generation (gen_snapshot g))
  | _ => None
  end.

Definition waiting (t : Thread) : Z := match t with ReloadStart _ => 1 | _ => 0 end.
Fixpoint total_waiting (ts : list Thread) : Z :=
  match ts with [] => 0 | t :: ts' => waiting t + total_waiting ts' end.

(** Actions that a thread has still to take, at most. *)
Definition remaining (t : Thread) : nat :=
  match t with
  | ReloadStart _ => 5
  | ReloadCompile _ _ | RollbackStart => 4
  | ReloadDemote _ | RollbackOutgoing _ => 3
  | ReloadStorePrevious _ _ | RollbackPublish _ _ => 2
  | ReloadPublish _ | RollbackStorePrevious _ _ => 1
  | Finished _ => 0
  end.

Lemma remaining_step t s : (remaining (thread_step t s).1 <= remaining t - 1)%nat.
Proof.
  destruct t; cbn; try lia; [destruct compile|destruct (previous s)]; cbn; lia.
Qed.

(** An action either takes a number, or leaves the counter and the numbers alone. *)
Lemma counter_step t s :
  (waiting t = 1 /\ waiting (thread_step t s).1 = 0 /\ number (thread_step t s).1 = Some (next_generation s)
   /\ next_generation (thread_step t s).2 = next_generation s +₆₄ 1)
  \/ (waiting (thread_step t s).1 = waiting t /\ next_generation (thread_step t s).2 = next_generation s
      /\ forall n, number (thread_step t s).1 = Some n -> number t = Some n).
Proof.
  destruct t as [text|text m|g|g h|g| |g|g h|g h|o]; cbn; [left; done|right..]; try naive_solver.
  - destruct (compile text m) as [c| | |] eqn:E; cbn; [|naive_solver..]. split; [done|]. split; [done|].
    intros n [= <-]. by rewrite (Hgen _ _ _ E).
  - by destruct (previous s).
Qed.

Lemma total_waiting_insert ts i t t' :
  ts !! i = Some t -> total_waiting (<[i := t']> ts) = total_waiting ts - waiting t + waiting t'.
Proof.
  revert i. induction ts as [|u ts IH]; intros [|i] Hi; simpl in *; simplify_eq; [lia|].
  rewrite (IH _ Hi). lia.
Qed.

Lemma total_waiting_ge ts i t : ts !! i = Some t -> waiting t <= total_waiting ts.
Proof.
  assert (Hw : forall u, 0 <= waiting u) by (intros []; cbn; lia).
  assert (Ht : forall l, 0 <= total_waiting l) by (induction l as [|u l IH]; cbn; [|pose proof (Hw u)]; lia).
  revert i. induction ts as [|u ts IH]; intros [|i] Hi; cbn in *; simplify_eq.
  - pose proof (Ht ts). lia.
  - pose proof (IH _ Hi). pose proof (Hw u). lia.
Qed.

Record world_ok (w : list Thread * ConfigStore) : Prop := {
  threads_fine : Forall thread_ok w.1;
  store_fine : pair_ok w.2;
  counter_fine : 1 <= next_generation w.2 /\ next_generation w.2 + total_waiting w.1 <= u64_max;
  numbers_taken i t n : w.1 !! i = Some t -> number t = Some n -> 1 <= n < next_generation w.2;
  numbers_distinct i j t u n :
    w.1 !! i = Some t -> w.1 !! j = Some u -> number t = Some n -> number u = Some n -> i = j;
}.

Lemma world_step_ok w i : world_ok w -> world_ok (world_step w i).
Proof.
  destruct w as [ts s]. intros [Hts Hs Hc Hn Hd]. unfold Store.world_step. cbn in *.
  destruct (ts !! i) as [t|] eqn:Ht; [|by split].
  destruct (thread_step_ok t s (Forall_lookup_1 _ _ _ _ Hts Ht) Hs) as [Ht' Hs'].
  pose proof (counter_step t s) as Hstep. pose proof (total_waiting_ge _ _ _ Ht) as Hge.
  destruct (thread_step t s) as [t' s'] eqn:E. cbn in *.
  assert (Hlook : forall j u, <[i := t']> ts !! j = Some u -> j = i /\ u = t' \/ ts !! j = Some u /\ j <> i).
  { intros j u [(-> & <- & _)|[]]%list_lookup_insert_Some; auto. }
  destruct Hstep as [(Hw & Hw' & Hnum & Hnext)|(Hw & Hnext & Hnum)].
  - rewrite wrap_u64_small in Hnext by (unfold u64_max in *; lia).
    split; cbn; rewrite ?(total_waiting_insert _ _ _ _ Ht); [by apply Forall_insert|done|lia| |].
    + intros j u n [[-> ->]|[Hj _]]%Hlook Hu; [simplify_eq; lia|]. pose proof (Hn _ _ _ Hj Hu). lia.
    + intros j k u v n [[-> ->]|[Hj Hji]]%Hlook [[-> ->]|[Hk Hki]]%Hlook Hu Hv; eauto; simplify_eq.
      * pose proof (Hn _ _ _ Hk Hv). lia.
      * pose proof (Hn _ _ _ Hj Hu). lia.
  - split; cbn; rewrite ?(total_waiting_insert _ _ _ _ Ht), ?Hnext; [by apply Forall_insert|done|lia| |].
    + intros j u n [[-> ->]|[Hj _]]%Hlook Hu; eauto.
    + intros j k u v n [[-> ->]|[Hj Hji]]%Hlook [[-> ->]|[Hk Hki]]%Hlook Hu Hv; eauto.
Qed.

Lemma run_ok schedule w : world_ok w -> world_ok (run_schedule schedule w).
Proof. revert w. induction schedule as [|i l IH]; intros w Hw; [done|]. by apply IH, world_step_ok. Qed.

(** A thread finishes within its own actions, whatever the others do. *)
Lemma run_remaining schedule : forall w i t,
  w.1 !! i = Some t ->
  exists t', (run_schedule schedule w).1 !! i = Some t' /\ (remaining t' <= remaining t - count_occ Nat.eq_dec schedule i)%nat.
Proof.
  induction schedule as [|j l IH]; intros [ts s] i t Ht; cbn [count_occ].
  { exists t. split; [done|lia]. }
  cbn in Ht. change (run_schedule (j :: l) (ts, s)) with (run_schedule l (world_step (ts, s) j)).
  unfold Store.world_step at 1. cbn. destruct (ts !! j) as [u|] eqn:Hu.
  - pose proof (remaining_step u s) as Hr. destruct (thread_step u s) as [u' s']. cbn in Hr.
    destruct (Nat.eq_dec j i) as [->|Hji].
    + simplify_eq. destruct (IH (<[i := u']> ts, s') i u') as (t' & Ht' & Hle).
      { cbn. apply list_lookup_insert_eq. by apply lookup_lt_Some in Ht. }
      exists t'. split; [done|lia].
    + apply IH. cbn. by rewrite list_lookup_insert_ne.
  - destruct (Nat.eq_dec j i); [congruence|]. by apply IH.
Qed.
End Contention.

(** ** The store with the compiler *)

(** An operation about to begin, and the text it submits. *)
Definition starting (t : Thread) : bool :=
  match t with ReloadStart _ | RollbackStart => true | _ => false end.
Definition submitted (ts : list Thread) : list string :=
  omap (fun t => match t with ReloadStart text => Some text | _ => None end) ts.

Lemma starting_ok compile texts ts s :
  (forall text, text ∈ submitted ts -> text ∈ texts) -> Forall (fun t => starting t = true) ts ->
  pair_ok compile texts s -> next_generation s = 1 -> Z.of_nat (length ts) < u64_max ->
  world_ok compile texts (ts, s).
Proof.
  intros Hsub Hts Hs Hn Hlen.
  assert (Hnum : forall i t n, ts !! i = Some t -> number t = Some n -> False).
  { intros i t n Ht Hnum. pose proof (Forall_lookup_1 _ _ _ _ Hts Ht) as H. by destruct t. }
  split; cbn.
  - apply Forall_forall. intros t Ht. rewrite Forall_forall in Hts. pose proof (Hts _ Ht) as Hst.
    destruct t as [text|?|?|?|?| |?|?|?|?]; try done. cbn. apply Hsub, list_elem_of_omap. by exists (ReloadStart text).
  - done.
  - assert (total_waiting ts <= Z.of_nat (length ts)); [|lia].
    clear. induction ts as [|t ts IH]; cbn; [lia|]. destruct t; cbn; lia.
  - intros. by destruct (Hnum i t n).
  - intros. by destruct (Hnum i t n).
Qed.

Section WithCompiler.
Variables (env : string -> option string) (debug_str : string -> string)
  (debug_value : Value -> string) (debug_config : Config -> string).
Abbreviation compile := (Compile.compile env debug_str debug_value debug_config).

(** C3. Reloads and rollbacks may interleave in any way.  Whatever the
    schedule, the running generation and the one kept for rollback are each
    the result of compiling one of the submitted texts, a well-formed
    configuration with its own snapshot; two reloads that succeed have
    different generation numbers; and an operation that takes five actions has
    returned, whatever the other threads do. *)
Theorem store_concurrent text0 s0 threads schedule
    (Hload : load compile text0 = Ok s0)
    (Hstart : Forall (fun t => starting t = true) threads)
    (Hlen : Z.of_nat (length threads) < u64_max) :
  let w := run_schedule compile schedule (threads, s0) in
  (forall g, g = current w.2 \/ previous w.2 = Some g ->
     published compile (text0 :: submitted threads) g /\ ConfigProps.well_formed (gen_config g))
  /\ (forall i j g h, w.1 !! i = Some (Finished (Reloaded (Ok g))) -> w.1 !! j = Some (Finished (Reloaded (Ok h))) ->
        i <> j -> snapshot_generation (gen_snapshot g) <> snapshot_generation (gen_snapshot h))
  /\ (forall i t, threads !! i = Some t -> (5 <= count_occ Nat.eq_dec schedule i)%nat ->
        exists o, w.1 !! i = Some (Finished o)).
Proof.
  set (texts := text0 :: submitted threads).
  assert (Hgen : forall text n c, compile text n = Ok c -> snapshot_generation (Compile.snapshot c) = n)
    by (intros text n c H; by apply ConfigProps.compile_Ok in H as (_ & H & _)).
  unfold load in Hload. destruct (compile text0 0) as [c0| | |] eqn:E0; cbn in Hload; try done. injection Hload as <-.
  assert (W : world_ok compile texts (threads, mk_store (generation_of c0) None 1)).
  { apply starting_ok; try done; [set_solver|]. split; [|done]. exists text0, 0, c0. split; [left|done]. }
  apply (run_ok _ Hgen _ schedule) in W as W'. intros w. subst w. destruct W' as [_ [Hc Hp] _ _ Hd].
  split; [|split].
  - intros g Hg. assert (Hpub : published compile texts g) by (destruct Hg as [->|Hg]; auto).
    split; [done|]. destruct Hpub as (text & n & c & _ & Hcomp & ->). by apply ConfigProps.compile_Ok in Hcomp as (Hwf & _).
  - intros i j g h Hi Hj Hij E. apply Hij. eapply Hd; [exact Hi|exact Hj|reflexivity|]. cbn. by rewrite E.
  - intros i t Ht Hcount. destruct (run_remaining compile schedule (threads, mk_store (generation_of c0) None 1) i t Ht) as (t' & Ht' & Hle).
    rewrite Ht'. assert (remaining t <= 5)%nat by (destruct t; cbn; lia).
    destruct t'; cbn in Hle; try lia. eauto.
Qed.
End WithCompiler.

(** A configuration text, submitted three times. *)
Definition sample : string := "site a.com { route /* ~> respond(status=200) }".
Abbreviation sample_compile := (Compile.compile (fun _ => None) (fun s => s) (fun _ => EmptyString) (fun _ => EmptyString)).
Definition sample_store : ConfigStore :=
  match load sample_compile sample with Ok s => s | _ => mk_store (mk_generation (mk_config None [] [] [] [] []) (mk_snapshot 0 0)) None 0 end.

Lemma store_concurrent_witness :
  let threads := [ReloadStart sample; RollbackStart] in
  let w := run_schedule sample_compile [0; 1; 0; 0; 0; 1; 0; 1; 1]%nat (threads, sample_store) in
  exists o, w.1 !! 0%nat = Some (Finished o).
Proof.
  intros threads w.
  destruct (store_concurrent (fun _ => None) (fun s => s) (fun _ => EmptyString) (fun _ => EmptyString)
              sample sample_store threads [0; 1; 0; 0; 0; 1; 0; 1; 1]%nat) as (_ & _ & H).
  - vm_compute. reflexivity.
  - repeat constructor.
  - reflexivity.
  - apply (H 0%nat (ReloadStart sample)); [reflexivity|]. vm_compute. repeat constructor.
Defined.

(** Two racing reloads can leave the older generation running: both succeed,
    and the store's generation goes from 2 back to 1. *)
Lemma stale_publish :
  let threads := [ReloadStart sample; ReloadStart sample] in
  let early := [0; 1; 1; 1; 1; 1]%nat in
  store_generation (run_schedule sample_compile early (threads, sample_store)).2 = 2
  /\ store_generation (run_schedule sample_compile (early ++ [0; 0; 0; 0]%nat) (threads, sample_store)).2 = 1.
Proof. split; vm_compute; reflexivity. Qed.
