(* ===== verification/ConfigRouter.v ===== *)
(** * [pulsate-config]: from the typed model to the data plane

    [router.rs].  A rate limiter and a cache store live behind an [Arc]: they
    are allocated in a heap and a route holds their addresses, a fresh one for
    every [rate_limit] step, one per named cache. *)

From Stdlib Require Import ZArith Ascii String Lia.
From stdpp Require Import base option list gmap strings.
From S2P Require Import Prelude RustStr RustNet CoreTypes UtilParse FlowSyntax Waf Http Cache Pipeline Router Proxy ConfigModel.
Import Model.
Local Open Scope string_scope.
Local Open Scope list_scope.
Local Open Scope Z_scope.

Module Build.

(** ** Upstreams *)
Definition build_retry (u : UpstreamDef) : Proxy.RetryPolicy :=
  match ud_retry u with
  | Some r => Proxy.mk_retry (rt_attempts r) (rt_on_status r) (rt_on_connect_error r)
  | None => Proxy.retry_default
  end.
Definition build_breaker (u : UpstreamDef) : Proxy.BreakerPolicy :=
  match ud_breaker u with
  | Some b => Proxy.mk_breaker (br_consecutive_failures b) (from_secs (open_for_secs b))
  | None => Proxy.breaker_default
  end.
Definition build_upstream (u : UpstreamDef) : Proxy.Upstream :=
  Proxy.upstream_new (ud_name u) ((fun t => (tg_url t, tg_weight t)) <$> ud_targets u)
    (Proxy.policy_parse (ud_policy u)) (build_retry u) (build_breaker u).

Definition build_upstreams (c : Config) : Proxy.Registry :=
  foldl (fun r u => Proxy.registry_insert (build_upstream u) r) Proxy.registry_new (upstreams c).

(** ** Cache layers *)
Definition cache_config (c : CacheDef) : Cache.CacheConfig :=
  Cache.mk_config (from_secs (default_ttl_secs c)) (cd_methods c) (cd_vary c) (from_secs (swr_secs c))
    (Cache.max_entries Cache.default_config) (Cache.max_body_bytes Cache.default_config)
    (Cache.max_total_bytes Cache.default_config).

Abbreviation layers := (gmap string Router.CacheLayer).
Abbreviation stores := (gmap nat Cache.Inner).

Definition add_layer (acc : layers * stores) (ic : nat * CacheDef) : layers * stores :=
  let '(ls, ss) := acc in
  let '(i, c) := ic in
  (<[cd_name c := Router.mk_layer i (cache_config c)]> ls, <[i := Cache.store_new]> ss).

Definition build_layers (c : Config) : layers * stores := foldl add_layer (∅, ∅) (imap pair (caches c)).

(** ** Routes *)
(** Add an entry when it parses; whether any entry did. *)
Definition add_cidr (f : IpAcl -> Cidr -> IpAcl) (acc : IpAcl * bool) (s : string) : IpAcl * bool :=
  match cidr_from_str s with
  | Ok c => (f acc.1 c, true)
  | _ => acc
  end.

Definition build_ip_acl (deny allow : list string) : option IpAcl :=
  let acc := foldl (add_cidr acl_allow) (acl_new, false) allow in
  let '(acl, any) := foldl (add_cidr acl_deny) acc deny in
  if any then Some acl else None.

Definition map_kind (k : MatchKind.MatchKind) : Router.MatchKind :=
  match k with
  | MatchKind.Prefix => Router.Prefix
  | MatchKind.Exact => Router.Exact
  | MatchKind.Regex => Router.Regex
  end.

Definition map_handler (h : HandlerDef) : Router.Handler :=
  match h with
  | HFiles root try_files => Router.Files root try_files
  | HRespond status body => Router.Respond status body
  | HRedirect to status => Router.Redirect to status
  | HProxy upstream target => Router.Proxy upstream target
  | HOther n => Router.Other n
  end.

(** The limiters allocated so far, and the next free address. *)
Record Heap := mk_heap { heap_limiters : limiters; heap_next : nat }.

Definition alloc (l : RateLimiter) (h : Heap) : nat * Heap :=
  (heap_next h, mk_heap (<[heap_next h := l]> (heap_limiters h)) (S (heap_next h))).

Definition waf_mode (mode : string) : Mode.Mode :=
  if (mode =? "detect")%string then Mode.Detect else Mode.Block.

(** The middleware, the cache and the heap after one step of the route. *)
Definition build_spec (c : Config) (ls : layers) (acc : list Mw * option Router.CacheLayer * Heap) (spec : MwSpec)
    : list Mw * option Router.CacheLayer * Heap :=
  let '(middleware, cache, h) := acc in
  match spec with
  | SpecStripPrefix p => (middleware ++ [MStripPrefix p], cache, h)
  | SpecCors origins methods credentials => (middleware ++ [MCors (mk_cors origins methods credentials)], cache, h)
  | SpecRateLimit count per_secs key =>
    let '(a, h') := alloc (limiter_new count (from_secs per_secs)) h in
    (middleware ++ [MRateLimit a key], cache, h')
  | SpecWaf name =>
    match find_waf c name with
    | Some waf =>
      let middleware :=
        match build_ip_acl (ip_deny waf) (ip_allow waf) with
        | Some acl => middleware ++ [MIp acl]
        | None => middleware
        end in
      (middleware ++ [MWaf (waf_mode (wd_mode waf))], cache, h)
    | None => acc
    end
  | SpecCache name => (middleware, ls !! name, h)
  end.

Definition build_route (c : Config) (ls : layers) (h : Heap) (def : RouteDef) : option Router.Route * Heap :=
  let '(middleware, cache, h) := foldl (build_spec c ls) ([], None, h) (mw_specs def) in
  ((fun hd => Router.mk_route (map_kind (rd_kind def)) (rd_pattern def) (rd_method def) middleware cache
                (map_handler hd)) <$> rd_handler def,
   h).

(** [filter_map] over the routes of a site. *)
Fixpoint build_routes (c : Config) (ls : layers) (h : Heap) (defs : list RouteDef) : list Router.Route * Heap :=
  match defs with
  | [] => ([], h)
  | def :: defs' =>
    let '(r, h) := build_route c ls h def in
    let '(rs, h) := build_routes c ls h defs' in
    (option_list r ++ rs, h)
  end.

Definition build_site (c : Config) (ls : layers) (h : Heap) (s : Site) : Router.SiteRoutes * Heap :=
  let '(rs, h) := build_routes c ls h (site_routes s) in
  (Router.mk_site (host_pattern <$> site_hosts s) rs, h).

Fixpoint build_sites (c : Config) (ls : layers) (h : Heap) (ss : list Site) : list Router.SiteRoutes * Heap :=
  match ss with
  | [] => ([], h)
  | s :: ss' =>
    let '(s', h) := build_site c ls h s in
    let '(rest, h) := build_sites c ls h ss' in
    (s' :: rest, h)
  end.

(** The router, and the limiters and cache stores it shares. *)
Definition build_router (c : Config) : Router.Router * Heap * stores :=
  let '(ls, ss) := build_layers c in
  let '(sites, h) := build_sites c ls (mk_heap ∅ 0) (sites c) in
  (Router.mk_router sites, h, ss).
End Build.
