(* ===== verification/ConfigRouterProps.v ===== *)
(** * [pulsate-config]: the data plane is the configuration

    [build_router] and [build_upstreams] keep every site, route, middleware
    and pool of a compiled configuration, share a cache store exactly between
    the routes that name it, and never share a rate limiter. *)

From Stdlib Require Import ZArith Ascii String Lia.
From stdpp Require Import base option list gmap strings.
From S2P Require Import Prelude RustStr RustNet CoreTypes UtilParse FlowSyntax Waf Http Cache Pipeline Router Proxy ConfigModel Config ConfigProps ConfigRouter.
Import Model Build.
Local Open Scope string_scope.
Local Open Scope list_scope.

(** ** Access lists *)

(** The entries that parse as CIDR blocks. *)
Definition valid_cidrs (l : list string) : list Cidr :=
  omap (fun s => match cidr_from_str s with Ok c => Some c | _ => None end) l.

Definition acl_of (w : WafDef) : list Mw :=
  if decide (valid_cidrs (ip_allow w) = [] /\ valid_cidrs (ip_deny w) = []) then []
  else [MIp (mk_acl (valid_cidrs (ip_allow w)) (valid_cidrs (ip_deny w)))].

Lemma add_cidrs_allow l : forall a b,
  foldl (add_cidr acl_allow) (a, b) l
  = (mk_acl (allow a ++ valid_cidrs l) (deny a), b || negb (bool_decide (valid_cidrs l = []))).
Proof.
  induction l as [|s l IH]; intros a b; cbn; [rewrite app_nil_r, orb_false_r; by destruct a|].
  unfold add_cidr at 2. destruct (cidr_from_str s) as [c| | |]; cbn; rewrite IH; [|done..].
  cbn. by rewrite <-app_assoc, orb_true_r.
Qed.

Lemma add_cidrs_deny l : forall a b,
  foldl (add_cidr acl_deny) (a, b) l
  = (mk_acl (allow a) (deny a ++ valid_cidrs l), b || negb (bool_decide (valid_cidrs l = []))).
Proof.
  induction l as [|s l IH]; intros a b; cbn; [rewrite app_nil_r, orb_false_r; by destruct a|].
  unfold add_cidr at 2. destruct (cidr_from_str s) as [c| | |]; cbn; rewrite IH; [|done..].
  cbn. by rewrite <-app_assoc, orb_true_r.
Qed.

Lemma build_ip_acl_spec w :
  option_list (MIp <$> build_ip_acl (ip_deny w) (ip_allow w)) = acl_of w.
Proof.
  unfold build_ip_acl, acl_of. rewrite (add_cidrs_allow _ _ _), (add_cidrs_deny _ _ _). cbn.
  repeat case_bool_decide; case_decide; naive_solver.
Qed.

(** ** The heap *)
Definition heap_wf (h : Heap) : Prop := forall a l, heap_limiters h !! a = Some l -> a < heap_next h.

(** The heap grows, and [new] are the addresses it grew by. *)
Record grows (h h' : Heap) (new : list nat) : Prop := {
  grows_wf : heap_wf h';
  grows_sub : heap_limiters h ⊆ heap_limiters h';
  grows_next : heap_next h <= heap_next h';
  grows_fresh : Forall (fun a => heap_next h <= a < heap_next h') new;
  grows_nodup : NoDup new;
}.

Lemma grows_refl h : heap_wf h -> grows h h [].
Proof. split; auto. constructor. Qed.

Lemma grows_trans h1 h2 h3 l1 l2 : grows h1 h2 l1 -> grows h2 h3 l2 -> grows h1 h3 (l1 ++ l2).
Proof.
  intros [W1 S1 N1 F1 D1] [W2 S2 N2 F2 D2]. split; auto; [by etransitivity|lia| |].
  - apply Forall_app. split; eapply Forall_impl; eauto; cbn; lia.
  - apply NoDup_app. split; [done|]. split; [|done]. rewrite Forall_forall in F1. rewrite Forall_forall in F2.
    intros a Ha1 Ha2. apply F1 in Ha1. apply F2 in Ha2. lia.
Qed.

Lemma grows_alloc h l : heap_wf h -> grows h (alloc l h).2 [(alloc l h).1].
Proof.
  intros W. cbn. split; cbn; [| |lia|by repeat constructor; lia|apply NoDup_singleton].
  - intros a l'. cbn. destruct (decide (a = heap_next h)) as [->|]; [lia|].
    rewrite lookup_insert_ne by done. intros H. apply W in H. lia.
  - apply insert_subseteq. destruct (heap_limiters h !! heap_next h) eqn:E; [|done]. apply W in E. lia.
Qed.

Definition limiter_addrs (l : list Mw) : list nat :=
  omap (fun m => match m with MRateLimit a _ => Some a | _ => None end) l.

Lemma limiter_addrs_app l1 l2 : limiter_addrs (l1 ++ l2) = limiter_addrs l1 ++ limiter_addrs l2.
Proof. apply omap_app. Qed.

(** ** Cache layers *)

(** The layer of a cache: the store at the index of its definition. *)
Definition layer_of (c : Config) (name : string) : option Router.CacheLayer :=
  (fun '(i, d) => Router.mk_layer i (cache_config d)) <$> list_find (fun d => cd_name d = name) (caches c).

Lemma add_layers_spec cs : forall k ls ss,
  NoDup (cd_name <$> cs) ->
  let r := foldl add_layer (ls, ss) (imap (fun i => pair (k + i)) cs) in
  (forall name, r.1 !! name =
     match list_find (fun d => cd_name d = name) cs with
     | Some (i, d) => Some (Router.mk_layer (k + i) (cache_config d))
     | None => ls !! name
     end)
  /\ (forall a, r.2 !! a = if decide (k <= a < k + length cs) then Some Cache.store_new else ss !! a).
Proof.
  induction cs as [|d cs IH]; intros k ls ss Hnd; cbn [foldl imap fmap list_fmap length].
  { split; [done|]. intros a. rewrite decide_False by lia. done. }
  apply NoDup_cons in Hnd as [Hd Hnd].
  assert (E : imap ((fun i => pair (k + i)) ∘ S) cs = imap (fun i => pair (S k + i)) cs)
    by (apply imap_ext; intros; cbn; f_equal; lia).
  rewrite E. cbn [add_layer]. rewrite Nat.add_0_r.
  destruct (IH (S k) (<[cd_name d := Router.mk_layer k (cache_config d)]> ls) (<[k := Cache.store_new]> ss) Hnd)
    as [H1 H2]. split.
  - intros name. rewrite H1. cbn [list_find]. destruct (decide (cd_name d = name)) as [<-|Hne].
    + destruct (list_find (fun d0 => cd_name d0 = cd_name d) cs) as [[i e]|] eqn:F.
      * apply list_find_Some in F as (Hi & He & _). destruct Hd. rewrite <-He.
        apply list_elem_of_fmap_2. by eapply list_elem_of_lookup_2.
      * rewrite lookup_insert_eq. by rewrite Nat.add_0_r.
    + rewrite lookup_insert_ne by done.
      destruct (list_find (fun d0 => cd_name d0 = name) cs) as [[i e]|]; cbn; [|done].
      do 2 f_equal. lia.
  - intros a. rewrite H2. destruct (decide (S k <= a < S k + length cs)); [by rewrite decide_True by lia|].
    destruct (decide (a = k)) as [->|]; [by rewrite lookup_insert_eq, decide_True by lia|].
    rewrite lookup_insert_ne by done. by rewrite decide_False by lia.
Qed.

Lemma build_layers_spec c :
  NoDup (nm_name <$> cache_names c) ->
  (forall name, (build_layers c).1 !! name = layer_of c name)
  /\ (forall i, i < length (caches c) -> (build_layers c).2 !! i = Some Cache.store_new).
Proof.
  intros Hnd. unfold cache_names in Hnd. rewrite <-list_fmap_compose in Hnd.
  destruct (add_layers_spec (caches c) 0 ∅ ∅ Hnd) as [H1 H2]. split.
  - intros name. unfold build_layers. rewrite H1. unfold layer_of. by destruct list_find as [[]|].
  - intros i Hi. unfold build_layers. rewrite H2. by rewrite decide_True by lia.
Qed.

(** The last cache a route names. *)
Definition last_cache (specs : list MwSpec) : option string :=
  last (omap (fun s => match s with SpecCache n => Some n | _ => None end) specs).

(** The cache a step selects. *)
Definition select (ls : layers) (ca : option Router.CacheLayer) (s : MwSpec) : option Router.CacheLayer :=
  match s with SpecCache n => ls !! n | _ => ca end.

Lemma select_last (ls : layers) specs :
  foldl (select ls) None specs = last_cache specs ≫= (ls !!.).
Proof.
  unfold last_cache. induction specs as [|s specs IH] using rev_ind; [done|].
  rewrite foldl_snoc, omap_app, IH. destruct s; cbn; rewrite ?app_nil_r; try done. by rewrite last_snoc.
Qed.

(** ** Middleware *)
Section Built.
Variable c : Config.

(** What one middleware step becomes, in the heap [hl]. *)
Inductive built_spec (hl : limiters) : MwSpec -> list Mw -> Prop :=
| built_strip p : built_spec hl (SpecStripPrefix p) [MStripPrefix p]
| built_cors o m cr : built_spec hl (SpecCors o m cr) [MCors (mk_cors o m cr)]
| built_rate n per key a :
    hl !! a = Some (limiter_new n (from_secs per)) -> built_spec hl (SpecRateLimit n per key) [MRateLimit a key]
| built_waf name w :
    find_waf c name = Some w -> built_spec hl (SpecWaf name) (acl_of w ++ [MWaf (waf_mode (wd_mode w))])
| built_no_waf name : find_waf c name = None -> built_spec hl (SpecWaf name) []
| built_cache name : built_spec hl (SpecCache name) [].

Lemma built_spec_mono hl hl' s p : hl ⊆ hl' -> built_spec hl s p -> built_spec hl' s p.
Proof. intros Hsub []; econstructor; eauto. by eapply lookup_weaken. Qed.

Variable ls : layers.
Hypothesis Hls : forall name, ls !! name = layer_of c name.

Lemma build_spec_spec m ca h s :
  heap_wf h ->
  exists part h', build_spec c ls (m, ca, h) s = (m ++ part, select ls ca s, h')
    /\ grows h h' (limiter_addrs part) /\ built_spec (heap_limiters h') s part.
Proof.
  intros W. destruct s as [p|o me cr|n per key|name|name]; cbn.
  1, 2: eexists _, h; split; [reflexivity|]; split; [by apply grows_refl|constructor].
  - do 2 eexists. split; [reflexivity|]. split; [by apply (grows_alloc h)|]. constructor. cbn. apply lookup_insert_eq.
  - destruct (find_waf c name) as [w|] eqn:E.
    + exists (acl_of w ++ [MWaf (waf_mode (wd_mode w))]), h. rewrite <-build_ip_acl_spec.
      split; [destruct build_ip_acl; cbn; by rewrite <-?app_assoc|]. split; [|rewrite build_ip_acl_spec; by constructor].
      destruct build_ip_acl; by apply grows_refl.
    + exists [], h. rewrite app_nil_r. split; [done|]. split; [by apply grows_refl|by constructor].
  - exists [], h. rewrite app_nil_r. split; [done|]. split; [by apply grows_refl|by constructor].
Qed.

Lemma build_specs_spec specs : forall m ca h,
  heap_wf h ->
  exists parts h', foldl (build_spec c ls) (m, ca, h) specs = (m ++ mjoin parts, foldl (select ls) ca specs, h')
    /\ grows h h' (limiter_addrs (mjoin parts)) /\ Forall2 (built_spec (heap_limiters h')) specs parts.
Proof.
  induction specs as [|s specs IH]; intros m ca h W.
  { exists [], h. cbn. rewrite app_nil_r. split; [done|]. split; [by apply grows_refl|constructor]. }
  destruct (build_spec_spec m ca h s W) as (part & h1 & E1 & G1 & B1). cbn [foldl]. rewrite E1.
  destruct (IH (m ++ part) (select ls ca s) h1 (grows_wf _ _ _ G1)) as (parts & h2 & E2 & G2 & B2).
  exists (part :: parts), h2. rewrite E2. cbn [mjoin list_join]. rewrite <-app_assoc. split; [done|].
  rewrite limiter_addrs_app. split; [by eapply grows_trans|].
  constructor; [|done]. eapply built_spec_mono; [apply G2|done].
Qed.
(** ** Routes and sites *)

(** What a route becomes, in the heap [hl]. *)
Record built_route (hl : limiters) (rd : RouteDef) (r : Router.Route) : Prop := {
  built_kind : Router.kind r = map_kind (rd_kind rd);
  built_pattern : Router.pattern r = rd_pattern rd;
  built_method : Router.route_method r = rd_method rd;
  built_handler : Some (Router.handler r) = map_handler <$> rd_handler rd;
  built_selected : Router.cache r = last_cache (mw_specs rd) ≫= layer_of c;
  built_middleware : exists parts,
    Router.middleware r = mjoin parts /\ Forall2 (built_spec hl) (mw_specs rd) parts;
}.

Lemma built_route_mono hl hl' rd r : hl ⊆ hl' -> built_route hl rd r -> built_route hl' rd r.
Proof.
  intros Hsub [? ? ? ? ? (parts & Hm & Hp)]. split; auto. exists parts. split; [done|].
  eapply Forall2_impl; [exact Hp|]. intros s p. by apply built_spec_mono.
Qed.

Definition route_addrs (rs : list Router.Route) : list nat := rs ≫= (fun r => limiter_addrs (Router.middleware r)).
Definition handled (rd : RouteDef) : Prop := is_Some (rd_handler rd).

Lemma build_routes_spec defs : forall h,
  heap_wf h -> Forall handled defs ->
  exists rs h', build_routes c ls h defs = (rs, h') /\ grows h h' (route_addrs rs)
    /\ Forall2 (built_route (heap_limiters h')) defs rs.
Proof.
  induction defs as [|rd defs IH]; intros h W Hh.
  { exists [], h. split; [done|]. split; [by apply grows_refl|constructor]. }
  apply Forall_cons in Hh as [[hd Hd] Hh]. cbn [build_routes]. unfold build_route.
  destruct (build_specs_spec (mw_specs rd) [] None h W) as (parts & h1 & -> & G1 & B1). rewrite Hd. cbn.
  destruct (IH h1 (grows_wf _ _ _ G1) Hh) as (rs & h2 & -> & G2 & B2).
  do 2 eexists. split; [reflexivity|]. split; [by eapply (grows_trans _ _ _ _ _ G1 G2)|].
  constructor; [|done]. eapply built_route_mono; [apply G2|]. split; cbn; try done; [by rewrite Hd| |].
  - rewrite select_last. destruct last_cache; [apply Hls|done].
  - by exists parts.
Qed.

Definition built_site (hl : limiters) (s : Site) (s' : Router.SiteRoutes) : Prop :=
  Router.hosts s' = host_pattern <$> site_hosts s
  /\ Forall2 (built_route hl) (site_routes s) (Router.routes s').

Definition site_addrs (ss : list Router.SiteRoutes) : list nat := ss ≫= (fun s => route_addrs (Router.routes s)).

Lemma build_sites_spec sts : forall h,
  heap_wf h -> Forall handled (flat_map site_routes sts) ->
  exists ss h', build_sites c ls h sts = (ss, h') /\ grows h h' (site_addrs ss)
    /\ Forall2 (built_site (heap_limiters h')) sts ss.
Proof.
  induction sts as [|st sts IH]; intros h W Hh.
  { exists [], h. split; [done|]. split; [by apply grows_refl|constructor]. }
  cbn [flat_map] in Hh. apply Forall_app in Hh as [Hh1 Hh]. cbn [build_sites]. unfold build_site.
  destruct (build_routes_spec _ h W Hh1) as (rs & h1 & -> & G1 & B1).
  destruct (IH h1 (grows_wf _ _ _ G1) Hh) as (ss & h2 & -> & G2 & B2).
  do 2 eexists. split; [reflexivity|]. split; [by eapply (grows_trans _ _ _ _ _ G1 G2)|].
  constructor; [|done]. split; [done|]. cbn. eapply Forall2_impl; [exact B1|].
  intros rd r. apply built_route_mono, G2.
Qed.
End Built.


(** C4. The routing table of a compiled configuration is that configuration:
    no site or route is dropped or reordered; each route keeps its match kind,
    pattern, method and handler, gets one middleware chain built step by step
    from its own (a WAF step being the valid entries of the ruleset's address
    lists and its engine), and the cache that it names last; every rate
    limiter is allocated for one step of one route, with a budget of its own;
    and two routes share a cache store exactly when they name the same cache. *)
Theorem build_router_correct env debug_str debug_value debug_config text generation compiled
    (H : Compile.compile env debug_str debug_value debug_config text generation = Ok compiled) :
  let c := Compile.config compiled in
  let '(r, h, ss) := build_router c in
  Forall2 (built_site c (heap_limiters h)) (sites c) (Router.sites r)
  /\ NoDup (site_addrs (Router.sites r))
  /\ (forall i, i < length (caches c) -> ss !! i = Some Cache.store_new)
  /\ (forall name name' l l', layer_of c name = Some l -> layer_of c name' = Some l' ->
        Router.layer_store l = Router.layer_store l' <-> name = name').
Proof.
  intros c. subst c. apply compile_Ok in H as (Hwf & _ & Hh). set (c := Compile.config compiled) in *.
  unfold build_router. destruct (build_layers_spec c (unique_caches _ Hwf)) as [Hls Hss].
  destruct (build_layers c) as [ls ss]. cbn in Hls, Hss.
  destruct (build_sites_spec c ls Hls (sites c) (mk_heap ∅ 0)) as (sts & h & -> & G & B); [|done|].
  { intros a l Ha. cbn in Ha. by rewrite lookup_empty in Ha. }
  split; [done|]. split; [apply G|]. split; [done|].
  intros n n' l l'. unfold layer_of. intros (j & Hj & ->)%fmap_Some (j' & Hj' & ->)%fmap_Some.
  destruct j as [j d], j' as [j' d']. cbn. apply list_find_Some in Hj as (Hj & <- & _).
  apply list_find_Some in Hj' as (Hj' & <- & _). split; [intros <-; congruence|].
  intros E. pose proof (unique_caches _ Hwf) as Hnd. unfold cache_names in Hnd.
  rewrite <-list_fmap_compose in Hnd. eapply (NoDup_lookup _ _ _ _ Hnd).
  - rewrite list_lookup_fmap, Hj. reflexivity.
  - rewrite list_lookup_fmap, Hj'. cbn. by rewrite E.
Qed.

(** A configuration with a pool, a cache and a WAF ruleset. *)
Definition routed : string :=
  "upstream api { target http://127.0.0.1:8080/ weight=0
 target http://127.0.0.1:8081 }
cache assets { default_ttl 5m; methods [GET] }
waf strict { mode block; ip { deny [10.0.0.0/8] } }
site app.com {
  route /a/* ~> rate_limit(100/s) ~> cache(@assets) ~> waf(@strict) ~> respond(status=200)
  route /b/* ~> rate_limit(100/s) ~> cache(@assets) ~> proxy(@api)
}".
Abbreviation routed_compile := (Compile.compile (fun _ => None) (fun s => s) (fun _ => "") (fun _ => "") routed 0).
Definition routed_compiled : Compile.Compiled :=
  match routed_compile with
  | Ok c => c
  | _ => Compile.mk_compiled (mk_config None [] [] [] [] []) (mk_snapshot 0 0) []
  end.

Lemma build_router_correct_witness :
  routed_compile = Ok routed_compiled
  /\ let '(r, h, ss) := build_router (Compile.config routed_compiled) in NoDup (site_addrs (Router.sites r)).
Proof.
  assert (H : routed_compile = Ok routed_compiled) by (vm_compute; reflexivity). split; [exact H|].
  generalize (build_router_correct (fun _ => None) (fun s => s) (fun _ => "") (fun _ => "") routed 0
    routed_compiled H). cbv zeta.
  generalize (build_router (Compile.config routed_compiled)). intros [[r h] ss] (_ & Hn & _). exact Hn.
Defined.

(** ** Pools *)
Lemma registry_insert_all us : forall r,
  NoDup (ud_name <$> us) -> (forall u, u ∈ us -> Proxy.registry_get (ud_name u) r = None) ->
  let r' := foldl (fun r u => Proxy.registry_insert (build_upstream u) r) r us in
  (forall u, u ∈ us -> Proxy.registry_get (ud_name u) r' = Some (build_upstream u))
  /\ (forall n, n ∉ ud_name <$> us -> Proxy.registry_get n r' = Proxy.registry_get n r)
  /\ Proxy.registry_len r' = length us + Proxy.registry_len r.
Proof.
  induction us as [|u us IH]; intros r Hnd Hr; [split; [set_solver|done]|].
  apply NoDup_cons in Hnd as [Hu Hnd]. cbn [foldl]. cbn zeta.
  destruct (IH (Proxy.registry_insert (build_upstream u) r) Hnd) as (H1 & H2 & H3).
  { intros v Hv. unfold Proxy.registry_get. cbn. rewrite lookup_insert_ne; [apply Hr; by right|].
    intros E. apply Hu. rewrite E. by apply list_elem_of_fmap_2. }
  split; [|split].
  - intros v [->|Hv]%elem_of_cons; [|by apply H1].
    rewrite H2 by done. unfold Proxy.registry_get. cbn. by rewrite lookup_insert_eq.
  - intros n Hn. rewrite H2 by set_solver. unfold Proxy.registry_get. cbn. rewrite lookup_insert_ne; [done|set_solver].
  - rewrite H3. unfold Proxy.registry_len. cbn. rewrite map_size_insert_None; [lia|]. apply (Hr u). by left.
Qed.

(** The registry of a compiled configuration holds one pool per upstream
    block, under its name and nothing else: every [target] in order, its URL
    without trailing slashes, its weight at least one, idle and not ejected;
    the policy, retry and breaker settings of the block, or the defaults. *)
Theorem build_upstreams_correct env debug_str debug_value debug_config text generation compiled
    (H : Compile.compile env debug_str debug_value debug_config text generation = Ok compiled) :
  let c := Compile.config compiled in
  let reg := build_upstreams c in
  Proxy.registry_len reg = length (upstreams c)
  /\ (forall n, n ∉ ud_name <$> upstreams c -> Proxy.registry_get n reg = None)
  /\ forall u, u ∈ upstreams c -> exists p, Proxy.registry_get (ud_name u) reg = Some p
       /\ Forall2 (fun t b => Proxy.url b = trim_end_matches (fun x => Ascii.eqb x "/") (tg_url t)
                              /\ Proxy.weight b = Z.max (tg_weight t) 1 /\ Proxy.state b = Proxy.state_default)
            (ud_targets u) (Proxy.backends p)
       /\ Proxy.policy p = Proxy.policy_parse (ud_policy u)
       /\ Proxy.retry p = build_retry u /\ Proxy.breaker p = build_breaker u.
Proof.
  intros c reg. subst c reg. apply compile_Ok in H as (Hwf & _). set (c := Compile.config compiled) in *.
  pose proof (unique_upstreams _ Hwf) as Hnd. unfold upstream_names in Hnd. rewrite <-list_fmap_compose in Hnd.
  destruct (registry_insert_all (upstreams c) Proxy.registry_new Hnd) as (H1 & H2 & H3).
  { intros u _. apply lookup_empty. }
  unfold build_upstreams. rewrite H3. split; [apply Nat.add_0_r|]. split.
  - intros n Hn. rewrite H2 by done. apply lookup_empty.
  - intros u Hu. exists (build_upstream u). split; [by apply H1|]. split; [|done]. cbn.
    rewrite <-list_fmap_compose. apply Forall2_fmap_r, Forall_Forall2_diag, Forall_true. intros t. done.
Qed.

Lemma build_upstreams_correct_witness :
  let c := Compile.config routed_compiled in
  exists u p, u ∈ upstreams c /\ Proxy.registry_get (ud_name u) (build_upstreams c) = Some p.
Proof.
  intros c. destruct (upstreams c) as [|u us] eqn:E; [vm_compute in E; discriminate|].
  assert (H : routed_compile = Ok routed_compiled) by (vm_compute; reflexivity).
  destruct (build_upstreams_correct (fun _ => None) (fun s => s) (fun _ => "") (fun _ => "") routed 0
    routed_compiled H) as (_ & _ & B).
  destruct (B u) as (p & Hp & _); [change (u ∈ upstreams c); rewrite E; left|]. exists u, p. split; [left|exact Hp].
Defined.

(** ** Two ways a WAF step guards nothing *)
Definition waf_chain (text : string) : option (list (list Mw)) :=
  match Compile.compile (fun _ => None) (fun s => s) (fun _ => "") (fun _ => "") text 0 with
  | Ok c => Some (Router.sites (build_router (Compile.config c)).1.1 ≫= (fun s => Router.middleware <$> Router.routes s))
  | _ => None
  end.

(** A reference that only another kind of definition satisfies is accepted,
    and the step disappears; so does an [allow] list none of whose entries
    parses, which leaves every address admitted. *)
Lemma waf_step_dropped :
  waf_chain "cache strict { }
site a.com { route /* ~> waf(@strict) ~> respond(status=200) }" = Some [[]]
  /\ waf_chain "waf strict { ip { allow [10.0.0.0/33] } }
site a.com { route /* ~> waf(@strict) ~> respond(status=200) }" = Some [[MWaf Mode.Block]].
Proof. split; vm_compute; reflexivity. Qed.
