(* ===== verification/ConfigLayout.v ===== *)
(** * [pulsate-config]: layout does not matter

    A text says what its syntax tree says.  [strip] forgets the positions in a
    tree, a configuration and a diagnostic; lowering, validation and the data
    plane commute with it.  So two texts whose trees differ in positions only
    are compiled alike: refused with the same diagnostics, or turned into the
    same configuration, the same routing table and the same pools. *)

From Stdlib Require Import ZArith Ascii String Lia.
From stdpp Require Import base option list gmap strings.
From S2P Require Import Prelude RustStr CoreTypes UtilParse FlowSyntax FlowLexer FlowParser FlowPrint Pipeline Router Proxy ConfigModel Config ConfigProps ConfigRouter.
Import Model Compile Build.
Local Open Scope string_scope.
Local Open Scope list_scope.
Local Open Scope Z_scope.

(** ** Trees without positions *)
Definition strip_spanned {A} (f : A -> A) (s : Spanned A) : Spanned A := at_zero (f (node s)).
Fixpoint strip_value (v : Value) : Value :=
  match v with VArray items => VArray (map (strip_spanned strip_value) items) | _ => v end.
Definition strip_arg (a : Arg) : Arg :=
  match a with
  | Positional v => Positional (strip_spanned strip_value v)
  | Named n v => Named (strip_spanned id n) (strip_spanned strip_value v)
  end.
Definition strip_step (s : Step) : Step :=
  mk_step (strip_spanned id (step_name s)) (strip_arg <$> step_args s) (has_parens s) no_span.
Definition strip_predicate (p : Predicate) : Predicate := mk_predicate (pred_key p) (pred_value p) no_span.
Definition strip_matcher (m : Matcher) : Matcher :=
  mk_matcher (matcher_kind m) (strip_spanned id (matcher_pattern m)) (strip_predicate <$> matcher_predicates m) no_span.
Definition strip_route (r : Route) : Route :=
  mk_route (strip_matcher (route_matcher r)) (strip_step <$> route_steps r) no_span.
Fixpoint strip_stmt (s : Stmt) : Stmt :=
  match s with
  | SBlock kw args body _ => SBlock (strip_spanned id kw) (strip_arg <$> args) (map strip_stmt body) no_span
  | SDirective d => SDirective (mk_directive (strip_spanned id (directive_keyword d)) (strip_arg <$> directive_args d) no_span)
  | SRoute r => SRoute (strip_route r)
  end.

(** Forgetting the positions of a tree and then those inside its arrays. *)
Lemma strip_erase s : strip_stmt (erase_stmt s) = strip_stmt s.
Proof.
  assert (Ha : forall args : list Arg, strip_arg <$> (erase_arg <$> args) = strip_arg <$> args).
  { intros args. rewrite <-list_fmap_compose. apply list_fmap_ext. by intros i [] _. }
  revert s. fix IH 1. intros [kw args body sp|d|r]; cbn [erase_stmt strip_stmt directive_keyword directive_args].
  - rewrite Ha. f_equal. induction body as [|s body IHb]; [done|]. cbn [map]. by rewrite IH, IHb.
  - by rewrite Ha.
  - f_equal. unfold strip_route, strip_matcher. cbn. f_equal.
    + f_equal. rewrite <-list_fmap_compose. by apply list_fmap_ext.
    + rewrite <-list_fmap_compose. apply list_fmap_ext. intros i st _. unfold compose, strip_step. cbn. by rewrite Ha.
Qed.

(** Two documents that differ in layout only. *)
Definition same_document (l l' : list Stmt) : Prop := map strip_stmt l = map strip_stmt l'.
#[export] Instance same_document_equivalence : Equivalence same_document.
Proof. split; unfold same_document; [by intros ?|by intros ???|intros ??? -> ->; done]. Qed.

Lemma erased_same l t : map erase_stmt l = t -> same_document l t.
Proof.
  intros <-. unfold same_document. rewrite map_map. apply map_ext. intros s. by rewrite strip_erase.
Qed.

(** ** Configurations and diagnostics without positions *)
Definition strip_named (n : NamedDef) : NamedDef := mk_named (nm_name n) no_span.
Definition strip_host (h : Host) : Host := mk_host (host_pattern h) no_span.
Definition strip_ref (r : RefUse) : RefUse := mk_ref (ref_name r) no_span.
Definition strip_route_def (r : RouteDef) : RouteDef :=
  mk_route_def (rd_kind r) (rd_pattern r) (rd_method r) (rd_middleware r) (mw_specs r) (rd_handler r) (strip_ref <$> refs r) no_span.
Definition strip_site (s : Site) : Site :=
  mk_site_def (strip_host <$> site_hosts s) (tls s) (strip_route_def <$> site_routes s) no_span.
Definition strip_upstream (u : UpstreamDef) : UpstreamDef :=
  mk_upstream_def (ud_name u) no_span (ud_targets u) (ud_policy u) (ud_retry u) (ud_breaker u).
Definition strip_cache (c : CacheDef) : CacheDef :=
  mk_cache_def (cd_name c) no_span (default_ttl_secs c) (cd_methods c) (cd_vary c) (swr_secs c).
Definition strip_waf (w : WafDef) : WafDef := mk_waf_def (wd_name w) no_span (wd_mode w) (ip_deny w) (ip_allow w).
Definition strip_config (c : Config) : Config :=
  mk_config (flow_version c) (strip_upstream <$> upstreams c) (strip_cache <$> caches c) (strip_waf <$> wafs c)
    (strip_named <$> user_sets c) (strip_site <$> sites c).
Definition strip_diag (d : Diagnostic) : Diagnostic :=
  mk_diag (diag_severity d) (diag_code d) (diag_message d) no_span (diag_help d).

(** ** Reading arguments *)
Lemma find_map_fmap {A B C} (g : A -> B) (f : B -> option C) (l : list A) :
  find_map f (g <$> l) = find_map (fun x => f (g x)) l.
Proof. induction l as [|x l IH]; [done|]. cbn. by rewrite IH. Qed.

Lemma find_map_ext {A B} (f g : A -> option B) l : (forall x, f x = g x) -> find_map f l = find_map g l.
Proof. intros H. induction l as [|x l IH]; [done|]. cbn. by rewrite H, IH. Qed.

Lemma find_map_then {A B C} (f : A -> option B) (g : B -> C) l :
  find_map (fun x => g <$> f x) l = g <$> find_map f l.
Proof. induction l as [|x l IH]; [done|]. cbn. by destruct (f x). Qed.

Section Args.
Implicit Types args : list Arg.

Lemma first_positional_strip args : first_positional (strip_arg <$> args) = strip_value <$> first_positional args.
Proof. unfold first_positional. rewrite find_map_fmap, <-find_map_then. apply find_map_ext. by intros []. Qed.

Lemma named_value_strip args key : named_value (strip_arg <$> args) key = strip_value <$> named_value args key.
Proof.
  unfold named_value. rewrite find_map_fmap, <-find_map_then. apply find_map_ext. intros [|n v]; [done|]. cbn.
  by destruct (node n =? key)%string.
Qed.

Lemma first_positional_str_strip args : first_positional_str (strip_arg <$> args) = first_positional_str args.
Proof. unfold first_positional_str. rewrite first_positional_strip. by destruct (first_positional args) as [[]|]. Qed.

Lemma named_str_strip args key : named_str (strip_arg <$> args) key = named_str args key.
Proof. unfold named_str. rewrite named_value_strip. by destruct (named_value args key) as [[]|]. Qed.

Lemma str_items_strip v : str_items (strip_value <$> v) = str_items v.
Proof.
  destruct v as [[| | | | | | |items| | |]|]; try done. cbn. induction items as [|[[] sp] items IH]; [done|..]; cbn; by rewrite ?IH.
Qed.

Lemma named_str_array_strip args key : named_str_array (strip_arg <$> args) key = named_str_array args key.
Proof. unfold named_str_array. by rewrite named_value_strip, str_items_strip. Qed.

Lemma positional_str_array_strip args : positional_str_array (strip_arg <$> args) = positional_str_array args.
Proof. unfold positional_str_array. by rewrite first_positional_strip, str_items_strip. Qed.

Lemma status_arg_strip args d : status_arg (strip_arg <$> args) d = status_arg args d.
Proof.
  unfold status_arg. rewrite named_value_strip, first_positional_strip.
  destruct (named_value args "status") as [[]|], (first_positional args) as [[]|]; done.
Qed.

Lemma first_ref_strip args : first_ref (strip_arg <$> args) = first_ref args.
Proof. unfold first_ref. rewrite find_map_fmap. apply find_map_ext. by intros [[[] ?]|? [[] ?]]. Qed.

Lemma proxy_arg_strip args acc : foldl proxy_arg acc (strip_arg <$> args) = foldl proxy_arg acc args.
Proof.
  revert acc. induction args as [|a args IH]; intros acc; [done|]. cbn. rewrite <-IH. f_equal.
  destruct acc as [u t]. by destruct a as [[[] ?]|? [[] ?]].
Qed.
End Args.

(** The readers see the same arguments with and without positions. *)
#[export] Hint Rewrite first_positional_str_strip named_str_strip named_str_array_strip positional_str_array_strip
  status_arg_strip first_ref_strip proxy_arg_strip first_positional_strip named_value_strip : strip.
(** Branch on what a reader found. *)
Ltac read_arg :=
  match goal with
  | |- context [match first_positional ?a with _ => _ end] => destruct (first_positional a) as [[]|]
  | |- context [match first_positional_str ?a with _ => _ end] => destruct (first_positional_str a)
  | |- context [match named_value ?a ?k with _ => _ end] => destruct (named_value a k) as [[]|]
  end.

(** ** Steps and routes *)
Lemma build_handler_strip s : build_handler (strip_step s) = build_handler s.
Proof. unfold build_handler. cbn [strip_step step_args step_name strip_spanned node at_zero id]. by autorewrite with strip. Qed.

Lemma build_middleware_strip s : build_middleware (strip_step s) = build_middleware s.
Proof.
  unfold build_middleware. cbn [strip_step step_args step_name strip_spanned node at_zero id]. autorewrite with strip.
  destruct (named_value (step_args s) "credentials") as [[]|], (first_positional (step_args s)) as [[]|]; done.
Qed.

Lemma collect_refs_value_strip v sp : collect_refs_value (strip_value v) no_span = strip_ref <$> collect_refs_value v sp.
Proof.
  revert sp. induction v as [items IH|v Hv] using Value_nested_ind; intros sp; [|by destruct v; try done; destruct (Hv items)].
  cbn [strip_value collect_refs_value]. induction IH as [|i items Hi _ IHi]; [done|]. cbn [map flat_map].
  rewrite fmap_app, <-IHi. f_equal. apply Hi.
Qed.

Lemma collect_refs_strip (args : list Arg) : collect_refs (strip_arg <$> args) = strip_ref <$> collect_refs args.
Proof.
  unfold collect_refs. induction args as [|a args IH]; [done|]. cbn [fmap list_fmap flat_map]. fold (strip_arg <$> args).
  rewrite fmap_app, <-IH. f_equal. by destruct a as [v|n v]; cbn; rewrite (collect_refs_value_strip _ (span_of v)).
Qed.

Lemma indices_strip {A B} (p : B -> bool) (f : A -> B) (q : A -> bool) l :
  (forall x, p (f x) = q x) -> indices p (f <$> l) = indices q l.
Proof.
  intros H. unfold indices. rewrite imap_fmap. unfold compose.
  assert (G : forall k : nat -> nat, omap (fun '(i, x) => if p x then Some i else None) (imap (fun i x => (k i, f x)) l)
    = omap (fun '(i, x) => if q x then Some i else None) (imap (fun i x => (k i, x)) l)).
  { induction l as [|x l IH]; intros k; [done|]. cbn. rewrite H. specialize (IH (k ∘ S)). unfold compose in *. by rewrite IH. }
  apply (G id).
Qed.

Lemma mw_steps_strip t (steps : list Step) : mw_steps t (strip_step <$> steps) = strip_step <$> mw_steps t steps.
Proof.
  unfold mw_steps. rewrite imap_fmap. unfold compose.
  assert (G : forall k : nat -> nat, omap (fun '(i, s) => if bool_decide (Some i = t) then None else Some s) (imap (fun i s => (k i, strip_step s)) steps)
    = strip_step <$> omap (fun '(i, s) => if bool_decide (Some i = t) then None else Some s) (imap (fun i s => (k i, s)) steps)).
  { induction steps as [|s steps IH]; intros k; [done|]. cbn. specialize (IH (k ∘ S)). unfold compose in *.
    case_bool_decide; by rewrite IH. }
  apply (G id).
Qed.

(** The results of a fallible step, without positions. *)
Definition exec_map {X A B} (f : A -> B) (m : exec X A) : exec X B := a ← m; Ok (f a).
Definition strip_pair {A B} (f : A -> B) (x : A * list Diagnostic) : B * list Diagnostic := (f x.1, strip_diag <$> x.2).

Section Lower.
Context {X : Type}.

Lemma at_index_strip {A B} (f : A -> B) l i : at_index (E := X) (f <$> l) i = exec_map f (at_index l i).
Proof. unfold at_index. rewrite list_lookup_fmap. by destruct (l !! i). Qed.

Lemma terminal_idx_strip r : terminal_idx (E := X) (strip_route r) = exec_map (strip_pair id) (terminal_idx r).
Proof.
  unfold terminal_idx. cbn [strip_route route_steps]. unfold rposition.
  rewrite (indices_strip is_handler strip_step is_handler) by done. rewrite (indices_strip is_plugin strip_step is_plugin) by done.
  rewrite length_fmap. destruct (indices is_handler (route_steps r)) as [|i [|j js]].
  - destruct (last (indices is_plugin (route_steps r))); [|done]. by destruct (_ =? _)%nat.
  - done.
  - rewrite at_index_strip. by destruct (at_index _ j).
Qed.

Lemma lower_route_strip r : lower_route (E := X) (strip_route r) = exec_map (strip_pair strip_route_def) (lower_route r).
Proof.
  unfold lower_route. rewrite terminal_idx_strip. destruct (terminal_idx r) as [[t ds]| | |]; [|done..]. cbn [exec_map mbind exec_bind strip_pair fst snd id].
  assert (Hh : match t with
      | Some i => s ← at_index (route_steps (strip_route r)) i; Ok (Some (build_handler s))
      | None => Ok None
      end = match t with Some i => s ← at_index (E := X) (route_steps r) i; Ok (Some (build_handler s)) | None => Ok None end).
  { destruct t as [i|]; [|done]. cbn [strip_route route_steps]. rewrite at_index_strip. destruct (at_index _ i); [|done..].
    cbn. by rewrite build_handler_strip. }
  rewrite Hh. clear Hh. destruct (match t with Some i => _ | None => _ end) as [h| | |]; [|done..]. cbn [exec_map mbind exec_bind strip_pair fst snd].
  f_equal. unfold strip_pair. cbn [fst snd]. f_equal. unfold strip_route_def.
  cbn [rd_kind rd_pattern rd_method rd_middleware mw_specs rd_handler refs strip_route route_steps route_matcher
    strip_matcher matcher_kind matcher_pattern matcher_predicates strip_spanned node at_zero id route_span].
  f_equal.
  - rewrite find_map_fmap. induction (matcher_predicates (route_matcher r)) as [|p ps IH]; [done|]. cbn.
    destruct (pred_key p =? "method")%string; [done|exact IH].
  - rewrite mw_steps_strip, <-list_fmap_compose. done.
  - rewrite mw_steps_strip. induction (mw_steps t (route_steps r)) as [|s l IH]; [done|]. cbn. rewrite build_middleware_strip. by rewrite IH.
  - induction (route_steps r) as [|s l IH]; [done|]. cbn [fmap list_fmap flat_map]. fold (strip_step <$> l).
    rewrite fmap_app, <-IH. f_equal. apply collect_refs_strip.
Qed.

(** Threading commutes with a relabelling of the state and of the steps. *)
Lemma fold_exec_strip {A B A' B'} (f : A -> B -> exec X A) (f' : A' -> B' -> exec X A') (g : A -> A') (h : B -> B') acc l :
  (forall acc x, f' (g acc) (h x) = exec_map g (f acc x)) ->
  fold_exec f' (g acc) (map h l) = exec_map g (fold_exec f acc l).
Proof.
  intros H. revert acc. induction l as [|x l IH]; intros acc; [done|]. cbn. rewrite H.
  destruct (f acc x); [|done..]. apply IH.
Qed.

Lemma tls_directive_strip args : tls_directive (strip_arg <$> args) = tls_directive args.
Proof. unfold tls_directive. autorewrite with strip. by destruct (first_positional args) as [[]|]. Qed.

Lemma lower_site_strip args body sp :
  lower_site (E := X) (strip_arg <$> args) (map strip_stmt body) no_span = exec_map (strip_pair strip_site) (lower_site args body sp).
Proof.
  unfold lower_site.
  pose proof (fold_exec_strip lower_site_stmt lower_site_stmt
    (fun acc => (acc.1.1, strip_route_def <$> acc.1.2, strip_diag <$> acc.2)) strip_stmt (TlsAuto, [], []) body) as Hf.
  cbn [fst snd fmap list_fmap] in Hf. rewrite Hf; clear Hf.
  - destruct (fold_exec lower_site_stmt (TlsAuto, [], []) body) as [[[t rs] ds]| | |]; [|done..].
    cbn [exec_map mbind exec_bind]. f_equal. unfold strip_pair. cbn [fst snd]. f_equal. unfold strip_site.
    cbn [site_hosts tls site_routes]. f_equal. induction args as [|a args IH]; [done|]. cbn [fmap list_fmap omap list_omap]. fold (strip_arg <$> args).
    destruct a as [[[] ?]|]; cbn; rewrite ?IH; done.
  - clear. intros [[t rs] ds] s. destruct s as [kw args body sp|d|r]; cbn [strip_stmt lower_site_stmt fst snd].
    + done.
    + cbn [exec_map mbind exec_bind fst snd directive_keyword directive_args]. rewrite tls_directive_strip. done.
    + rewrite lower_route_strip. destruct (lower_route r) as [[rd ds']| | |]; [|done..]. cbn. by rewrite !fmap_app.
Qed.
End Lower.

(** ** Upstreams, caches and rulesets *)
Lemma keyword_is_strip kw k : keyword_is (strip_spanned id kw) k = keyword_is kw k.
Proof. done. Qed.

Lemma retry_status_strip acc (items : list (Spanned Value)) :
  foldl retry_status acc (map (strip_spanned strip_value) items) = foldl retry_status acc items.
Proof.
  revert acc. induction items as [|i items IH]; intros acc; [done|]. cbn. rewrite <-IH. f_equal.
  destruct acc as [st ce]. by destruct i as [[] ?].
Qed.

Lemma lower_retry_stmt_strip r s : lower_retry_stmt r (strip_stmt s) = lower_retry_stmt r s.
Proof.
  destruct s as [|d|]; [done| |done]. cbn [strip_stmt lower_retry_stmt directive_keyword directive_args]. rewrite !keyword_is_strip.
  autorewrite with strip. destruct (keyword_is _ "attempts"); [by read_arg|]. destruct (keyword_is _ "on"); [|done].
  read_arg; try done. cbn. by rewrite retry_status_strip.
Qed.
Lemma lower_retry_strip body : lower_retry (map strip_stmt body) = lower_retry body.
Proof.
  unfold lower_retry. generalize (mk_retry_def 1 [] true). induction body as [|s body IH]; intros r; [done|]. cbn [map foldl].
  by rewrite lower_retry_stmt_strip, IH.
Qed.

Lemma lower_breaker_strip body : lower_breaker (map strip_stmt body) = lower_breaker body.
Proof.
  unfold lower_breaker. generalize (mk_breaker_def 5 15). induction body as [|s body IH]; intros b; [done|]. cbn [map foldl].
  rewrite IH. f_equal. destruct s as [|d|]; [done| |done]. cbn [strip_stmt lower_breaker_stmt directive_keyword directive_args].
  rewrite !keyword_is_strip. autorewrite with strip. destruct (_ || _); [by read_arg|]. destruct (keyword_is _ "open_for"); [by read_arg|done].
Qed.

Lemma target_weight_strip args : target_weight (strip_arg <$> args) = target_weight args.
Proof. unfold target_weight. autorewrite with strip. by destruct (named_value args "weight") as [[]|]. Qed.

Section Blocks.
Variable env : string -> option string.

Lemma resolve_strip v : resolve_str env (strip_value v) = resolve_str env v.
Proof. by destruct v. Qed.

Lemma lower_upstream_stmt_strip u s :
  lower_upstream_stmt env (strip_upstream u) (strip_stmt s) = strip_upstream (lower_upstream_stmt env u s).
Proof.
  destruct u as [n sp ts p r b], s as [kw args body sp'|d|rt]; cbn [strip_stmt strip_upstream lower_upstream_stmt directive_keyword directive_args
    ud_name ud_targets ud_policy ud_retry ud_breaker]; rewrite ?keyword_is_strip.
  - rewrite lower_retry_strip, lower_breaker_strip. destruct (keyword_is kw "retry"); [done|]. by destruct (keyword_is kw "breaker").
  - autorewrite with strip. rewrite target_weight_strip. destruct (keyword_is _ "target").
    + destruct (first_positional (directive_args d)) as [v|]; [|done]. cbn. rewrite resolve_strip. by destruct (resolve_str env v).
    + destruct (keyword_is _ "policy"); [by read_arg|done].
  - done.
Qed.

Lemma lower_upstream_strip kw args body :
  lower_upstream env (strip_spanned id kw) (strip_arg <$> args) (map strip_stmt body) = strip_upstream (lower_upstream env kw args body).
Proof.
  unfold lower_upstream. rewrite first_positional_str_strip.
  change (mk_upstream_def (default "" (first_positional_str args)) (span_of (strip_spanned id kw)) [] "round_robin" None None)
    with (strip_upstream (mk_upstream_def (default "" (first_positional_str args)) (span_of kw) [] "round_robin" None None)).
  generalize (mk_upstream_def (default "" (first_positional_str args)) (span_of kw) [] "round_robin" None None).
  induction body as [|s body IH]; intros u; [done|]. cbn [map foldl]. by rewrite lower_upstream_stmt_strip, IH.
Qed.
End Blocks.

Lemma lower_cache_strip kw args body :
  lower_cache (strip_spanned id kw) (strip_arg <$> args) (map strip_stmt body) = strip_cache (lower_cache kw args body).
Proof.
  unfold lower_cache. rewrite first_positional_str_strip.
  change (mk_cache_def (default "" (first_positional_str args)) (span_of (strip_spanned id kw)) 60 ["GET"; "HEAD"] [] 0)
    with (strip_cache (mk_cache_def (default "" (first_positional_str args)) (span_of kw) 60 ["GET"; "HEAD"] [] 0)).
  generalize (mk_cache_def (default "" (first_positional_str args)) (span_of kw) 60 ["GET"; "HEAD"] [] 0).
  induction body as [|s body IH]; intros c; [done|]. cbn [map foldl]. rewrite <-IH. f_equal.
  destruct c as [n sp ttl ms v swr], s as [|d|]; [done| |done].
  cbn [strip_stmt strip_cache lower_cache_stmt directive_keyword directive_args cd_name default_ttl_secs cd_methods cd_vary swr_secs].
  rewrite !keyword_is_strip. autorewrite with strip.
  destruct (keyword_is _ "default_ttl"); [by read_arg|]. destruct (keyword_is _ "methods"); [done|].
  destruct (keyword_is _ "vary"); [done|]. destruct (keyword_is _ "stale_while_revalidate"); [by read_arg|done].
Qed.

Lemma lower_ip_strip body : forall w, foldl lower_ip_stmt (strip_waf w) (map strip_stmt body) = strip_waf (foldl lower_ip_stmt w body).
Proof.
  induction body as [|s body IH]; intros w; [done|]. cbn [map foldl]. rewrite <-IH. f_equal.
  destruct w as [n sp m dn al], s as [|d|]; [done| |done].
  cbn [strip_stmt strip_waf lower_ip_stmt directive_keyword directive_args wd_name wd_mode ip_deny ip_allow].
  rewrite !keyword_is_strip. autorewrite with strip. destruct (keyword_is _ "deny"); [done|]. by destruct (keyword_is _ "allow").
Qed.

Lemma lower_waf_strip kw args body :
  lower_waf (strip_spanned id kw) (strip_arg <$> args) (map strip_stmt body) = strip_waf (lower_waf kw args body).
Proof.
  unfold lower_waf. rewrite first_positional_str_strip.
  change (mk_waf_def (default "" (first_positional_str args)) (span_of (strip_spanned id kw)) "block" [] [])
    with (strip_waf (mk_waf_def (default "" (first_positional_str args)) (span_of kw) "block" [] [])).
  generalize (mk_waf_def (default "" (first_positional_str args)) (span_of kw) "block" [] []).
  induction body as [|s body IH]; intros w; [done|]. cbn [map foldl]. rewrite <-IH. f_equal.
  destruct s as [kw' args' body' sp'|d|]; cbn [strip_stmt lower_waf_stmt directive_keyword directive_args]; [| |done].
  - rewrite keyword_is_strip. destruct (keyword_is kw' "ip"); [|done]. apply lower_ip_strip.
  - rewrite keyword_is_strip. autorewrite with strip. destruct (keyword_is _ "mode"); [by read_arg|done].
Qed.

Lemma push_named_strip out kw args :
  push_named (strip_named <$> out) (strip_spanned id kw) (strip_arg <$> args) = strip_named <$> push_named out kw args.
Proof.
  unfold push_named. autorewrite with strip. destruct (first_positional args) as [[]|]; try done. cbn. by rewrite fmap_app.
Qed.

(** ** Documents *)
Definition strip_result (acc : Config * list Diagnostic) : Config * list Diagnostic := strip_pair strip_config acc.

Ltac open_result :=
  cbn [exec_map mbind exec_bind]; unfold strip_result, strip_pair, strip_config;
  cbn [fst snd flow_version upstreams caches wafs user_sets sites]; rewrite ?fmap_app.

Lemma lower_stmt_strip {X} env debug_str acc s :
  lower_stmt (E := X) env debug_str (strip_result acc) (strip_stmt s) = exec_map strip_result (lower_stmt env debug_str acc s).
Proof.
  destruct acc as [[fv ups cas wfs us sts] ds], s as [kw args body sp|d|r]; [| |done].
  - cbn [strip_stmt lower_stmt strip_result strip_pair strip_config fst snd flow_version upstreams caches wafs user_sets sites].
    rewrite ?keyword_is_strip.
    destruct (keyword_is kw "upstream"); [open_result; by rewrite lower_upstream_strip|].
    destruct (keyword_is kw "cache"); [open_result; by rewrite lower_cache_strip|].
    destruct (keyword_is kw "waf"); [open_result; by rewrite lower_waf_strip|].
    destruct (keyword_is kw "users"); [open_result; by rewrite push_named_strip|].
    destruct (keyword_is kw "site"); [|done]. rewrite (lower_site_strip args body sp).
    destruct (lower_site args body sp) as [[st ds']| | |]; [|done..]. by open_result.
  - cbn [strip_stmt lower_stmt strip_result strip_pair strip_config fst snd flow_version upstreams caches wafs user_sets sites
      directive_keyword directive_args directive_span].
    rewrite ?keyword_is_strip. destruct (keyword_is _ "flow_version"); [|done]. autorewrite with strip.
    destruct (first_positional (directive_args d)) as [[]|]; try done. open_result.
    do 3 f_equal. by destruct (has SUPPORTED_FLOW_VERSIONS s).
Qed.

Lemma lower_strip {X} env debug_str (l : list Stmt) :
  lower (E := X) env debug_str (mk_ast (map strip_stmt l)) = exec_map strip_result (lower env debug_str (mk_ast l)).
Proof. unfold lower. cbn [stmts]. apply (fold_exec_strip _ _ strip_result strip_stmt (mk_config None [] [] [] [] [], [])), lower_stmt_strip. Qed.

(** ** Validation *)
Lemma check_dup_strip kind (names : list NamedDef) : check_dup_names (strip_named <$> names) kind = strip_diag <$> check_dup_names names kind.
Proof.
  unfold check_dup_names. generalize (@nil string). induction names as [|n names IH]; intros seen; [done|]. cbn.
  destruct (has seen (nm_name n)); cbn; by rewrite <-IH.
Qed.

Lemma check_hosts_strip (hosts : list Host) : forall seen, check_hosts_from seen (strip_host <$> hosts) = strip_diag <$> check_hosts_from seen hosts.
Proof. induction hosts as [|h hosts IH]; intros seen; [done|]. cbn. destruct (has seen (host_pattern h)); cbn; by rewrite <-IH. Qed.

Lemma nearest_strip name (names : list NamedDef) : nearest name (strip_named <$> names) = nearest name names.
Proof. unfold nearest. do 3 f_equal. by rewrite <-list_fmap_compose. Qed.

Lemma check_ref_strip (names : list NamedDef) r : check_ref (strip_named <$> names) (strip_ref r) = strip_diag <$> check_ref names r.
Proof.
  unfold check_ref. cbn [strip_ref ref_name ref_span].
  assert (E : existsb (fun n => nm_name n =? ref_name r)%string (strip_named <$> names) = existsb (fun n => nm_name n =? ref_name r)%string names).
  { induction names as [|n names IH]; [done|]. cbn. by rewrite IH. }
  rewrite E, nearest_strip. destruct (existsb _ names); [done|]. by destruct (nearest _ names).
Qed.

Lemma check_cors_strip sp m : check_cors no_span m = strip_diag <$> check_cors sp m.
Proof. destruct m; try done. cbn. by destruct (_ && _). Qed.

Lemma defined_names_strip c : defined_names (strip_config c) = strip_named <$> defined_names c.
Proof.
  unfold defined_names, upstream_names, cache_names, waf_names. cbn. rewrite !fmap_app. do 3 f_equal; by rewrite <-!list_fmap_compose.
Qed.

Lemma flat_map_strip {A B C D} (f : A -> list B) (f' : C -> list D) (g : A -> C) (h : B -> D) (l : list A) :
  (forall x, f' (g x) = h <$> f x) -> flat_map f' (g <$> l) = h <$> flat_map f l.
Proof. intros H. induction l as [|x l IH]; [done|]. cbn. rewrite H. fold (g <$> l). by rewrite IH, fmap_app. Qed.

Lemma all_routes_strip c : all_routes (strip_config c) = strip_route_def <$> all_routes c.
Proof. unfold all_routes. cbn [strip_config sites]. by apply flat_map_strip. Qed.

Lemma validate_strip c : validate (strip_config c) = strip_diag <$> validate c.
Proof.
  unfold validate. rewrite defined_names_strip, all_routes_strip, !fmap_app. cbn [strip_config user_sets].
  repeat f_equal.
  - rewrite <-check_dup_strip. f_equal. unfold upstream_names. cbn. by rewrite <-!list_fmap_compose.
  - rewrite <-check_dup_strip. f_equal. unfold cache_names. cbn. by rewrite <-!list_fmap_compose.
  - rewrite <-check_dup_strip. f_equal. unfold waf_names. cbn. by rewrite <-!list_fmap_compose.
  - apply check_dup_strip.
  - apply flat_map_strip. intros r. cbn [strip_route_def refs]. apply flat_map_strip. intros u. apply check_ref_strip.
  - apply flat_map_strip. intros r. cbn [strip_route_def mw_specs rd_span].
    rewrite <-(list_fmap_id (mw_specs r)) at 1. apply flat_map_strip. intros m. apply check_cors_strip.
  - unfold check_host_collisions. rewrite <-check_hosts_strip. f_equal. cbn [strip_config sites]. by apply flat_map_strip.
Qed.

(** ** The data plane *)
Lemma find_waf_strip c name : find_waf (strip_config c) name = strip_waf <$> find_waf c name.
Proof.
  unfold find_waf. cbn [strip_config wafs]. rewrite list_find_fmap. cbn.
  change (list_find ((fun w => wd_name w = name) ∘ strip_waf) (wafs c)) with (list_find (fun w => wd_name w = name) (wafs c)).
  by destruct (list_find _ _) as [[]|].
Qed.

Lemma build_layers_strip c : build_layers (strip_config c) = build_layers c.
Proof.
  unfold build_layers. cbn [strip_config caches]. rewrite imap_fmap. unfold compose.
  assert (G : forall (k : nat -> nat) (acc : layers * stores) (l : list CacheDef), foldl add_layer acc (imap (fun i x => (k i, strip_cache x)) l)
    = foldl add_layer acc (imap (fun i x => (k i, x)) l)).
  { intros k acc l. revert k acc. induction l as [|x l IH]; intros k acc; [done|]. cbn. specialize (IH (k ∘ S)). unfold compose in *. rewrite IH.
    by destruct acc. }
  apply (G id).
Qed.

Lemma build_spec_strip c ls acc s : build_spec (strip_config c) ls acc s = build_spec c ls acc s.
Proof.
  destruct acc as [[m ca] h], s as [| | |name|]; try done. cbn [build_spec]. rewrite find_waf_strip. by destruct (find_waf c name).
Qed.

Lemma build_routes_strip c ls rds : forall h,
  build_routes (strip_config c) ls h (strip_route_def <$> rds) = build_routes c ls h rds.
Proof.
  induction rds as [|rd rds IH]; intros h; [done|]. cbn [fmap list_fmap build_routes]. fold (strip_route_def <$> rds).
  assert (E : build_route (strip_config c) ls h (strip_route_def rd) = build_route c ls h rd).
  { unfold build_route. cbn [strip_route_def mw_specs rd_kind rd_pattern rd_method rd_handler].
    assert (Ef : forall acc, foldl (build_spec (strip_config c) ls) acc (mw_specs rd) = foldl (build_spec c ls) acc (mw_specs rd)).
    { induction (mw_specs rd) as [|s l IHl]; intros acc; [done|]. cbn. by rewrite build_spec_strip, IHl. }
    by rewrite Ef. }
  rewrite E. destruct (build_route c ls h rd) as [r h']. by rewrite IH.
Qed.

Lemma build_router_strip c : build_router (strip_config c) = build_router c.
Proof.
  unfold build_router. rewrite build_layers_strip. destruct (build_layers c) as [ls ss]. cbn [strip_config sites].
  assert (E : forall h, build_sites (strip_config c) ls h (strip_site <$> sites c) = build_sites c ls h (sites c)).
  { induction (sites c) as [|s l IH]; intros h; [done|]. cbn [fmap list_fmap build_sites]. fold (strip_site <$> l).
    assert (Es : build_site (strip_config c) ls h (strip_site s) = build_site c ls h s).
    { unfold build_site. cbn [strip_site site_routes site_hosts]. rewrite build_routes_strip. destruct (build_routes c ls h _).
      by rewrite <-list_fmap_compose. }
    rewrite Es. destruct (build_site c ls h s) as [s' h']. by rewrite IH. }
  by rewrite E.
Qed.

Lemma build_upstreams_strip c : build_upstreams (strip_config c) = build_upstreams c.
Proof.
  unfold build_upstreams. cbn [strip_config upstreams]. generalize Proxy.registry_new.
  induction (upstreams c) as [|u l IH]; intros r; [done|]. cbn. apply IH.
Qed.

(** ** Compilation *)
Section Compile.
Variable env : string -> option string.
Variables (debug_str : string -> string) (debug_value : Value -> string) (debug_config : Config -> string).
Abbreviation compile := (Compile.compile env debug_str debug_value debug_config).

(** What compilation makes of a tree: its configuration and its diagnostics,
    without positions. *)
Definition meaning (l : list Stmt) (m : Config * list Diagnostic) : Prop :=
  lower (E := list Diagnostic) env debug_str (mk_ast (map strip_stmt l)) = Ok m.

Lemma errors_strip (ds : list Diagnostic) : List.filter is_error (strip_diag <$> ds) = strip_diag <$> List.filter is_error ds.
Proof. induction ds as [|d ds IH]; [done|]. cbn. change (is_error (strip_diag d)) with (is_error d). destruct (is_error d); cbn; by rewrite <-IH. Qed.
Lemma warnings_strip (ds : list Diagnostic) :
  List.filter (fun d => negb (is_error d)) (strip_diag <$> ds) = strip_diag <$> List.filter (fun d => negb (is_error d)) ds.
Proof. induction ds as [|d ds IH]; [done|]. cbn. change (is_error (strip_diag d)) with (is_error d). destruct (is_error d); cbn; by rewrite <-IH. Qed.

(** The outcome for a text is the one of its tree. *)
Definition compiled_as (m : Config * list Diagnostic) (generation : Z) (outcome : exec (list Diagnostic) Compiled) : Prop :=
  let diags := m.2 ++ validate m.1 in
  match outcome with
  | Ok c => List.filter is_error diags = [] /\ strip_config (config c) = m.1
      /\ strip_diag <$> warnings c = List.filter (fun d => negb (is_error d)) diags
      /\ snapshot_generation (snapshot c) = generation
  | Err ds => List.filter is_error diags <> [] /\ strip_diag <$> ds = List.filter is_error diags
  | _ => False
  end.

Lemma compile_tree text generation ast : flow_parse debug_value text = Ok ast ->
  exists m, meaning (stmts ast) m /\ compiled_as m generation (compile text generation).
Proof.
  intros Hp. unfold Compile.compile. rewrite Hp. cbn [mbind exec_bind].
  destruct (lower_spec (X := list Diagnostic) env debug_str ast) as (c & ds & El & _). rewrite El. cbn [mbind exec_bind].
  exists (strip_result (c, ds)). split.
  - unfold meaning. rewrite lower_strip. destruct ast as [l]. cbn [stmts]. by rewrite El.
  - unfold compiled_as, strip_result, strip_pair. cbn [fst snd]. rewrite validate_strip, <-fmap_app, errors_strip, warnings_strip.
    destruct (List.filter is_error (ds ++ validate c)) as [|e es] eqn:E.
    + done.
    + by split.
Qed.

(** A text that is a document up to positions is accepted exactly when the
    document is, and gives its configuration. *)
Lemma compile_document text generation ast l : flow_parse debug_value text = Ok ast -> same_document (stmts ast) l ->
  exists c0, lowered env l c0
    /\ (acceptable l c0 /\ (exists c, compile text generation = Ok c /\ strip_config (config c) = strip_config c0)
        \/ ~ acceptable l c0 /\ refused (compile text generation)).
Proof.
  intros Hp Hd. destruct (compile_tree text generation ast Hp) as (m & Hm & H).
  destruct (lower_spec (X := list Diagnostic) env debug_str (mk_ast l)) as (c0 & ds0 & El & Hl & Hds). exists c0. split; [done|].
  assert (Em : m = strip_result (c0, ds0)).
  { unfold meaning in Hm. rewrite Hd, lower_strip, El in Hm. by injection Hm. }
  subst m. unfold compiled_as, strip_result, strip_pair in H. cbn [fst snd] in H.
  rewrite validate_strip, <-fmap_app, errors_strip in H.
  pose proof (errors_unless_app _ _ _ _ Hds (validate_spec c0)) as [Hiff Hall]. cbn [stmts] in Hiff.
  destruct (filter_errors _ Hall) as [Hf _]. rewrite Hf in H. unfold acceptable.
  destruct (compile text generation) as [c|ds| |]; [|..|done|done].
  - destruct H as (He%fmap_nil_inv & Hc & _). left. split; [naive_solver|]. by exists c.
  - destruct H as (He & Heq). right. split.
    + intros (? & ? & ?). apply He. by rewrite (proj2 Hiff).
    + exists ds. split; [done|]. rewrite <-Heq in He. split; [by destruct ds|].
      apply Forall_forall. intros d Hin. apply (list_elem_of_fmap_2 strip_diag) in Hin. rewrite Heq in Hin.
      apply list_elem_of_fmap in Hin as (d' & E & Hin). change (diag_severity d) with (diag_severity (strip_diag d)). rewrite E.
      eapply Forall_forall in Hall; [|exact Hin]. done.
Qed.

(** C5. Layout does not matter.  Two texts whose syntax trees differ in
    positions only, however they are spaced, broken into lines and commented,
    are compiled alike: both refused, with the same errors in the same order,
    or both accepted, with the same warnings and the same configuration; and
    the routing table, its middleware, limiters and cache stores, and the
    upstream pools built from the two configurations are equal. *)
Theorem compile_layout text text' ast ast' generation
    (Hp : flow_parse debug_value text = Ok ast) (Hp' : flow_parse debug_value text' = Ok ast')
    (Hd : same_document (stmts ast) (stmts ast')) :
  match compile text generation, compile text' generation with
  | Ok c, Ok c' => strip_config (config c) = strip_config (config c') /\ strip_diag <$> warnings c = strip_diag <$> warnings c'
      /\ build_router (config c) = build_router (config c') /\ build_upstreams (config c) = build_upstreams (config c')
  | Err ds, Err ds' => strip_diag <$> ds = strip_diag <$> ds'
  | _, _ => False
  end.
Proof.
  destruct (compile_tree text generation ast Hp) as (m & Hm & H), (compile_tree text' generation ast' Hp') as (m' & Hm' & H').
  assert (m' = m) as ->.
  { unfold meaning in *. rewrite Hd, Hm' in Hm. by injection Hm. }
  unfold compiled_as in *. destruct (compile text generation) as [c|ds| |], (compile text' generation) as [c'|ds'| |]; try done.
  - destruct H as (_ & Hc & Hw & _), H' as (_ & Hc' & Hw' & _). split; [by rewrite Hc, Hc'|]. split; [by rewrite Hw, Hw'|].
    split; [rewrite <-(build_router_strip (config c)), <-(build_router_strip (config c'))|
            rewrite <-(build_upstreams_strip (config c)), <-(build_upstreams_strip (config c'))]; by rewrite Hc, Hc'.
  - by destruct H as [He _], H' as [He' _].
  - by destruct H as [He _], H' as [He' _].
  - destruct H as [_ ->], H' as [_ ->]. done.
Qed.
End Compile.

(** *** Two layouts of one document *)
Abbreviation layout_parse := (flow_parse (fun _ => "")).
Abbreviation layout_one := ("upstream a { target http://x }
site h { route /* ~> proxy(@a) }").
Abbreviation layout_two := ("# the same
upstream   a   {
  target http://x   # one target
}

site h {
  route /* ~> proxy( @a )
}
").

Abbreviation layout_compile text := (Compile.compile (fun _ => None) id (fun _ => "") (fun _ => "") text 0).

Example layouts_compile :
  match layout_compile layout_one, layout_compile layout_two with
  | Ok c, Ok c' => length (upstreams (config c)) = 1%nat /\ length (sites (config c')) = 1%nat
  | _, _ => False
  end.
Proof. vm_compute. split; reflexivity. Qed.

Lemma compile_layout_witness :
  match layout_compile layout_one, layout_compile layout_two with
  | Ok c, Ok c' => strip_config (config c) = strip_config (config c') /\ strip_diag <$> warnings c = strip_diag <$> warnings c'
      /\ build_router (config c) = build_router (config c') /\ build_upstreams (config c) = build_upstreams (config c')
  | Err ds, Err ds' => strip_diag <$> ds = strip_diag <$> ds'
  | _, _ => False
  end.
Proof.
  eassert (E : layout_parse layout_one = Ok _) by (vm_compute; reflexivity).
  eassert (E' : layout_parse layout_two = Ok _) by (vm_compute; reflexivity).
  refine (compile_layout (fun _ => None) id (fun _ => "") (fun _ => "") layout_one layout_two _ _ 0 E E' _).
  vm_compute. reflexivity.
Defined.
