(* ===== verification/DocConfig.v ===== *)
(** * The configuration of a printed document

    Generated texts are printed documents of [upstream] and [site] blocks.
    What the compiler makes of such a document is read off the document: its
    pools, and its sites with their hosts, TLS posture and routes. *)

From Stdlib Require Import ZArith Ascii String Lia.
From stdpp Require Import base option list gmap strings.
From S2P Require Import Prelude RustStr CoreTypes UtilParse FlowSyntax FlowAtoms FlowLexer FlowParser FlowPrint Pipeline Router Proxy ConfigModel Config ConfigProps ConfigLayout ConfigRouter ConfigRouterProps.
Import Model Build.
Local Open Scope string_scope.
Local Open Scope list_scope.
Local Open Scope Z_scope.

(** ** Words and steps *)

(** A bare word where a string is wanted. *)
Definition read_word (w : string) : option string := match type_atom w with VStr s => Some s | _ => None end.

Lemma resolve_word env w : resolve_str env (type_atom w) = read_word w.
Proof. unfold read_word. pose proof (type_atom_env w) as He. destruct (type_atom w); try done. by destruct (He var dflt). Qed.

Definition step_tree (h : string) (args : list PArg) : Step := mk_step (at_zero h) (arg_tree <$> args) true no_span.
(** The handler that a step is, and the names it refers to. *)
Definition read_handler (h : string) (args : list PArg) : HandlerDef := Compile.build_handler (step_tree h args).
Definition step_refs (args : list PArg) : list string := ref_name <$> Compile.collect_refs (arg_tree <$> args).

(** A target: an address and a weight. *)
Definition read_target (env : string -> option string) (args : list PArg) : option Target :=
  url ← first_positional (arg_tree <$> args) ≫= resolve_str env;
  Some (mk_target url (Compile.target_weight (arg_tree <$> args))).

Definition word_arg (w : string) : PArg := mk_parg None (PAtom w).

(** ** The blocks and the routes of a document *)
Definition doc_blocks (kw : string) (ps : list PStmt) : list (list PArg * list PStmt) :=
  omap (fun p => match p with PBlock k args body => if (k =? kw)%string then Some (args, body) else None | _ => None end) ps.
Definition doc_routes (ps : list PStmt) : list PRoute := omap (fun p => match p with PRouteStmt r => Some r | _ => None end) ps.
Definition is_block (p : PStmt) : Prop := match p with PBlock _ _ _ => True | _ => False end.

Lemma doc_blocks_app kw ps qs : doc_blocks kw (ps ++ qs) = doc_blocks kw ps ++ doc_blocks kw qs.
Proof. apply omap_app. Qed.
Lemma doc_routes_app ps qs : doc_routes (ps ++ qs) = doc_routes ps ++ doc_routes qs.
Proof. apply omap_app. Qed.

Section Document.
Variable debug_value : Value -> string.
Abbreviation tree := (map (stmt_tree debug_value)).

Lemma blocks_tree kw ps :
  blocks kw (tree ps) = (fun b : list PArg * list PStmt => (at_zero kw, arg_tree <$> b.1, tree b.2)) <$> doc_blocks kw ps.
Proof.
  induction ps as [|p ps IH]; [done|]. unfold blocks, doc_blocks in *. cbn [map omap list_omap].
  destruct p as [k args|r|k args body]; cbn [stmt_tree]; [exact IH|exact IH|]. unfold Compile.keyword_is. cbn [node at_zero].
  destruct (String.eqb_spec k kw) as [->|_]; [|exact IH]. cbn [fmap list_fmap fst snd]. f_equal. exact IH.
Qed.

Lemma routes_tree ps : routes_in (tree ps) = route_tree debug_value <$> doc_routes ps.
Proof.
  induction ps as [|p ps IH]; [done|]. unfold routes_in, doc_routes in *. cbn [map omap list_omap].
  destruct p; cbn [stmt_tree]; [exact IH| |exact IH]. cbn [fmap list_fmap]. f_equal. exact IH.
Qed.

Lemma versions_tree ps : Forall is_block ps -> versions (tree ps) = [].
Proof. induction 1 as [|p ps Hp _ IH]; [done|]. by destruct p. Qed.

(** ** Pools *)
Lemma tree_upstream env name (ts : list (list PArg)) :
  Compile.lower_upstream env (at_zero "upstream") (arg_tree <$> [word_arg name]) (tree (PDirective "target" <$> ts))
  = mk_upstream_def (default "" (read_word name)) no_span (omap (read_target env) ts) "round_robin" None None.
Proof.
  unfold Compile.lower_upstream.
  replace (first_positional_str (arg_tree <$> [word_arg name])) with (read_word name) by done.
  enough (G : forall acc, foldl (Compile.lower_upstream_stmt env)
      (mk_upstream_def (default "" (read_word name)) no_span acc "round_robin" None None) (tree (PDirective "target" <$> ts))
    = mk_upstream_def (default "" (read_word name)) no_span (acc ++ omap (read_target env) ts) "round_robin" None None) by apply (G []).
  induction ts as [|args ts IH]; intros acc; [cbn; by rewrite app_nil_r|]. cbn [fmap list_fmap map foldl omap list_omap].
  fold (PDirective "target" <$> ts). cbn [stmt_tree Compile.lower_upstream_stmt directive_keyword directive_args].
  change (Compile.keyword_is (at_zero "target") "target") with true. cbv iota. unfold read_target at 1.
  destruct (first_positional (arg_tree <$> args) ≫= resolve_str env) as [url|]; cbn [mbind option_bind]; rewrite IH; [|done].
  by rewrite <-app_assoc.
Qed.

(** ** Routes *)

(** What a route of the document is in the configuration. *)
Record described_route (r : PRoute) (rd : RouteDef) : Prop := {
  desc_kind : rd_kind rd = pr_kind r;
  desc_pattern : rd_pattern rd = pr_pattern r;
  desc_method : rd_method rd = to_ascii_uppercase ∘ pred_value <$>
    find_map (fun p => if (pred_key p =? "method")%string then Some p else None) (predicate_tree debug_value <$> pr_predicates r);
  desc_specs : mw_specs rd = [];
  desc_handler : rd_handler rd = Some (read_handler (pr_handler r) (pr_args r));
  desc_refs : forall n, n ∈ ref_name <$> refs rd <-> n ∈ step_refs (pr_args r);
}.

Lemma tree_route r : pr_handler r ∈ Compile.HANDLERS ->
  has_terminal (route_tree debug_value r) /\ forall rd, lowered_route (route_tree debug_value r) rd -> described_route r rd.
Proof.
  intros Hh. assert (Ht : terminal (route_steps (route_tree debug_value r)) [] (step_tree (pr_handler r) (pr_args r))).
  { apply (only_handler [] _ []); [|by constructor..]. unfold Compile.is_handler. apply has_spec. exact Hh. }
  split; [by do 2 eexists|]. intros rd Hl. destruct (lowered_terminal _ _ Hl _ _ Ht) as (Hhd & _ & Hmw). split.
  - by rewrite (lowered_kind _ _ Hl).
  - by rewrite (lowered_pattern _ _ Hl).
  - by rewrite (lowered_method _ _ Hl).
  - by rewrite Hmw.
  - exact Hhd.
  - intros n. rewrite (lowered_refs _ _ Hl). unfold step_refs. rewrite collect_refs_occurs. cbn [route_tree route_steps].
    split.
    + intros (s & a & ->%list_elem_of_singleton & Ha & Ho). by exists a.
    + intros (a & Ha & Ho). eexists _, a. split; [by apply list_elem_of_singleton|done].
Qed.

Lemma tree_routes rs : Forall (fun r => pr_handler r ∈ Compile.HANDLERS) rs ->
  Forall has_terminal (route_tree debug_value <$> rs)
  /\ forall rds, Forall2 lowered_route (route_tree debug_value <$> rs) rds -> Forall2 described_route rs rds.
Proof.
  induction 1 as [|r rs Hr Hrs [IH1 IH2]].
  { split; [constructor|]. intros rds Hl. apply Forall2_nil_inv_l in Hl as ->. constructor. }
  destruct (tree_route r Hr) as [Ht Hd]. split; [by constructor|]. intros rds Hl.
  apply Forall2_cons_inv_l in Hl as (rd & rds' & Hrd & Hl & ->). constructor; auto.
Qed.

(** ** Sites *)
Record described_site (words : list string) (mode : TlsMode) (rs : list PRoute) (st : Site) : Prop := {
  desc_hosts : host_pattern <$> site_hosts st = omap read_word words;
  desc_tls : tls st = mode;
  desc_routes : Forall2 described_route rs (site_routes st);
}.

Lemma hosts_tree (words : list string) : host_pattern <$> omap Compile.site_host (arg_tree <$> (word_arg <$> words)) = omap read_word words.
Proof.
  induction words as [|w words IH]; [done|]. cbn. unfold read_word at 1. destruct (type_atom w); cbn; by rewrite IH.
Qed.

Lemma tree_site words body rs st : doc_routes body = rs -> Forall (fun r => pr_handler r ∈ Compile.HANDLERS) rs ->
  lowered_site (at_zero "site", arg_tree <$> (word_arg <$> words), tree body) st ->
  described_site words (site_tls (tree body)) rs st.
Proof.
  intros <- Hr [L1 L2 L3]. cbn [fst snd] in *. rewrite routes_tree in L3. split.
  - by rewrite L1, hosts_tree.
  - done.
  - by apply tree_routes.
Qed.

(** ** The data plane *)

(** A route and a site of the routing table. *)
Definition table_route (r : PRoute) : Router.Route :=
  Router.mk_route (map_kind (pr_kind r)) (pr_pattern r)
    (to_ascii_uppercase ∘ pred_value <$>
      find_map (fun p => if (pred_key p =? "method")%string then Some p else None) (predicate_tree debug_value <$> pr_predicates r))
    [] None (map_handler (read_handler (pr_handler r) (pr_args r))).

Lemma built_described c hl r rd rt : built_route c hl rd rt -> described_route r rd -> rt = table_route r.
Proof.
  intros [B1 B2 B3 B4 B5 (parts & B6 & Hp)] [P1 P2 P3 P4 P5 _]. rewrite P4 in *. apply Forall2_nil_inv_l in Hp as ->.
  rewrite P5 in B4. injection B4 as B4. destruct rt. cbn in *. subst. unfold table_route. by rewrite P1, P2, P3.
Qed.

Lemma built_described_site c hl words mode rs st s : built_site c hl st s -> described_site words mode rs st ->
  s = Router.mk_site (omap read_word words) (table_route <$> rs).
Proof.
  intros [Hh Hr] [D1 _ D3]. destruct s as [hosts routes]. cbn in *. rewrite Hh, D1. f_equal.
  clear -Hr D3. revert routes Hr. induction D3 as [|r rd rs rds Hd _ IH]; intros routes Hr.
  - by apply Forall2_nil_inv_l in Hr as ->.
  - apply Forall2_cons_inv_l in Hr as (rt & rts & Hrt & Hr & ->). cbn. f_equal; [by eapply built_described|by apply IH].
Qed.
End Document.
