(* ===== verification/EndToEnd.v ===== *)
(** * From the configuration text to the answers

    What the crates do together: a text is compiled, the gateway is built from
    the compiled configuration ([up.rs], [gateway.rs]), and each connection
    hands its requests to [handle] ([serve_connection] of [pulsate-http]).  The
    theorems of the parts compose: a gateway started from a text that compiles
    answers every request, and as the text says. *)

From Stdlib Require Import ZArith Ascii String Lia.
From stdpp Require Import base option list gmap strings.
From S2P Require Import Prelude RustStr RustNet CoreTypes UtilParse FlowSyntax Http Message Waf WafProps Cache CacheProps Pipeline PipelineProps Router RouterProps Proxy ProxyProps Observe ObserveProps Handlers Serve ServeProps ConfigModel Config ConfigProps ConfigRouter ConfigRouterProps.
Import Model Serve Build.
Local Open Scope string_scope.
Local Open Scope list_scope.
Local Open Scope Z_scope.

Module Running.
Section Running.
Context `{HeaderOps}.
Variable iter : gmap string Cache.Entry -> list (string * Cache.Entry).
Variable hash_ip : option IpAddr -> Z.
Variable instant_max : Z.
Variable parse_uri : string -> option string.
Variable Incoming : Type.
Variable collect_limited : Z -> Incoming -> option string.
Variable show3 : f64 -> string.

(** The gateway of a configuration, as [up] builds it, and the state it
    starts in: its limiters and stores, its pools, fresh telemetry, and the
    counter of identifiers at zero. *)
Definition start_gateway (alt_svc : option string) (c : Config) : Gateway :=
  with_alt_svc alt_svc (gateway_new (build_router c).1.1).
Definition start_world (c : Config) : World :=
  mk_world (heap_limiters (build_router c).1.2) (build_router c).2 (build_upstreams c) 0 Metrics.telemetry_new [].

(** One request as it meets the world: its clock, its head, body and peer,
    and what the upstreams, the file system and the other requests do while it
    is served. *)
Record Exchange := mk_exchange {
  x_now : Readings;
  x_parts : Parts;
  x_body : Incoming;
  x_peer : IpAddr;
  x_send : nat -> Proxy.OutRequest -> Proxy.Upstream -> option Proxy.UpResponse * Proxy.Upstream;
  x_fs : Handlers.FileSystem;
  x_others : World -> World;
}.

Definition serve_one (gw : Gateway) (x : Exchange) (w : World) : exec () (HyperResponse * nat * World) :=
  handle iter hash_ip instant_max parse_uri (x_send x) (x_fs x) (x_others x) Incoming collect_limited show3
    (x_now x) gw (x_parts x) (x_body x) (x_peer x) w.

(** The requests that hyper hands to the service, one after the other, each
    with its response and the number of requests sent upstream for it. *)
Fixpoint serve_connection (gw : Gateway) (xs : list Exchange) (w : World) : exec () (list (HyperResponse * nat) * World) :=
  match xs with
  | [] => Ok ([], w)
  | x :: xs =>
    '(resp, sent, w) ← serve_one gw x w;
    '(answers, w) ← serve_connection gw xs w;
    Ok ((resp, sent) :: answers, w)
  end.
End Running.
End Running.
Import Running.

(** ** The route the configuration declares *)

(** What a declared route is matched by. *)
Definition declared_score (rd : RouteDef) (path method : string) : option Z :=
  Router.score (Router.mk_route (map_kind (rd_kind rd)) (rd_pattern rd) (rd_method rd) [] None (Router.Other "")) path method.
Definition declared_host_score (s : Site) (host : string) : option Z :=
  Router.host_score (Router.mk_site (host_pattern <$> site_hosts s) []) host.

Definition declared_route (c : Config) (host path method : string) : option RouteDef :=
  site ← Router.best_by (fun s => declared_host_score s (Router.host_without_port host)) (sites c);
  Router.best_by (fun rd => declared_score rd path method) (site_routes site).

(** The best of two lists that correspond are corresponding. *)
Lemma best_by_related {A B} (R : A -> B -> Prop) (f : A -> option Z) (g : B -> option Z) l k :
  (forall x y, R x y -> f x = g y) -> Forall2 R l k -> option_Forall2 R (Router.best_by f l) (Router.best_by g k).
Proof.
  intros Hfg Hlk. unfold Router.best_by.
  assert (E : forall acc acc', option_Forall2 (fun a b => a.1 = b.1 /\ R a.2 b.2) acc acc' ->
    option_Forall2 (fun a b => a.1 = b.1 /\ R a.2 b.2)
      (foldl (fun acc x => match f x with None => acc | Some sc => match acc with
         | Some (best, _) => if best <=? sc then Some (sc, x) else acc | None => Some (sc, x) end end) acc l)
      (foldl (fun acc x => match g x with None => acc | Some sc => match acc with
         | Some (best, _) => if best <=? sc then Some (sc, x) else acc | None => Some (sc, x) end end) acc' k)).
  { induction Hlk as [|x y l k Hxy Hlk IH]; intros acc acc' Ha; [exact Ha|]. cbn [foldl]. apply IH.
    rewrite <-(Hfg x y Hxy). destruct (f x) as [sc|]; [|exact Ha].
    destruct Ha as [[b z] [b' z'] [Hb Hz]|]; [|by constructor]. cbn in Hb. subst b'.
    destruct (b <=? sc); by constructor. }
  specialize (E None None (None_Forall2 _)). destruct E as [[? ?] [? ?] [_ HR]|]; by constructor.
Qed.

(** ** The state at the start *)

(** The policy of each cache store, by address. *)
Definition store_config (c : Config) (a : nat) : Cache.CacheConfig :=
  default Cache.default_config (cache_config <$> caches c !! a).

Lemma build_layers_stores c a i : NoDup (nm_name <$> cache_names c) ->
  (build_layers c).2 !! a = Some i -> i = Cache.store_new.
Proof.
  intros Hnd. unfold cache_names in Hnd. rewrite <-list_fmap_compose in Hnd.
  destruct (add_layers_spec (caches c) 0 ∅ ∅ Hnd) as [_ H2]. unfold build_layers. rewrite H2.
  destruct (decide _); [by intros [= <-]|]. by rewrite lookup_empty.
Qed.

(** What [build_router] gives for a well-formed configuration. *)
Lemma build_router_wf c : well_formed c -> Forall (fun rd => is_Some (rd_handler rd)) (Compile.all_routes c) ->
  Forall2 (built_site c (heap_limiters (build_router c).1.2)) (sites c) (Router.sites (build_router c).1.1)
  /\ (build_router c).2 = (build_layers c).2
  /\ NoDup (nm_name <$> cache_names c) /\ NoDup (ud_name <$> upstreams c).
Proof.
  intros Hwf Hh.
  pose proof (unique_upstreams _ Hwf) as Hu. unfold upstream_names in Hu. rewrite <-list_fmap_compose in Hu.
  destruct (build_layers_spec c (unique_caches _ Hwf)) as [Hls _].
  unfold build_router. destruct (build_layers c) as [ls ss]. cbn in Hls.
  destruct (build_sites_spec c ls Hls (sites c) (mk_heap ∅ 0)) as (sts & h & -> & _ & B); [|done|].
  { intros a l Ha. cbn in Ha. by rewrite lookup_empty in Ha. }
  split_and!; [done|done|apply Hwf|done].
Qed.

Lemma build_router_spec env debug_str debug_value debug_config text generation compiled :
  Compile.compile env debug_str debug_value debug_config text generation = Ok compiled ->
  let c := Compile.config compiled in
  Forall2 (built_site c (heap_limiters (build_router c).1.2)) (sites c) (Router.sites (build_router c).1.1)
  /\ (build_router c).2 = (build_layers c).2
  /\ NoDup (nm_name <$> cache_names c) /\ NoDup (ud_name <$> upstreams c).
Proof. intros (Hwf & _ & Hh)%compile_Ok. by apply build_router_wf. Qed.

(** A limiter of a built step is in the heap. *)
Lemma built_spec_limiter c hl s part mw id :
  built_spec c hl s part -> mw ∈ part -> limiter_of mw = Some id -> is_Some (hl !! id).
Proof.
  intros Hb Hmw Hid. destruct Hb as [p|o m cr|n per key a Ha|name w _|name _|name].
  1, 2, 3: apply list_elem_of_singleton in Hmw as ->; cbn in Hid; simplify_eq; by eexists.
  2, 3: by apply elem_of_nil in Hmw.
  unfold acl_of in Hmw. apply elem_of_app in Hmw as [Hmw| ->%list_elem_of_singleton]; [|done].
  case_decide; [by apply elem_of_nil in Hmw|]. by apply list_elem_of_singleton in Hmw as ->.
Qed.

Section Start.
Variable c : Config.
Variable alt_svc : option string.
Abbreviation gw := (start_gateway alt_svc c).
Abbreviation hl := (heap_limiters (build_router c).1.2).
Hypothesis Hsites : Forall2 (built_site c hl) (sites c) (Router.sites (build_router c).1.1).
Hypothesis Hstores : (build_router c).2 = (build_layers c).2.
Hypothesis Hcaches : NoDup (nm_name <$> cache_names c).
Hypothesis Hups : NoDup (ud_name <$> upstreams c).

(** The route of a request is what became of the declared one. *)
Lemma route_declared host path method :
  option_Forall2 (built_route c hl) (declared_route c host path method) (Router.route (router gw) host path method).
Proof.
  unfold declared_route, Router.route. cbn [start_gateway with_alt_svc gateway_new router].
  assert (Hb : option_Forall2 (built_site c hl)
    (Router.best_by (fun s => declared_host_score s (Router.host_without_port host)) (sites c))
    (Router.best_by (fun s => Router.host_score s (Router.host_without_port host)) (Router.sites (build_router c).1.1))).
  { apply best_by_related; [|exact Hsites]. intros s s' [Eh _]. unfold declared_host_score, Router.host_score.
    cbn [Router.hosts]. by rewrite Eh. }
  destruct Hb as [s s' [_ Hr]|]; [|constructor]. cbn. apply best_by_related; [|done].
  intros rd rt B. unfold declared_score, Router.score. cbn [Router.kind Router.pattern Router.route_method].
  by rewrite (built_kind _ _ _ _ B), (built_pattern _ _ _ _ B), (built_method _ _ _ _ B).
Qed.

Lemma routes_built rt : routes_of gw rt ->
  exists s rd, s ∈ sites c /\ rd ∈ site_routes s /\ built_route c hl rd rt.
Proof.
  intros (s' & Hs' & Hrt). apply list_elem_of_lookup in Hs' as [j Hj].
  destruct (Forall2_lookup_r _ _ _ _ _ Hsites Hj) as (s & Hs & [_ Hr]).
  apply list_elem_of_lookup in Hrt as [k Hk].
  destruct (Forall2_lookup_r _ _ _ _ _ Hr Hk) as (rd & Hrd & B).
  exists s, rd. split_and!; [by eapply list_elem_of_lookup_2..|done].
Qed.

Lemma start_pool name u : Proxy.registry_get name (build_upstreams c) = Some u ->
  exists d, d ∈ upstreams c /\ ud_name d = name /\ u = build_upstream d.
Proof.
  destruct (registry_insert_all (upstreams c) Proxy.registry_new Hups) as (H1 & H2 & _).
  { intros d _. apply lookup_empty. }
  intros Hg. destruct (decide (name ∈ ud_name <$> upstreams c)) as [Hin|Hout].
  - apply list_elem_of_fmap in Hin as (d & -> & Hd). exists d. split_and!; [done|done|].
    pose proof (H1 d Hd) as E. unfold build_upstreams in Hg. congruence.
  - pose proof (H2 name Hout) as E. unfold build_upstreams in Hg. rewrite E in Hg.
    unfold Proxy.registry_get in Hg. cbn in Hg. by rewrite lookup_empty in Hg.
Qed.

Lemma fresh_loads d : Forall (fun z => 0 <= z < u64_max) (loads (build_upstream d)).
Proof.
  unfold loads, build_upstream, Proxy.upstream_new. cbn [Proxy.backends]. rewrite <-!list_fmap_compose.
  apply Forall_fmap, Forall_true. intros t. vm_compute. done.
Qed.

Lemma store_new_ok config : 0 <= Cache.max_total_bytes config -> store_ok config Cache.store_new.
Proof. intros Hm. split_and!; [done|done|cbn [Cache.store_new Cache.map]; rewrite map_size_empty; lia|apply map_Forall_empty]. Qed.

Lemma store_config_bytes a : 0 <= Cache.max_total_bytes (store_config c a).
Proof. unfold store_config. by destruct (caches c !! a). Qed.

Lemma start_world_ok : serve_ok (store_config c) gw (start_world c).
Proof.
  split.
  - intros rt mw id Hrt Hmw Hid. destruct (routes_built _ Hrt) as (s & rd & _ & _ & B).
    destruct (built_middleware _ _ _ _ B) as (parts & E & Hp). rewrite E in Hmw.
    apply list_elem_of_join in Hmw as (part & Hmw & Hpart). apply list_elem_of_lookup in Hpart as [j Hj].
    destruct (Forall2_lookup_r _ _ _ _ _ Hp Hj) as (sp & _ & Hb). by eapply built_spec_limiter.
  - intros rt layer Hrt Hc. destruct (routes_built _ Hrt) as (s & rd & _ & _ & B).
    rewrite (built_selected _ _ _ _ B) in Hc. apply bind_Some in Hc as (name & _ & Hl).
    unfold layer_of in Hl. apply fmap_Some in Hl as ([i d] & Hf & ->). apply list_find_Some in Hf as (Hi & _ & _).
    cbn [Router.layer_config Router.layer_store start_world w_stores]. unfold store_config. rewrite Hi. split; [done|].
    rewrite Hstores. destruct (build_layers_spec c Hcaches) as [_ Hss]. rewrite Hss; [by eexists|]. by eapply lookup_lt_Some.
  - intros a i. cbn [start_world w_stores]. rewrite Hstores. intros ->%build_layers_stores; [|done].
    apply store_new_ok, store_config_bytes.
  - intros name u (d & _ & _ & ->)%start_pool. apply fresh_loads.
  - reflexivity.
Qed.
End Start.

(** ** What a request may change *)

(** The log is appended to, and the pools keep their names and settings. *)
Record calm (w w' : World) : Prop := {
  calm_log : w_log w `prefix_of` w_log w';
  calm_pools name : settings <$> Proxy.registry_get name (w_upstreams w') = settings <$> Proxy.registry_get name (w_upstreams w);
}.

#[export] Instance calm_preorder : PreOrder calm.
Proof. split; [by split|]. intros w1 w2 w3 [L1 P1] [L2 P2]. split; [by etrans|]. intros name. by rewrite P2. Qed.

Lemma calm_same w w' : w_log w' = w_log w -> w_upstreams w' = w_upstreams w -> calm w w'.
Proof. intros Hl Hu. split; [by rewrite Hl|]. intros name. by rewrite Hu. Qed.

Section Frames.
Context `{HeaderOps}.
Variable iter : gmap string Cache.Entry -> list (string * Cache.Entry).
Variable hash_ip : option IpAddr -> Z.
Variable instant_max : Z.
Variable parse_uri : string -> option string.
Variable send : nat -> Proxy.OutRequest -> Proxy.Upstream -> option Proxy.UpResponse * Proxy.Upstream.
Variable fs : Handlers.FileSystem.
Variable others : World -> World.
Variable Incoming : Type.
Variable collect_limited : Z -> Incoming -> option string.
Hypothesis send_settings : forall k r u, settings (send k r u).2 = settings u.
Hypothesis others_calm : forall w, calm w (others w).

Lemma cache_lookup_calm now rt m h t req w r w' : cache_lookup now rt m h t req w = Ok (r, w') -> calm w w'.
Proof.
  unfold cache_lookup. destruct (Router.cache rt) as [layer|]; [|by intros [= _ <-]].
  destruct (negb _); [by intros [= _ <-]|]. destruct (w_stores w !! _); [|done].
  intros ([hit st] & _ & [= _ <-])%bind_Ok. by apply calm_same.
Qed.

Lemma cache_store_calm now rt m h t req resp w r w' :
  cache_store iter now rt m h t req resp w = Ok (r, w') -> calm w w'.
Proof.
  unfold cache_store. destruct (Router.cache rt) as [layer|]; [|by intros [= _ <-]].
  destruct (negb _); [by intros [= _ <-]|]. destruct (w_stores w !! _); [|done].
  intros ([stored st] & _ & [= _ <-])%bind_Ok. by apply calm_same.
Qed.

Abbreviation forward now m pq req b ip h :=
  (Proxy.forward hash_ip instant_max parse_uri send (at_pick now) (at_fail now) m pq req b ip h).

Lemma forward_settings now m pq req b ip h u r n u' :
  forward now m pq req b ip h u = Ok (r, n, u') -> settings u' = settings u.
Proof. apply forward_loop_settings, send_settings. Qed.

Lemma proxy_calm now up t m pq req b peer h w r n w' :
  proxy hash_ip instant_max parse_uri send now up t m pq req b peer h w = Ok (r, n, w') -> calm w w'.
Proof.
  unfold proxy. destruct up as [name|].
  - destruct (Proxy.registry_get name (w_upstreams w)) as [u|] eqn:Eu; [|by intros [= _ _ <-]].
    intros ([[r' k] u'] & Hf & [= _ _ <-])%bind_Ok. apply forward_settings in Hf. split; [done|].
    intros name'. unfold Proxy.registry_get in *. cbn [set_pool w_upstreams Proxy.reg_map].
    destruct (decide (name = name')) as [<-|]; [|by rewrite lookup_insert_ne].
    rewrite lookup_insert_eq, Eu. cbn. by rewrite Hf.
  - destruct t as [url|]; [|by intros [= _ _ <-]]. by intros ([[r' k] u'] & _ & [= _ _ <-])%bind_Ok.
Qed.

Abbreviation run_handler := (Serve.run_handler hash_ip instant_max parse_uri send fs Incoming collect_limited).
Abbreviation respond_to := (Serve.respond_to iter hash_ip instant_max parse_uri send fs others Incoming collect_limited).

Lemma run_handler_calm now gw hd m ep eq req body peer h w r n w' :
  run_handler now gw hd m ep eq req body peer h w = Ok (r, n, w') -> calm w w'.
Proof.
  unfold run_handler. destruct hd as [| | |up t|]; try by intros [= _ _ <-].
  destruct (collect_limited _ _); [apply proxy_calm|by intros [= _ _ <-]].
Qed.

Lemma respond_to_calm now gw parts body peer w r n w' : respond_to now gw parts body peer w = Ok (r, n, w') -> calm w w'.
Proof.
  intros Hr. apply respond_stages in Hr. destruct (route_of gw parts) as [rt|]; [|by destruct Hr as (_ & _ & ->)].
  destruct Hr as (short & view & ls & _ & Hr). destruct short as [s|].
  { destruct Hr as (_ & _ & ->). by apply calm_same. }
  destruct Hr as (hit & w1 & Hl & Hr). apply cache_lookup_calm in Hl.
  assert (H1 : calm w w1) by (etrans; [|exact Hl]; by apply calm_same).
  destruct hit as [h|]; [by destruct Hr as (_ & _ & ->)|].
  destruct Hr as (resp & w2 & Hh & Hs). apply run_handler_calm in Hh. apply cache_store_calm in Hs.
  etrans; [exact H1|]. etrans; [exact Hh|]. etrans; [apply others_calm|exact Hs].
Qed.
End Frames.

(** ** What the configuration promises for an answer *)

(** A request forwarded by the handler [hd]: to a declared pool and within its
    attempts, or to the address in the text. *)
Definition forwards (c : Config) (hd : HandlerDef) (sent : nat) : Prop :=
  exists up target policy, hd = HProxy up target /\ Z.of_nat sent <= Z.max (Proxy.attempts policy) 1
  /\ match up with
     | Some name => exists u, u ∈ upstreams c /\ ud_name u = name /\ policy = build_retry u
     | None => is_Some target /\ policy = Proxy.retry_default
     end.

(** An address that a WAF ruleset named by the route refuses. *)
Definition refused (c : Config) (rd : RouteDef) (ip : IpAddr) : Prop :=
  exists name wd, SpecWaf name ∈ mw_specs rd /\ find_waf c name = Some wd
  /\ is_Some (acl_check (mk_acl (valid_cidrs (ip_allow wd)) (valid_cidrs (ip_deny wd))) ip).

Definition is_static (hd : HandlerDef) : Prop := match hd with HProxy _ _ => False | _ => True end.

Section Answers.
Context `{HeaderOps} `{!HeaderLaws}.
Variable iter : gmap string Cache.Entry -> list (string * Cache.Entry).
Variable hash_ip : option IpAddr -> Z.
Variable instant_max : Z.
Variable parse_uri : string -> option string.
Variable Incoming : Type.
Variable collect_limited : Z -> Incoming -> option string.
Variable show3 : f64 -> string.
Hypothesis iter_perm : forall m, iter m ≡ₚ map_to_list m.

Abbreviation Exchange := (Exchange Incoming).
Abbreviation x_now := (x_now Incoming).
Abbreviation x_parts := (x_parts Incoming).
Abbreviation x_body := (x_body Incoming).
Abbreviation x_peer := (x_peer Incoming).
Abbreviation x_send := (x_send Incoming).
Abbreviation x_fs := (x_fs Incoming).
Abbreviation x_others := (x_others Incoming).
Abbreviation serve_one := (serve_one iter hash_ip instant_max parse_uri Incoming collect_limited show3).
Abbreviation serve_connection := (serve_connection iter hash_ip instant_max parse_uri Incoming collect_limited show3).
Abbreviation respond_to x := (Serve.respond_to iter hash_ip instant_max parse_uri (x_send x) (x_fs x) (x_others x)
  Incoming collect_limited (x_now x)).

(** The rest of the process during an exchange: it returns the in-flight
    counts it took, changes no pool's settings, keeps the world fit for the
    gateway, and only appends to the log; and the clock stays in range. *)
Record undisturbed (c : Config) (x : Exchange) : Prop := {
  send_loads k r u : loads (x_send x k r u).2 = loads u;
  send_settings k r u : settings (x_send x k r u).2 = settings u;
  others_ok gw w : serve_ok (store_config c) gw w -> serve_ok (store_config c) gw (x_others x w);
  others_calm w : calm w (x_others x w);
  clock_ok : readings_ok (store_config c) (x_now x);
  instants_ok policy j : policy = Proxy.breaker_default \/ (exists u, u ∈ upstreams c /\ policy = build_breaker u) ->
    at_fail (x_now x) j + Proxy.open_for policy <= instant_max;
}.

(** The answer to [x] is the one the configuration promises, and the line of
    the request is in the log [lg]. *)
Definition answered (c : Config) (lg : list string) (x : Exchange) (answer : HyperResponse * nat) : Prop :=
  let '(resp, sent) := answer in
  let parts := x_parts x in
  (exists rid, get_str (hyper_headers resp) "x-request-id" = Some rid /\ log_line show3 (x_now x) parts rid resp ∈ lg)
  /\ match declared_route c (request_host parts) (p_path parts) (p_method parts) with
     | None => hyper_status resp = 404 /\ sent = O
     | Some rd => exists hd, rd_handler rd = Some hd
       /\ (sent <> O -> forwards c hd sent)
       /\ (refused c rd (x_peer x) -> sent = O)
       /\ (last_cache (mw_specs rd) = None -> is_static hd ->
            (hyper_status resp ∈ [204; 403; 429] /\ mw_specs rd <> [])
            \/ exists path, (mw_specs rd = [] -> path = p_path parts)
               /\ let r := Handlers.execute (x_fs x) (map_handler hd) path in
                  hyper_status resp = resp_status r /\ hyper_body resp = body_bytes (resp_body r))
     end.

(** ** One request *)

(** The pools of a world are those of the configuration. *)
Definition pools_of (c : Config) (w : World) : Prop :=
  forall name, settings <$> Proxy.registry_get name (w_upstreams w) = settings <$> Proxy.registry_get name (build_upstreams c).

Lemma pool_declared c w name u : NoDup (ud_name <$> upstreams c) -> pools_of c w ->
  Proxy.registry_get name (w_upstreams w) = Some u ->
  exists d, d ∈ upstreams c /\ ud_name d = name /\ Proxy.retry u = build_retry d /\ Proxy.breaker u = build_breaker d.
Proof.
  intros Hnd Hp Hu. specialize (Hp name). rewrite Hu in Hp. symmetry in Hp.
  apply fmap_Some in Hp as (v & Hv & E). apply start_pool in Hv as (d & Hd & Hn & ->); [|done].
  exists d. injection E as _ _ _ Hr Hb. done.
Qed.

Lemma no_overflow c x w : NoDup (ud_name <$> upstreams c) -> undisturbed c x -> pools_of c w ->
  ~ instant_overflow instant_max (x_now x) w.
Proof.
  intros Hnd Hx Hp (u & j & [[name Hu]|[url ->]] & Hj).
  - destruct (pool_declared c w name u Hnd Hp Hu) as (d & Hd & _ & _ & Hb). rewrite Hb in Hj.
    assert (Hi := instants_ok _ _ Hx (build_breaker d) j (or_intror (ex_intro _ d (conj Hd eq_refl)))). lia.
  - assert (Hi := instants_ok _ _ Hx Proxy.breaker_default j (or_introl eq_refl)).
    cbn [direct_pool Proxy.upstream_new Proxy.breaker] in Hj. lia.
Qed.

(** Only what the ingress phase let through is forwarded. *)
Lemma forwarded_declared c alt_svc hl x rd rt w r n w' :
  NoDup (ud_name <$> upstreams c) -> pools_of c w -> built_route c hl rd rt ->
  route_of (start_gateway alt_svc c) (x_parts x) = Some rt ->
  respond_to x (start_gateway alt_svc c) (x_parts x) (x_body x) (x_peer x) w = Ok (r, n, w') -> n <> O ->
  (exists view ls, ingress_of (x_now x) rt (x_parts x) (x_peer x) w = Ok (None, view, ls))
  /\ exists hd, rd_handler rd = Some hd /\ forwards c hd n.
Proof.
  intros Hnd Hp B Hrt Hr Hn. apply respond_stages in Hr. rewrite Hrt in Hr.
  destruct Hr as (short & view & ls & Hi & Hr). destruct short; [by destruct Hr as (_ & -> & _)|].
  split; [by exists view, ls|]. destruct Hr as (hit & w1 & Hl & Hr). destruct hit; [by destruct Hr as (_ & -> & _)|].
  assert (Hp1 : pools_of c w1).
  { intros name. apply cache_lookup_frame in Hl. rewrite Hl. apply (Hp name). }
  destruct Hr as (resp & w2 & Hh & _). pose proof (built_handler _ _ _ _ B) as Hhd.
  destruct (rd_handler rd) as [hd|]; [|done]. injection Hhd as Hhd. exists hd. split; [done|].
  unfold run_handler in Hh. rewrite Hhd in Hh. destruct hd as [| | |up t|]; cbn [map_handler] in Hh; try (by injection Hh as _ <- _).
  destruct (collect_limited _ _) as [bytes|]; [|by injection Hh as _ <- _].
  unfold proxy, Proxy.forward in Hh. destruct up as [name|].
  - destruct (Proxy.registry_get name (w_upstreams w1)) as [u|] eqn:Eu; [|by injection Hh as _ <- _].
    destruct (pool_declared c w1 name u Hnd Hp1 Eu) as (d & Hd & Hname & Hretry & _).
    apply bind_Ok in Hh as ([[r' k] u'] & Hf & [= _ <- _]). apply forward_loop_count in Hf.
    exists (Some name), t, (build_retry d). split; [done|]. rewrite Hretry in Hf. split; [lia|]. by exists d.
  - destruct t as [url|]; [|by injection Hh as _ <- _].
    apply bind_Ok in Hh as ([[r' k] u'] & Hf & [= _ <- _]). apply forward_loop_count in Hf.
    exists None, (Some url), Proxy.retry_default. split; [done|]. cbn [direct_pool Proxy.upstream_new Proxy.retry] in Hf.
    split; [lia|]. split; [by eexists|done].
Qed.

(** A refusing access list is a gate of the route. *)
Lemma refused_gate c hl rd rt ip : built_route c hl rd rt -> refused c rd ip ->
  exists acl, MIp acl ∈ Router.middleware rt /\ is_Some (acl_check acl ip).
Proof.
  intros B (name & wd & Hin & Hf & Hc). destruct (built_middleware _ _ _ _ B) as (parts & -> & Hp).
  apply list_elem_of_lookup in Hin as [j Hj]. destruct (Forall2_lookup_l _ _ _ _ _ Hp Hj) as (part & Hpart & Hb).
  exists (mk_acl (valid_cidrs (ip_allow wd)) (valid_cidrs (ip_deny wd))). split; [|done].
  apply list_elem_of_join. exists part. split; [|by eapply list_elem_of_lookup_2].
  inversion Hb as [| | |name' wd' Hf'|name' Hf'|]; subst; [|congruence].
  assert (wd' = wd) as -> by congruence. unfold acl_of. rewrite decide_False; [by left|].
  intros [E1 E2]. rewrite E1, E2 in Hc. by destruct Hc.
Qed.

Lemma refused_unadmitted now rt parts ip w view ls acl :
  MIp acl ∈ Router.middleware rt -> is_Some (acl_check acl ip) ->
  ingress_of now rt parts ip w = Ok (None, view, ls) -> False.
Proof.
  intros Hin [b Hb] Hi. apply list_elem_of_split in Hin as (pre & post & Hm). unfold ingress_of, ingress in Hi.
  pose proof (ingress_from_spec (at_ingress now) (Router.middleware rt) 0
    (mk_view (p_method parts) (p_path parts) (percent_decode (target_of parts)) (get_str (p_headers parts) "origin") (Some ip))
    (w_limiters w)) as Hs.
  rewrite Hi in Hs. destruct Hs as (_ & _ & Hs). destruct (Hs pre (MIp acl) post Hm) as (req0 & ls0 & _ & Hsame & Hpass).
  destruct Hsame as (_ & _ & _ & Hip & _). cbn [passes] in Hpass. specialize (Hpass ip Hip). congruence.
Qed.

(** What a static route without a cache answers. *)
Lemma static_answer c alt_svc hl x rd rt hd w r n w' :
  built_route c hl rd rt -> rd_handler rd = Some hd -> last_cache (mw_specs rd) = None -> is_static hd ->
  route_of (start_gateway alt_svc c) (x_parts x) = Some rt ->
  respond_to x (start_gateway alt_svc c) (x_parts x) (x_body x) (x_peer x) w = Ok (r, n, w') ->
  (resp_status r ∈ [204; 403; 429] /\ mw_specs rd <> [])
  \/ exists path, (mw_specs rd = [] -> path = p_path (x_parts x))
     /\ let r' := Handlers.execute (x_fs x) (map_handler hd) path in
        resp_status r = resp_status r' /\ resp_body r = resp_body r'.
Proof.
  intros B Hhd Hca Hst Hrt Hr. apply respond_stages in Hr. rewrite Hrt in Hr.
  assert (Hnil : mw_specs rd = [] -> Router.middleware rt = []).
  { intros E. destruct (built_middleware _ _ _ _ B) as (parts & -> & Hp). rewrite E in Hp. by apply Forall2_nil_inv_l in Hp as ->. }
  destruct Hr as (short & view & ls & Hi & Hr).
  pose proof (ingress_from_spec (at_ingress (x_now x)) (Router.middleware rt) 0
    (mk_view (p_method (x_parts x)) (p_path (x_parts x)) (percent_decode (target_of (x_parts x)))
       (get_str (p_headers (x_parts x)) "origin") (Some (x_peer x))) (w_limiters w)) as Hs.
  unfold ingress_of, ingress in Hi. rewrite Hi in Hs. destruct Hs as (_ & _ & Hs).
  destruct short as [s|].
  { destruct Hr as (-> & _ & _). left. split; [exact Hs|]. intros E. rewrite (Hnil E) in Hi. discriminate. }
  right. exists (Pipeline.path view). split.
  { intros E. rewrite (Hnil E) in Hi. by injection Hi as <- _. }
  destruct Hr as (hit & w1 & Hl & Hr). unfold cache_lookup in Hl.
  rewrite (built_selected _ _ _ _ B), Hca in Hl. cbn in Hl. injection Hl as <- _.
  destruct Hr as (resp & w2 & Hh & Hs2). unfold cache_store in Hs2. rewrite (built_selected _ _ _ _ B), Hca in Hs2. cbn in Hs2.
  injection Hs2 as <- _. destruct (egress_frame (Router.middleware rt) (get_str (p_headers (x_parts x)) "origin") resp) as [-> ->].
  pose proof (built_handler _ _ _ _ B) as Hb. rewrite Hhd in Hb. injection Hb as Hb. unfold run_handler in Hh. rewrite Hb in Hh.
  destruct hd; try done; cbn [map_handler] in *; by injection Hh as <- _ _.
Qed.

(** One request: answered as declared, in a world that stays fit. *)
Definition fits (c : Config) (gw : Gateway) (w : World) : Prop := serve_ok (store_config c) gw w /\ pools_of c w.

Lemma serve_one_answered c alt_svc x w :
  Forall2 (built_site c (heap_limiters (build_router c).1.2)) (sites c) (Router.sites (build_router c).1.1) ->
  NoDup (ud_name <$> upstreams c) -> undisturbed c x -> fits c (start_gateway alt_svc c) w ->
  exists answer w', serve_one (start_gateway alt_svc c) x w = Ok (answer, w')
    /\ answered c (w_log w') x answer /\ fits c (start_gateway alt_svc c) w' /\ w_log w `prefix_of` w_log w'.
Proof.
  intros Hsites Hnd Hx [Hw Hp].
  pose proof (handle_spec iter hash_ip instant_max parse_uri (x_send x) (x_fs x) (x_others x) Incoming collect_limited show3
    (store_config c) iter_perm (fun k r u => conj (send_loads _ _ Hx k r u) (f_equal snd (send_settings _ _ Hx k r u)))
    (others_ok _ _ Hx) (x_now x) (start_gateway alt_svc c) (x_parts x) (x_body x) (x_peer x) w Hw (clock_ok _ _ Hx)) as Hh.
  unfold Running.serve_one.
  destruct (handle _ _ _ _ _ _ _ _ _ _ _ _ _ _ _ _) as [[[resp n] w']|e| |]; [|done|by destruct (no_overflow c x w)|done].
  destruct Hh as (r & w1 & Hr & Hst & Hbody & Hu & Hw' & Hid & _ & Hlog).
  pose proof (respond_to_calm iter hash_ip instant_max parse_uri (x_send x) (x_fs x) (x_others x) Incoming collect_limited
    (send_settings _ _ Hx) (others_calm _ _ Hx) _ _ _ _ _ _ _ _ _ Hr) as [Hcl Hcp].
  assert (Hps : pools_of c (stamped (x_now x) w)) by exact Hp.
  exists (resp, n), w'. split; [done|]. split; [|split; [split; [done|]|]].
  2:{ intros name. rewrite Hu, (Hcp name). apply Hp. }
  2:{ rewrite Hlog. by apply prefix_app_r. }
  split; [eexists; split; [exact Hid|]; rewrite Hlog; apply elem_of_app; right; by left|].
  pose proof (route_declared c alt_svc Hsites (request_host (x_parts x)) (p_path (x_parts x)) (p_method (x_parts x))) as Hd.
  change (Router.route (router (start_gateway alt_svc c)) _ _ _) with (route_of (start_gateway alt_svc c) (x_parts x)) in Hd.
  destruct (declared_route c _ _ _) as [rd|] eqn:Erd, (route_of _ _) as [rt|] eqn:Ert; inversion Hd as [? ? B|]; subst.
  2:{ apply respond_stages in Hr. rewrite Ert in Hr. destruct Hr as (-> & -> & _). by rewrite Hst. }
  assert (is_Some (rd_handler rd)) as [hd Hhd].
  { rewrite <-(fmap_is_Some map_handler), <-(built_handler _ _ _ _ B). by eexists. }
  exists hd. split; [done|]. split_and!.
  - intros Hn. destruct (forwarded_declared _ _ _ _ _ _ _ _ _ _ Hnd Hps B Ert Hr Hn) as (_ & hd' & ? & ?). congruence.
  - intros Href. destruct (decide (n = O)) as [|Hn]; [done|].
    destruct (forwarded_declared _ _ _ _ _ _ _ _ _ _ Hnd Hps B Ert Hr Hn) as ((view & ls & Hi) & _).
    destruct (refused_gate _ _ _ _ _ B Href) as (acl & Hin & Hc). by destruct (refused_unadmitted _ _ _ _ _ _ _ _ Hin Hc Hi).
  - intros Hca Hstatic. destruct (static_answer _ _ _ _ _ _ _ _ _ _ _ B Hhd Hca Hstatic Ert Hr) as [[Hs Hm]|(path & Hpath & Hs & Hb)].
    + left. by rewrite Hst.
    + right. exists path. split; [done|]. by rewrite Hst, Hbody, Hs, Hb.
Qed.

Lemma serve_connection_answered c alt_svc xs : forall w,
  Forall2 (built_site c (heap_limiters (build_router c).1.2)) (sites c) (Router.sites (build_router c).1.1) ->
  NoDup (ud_name <$> upstreams c) -> Forall (undisturbed c) xs -> fits c (start_gateway alt_svc c) w ->
  exists answers w', serve_connection (start_gateway alt_svc c) xs w = Ok (answers, w')
    /\ Forall2 (answered c (w_log w')) xs answers /\ w_log w `prefix_of` w_log w'.
Proof.
  induction xs as [|x xs IH]; intros w Hsites Hnd Hxs Hw; cbn [Running.serve_connection].
  { exists [], w. split; [done|]. by split. }
  apply Forall_cons in Hxs as [Hx Hxs].
  destruct (serve_one_answered c alt_svc x w Hsites Hnd Hx Hw) as ([resp n] & w1 & E1 & Ha & Hw1 & Hl1). rewrite E1.
  destruct (IH w1 Hsites Hnd Hxs Hw1) as (answers & w2 & E2 & Has & Hl2). cbn [mbind exec_bind]. rewrite E2. cbn.
  eexists _, w2. split; [done|]. split; [|by etrans]. constructor; [|done].
  destruct Ha as [(rid & Hid & Hin) Ha]. split; [|exact Ha]. exists rid. split; [done|].
  destruct Hl2 as [k ->]. apply elem_of_app. by left.
Qed.

(** C1. What the configuration says is what the gateway does.  Start a gateway
    from a text that compiles and serve it any requests: each is answered and
    its line is in the log; a request that no declared route matches gets a
    404; and otherwise the declared route decides, by its handler in the text:
    a request is forwarded only by a proxy handler, to a pool that the text
    declares and no more often than its [retry] block allows, or to the
    handler's own address; it is not forwarded for a peer that a WAF ruleset
    of the route refuses; and a static handler without a cache gives its own
    response, unless a middleware that the text gives the route refuses. *)
Theorem text_to_answers env debug_str debug_value debug_config text generation compiled alt_svc xs
    (Hcompile : Compile.compile env debug_str debug_value debug_config text generation = Ok compiled)
    (Hxs : Forall (undisturbed (Compile.config compiled)) xs) :
  let c := Compile.config compiled in
  exists answers w', serve_connection (start_gateway alt_svc c) xs (start_world c) = Ok (answers, w')
    /\ Forall2 (answered c (w_log w')) xs answers.
Proof.
  destruct (build_router_spec _ _ _ _ _ _ _ Hcompile) as (Hsites & Hstores & Hcaches & Hups). cbv zeta.
  destruct (serve_connection_answered (Compile.config compiled) alt_svc xs (start_world (Compile.config compiled)))
    as (answers & w' & Hrun & Ha & _); [done..| |by exists answers, w'].
  split; [by apply start_world_ok|]. by intros name.
Qed.
End Answers.

(** ** On a concrete text *)
Section Witness.
#[local] Existing Instances ListHeaders.list_headers ListHeaders.list_laws.

Definition demo_text : string :=
  "upstream api { target http://127.0.0.1:8080 }
waf strict { ip { deny [10.0.0.0/8] } }
site app.com {
  route /api/* ~> waf(@strict) ~> proxy(@api)
  route /* ~> respond(status=200)
}".
Abbreviation demo_compile := (Compile.compile (fun _ => None) (fun s => s) (fun _ => "") (fun _ => "") demo_text 0).
Definition demo_compiled : Compile.Compiled :=
  match demo_compile with
  | Ok c => c
  | _ => Compile.mk_compiled (mk_config None [] [] [] [] []) (mk_snapshot 0 0) []
  end.

Definition demo_exchange (path : string) (peer : IpAddr) : Exchange string :=
  mk_exchange string (mk_readings 5 (fun _ => 5) 5 (fun _ _ => 5) (fun _ => 5) 5 1000000 5)
    (mk_parts "GET" path None (Some "app.com") hm_empty) "" peer (fun k r u => (None, u))
    (Handlers.mk_fs (fun _ => None) (fun _ => None)) id.

Definition demo_limit (cap : Z) (b : string) : option string :=
  if Z.of_nat (String.length b) <=? cap then Some b else None.

Abbreviation demo_serve xs :=
  (serve_connection map_to_list (fun _ => 0) 100000000000 Some string demo_limit (fun _ => "1.000")
    (start_gateway None (Compile.config demo_compiled)) xs (start_world (Compile.config demo_compiled))).

(** The API from inside, and from a denied address; and a static page. *)
Definition demo_exchanges : list (Exchange string) :=
  [demo_exchange "/api/x" (V4 2130706433); demo_exchange "/api/x" (V4 167772161); demo_exchange "/" (V4 167772161)].

Example demo_answers :
  match demo_serve demo_exchanges with
  | Ok (answers, w) => ((fun a => (hyper_status a.1, a.2)) <$> answers, length (w_log w)) = ([(502, 1%nat); (403, O); (200, O)], 3%nat)
  | _ => False
  end.
Proof. vm_compute. reflexivity. Qed.

Lemma demo_undisturbed path peer : undisturbed 100000000000 string (Compile.config demo_compiled) (demo_exchange path peer).
Proof.
  split; [reflexivity|reflexivity|exact (fun _ _ Hw => Hw)|intros w; reflexivity| |].
  - split_and!; [done|done|]. intros a. unfold store_config.
    assert (E : caches (Compile.config demo_compiled) = []) by (vm_compute; reflexivity). rewrite E. vm_compute. done.
  - intros policy j [->|(u & Hu & ->)]; [vm_compute; done|].
    assert (E : build_breaker <$> upstreams (Compile.config demo_compiled) = [Proxy.breaker_default]) by (vm_compute; reflexivity).
    assert (build_breaker u ∈ [Proxy.breaker_default]) as ->%list_elem_of_singleton.
    { rewrite <-E. by apply list_elem_of_fmap_2. }
    vm_compute. done.
Qed.

Lemma text_to_answers_witness :
  demo_compile = Ok demo_compiled
  /\ exists answers w', demo_serve demo_exchanges = Ok (answers, w')
     /\ Forall2 (answered string (fun _ => "1.000") (Compile.config demo_compiled) (w_log w')) demo_exchanges answers.
Proof.
  assert (E : demo_compile = Ok demo_compiled) by (vm_compute; reflexivity). split; [exact E|].
  apply (text_to_answers map_to_list (fun _ => 0) 100000000000 Some string demo_limit (fun _ => "1.000") (fun m => reflexivity _)
    (fun _ => None) (fun s => s) (fun _ => "") (fun _ => "") demo_text 0 demo_compiled None demo_exchanges E).
  repeat (apply Forall_cons_2; [apply demo_undisturbed|]). apply Forall_nil_2.
Defined.
End Witness.
