(* ===== verification/Control.v ===== *)
(** * [pulsate-control]: the admin API

    [json.rs], [lib.rs], [serve.rs] and [grpc.rs].  The store, the audit log and
    the published events are part of the state of an [AdminApi]; the gateway is
    the one built at start-up.  The broadcast channel is the sequence of the
    events sent; a subscriber is a position in it.  Parameters: SHA-256, the
    HMAC of the audit log, the iteration orders of the hash maps, the compiler
    at the environment of the process, the printing of [f64], the version, the
    embedded page, and the parser of metadata values of [tonic]. *)

From Stdlib Require Import ZArith Ascii String Lia.
From stdpp Require Import base option list gmap strings sorting.
From S2P Require Import Prelude RustStr CoreTypes FlowSyntax Http Waf Router Proxy ConfigModel Config ConfigStore FlowLexer Observe Serve.
Local Open Scope string_scope.
Local Open Scope list_scope.
Local Open Scope Z_scope.

Module Json.
(** ** [json.rs] *)
Definition esc (s : string) : string := Log.escape_chars (chars s).
Definition quote_esc (s : string) : string := String dquote (esc s +:+ String dquote "").
Definition field (key value : string) : string := quote_esc key +:+ ":" +:+ quote_esc value.
Definition num_field (key : string) (value : Z) : string := quote_esc key +:+ ":" +:+ show_u value.
Definition object (fields : list string) : string := "{" +:+ join "," fields +:+ "}".
End Json.

Module Control.
Import Json.

(** ** [lib.rs] *)
Inductive AdminEvent :=
| ConfigReloaded (generation : Z)
| LifecycleChanged (state : string)
| AuditAppended (seq : Z) (event hash : string).

Record Scopes := mk_scopes { read : bool; write : bool; admin : bool }.
Definition scopes_default : Scopes := mk_scopes false false false.
Definition scopes_all : Scopes := mk_scopes true true true.

Inductive Scope := Read | Write | Admin.

Definition satisfies (s : Scopes) (required : Scope) : bool :=
  match required with Read => read s | Write => write s | Admin => admin s end.

Record AdminApi := mk_api {
  store : Store.ConfigStore;
  router : Router.Router;
  upstreams : Proxy.Registry;
  telemetry : Metrics.Telemetry;
  audit : list AuditEntry;
  tokens : gmap string Scopes;
  events : list AdminEvent;
}.

Definition admin_new (store : Store.ConfigStore) (router : Router.Router) (upstreams : Proxy.Registry)
    (telemetry : Metrics.Telemetry) (audit : list AuditEntry) (admin_token : string) : AdminApi :=
  mk_api store router upstreams telemetry audit {[admin_token := scopes_all]} [].

Definition add_token (token : string) (scopes : Scopes) (a : AdminApi) : AdminApi :=
  mk_api (store a) (router a) (upstreams a) (telemetry a) (audit a) (<[token := scopes]> (tokens a)) (events a).

Definition set_config_store (s : Store.ConfigStore) (a : AdminApi) : AdminApi :=
  mk_api s (router a) (upstreams a) (telemetry a) (audit a) (tokens a) (events a).

Definition publish (e : AdminEvent) (a : AdminApi) : AdminApi :=
  mk_api (store a) (router a) (upstreams a) (telemetry a) (audit a) (tokens a) (events a ++ [e]).

(** A subscriber sees the events from its position on. *)
Definition subscribe (a : AdminApi) : nat := length (events a).

Section Tokens.
Variable sha256 : list ascii -> list ascii.
Variable iter_tokens : gmap string Scopes -> list (string * Scopes).

(** The comparison of digests in constant time. *)
Definition digest_eq (a b : list ascii) : bool := bool_decide (a = b).

Definition scopes_for (token : string) (a : AdminApi) : option Scopes :=
  let presented := sha256 (bytes_of token) in
  foldl (fun found '(known, scopes) => if digest_eq presented (sha256 (bytes_of known)) then Some scopes else found)
    None (iter_tokens (tokens a)).

(** The token of an [Authorization] header, given as its text when it has
    one ([and_then(|v| v.to_str().ok())]). *)
Definition bearer (authorization : option string) : option string :=
  v ← authorization; trim <$> strip_prefix "Bearer " v.

(** ** [serve.rs] *)
Record RestResponse := mk_rest { rs_status : Z; rs_content_type : string; rs_body : string }.

Definition raw (status : Z) (content_type body : string) : RestResponse := mk_rest status content_type body.
Definition json (status : Z) (body : string) : RestResponse := raw status "application/json" body.

Definition problem (code : Code) (status : Z) (detail : string) : RestResponse :=
  raw status "application/problem+json"
    (object [field "type" (docs_url code); field "title" (code_title code); num_field "status" status;
             field "code" (code_display code); field "detail" detail]).

Definition authorize (authorization : option string) (scope : Scope) (a : AdminApi) : exec RestResponse Scopes :=
  match bearer authorization with
  | None => Err (problem ADM_UNAUTHORIZED 401 "missing bearer token")
  | Some token =>
    match scopes_for token a with
    | None => Err (problem ADM_UNAUTHORIZED 401 "unknown token")
    | Some scopes =>
      if negb (satisfies scopes scope) then Err (problem ADM_FORBIDDEN 403 "token lacks the required scope")
      else Ok scopes
    end
  end.

(** Turn the error response of [authorize] into the response. *)
Definition guard (authorization : option string) (scope : Scope) (f : Scopes -> exec () RestResponse) (a : AdminApi)
    : exec () RestResponse :=
  match authorize authorization scope a with
  | Ok scopes => f scopes
  | Err resp => Ok resp
  | Panic => Panic
  | OutOfFuel => OutOfFuel
  end.

Definition problems_json (diags : list Diagnostic) : string :=
  join "," ((fun d =>
    object [field "code" (code_display (diag_code d)); num_field "line" (line (diag_span d));
            num_field "col" (col (diag_span d)); field "message" (diag_message d)]) <$> diags).

(** [Registry::summary], sorted by name. *)
Definition summary_le (x y : string * nat) : Prop := Metrics.str_leb x.1 y.1 = true.
#[local] Instance summary_le_dec x y : Decision (summary_le x y).
Proof. unfold summary_le. apply _. Defined.

Variable iter_pools : gmap string Proxy.Upstream -> list (string * Proxy.Upstream).
Definition registry_summary (r : Proxy.Registry) : list (string * nat) :=
  merge_sort summary_le ((fun u => (Proxy.up_name u, Proxy.target_count u)) <$> (iter_pools (Proxy.reg_map r)).*2).

Variable pkg_version : string.
Variable hmac : list ascii -> list ascii.
Variable iter_series : gmap (list string) Z -> list (list string * Z).
Variable show_f64 : f64 -> string.
Variable compile : string -> Z -> exec (list Diagnostic) Compile.Compiled.
Variable INDEX_HTML : string.

Definition info (a : AdminApi) : RestResponse :=
  json 200 (object [field "version" pkg_version; num_field "generation" (Store.store_generation (store a));
                    num_field "sites" (Z.of_nat (Router.site_count (router a)));
                    num_field "upstreams" (Z.of_nat (Proxy.registry_len (upstreams a)))]).

Definition metrics (a : AdminApi) : exec () RestResponse :=
  text ← Metrics.telemetry_render iter_series show_f64 (telemetry a);
  Ok (raw 200 "text/plain; version=0.0.4; charset=utf-8" text).

Definition list_upstreams (a : AdminApi) : RestResponse :=
  let items := (fun '(name, targets) => object [field "name" name; num_field "targets" (Z.of_nat targets)])
                 <$> registry_summary (upstreams a) in
  json 200 ("{" +:+ Log.quoted "upstreams" +:+ ":[" +:+ join "," items +:+ "]}").

Definition bool_text (b : bool) : string := if b then "true" else "false".

Definition audit_log (a : AdminApi) : RestResponse :=
  let entries := (fun e => object [num_field "seq" (seq e); field "event" (event e); field "hash" (hash e)]) <$> audit a in
  json 200 ("{" +:+ Log.quoted "verified" +:+ ":" +:+ bool_text (verify hmac (audit a)) +:+ ","
            +:+ Log.quoted "entries" +:+ ":[" +:+ join "," entries +:+ "]}").

Definition validate_config (text : string) : exec () RestResponse :=
  match compile text 0 with
  | Ok compiled =>
    Ok (json 200 ("{" +:+ Log.quoted "valid" +:+ ":true," +:+ Log.quoted "problems" +:+ ":["
                  +:+ problems_json (Compile.warnings compiled) +:+ "]}"))
  | Err diags =>
    Ok (json 422 ("{" +:+ Log.quoted "valid" +:+ ":false," +:+ Log.quoted "problems" +:+ ":["
                  +:+ problems_json diags +:+ "]}"))
  | Panic => Panic
  | OutOfFuel => OutOfFuel
  end.

Definition reload_config (text : string) (a : AdminApi) : exec () (RestResponse * AdminApi) :=
  let '(result, s) := Store.reload compile text (store a) in
  let a := set_config_store s a in
  match result with
  | Ok generation =>
    Ok (json 200 (object [field "ok" "true";
                          num_field "generation" (snapshot_generation (Store.gen_snapshot generation))]), a)
  | Err diags =>
    Ok (json 422 ("{" +:+ Log.quoted "ok" +:+ ":false," +:+ Log.quoted "problems" +:+ ":["
                  +:+ problems_json diags +:+ "]}"), a)
  | Panic => Panic
  | OutOfFuel => OutOfFuel
  end.

(** The body as it arrives, or nothing when it breaks off. *)
Definition collect (body : option (list ascii)) : string := from_utf8_lossy (default [] body).

(** [pulsate_dashboard::asset]. *)
Definition asset (path : string) : string * string := ("text/html; charset=utf-8", INDEX_HTML).

Definition dispatch (method path : string) (authorization : option string) (body : option (list ascii)) (a : AdminApi)
    : exec () (RestResponse * AdminApi) :=
  let guarded scope f := r ← guard authorization scope f a; Ok (r, a) in
  if (method =? "GET")%string && ((path =? "/")%string || negb (starts_with "/v1" path)) then
    let '(ct, html) := asset path in Ok (raw 200 ct html, a)
  else if (method =? "GET")%string && (path =? "/v1/health")%string then
    Ok (json 200 (object [field "status" "ok"]), a)
  else if (method =? "GET")%string && (path =? "/v1/info")%string then guarded Read (fun _ => Ok (info a))
  else if (method =? "GET")%string && (path =? "/v1/metrics")%string then guarded Read (fun _ => metrics a)
  else if (method =? "GET")%string && (path =? "/v1/upstreams")%string then guarded Read (fun _ => Ok (list_upstreams a))
  else if (method =? "GET")%string && (path =? "/v1/audit")%string then guarded Admin (fun _ => Ok (audit_log a))
  else if (method =? "POST")%string && (path =? "/v1/config/validate")%string then
    guarded Write (fun _ => validate_config (collect body))
  else if (method =? "POST")%string && (path =? "/v1/config/reload")%string then
    match authorize authorization Write a with
    | Err resp => Ok (resp, a)
    | Ok _ => reload_config (collect body) a
    | Panic => Panic
    | OutOfFuel => OutOfFuel
    end
  else Ok (problem PRX_NO_ROUTE 404 "no such admin endpoint", a).

(** ** [grpc.rs] *)
Inductive GrpcCode := Unauthenticated | PermissionDenied.

Record Status := mk_status { grpc_code : GrpcCode; grpc_message : string; pls_error_code : option string }.

(** [MetadataValue::try_from]. *)
Variable metadata_value : string -> option string.

Definition status (grpc : GrpcCode) (pls : Code) (message : string) : Status :=
  mk_status grpc message (metadata_value (code_display pls)).

Definition unauthenticated : Status := status Unauthenticated ADM_UNAUTHORIZED "missing or unknown bearer token".
Definition forbidden : Status := status PermissionDenied ADM_FORBIDDEN "token lacks the required scope".

(** A call: its [authorization] metadata, the scopes among its extensions, and
    its message. *)
Record Call (T : Type) := mk_call { authorization : option string; extension : option Scopes; message : T }.
#[global] Arguments mk_call {T} _ _ _.
#[global] Arguments authorization {T} _.
#[global] Arguments extension {T} _.
#[global] Arguments message {T} _.

Definition require {T} (request : Call T) (scope : Scope) : exec Status () :=
  if satisfies (default scopes_default (extension request)) scope then Ok () else Err forbidden.

Definition intercept {T} (a : AdminApi) (request : Call T) : exec Status (Call T) :=
  match bearer (authorization request) with
  | None => Err unauthenticated
  | Some token =>
    match scopes_for token a with
    | None => Err unauthenticated
    | Some scopes => Ok (mk_call (authorization request) (Some scopes) (message request))
    end
  end.

Record Problem := mk_problem { pb_code : string; pb_line : Z; pb_col : Z; pb_message : string }.
Definition problems_of (diags : list Diagnostic) : list Problem :=
  (fun d => mk_problem (code_display (diag_code d)) (line (diag_span d)) (col (diag_span d))
              (diag_message d)) <$> diags.

(** The messages of the service and its replies. *)
Inductive Rpc := GetInfo | GetMetrics | ListUpstreams | ValidateConfig | ReloadConfig | GetAuditLog | WatchEvents.
Inductive Reply :=
| RInfo (version : string) (generation sites upstreams : Z)
| RMetrics (prometheus : string)
| RUpstreams (upstreams : list (string * Z))
| RValidate (valid : bool) (problems : list Problem)
| RReload (ok : bool) (generation : Z) (problems : list Problem)
| RAudit (verified : bool) (entries : list (Z * string * string))
| RStream (from : nat).

Definition lift {A} (m : exec () A) : exec Status A :=
  match m with Ok x => Ok x | Err _ => Panic | Panic => Panic | OutOfFuel => OutOfFuel end.

Definition get_info (a : AdminApi) (request : Call string) : exec Status (Reply * AdminApi) :=
  _ ← require request Read;
  Ok (RInfo pkg_version (Store.store_generation (store a)) (Z.of_nat (Router.site_count (router a)))
        (Z.of_nat (Proxy.registry_len (upstreams a))), a).

Definition get_metrics (a : AdminApi) (request : Call string) : exec Status (Reply * AdminApi) :=
  _ ← require request Read;
  text ← lift (Metrics.telemetry_render iter_series show_f64 (telemetry a));
  Ok (RMetrics text, a).

Definition grpc_list_upstreams (a : AdminApi) (request : Call string) : exec Status (Reply * AdminApi) :=
  _ ← require request Read;
  Ok (RUpstreams ((fun '(name, targets) => (name, Z.of_nat targets)) <$> registry_summary (upstreams a)), a).

Definition grpc_validate_config (a : AdminApi) (request : Call string) : exec Status (Reply * AdminApi) :=
  _ ← require request Write;
  match compile (message request) 0 with
  | Ok compiled => Ok (RValidate true (problems_of (Compile.warnings compiled)), a)
  | Err diags => Ok (RValidate false (problems_of diags), a)
  | Panic => Panic
  | OutOfFuel => OutOfFuel
  end.

Definition grpc_reload_config (a : AdminApi) (request : Call string) : exec Status (Reply * AdminApi) :=
  _ ← require request Write;
  let '(result, s) := Store.reload compile (message request) (store a) in
  let a := set_config_store s a in
  match result with
  | Ok generation =>
    let generation := snapshot_generation (Store.gen_snapshot generation) in
    Ok (RReload true generation [], publish (ConfigReloaded generation) a)
  | Err diags => Ok (RReload false 0 (problems_of diags), a)
  | Panic => Panic
  | OutOfFuel => OutOfFuel
  end.

Definition get_audit_log (a : AdminApi) (request : Call string) : exec Status (Reply * AdminApi) :=
  _ ← require request Admin;
  Ok (RAudit (verify hmac (audit a)) ((fun e => (seq e, event e, hash e)) <$> audit a), a).

Definition watch_events (a : AdminApi) (request : Call string) : exec Status (Reply * AdminApi) :=
  _ ← require request Admin;
  Ok (RStream (subscribe a), a).

Definition call (rpc : Rpc) : AdminApi -> Call string -> exec Status (Reply * AdminApi) :=
  match rpc with
  | GetInfo => get_info
  | GetMetrics => get_metrics
  | ListUpstreams => grpc_list_upstreams
  | ValidateConfig => grpc_validate_config
  | ReloadConfig => grpc_reload_config
  | GetAuditLog => get_audit_log
  | WatchEvents => watch_events
  end.

(** A call as the server runs it: [AdminServer::with_interceptor]. *)
Definition serve_call (rpc : Rpc) (authorization : option string) (text : string) (a : AdminApi)
    : exec Status (Reply * AdminApi) :=
  request ← intercept a (mk_call authorization None text);
  call rpc a request.

(** The wire events. *)
Inductive ProtoEvent :=
| KConfigReloaded (generation : Z)
| KLifecycleChanged (state : string)
| KAuditAppended (seq : Z) (event hash : string).

Definition event_to_proto (e : AdminEvent) : ProtoEvent :=
  match e with
  | ConfigReloaded generation => KConfigReloaded generation
  | LifecycleChanged state => KLifecycleChanged state
  | AuditAppended seq event hash => KAuditAppended seq event hash
  end.

(** ** The event pump *)
Definition lifecycle_debug (l : Lifecycle) : string :=
  match l with Running => "Running" | Draining => "Draining" | Stopped => "Stopped" end.

Definition pump_start (a : AdminApi) : option Z := seq <$> last (audit a).

(** One entry of a poll. *)
Definition pump_entry (acc : AdminApi * option Z) (e : AuditEntry) : AdminApi * option Z :=
  let '(a, last_seq) := acc in
  let is_new := match last_seq with Some sq => sq <? seq e | None => true end in
  if is_new then (publish (AuditAppended (seq e) (event e) (hash e)) a, Some (seq e)) else (a, last_seq).

Definition pump_tick (last_seq : option Z) (a : AdminApi) : AdminApi * option Z :=
  foldl pump_entry (a, last_seq) (audit a).

(** A change of the lifecycle, or the end of its channel: the state after it,
    and whether the pump goes on. *)
Definition pump_lifecycle (state : option Lifecycle) (a : AdminApi) : AdminApi * bool :=
  match state with
  | None => (a, false)
  | Some state => (publish (LifecycleChanged (lifecycle_debug state)) a,
                    match state with Running => true | _ => false end)
  end.

(** The pump over the changes it sees, until it stops; whether it still runs. *)
Fixpoint pump_run (changes : list (option Lifecycle)) (a : AdminApi) : AdminApi * bool :=
  match changes with
  | [] => (a, true)
  | c :: changes => let '(a, on) := pump_lifecycle c a in if on then pump_run changes a else (a, false)
  end.

(** ** The listeners *)

(** What wakes [serve_admin]: a change of the lifecycle (none when its channel
    is closed), or [accept]. *)
Inductive ListenerEvent := LifecycleSeen (changed : option Lifecycle) | Accepted (ok : bool).

(** One turn of its loop: whether it goes on, and whether it spawns a
    connection. *)
Definition admin_turn (e : ListenerEvent) : bool * bool :=
  match e with
  | LifecycleSeen None => (false, false)
  | LifecycleSeen (Some l) => (match l with Running => true | _ => false end, false)
  | Accepted ok => (true, ok)
  end.

(** The loop: the connections it has spawned, and whether it still runs. *)
Fixpoint serve_admin (es : list ListenerEvent) : nat * bool :=
  match es with
  | [] => (O, true)
  | e :: es =>
    let '(on, spawned) := admin_turn e in
    let '(n, running) := if on then serve_admin es else (O, false) in
    ((if spawned then S n else n), running)
  end.

(** The requests of one connection, in turn. *)
Record AdminRequest := mk_admin_request {
  ar_method : string; ar_path : string; ar_authorization : option string; ar_body : option (list ascii)
}.
Fixpoint admin_connection (reqs : list AdminRequest) (a : AdminApi) : exec () (list RestResponse * AdminApi) :=
  match reqs with
  | [] => Ok ([], a)
  | q :: reqs =>
    '(r, a) ← dispatch (ar_method q) (ar_path q) (ar_authorization q) (ar_body q) a;
    '(rs, a) ← admin_connection reqs a;
    Ok (r :: rs, a)
  end.

(** The future at which [serve_grpc] stops: it reads the current value, then
    awaits a change. *)
Fixpoint grpc_shutdown (current : Lifecycle) (changes : list (option Lifecycle)) : bool :=
  match current with
  | Running =>
    match changes with
    | [] => false
    | None :: _ => true
    | Some l :: changes => grpc_shutdown l changes
    end
  | _ => true
  end.
End Tokens.
End Control.
