(* ===== verification/ControlProps.v ===== *)
(** * Properties of the admin API

    No endpoint of either surface answers or acts without a token that holds
    its scope; the two surfaces agree; audit events are published once each;
    and error responses are well-formed problem documents. *)

From Stdlib Require Import ZArith Ascii String Lia.
From stdpp Require Import base option list gmap strings sorting.
From S2P Require Import Prelude RustStr CoreTypes FlowSyntax Http Waf Router Proxy ConfigModel Config ConfigStore FlowLexer Observe ObserveProps Control.
Import Json Control.
Local Open Scope string_scope.
Local Open Scope list_scope.
Local Open Scope Z_scope.

(** ** Tokens *)
Section Tokens.
Variable sha256 : list ascii -> list ascii.
Variable iter_tokens : gmap string Scopes -> list (string * Scopes).
Hypothesis iter_tokens_perm : forall m, iter_tokens m ≡ₚ map_to_list m.

(** No registered token has the digest of another text [t]. *)
Definition no_collision (t : string) (a : AdminApi) : Prop :=
  forall known, known ∈ dom (tokens a) -> sha256 (bytes_of t) = sha256 (bytes_of known) -> known = t.

Lemma scan_tokens t (l : list (string * Scopes)) :
  NoDup l.*1 -> (forall known, known ∈ l.*1 -> sha256 (bytes_of t) = sha256 (bytes_of known) -> known = t) ->
  forall s, foldl (fun found '(known, scopes) =>
      if digest_eq (sha256 (bytes_of t)) (sha256 (bytes_of known)) then Some scopes else found) None l = Some s
    <-> (t, s) ∈ l.
Proof.
  induction l as [|[k v] l IH] using rev_ind; intros Hnd Hcol s; [simpl; set_solver|].
  rewrite fmap_app in Hnd, Hcol. apply NoDup_app in Hnd as (Hnd & Hdis & _).
  rewrite foldl_app. cbn [foldl]. unfold digest_eq at 1. rewrite elem_of_app, list_elem_of_singleton.
  case_bool_decide as Hd.
  - apply Hcol in Hd as ->; [|set_solver]. split; [intros [= ->]; by right|].
    intros [Hin|[= ->]]; [|done]. exfalso. apply (Hdis t); [|set_solver].
    apply list_elem_of_fmap. by exists (t, s).
  - rewrite IH by (done || set_solver). split; [by left|]. intros [?|[= -> ->]]; done.
Qed.

Lemma scopes_for_lookup t a : no_collision t a -> scopes_for sha256 iter_tokens t a = tokens a !! t.
Proof.
  intros Hc. apply option_eq. intros s. unfold scopes_for. rewrite scan_tokens.
  - by rewrite iter_tokens_perm, elem_of_map_to_list.
  - rewrite iter_tokens_perm. apply NoDup_fst_map_to_list.
  - intros known Hk. apply Hc. rewrite iter_tokens_perm in Hk.
    apply list_elem_of_fmap in Hk as ([k v] & -> & Hk). apply elem_of_map_to_list in Hk. by eapply elem_of_dom_2.
Qed.

(** What a request may do: the scopes of its token. *)
Definition scopes_of (a : AdminApi) (auth : option string) : option Scopes := t ← bearer auth; tokens a !! t.
Definition grants (a : AdminApi) (auth : option string) (scope : Scope) : Prop :=
  exists s, scopes_of a auth = Some s /\ satisfies s scope = true.

(** The refusal of a request without a sufficient token. *)
Definition refusal (a : AdminApi) (auth : option string) : RestResponse :=
  match bearer auth with
  | None => problem ADM_UNAUTHORIZED 401 "missing bearer token"
  | Some t =>
    match tokens a !! t with
    | None => problem ADM_UNAUTHORIZED 401 "unknown token"
    | Some _ => problem ADM_FORBIDDEN 403 "token lacks the required scope"
    end
  end.

Definition distinct_token (a : AdminApi) (auth : option string) : Prop :=
  forall t, bearer auth = Some t -> no_collision t a.

Lemma authorize_spec a auth scope :
  distinct_token a auth ->
  match authorize sha256 iter_tokens auth scope a with
  | Ok s => scopes_of a auth = Some s /\ satisfies s scope = true
  | Err r => ~ grants a auth scope /\ r = refusal a auth
  | Panic | OutOfFuel => False
  end.
Proof.
  intros Hd. unfold authorize, grants, scopes_of, refusal. destruct (bearer auth) as [t|] eqn:Eb.
  2:{ split; [|done]. by intros (? & ? & _). }
  cbn [mbind option_bind]. rewrite (scopes_for_lookup t a (Hd t Eb)). destruct (tokens a !! t) as [s|] eqn:Et.
  2:{ split; [|done]. intros (? & ? & _). congruence. }
  destruct (satisfies s scope) eqn:Es; cbn [negb]; [done|]. split; [|done]. intros (s' & [= <-] & ?). congruence.
Qed.

(** ** Access control *)
Variable iter_pools : gmap string Proxy.Upstream -> list (string * Proxy.Upstream).
Variable pkg_version : string.
Variable hmac : list ascii -> list ascii.
Variable iter_series : gmap (list string) Z -> list (list string * Z).
Variable show_f64 : f64 -> string.
Variable compile : string -> Z -> exec (list Diagnostic) Compile.Compiled.
Variable INDEX_HTML : string.

Abbreviation dispatch := (Control.dispatch sha256 iter_tokens iter_pools pkg_version hmac iter_series show_f64 compile INDEX_HTML).

(** The scope of each endpoint and of each call. *)
Definition required (method path : string) : option Scope :=
  if decide ((method, path) ∈ [("GET", "/v1/info"); ("GET", "/v1/metrics"); ("GET", "/v1/upstreams")]) then Some Read
  else if decide ((method, path) = ("GET", "/v1/audit")) then Some Admin
  else if decide ((method, path) ∈ [("POST", "/v1/config/validate"); ("POST", "/v1/config/reload")]) then Some Write
  else None.

Definition rpc_scope (rpc : Rpc) : Scope :=
  match rpc with
  | GetInfo | GetMetrics | ListUpstreams => Read
  | ValidateConfig | ReloadConfig => Write
  | GetAuditLog | WatchEvents => Admin
  end.

Lemma guard_refused a auth scope f :
  distinct_token a auth -> ~ grants a auth scope ->
  guard sha256 iter_tokens auth scope f a = Ok (refusal a auth).
Proof.
  intros Hd Hg. unfold guard. pose proof (authorize_spec a auth scope Hd) as Ha.
  destruct (authorize _ _ _ _ _) as [s|r| |]; [|by destruct Ha as [_ ->]|done..].
  exfalso. apply Hg. by exists s.
Qed.

Lemma guard_granted a auth scope f :
  distinct_token a auth -> grants a auth scope ->
  exists s, guard sha256 iter_tokens auth scope f a = f s.
Proof.
  intros Hd Hg. unfold guard. pose proof (authorize_spec a auth scope Hd) as Ha.
  destruct (authorize _ _ _ _ _) as [s|r| |]; [by exists s|by destruct Ha|done..].
Qed.

(** The endpoints, by cases on the request. *)
Lemma required_cases method path :
  match required method path with
  | Some Read => method = "GET" /\ path ∈ ["/v1/info"; "/v1/metrics"; "/v1/upstreams"]
  | Some Admin => method = "GET" /\ path = "/v1/audit"
  | Some Write => method = "POST" /\ path ∈ ["/v1/config/validate"; "/v1/config/reload"]
  | None => True
  end.
Proof. unfold required. repeat case_decide; [set_solver..|done]. Qed.

(** The state changes only by an authorized reload, and only in the store. *)
Lemma dispatch_integrity method path auth body a r a' :
  distinct_token a auth -> dispatch method path auth body a = Ok (r, a') ->
  a' = a \/ ((method, path) = ("POST", "/v1/config/reload") /\ grants a auth Write
            /\ a' = set_config_store (Store.reload compile (collect body) (store a)).2 a).
Proof.
  intros Hd. unfold dispatch.
  repeat (match goal with |- context [if ?b then _ else _] => destruct b eqn:? end;
    [match goal with
     | |- context [asset] => intros [= _ <-]; by left
     | |- context [guard] => intros (? & _ & [= _ <-])%bind_Ok; by left
     | |- context [authorize] => idtac
     | |- _ => intros [= _ <-]; by left
     end|]); [|intros [= _ <-]; by left].
  pose proof (authorize_spec a auth Write Hd) as Ha. destruct (authorize _ _ _ _ _) as [s|x| |]; try done.
  2:{ intros [= _ <-]. by left. }
  intros Hr. right. split_and!.
  - match goal with H : _ && _ = true |- _ => apply andb_true_iff in H as [->%String.eqb_eq ->%String.eqb_eq] end. done.
  - by exists s.
  - unfold reload_config in Hr. destruct (Store.reload compile (collect body) (store a)) as [[g|ds| |] s'];
      [by injection Hr as _ <-|by injection Hr as _ <-|done..].
Qed.

(** C11. The REST surface is closed without a token.  An endpoint that requires
    a scope answers a request whose token does not hold it with 401 or 403, a
    response that depends on the token table alone, and does nothing; a token
    that holds the scope is not refused; and no request of any kind changes
    anything but the configuration store, which only an authorized reload
    does. *)
Theorem rest_access_control (method path : string) (auth : option string) (body : option (list ascii)) (a : AdminApi)
    (Hd : distinct_token a auth) :
  (forall scope, required method path = Some scope -> ~ grants a auth scope ->
     dispatch method path auth body a = Ok (refusal a auth, a)
     /\ rs_status (refusal a auth) = (if decide (scopes_of a auth = None) then 401 else 403))
  /\ (forall scope r a', required method path = Some scope -> grants a auth scope ->
     dispatch method path auth body a = Ok (r, a') -> rs_status r = 200 \/ rs_status r = 422)
  /\ (forall r a', dispatch method path auth body a = Ok (r, a') ->
     a' = a \/ ((method, path) = ("POST", "/v1/config/reload") /\ grants a auth Write
               /\ a' = set_config_store (Store.reload compile (collect body) (store a)).2 a)).
Proof.
  split_and!; [| |by intros; eapply dispatch_integrity].
  - intros scope Hreq Hg. split.
    + pose proof (required_cases method path) as Hc. rewrite Hreq in Hc.
      pose proof (guard_refused a auth scope) as Hgr.
      destruct scope; destruct Hc as [-> Hp]; [| |subst path];
        repeat (apply elem_of_cons in Hp as [->|Hp]); try (by apply elem_of_nil in Hp);
        unfold dispatch; simpl; rewrite ?Hgr by done; try done.
      pose proof (authorize_spec a auth Write Hd) as Ha. destruct (authorize _ _ _ _ _) as [s|x| |]; try done.
      * exfalso. apply Hg. by exists s.
      * by destruct Ha as [_ ->].
    + unfold refusal, scopes_of. destruct (bearer auth) as [t|]; [|by case_decide]. cbn [mbind option_bind].
      destruct (tokens a !! t); by case_decide.
  - intros scope r a' Hreq Hg. pose proof (required_cases method path) as Hc. rewrite Hreq in Hc.
    assert (Hgg : forall f, exists x, guard sha256 iter_tokens auth scope f a = f x)
      by (intros; by apply guard_granted).
    pose proof (authorize_spec a auth scope Hd) as Ha.
    destruct scope; destruct Hc as [-> Hp]; [| |subst path];
      repeat (apply elem_of_cons in Hp as [->|Hp]); try (by apply elem_of_nil in Hp); unfold dispatch; simpl;
      try (match goal with |- context [guard _ _ _ _ ?f _] => destruct (Hgg f) as [x ->] end).
    + intros [= <- _]. by left.
    + intros (r0 & Hr & [= <- _])%bind_Ok. apply bind_Ok in Hr as (t & _ & [= <-]). by left.
    + intros [= <- _]. by left.
    + unfold validate_config. destruct (compile _ _) as [c|ds| |]; intros [= <- _]; auto.
    + destruct (authorize _ _ _ _ _) as [s|x| |]; try done.
      2:{ intros _. by destruct Ha. }
      unfold reload_config. destruct (Store.reload _ _ _) as [[g|ds| |] s']; intros [= <- _]; auto.
    + intros [= <- _]. by left.
Qed.

(** What a connection can do: the store alone changes, and only if one of its
    requests is a reload with the scope for it. *)
Lemma connection_integrity reqs : forall a rs a',
  (forall q b, q ∈ reqs -> tokens b = tokens a -> distinct_token b (ar_authorization q)) ->
  Control.admin_connection sha256 iter_tokens iter_pools pkg_version hmac iter_series show_f64 compile INDEX_HTML reqs a
    = Ok (rs, a') ->
  length rs = length reqs /\ (exists s, a' = set_config_store s a)
  /\ (a' = a \/ exists q, q ∈ reqs /\ (ar_method q, ar_path q) = ("POST", "/v1/config/reload")
                     /\ grants a (ar_authorization q) Write).
Proof.
  induction reqs as [|q reqs IH]; intros a rs a' Hd; cbn [Control.admin_connection].
  { intros [= <- <-]. split_and!; [done|exists (store a); by destruct a|by left]. }
  intros ([r b] & Hq & H2)%bind_Ok. apply bind_Ok in H2 as ([rs' a2] & Hrun & [= <- <-]).
  apply dispatch_integrity in Hq; [|by apply (Hd q a); [left|]].
  assert (Hb : exists s, b = set_config_store s a).
  { destruct Hq as [->|(_ & _ & ->)]; [exists (store a); by destruct a|by eexists]. }
  destruct Hb as [s Hb].
  destruct (IH b rs' a2) as (Hl & [s' ->] & Hc); [|exact Hrun|].
  { intros q' b' Hq' Ht. apply Hd; [by right|]. rewrite Ht, Hb. done. }
  split_and!; [cbn; lia|exists s'; by rewrite Hb|].
  destruct Hq as [->|(Hm & Hg & _)]; [|right; exists q; split_and!; [by left|done|done]].
  destruct Hc as [->|(q' & Hin & Hm & Hg)]; [by left|]. right. exists q'. split_and!; [by right|done|done].
Qed.

(** ** The gRPC surface *)
Variable metadata_value : string -> option string.
Abbreviation serve_call := (Control.serve_call sha256 iter_tokens iter_pools pkg_version hmac iter_series show_f64 compile metadata_value).

Lemma intercept_spec a auth (text : string) :
  distinct_token a auth ->
  intercept sha256 iter_tokens metadata_value a (mk_call auth None text)
  = match scopes_of a auth with
    | Some s => Ok (mk_call auth (Some s) text)
    | None => Err (unauthenticated metadata_value)
    end.
Proof.
  intros Hd. unfold intercept, scopes_of. cbn [authorization message]. destruct (bearer auth) as [t|] eqn:Eb; [|done].
  cbn [mbind option_bind]. by rewrite (scopes_for_lookup t a (Hd t Eb)).
Qed.

Lemma require_scopes auth s (text : string) scope :
  require metadata_value (mk_call auth (Some s) text) scope
  = if satisfies s scope then Ok () else Err (forbidden metadata_value).
Proof. done. Qed.

(** A call runs its body once the interceptor and the scope check agree. *)
Lemma serve_call_spec rpc auth text a :
  distinct_token a auth ->
  match scopes_of a auth with
  | None => serve_call rpc auth text a = Err (unauthenticated metadata_value)
  | Some s =>
    if satisfies s (rpc_scope rpc) then
      serve_call rpc auth text a = call iter_pools pkg_version hmac iter_series show_f64 compile metadata_value rpc a
        (mk_call auth (Some s) text)
      /\ (forall e, serve_call rpc auth text a <> Err e)
    else serve_call rpc auth text a = Err (forbidden metadata_value)
  end.
Proof.
  intros Hd. unfold Control.serve_call. rewrite intercept_spec by done. destruct (scopes_of a auth) as [s|]; [|done].
  cbn [mbind exec_bind]. destruct (satisfies s (rpc_scope rpc)) eqn:Es.
  - split; [done|]. intros e.
    destruct rpc; cbn [call rpc_scope] in *; unfold get_info, get_metrics, grpc_list_upstreams, grpc_validate_config,
      grpc_reload_config, get_audit_log, watch_events; rewrite require_scopes, Es; cbn [mbind exec_bind message]; try done.
    + unfold lift. by destruct (Metrics.telemetry_render _ _ _).
    + by destruct (compile _ _).
    + destruct (Store.reload _ _ _) as [[g|ds| |] s']; done.
  - destruct rpc; cbn [call rpc_scope] in *; unfold get_info, get_metrics, grpc_list_upstreams, grpc_validate_config,
      grpc_reload_config, get_audit_log, watch_events; by rewrite require_scopes, Es.
Qed.

(** The endpoint that a call mirrors. *)
Definition endpoint (rpc : Rpc) : option (string * string) :=
  match rpc with
  | GetInfo => Some ("GET", "/v1/info")
  | GetMetrics => Some ("GET", "/v1/metrics")
  | ListUpstreams => Some ("GET", "/v1/upstreams")
  | ValidateConfig => Some ("POST", "/v1/config/validate")
  | ReloadConfig => Some ("POST", "/v1/config/reload")
  | GetAuditLog => Some ("GET", "/v1/audit")
  | WatchEvents => None
  end.

(** The refusal of a call: the same cases as REST, as a status. *)
Definition grpc_refusal (a : AdminApi) (auth : option string) : Status :=
  match scopes_of a auth with
  | None => unauthenticated metadata_value
  | Some _ => forbidden metadata_value
  end.

(** C12. The gRPC surface mirrors the REST surface.  Every call requires the
    scope of the endpoint it mirrors and is refused exactly when that endpoint
    refuses it, UNAUTHENTICATED for 401 and PERMISSION_DENIED for 403; an
    admitted call never fails; the only call that changes the state is an
    admitted reload, which leaves the configuration store that the endpoint
    leaves and, when it succeeds, publishes the new generation, which the REST
    endpoint does not. *)
Theorem grpc_mirrors_rest (rpc : Rpc) (auth : option string) (body : option (list ascii)) (a : AdminApi)
    (Hd : distinct_token a auth) :
  (forall m p, endpoint rpc = Some (m, p) -> required m p = Some (rpc_scope rpc))
  /\ (~ grants a auth (rpc_scope rpc) ->
      serve_call rpc auth (collect body) a = Err (grpc_refusal a auth)
      /\ (grpc_code (grpc_refusal a auth) = Unauthenticated <-> rs_status (refusal a auth) = 401)
      /\ (grpc_code (grpc_refusal a auth) = PermissionDenied <-> rs_status (refusal a auth) = 403))
  /\ (grants a auth (rpc_scope rpc) -> forall e, serve_call rpc auth (collect body) a <> Err e)
  /\ (forall reply a', serve_call rpc auth (collect body) a = Ok (reply, a') ->
      a' = a
      \/ (rpc = ReloadConfig /\ grants a auth Write
          /\ forall r b, dispatch "POST" "/v1/config/reload" auth body a = Ok (r, b) ->
               store a' = store b /\ events b = events a
               /\ events a' = events a ++ (if decide (rs_status r = 200)
                                           then [ConfigReloaded (Store.store_generation (store b))] else []))).
Proof.
  pose proof (serve_call_spec rpc auth (collect body) a Hd) as Hs. split_and!.
  - intros m p. destruct rpc; cbn [endpoint rpc_scope]; by intros [= <- <-] || done.
  - intros Hg. unfold grpc_refusal, refusal, grants, scopes_of in *.
    destruct (bearer auth) as [t|]; cbn [mbind option_bind] in *; [|by split_and!].
    destruct (tokens a !! t) as [s|]; [|by split_and!].
    destruct (satisfies s (rpc_scope rpc)) eqn:E; [exfalso; apply Hg; by exists s|by split_and!].
  - intros (s & Hsc & Hsat). rewrite Hsc, Hsat in Hs. apply Hs.
  - intros reply a' Hr. destruct (scopes_of a auth) as [s|] eqn:Esc; [|by rewrite Hs in Hr].
    destruct (satisfies s (rpc_scope rpc)) eqn:Es; [|by rewrite Hs in Hr]. destruct Hs as [Hs _]. rewrite Hs in Hr. clear Hs.
    destruct rpc; cbn [call rpc_scope] in *; unfold get_info, get_metrics, grpc_list_upstreams, grpc_validate_config,
      grpc_reload_config, get_audit_log, watch_events in Hr; rewrite require_scopes, Es in Hr;
      cbn [mbind exec_bind message] in Hr; try (injection Hr as _ <-; by left).
    + apply bind_Ok in Hr as (t & _ & [= _ <-]). by left.
    + destruct (compile _ _); injection Hr as _ <- || done; by left.
    + right. split; [done|]. split; [by exists s|]. intros r b. unfold Control.dispatch. simpl.
      pose proof (authorize_spec a auth Write Hd) as Ha. destruct (authorize _ _ _ _ _) as [s1|x| |]; try done.
      2:{ exfalso. apply Ha. by exists s. }
      unfold reload_config. unfold Store.reload in *.
      destruct (compile (collect body) (Store.next_generation (store a))) as [c|ds| |]; try done.
      * injection Hr as _ <-. intros [= <- <-]. split_and!; done.
      * injection Hr as _ <-. intros [= <- <-]. split_and!; [done..|]. cbn. by rewrite app_nil_r.
Qed.

(** ** The event pump *)

(** The watermark after [k] entries. *)
Definition seen (k : nat) : option Z := match k with O => None | S n => Some (Z.of_nat n) end.

(** A log numbered as [AuditLog::append] numbers it. *)
Definition numbered (l : list AuditEntry) : Prop := forall i e, l !! i = Some e -> seq e = Z.of_nat i.

Definition appended (e : AuditEntry) : AdminEvent := AuditAppended (seq e) (event e) (hash e).

Definition add_events (es : list AdminEvent) (a : AdminApi) : AdminApi :=
  mk_api (store a) (router a) (upstreams a) (telemetry a) (audit a) (tokens a) (events a ++ es).

Lemma pump_entries l k a :
  numbered l -> foldl pump_entry (a, seen k) l = (add_events (appended <$> drop k l) a, seen (k `max` length l)).
Proof.
  induction l as [|e l IH] using rev_ind; intros Hn.
  { rewrite drop_nil. cbn. rewrite Nat.max_0_r. f_equal. unfold add_events. rewrite app_nil_r. by destruct a. }
  assert (He : seq e = Z.of_nat (length l)) by (apply Hn, list_lookup_middle; done).
  rewrite foldl_app, IH by (intros i x Hx; apply Hn; by apply lookup_app_l_Some). cbn [foldl pump_entry].
  rewrite drop_app, fmap_app, length_app. cbn [length]. destruct (Nat.le_gt_cases k (length l)) as [Hk|Hk].
  - rewrite (Nat.max_r k (length l)), (Nat.max_r k) by lia.
    replace (k - length l)%nat with O by lia. cbn [drop].
    assert (match seen (length l) with Some sq => sq <? seq e | None => true end = true) as ->.
    { rewrite He. destruct (length l) as [|n]; [done|]. apply Z.ltb_lt. lia. }
    replace (Some (seq e)) with (seen (length l + 1)) by (rewrite He, Nat.add_1_r; done).
    unfold publish, add_events. cbn [store router upstreams telemetry audit tokens events]. by rewrite <-app_assoc.
  - rewrite (Nat.max_l k (length l)), (Nat.max_l k) by lia. destruct k as [|k]; [lia|].
    cbn [seen]. rewrite He, (proj2 (Z.ltb_ge _ _)) by lia.
    rewrite (drop_ge [e]) by (simpl; lia). by rewrite app_nil_r.
Qed.

Definition set_audit (l : list AuditEntry) (a : AdminApi) : AdminApi :=
  mk_api (store a) (router a) (upstreams a) (telemetry a) l (tokens a) (events a).

(** Polls of a log that grows between them. *)
Fixpoint poll (logs : list (list AuditEntry)) (acc : AdminApi * option Z) : AdminApi * option Z :=
  match logs with
  | [] => acc
  | l :: logs => poll logs (pump_tick acc.2 (set_audit l acc.1))
  end.

Fixpoint growing (l : list AuditEntry) (logs : list (list AuditEntry)) : Prop :=
  match logs with
  | [] => numbered l
  | l' :: logs => l `prefix_of` l' /\ growing l' logs
  end.

Lemma growing_numbered l logs : growing l logs -> numbered l.
Proof.
  revert l. induction logs as [|l' logs IH]; intros l; [done|]. intros [Hp Hg] i e He. apply (IH l' Hg).
  by eapply prefix_lookup_Some.
Qed.

Lemma poll_spec logs l a :
  growing l logs ->
  events (poll logs (a, seen (length l))).1 = events a ++ (appended <$> drop (length l) (default l (last logs))).
Proof.
  revert l a. induction logs as [|l' logs IH]; intros l a Hg.
  - cbn. by rewrite drop_all, app_nil_r.
  - destruct Hg as [Hp Hg]. cbn [poll]. unfold pump_tick. cbn [audit set_audit fst snd].
    pose proof (prefix_length _ _ Hp) as Hlen. rewrite pump_entries by (by eapply growing_numbered).
    rewrite Nat.max_r by lia. rewrite IH by done. cbn [events add_events set_audit]. rewrite <-app_assoc. f_equal.
    rewrite last_cons. assert (Hlast : l' `prefix_of` default l' (last logs)).
    { clear -Hg. revert l' Hg. induction logs as [|x logs IH]; intros l' Hg; [done|]. destruct Hg as [Hp Hg].
      rewrite last_cons. specialize (IH x Hg). destruct (last logs); simpl in *; [by etrans|done]. }
    destruct Hlast as [k Hk]. destruct (last logs) as [y|]; simpl in *; subst.
    + rewrite <-fmap_app. f_equal. rewrite drop_app_length. by rewrite drop_app_le by done.
    + by rewrite drop_all, app_nil_r.
Qed.

(** C37. The event feed misses nothing and repeats nothing.  However the polls
    fall between the appends to the audit log, the pump publishes every entry
    appended after it started exactly once and in order, and none of those
    before. *)
Theorem audit_events_exactly_once (logs : list (list AuditEntry)) (a : AdminApi) (Hg : growing (audit a) logs) :
  events (poll logs (a, pump_start a)).1 = events a ++ (appended <$> drop (length (audit a)) (default (audit a) (last logs))).
Proof.
  assert (pump_start a = seen (length (audit a))) as ->; [|by apply poll_spec].
  apply growing_numbered in Hg. unfold pump_start. destruct (audit a) as [|e l] using rev_ind; [done|].
  rewrite last_snoc, length_app, Nat.add_1_r. cbn. f_equal. by apply Hg, list_lookup_middle.
Qed.
End Tokens.

(** ** Problem documents *)
Lemma reads_field k v : utf8_valid k = true -> utf8_valid v = true -> reads_as (field k v) (k, JStr v).
Proof. intros Hk Hv. apply (reads_string_member (Log.escape k)); [intros tail; by apply read_escape|done]. Qed.

Lemma reads_num_field k n : utf8_valid k = true -> 0 <= n -> reads_as (num_field k n) (k, JNum (show_u n)).
Proof.
  intros Hk Hn. apply (reads_number_member (Log.escape k)); [intros tail; by apply read_escape|apply show_u_nonempty|].
  by apply show_u_number.
Qed.

(** Every refusal and every unknown endpoint is answered with a problem
    document: JSON from which a reader recovers the type, title, status, code
    and detail of the error, with the content type of RFC 9457. *)
Theorem problem_document (code : Code) (st : Z) (detail : string)
    (Hcode : code ∈ all_codes) (Hst : 0 <= st) (Hdetail : utf8_valid detail = true) :
  rs_content_type (problem code st detail) = "application/problem+json"
  /\ rs_status (problem code st detail) = st
  /\ read_object (rs_body (problem code st detail)) =
      Some [("type", JStr (docs_url code)); ("title", JStr (code_title code)); ("status", JNum (show_u st));
            ("code", JStr (code_display code)); ("detail", JStr detail)].
Proof.
  split_and!; [done..|]. cbn [problem raw rs_body]. unfold object. apply read_object_join; [|done].
  assert (Hall : Forall (fun c => utf8_valid (docs_url c) = true /\ utf8_valid (code_title c) = true
    /\ utf8_valid (code_display c) = true) all_codes) by decide_closed.
  rewrite Forall_forall in Hall. destruct (Hall code Hcode) as (H1 & H2 & H3).
  repeat constructor; apply reads_field || apply reads_num_field; done.
Qed.

(** ** On concrete inputs *)
Section Witnesses.
Definition demo_generation (n : Z) : Store.Generation :=
  Store.mk_generation (Model.mk_config None [] [] [] [] []) (mk_snapshot 0 n).
Definition demo_compile (text : string) (n : Z) : exec (list Diagnostic) Compile.Compiled :=
  Ok (Compile.mk_compiled (Model.mk_config None [] [] [] [] []) (mk_snapshot 0 n) []).

Definition demo_api : AdminApi :=
  add_token "reader" (mk_scopes true false false)
    (admin_new (Store.mk_store (demo_generation 0) None 1) (Router.mk_router []) Proxy.registry_new
       Metrics.telemetry_new [] "secret").

Lemma demo_distinct t : distinct_token id demo_api (Some ("Bearer " +:+ t)).
Proof. intros t' _ known _ He. unfold id in He. apply (f_equal str_of) in He. by rewrite !str_of_bytes in He. Qed.

Lemma demo_tokens_perm (m : gmap string Scopes) : map_to_list m ≡ₚ map_to_list m.
Proof. done. Qed.

Lemma rest_access_control_witness :
  Control.dispatch id map_to_list map_to_list "0.3.0" id map_to_list (fun _ => "0") demo_compile "<html>"
    "GET" "/v1/audit" (Some "Bearer reader") None demo_api
  = Ok (problem ADM_FORBIDDEN 403 "token lacks the required scope", demo_api).
Proof.
  destruct (rest_access_control id map_to_list demo_tokens_perm map_to_list "0.3.0" id map_to_list (fun _ => "0")
    demo_compile "<html>" "GET" "/v1/audit" (Some "Bearer reader") None demo_api (demo_distinct "reader")) as (H1 & _).
  destruct (H1 Admin) as [H2 _]; [reflexivity| |exact H2].
  intros (s & Hs & Hsat). vm_compute in Hs. injection Hs as <-. discriminate Hsat.
Defined.

Lemma grpc_mirrors_rest_witness :
  Control.serve_call id map_to_list map_to_list "0.3.0" id map_to_list (fun _ => "0") demo_compile Some
    ReloadConfig (Some "Bearer reader") (collect None) demo_api = Err (forbidden Some).
Proof.
  destruct (grpc_mirrors_rest id map_to_list demo_tokens_perm map_to_list "0.3.0" id map_to_list (fun _ => "0")
    demo_compile "<html>" Some ReloadConfig (Some "Bearer reader") None demo_api (demo_distinct "reader")) as (_ & H2 & _).
  destruct H2 as [H3 _]; [|exact H3].
  intros (s & Hs & Hsat). vm_compute in Hs. injection Hs as <-. discriminate Hsat.
Defined.

Definition demo_entry (n : Z) : AuditEntry := mk_entry n "e" "" "h".

Lemma audit_events_exactly_once_witness :
  events (poll [[demo_entry 0]; [demo_entry 0; demo_entry 1]] (demo_api, pump_start demo_api)).1
  = [AuditAppended 0 "e" "h"; AuditAppended 1 "e" "h"].
Proof.
  apply (audit_events_exactly_once [[demo_entry 0]; [demo_entry 0; demo_entry 1]] demo_api).
  split; [apply prefix_nil|]. split; [by exists [demo_entry 1]|].
  intros [|[|i]] e; intros [= <-]; done.
Defined.

Lemma problem_document_witness :
  read_object (rs_body (problem ADM_UNAUTHORIZED 401 "unknown token")) =
    Some [("type", JStr (docs_url ADM_UNAUTHORIZED)); ("title", JStr "Unauthorized"); ("status", JNum "401");
          ("code", JStr "PLS-ADM-0001"); ("detail", JStr "unknown token")].
Proof.
  apply (problem_document ADM_UNAUTHORIZED 401 "unknown token"); [decide_closed|done|reflexivity].
Defined.

(** A successful reload over REST publishes nothing, and the router that serves
    requests stays the one built at start-up. *)
Lemma rest_reload_silent (text : string) (a : AdminApi) r a' :
  reload_config demo_compile text a = Ok (r, a') ->
  rs_status r = 200 /\ events a' = events a /\ router a' = router a /\ upstreams a' = upstreams a.
Proof. intros [= <- <-]. done. Qed.
End Witnesses.
