(* ===== verification/Acme.v ===== *)
(** * [pulsate-acme] and [pulsate-tls]: the ACME client and the certificate stores

    [jose.rs], [client.rs], [transport.rs] and [lib.rs] of [pulsate-acme], and
    [certified_key_from_pem] and [CertResolver] of [pulsate-tls].  The client is
    a state: the account URL, the pool of nonces, and the requests it has
    sent.  The transport and the authority behind it are a function of those
    requests, so any authority with a memory is one.  Parameters: the key and
    the ES256 signature, SHA-256, base64url, the texts [serde_json] writes and reads
    with its errors, the certificate requests of [rcgen], the PEM readers of
    rustls. *)

From Stdlib Require Import ZArith Ascii String Lia.
From stdpp Require Import base option list gmap strings.
From S2P Require Import Prelude RustStr CoreTypes FlowLexer Http.
Local Open Scope string_scope.
Local Open Scope list_scope.
Local Open Scope Z_scope.

(** ** JSON values

    A [serde_json::Value], or what a derived [Serialize] gives: members are in
    the order of the text. *)
Module Serde.
Inductive Value :=
| Null
| Bool (b : bool)
| Number (text : string)
| Str (s : string)
| Arr (vs : list Value)
| Obj (ms : list (string * Value)).

Definition as_str (v : Value) : option string := match v with Str s => Some s | _ => None end.

(** [v.get(k).and_then(|t| t.as_str())] on a [serde_json::Value]: the last of
    repeated members. *)
Definition get_text (k : string) (v : Value) : option string :=
  match v with
  | Obj ms => m ← last (filter (fun m => m.1 = k) ms); as_str m.2
  | _ => None
  end.
End Serde.

Module Acme.
Import Serde.

(** ** [jose.rs] *)
Record Jwk := mk_jwk { crv : string; kty : string; jx : string; jy : string }.

Inductive KeyId := KidJwk | Kid (kid : string).

Definition crypto_err (msg : string) : PulsateError := mk_error SYS_GENERIC msg.
Definition protocol_err (msg : string) : PulsateError := mk_error ACME_CHALLENGE msg.
Definition net_err (msg : string) : PulsateError := mk_error CFG_ACME_UNREACHABLE msg.

(** The JSON of a serialized [Jwk]. *)
Definition jwk_value (j : Jwk) : Value :=
  Obj [("crv", Str (crv j)); ("kty", Str (kty j)); ("x", Str (jx j)); ("y", Str (jy j))].

(** The canonical JSON of a thumbprint. *)
Definition member (k v : string) : string :=
  String dquote (k +:+ String dquote (":" +:+ String dquote (v +:+ String dquote ""))).
Definition canonical (j : Jwk) : string :=
  "{" +:+ join "," [member "crv" (crv j); member "kty" (kty j); member "x" (jx j); member "y" (jy j)] +:+ "}".

Section Jose.
Context {AccountKey : Type}.
Variables (affine : AccountKey -> string * string) (sign : AccountKey -> string -> string).
Variables (sha256 b64 : string -> string).
Variable to_json : Value -> string + string.
Variables (pkcs8_decode : string -> string + AccountKey) (pkcs8_encode : AccountKey -> string + string).

Definition map_err {A} (f : string -> PulsateError) (m : string + A) : exec PulsateError A :=
  match m with inr a => Ok a | inl e => Err (f e) end.

Definition from_pkcs8_pem (pem : string) : exec PulsateError AccountKey :=
  map_err (fun e => crypto_err ("invalid account key PEM: " +:+ e)) (pkcs8_decode pem).
Definition to_pkcs8_pem (key : AccountKey) : exec PulsateError string :=
  map_err (fun e => crypto_err ("cannot encode account key: " +:+ e)) (pkcs8_encode key).

Definition jwk (key : AccountKey) : Jwk :=
  let '(x, y) := affine key in mk_jwk "P-256" "EC" (b64 x) (b64 y).

Definition thumbprint (key : AccountKey) : string := b64 (sha256 (canonical (jwk key))).
Definition key_authorization (key : AccountKey) (token : string) : string := token +:+ "." +:+ thumbprint key.

(** The protected header. *)
Definition protected_value (key : AccountKey) (url nonce : string) (key_id : KeyId) : Value :=
  Obj ([("alg", Str "ES256"); ("nonce", Str nonce); ("url", Str url)]
       ++ match key_id with KidJwk => [("jwk", jwk_value (jwk key))] | Kid kid => [("kid", Str kid)] end).

Definition jws_value (protected payload signature : string) : Value :=
  Obj [("protected", Str protected); ("payload", Str payload); ("signature", Str signature)].

Definition sign_request (key : AccountKey) (url nonce : string) (key_id : KeyId) (payload : option Value)
    : exec PulsateError string :=
  header ← map_err (fun e => crypto_err ("cannot serialize JWS header: " +:+ e))
             (to_json (protected_value key url nonce key_id));
  let protected_b64 := b64 header in
  payload_b64 ← match payload with
                | None => Ok ""
                | Some v => text ← map_err (fun e => crypto_err ("cannot serialize JWS payload: " +:+ e)) (to_json v);
                            Ok (b64 text)
                end;
  let signing_input := protected_b64 +:+ "." +:+ payload_b64 in
  let signature_b64 := b64 (sign key signing_input) in
  map_err (fun e => crypto_err ("cannot serialize JWS: " +:+ e))
    (to_json (jws_value protected_b64 payload_b64 signature_b64)).
End Jose.

(** ** [client.rs] *)
Inductive Method := Get | Head | Post.
#[global] Instance method_eq_dec : EqDecision Method.
Proof. solve_decision. Defined.

Record HttpResponse := mk_resp {
  status : Z;
  replay_nonce : option string;
  location : option string;
  retry_after : option Z;
  body : string;
}.

Definition is_success (r : HttpResponse) : bool := (200 <=? status r) && (status r <? 300).

Record Directory := mk_dir {
  new_nonce : string;
  new_account : string;
  new_order_url : string;
  revoke_cert : option string;
}.

Record Order := mk_order {
  o_status : string;
  authorizations : list string;
  o_finalize : string;
  certificate : option string;
  o_url : string;
}.

Definition with_url (o : Order) (url : string) : Order :=
  mk_order (o_status o) (authorizations o) (o_finalize o) (certificate o) url.

Record Challenge := mk_challenge { c_type : string; c_url : string; c_token : string }.

Record Authorization := mk_authorization { challenges : list Challenge }.

Record Http01Challenge := mk_http01 { h_token : string; h_key_authorization : string; h_url : string }.

(** One request and its outcome. *)
Record Event := mk_event {
  ev_method : Method;
  ev_url : string;
  ev_body : option string;
  ev_result : PulsateError + HttpResponse;
}.

Section Client.
Context {AccountKey : Type}.
Variables (affine : AccountKey -> string * string) (sign : AccountKey -> string -> string).
Variables (sha256 b64 : string -> string).
Variables (to_json : Value -> string + string) (from_json : string -> option Value).
Variables (read_directory : string -> string + Directory) (read_order : string -> string + Order).
Variable read_authorization : string -> string + Authorization.
Variable utf8_error : string -> string.
Variable execute : list Event -> Method -> string -> option string -> PulsateError + HttpResponse.

(** The client, and the requests sent so far. *)
Record AcmeClient := mk_client {
  account_key : AccountKey;
  directory : Directory;
  account_url : option string;
  nonces : list string;
  seen : list Event;
}.

(** A method of the client: a [Result], and the state it leaves. *)
Definition Call (A : Type) : Type := AcmeClient -> exec PulsateError A * AcmeClient.

#[local] Instance call_ret : MRet Call := fun A a c => (Ok a, c).
#[local] Instance call_bind : MBind Call := fun A B f m c =>
  match m c with
  | (Ok a, c) => f a c
  | (Err e, c) => (Err e, c)
  | (Panic, c) => (Panic, c)
  | (OutOfFuel, c) => (OutOfFuel, c)
  end.

Definition lift {A} (m : exec PulsateError A) : Call A := fun c => (m, c).
Definition fail {A} (e : PulsateError) : Call A := fun c => (Err e, c).
Definition self : Call AcmeClient := fun c => (Ok c, c).

(** [ok_or_else(|| protocol_err(msg))]. *)
Definition ok_or {A} (o : option A) (msg : string) : Call A :=
  match o with Some a => mret a | None => fail (protocol_err msg) end.

Definition send (m : Method) (url : string) (text : option string) : Call HttpResponse := fun c =>
  let r := execute (seen c) m url text in
  let c := mk_client (account_key c) (directory c) (account_url c) (nonces c) (seen c ++ [mk_event m url text r]) in
  match r with inl e => (Err e, c) | inr resp => (Ok resp, c) end.

(** [serde_json::from_slice(..).map_err(|e| protocol_err(format!("{what}: {e}")))]. *)
Definition parsed {A} (what : string) (m : string + A) : exec PulsateError A :=
  map_err (fun e => protocol_err (what +:+ ": " +:+ e)) m.

Definition discover (key : AccountKey) (directory_url : string) (history : list Event)
    : exec PulsateError AcmeClient * list Event :=
  let r := execute history Get directory_url None in
  let history := history ++ [mk_event Get directory_url None r] in
  (match r with
   | inl e => Err e
   | inr resp =>
     if negb (is_success resp) then Err (protocol_err ("directory fetch failed: HTTP " +:+ show_u (status resp)))
     else directory ← parsed "invalid ACME directory" (read_directory (body resp));
          Ok (mk_client key directory None [] history)
   end, history).

(** [Vec::pop]. *)
Definition pop_nonce : Call (option string) := fun c =>
  match last (nonces c) with
  | Some n => (Ok (Some n),
               mk_client (account_key c) (directory c) (account_url c) (take (pred (length (nonces c))) (nonces c)) (seen c))
  | None => (Ok None, c)
  end.

Definition nonce : Call string :=
  pooled ← pop_nonce;
  match pooled with
  | Some n => mret n
  | None =>
    c ← self;
    resp ← send Head (new_nonce (directory c)) None;
    ok_or (replay_nonce resp) "newNonce response had no Replay-Nonce header"
  end.

Definition store_nonce (resp : HttpResponse) : Call unit := fun c =>
  match replay_nonce resp with
  | Some n => (Ok tt, mk_client (account_key c) (directory c) (account_url c) (nonces c ++ [n]) (seen c))
  | None => (Ok tt, c)
  end.

Definition body_is_bad_nonce (text : string) : bool :=
  match from_json text ≫= get_text "type" with Some t => ends_with ":badNonce" t | None => false end.

Definition key_id_of (c : AcmeClient) : KeyId :=
  match account_url c with Some kid => Kid kid | None => KidJwk end.

(** The attempts of [signed]; past the last one the code is unreachable. *)
Fixpoint signed_loop (attempts : list nat) (url : string) (payload : option Value) : Call HttpResponse :=
  match attempts with
  | [] => lift Panic
  | attempt :: rest =>
    n ← nonce;
    c ← self;
    text ← lift (sign_request affine sign b64 to_json (account_key c) url n (key_id_of c) payload);
    resp ← send Post url (Some text);
    _ ← store_nonce resp;
    if (status resp =? 400) && body_is_bad_nonce (body resp) && (attempt =? 0)%nat then signed_loop rest url payload
    else mret resp
  end.

Definition signed (url : string) (payload : option Value) : Call HttpResponse := signed_loop (seq 0 2) url payload.

Definition account_err (resp : HttpResponse) : PulsateError :=
  let kind := default "" (from_json (body resp) ≫= get_text "type") in
  if ends_with ":rateLimited" kind || (status resp =? 429)
  then mk_error ACME_RATE_LIMITED "CA rate-limited the account request"
  else protocol_err ("account registration failed: HTTP " +:+ show_u (status resp)).

Definition set_account_url (url : string) : Call unit := fun c =>
  (Ok tt, mk_client (account_key c) (directory c) (Some url) (nonces c) (seen c)).

(** The members of a [json!] object are in the order of their names. *)
Definition register_account (contact : list string) : Call string :=
  let payload := Obj [("contact", Arr (Str <$> contact)); ("termsOfServiceAgreed", Bool true)] in
  c ← self;
  resp ← signed (new_account (directory c)) (Some payload);
  if negb (is_success resp) then fail (account_err resp)
  else
    url ← ok_or (location resp) "newAccount response had no Location header";
    _ ← set_account_url url;
    mret url.

(** The check the methods make of a response. *)
Definition expect_success (what : string) (resp : HttpResponse) : Call unit :=
  if negb (is_success resp) then fail (protocol_err (what +:+ ": HTTP " +:+ show_u (status resp))) else mret tt.

Definition new_order (dns_names : list string) : Call Order :=
  let identifiers := (fun n => Obj [("type", Str "dns"); ("value", Str n)]) <$> dns_names in
  let payload := Obj [("identifiers", Arr identifiers)] in
  c ← self;
  resp ← signed (new_order_url (directory c)) (Some payload);
  _ ← expect_success "newOrder failed" resp;
  order ← lift (parsed "invalid order" (read_order (body resp)));
  mret (with_url order (default "" (location resp))).

Definition http01_challenge (authz_url : string) : Call Http01Challenge :=
  resp ← signed authz_url None;
  _ ← expect_success "authorization fetch failed" resp;
  authz ← lift (parsed "invalid authorization" (read_authorization (body resp)));
  challenge ← ok_or (snd <$> list_find (fun c => c_type c = "http-01") (challenges authz))
                "authorization offered no http-01 challenge";
  c ← self;
  mret (mk_http01 (c_token challenge) (key_authorization affine sha256 b64 (account_key c) (c_token challenge))
          (c_url challenge)).

Definition submit_challenge (challenge_url : string) : Call unit :=
  resp ← signed challenge_url (Some (Obj []));
  expect_success "challenge submission failed" resp.

Fixpoint poll_order (order_url : string) (max_attempts : nat) : Call Order :=
  match max_attempts with
  | O => fail (protocol_err "order did not settle within the attempt budget")
  | S n =>
    resp ← signed order_url None;
    order ← lift (parsed "invalid order" (read_order (body resp)));
    let order := with_url order order_url in
    if (o_status order =? "ready")%string || (o_status order =? "valid")%string then mret order
    else if (o_status order =? "invalid")%string then fail (protocol_err "order became invalid")
    else poll_order order_url n
  end.

Section Csr.
Context {KeyPair Params : Type}.
Variables (cert_params : list string -> string + Params) (serialize_request : Params -> KeyPair -> string + string).
Variable key_pem : KeyPair -> string.

(** [generated] is what [KeyPair::generate] returns. *)
Definition finalize (generated : string + KeyPair) (order : Order) (dns_names : list string) : Call (Order * string) :=
  key_pair ← lift (map_err (fun e => protocol_err ("keypair generation failed: " +:+ e)) generated);
  params ← lift (map_err (fun e => protocol_err ("CSR params failed: " +:+ e)) (cert_params dns_names));
  csr ← lift (map_err (fun e => protocol_err ("CSR generation failed: " +:+ e)) (serialize_request params key_pair));
  resp ← signed (o_finalize order) (Some (Obj [("csr", Str (b64 csr))]));
  _ ← expect_success "finalize failed" resp;
  finalized ← lift (parsed "invalid finalized order" (read_order (body resp)));
  mret (with_url finalized (o_url order), key_pem key_pair).
End Csr.

Definition download_certificate (certificate_url : string) : Call string :=
  resp ← signed certificate_url None;
  _ ← expect_success "certificate download failed" resp;
  if utf8_valid (body resp) then mret (body resp)
  else fail (protocol_err ("certificate was not valid UTF-8 PEM: " +:+ utf8_error (body resp))).
End Client.

(** ** [transport.rs] *)
Definition extract_headers `{HeaderOps} (code : Z) (headers : HeaderMap) : HttpResponse :=
  let get := get_str headers in
  mk_resp code (get "replay-nonce") (get "location") (get "retry-after" ≫= parse_unsigned u64_max) "".

Definition hyper_method (m : Method) : string := match m with Get => "GET" | Head => "HEAD" | Post => "POST" end.

(** The request [execute] builds: method, headers, body. *)
Definition transport_request (m : Method) (text : option string) : string * list (string * string) * string :=
  (hyper_method m, match m with Post => [("content-type", "application/jose+json")] | _ => [] end, default "" text).

(** [HttpsTransport::execute], given what the [http] crate says of a URL and
    what the client answers: a transport error, or a status, headers and a body
    that may fail to arrive. *)
Definition transport_execute `{HeaderOps} (url_error : string -> option string)
    (client : string -> string * list (string * string) * string -> string + Z * HeaderMap * (string + string))
    (m : Method) (url : string) (text : option string) : PulsateError + HttpResponse :=
  match url_error url with
  | Some e => inl (net_err ("malformed ACME request: " +:+ e))
  | None =>
    match client url (transport_request m text) with
    | inl e => inl (net_err ("ACME request to " +:+ url +:+ " failed: " +:+ e))
    | inr (code, headers, read) =>
      let out := extract_headers code headers in
      match read with
      | inl e => inl (net_err ("reading ACME response body failed: " +:+ e))
      | inr bytes => inr (mk_resp (status out) (replay_nonce out) (location out) (retry_after out) bytes)
      end
    end
  end.

(** ** [lib.rs] *)
Definition HTTP01_PREFIX : string := "/.well-known/acme-challenge/".

Definition http01_set (token key_authorization : string) (m : gmap string string) : gmap string string :=
  <[token := key_authorization]> m.
Definition http01_get (token_or_path : string) (m : gmap string string) : option string :=
  m !! default token_or_path (strip_prefix HTTP01_PREFIX token_or_path).
Definition http01_remove (token : string) (m : gmap string string) : gmap string string := delete token m.

Record OnDemandPolicy := mk_policy { allowed : gset string; allow_any : bool }.
Definition policy_deny_all : OnDemandPolicy := mk_policy ∅ false.
Definition policy_allow_any : OnDemandPolicy := mk_policy ∅ true.
Definition policy_allow (host : string) (p : OnDemandPolicy) : OnDemandPolicy :=
  mk_policy ({[host]} ∪ allowed p) (allow_any p).
Definition policy_allows (host : string) (p : OnDemandPolicy) : bool :=
  allow_any p || bool_decide (host ∈ allowed p).
End Acme.

(** ** The certificate stores: [pulsate-tls], and [DynamicCertStore] *)
Module Certs.
Section Certs.
Context {Certificate PrivateKey SigningKey : Type}.
Variables (read_certs : string -> string + list Certificate) (read_key : string -> string + option PrivateKey).
Variable any_supported_type : PrivateKey -> string + SigningKey.

Definition tls_error (msg : string) : string := "tls error: " +:+ msg.

(** [Err] holds the displayed [TlsError]. *)
Definition map_tls {A} (what : string) (m : string + A) : exec string A :=
  match m with inl e => Err (tls_error (what +:+ ": " +:+ e)) | inr a => Ok a end.

Definition certified_key_from_pem (cert_pem key_pem : string) : exec string (list Certificate * SigningKey) :=
  certs ← map_tls "invalid certificate PEM" (read_certs cert_pem);
  match certs with
  | [] => Err (tls_error "no certificates found in PEM")
  | _ =>
    key ← map_tls "invalid key PEM" (read_key key_pem);
    match key with
    | None => Err (tls_error "no private key found in PEM")
    | Some key => signing_key ← map_tls "unsupported key type" (any_supported_type key); Ok (certs, signing_key)
    end
  end.

Abbreviation CertifiedKey := (list Certificate * SigningKey)%type.

(** [CertResolver]. *)
Record CertResolver := mk_resolver { by_host : gmap string CertifiedKey; fallback : option CertifiedKey }.
Definition resolver_new : CertResolver := mk_resolver ∅ None.
Definition resolver_insert (host : string) (key : CertifiedKey) (r : CertResolver) : CertResolver :=
  mk_resolver (<[host := key]> (by_host r)) (fallback r).
Definition set_default (key : CertifiedKey) (r : CertResolver) : CertResolver := mk_resolver (by_host r) (Some key).
Definition resolver_is_empty (r : CertResolver) : bool :=
  bool_decide (by_host r = ∅) && match fallback r with None => true | Some _ => false end.

(** [resolve], given the server name of the hello. *)
Definition resolve (server_name : option string) (r : CertResolver) : option CertifiedKey :=
  match server_name ≫= fun name => by_host r !! name with Some key => Some key | None => fallback r end.

(** [DynamicCertStore]. *)
Definition install_pem (host cert_pem key_pem : string) (m : gmap string CertifiedKey)
    : exec string unit * gmap string CertifiedKey :=
  match certified_key_from_pem cert_pem key_pem with
  | Ok ck => (Ok tt, <[host := ck]> m)
  | Err e => (Err e, m)
  | Panic => (Panic, m)
  | OutOfFuel => (OutOfFuel, m)
  end.
Definition has (host : string) (m : gmap string CertifiedKey) : bool := bool_decide (is_Some (m !! host)).
Definition dynamic_resolve (server_name : option string) (m : gmap string CertifiedKey) : option CertifiedKey :=
  name ← server_name; m !! name.
End Certs.
End Certs.
