(* ===== verification/AcmeProps.v ===== *)
(** * Theorems about [pulsate-acme]

    The requests of a client as the authority reads them, the accounting of
    nonces, the retry and the polling of an order, and the answers to HTTP-01
    challenges. *)

From Stdlib Require Import ZArith Ascii String Lia.
From stdpp Require Import base option list gmap strings.
From S2P Require Import Prelude RustStr CoreTypes FlowLexer Http Acme.
Local Open Scope string_scope.
Local Open Scope list_scope.
Local Open Scope Z_scope.
Import Serde Acme.

(** ** What is relied on

    JSON values whose objects repeat no name, of some depth. *)
Fixpoint plain (depth : nat) (v : Value) : bool :=
  match v with
  | Null | Bool _ | Str _ => true
  | Number _ => false
  | Arr vs => match depth with O => false | S d => forallb (plain d) vs end
  | Obj ms => match depth with O => false | S d => bool_decide (NoDup ms.*1) && forallb (plain d) ms.*2 end
  end.

Lemma plain_arr {A} d (f : A -> Value) l : (forall a, plain d (f a) = true) -> plain (S d) (Arr (f <$> l)) = true.
Proof. intros H. cbn. induction l as [|a l IH]; [done|]. cbn. by rewrite H. Qed.

Lemma plain_obj d ms : plain (S d) (Obj ms) = bool_decide (NoDup ms.*1) && forallb (plain d) ms.*2.
Proof. done. Qed.
#[global] Arguments plain : simpl never.

Definition get (k : string) (v : Value) : option Value :=
  match v with Obj ms => snd <$> last (filter (fun m => m.1 = k) ms) | _ => None end.

(** ** The request an authority reads in a body *)
Record Request := mk_request { r_nonce : string; r_url : string; r_key : Value + string; r_payload : option Value;
                               r_signed : string; r_signature : string }.

Section Acme.
Context {AccountKey : Type}.
Variables (affine : AccountKey -> string * string) (sign : AccountKey -> string -> string).
Variables (sha256 b64 : string -> string).
Variables (to_json : Value -> string + string) (from_json : string -> option Value).
Variables (read_directory : string -> string + Directory) (read_order : string -> string + Order).
Variable read_authorization : string -> string + Authorization.
Variable utf8_error : string -> string.
Variable execute : list Event -> Method -> string -> option string -> PulsateError + HttpResponse.
Variables (verify : string * string -> string -> string -> bool) (b64_decode : string -> option string).

Abbreviation client := (@AcmeClient AccountKey).
Abbreviation call := (@Call AccountKey).
Abbreviation signed := (Acme.signed affine sign b64 to_json from_json execute).
Abbreviation signed_loop := (Acme.signed_loop affine sign b64 to_json from_json execute).
Abbreviation nonce := (Acme.nonce execute).
Abbreviation jwk := (Acme.jwk affine b64).
#[local] Existing Instances call_ret call_bind.

(** The reading of a body: the JWS, its protected header, its payload. *)
Definition ca_read (text : string) : option Request :=
  v ← from_json text;
  p ← get_text "protected" v;
  pl ← get_text "payload" v;
  s ← get_text "signature" v ≫= b64_decode;
  h ← b64_decode p ≫= from_json;
  n ← get_text "nonce" h;
  u ← get_text "url" h;
  payload ← (if (pl =? "")%string then Some None else Some <$> (b64_decode pl ≫= from_json));
  key ← match get "jwk" h, get_text "kid" h with
        | Some j, None => Some (inl j)
        | None, Some k => Some (inr k)
        | _, _ => None
        end;
  Some (mk_request n u key payload (p +:+ "." +:+ pl) s).

(** ** Reasoning about calls

    [P] before gives [Q] of the value and the state after, or [E] after an
    error; there is no panic. *)
Definition holds {A} (P : client -> Prop) (m : call A) (Q : A -> client -> Prop) (E : client -> Prop) : Prop :=
  forall c, P c -> match m c with (Ok a, c') => Q a c' | (Err _, c') => E c' | _ => False end.

Lemma holds_bind {A B} (P : client -> Prop) (m : call A) (f : A -> call B) R Q E :
  holds P m R E -> (forall a, holds (R a) (f a) Q E) -> holds P (m ≫= f) Q E.
Proof.
  intros Hm Hf c HP. specialize (Hm c HP). unfold mbind, call_bind. destruct (m c) as [[a|e| |] c']; try done.
  by apply Hf.
Qed.

Lemma holds_ret {A} (a : A) (P : client -> Prop) Q E : (forall c, P c -> Q a c) -> holds P (mret a) Q E.
Proof. intros H c. apply H. Qed.

Lemma holds_fail {A} e (P : client -> Prop) (Q : A -> client -> Prop) (E : client -> Prop) :
  (forall c, P c -> E c) -> holds P (fail e) Q E.
Proof. intros H c. apply H. Qed.

Lemma holds_lift {A} (m : exec PulsateError A) (P : client -> Prop) Q (E : client -> Prop) :
  returns m -> (forall c a, m = Ok a -> P c -> Q a c) -> (forall c, P c -> E c) -> holds P (lift m) Q E.
Proof. intros Hr HQ HE c HP. unfold lift. destruct m as [a|e| |]; try done; auto. Qed.

Lemma holds_lift_ok {A B} (a : A) (f : A -> call B) (P : client -> Prop) Q E :
  holds P (f a) Q E -> holds P (lift (Ok a) ≫= f) Q E.
Proof. done. Qed.

Lemma holds_self (P : client -> Prop) Q E : (forall c, P c -> Q c c) -> holds P self Q E.
Proof. intros H c. apply H. Qed.

Lemma holds_weaken {A} (P P' : client -> Prop) (m : call A) Q Q' (E E' : client -> Prop) :
  holds P' m Q' E' -> (forall c, P c -> P' c) -> (forall a c, Q' a c -> Q a c) -> (forall c, E' c -> E c) -> holds P m Q E.
Proof.
  intros H HP HQ HE c Hc. specialize (H c (HP c Hc)). destruct (m c) as [[a|e| |] c']; auto.
Qed.

(** ** What a signed request says *)
Hypothesis json_law : forall v, plain 8 v = true -> exists t, to_json v = inr t /\ from_json t = Some v.
Hypothesis from_json_empty : from_json "" = None.
Hypothesis b64_law : forall s, b64_decode (b64 s) = Some s.
Hypothesis b64_empty : b64_decode "" = Some "".
Hypothesis verify_law : forall k m, verify (affine k) m (sign k m) = true.

Definition key_shown (key : AccountKey) (kid : KeyId) : Value + string :=
  match kid with KidJwk => inl (jwk_value (jwk key)) | Kid k => inr k end.

Definition payload_plain (payload : option Value) : Prop := match payload with Some v => plain 8 v = true | None => True end.

Lemma b64_nonempty s : s <> "" -> b64 s <> "".
Proof. intros Hs Hb. pose proof (b64_law s) as H. rewrite Hb, b64_empty in H. congruence. Qed.

Lemma jws_members p pl s :
  get_text "protected" (jws_value p pl s) = Some p /\ get_text "payload" (jws_value p pl s) = Some pl
  /\ get_text "signature" (jws_value p pl s) = Some s.
Proof. done. Qed.

Lemma protected_members key url n kid :
  let h := protected_value affine b64 key url n kid in
  get_text "nonce" h = Some n /\ get_text "url" h = Some url
  /\ match get "jwk" h, get_text "kid" h with
     | Some j, None => Some (inl j)
     | None, Some k => Some (inr k)
     | _, _ => None
     end = Some (key_shown key kid).
Proof. by destruct kid. Qed.

Lemma sign_request_reads key url n kid payload :
  payload_plain payload ->
  exists text req, sign_request affine sign b64 to_json key url n kid payload = Ok text /\ ca_read text = Some req
    /\ r_nonce req = n /\ r_url req = url /\ r_key req = key_shown key kid /\ r_payload req = payload
    /\ verify (affine key) (r_signed req) (r_signature req) = true.
Proof.
  intros Hp. unfold sign_request.
  destruct (json_law (protected_value affine b64 key url n kid)) as (th & Eh & Rh).
  { unfold protected_value, Acme.jwk. destruct kid; [destruct (affine key)|]; reflexivity. }
  assert (Hpl : exists pl, match payload with
      | None => Ok ""
      | Some v => text ← map_err (fun e => crypto_err ("cannot serialize JWS payload: " +:+ e)) (to_json v); Ok (b64 text)
      end = Ok (E:=PulsateError) pl
      /\ (if (pl =? "")%string then Some None else Some <$> (b64_decode pl ≫= from_json)) = Some payload).
  { destruct payload as [v|]; [|by eexists]. destruct (json_law v Hp) as (tv & Ev & Rv). rewrite Ev.
    exists (b64 tv). split; [done|]. rewrite (proj2 (String.eqb_neq _ _)), b64_law; [simpl; by rewrite Rv|].
    apply b64_nonempty. intros ->. congruence. }
  destruct Hpl as (pl & Epl & Rpl). rewrite Eh. cbn [map_err mbind exec_bind]. cbv zeta. cbn [mbind exec_bind] in Epl.
  rewrite Epl. cbn [mbind exec_bind]. set (input := b64 th +:+ "." +:+ pl).
  destruct (json_law (jws_value (b64 th) pl (b64 (sign key input)))) as (t & Et & Rt); [reflexivity|].
  rewrite Et. eexists t, (mk_request n url (key_shown key kid) payload input (sign key input)).
  split; [done|]. split; [|cbn; by rewrite verify_law].
  unfold ca_read. rewrite Rt. cbn [mbind option_bind].
  destruct (jws_members (b64 th) pl (b64 (sign key input))) as (-> & -> & ->). cbn [mbind option_bind].
  rewrite !b64_law. cbn [mbind option_bind]. rewrite Rh. cbn [mbind option_bind].
  destruct (protected_members key url n kid) as (-> & -> & Hk). cbn [mbind option_bind]. rewrite Rpl. cbn [mbind option_bind].
  by rewrite Hk.
Qed.

(** ** The requests of a client *)
Definition issued_by (e : Event) : option string :=
  match ev_result e with inr r => replay_nonce r | inl _ => None end.
Definition used_by (e : Event) : option string :=
  match ev_method e with Post => r_nonce <$> (ev_body e ≫= ca_read) | _ => None end.
Definition issued (es : list Event) : list string := omap issued_by es.
Definition used (es : list Event) : list string := omap used_by es.

(** The account URLs the authority has assigned. *)
Definition assigned (d : Directory) (es : list Event) (kid : string) : Prop :=
  exists e r, e ∈ es /\ ev_method e = Post /\ ev_url e = new_account d /\ ev_result e = inr r
    /\ is_success r = true /\ location r = Some kid.

(** A request that the authority accepts after the requests [before]. *)
Definition acceptable (key : AccountKey) (d : Directory) (before : list Event) (e : Event) : Prop :=
  match ev_method e with
  | Get => ev_body e = None
  | Head => ev_body e = None /\ ev_url e = new_nonce d
  | Post =>
    exists text req, ev_body e = Some text /\ ca_read text = Some req
      /\ r_url req = ev_url e
      /\ r_nonce req ∈ issued before
      /\ (r_key req = inl (jwk_value (jwk key)) \/ exists kid, r_key req = inr kid /\ assigned d before kid)
      /\ verify (affine key) (r_signed req) (r_signature req) = true
  end.

Inductive requests (key : AccountKey) (d : Directory) : list Event -> Prop :=
| requests_nil : requests key d []
| requests_snoc es e : requests key d es -> acceptable key d es e -> requests key d (es ++ [e]).

(** The invariant, of a client that holds the nonces [held]. *)
Record inv (key : AccountKey) (d : Directory) (held : list string) (c : client) : Prop := {
  inv_key : account_key c = key;
  inv_dir : directory c = d;
  inv_requests : requests key d (seen c);
  inv_nonces : used (seen c) ++ held ++ nonces c ⊆+ issued (seen c);
  inv_url : forall kid, account_url c = Some kid -> assigned d (seen c) kid;
}.

Section Invariant.
Variables (key : AccountKey) (d : Directory).

Lemma inv_drop n c : inv key d [n] c -> inv key d [] c.
Proof.
  intros [? ? ? Hn ?]. split; [done..| |done]. etrans; [|exact Hn]. apply submseteq_skips_l. by apply submseteq_cons.
Qed.

Lemma assigned_snoc es e kid : assigned d es kid -> assigned d (es ++ [e]) kid.
Proof. intros (e' & r & He & H). exists e', r. split; [apply elem_of_app; by left|done]. Qed.

Definition fresh (r : HttpResponse) : list string := match replay_nonce r with Some n => [n] | None => [] end.

Definition consumed (m : Method) (text : option string) : list string :=
  match m with Post => match text ≫= ca_read with Some req => [r_nonce req] | None => [] end | _ => [] end.

(** The request that was answered last. *)
Definition answered (m : Method) (url : string) (r : HttpResponse) (c : client) : Prop :=
  exists es text, seen c = es ++ [mk_event m url text (inr r)].

Lemma omap_snoc {A B} (f : A -> option B) l a :
  omap f (l ++ [a]) = omap f l ++ match f a with Some b => [b] | None => [] end.
Proof. rewrite omap_app. cbn. by destruct (f a). Qed.

Lemma used_snoc es m url text r : used (es ++ [mk_event m url text r]) = used es ++ consumed m text.
Proof.
  unfold used. rewrite omap_snoc. unfold used_by, consumed. cbn. destruct m; [done..|]. by destruct (text ≫= ca_read).
Qed.

Lemma issued_snoc es m url text r :
  issued (es ++ [mk_event m url text r]) = issued es ++ match r with inr r => fresh r | inl _ => [] end.
Proof. unfold issued. rewrite omap_snoc. by destruct r. Qed.

Lemma send_inv m url text held held' :
  held ≡ₚ consumed m text ++ held' ->
  holds (fun c => inv key d held c /\ forall r, acceptable key d (seen c) (mk_event m url text r))
    (send execute m url text)
    (fun r c => inv key d (fresh r ++ held') c /\ answered m url r c) (inv key d held').
Proof.
  intros Hheld c [[Hk Hd Hreq Hn Hu] Hacc]. unfold send. cbn zeta.
  assert (Hused : forall r, used (seen c ++ [mk_event m url text r]) ++ held' ++ nonces c ⊆+ issued (seen c)).
  { intros r. rewrite used_snoc, <-app_assoc. rewrite Hheld, <-app_assoc in Hn. done. }
  destruct (execute (seen c) m url text) as [e|r] eqn:Ex.
  - split; cbn; [done|done|by constructor| |intros kid Hkid; by apply assigned_snoc, Hu].
    rewrite issued_snoc, app_nil_r. apply (Hused (inl e)).
  - split; [|by exists (seen c), text].
    split; cbn; [done|done|by constructor| |intros kid Hkid; by apply assigned_snoc, Hu].
    rewrite issued_snoc.
    rewrite (Permutation_app_comm (issued (seen c))), <-(app_assoc (fresh r)), Permutation_app_swap_app.
    apply submseteq_skips_l, (Hused (inr r)).
Qed.

Lemma nonce_inv : holds (inv key d []) nonce (fun n => inv key d [n]) (inv key d []).
Proof.
  unfold nonce. eapply (holds_bind _ _ _ (fun o => match o with Some n => inv key d [n] | None => inv key d [] end)).
  - intros c [Hk Hd Hreq Hn Hu]. unfold pop_nonce. destruct (last (nonces c)) as [n|] eqn:El; [|done].
    apply last_Some in El as [l El]. rewrite El in *. split; cbn; [done..| |done].
    rewrite length_app, Nat.add_comm. cbn. rewrite take_app_length.
    etrans; [|exact Hn]. cbn. by rewrite (Permutation_app_comm l).
  - intros [n|]; [by apply holds_ret|].
    apply (holds_bind _ _ _ (fun c' c => inv key d [] c /\ c' = c)); [by apply holds_self|]. intros c'.
    eapply (holds_bind _ _ _ (fun r c => inv key d (fresh r) c)).
    + eapply holds_weaken; [apply (send_inv Head (new_nonce (directory c')) None [] []); done|..].
      * intros c [Hc ->]. split; [done|]. intros r. split; [done|]. cbn. by rewrite (inv_dir _ _ _ _ Hc).
      * intros r c [Hc _]. by rewrite app_nil_r in Hc.
      * done.
    + intros r. unfold fresh. destruct (replay_nonce r); cbn [ok_or]; [by apply holds_ret|by apply holds_fail].
Qed.

Lemma store_nonce_inv m url r :
  holds (fun c => inv key d (fresh r) c /\ answered m url r c) (store_nonce r)
    (fun _ c => inv key d [] c /\ answered m url r c) (inv key d []).
Proof.
  intros c [[Hk Hd Hreq Hn Hu] Ha]. unfold store_nonce, fresh in *. destruct (replay_nonce r) as [n|]; [|by split].
  split; [|done]. split; cbn; [done..| |done]. etrans; [|exact Hn]. cbn. by rewrite (Permutation_app_comm (nonces c)).
Qed.

Lemma attempt_inv attempt rest url payload :
  payload_plain payload ->
  (attempt = O -> holds (inv key d []) (signed_loop rest url payload)
                    (fun r c => inv key d [] c /\ answered Post url r c) (inv key d [])) ->
  holds (inv key d []) (signed_loop (attempt :: rest) url payload)
    (fun r c => inv key d [] c /\ answered Post url r c) (inv key d []).
Proof.
  intros Hp Hrest. cbn [Acme.signed_loop]. eapply holds_bind; [apply nonce_inv|]. intros n.
  apply (holds_bind _ _ _ (fun c' c => inv key d [n] c /\ c' = c)); [by apply holds_self|]. intros c'.
  destruct (sign_request_reads (account_key c') url n (key_id_of c') payload Hp) as (text & req & -> & Hreq & Hno & Hurl & Hkey & _ & Hv).
  apply holds_lift_ok. eapply holds_bind.
  { eapply holds_weaken; [apply (send_inv Post url (Some text) [n] [])|..]; [| |done|done].
    - cbn. by rewrite Hreq, Hno.
    - intros c [Hc <-]. split; [done|]. intros r. exists text, req. split_and!; [done..| | |].
      + rewrite Hno. destruct Hc as [_ _ _ Hn _]. apply (elem_of_submseteq _ _ n) in Hn; [done|]. apply elem_of_app. right. by left.
      + rewrite Hkey, (inv_key _ _ _ _ Hc). unfold key_id_of. destruct (account_url c') as [kid|] eqn:E; [right|by left].
        exists kid. split; [done|]. by apply (inv_url _ _ _ _ Hc).
      + by rewrite (inv_key _ _ _ _ Hc) in Hv. }
  intros r. eapply holds_bind; [rewrite app_nil_r; apply store_nonce_inv|]. intros u. cbn beta.
  destruct ((status r =? 400) && body_is_bad_nonce from_json (body r)); cbn [andb]; [|by apply holds_ret].
  destruct attempt as [|attempt]; cbn [Nat.eqb]; [|by apply holds_ret].
  eapply holds_weaken; [by apply Hrest|by intros c [Hc _]|done..].
Qed.


Lemma signed_inv url payload :
  payload_plain payload ->
  holds (inv key d []) (signed url payload) (fun r c => inv key d [] c /\ answered Post url r c) (inv key d []).
Proof. intros Hp. apply attempt_inv; [done|]. intros _. by apply attempt_inv. Qed.

Lemma expect_success_inv {A} what r (P : client -> Prop) (f : unit -> call A) Q (E : client -> Prop) :
  (is_success r = true -> holds P (f tt) Q E) -> (forall c, P c -> E c) ->
  holds P (expect_success what r ≫= f) Q E.
Proof.
  intros Hf HE. unfold expect_success. destruct (is_success r); [by apply Hf|].
  intros c HP. by apply HE.
Qed.

Lemma map_err_inv {A B} f (m : string + A) (k : A -> call B) (P : client -> Prop) Q (E : client -> Prop) :
  (forall a, holds P (k a) Q E) -> (forall c, P c -> E c) -> holds P (lift (map_err f m) ≫= k) Q E.
Proof. intros Hk HE. destruct m as [e|a]; [by intros c HP; apply HE|apply Hk]. Qed.

Lemma register_inv contact :
  holds (inv key d []) (register_account affine sign b64 to_json from_json execute contact)
    (fun _ => inv key d []) (inv key d []).
Proof.
  unfold register_account. apply (holds_bind _ _ _ (fun c' c => inv key d [] c /\ c' = c)); [by apply holds_self|].
  intros c'. eapply (holds_bind _ _ _ (fun r c => inv key d [] c /\ answered Post (new_account d) r c)).
  { intros c [Hc <-]. rewrite (inv_dir _ _ _ _ Hc). revert c' Hc. apply signed_inv. cbn. by rewrite plain_obj, andb_true_l; cbn; rewrite plain_arr. }
  intros r. destruct (negb (is_success r)) eqn:Es; [by apply holds_fail; intros c [Hc _]|].
  destruct (location r) as [url|] eqn:El; cbn [ok_or]; [|by apply holds_fail; intros c [Hc _]].
  intros c [[Hk Hd Hreq Hn Hu] [es [text Hseen]]]. cbn. split; cbn; [done..|].
  intros kid [= <-]. eexists _, r. rewrite Hseen. split; [apply elem_of_app; right; by left|]. cbn.
  by destruct (is_success r).
Qed.

(** What the other methods keep. *)
Lemma signed_then {A} url payload (f : HttpResponse -> call A) :
  payload_plain payload ->
  (forall r, holds (inv key d []) (f r) (fun _ => inv key d []) (inv key d [])) ->
  holds (inv key d []) (signed url payload ≫= f) (fun _ => inv key d []) (inv key d []).
Proof.
  intros Hp Hf. eapply holds_bind; [by apply signed_inv|]. intros r.
  eapply holds_weaken; [apply Hf|by intros c [Hc _]|done..].
Qed.

Lemma new_order_inv names :
  holds (inv key d []) (new_order affine sign b64 to_json from_json read_order execute names)
    (fun _ => inv key d []) (inv key d []).
Proof.
  unfold new_order. apply (holds_bind _ _ _ (fun c' => inv key d [])); [by apply holds_self|]. intros c'.
  apply signed_then; [cbn; by rewrite plain_obj, andb_true_l; cbn; rewrite plain_arr|].
  intros r. apply expect_success_inv; [intros _|done]. apply map_err_inv; [|done]. intros o. by apply holds_ret.
Qed.

Lemma http01_challenge_inv url :
  holds (inv key d []) (http01_challenge affine sign sha256 b64 to_json from_json read_authorization execute url)
    (fun _ => inv key d []) (inv key d []).
Proof.
  unfold http01_challenge. apply signed_then; [done|].
  intros r. apply expect_success_inv; [intros _|done]. apply map_err_inv; [|done]. intros l.
  destruct (snd <$> list_find _ (challenges l)) as [ch|]; cbn [ok_or]; [|by intros c Hc].
  apply (holds_bind _ _ _ (fun _ => inv key d [])); [by apply holds_ret|]. intros ch'.
  apply (holds_bind _ _ _ (fun _ => inv key d [])); [by apply holds_self|]. intros c'. by apply holds_ret.
Qed.

Lemma submit_inv url :
  holds (inv key d []) (submit_challenge affine sign b64 to_json from_json execute url)
    (fun _ => inv key d []) (inv key d []).
Proof.
  unfold submit_challenge. apply signed_then; [done|]. intros r. unfold expect_success.
  destruct (negb _); [by apply holds_fail|by apply holds_ret].
Qed.

Lemma poll_inv url n :
  holds (inv key d []) (poll_order affine sign b64 to_json from_json read_order execute url n)
    (fun _ => inv key d []) (inv key d []).
Proof.
  induction n as [|n IH]; cbn [poll_order]; [by apply holds_fail|]. apply signed_then; [done|].
  intros r. apply map_err_inv; [|done]. intros o. destruct (_ || _)%bool; [by apply holds_ret|].
  destruct (_ =? _)%string; [by apply holds_fail|done].
Qed.

Lemma download_inv url :
  holds (inv key d []) (download_certificate affine sign b64 to_json from_json utf8_error execute url)
    (fun _ => inv key d []) (inv key d []).
Proof.
  unfold download_certificate. apply signed_then; [done|]. intros r. apply expect_success_inv; [intros _|done].
  destruct (utf8_valid _); [by apply holds_ret|by apply holds_fail].
Qed.
End Invariant.

(** ** Programs of calls *)
Section Ops.
Context {KeyPair Params : Type}.
Variables (cert_params : list string -> string + Params) (serialize_request : Params -> KeyPair -> string + string).
Variable key_pem : KeyPair -> string.

Inductive Op :=
| Register (contact : list string)
| NewOrder (dns_names : list string)
| FetchChallenge (authz_url : string)
| SubmitChallenge (challenge_url : string)
| PollOrder (order_url : string) (max_attempts : nat)
| Finalize (generated : string + KeyPair) (order : Order) (dns_names : list string)
| Download (certificate_url : string).

Definition forget {A} (m : call A) : call unit := _ ← m; mret tt.

Definition call_of (op : Op) : call unit :=
  match op with
  | Register contact => forget (register_account affine sign b64 to_json from_json execute contact)
  | NewOrder names => forget (new_order affine sign b64 to_json from_json read_order execute names)
  | FetchChallenge url => forget (http01_challenge affine sign sha256 b64 to_json from_json read_authorization execute url)
  | SubmitChallenge url => submit_challenge affine sign b64 to_json from_json execute url
  | PollOrder url n => forget (poll_order affine sign b64 to_json from_json read_order execute url n)
  | Finalize generated order names =>
    forget (finalize affine sign b64 to_json from_json read_order execute cert_params serialize_request key_pem
              generated order names)
  | Download url => forget (download_certificate affine sign b64 to_json from_json utf8_error execute url)
  end.

(** The client after calls whose results are looked at or not. *)
Definition run_calls (ops : list Op) (c : client) : client := foldl (fun c op => (call_of op c).2) c ops.

Lemma forget_inv {A} key d (m : call A) :
  holds (inv key d []) m (fun _ => inv key d []) (inv key d []) ->
  holds (inv key d []) (forget m) (fun _ => inv key d []) (inv key d []).
Proof. intros H. eapply holds_bind; [exact H|]. intros a. by apply holds_ret. Qed.

Lemma call_of_inv key d op : holds (inv key d []) (call_of op) (fun _ => inv key d []) (inv key d []).
Proof.
  destruct op; cbn [call_of]; [apply forget_inv, register_inv|apply forget_inv, new_order_inv
    |apply forget_inv, http01_challenge_inv|apply submit_inv|apply forget_inv, poll_inv| |apply forget_inv, download_inv].
  apply forget_inv. unfold finalize. do 3 (apply map_err_inv; [intros ?|done]). apply signed_then; [done|].
  intros r. apply expect_success_inv; [intros _|done]. apply map_err_inv; [|done]. intros o. by apply holds_ret.
Qed.

Lemma run_calls_inv key d ops c : inv key d [] c -> inv key d [] (run_calls ops c).
Proof.
  revert c. induction ops as [|op ops IH]; intros c Hc; [done|]. cbn. apply IH.
  pose proof (call_of_inv key d op c Hc) as H. by destruct (call_of op c) as [[?|?| |] c'].
Qed.

Lemma requests_acceptable key d es before e after :
  requests key d es -> es = before ++ e :: after -> acceptable key d before e.
Proof.
  intros H. revert before e after. induction H as [|es e' H IH Ha]; intros before e after Heq.
  - by destruct before.
  - destruct after as [|x after _] using rev_ind; [by apply app_inj_tail in Heq as [-> ->]|].
    rewrite app_comm_cons, app_assoc in Heq. apply app_inj_tail in Heq as [-> _]. by eapply IH.
Qed.

(** C27. The authority can accept everything the client sends.  In any program of
    calls on a client that discovered its directory, no call panics, and every
    signed request reads back as a JWS under the account key for the URL it was
    sent to, with the public key or else an account URL that the authority
    assigned to a registration, and with a nonce that the authority issued
    before; the client uses no nonce more often than it was issued, so it
    replays none when the authority repeats none. *)
Theorem requests_authentic (key : AccountKey) (directory_url : string) (c0 : client) (ops : list Op)
    (Hdiscover : (discover read_directory execute key directory_url []).1 = Ok c0) :
  let c := run_calls ops c0 in
  (forall before e after, seen c = before ++ e :: after -> acceptable key (directory c0) before e)
  /\ used (seen c) ++ nonces c ⊆+ issued (seen c)
  /\ (NoDup (issued (seen c)) -> NoDup (used (seen c) ++ nonces c))
  /\ (forall op, returns (call_of op c).1).
Proof.
  assert (H0 : inv key (directory c0) [] c0).
  { unfold discover in Hdiscover. destruct (execute _ _ _ _) as [e|r]; [done|]. cbn [fst] in Hdiscover.
    destruct (negb _); [done|]. apply bind_Ok in Hdiscover as (d & _ & [= <-]).
    split; cbn; [done..| |apply submseteq_nil_l|done]. by apply (requests_snoc _ _ []); [constructor|]. }
  apply (run_calls_inv _ _ ops) in H0. cbv zeta. set (c := run_calls ops c0) in *. pose proof (call_of_inv key (directory c0)) as Hop.
  split_and!.
  - intros before e after. apply requests_acceptable, (inv_requests _ _ _ _ H0).
  - apply (inv_nonces _ _ _ _ H0).
  - intros Hnd. destruct (submseteq_Permutation _ _ (inv_nonces _ _ _ _ H0)) as [k Hk].
    rewrite Hk in Hnd. by apply NoDup_app in Hnd as (? & _).
  - intros op. specialize (Hop op c H0). by destruct (call_of op c) as [[?|?| |] ?].
Qed.
End Ops.

(** ** One signed request *)
Definition replies (es : list Event) : list HttpResponse :=
  omap (fun e => match ev_method e, ev_result e with Post, inr r => Some r | _, _ => None end) es.

Definition refused (r : HttpResponse) : bool := (status r =? 400) && body_is_bad_nonce from_json (body r).

(** One attempt. *)
Definition attempt_once (url : string) (payload : option Value) : call HttpResponse :=
  n ← nonce;
  c ← self;
  text ← lift (sign_request affine sign b64 to_json (account_key c) url n (key_id_of c) payload);
  resp ← send execute Post url (Some text);
  _ ← store_nonce resp;
  mret resp.

Lemma signed_loop_eq attempt rest url payload c :
  signed_loop (attempt :: rest) url payload c
  = (r ← attempt_once url payload; if refused r && (attempt =? 0)%nat then signed_loop rest url payload else mret r) c.
Proof.
  unfold attempt_once, refused. cbn [Acme.signed_loop]. unfold mbind, call_bind, self, lift.
  destruct (nonce c) as [[n|e| |] c1]; try done. destruct (sign_request _ _ _ _ _ _ _ _ _) as [text|e| |]; try done.
  destruct (send _ _ _ _ c1) as [[r|e| |] c2]; try done. by destruct (store_nonce r c2) as [[[]|e| |] c3].
Qed.

(** The state after an attempt: the pool without the nonce it used, then the
    nonce of the answer. *)
Definition after_attempt (url : string) (c : client) (r : HttpResponse) (c' : client) : Prop :=
  exists es e, seen c' = seen c ++ es ++ [e] /\ Forall (fun e => ev_method e = Head) es /\ (length es <= 1)%nat
    /\ (nonces c <> [] -> es = []) /\ ev_method e = Post /\ ev_url e = url /\ ev_result e = inr r
    /\ (forall n, last (nonces c) = Some n -> used_by e = Some n)
    /\ directory c' = directory c
    /\ (forall n, replay_nonce r = Some n -> last (nonces c') = Some n).

Definition no_reply (c c' : client) : Prop :=
  exists es, seen c' = seen c ++ es /\ replies es = [].

Lemma nonce_steps c :
  match nonce c with
  | (Ok n, c') =>
    account_key c' = account_key c /\ directory c' = directory c /\
    exists es, seen c' = seen c ++ es /\ Forall (fun e => ev_method e = Head) es
      /\ (length es <= 1)%nat /\ (nonces c <> [] -> es = []) /\ (forall m, last (nonces c) = Some m -> n = m)
  | (Err _, c') => no_reply c c'
  | _ => False
  end.
Proof.
  unfold nonce. unfold mbind, call_bind, pop_nonce. destruct (last (nonces c)) as [n|] eqn:El.
  { cbn. split_and!; [done..|]. exists []. rewrite app_nil_r. split_and!; [done|done|simpl; lia|done|congruence]. }
  apply last_None in El. unfold self, send. cbn zeta.
  destruct (execute (seen c) Head _ None) as [e|r] eqn:Ex.
  { eexists. split; [done|]. done. }
  destruct (replay_nonce r) as [n|]; cbn [ok_or mret call_ret fail].
  - cbn. split_and!; [done..|]. eexists [_]. split_and!; [done|by apply Forall_singleton|done..].
  - eexists. split; [done|]. done.
Qed.

Lemma attempt_steps url payload c :
  payload_plain payload ->
  match attempt_once url payload c with
  | (Ok r, c') => after_attempt url c r c'
  | (Err _, c') => no_reply c c'
  | _ => False
  end.
Proof.
  intros Hp. unfold attempt_once. unfold mbind, call_bind, self, lift. pose proof (nonce_steps c) as Hn.
  destruct (nonce c) as [[n|e| |] c1]; [|done..]. destruct Hn as (Hk & Hd & es & Hs & Hh & Hlen & He & Hl).
  destruct (sign_request_reads (account_key c1) url n (key_id_of c1) payload Hp) as (text & req & -> & Hreq & Hno & _).
  unfold send. cbn zeta. destruct (execute (seen c1) Post url (Some text)) as [e|r] eqn:Ex.
  { eexists. cbn. rewrite Hs, <-app_assoc. split; [done|]. unfold replies. rewrite omap_app. cbn. rewrite app_nil_r.
    clear -Hh. induction Hh as [|x l Hx _ IH]; [done|]. cbn. by rewrite Hx. }
  unfold store_nonce. destruct (replay_nonce r) as [m|] eqn:Er; cbn; eexists es, _; cbn; rewrite Hs, <-app_assoc;
    (split_and!; [done..|by intros m' Hm; rewrite <-(Hl _ Hm); unfold used_by; cbn; rewrite Hreq; cbn; rewrite Hno|done|]).
  - intros m' [= <-]. by rewrite Er in *; rewrite last_snoc.
  - intros m' Hm. congruence.
Qed.

Lemma replies_heads es : Forall (fun e => ev_method e = Head) es -> replies es = [].
Proof. induction 1 as [|x l Hx _ IH]; [done|]. cbn. by rewrite Hx. Qed.

Lemma replies_app es es' : replies (es ++ es') = replies es ++ replies es'.
Proof. apply omap_app. Qed.

Lemma signed_answered url payload c r c' :
  payload_plain payload -> signed url payload c = (Ok r, c') -> exists b, after_attempt url b r c'.
Proof.
  intros Hp. unfold Acme.signed. cbn [seq]. rewrite signed_loop_eq. unfold mbind at 1, call_bind at 1.
  pose proof (attempt_steps url payload c Hp) as H1. destruct (attempt_once url payload c) as [[r0|e| |] c1]; try done.
  destruct (refused r0 && (0 =? 0)%nat); [|by intros [= <- <-]; exists c].
  rewrite signed_loop_eq. unfold mbind at 1, call_bind at 1.
  pose proof (attempt_steps url payload c1 Hp) as H2. destruct (attempt_once url payload c1) as [[r2|e| |] c2]; try done.
  rewrite andb_false_r. intros [= <- <-]. by exists c1.
Qed.

(** A signed request is sent at most twice.  It is retried only when the
    authority refused its nonce, once; the caller gets the answer to the last
    attempt; each attempt fetches a nonce only when the pool is empty, so the
    retry uses the nonce that came with the refusal; and the only errors are
    those of the transport and of an answer without a nonce. *)
Theorem signed_retries_once (url : string) (payload : option Value) (c : client) (Hp : payload_plain payload) :
  match signed url payload c with
  | (Ok r, c') =>
    (refused r = false /\ after_attempt url c r c')
    \/ (exists r0 c1, refused r0 = true /\ after_attempt url c r0 c1 /\ after_attempt url c1 r c')
  | (Err _, c') =>
    no_reply c c' \/ (exists r0 c1, refused r0 = true /\ after_attempt url c r0 c1 /\ no_reply c1 c')
  | _ => False
  end.
Proof.
  unfold Acme.signed. cbn [seq]. rewrite signed_loop_eq. unfold mbind at 1, call_bind at 1.
  pose proof (attempt_steps url payload c Hp) as H1. destruct (attempt_once url payload c) as [[r0|e| |] c1]; [|by left|done..].
  rewrite andb_true_r. destruct (refused r0) eqn:Er; [|by left].
  rewrite signed_loop_eq. unfold mbind at 1, call_bind at 1.
  pose proof (attempt_steps url payload c1 Hp) as H2. destruct (attempt_once url payload c1) as [[r|e| |] c2]; [| |done..].
  - cbn [Nat.eqb]. rewrite andb_false_r. right. by exists r0, c1.
  - right. by exists r0, c1.
Qed.

(** ** Polling an order *)
Definition reads (url : string) (es : list Event) : nat :=
  length (filter (fun e => ev_method e = Post /\ ev_url e = url) es).

Definition settled (o : Order) : Prop := o_status o = "ready" \/ o_status o = "valid" \/ o_status o = "invalid".
#[global] Instance settled_dec o : Decision (settled o).
Proof. unfold settled. apply _. Defined.

(** An authority that answers nonces and the reads of an order; the answer to
    the [k]th read is [order_at k]. *)
Definition answers_nonces (d : Directory) : Prop :=
  forall h, exists r n, execute h Head (new_nonce d) None = inr r /\ replay_nonce r = Some n.
Definition answers_order (url : string) (order_at : nat -> Order) : Prop :=
  forall h text, exists r, execute h Post url (Some text) = inr r /\ refused r = false
    /\ read_order (body r) = inr (order_at (reads url h)).

Lemma reads_heads url es es' e r :
  Forall (fun e => ev_method e = Head) es -> ev_method e = Post -> ev_url e = url -> ev_result e = inr r ->
  reads url (es' ++ es ++ [e]) = S (reads url es').
Proof.
  intros Hh Hm Hu _. unfold reads. rewrite !filter_app, !length_app.
  assert (filter (fun e => ev_method e = Post /\ ev_url e = url) es = []) as ->.
  { induction Hh as [|x l Hx _ IH]; [done|]. rewrite filter_cons_False; [done|]. intros [? _]. congruence. }
  rewrite filter_cons_True by done. cbn. lia.
Qed.

Lemma reads_app_heads url es es' : Forall (fun e => ev_method e = Head) es -> reads url (es' ++ es) = reads url es'.
Proof.
  intros Hh. unfold reads. rewrite filter_app, length_app.
  assert (filter (fun e => ev_method e = Post /\ ev_url e = url) es = []) as ->; [|cbn; lia].
  induction Hh as [|x l Hx _ IH]; [done|]. rewrite filter_cons_False; [done|]. intros [? _]. congruence.
Qed.

Lemma nonce_answered (c : client) : answers_nonces (directory c) -> exists n c', nonce c = (Ok n, c').
Proof.
  intros Hn. unfold nonce, mbind, call_bind, pop_nonce. destruct (last (nonces c)) as [n|]; [by eexists _, _|].
  unfold self, send. destruct (Hn (seen c)) as (r & n & -> & Hr). cbn. rewrite Hr. by eexists _, _.
Qed.

Lemma signed_read url (c : client) order_at :
  answers_nonces (directory c) -> answers_order url order_at ->
  exists r c', signed url None c = (Ok r, c') /\ directory c' = directory c
    /\ read_order (body r) = inr (order_at (reads url (seen c))) /\ reads url (seen c') = S (reads url (seen c)).
Proof.
  intros Hn Ho. unfold Acme.signed. cbn [seq]. rewrite signed_loop_eq. unfold mbind at 1, call_bind at 1.
  pose proof (attempt_steps url None c I) as H.
  assert (exists r c', attempt_once url None c = (Ok r, c') /\ refused r = false
            /\ read_order (body r) = inr (order_at (reads url (seen c)))) as (r & c' & E & Hr & Hbody).
  { destruct (nonce_answered c Hn) as (n & c1 & En). pose proof (nonce_steps c) as Hns. rewrite En in Hns.
    destruct Hns as (_ & _ & es & Hs & Hh & _). unfold attempt_once, mbind, call_bind, self, lift. rewrite En.
    destruct (sign_request_reads (account_key c1) url n (key_id_of c1) None I) as (text & _ & -> & _).
    unfold send. cbn zeta. destruct (Ho (seen c1) text) as (r & -> & Hr & Hb).
    rewrite Hs, reads_app_heads in Hb by done. unfold store_nonce.
    exists r. destruct (replay_nonce r); by eexists. }
  rewrite E in *. rewrite Hr. cbn [andb]. exists r, c'. split; [done|].
  destruct H as (es & e & Hs & Hh & _ & _ & Hm & Hu & Hres & _ & Hd & _). split; [done|]. split; [done|].
  rewrite Hs. by eapply reads_heads.
Qed.

(** C28. Polling an order is looking for its first settled state.  Against an
    authority that answers, [poll_order] returns the first answer among
    [max_attempts] that is ready or valid, fails if the first settled one is
    invalid, and fails if none is settled; and it reads the order no further
    than that answer. *)
Theorem poll_order_settles (url : string) (order_at : nat -> Order) (n : nat) (c : client)
    (Hn : answers_nonces (directory c)) (Ho : answers_order url order_at) :
  let first := reads url (seen c) in
  let answers := order_at <$> seq first n in
  let '(result, c') := poll_order affine sign b64 to_json from_json read_order execute url n c in
  match list_find settled answers with
  | Some (i, o) =>
    result = (if decide (o_status o = "invalid") then Err (protocol_err "order became invalid") else Ok (with_url o url))
    /\ reads url (seen c') = (first + S i)%nat
  | None =>
    result = Err (protocol_err "order did not settle within the attempt budget") /\ reads url (seen c') = (first + n)%nat
  end.
Proof.
  clear sha256 utf8_error read_directory read_authorization.
  revert c Hn. induction n as [|n IH]; intros c Hn; cbv zeta; cbn [poll_order seq fmap list_fmap list_find].
  { cbn. split; [done|lia]. }
  destruct (signed_read url c order_at Hn Ho) as (r & c' & E & Hd & Hb & Hreads).
  unfold mbind at 1, call_bind at 1. rewrite E. unfold parsed, map_err. rewrite Hb. unfold mbind at 1, call_bind at 1, lift.
  cbn [o_status with_url]. set (o := order_at (reads url (seen c))) in *.
  destruct (String.eqb_spec (o_status o) "ready") as [Eo|N1]; [|destruct (String.eqb_spec (o_status o) "valid") as [Eo|N2];
    [|destruct (String.eqb_spec (o_status o) "invalid") as [Eo|N3]]]; cbn [orb].
  1-3: destruct (decide (settled o)) as [_|Hs]; [|exfalso; unfold settled in Hs; tauto]; cbn; rewrite Eo, Hreads; by (split; [|lia]).
  destruct (decide (settled o)) as [Hs|_]; [exfalso; unfold settled in Hs; tauto|]. rewrite <-Hd in Hn. specialize (IH c' Hn). cbv zeta in IH. rewrite Hreads in IH.
  destruct (poll_order _ _ _ _ _ _ _ url n c') as [res c2].
  destruct (list_find settled (order_at <$> seq (S (reads url (seen c))) n)) as [[i o']|] eqn:El; cbn;
    destruct IH as [-> ->]; split; [done|lia|done|lia].
Qed.

(** ** HTTP-01 *)

(** C29. The data plane answers the challenge the authority set.  When
    [http01_challenge] returns, the authority's last answer was a success whose
    first HTTP-01 challenge is the one returned; once it is registered, the
    challenge path is answered with the token and the thumbprint of the account
    key, other paths are answered as before, and after its removal it is not
    answered. *)
Theorem http01_answered (authz_url : string) (c c' : client) (ch : Http01Challenge) (store : gmap string string)
    (Hch : http01_challenge affine sign sha256 b64 to_json from_json read_authorization execute authz_url c = (Ok ch, c')) :
  let stored := http01_set (h_token ch) (h_key_authorization ch) store in
  let path := HTTP01_PREFIX +:+ h_token ch in
  (exists es e r before offered after, seen c' = es ++ [e] /\ ev_method e = Post /\ ev_url e = authz_url
     /\ ev_result e = inr r /\ is_success r = true
     /\ read_authorization (body r) = inr (mk_authorization (before ++ offered :: after))
     /\ Forall (fun o => c_type o <> "http-01") before /\ c_type offered = "http-01"
     /\ h_token ch = c_token offered /\ h_url ch = c_url offered)
  /\ http01_get path stored = Some (h_token ch +:+ "." +:+ b64 (sha256 (canonical (jwk (account_key c')))))
  /\ (forall p, default p (strip_prefix HTTP01_PREFIX p) <> h_token ch -> http01_get p stored = http01_get p store)
  /\ http01_get path (http01_remove (h_token ch) stored) = None.
Proof.
  unfold http01_challenge in Hch. unfold mbind at 1, call_bind at 1 in Hch.
  destruct (signed authz_url None c) as [[r|e| |] c1] eqn:Esig; try done.
  pose proof (signed_answered authz_url None c r c1 I Esig) as Ha.
  unfold expect_success in Hch. destruct (negb (is_success r)) eqn:Es; [done|].
  unfold parsed, map_err in Hch. unfold mbind at 1, call_bind at 1 in Hch. cbn [mret call_ret] in Hch.
  destruct (read_authorization (body r)) as [?|[l]] eqn:El; [done|].
  unfold lift in Hch. unfold mbind at 1, call_bind at 1 in Hch.
  cbn [challenges] in Hch. destruct (list_find _ l) as [[i o]|] eqn:Ef; cbn [fmap option_fmap option_map challenges] in Hch; [|done].
  injection Hch as <- <-. cbn [h_token h_url h_key_authorization snd]. apply list_find_Some in Ef as (Hi & Ht & Hb).
  cbv zeta. split_and!.
  - destruct Ha as (b & es & e & Hseen & _ & _ & _ & Hm & Hu & Hr & _). rewrite app_assoc in Hseen.
    exists (seen b ++ es), e, r, (take i l), o, (drop (S i) l).
    rewrite (take_drop_middle _ _ _ Hi). split_and!; try done; [by destruct (is_success r)|].
    apply Forall_lookup. intros j x [Hx Hj]%lookup_take_Some. by eapply Hb.
  - unfold http01_get, http01_set. rewrite strip_prefix_app. cbn. by rewrite lookup_insert_eq.
  - intros p Hp. unfold http01_get, http01_set. by rewrite lookup_insert_ne.
  - unfold http01_get, http01_remove. rewrite strip_prefix_app. cbn. by rewrite lookup_delete_eq.
Qed.
End Acme.

(** ** A concrete instance *)
Section Instance.
Fixpoint to_tree (v : Value) : gen_tree string :=
  match v with
  | Null => GenNode 0 []
  | Bool b => GenNode (if b then 1 else 2) []
  | Number t => GenNode 3 [GenLeaf t]
  | Str s => GenLeaf s
  | Arr vs => GenNode 4 (map to_tree vs)
  | Obj ms => GenNode 5 (map (fun '(k, v) => GenNode 6 [GenLeaf k; to_tree v]) ms)
  end.

Fixpoint of_tree (t : gen_tree string) : Value :=
  match t with
  | GenLeaf s => Str s
  | GenNode 1 _ => Bool true
  | GenNode 2 _ => Bool false
  | GenNode 3 [GenLeaf t] => Number t
  | GenNode 4 ts => Arr (map of_tree ts)
  | GenNode 5 ts =>
    Obj (map (fun m => match m with GenNode 6 [GenLeaf k; t] => (k, of_tree t) | _ => ("", Null) end) ts)
  | _ => Null
  end.

Fixpoint bits (p : positive) : string :=
  match p with xH => "" | xO p => String "0" (bits p) | xI p => String "1" (bits p) end.
Fixpoint of_bits (s : string) : positive :=
  match s with String "0" s => xO (of_bits s) | String _ s => xI (of_bits s) | "" => xH end.
Lemma of_bits_bits p : of_bits (bits p) = p.
Proof. induction p as [p IH|p IH|]; cbn; congruence. Qed.

(** A text for a JSON value, in place of [serde_json]. *)
Definition text_of (v : Value) : string + string := inr (String "J" (bits (encode (to_tree v)))).
Definition value_of (t : string) : option Value :=
  match t with String "J" s => of_tree <$> decode (of_bits s) | _ => None end.

Lemma of_to_tree d v : plain d v = true -> of_tree (to_tree v) = v.
Proof.
  revert v. induction d as [|d IH]; intros [| [|] | | |vs|ms]; try done.
  - unfold plain. fold plain. intros H. cbn. f_equal. induction vs as [|v vs IHvs]; [done|]. cbn in *.
    apply andb_prop in H as [Hv Hvs]. by rewrite IH, IHvs.
  - rewrite plain_obj. intros [_ H]%andb_prop. cbn. f_equal. induction ms as [|[k v] ms IHms]; [done|]. cbn in *.
    apply andb_prop in H as [Hv Hms]. by rewrite IH, IHms.
Qed.

Lemma text_law v : plain 8 v = true -> exists t, text_of v = inr t /\ value_of t = Some v.
Proof.
  intros H. eexists. split; [done|]. cbn [value_of]. rewrite of_bits_bits, decode_encode. cbn. by rewrite (of_to_tree 8).
Qed.

(** An authority: a nonce for every answer, an account, and an order that is
    ready at its second read.  Its bodies are what the readers below read. *)
Definition order_1 (k : nat) : Order := mk_order (if (k =? 0)%nat then "pending" else "ready") [] "/finalize" None "".
Definition authority (h : list Event) (m : Method) (url : string) (text : option string) : PulsateError + HttpResponse :=
  let nonce := "n" +:+ show_u (Z.of_nat (length h)) in
  inr (mk_resp 200 (Some nonce) (Some "/account/1") None
         (if (url =? "/order/1")%string then (if (reads url h =? 0)%nat then "pending" else "ready") else url)).
Definition read_directory_1 (text : string) : string + Directory :=
  if (text =? "/directory")%string then inr (mk_dir "/nonce" "/account" "/order" None) else inl "not a directory".
Definition read_order_1 (text : string) : string + Order :=
  if (text =? "pending")%string then inr (order_1 0) else if (text =? "ready")%string then inr (order_1 1) else inl "not an order".
Definition read_authorization_1 (text : string) : string + Authorization :=
  if (text =? "/authz")%string
  then inr (mk_authorization [mk_challenge "dns-01" "/d" "dtok"; mk_challenge "http-01" "/c" "tok"]) else inl "not an authorization".

Abbreviation coords := (fun _ : unit => ("x", "y")).
Abbreviation signature := (fun (_ : unit) (m : string) => m).
Abbreviation checks := (fun (_ : string * string) (m s : string) => (m =? s)%string).
Abbreviation same := (fun s : string => s).
Abbreviation no_params := (fun _ : list string => inl (B:=unit) "no parameters").
Abbreviation no_request := (fun (_ _ : unit) => inl (B:=string) "no request").
Abbreviation no_pem := (fun _ : unit => "").

Definition client_0 : @AcmeClient unit :=
  mk_client tt (mk_dir "/nonce" "/account" "/order" None) None []
    [mk_event Get "/directory" None (authority [] Get "/directory" None)].

Definition run_1 : list (@Op unit) -> @AcmeClient unit -> @AcmeClient unit :=
  run_calls coords signature same same text_of value_of read_order_1 read_authorization_1 same authority no_params no_request no_pem.

Lemma requests_authentic_witness :
  let c := run_1 [Register []; PollOrder "/order/1" 3] client_0 in
  used value_of Some (seen c) ++ nonces c ⊆+ issued (seen c).
Proof.
  exact (proj1 (proj2 (requests_authentic coords signature same same text_of value_of read_directory_1 read_order_1
    read_authorization_1 same authority checks Some text_law eq_refl (fun s => eq_refl) eq_refl (fun k m => String.eqb_refl m)
    no_params no_request no_pem tt "/directory" client_0 [Register []; PollOrder "/order/1" 3] eq_refl))).
Defined.

Lemma signed_retries_once_witness :
  match signed coords signature same text_of value_of authority "/account" (Some (Obj [])) client_0 with
  | (Ok _, _) | (Err _, _) => True
  | _ => False
  end.
Proof.
  pose proof (signed_retries_once coords signature same text_of value_of authority checks Some
    text_law eq_refl (fun s => eq_refl) eq_refl (fun k m => String.eqb_refl m) "/account" (Some (Obj [])) client_0 eq_refl) as H.
  destruct (signed _ _ _ _ _ _ _ _ client_0) as [[r|e| |] c']; [exact I|exact I|exact H|exact H].
Defined.

Lemma authority_nonces : answers_nonces authority (directory client_0).
Proof. intros h. by eexists _, _. Qed.

Lemma authority_order : answers_order value_of read_order_1 authority "/order/1" order_1.
Proof.
  intros h text. eexists. split; [done|]. split; [done|]. cbn. unfold order_1.
  by destruct (reads "/order/1" h) eqn:E.
Qed.

Lemma poll_order_settles_witness :
  (poll_order coords signature same text_of value_of read_order_1 authority "/order/1" 3 client_0).1
  = Ok (mk_order "ready" [] "/finalize" None "/order/1").
Proof.
  pose proof (poll_order_settles coords signature same text_of value_of read_order_1 authority checks Some
    text_law eq_refl (fun s => eq_refl) eq_refl (fun k m => String.eqb_refl m) "/order/1" order_1 3 client_0
    authority_nonces authority_order) as H. cbv zeta in H.
  destruct (poll_order _ _ _ _ _ _ _ _ _ client_0) as [res c']. destruct H as [H _]. exact H.
Defined.

Definition challenge_1 : Http01Challenge := mk_http01 "tok" ("tok." +:+ canonical (mk_jwk "P-256" "EC" "x" "y")) "/c".

Lemma http01_answered_witness :
  exists c', http01_challenge coords signature same same text_of value_of read_authorization_1 authority "/authz" client_0
             = (Ok challenge_1, c')
    /\ http01_get "/.well-known/acme-challenge/tok" (http01_set "tok" (h_key_authorization challenge_1) ∅)
       = Some (h_key_authorization challenge_1).
Proof.
  assert ((http01_challenge coords signature same same text_of value_of read_authorization_1 authority "/authz" client_0).1
    = Ok challenge_1) as E by (vm_compute; reflexivity).
  destruct (http01_challenge _ _ _ _ _ _ _ _ _ client_0) as [res c'] eqn:Ec. cbn [fst] in E. rewrite E in Ec.
  exists c'. split; [by rewrite E|].
  destruct (http01_answered coords signature same same text_of value_of read_authorization_1 authority checks Some
    text_law eq_refl (fun s => eq_refl) eq_refl (fun k m => String.eqb_refl m) "/authz" client_0 c' _ ∅ Ec) as (_ & Hg & _).
  exact Hg.
Defined.

(** A client that registers again signs the registration with its account URL,
    though a registration is to carry the public key. *)
Lemma second_registration_uses_kid :
  (last (seen (run_1 [Register []; Register []] client_0)) ≫= ev_body) ≫= (fun t => r_key <$> ca_read value_of Some t)
  = Some (inr "/account/1").
Proof. vm_compute. reflexivity. Qed.
End Instance.

(** ** Certificates *)
Section Certificates.
Context {Certificate PrivateKey SigningKey : Type}.
Variables (read_certs : string -> string + list Certificate) (read_key : string -> string + option PrivateKey).
Variable any_supported_type : PrivateKey -> string + SigningKey.
Import Certs.

(** A resolver is empty when no hello gets a certificate. *)
Lemma empty_resolves_nothing (r : @CertResolver Certificate SigningKey) :
  resolver_is_empty r = true <-> forall name, resolve name r = None.
Proof.
  unfold resolver_is_empty, resolve. destruct r as [m d]. cbn. split.
  - intros [Hm Hd]%andb_prop. apply bool_decide_eq_true in Hm as ->. destruct d; [done|]. by intros [n|].
  - intros H. pose proof (H None) as Hd. cbn in Hd. subst d. rewrite andb_true_r. apply bool_decide_eq_true, map_empty.
    intros n. specialize (H (Some n)). cbn in H. by destruct (m !! n).
Qed.

(** Installing a certificate replaces that of its host and no other; PEM text
    that does not parse leaves the store as it was. *)
Lemma install_replaces_live host cert_pem key_pem (m : gmap string (list Certificate * SigningKey)) :
  let '(r, m') := install_pem read_certs read_key any_supported_type host cert_pem key_pem m in
  match r with
  | Ok _ => exists ck, certified_key_from_pem read_certs read_key any_supported_type cert_pem key_pem = Ok ck /\ ck.1 <> []
      /\ (forall n, dynamic_resolve (Some n) m' = if decide (n = host) then Some ck else dynamic_resolve (Some n) m)
  | Err _ => m' = m
  | _ => False
  end.
Proof.
  unfold install_pem, certified_key_from_pem. destruct (read_certs cert_pem) as [e|[|x cs]]; [done..|]. cbn.
  destruct (read_key key_pem) as [e|[k|]]; cbn; [done| |done]. destruct (any_supported_type k) as [e|sk]; cbn; [done|].
  exists (x :: cs, sk). split_and!; [done..|]. intros n. destruct (decide (n = host)) as [->|Hn].
  - by rewrite lookup_insert_eq.
  - by rewrite lookup_insert_ne.
Qed.
End Certificates.

(** ** The transport *)

(** Every failure of the transport is an unreachable authority, and
    what it returns keeps the status and the whole body. *)
Lemma transport_errors `{HeaderOps} url_error client m url text :
  match transport_execute url_error client m url text with
  | inl e => exists msg, e = net_err msg
  | inr r => exists headers, client url (transport_request m text) = inr (status r, headers, inr (body r))
             /\ replay_nonce r = get_str headers "replay-nonce" /\ location r = get_str headers "location"
  end.
Proof.
  unfold transport_execute. destruct (url_error url); [by eexists|].
  destruct (client url (transport_request m text)) as [e|[[code headers] [e|bytes]]]; [by eexists..|]. by exists headers.
Qed.
