(* ===== verification/K8s.v ===== *)
(** * [pulsate-k8s]: the Gateway API controller

    [crd.rs], [translate.rs], [controller.rs], [error.rs] and [leader.rs].  The
    resources are records with the fields the controller reads; the controller
    is a function of what the Kubernetes API answers. *)

From Stdlib Require Import ZArith Ascii String Lia.
From stdpp Require Import base option list strings pretty.
From S2P Require Import Prelude RustStr CoreTypes FlowSyntax BTree ConfigModel Config ConfigStore Acme.
Local Open Scope string_scope.
Local Open Scope list_scope.
Local Open Scope Z_scope.

Module Crd.

(** [ObjectMeta], as far as the controller reads it. *)
Record ObjectMeta := mk_meta { name : option string; namespace : option string; generation : option Z }.

Record GatewayClass := mk_class { class_metadata : ObjectMeta; controller_name : string }.

Record Listener := mk_listener {
  listener_name : string;
  hostname : option string;
  listener_port : Z;
  protocol : string;
}.
Record GatewaySpec := mk_gateway_spec { gateway_class_name : string; listeners : list Listener }.
Record Gateway := mk_gateway { gateway_metadata : ObjectMeta; gateway_spec : GatewaySpec }.

Record ParentRef := mk_parent { parent_name : string; parent_namespace : option string; section_name : option string }.
Record HTTPPathMatch := mk_path { match_type : string; value : string }.
Record HTTPRouteMatch := mk_match { path : option HTTPPathMatch; method : option string }.
Record HTTPBackendRef := mk_backend {
  backend_name : string;
  backend_namespace : option string;
  port : option Z;
  weight : option Z;
}.
Record HTTPRouteRule := mk_rule { matches : list HTTPRouteMatch; backend_refs : list HTTPBackendRef }.
Record HTTPRouteSpec := mk_route_spec {
  parent_refs : list ParentRef;
  hostnames : list string;
  rules : list HTTPRouteRule;
}.
Record HTTPRoute := mk_http_route { route_metadata : ObjectMeta; route_spec : HTTPRouteSpec }.
End Crd.

Module Translate.
Import Crd.

Definition DEFAULT_BACKEND_PORT : Z := 80.

(** ** Validation *)
Definition is_ascii_lowercase (b : ascii) : bool := in_range 97 122 (byte_val b).
Definition is_ascii_alphabetic (b : ascii) : bool := in_range 65 90 (byte_val b) || is_ascii_lowercase b.
Definition is_ascii_alphanumeric (b : ascii) : bool := is_ascii_alphabetic b || is_ascii_digit b.
(** [char::is_control]: the category Cc. *)
Definition is_control (c : Z) : bool := in_range 0 31 c || in_range 127 159 c.

(** Whether [s] contains a character that is unsafe to interpolate. *)
Definition unsafe_chars : list ascii := bytes_of "{}()" ++ [ascii_of_N 34] ++ bytes_of "~><#@".
Definition has_unsafe_char (s : string) : bool :=
  existsb (fun c => is_whitespace c || is_control c || existsb (fun u => c =? byte_val u) unsafe_chars) (chars s).

Definition is_valid_path_value (value : string) : bool := starts_with "/" value && negb (has_unsafe_char value).

Definition is_valid_method (method : string) : bool :=
  negb (bool_decide (method = "")) && forallb is_ascii_alphabetic (bytes_of method).

Definition is_dns_label (label : string) : bool :=
  let bytes := bytes_of label in
  match bytes, last bytes with
  | first :: _, Some final =>
    (Nat.leb (length bytes) 63)
    && (is_ascii_alphanumeric first && is_ascii_alphanumeric final)
    && forallb (fun b => is_ascii_lowercase b || is_ascii_digit b || Ascii.eqb b "-") bytes
  | _, _ => false
  end.

Definition is_valid_hostname (host : string) : bool :=
  let host := default host (strip_prefix "*." host) in
  if bool_decide (host = "") || negb (Nat.leb (String.length host) 253) then false
  else forallb is_dns_label (split_char "." host).

Definition opt_ok (p : string -> bool) (o : option string) : bool := match o with Some s => p s | None => true end.
Definition match_is_valid (m : HTTPRouteMatch) : bool :=
  match path m with Some p => is_valid_path_value (value p) | None => true end && opt_ok is_valid_method (method m).
Definition backend_is_valid (b : HTTPBackendRef) : bool :=
  is_dns_label (backend_name b) && opt_ok is_dns_label (backend_namespace b).
Definition route_is_valid (route : HTTPRoute) : bool :=
  forallb is_valid_hostname (hostnames (route_spec route))
  && forallb (fun rule => forallb match_is_valid (matches rule) && forallb backend_is_valid (backend_refs rule))
       (rules (route_spec route)).

(** ** Names and lines *)
Definition sanitize_char (c : Z) : ascii :=
  if (c <? 128) && is_ascii_alphanumeric (byte_of c) then to_lower1 (byte_of c) else "_"%char.
Definition sanitize (s : string) : string := str_of (sanitize_char <$> chars s).

Definition upstream_name (namespace route : string) (rule_idx : nat) : string :=
  "up_" +:+ sanitize namespace +:+ "_" +:+ sanitize route +:+ "_" +:+ show_nat rule_idx.

Definition target_line (route_ns : string) (backend : HTTPBackendRef) : string :=
  let ns := default route_ns (backend_namespace backend) in
  let port := default DEFAULT_BACKEND_PORT (port backend) in
  let url := "http://" +:+ backend_name backend +:+ "." +:+ ns +:+ ".svc:" +:+ show_u port in
  let weight := default 1 (weight backend) in
  if weight =? 1 then "  target " +:+ url +:+ nl else "  target " +:+ url +:+ " weight=" +:+ show_u weight +:+ nl.
Definition upstream_block (name : string) (rule : HTTPRouteRule) (route_ns : string) : string :=
  let body := foldl (fun body backend => body +:+ target_line route_ns backend) "" (backend_refs rule) in
  "upstream " +:+ name +:+ " {" +:+ nl +:+ body +:+ "}".

Inductive MatchKind := Exact | Prefix.

(** [(kind_rank, inverse_path_len, pattern, method, upstream)], compared as a
    tuple. *)
Abbreviation RouteKey := (Z * (Z * (string * (string * string))))%type.

Definition route_line (kind : MatchKind) (pattern : string) (method : option string) (upstream : string)
    : RouteKey * string :=
  let '(kind_rank, matcher) :=
    match kind with Exact => (0, "= " +:+ pattern) | Prefix => (1, pattern) end in
  let method_up := to_ascii_uppercase <$> method in
  let predicate := match method_up with Some m => " [method=" +:+ m +:+ "]" | None => "" end in
  let line := "route " +:+ matcher +:+ predicate +:+ " ~> proxy(@" +:+ upstream +:+ ")" in
  ((kind_rank, (u64_max - Z.of_nat (String.length pattern), (pattern, (default "" method_up, upstream)))), line).

Definition prefix_to_glob (value : string) : string :=
  let trimmed := trim_end_matches (fun c => Ascii.eqb c "/") value in
  if bool_decide (trimmed = "") then "/*" else trimmed +:+ "/*".

Definition match_pattern (m : HTTPRouteMatch) : MatchKind * string :=
  match path m with
  | Some p => if eq_ignore_ascii_case (match_type p) "Exact" then (Exact, value p) else (Prefix, prefix_to_glob (value p))
  | None => (Prefix, "/*")
  end.
Definition rule_route_lines (rule : HTTPRouteRule) (upstream : string) : list (RouteKey * string) :=
  match matches rule with
  | [] => [route_line Prefix "/*" None upstream]
  | ms => (fun m => let '(kind, pattern) := match_pattern m in route_line kind pattern (method m) upstream) <$> ms
  end.

(** ** Hosts *)
Definition host_matches (listener route_host : string) : bool :=
  match strip_prefix "*." listener with
  | Some suffix =>
    match strip_suffix suffix route_host with
    | Some p => ends_with "." p && (Nat.ltb 1 (String.length p))
    | None => false
    end
  | None => (listener =? route_host)%string
  end.

Definition listener_hosts (route_hostnames : list string) (listener : Listener) : list (string * bool) :=
  let is_https := eq_ignore_ascii_case (protocol listener) "HTTPS" in
  match hostname listener, route_hostnames with
  | Some lh, [] => if is_valid_hostname lh then [(lh, is_https)] else []
  | Some lh, _ =>
    if is_valid_hostname lh then (fun rh => (rh, is_https)) <$> filter (fun rh => host_matches lh rh = true) route_hostnames
    else []
  | None, [] => [(":default", is_https)]
  | None, _ => (fun rh => (rh, is_https)) <$> route_hostnames
  end.
Definition hosts_for (gw : Gateway) (route_hostnames : list string) : list (string * bool) :=
  listeners (gateway_spec gw) ≫= listener_hosts route_hostnames.

(** ** Accumulation *)
Record SiteAcc := mk_site_acc { https : bool; routes : list (RouteKey * string) }.
Definition site_default : SiteAcc := mk_site_acc false [].

Record Acc := mk_acc { sites : list (string * SiteAcc); upstreams : list (string * string) }.
Definition acc_empty : Acc := mk_acc [] [].

(** [sites.entry(host).or_default()], updated in place. *)
Definition update_site (host : string) (f : SiteAcc -> SiteAcc) (sites : list (string * SiteAcc)) :
    list (string * SiteAcc) :=
  btree_insert host (f (default site_default (btree_get host sites))) sites.

Definition place (up_name up_block : string) (route_lines : list (RouteKey * string)) (acc : Acc) (h : string * bool) : Acc :=
  let '(host, is_https) := h in
  mk_acc
    (update_site host (fun a => mk_site_acc (https a || is_https) (btree_collect route_lines (routes a))) (sites acc))
    (btree_insert up_name up_block (upstreams acc)).

Definition managed_classes (classes : list GatewayClass) (name : string) : list string :=
  omap (fun c => Crd.name (class_metadata c)) (filter (fun c => controller_name c = name) classes).

Definition managed_gateways (classes : list GatewayClass) (gateways : list Gateway) (name : string) :
    list ((string * string) * Gateway) :=
  let managed := managed_classes classes name in
  btree_collect
    (omap (fun g =>
       name ← Crd.name (gateway_metadata g);
       Some ((default "" (namespace (gateway_metadata g)), name), g))
     (filter (fun g => gateway_class_name (gateway_spec g) ∈ managed) gateways)) [].

Definition parents_of (managed : list ((string * string) * Gateway)) (route : HTTPRoute) : list Gateway :=
  let route_ns := default "" (namespace (route_metadata route)) in
  omap (fun p => btree_get (default route_ns (parent_namespace p), parent_name p) managed) (parent_refs (route_spec route)).

Definition add_rule (route : HTTPRoute) (parents : list Gateway) (acc : Acc) (rule_idx : nat) (rule : HTTPRouteRule) : Acc :=
  let route_ns := default "" (namespace (route_metadata route)) in
  let route_name := default "" (Crd.name (route_metadata route)) in
  match backend_refs rule with
  | [] => acc
  | _ =>
    let up_name := upstream_name route_ns route_name rule_idx in
    let up_block := upstream_block up_name rule route_ns in
    match rule_route_lines rule up_name with
    | [] => acc
    | route_lines =>
      foldl (fun acc gw => foldl (place up_name up_block route_lines) acc (hosts_for gw (hostnames (route_spec route))))
        acc parents
    end
  end.

Definition add_route (managed : list ((string * string) * Gateway)) (acc : Acc) (route : HTTPRoute) : Acc :=
  if negb (route_is_valid route) then acc
  else
    match parents_of managed route with
    | [] => acc
    | parents =>
      foldl (fun acc r => add_rule route parents acc r.1 r.2) acc (imap pair (rules (route_spec route)))
    end.

(** ** Rendering *)
Definition render_site (host : string) (acc : SiteAcc) : string :=
  match routes acc with
  | [] => ""
  | rs =>
    nl +:+ "site " +:+ host +:+ " {" +:+ nl +:+ (if https acc then "  tls auto" +:+ nl else "  tls off" +:+ nl)
    +:+ foldl (fun out r => out +:+ "  " +:+ snd r +:+ nl) "" rs +:+ "}" +:+ nl
  end.
Definition render (acc : Acc) : string :=
  let out := "# Generated by the pulsate-k8s Gateway API controller. Do not edit." +:+ nl in
  let out := foldl (fun out u => out +:+ nl +:+ snd u +:+ nl) out (upstreams acc) in
  foldl (fun out s => out +:+ render_site (fst s) (snd s)) out (sites acc).

Definition to_flow (classes : list GatewayClass) (gateways : list Gateway) (routes : list HTTPRoute) (controller_name : string)
    : string :=
  render (foldl (add_route (managed_gateways classes gateways controller_name)) acc_empty routes).
End Translate.

Module Controller.
Import Crd.

Definition CONTROLLER_NAME : string := "pulsate.io/gateway-controller".
Definition CONFIG_NAME : string := "k8s-gateway-api".
Definition FINALIZER : string := "gateway.pulsate.io/finalizer".

(** [error.rs]: [kube::Error] by its text. *)
Inductive Error := Kube (e : string) | Config (rendered : string) | Finalizer (e : string).

Fixpoint render_all {E} (source : Source) (diags : list Diagnostic) : exec E (list string) :=
  match diags with
  | [] => Ok []
  | d :: diags => r ← FlowSyntax.render d source; rs ← render_all source diags; Ok (r :: rs)
  end.
Definition from_diagnostics {E} (source : string) (diags : list Diagnostic) : exec E Error :=
  let src := source_new "k8s-gateway-api" source in
  rendered ← render_all src diags;
  Ok (Config (join nl rendered)).

(** [Action::requeue] in seconds, [Action::await_change]. *)
Inductive Action := Requeue (seconds : Z) | AwaitChange.
Definition REQUEUE : Z := 300.

Inductive FinalizerEvent := Apply (gw : Gateway) | Cleanup (gw : Gateway).

(** [leader.rs]: the guard, asked on every pass. *)
Class LeaderGuard (G : Type) := is_leader : G -> bool.
Inductive AlwaysLeader := always_leader.
#[export] Instance always_leader_guard : LeaderGuard AlwaysLeader := fun _ => true.

(** What the cluster answers to the calls of one pass; [Err] is a
    [kube::Error]. *)
Record Cluster := mk_cluster {
  list_classes : string + list GatewayClass;
  list_gateways : string + list Gateway;
  list_routes : string + list HTTPRoute;
  patch_status : string -> string -> Serde.Value -> string + ();
}.

Section Controller.
(** The compiler of [ConfigStore::reload]; [ResourceExt::name_any]; the clock as
    RFC 3339 text. *)
Variable compile : string -> Z -> exec (list Diagnostic) Compile.Compiled.
Variable name_any : ObjectMeta -> string.
Variable now : string.

(** An operation's result and the store it leaves. *)
Abbreviation result A := (exec Error A * Store.ConfigStore)%type.

Definition install (classes : list GatewayClass) (gateways : list Gateway) (routes : list HTTPRoute)
    (controller_name : string) (store : Store.ConfigStore) : result () :=
  let text := Translate.to_flow classes gateways routes controller_name in
  let '(r, store) := Store.reload compile text store in
  (match r with
   | Ok _ => Ok ()
   | Err diags => e ← from_diagnostics text diags; Err e
   | Panic => Panic
   | OutOfFuel => OutOfFuel
   end, store).

Section Context.
Context {G : Type} `{LeaderGuard G}.
Variable guard : G.
Variable controller_name : string.
Variable cluster : Cluster.

Definition excluded (exclude_gateway : option (string * string)) (g : Gateway) : bool :=
  match exclude_gateway with
  | Some (ns, name) => bool_decide (namespace (gateway_metadata g) = Some ns) && (name_any (gateway_metadata g) =? name)%string
  | None => false
  end.

Definition rebuild (exclude_gateway : option (string * string)) (store : Store.ConfigStore) : result () :=
  match list_classes cluster with
  | inl e => (Err (Kube e), store)
  | inr classes =>
    match list_gateways cluster with
    | inl e => (Err (Kube e), store)
    | inr gateways =>
      let gateways := filter (fun g => excluded exclude_gateway g = false) gateways in
      match list_routes cluster with
      | inl e => (Err (Kube e), store)
      | inr routes => install classes gateways routes controller_name store
      end
    end
  end.

(** The merge patch of [mark_accepted]. *)
Definition accepted_patch (gw : Gateway) : Serde.Value :=
  Serde.Obj [("status", Serde.Obj [("conditions", Serde.Arr [Serde.Obj
    [("type", Serde.Str "Accepted"); ("status", Serde.Str "True"); ("reason", Serde.Str "Reconciled");
     ("message", Serde.Str "Gateway reconciled into the Pulsate config");
     ("lastTransitionTime", Serde.Str now);
     ("observedGeneration", match generation (gateway_metadata gw) with Some n => Serde.Number (pretty n) | None => Serde.Null end)]])])].

Definition mark_accepted (gw : Gateway) : exec Error () :=
  match namespace (gateway_metadata gw) with
  | None => Ok ()
  | Some ns =>
    match patch_status cluster ns (name_any (gateway_metadata gw)) (accepted_patch gw) with
    | inl e => Err (Kube e)
    | inr _ => Ok ()
    end
  end.

Definition apply (gw : Gateway) (store : Store.ConfigStore) : result Action :=
  let '(r, store) := rebuild None store in
  (_ ← r; _ ← mark_accepted gw; Ok (Requeue REQUEUE), store).

Definition cleanup (gw : Gateway) (store : Store.ConfigStore) : result Action :=
  let ns := default "" (namespace (gateway_metadata gw)) in
  let '(r, store) := rebuild (Some (ns, name_any (gateway_metadata gw))) store in
  (_ ← r; Ok AwaitChange, store).

Definition handle_event (event : FinalizerEvent) (store : Store.ConfigStore) : result Action :=
  match event with Apply gw => apply gw store | Cleanup gw => cleanup gw store end.

(** [kube::runtime::finalizer]: it may patch the object's finalizers, and runs
    the closure on the event it decides on; its error is its text. *)
Variable finalizer : string -> string -> Gateway ->
  (FinalizerEvent -> Store.ConfigStore -> result Action) -> Store.ConfigStore -> exec string Action * Store.ConfigStore.

Definition reconcile (gw : Gateway) (store : Store.ConfigStore) : result Action :=
  if negb (is_leader guard) then (Ok (Requeue 30), store)
  else
    let ns := default "" (namespace (gateway_metadata gw)) in
    let '(r, store) := finalizer ns FINALIZER gw handle_event store in
    (match r with
     | Ok a => Ok a
     | Err e => Err (Finalizer e)
     | Panic => Panic
     | OutOfFuel => OutOfFuel
     end, store).
End Context.
End Controller.

Definition error_policy (err : Error) : Action := Requeue 15.

(** [ObjectRef::new(name).within(ns)], as its name and namespace. *)
Definition route_to_gateways (route : HTTPRoute) : list (string * string) :=
  let route_ns := default "" (namespace (route_metadata route)) in
  (fun p => (parent_name p, default route_ns (parent_namespace p))) <$> parent_refs (route_spec route).
End Controller.
