(* ===== verification/K8sProps.v ===== *)
(** * [pulsate-k8s]: the generated configuration

    The text [to_flow] renders is the printed form of a document that is
    determined by the set of placements the resources call for: it parses, and
    neither the order of a relist nor foreign resources change it. *)

From Stdlib Require Import ZArith Ascii String Lia.
From stdpp Require Import base option list strings.
From S2P Require Import Prelude RustStr CoreTypes FlowSyntax FlowLexer FlowParser FlowPrint BTree.
From S2P Require Import ConfigModel Config ConfigStore ConfigStoreProps Acme K8s.
Import Crd Translate.
Local Open Scope string_scope.
Local Open Scope list_scope.

(** ** What is safe inside an atom *)
Definition safe_byte (b : ascii) : Prop := atom_stop b = false /\ b <> "~"%char.
Definition safe (s : string) : Prop := Forall safe_byte (bytes_of s).
Definition head_byte (b : ascii) : Prop := is_cont b = false /\ b <> "$"%char.

Lemma safe_app s t : safe s -> safe t -> safe (s +:+ t).
Proof. unfold safe. intros. rewrite bytes_of_app. by apply Forall_app. Qed.

Lemma safe_atom c s : safe_byte c -> head_byte c -> safe s -> atom_ok (String c s).
Proof. intros Hc Hh Hs. split; [by constructor|exact Hh]. Qed.

(** The bytes of names: lower-case letters, digits and the marks that the
    controller itself writes. *)
Definition word_byte (b : ascii) : bool :=
  is_ascii_alphanumeric b || Ascii.eqb b "-" || Ascii.eqb b "_" || Ascii.eqb b "." || Ascii.eqb b "*".

Lemma word_safe b : word_byte b = true -> safe_byte b /\ head_byte b.
Proof. destruct b as [[] [] [] [] [] [] [] []]; vm_compute; intros; repeat split; congruence. Qed.

Lemma words_safe s : Forall (fun b => word_byte b = true) (bytes_of s) -> safe s.
Proof. intros H. eapply Forall_impl; [exact H|]. intros b Hb. by apply word_safe. Qed.

Lemma words_atom s : s <> "" -> Forall (fun b => word_byte b = true) (bytes_of s) -> atom_ok s.
Proof.
  destruct s as [|c s]; [done|]. intros _ H. apply Forall_cons in H as [Hc Hs].
  apply safe_atom; [by apply word_safe..|by apply words_safe].
Qed.

Lemma show_words z : Forall (fun b => word_byte b = true) (bytes_of (show_u z)).
Proof.
  assert (E : show_u z = show_u (Z.max 0 z)) by (unfold show_u; by replace (Z.to_N (Z.max 0 z)) with (Z.to_N z) by lia). rewrite E.
  eapply Forall_impl; [apply show_u_digits; lia|]. intros b Hb. cbn in Hb. unfold word_byte, is_ascii_alphanumeric.
  by rewrite Hb, orb_true_r.
Qed.

Lemma show_atom z : atom_ok (show_u z).
Proof. apply words_atom; [apply show_u_nonempty|apply show_words]. Qed.

(** *** Validation *)
Lemma label_words label : is_dns_label label = true -> label <> "" /\ Forall (fun b => word_byte b = true) (bytes_of label).
Proof.
  unfold is_dns_label. destruct label as [|c l]; [done|]. intros H. split; [done|].
  cbn [bytes_of list_ascii_of_string] in *. destruct (last _); [|done].
  apply andb_true_iff in H as [_ H]. rewrite forallb_forall in H. apply Forall_forall. intros b Hb%list_elem_of_In.
  apply H in Hb. unfold word_byte, is_ascii_alphanumeric, is_ascii_alphabetic.
  destruct (is_ascii_lowercase b), (is_ascii_digit b), (Ascii.eqb b "-"); rewrite ?orb_true_r; done.
Qed.

Lemma split_char_nonempty c s : split_char c s <> [].
Proof. induction s as [|a s IH]; [done|]. cbn. destruct (split_char c s); [done|]. by destruct (Ascii.eqb a c). Qed.

Lemma split_words c s : word_byte c = true ->
  Forall (fun w => Forall (fun b => word_byte b = true) (bytes_of w)) (split_char c s) ->
  Forall (fun b => word_byte b = true) (bytes_of s).
Proof.
  intros Hc. induction s as [|a s IH]; [by constructor|]. cbn [split_char].
  destruct (split_char c s) as [|w ws] eqn:E; [intros _; exfalso|].
  { by apply split_char_nonempty in E. }
  destruct (Ascii.eqb_spec a c) as [->|_]; intros H; constructor; try done.
  - apply IH. by apply Forall_cons in H as [_ H].
  - apply Forall_cons in H as [Ha _]. by apply Forall_cons in Ha as [? _].
  - apply IH. apply Forall_cons in H as [Ha Hws]. apply Forall_cons in Ha as [_ Ha]. by constructor.
Qed.

Lemma split_char_head c a s : a <> c -> exists w ws, split_char c (String a s) = String a w :: ws.
Proof.
  intros Ha. cbn [split_char]. destruct (split_char c s) as [|w ws] eqn:E; [by apply split_char_nonempty in E|].
  destruct (Ascii.eqb_spec a c); [done|]. by do 2 eexists.
Qed.

(** A name of labels is made of name bytes, and starts with a letter or a
    digit. *)
Lemma labels_words h : (if bool_decide (h = "") || negb (Nat.leb (String.length h) 253) then false
    else forallb is_dns_label (split_char "." h)) = true ->
  Forall (fun b => word_byte b = true) (bytes_of h) /\ exists c s, h = String c s /\ is_ascii_alphanumeric c = true.
Proof.
  intros H. destruct (bool_decide_reflect (h = "")) as [|Hne]; [done|]. cbn [orb] in H. destruct (negb _); [done|].
  rewrite forallb_forall in H. split.
  - apply (split_words "."); [done|]. apply Forall_forall. intros w Hin%list_elem_of_In. by apply label_words, H.
  - destruct h as [|c h]; [done|]. exists c, h. split; [done|]. destruct (decide (c = ".")%char) as [->|Hc].
    + cbn in H. destruct (split_char "." h) as [|w ws] eqn:E; [by apply split_char_nonempty in E|].
      specialize (H "" (or_introl eq_refl)). done.
    + destruct (split_char_head "." c h Hc) as (w & ws & E). rewrite E in H.
      specialize (H (String c w) (or_introl eq_refl)). unfold is_dns_label in H. cbn [bytes_of list_ascii_of_string] in H.
      destruct (last _); [|done]. by apply andb_true_iff in H as [[_ [H _]%andb_true_iff]%andb_true_iff _].
Qed.

Lemma hostname_words host : is_valid_hostname host = true ->
  Forall (fun b => word_byte b = true) (bytes_of host)
  /\ exists c s, host = String c s /\ (is_ascii_alphanumeric c = true \/ c = "*"%char).
Proof.
  unfold is_valid_hostname. destruct (strip_prefix "*." host) as [h|] eqn:E; cbn [default].
  - apply strip_prefix_Some in E as ->. intros [H _]%labels_words. rewrite bytes_of_app. split.
    + apply Forall_app. split; [repeat constructor|exact H].
    + rewrite append_cons. do 2 eexists. split; [done|by right].
  - intros (H & c & s & -> & Hc)%labels_words. eauto 10.
Qed.

Lemma hostname_atom host : is_valid_hostname host = true -> atom_ok host.
Proof. intros (H & c & s & -> & _)%hostname_words. by apply words_atom. Qed.

Lemma sanitize_words s : Forall (fun b => word_byte b = true) (bytes_of (sanitize s)).
Proof.
  unfold sanitize. rewrite bytes_of_str. apply Forall_fmap, Forall_true. intros c. unfold compose, sanitize_char.
  destruct (c <? 128)%Z; [|done]. cbn [andb]. destruct (is_ascii_alphanumeric (byte_of c)) eqn:E; [|done].
  revert E. destruct (byte_of c) as [[] [] [] [] [] [] [] []]; vm_compute; congruence.
Qed.

Lemma upstream_words ns r i : Forall (fun b => word_byte b = true) (bytes_of (upstream_name ns r i)).
Proof.
  unfold upstream_name. rewrite !bytes_of_app. repeat (apply Forall_app; split).
  all: try apply sanitize_words; try apply show_words. all: repeat constructor.
Qed.

Lemma upper_words m : is_valid_method m = true ->
  to_ascii_uppercase m <> "" /\ Forall (fun b => word_byte b = true) (bytes_of (to_ascii_uppercase m)).
Proof.
  unfold is_valid_method. intros [Hne H]%andb_true_iff. apply negb_true_iff, bool_decide_eq_false in Hne.
  split; [by destruct m|]. clear Hne. unfold to_ascii_uppercase. induction m as [|c m IH]; [by constructor|].
  cbn in H. apply andb_true_iff in H as [Hc H]. constructor; [|by apply IH]. clear -Hc. revert Hc.
  destruct c as [[] [] [] [] [] [] [] []]; vm_compute; congruence.
Qed.

(** Every ASCII byte of a string is one of its characters. *)
Lemma ascii_char s b : utf8_valid s = true -> b ∈ bytes_of s -> is_ascii b = true -> byte_val b ∈ chars s.
Proof.
  intros Hv Hb Ha. rewrite (utf8_valid_encode s Hv) in Hb. apply list_elem_of_bind in Hb as (c & Hb & Hc).
  pose proof (utf8_decode_scalar (bytes_of s)) as Hs. unfold chars in *.
  assert (Hsc : scalar c) by by eapply Forall_forall in Hs.
  destruct (Z.ltb_spec c 128) as [Hlt|Hge].
  - assert (Hr : (0 <= c < 256)%Z) by (unfold scalar in Hsc; lia).
    assert (E : encode1 c = [byte_of c]).
    { rewrite <-(byte_val_of c Hr) at 1. apply encode1_ascii. unfold is_ascii. rewrite byte_val_of by done. by apply Z.ltb_lt. }
    rewrite E in Hb. apply list_elem_of_singleton in Hb as ->. by rewrite byte_val_of.
  - pose proof (encode1_high c Hge Hsc) as Hh. eapply Forall_forall in Hh; [|exact Hb]. unfold is_ascii in Ha. lia.
Qed.

(** The characters that end an atom and that the check of paths lets through. *)
Definition unchecked : list ascii := bytes_of ";,[]=".

Lemma path_safe v : utf8_valid v = true -> is_valid_path_value v = true ->
  Forall (fun b => b ∉ unchecked) (bytes_of v) -> safe v /\ exists v', v = String "/" v'.
Proof.
  unfold is_valid_path_value. intros Hv [Hs Hu]%andb_true_iff Hf. split.
  - apply Forall_forall. intros b Hb. destruct (is_ascii b) eqn:Ha.
    + pose proof (ascii_char v b Hv Hb Ha) as Hc. apply negb_true_iff in Hu. unfold has_unsafe_char in Hu.
      assert (Hn : is_whitespace (byte_val b) || is_control (byte_val b)
        || existsb (fun u => (byte_val b =? byte_val u)%Z) unsafe_chars = false).
      { apply not_true_is_false. intros E. apply not_true_iff_false in Hu. apply Hu, existsb_exists.
        exists (byte_val b). split; [by apply list_elem_of_In|done]. }
      eapply Forall_forall in Hf; [|exact Hb].
      assert (Hd : forallb (fun u => negb (Ascii.eqb b u)) unchecked = true).
      { apply forallb_forall. intros u Hin%list_elem_of_In. destruct (Ascii.eqb_spec b u); [by subst|done]. }
      clear -Hn Hd. revert Hn Hd.
      destruct b as [[] [] [] [] [] [] [] []]; vm_compute; intros; split; congruence.
    + clear -Ha. revert Ha. destruct b as [[] [] [] [] [] [] [] []]; vm_compute; intros; split; congruence.
  - apply starts_with_spec in Hs as [r ->]. by exists r.
Qed.

Lemma trim_end_prefix p s : exists r, s = trim_end_matches p s +:+ r.
Proof.
  unfold trim_end_matches, drop_while_end.
  assert (H : forall l, exists r, reverse l = reverse (drop_while p l) ++ r).
  { clear. induction l as [|b l IH]; cbn [drop_while]; [by exists []|]. destruct (p b).
    - destruct IH as [r IH]. rewrite reverse_cons, IH. exists (r ++ [b]). by rewrite app_assoc.
    - by exists []; rewrite app_nil_r. }
  destruct (H (reverse (bytes_of s))) as [r Hr]. rewrite reverse_involutive in Hr. exists (str_of r). by rewrite <-str_of_app, <-Hr, str_of_bytes.
Qed.

Lemma path_atom v : safe v -> (exists v', v = String "/" v') -> atom_ok v.
Proof.
  intros Hs [v' ->]. apply Forall_cons in Hs as [Hc Hs]. apply safe_atom; [done|by vm_compute|done].
Qed.

Lemma glob_path v : safe v -> (exists v', v = String "/" v') ->
  safe (prefix_to_glob v) /\ exists v', prefix_to_glob v = String "/" v'.
Proof.
  intros Hs [v' Hv]. unfold prefix_to_glob. case_bool_decide as Ht.
  { split; [|by eexists]. by repeat (constructor; [by vm_compute|]). }
  destruct (trim_end_prefix (fun c => Ascii.eqb c "/") v) as [r Hr]. set (t := trim_end_matches _ v) in *.
  rewrite Hr in Hs. unfold safe in Hs. rewrite bytes_of_app in Hs. apply Forall_app in Hs as [Hs _]. split.
  - apply safe_app; [done|]. by repeat (constructor; [by vm_compute|]).
  - destruct t as [|c t]; [done|]. rewrite Hv, append_cons in Hr. injection Hr as <- _. rewrite append_cons. by eexists.
Qed.

(** ** Placements

    One entry for every host that a rule is placed on, in the order of the
    loops. *)
Record Placement := mk_entry {
  e_route : HTTPRoute;
  e_idx : nat;
  e_rule : HTTPRouteRule;
  e_host : string;
  e_https : bool;
}.

Definition route_ns (r : HTTPRoute) : string := default "" (namespace (route_metadata r)).
Definition route_name (r : HTTPRoute) : string := default "" (Crd.name (route_metadata r)).
Definition rule_name (r : HTTPRoute) (idx : nat) : string := upstream_name (route_ns r) (route_name r) idx.
Definition e_up (e : Placement) : string := rule_name (e_route e) (e_idx e).
Definition e_lines (e : Placement) : list (RouteKey * string) := rule_route_lines (e_rule e) (e_up e).

Definition put (acc : Acc) (e : Placement) : Acc :=
  place (e_up e) (upstream_block (e_up e) (e_rule e) (route_ns (e_route e))) (e_lines e) acc (e_host e, e_https e).

Definition rule_entries (route : HTTPRoute) (parents : list Gateway) (r : nat * HTTPRouteRule) : list Placement :=
  match backend_refs r.2 with
  | [] => []
  | _ => parents ≫= fun gw => (fun h => mk_entry route r.1 r.2 h.1 h.2) <$> hosts_for gw (hostnames (route_spec route))
  end.
Definition entries (managed : list ((string * string) * Gateway)) (route : HTTPRoute) : list Placement :=
  if route_is_valid route then imap pair (rules (route_spec route)) ≫= rule_entries route (parents_of managed route) else [].

Lemma foldl_bind {A B C} (f : C -> B -> C) (g : A -> list B) c (l : list A) :
  foldl f c (l ≫= g) = foldl (fun c a => foldl f c (g a)) c l.
Proof. revert c. induction l as [|a l IH]; intros c; [done|]. cbn. by rewrite foldl_app, IH. Qed.

Lemma foldl_map {A B C} (f : C -> B -> C) (g : A -> B) c (l : list A) :
  foldl f c (g <$> l) = foldl (fun c a => f c (g a)) c l.
Proof. revert c. induction l as [|a l IH]; intros c; [done|]. apply IH. Qed.

Lemma foldl_same {A C} (f g : C -> A -> C) c (l : list A) : (forall c a, f c a = g c a) -> foldl f c l = foldl g c l.
Proof. intros H. revert c. induction l as [|a l IH]; intros c; [done|]. cbn. by rewrite H, IH. Qed.

Lemma lines_nonempty rule up : rule_route_lines rule up <> [].
Proof. unfold rule_route_lines. by destruct (matches rule). Qed.

Lemma add_rule_entries route parents acc idx rule :
  add_rule route parents acc idx rule = foldl put acc (rule_entries route parents (idx, rule)).
Proof.
  unfold add_rule, rule_entries. cbn [fst snd]. destruct (backend_refs rule) as [|b bs] eqn:Eb; [done|].
  fold (route_ns route) (route_name route) (rule_name route idx).
  destruct (rule_route_lines rule (rule_name route idx)) as [|l ls] eqn:El; [by apply lines_nonempty in El|].
  rewrite foldl_bind. apply foldl_same. intros a gw. rewrite foldl_map. apply foldl_same. intros a' [host https].
  unfold put, e_lines, e_up. cbn [e_route e_idx e_rule e_host e_https fst snd]. by rewrite El.
Qed.

Lemma add_route_entries managed acc route : add_route managed acc route = foldl put acc (entries managed route).
Proof.
  unfold add_route, entries. destruct (route_is_valid route); [|done]. cbn [negb].
  assert (E : foldl (fun acc r => add_rule route (parents_of managed route) acc r.1 r.2) acc
      (imap pair (rules (route_spec route)))
    = foldl put acc (imap pair (rules (route_spec route)) ≫= rule_entries route (parents_of managed route))).
  { rewrite foldl_bind. apply foldl_same. intros a [i r]. apply add_rule_entries. }
  rewrite <-E. destruct (parents_of managed route) eqn:Ep; [|done].
  rewrite E. clear. induction (imap pair _) as [|[i r] l IH]; [done|]. rewrite bind_cons, foldl_app.
  replace (rule_entries route [] (i, r)) with (@nil Placement); [exact IH|]. unfold rule_entries. by destruct (backend_refs _).
Qed.

(** ** The document the placements determine *)
Definition hosts_of (es : list Placement) : list (string * ()) := btree_collect ((fun e => (e_host e, ())) <$> es) [].
Definition at_host (host : string) (es : list Placement) : list Placement := filter (fun e => e_host e = host) es.
Definition https_at (host : string) (es : list Placement) : bool := existsb e_https (at_host host es).
Definition routes_at (host : string) (es : list Placement) : list (RouteKey * string) :=
  btree_collect (at_host host es ≫= e_lines) [].
Definition upstream_entries (es : list Placement) : list (string * Placement) := btree_collect ((fun e => (e_up e, e)) <$> es) [].

Definition acc_of (es : list Placement) : Acc :=
  mk_acc (btree_map (fun host _ => mk_site_acc (https_at host es) (routes_at host es)) (hosts_of es))
    (btree_map (fun up e => upstream_block up (e_rule e) (route_ns (e_route e))) (upstream_entries es)).

Lemma ascending_map {K V W} {O : Ord K} (f : K -> V -> W) m : ascending m -> ascending (btree_map f m).
Proof.
  induction m as [|[k v] m IH]; [done|]. cbn. intros [Ha Hm]. split; [|by apply IH]. unfold above in *. by apply Forall_map.
Qed.

Lemma hosts_get es host : btree_get host (hosts_of es) = if decide (at_host host es = []) then None else Some ().
Proof.
  unfold hosts_of. rewrite get_collect by done. cbn [btree_get]. unfold last_with, at_host.
  assert (E : filter (fun x => x.1 = host) ((fun e => (e_host e, ())) <$> es)
    = (fun e => (e_host e, ())) <$> filter (fun e => e_host e = host) es).
  { induction es as [|e es IH]; [done|]. rewrite fmap_cons, !filter_cons, IH. cbn [fst]. by case_decide. }
  rewrite E, fmap_last. destruct (last (filter _ es)) eqn:El; cbn.
  - rewrite decide_False; [done|]. by intros Hn; rewrite Hn in El.
  - by rewrite decide_True by by apply last_None.
Qed.

Lemma at_host_snoc host es e : at_host host (es ++ [e]) = at_host host es ++ (if decide (e_host e = host) then [e] else []).
Proof. unfold at_host. rewrite filter_app, filter_cons, filter_nil. by case_decide. Qed.

Lemma collect_app {K V} {O : Ord K} (l l' : list (K * V)) m : btree_collect (l ++ l') m = btree_collect l' (btree_collect l m).
Proof. unfold btree_collect. by rewrite foldl_app. Qed.

Lemma routes_snoc host es e :
  routes_at host (es ++ [e]) = if decide (e_host e = host) then btree_collect (e_lines e) (routes_at host es) else routes_at host es.
Proof.
  unfold routes_at. rewrite at_host_snoc, bind_app, collect_app. case_decide; [|done].
  by rewrite bind_cons, app_nil_r.
Qed.

Lemma https_snoc host es e :
  https_at host (es ++ [e]) = if decide (e_host e = host) then https_at host es || e_https e else https_at host es.
Proof.
  unfold https_at. rewrite at_host_snoc, existsb_app. case_decide; cbn [existsb]; by rewrite ?orb_false_r.
Qed.

(** The two maps the loops build are the ones the placements determine. *)
Lemma put_spec es : foldl put acc_empty es = acc_of es.
Proof.
  induction es as [|e es IH] using rev_ind; [done|]. rewrite foldl_app, IH. cbn [foldl]. unfold put, place, acc_of. f_equal.
  - cbn [sites]. unfold update_site. rewrite btree_map_get, hosts_get.
    unfold hosts_of. rewrite fmap_app, collect_app. cbn [fmap list_fmap btree_collect foldl fst snd].
    fold (hosts_of es). apply ascending_ext.
    + apply ascending_insert, ascending_map, ascending_collect. done.
    + apply ascending_map, ascending_insert, ascending_collect. done.
    + intros host. rewrite get_insert by (apply ascending_map, ascending_collect; done).
      rewrite !btree_map_get, get_insert by (by apply ascending_collect).
      rewrite hosts_get, https_snoc, routes_snoc.
      destruct (decide (host = e_host e)) as [->|Hne]; 
        [|by rewrite !(decide_False (P := e_host e = host)) by congruence].
      rewrite !(decide_True (P := e_host e = e_host e)) by done. cbn [fmap option_fmap option_map]. do 2 f_equal;
        (case_decide as Ha; cbn [fmap option_fmap option_map default https routes site_default]; [|done];
         unfold https_at, routes_at; by rewrite Ha).
  - cbn [upstreams]. unfold upstream_entries. rewrite fmap_app, collect_app. cbn [fmap list_fmap btree_collect foldl fst snd].
    fold (upstream_entries es).
    apply (btree_map_insert (fun up e => upstream_block up (e_rule e) (route_ns (e_route e))) (e_up e) e).
Qed.

Definition all_entries (classes : list GatewayClass) (gateways : list Gateway) (routes : list HTTPRoute) (name : string) :
    list Placement := routes ≫= entries (managed_gateways classes gateways name).

Lemma to_flow_entries classes gateways routes name :
  to_flow classes gateways routes name = render (acc_of (all_entries classes gateways routes name)).
Proof.
  unfold to_flow, all_entries. rewrite <-put_spec, foldl_bind. f_equal. apply foldl_same. intros. apply add_route_entries.
Qed.

(** ** Rendering is printing *)
Definition target_stmt (ns : string) (b : HTTPBackendRef) : PStmt :=
  PDirective "target"
    (mk_parg None (PAtom ("http://" +:+ backend_name b +:+ "." +:+ default ns (backend_namespace b) +:+ ".svc:"
                          +:+ show_u (default DEFAULT_BACKEND_PORT (port b))))
     :: if (default 1%Z (weight b) =? 1)%Z then []
        else [mk_parg (Some "weight") (PAtom (show_u (default 1%Z (weight b))))]).
Definition upstream_stmt (name : string) (rule : HTTPRouteRule) (ns : string) : PStmt :=
  PBlock "upstream" [mk_parg None (PAtom name)] (target_stmt ns <$> backend_refs rule).
Definition route_stmt (key : RouteKey) : PStmt :=
  let '(rank, (_, (pattern, (method, up)))) := key in
  PRouteStmt (mk_proute (if (rank =? 0)%Z then MatchKind.Exact else MatchKind.Prefix) pattern
    (if bool_decide (method = "") then [] else [("method", method)]) "proxy" [mk_parg None (PAtom ("@" +:+ up))]).
Definition site_stmt (host : string) (https : bool) (keys : list RouteKey) : PStmt :=
  PBlock "site" [mk_parg None (PAtom host)]
    (PDirective "tls" [mk_parg None (PAtom (if https then "auto" else "off"))] :: (route_stmt <$> keys)).

(** The document of some placements. *)
Definition gateway_doc (es : list Placement) : list PStmt :=
  ((fun u => upstream_stmt u.1 (e_rule u.2) (route_ns (e_route u.2))) <$> upstream_entries es)
  ++ ((fun h => site_stmt h.1 (https_at h.1 es) (fst <$> routes_at h.1 es)) <$> hosts_of es).

Lemma target_text ns b : target_line ns b = "  " +:+ print_core "  " (target_stmt ns b) +:+ nl.
Proof.
  unfold target_line, target_stmt. cbn [print_core].
  destruct (default 1%Z (weight b) =? 1)%Z; cbn [print_args print_arg parg_name parg_value print_value]; by append_norm.
Qed.

Lemma upstream_text name rule ns : upstream_block name rule ns = print_core "" (upstream_stmt name rule ns).
Proof.
  unfold upstream_block, upstream_stmt. cbn [print_core print_args print_arg parg_name parg_value print_value].
  rewrite fold_text. unfold fmap. rewrite map_map.
  assert (E : map (target_line ns) (backend_refs rule)
    = map (fun x => ("" +:+ "  ") +:+ print_core ("" +:+ "  ") (target_stmt ns x) +:+ nl) (backend_refs rule)).
  { apply map_ext. intros b. by rewrite target_text. }
  rewrite E. by append_norm.
Qed.

(** The line of a route is its printed key. *)
Definition line_ok (r : RouteKey * string) : Prop := r.2 = print_core "  " (route_stmt r.1).

Lemma route_line_text kind pattern method up :
  match method with Some m => to_ascii_uppercase m <> "" | None => True end -> line_ok (route_line kind pattern method up).
Proof.
  intros Hm. unfold line_ok, route_line, route_stmt. destruct kind, method as [m|];
    cbn [fmap option_fmap option_map default fst snd print_core Z.eqb].
  all: try rewrite (bool_decide_eq_false_2 _ Hm). all: try rewrite bool_decide_eq_true_2 by done.
  all: unfold print_route, print_matcher, print_predicate; cbn [pr_kind pr_pattern pr_predicates pr_handler pr_args fmap list_fmap join
    print_arg parg_name parg_value print_value fst snd]; by append_norm.
Qed.

Definition placement_ok (e : Placement) : Prop := forallb match_is_valid (matches (e_rule e)) = true.

Lemma entry_lines_ok e : placement_ok e -> Forall line_ok (e_lines e).
Proof.
  unfold placement_ok, e_lines, rule_route_lines. destruct (matches (e_rule e)) as [|m ms].
  - intros _. constructor; [by apply route_line_text|constructor].
  - generalize (m :: ms). clear. intros ms H. rewrite forallb_forall in H. apply Forall_fmap, Forall_forall.
    intros m Hin%list_elem_of_In. apply H in Hin. unfold compose. destruct (match_pattern m). apply route_line_text.
    unfold match_is_valid in Hin. apply andb_true_iff in Hin as [_ Hm]. destruct (method m); [|done].
    by apply upper_words in Hm as [? _].
Qed.

Lemma collect_in {K V} {O : Ord K} {S : StrictOrd K} {D : EqDecision K} (l : list (K * V)) e :
  e ∈ btree_collect l [] -> e ∈ l.
Proof.
  destruct e as [k v]. intros H. apply get_in in H; [|by apply ascending_collect]. rewrite get_collect in H by done.
  destruct (last_with k l) eqn:E; [|done]. injection H as ->. by apply last_with_in.
Qed.

Lemma routes_at_in host es r : r ∈ routes_at host es -> exists e, e ∈ es /\ e_host e = host /\ r ∈ e_lines e.
Proof.
  intros (e & Hr & He)%collect_in%list_elem_of_bind. apply list_elem_of_filter in He as [? ?]. eauto.
Qed.

Lemma routes_at_nonempty host es : at_host host es <> [] -> routes_at host es <> [].
Proof.
  unfold routes_at. destruct (at_host host es) as [|e l]; [done|]. intros _. rewrite bind_cons.
  destruct (e_lines e) as [|[k v] ls] eqn:E; [by apply lines_nonempty in E|]. intros Hn.
  assert (Hk : is_Some (last_with k (((k, v) :: ls) ++ (l ≫= e_lines)))).
  { destruct (last_with _ _) eqn:El; [by eexists|]. apply (last_with_None _ v) in El. exfalso. apply El. by left. }
  destruct Hk as [v' Hk]. assert (Hg : btree_get k (btree_collect (((k, v) :: ls) ++ (l ≫= e_lines)) []) = Some v').
  { by rewrite get_collect, Hk. }
  by rewrite Hn in Hg.
Qed.

Lemma site_text host es : Forall placement_ok es -> at_host host es <> [] ->
  render_site host (mk_site_acc (https_at host es) (routes_at host es))
  = nl +:+ print_core "" (site_stmt host (https_at host es) (fst <$> routes_at host es)) +:+ nl.
Proof.
  intros Hok Hne%routes_at_nonempty. unfold render_site. cbn [routes https].
  destruct (routes_at host es) as [|r0 rs0] eqn:E; [done|]. rewrite <-E.
  rewrite fold_text.
  assert (Et : map (fun r => "  " +:+ snd r +:+ nl) (routes_at host es)
    = map (fun s => ("" +:+ "  ") +:+ print_core ("" +:+ "  ") s +:+ nl) (route_stmt <$> (fst <$> routes_at host es))).
  { unfold fmap. rewrite !map_map. apply map_ext_in. intros r Hr%list_elem_of_In. apply routes_at_in in Hr as (e & He & _ & Hr).
    eapply Forall_forall in Hok; [|exact He]. apply entry_lines_ok in Hok. eapply Forall_forall in Hok; [|exact Hr].
    by rewrite Hok. }
  rewrite Et. unfold site_stmt.
  cbn [print_core map sconcat print_args print_arg parg_name parg_value print_value].
  destruct (https_at host es); by append_norm.
Qed.

Lemma render_prints es : Forall placement_ok es ->
  render (acc_of es) = print_doc "# Generated by the pulsate-k8s Gateway API controller. Do not edit." nl (gateway_doc es).
Proof.
  intros Hok. unfold render, print_doc, print_stmts, gateway_doc. cbn [acc_of upstreams sites].
  rewrite !fold_text.
  unfold fmap. rewrite map_app, !map_map.
  assert (Eu : map (fun u => nl +:+ snd u +:+ nl)
      (btree_map (fun up e => upstream_block up (e_rule e) (route_ns (e_route e))) (upstream_entries es))
    = map (fun u => nl +:+ print_core "" (upstream_stmt u.1 (e_rule u.2) (route_ns (e_route u.2))) +:+ nl) (upstream_entries es)).
  { unfold btree_map. rewrite map_map. apply map_ext. intros u. cbn [snd]. by rewrite upstream_text. }
  assert (Es : map (fun s => render_site (fst s) (snd s))
      (btree_map (fun host _ => mk_site_acc (https_at host es) (routes_at host es)) (hosts_of es))
    = map (fun h => nl +:+ print_core "" (site_stmt h.1 (https_at h.1 es) (fst <$> routes_at h.1 es)) +:+ nl) (hosts_of es)).
  { unfold btree_map. rewrite map_map. apply map_ext_in. intros [h u] Hin%list_elem_of_In. cbn [fst snd].
    apply get_in in Hin; [|by apply ascending_collect]. rewrite hosts_get in Hin. case_decide; [done|]. by apply site_text. }
  rewrite Eu, Es, sconcat_app. unfold fmap. by append_norm.
Qed.

(** ** Which placements there are *)
Lemma entry_spec managed route e : e ∈ entries managed route <->
  e_route e = route /\ route_is_valid route = true /\ rules (route_spec route) !! e_idx e = Some (e_rule e)
  /\ backend_refs (e_rule e) <> []
  /\ exists gw, gw ∈ parents_of managed route /\ (e_host e, e_https e) ∈ hosts_for gw (hostnames (route_spec route)).
Proof.
  unfold entries. destruct (route_is_valid route); [|split; [by intros ?%elem_of_nil|naive_solver]].
  rewrite list_elem_of_bind. split.
  - intros ([i rule] & He & Hr). apply elem_of_lookup_imap in Hr as (j & y & [= -> ->] & Hr).
    unfold rule_entries in He. cbn [fst snd] in He. destruct (backend_refs y) eqn:Eb; [by apply elem_of_nil in He|].
    apply list_elem_of_bind in He as (gw & He & Hgw). apply list_elem_of_fmap in He as ([h0 s0] & -> & Hh). cbn.
    rewrite Eb. eauto 10.
  - intros (<- & _ & Hr & Hb & gw & Hgw & Hh). exists (e_idx e, e_rule e). split; [|apply elem_of_lookup_imap; eauto].
    unfold rule_entries. cbn [fst snd]. destruct (backend_refs (e_rule e)) eqn:Eb; [done|].
    apply list_elem_of_bind. exists gw. split; [|done]. apply list_elem_of_fmap. exists (e_host e, e_https e). by destruct e.
Qed.

Lemma hosts_for_in gw names host https : (host, https) ∈ hosts_for gw names ->
  host ∈ names \/ is_valid_hostname host = true \/ host = ":default".
Proof.
  unfold hosts_for. intros (l & Hin & _)%list_elem_of_bind. unfold listener_hosts in Hin.
  destruct (hostname l) as [lh|], names as [|n names].
  - destruct (is_valid_hostname lh) eqn:E; [|by apply elem_of_nil in Hin].
    apply list_elem_of_singleton in Hin as [= -> _]. by right; left.
  - destruct (is_valid_hostname lh) eqn:E; [|by apply elem_of_nil in Hin].
    apply list_elem_of_fmap in Hin as (rh & [= -> _] & Hin). apply list_elem_of_filter in Hin as [_ ?]. by left.
  - apply list_elem_of_singleton in Hin as [= -> _]. by right; right.
  - apply list_elem_of_fmap in Hin as (rh & [= -> _] & Hin). by left.
Qed.

(** Routes whose namespace is a name that Kubernetes accepts, and whose paths
    hold none of the characters that the check of paths lets through. *)
Definition plain_route (r : HTTPRoute) : Prop :=
  opt_ok is_dns_label (namespace (route_metadata r)) = true
  /\ Forall (fun rule => Forall (fun m => match path m with
       | Some p => utf8_valid (value p) = true /\ Forall (fun b => b ∉ unchecked) (bytes_of (value p))
       | None => True end) (matches rule)) (rules (route_spec r)).

(** What a placement of a plain route is made of. *)
Record entry_plain (e : Placement) : Prop := {
  plain_host : atom_ok (e_host e);
  plain_ns : Forall (fun b => word_byte b = true) (bytes_of (route_ns (e_route e)));
  plain_matches : Forall (fun m => match_is_valid m = true /\ match path m with
    | Some p => safe (value p) /\ exists v', value p = String "/" v' | None => True end) (matches (e_rule e));
  plain_backends : Forall (fun b => backend_is_valid b = true) (backend_refs (e_rule e));
}.

Lemma forallb_Forall {A} (p : A -> bool) l : forallb p l = true <-> Forall (fun a => p a = true) l.
Proof.
  rewrite forallb_forall, Forall_forall. split; intros H a Ha; apply H; by apply list_elem_of_In.
Qed.

Lemma entries_plain managed route e : plain_route route -> e ∈ entries managed route -> entry_plain e.
Proof.
  intros [Hns Hp] (Er & Hv & Hrule & _ & gw & _ & Hh)%entry_spec. unfold route_is_valid in Hv.
  apply andb_true_iff in Hv as [Hhosts Hrules]. apply forallb_Forall in Hhosts, Hrules.
  apply list_elem_of_lookup_2 in Hrule. eapply Forall_forall in Hrules; [|exact Hrule].
  eapply Forall_forall in Hp; [|exact Hrule].
  apply andb_true_iff in Hrules as [Hm Hb]. apply forallb_Forall in Hm, Hb. split; [| | |done].
  - apply hosts_for_in in Hh as [Hh|[Hh| ->]]; [|by apply hostname_atom|].
    + eapply Forall_forall in Hhosts; [|exact Hh]. by apply hostname_atom.
    + split; [|done]. by repeat (constructor; [by vm_compute|]).
  - rewrite Er. unfold route_ns. destruct (namespace _) as [ns|]; [|constructor]. by apply label_words in Hns as [_ ?].
  - apply Forall_forall. intros m Hin. eapply Forall_forall in Hm; [|exact Hin]. eapply Forall_forall in Hp; [|exact Hin].
    split; [done|]. unfold match_is_valid in Hm. destruct (path m) as [p|]; [|done]. destruct Hp as [Hu Hf].
    apply andb_true_iff in Hm as [Hm _]. by apply path_safe.
Qed.

(** ** Plain placements print *)
Lemma safe_lit s : forallb (fun b => negb (atom_stop b) && negb (Ascii.eqb b "~")) (bytes_of s) = true -> safe s.
Proof.
  rewrite forallb_Forall. intros H. eapply Forall_impl; [exact H|]. intros b Hb. cbn in Hb.
  apply andb_true_iff in Hb as [Ha Hb]. split; [by apply negb_true_iff|]. intros ->. done.
Qed.

Lemma target_printable e b : entry_plain e -> b ∈ backend_refs (e_rule e) -> printable (target_stmt (route_ns (e_route e)) b).
Proof.
  intros He Hin. pose proof (plain_backends _ He) as Hb. eapply Forall_forall in Hb; [|exact Hin].
  unfold backend_is_valid in Hb. apply andb_true_iff in Hb as [Hn Hns]. apply label_words in Hn as [_ Hn].
  assert (Hd : safe (default (route_ns (e_route e)) (backend_namespace b))).
  { destruct (backend_namespace b); apply words_safe; [by apply label_words in Hns as [_ ?]|apply (plain_ns _ He)]. }
  cbn [printable target_stmt]. split; [split; [by repeat (constructor; [by vm_compute|])|done]|]. split; [done|]. constructor.
  - split; [done|]. cbn [parg_value value_ok]. rewrite (append_cons "h"). apply safe_atom; [by vm_compute|by vm_compute|].
    repeat apply safe_app; try (by apply safe_lit); [by apply words_safe|done|apply words_safe, show_words].
  - case_match; constructor; [|constructor]. split; [|apply show_atom].
    cbn [parg_name]. split; [by repeat (constructor; [by vm_compute|])|done].
Qed.

Lemma route_line_printable kind pattern method up :
  atom_ok pattern -> match method with Some m => is_valid_method m = true | None => True end ->
  Forall (fun b => word_byte b = true) (bytes_of up) -> printable (route_stmt (route_line kind pattern method up).1).
Proof.
  intros Hp Hm Hu. unfold route_line, route_stmt.
  assert (Hpr : Forall (fun p => atom_ok p.1 /\ atom_ok p.2)
    (if bool_decide (default "" (to_ascii_uppercase <$> method) = "") then []
     else [("method", default "" (to_ascii_uppercase <$> method))])).
  { case_bool_decide as E; [constructor|]. destruct method as [m|]; [|done]. constructor; [|constructor].
    split; [split; [by repeat (constructor; [by vm_compute|])|done]|]. apply words_atom; [done|]. by apply upper_words in Hm as [_ ?]. }
  destruct kind; cbn [fst Z.eqb printable]; unfold route_printable; cbn [pr_kind pr_pattern pr_predicates pr_handler pr_args].
  all: split; [done|]; split; [done|]; split; [exact Hpr|];
    (split; [split; [by repeat (constructor; [by vm_compute|])|done]|]); constructor; [|constructor].
  all: split; [done|]; cbn [parg_value value_ok]; rewrite append_cons, append_nil_l; apply safe_atom;
    [by vm_compute|by vm_compute|by apply words_safe].
Qed.

Lemma entry_lines_printable e r : entry_plain e -> r ∈ e_lines e -> printable (route_stmt r.1).
Proof.
  intros He. unfold e_lines, rule_route_lines. pose proof (plain_matches _ He) as Hm.
  assert (Hall : atom_ok "/*") by (split; [by repeat (constructor; [by vm_compute|])|done]).
  destruct (matches (e_rule e)) as [|m0 ms].
  - intros ->%list_elem_of_singleton. apply route_line_printable; [done|done|]. apply upstream_words.
  - intros (m & -> & Hin)%list_elem_of_fmap. eapply Forall_forall in Hm; [|exact Hin]. destruct Hm as [Hv Hp].
    unfold match_is_valid in Hv. apply andb_true_iff in Hv as [_ Hv]. unfold match_pattern.
    destruct (path m) as [p|]; [destruct Hp as [Hs Hh]; destruct (eq_ignore_ascii_case _ _)|].
    all: apply route_line_printable; [|by destruct (method m)|apply upstream_words]; [|..].
    + by apply path_atom.
    + apply glob_path in Hh as [??]; [|done]. by apply path_atom.
    + done.
Qed.

Lemma doc_printable es : Forall entry_plain es -> all_printable (gateway_doc es).
Proof.
  intros Hes. unfold gateway_doc. apply all_printable_app. split; apply all_printable_forall.
  - intros s ([up e] & -> & Hin)%list_elem_of_fmap. apply collect_in, list_elem_of_fmap in Hin as (e' & [= -> ->] & Hin).
    eapply Forall_forall in Hes; [|exact Hin]. cbn [fst snd upstream_stmt printable].
    split; [split; [by repeat (constructor; [by vm_compute|])|done]|]. split; [done|]. split.
    + constructor; [|constructor]. split; [done|]. apply words_atom; [done|]. apply upstream_words.
    + apply all_printable_forall. intros s (b & -> & Hb)%list_elem_of_fmap. by apply target_printable.
  - intros s ([h u] & -> & Hin)%list_elem_of_fmap. apply collect_in, list_elem_of_fmap in Hin as (e & [= -> _] & Hin).
    cbn [fst site_stmt printable]. split; [split; [by repeat (constructor; [by vm_compute|])|done]|]. split; [done|]. split.
    + constructor; [|constructor]. split; [done|]. cbn. eapply Forall_forall in Hes; [|exact Hin]. apply (plain_host _ Hes).
    + cbn [fold_right]. split.
      * destruct (https_at _ _); (split; [split; [by repeat (constructor; [by vm_compute|])|done]|]; split; [done|];
          constructor; [|constructor]; split; [done|]; split; [by repeat (constructor; [by vm_compute|])|done]).
      * apply all_printable_forall. intros s (k & -> & Hk)%list_elem_of_fmap. apply list_elem_of_fmap in Hk as (r & -> & Hr).
        apply routes_at_in in Hr as (e' & He' & _ & Hr). eapply Forall_forall in Hes; [|exact He'].
        by apply (entry_lines_printable e').
Qed.

Lemma all_entries_plain classes gateways routes name :
  Forall plain_route routes -> Forall entry_plain (all_entries classes gateways routes name).
Proof.
  intros Hr. apply Forall_forall. intros e (route & He & Hin)%list_elem_of_bind.
  eapply Forall_forall in Hr; [|exact Hin]. by apply entries_plain in He.
Qed.

Lemma all_entries_ok classes gateways routes name : Forall placement_ok (all_entries classes gateways routes name).
Proof.
  apply Forall_forall. intros e (route & He & Hin)%list_elem_of_bind. apply entry_spec in He as (<- & Hv & Hr & _).
  unfold route_is_valid in Hv. apply andb_true_iff in Hv as [_ Hv]. rewrite forallb_Forall in Hv.
  apply list_elem_of_lookup_2 in Hr. eapply Forall_forall in Hv; [|exact Hr]. by apply andb_true_iff in Hv as [? _].
Qed.

(** The generated configuration is Flow.  However many resources there are
    and whatever their names, when the paths of the routes hold no mark of
    Flow's that the controller forgets to reject, the generated text parses,
    and its syntax tree is the document of the placements: an upstream for
    every rule that is placed, with its weighted targets, and for every host a
    site with its TLS posture and its routes in precedence order. *)
Theorem generated_reads debug_value classes gateways routes name (Hp : Forall plain_route routes) :
  exists ast, flow_parse debug_value (to_flow classes gateways routes name) = Ok ast
    /\ map erase_stmt (stmts ast) = map (stmt_tree debug_value) (gateway_doc (all_entries classes gateways routes name)).
Proof.
  rewrite to_flow_entries, render_prints by apply all_entries_ok.
  pose proof (doc_printable _ (all_entries_plain classes gateways routes name Hp)) as Hd.
  apply spelled_parse; [|exact Hd]. apply doc_spelled; [| |exact Hd].
  - by repeat (constructor; [by vm_compute|]).
  - by repeat constructor.
Qed.

(** ** What is published *)
Lemma routes_at_spec host es r : Forall placement_ok es ->
  r ∈ routes_at host es <-> exists e, e ∈ es /\ e_host e = host /\ r ∈ e_lines e.
Proof.
  intros Hok. split; [apply routes_at_in|]. intros (e & He & Hh & Hr). destruct r as [k line].
  apply get_in; [by apply ascending_collect|]. unfold routes_at. rewrite get_collect by done.
  assert (Hin : (k, line) ∈ at_host host es ≫= e_lines).
  { apply list_elem_of_bind. exists e. split; [done|]. by apply list_elem_of_filter. }
  assert (E : last_with k (at_host host es ≫= e_lines) = Some line); [|by rewrite E].
  apply last_with_functional; [|exact Hin]. intros k' v v' Hv Hv'.
  assert (Hl : forall w, (k', w) ∈ at_host host es ≫= e_lines -> w = print_core "  " (route_stmt k')).
  { intros w (e' & Hw & He')%list_elem_of_bind. apply list_elem_of_filter in He' as [_ He'].
    eapply Forall_forall in Hok; [|exact He']. apply entry_lines_ok in Hok. eapply Forall_forall in Hok; [|exact Hw]. exact Hok. }
  by rewrite (Hl v), (Hl v').
Qed.

Lemma lines_upstream e k line : (k, line) ∈ e_lines e -> k.2.2.2.2 = e_up e.
Proof.
  unfold e_lines, rule_route_lines. destruct (matches (e_rule e)) as [|m ms].
  - by intros [= -> _]%list_elem_of_singleton.
  - intros (m' & E & _)%list_elem_of_fmap. destruct (match_pattern m') as [[] pattern]; by injection E as -> _.
Qed.

(** A rule of a managed route that has backends, and a host it is placed on. *)
Definition placed (managed : list ((string * string) * Gateway)) (routes : list HTTPRoute) (host : string) (key : RouteKey) : Prop :=
  exists route idx rule gw https, route ∈ routes /\ route_is_valid route = true
    /\ rules (route_spec route) !! idx = Some rule /\ backend_refs rule <> []
    /\ gw ∈ parents_of managed route /\ (host, https) ∈ hosts_for gw (hostnames (route_spec route))
    /\ exists line, (key, line) ∈ rule_route_lines rule (rule_name route idx).

(** C26. The controller publishes what is attached.  A site has a route exactly
    when a valid [HTTPRoute] has a rule with backends for it and is attached to
    a managed gateway with a listener for the host; and the upstream the route
    forwards to is defined. *)
Theorem publishes_attached (managed : list ((string * string) * Gateway)) (routes : list HTTPRoute) (host : string) (key : RouteKey) :
  let acc := foldl (add_route managed) acc_empty routes in
  ((exists a line, btree_get host (sites acc) = Some a /\ (key, line) ∈ Translate.routes a) <-> placed managed routes host key)
  /\ (placed managed routes host key -> is_Some (btree_get key.2.2.2.2 (upstreams acc))).
Proof.
  intros acc. set (es := routes ≫= entries managed).
  assert (Hacc : acc = acc_of es).
  { unfold acc, es. rewrite <-put_spec, foldl_bind. apply foldl_same. intros. apply add_route_entries. }
  assert (Hok : Forall placement_ok es).
  { apply Forall_forall. intros e (route & He & _)%list_elem_of_bind. apply entry_spec in He as (<- & Hv & Hr & _).
    unfold route_is_valid in Hv. apply andb_true_iff in Hv as [_ Hv]. apply forallb_Forall in Hv.
    apply list_elem_of_lookup_2 in Hr. eapply Forall_forall in Hv; [|exact Hr]. by apply andb_true_iff in Hv as [? _]. }
  assert (Hpl : placed managed routes host key <-> exists e line, e ∈ es /\ e_host e = host /\ (key, line) ∈ e_lines e).
  { split.
    - intros (route & idx & rule & gw & https & Hin & Hv & Hr & Hb & Hgw & Hh & line & Hl).
      exists (mk_entry route idx rule host https), line. split; [|done]. apply list_elem_of_bind. exists route.
      split; [|done]. apply entry_spec. cbn. eauto 10.
    - intros (e & line & (route & He & Hin)%list_elem_of_bind & <- & Hl).
      apply entry_spec in He as (<- & Hv & Hr & Hb & gw & Hgw & Hh). unfold placed. eauto 15. }
  rewrite Hpl, Hacc. cbn [acc_of sites upstreams]. rewrite !btree_map_get, hosts_get. split; [split|].
  - intros (a & line & Ha & Hl). case_decide; [done|]. injection Ha as <-. cbn [Translate.routes] in Hl.
    apply routes_at_spec in Hl as (e & ? & ? & ?); [eauto|done].
  - intros (e & line & He & Hh & Hl). do 2 eexists. rewrite decide_False; [split; [done|]|].
    + cbn [Translate.routes]. apply routes_at_spec; [done|]. eauto.
    + intros Hn. assert (Hin : e ∈ at_host host es) by by apply list_elem_of_filter. rewrite Hn in Hin. by apply elem_of_nil in Hin.
  - intros (e & line & He & Hh & Hl). apply fmap_is_Some. rewrite (lines_upstream _ _ _ Hl).
    unfold upstream_entries. rewrite get_collect by done.
    destruct (last_with _ _) eqn:E; [by eexists|]. apply (last_with_None _ e) in E. exfalso. apply E.
    apply list_elem_of_fmap. by exists e.
Qed.

(** ** The order of a relist *)
Lemma btree_map_collect {K V W} {O : Ord K} (f : K -> V -> W) l m :
  btree_map f (btree_collect l m) = btree_collect ((fun e => (e.1, f e.1 e.2)) <$> l) (btree_map f m).
Proof.
  revert m. induction l as [|[k v] l IH]; intros m; [done|]. cbn [fmap list_fmap btree_collect foldl fst snd].
  rewrite btree_map_insert. apply IH.
Qed.

Lemma acc_of_order es es' : Forall placement_ok es -> (forall e, e ∈ es <-> e ∈ es') ->
  (forall e e', e ∈ es -> e' ∈ es -> e_up e = e_up e' -> e_route e = e_route e' /\ e_rule e = e_rule e') ->
  acc_of es = acc_of es'.
Proof.
  intros Hok He Hup.
  assert (Hok' : Forall placement_ok es') by (rewrite Forall_forall in Hok |- *; intros e Hin; by apply Hok, He).
  assert (Hat : forall h e, e ∈ at_host h es <-> e ∈ at_host h es').
  { intros h e. unfold at_host. by rewrite !list_elem_of_filter, He. }
  unfold acc_of. f_equal.
  - assert (Hh : hosts_of es = hosts_of es').
    { unfold hosts_of. apply collect_order; [by intros k [] []|]. intros [h []]. rewrite !list_elem_of_fmap. by setoid_rewrite He. }
    rewrite Hh. unfold btree_map. apply map_ext. intros [h []]. cbn [fst snd]. f_equal. f_equal.
    + unfold https_at. apply eq_iff_eq_true. rewrite !existsb_exists. setoid_rewrite <-list_elem_of_In. by setoid_rewrite Hat.
    + apply ascending_ext; [by apply ascending_collect..|]. intros k. apply option_eq. intros line.
      rewrite !get_in by by apply ascending_collect. rewrite !routes_at_spec by done. by setoid_rewrite He.
  - unfold upstream_entries. rewrite !btree_map_collect. cbn [btree_map map]. apply collect_order.
    + intros up b b' Hb Hb'. apply list_elem_of_fmap in Hb as ([? e] & [= -> ->] & Hb). apply list_elem_of_fmap in Hb' as ([? e'] & [= -> ->] & Hb').
      cbn [fst snd] in *. apply list_elem_of_fmap in Hb as (x & E & Hb). apply list_elem_of_fmap in Hb' as (y & E' & Hb').
      pose proof (f_equal snd E) as Ex. pose proof (f_equal snd E') as Ey. cbn [snd] in Ex, Ey. subst e e'.
      assert (Eu : e_up x = e_up y) by exact (eq_trans (eq_sym (f_equal fst E)) (f_equal fst E')).
      by destruct (Hup _ _ Hb Hb' Eu) as [-> ->].
    + intros x. rewrite !list_elem_of_fmap. setoid_rewrite list_elem_of_fmap. by setoid_rewrite He.
Qed.

Lemma managed_order classes classes' gateways gateways' name :
  (forall c, c ∈ classes <-> c ∈ classes') -> (forall g, g ∈ gateways <-> g ∈ gateways') ->
  (forall g g', g ∈ gateways -> g' ∈ gateways ->
     default "" (namespace (gateway_metadata g)) = default "" (namespace (gateway_metadata g')) ->
     Crd.name (gateway_metadata g) = Crd.name (gateway_metadata g') -> g = g') ->
  managed_gateways classes gateways name = managed_gateways classes' gateways' name.
Proof.
  intros Hc Hg Hu. unfold managed_gateways.
  assert (Hcls : forall n, n ∈ managed_classes classes name <-> n ∈ managed_classes classes' name).
  { intros n. unfold managed_classes. rewrite !list_elem_of_omap. setoid_rewrite list_elem_of_filter. by setoid_rewrite Hc. }
  assert (Hin : forall (cs : list string) (gs : list Gateway) k g, (k, g) ∈ omap (fun g => name ← Crd.name (gateway_metadata g);
      Some ((default "" (namespace (gateway_metadata g)), name), g)) (filter (fun g => gateway_class_name (gateway_spec g) ∈ cs) gs)
    <-> g ∈ gs /\ gateway_class_name (gateway_spec g) ∈ cs /\ k.1 = default "" (namespace (gateway_metadata g))
        /\ Crd.name (gateway_metadata g) = Some k.2).
  { intros cs gs [ns n] g. rewrite list_elem_of_omap. setoid_rewrite list_elem_of_filter. split.
    - intros (g' & [Hm Hin] & E). destruct (Crd.name (gateway_metadata g')) eqn:En; [|done]. cbn in E. injection E as <- <- <-. eauto.
    - cbn [fst snd]. intros (Hin & Hm & -> & En). exists g. rewrite En. eauto. }
  apply collect_order.
  - intros k g g' (H1 & _ & E1 & N1)%Hin (H2 & _ & E2 & N2)%Hin. apply Hu; congruence.
  - intros [k g]. rewrite !Hin, Hg, Hcls. done.
Qed.

(** A relist publishes the same text.  The API server may list classes,
    gateways and routes in any order: as long as the gateways have distinct
    names and no two rules get the same generated name, the controller renders
    the same bytes. *)
Theorem relist_order classes classes' gateways gateways' routes routes' name
    (Hc : classes ≡ₚ classes') (Hg : gateways ≡ₚ gateways') (Hr : routes ≡ₚ routes')
    (Hgu : forall g g', g ∈ gateways -> g' ∈ gateways ->
       default "" (namespace (gateway_metadata g)) = default "" (namespace (gateway_metadata g')) ->
       Crd.name (gateway_metadata g) = Crd.name (gateway_metadata g') -> g = g')
    (Hru : forall r r' i i', r ∈ routes -> r' ∈ routes -> i < length (rules (route_spec r)) -> i' < length (rules (route_spec r')) ->
       rule_name r i = rule_name r' i' -> r = r' /\ i = i') :
  to_flow classes gateways routes name = to_flow classes' gateways' routes' name.
Proof.
  rewrite !to_flow_entries. f_equal. pose proof (all_entries_ok classes gateways routes name) as Hok.
  unfold all_entries in *.
  assert (E : managed_gateways classes gateways name = managed_gateways classes' gateways' name).
  { apply managed_order; [intros x; by rewrite Hc|intros x; by rewrite Hg|exact Hgu]. }
  rewrite <-E. clear E. generalize dependent (managed_gateways classes gateways name). intros managed Hok.
  apply acc_of_order; [exact Hok| |].
  - intros e. rewrite !list_elem_of_bind. split; intros (r & He & Hin); exists r; (split; [exact He|]).
    + by rewrite <-Hr.
    + by rewrite Hr.
  - intros e e' (r & He & Hin)%list_elem_of_bind (r' & He' & Hin')%list_elem_of_bind Hup.
    apply entry_spec in He as (<- & _ & Hrl & _), He' as (<- & _ & Hrl' & _).
    destruct (Hru (e_route e) (e_route e') (e_idx e) (e_idx e')) as [Er Ei]; [done|done|by eapply lookup_lt_Some..|done|].
    split; [done|]. rewrite Er, Ei in Hrl. congruence.
Qed.

(** ** Reconciliation *)
Section Reconcile.
Variable compile : string -> Z -> exec (list Diagnostic) Compile.Compiled.
Variable name_any : ObjectMeta -> string.
Variable now : string.
Context {G : Type} `{Controller.LeaderGuard G}.
Variable guard : G.
Variables (controller : string) (cluster : Controller.Cluster).
Abbreviation handle_event := (Controller.handle_event compile name_any now controller cluster).

(** The gateway a pass leaves out. *)
Definition deleted (event : Controller.FinalizerEvent) : option (string * string) :=
  match event with
  | Controller.Apply _ => None
  | Controller.Cleanup gw => Some (default "" (namespace (gateway_metadata gw)), name_any (gateway_metadata gw))
  end.

(** A pass that publishes: the cluster was listed, and what is compiled is the
    text of its resources without the deleted gateway. *)
Definition publishes (event : Controller.FinalizerEvent) (s s' : Store.ConfigStore) : Prop :=
  exists classes gateways routes c,
    Controller.list_classes cluster = inr classes /\ Controller.list_gateways cluster = inr gateways
    /\ Controller.list_routes cluster = inr routes
    /\ compile (to_flow classes (filter (fun g => Controller.excluded name_any (deleted event) g = false) gateways) routes controller)
         (Store.next_generation s) = Ok c
    /\ Store.current s' = Store.generation_of c /\ Store.previous s' = Some (Store.current s).

Definition keeps (s s' : Store.ConfigStore) : Prop :=
  Store.current s' = Store.current s /\ Store.previous s' = Store.previous s.

Lemma install_spec classes gateways routes s :
  let '(r, s') := Controller.install compile classes gateways routes controller s in
  match r with
  | Ok _ => exists c, compile (to_flow classes gateways routes controller) (Store.next_generation s) = Ok c
      /\ Store.current s' = Store.generation_of c /\ Store.previous s' = Some (Store.current s)
  | _ => keeps s s'
  end.
Proof using compile controller.
  clear. unfold Controller.install. pose proof (reload_spec compile (to_flow classes gateways routes controller) s) as Hs.
  unfold Store.reload in *. destruct (compile _ _) as [c|d| |] eqn:E; cbn in *; [eauto| |done|done].
  destruct (Controller.from_diagnostics _ _) as [e| | |]; done.
Qed.

Lemma rebuild_spec exclude s :
  let '(r, s') := Controller.rebuild compile name_any controller cluster exclude s in
  match r with
  | Ok _ => exists classes gateways routes c,
      Controller.list_classes cluster = inr classes /\ Controller.list_gateways cluster = inr gateways
      /\ Controller.list_routes cluster = inr routes
      /\ compile (to_flow classes (filter (fun g => Controller.excluded name_any exclude g = false) gateways) routes controller)
           (Store.next_generation s) = Ok c
      /\ Store.current s' = Store.generation_of c /\ Store.previous s' = Some (Store.current s)
  | _ => keeps s s'
  end.
Proof using compile name_any controller cluster.
  unfold Controller.rebuild. destruct (Controller.list_classes cluster) as [e|classes] eqn:E1; [done|].
  destruct (Controller.list_gateways cluster) as [e|gateways] eqn:E2; [done|].
  destruct (Controller.list_routes cluster) as [e|routes] eqn:E3; [done|].
  pose proof (install_spec classes (filter (fun g => Controller.excluded name_any exclude g = false) gateways) routes s) as Hi.
  destruct (Controller.install _ _ _ _ _ s) as [[[]| | |] s']; [|done..]. destruct Hi as (c & ? & ? & ?). eauto 10.
Qed.

(** C33. A pass replaces the configuration or leaves it.  A replica that is not
    the leader changes nothing and asks again in thirty seconds.  On a pass of
    the leader, a call of the cluster that fails, or a text that does not
    compile, leaves the running and the previous generation as they were;
    otherwise what runs is the compiled text of the listed resources, without
    the gateway that is being deleted, and the generation it replaced is kept
    for rollback; the pass of a deletion then awaits the next change, and the
    other one marks the gateway accepted or reports why it could not. *)
Theorem pass_publishes (event : Controller.FinalizerEvent) (s : Store.ConfigStore) :
  (forall finalizer gw, Controller.is_leader guard = false ->
     Controller.reconcile compile name_any now guard controller cluster finalizer gw s = (Ok (Controller.Requeue 30), s))
  /\ let '(r, s') := handle_event event s in
     (keeps s s' /\ (forall a, r <> Ok a))
     \/ (publishes event s s'
         /\ match event with
            | Controller.Cleanup _ => r = Ok Controller.AwaitChange
            | Controller.Apply gw =>
              r = (_ ← Controller.mark_accepted name_any now cluster gw; Ok (Controller.Requeue Controller.REQUEUE))
            end)
  /\ forall g, deleted event = Some (default "" (namespace (gateway_metadata g)), name_any (gateway_metadata g)) ->
       is_Some (namespace (gateway_metadata g)) -> Controller.excluded name_any (deleted event) g = true.
Proof.
  split; [by unfold Controller.reconcile; intros finalizer gw ->|].
  assert (Hex : forall g, deleted event = Some (default "" (namespace (gateway_metadata g)), name_any (gateway_metadata g)) ->
       is_Some (namespace (gateway_metadata g)) -> Controller.excluded name_any (deleted event) g = true).
  { intros g -> [ns Hns]. unfold Controller.excluded. rewrite Hns, String.eqb_refl. by rewrite bool_decide_eq_true_2. }
  destruct event as [gw|gw]; cbn [Controller.handle_event]; unfold Controller.apply, Controller.cleanup.
  - pose proof (rebuild_spec None s) as Hr. destruct (Controller.rebuild _ _ _ _ _ s) as [[[]| | |] s'].
    + right. done.
    + by left.
    + by left.
    + by left.
  - pose proof (rebuild_spec (deleted (Controller.Cleanup gw)) s) as Hr. cbn [deleted] in Hr.
    destruct (Controller.rebuild _ _ _ _ _ s) as [[[]| | |] s'].
    + right. done.
    + by left.
    + by left.
    + by left.
Qed.
End Reconcile.

(** ** Concrete clusters *)
Definition meta (ns name : string) : ObjectMeta := mk_meta (Some name) (Some ns) None.
Definition demo_classes : list GatewayClass :=
  [mk_class (mk_meta (Some "pulsate") None None) Controller.CONTROLLER_NAME].
Definition k8s_gateway (ns name host proto : string) : Gateway :=
  mk_gateway (meta ns name) (mk_gateway_spec "pulsate" [mk_listener "l" (Some host) 443 proto]).
Definition demo_route (ns name gw host kind path : string) (method : option string) (svc : string) (weight : option Z) : HTTPRoute :=
  mk_http_route (meta ns name) (mk_route_spec [mk_parent gw None None] [host]
    [mk_rule [mk_match (Some (mk_path kind path)) method] [mk_backend svc None (Some 8080%Z) weight]]).
Definition demo_gateways : list Gateway := [k8s_gateway "default" "web" "*.example.com" "HTTPS"].
Definition demo_routes : list HTTPRoute :=
  [demo_route "default" "app" "web" "app.example.com" "PathPrefix" "/api/" None "api-svc" None;
   demo_route "default" "health" "web" "app.example.com" "Exact" "/healthz" (Some "get") "health" (Some 3%Z)].

Example demo_text : to_flow demo_classes demo_gateways demo_routes Controller.CONTROLLER_NAME =
  join nl ["# Generated by the pulsate-k8s Gateway API controller. Do not edit."; "";
    "upstream up_default_app_0 {"; "  target http://api-svc.default.svc:8080"; "}"; "";
    "upstream up_default_health_0 {"; "  target http://health.default.svc:8080 weight=3"; "}"; "";
    "site app.example.com {"; "  tls auto"; "  route = /healthz [method=GET] ~> proxy(@up_default_health_0)";
    "  route /api/* ~> proxy(@up_default_app_0)"; "}"; ""].
Proof. vm_compute. reflexivity. Qed.

Lemma demo_plain : Forall plain_route demo_routes.
Proof.
  assert (H : forall v, forallb (fun b => bool_decide (b ∉ unchecked)) (bytes_of v) = true -> Forall (fun b => b ∉ unchecked) (bytes_of v)).
  { intros v Hv. rewrite forallb_Forall in Hv. eapply Forall_impl; [exact Hv|]. intros b Hb. by apply bool_decide_eq_true in Hb. }
  assert (Hd : forall ns name gw host kind path method svc w,
    is_dns_label ns && utf8_valid path && forallb (fun b => bool_decide (b ∉ unchecked)) (bytes_of path) = true ->
    plain_route (demo_route ns name gw host kind path method svc w)).
  { intros * [[Hns Hu]%andb_true_iff Hb]%andb_true_iff. split; [exact Hns|]. apply Forall_singleton, Forall_singleton.
    cbn. split; [exact Hu|by apply H]. }
  apply Forall_cons_2; [|apply Forall_singleton]; apply Hd; vm_compute; reflexivity.
Qed.

Lemma generated_reads_witness :
  exists ast, flow_parse (fun _ => "") (to_flow demo_classes demo_gateways demo_routes Controller.CONTROLLER_NAME) = Ok ast
    /\ length (stmts ast) = 3.
Proof.
  destruct (generated_reads (fun _ => "") demo_classes demo_gateways demo_routes Controller.CONTROLLER_NAME demo_plain) as (ast & E & Ht).
  exists ast. split; [exact E|]. apply (f_equal length) in Ht. rewrite !length_map in Ht. rewrite Ht. vm_compute. reflexivity.
Defined.

Lemma relist_order_witness :
  to_flow demo_classes demo_gateways demo_routes Controller.CONTROLLER_NAME
  = to_flow demo_classes demo_gateways (reverse demo_routes) Controller.CONTROLLER_NAME.
Proof.
  apply (relist_order demo_classes demo_classes demo_gateways demo_gateways demo_routes (reverse demo_routes) Controller.CONTROLLER_NAME);
    [done|done|symmetry; apply reverse_Permutation| |].
  - intros g g' ->%list_elem_of_singleton ->%list_elem_of_singleton. done.
  - intros r r' i i' Hr Hr' Hi Hi' E.
    repeat (apply elem_of_cons in Hr as [->|Hr]); try (by apply elem_of_nil in Hr).
    all: repeat (apply elem_of_cons in Hr' as [->|Hr']); try (by apply elem_of_nil in Hr').
    all: cbn in Hi, Hi'; assert (i = 0) as -> by lia; assert (i' = 0) as -> by lia; try done.
    all: vm_compute in E; discriminate.
Defined.

(** ** What the check of paths forgets *)

(** A path with [=], [,], [[], []] or [;] passes the validation that is to keep
    tenants from breaking the generated text; the text then does not parse, and
    no route of any tenant is published. *)
Lemma unchecked_path_blocks_reload :
  let bad := demo_route "evil" "r" "web" "x.example.com" "Exact" "/a=b" None "svc" None in
  let bad := mk_http_route (route_metadata bad)
    (mk_route_spec [mk_parent "web" (Some "default") None] (hostnames (route_spec bad)) (rules (route_spec bad))) in
  route_is_valid bad = true
  /\ match flow_parse (fun _ => "") (to_flow demo_classes demo_gateways (demo_routes ++ [bad]) Controller.CONTROLLER_NAME) with
     | Err d => diag_severity d = Error
     | _ => False
     end.
Proof. vm_compute. split; reflexivity. Qed.

(** Two routes of different namespaces can be given one upstream name; the later
    one's backends serve both. *)
Lemma upstream_names_collide :
  upstream_name "a-b" "c" 0 = upstream_name "a" "b-c" 0
  /\ let r1 := demo_route "a-b" "c" "web" "one.example.com" "Exact" "/" None "svc1" None in
     let r2 := demo_route "a" "b-c" "web" "two.example.com" "Exact" "/" None "svc2" None in
     let gws := [k8s_gateway "a" "web" "*.example.com" "HTTP"; k8s_gateway "a-b" "web" "*.example.com" "HTTP"] in
     let acc := foldl (add_route (managed_gateways demo_classes gws Controller.CONTROLLER_NAME)) acc_empty [r1; r2] in
     length (sites acc) = 2
     /\ upstreams acc = [("up_a_b_c_0", upstream_block "up_a_b_c_0" (mk_rule [] [mk_backend "svc2" None (Some 8080%Z) None]) "a")].
Proof. vm_compute. repeat split. Qed.
