(* ===== verification/K8sServe.v ===== *)
(** * From Gateway API resources to the routing table

    What [pulsate-k8s] publishes is a text; the compiler turns it into the
    configuration that the resources call for, and the data plane built from
    it routes every request to the backends of a rule that is placed on its
    host. *)

From Stdlib Require Import ZArith Ascii String Lia.
From stdpp Require Import base option list gmap strings.
From S2P Require Import Prelude RustStr CoreTypes UtilParse FlowSyntax FlowAtoms FlowLexer FlowParser FlowPrint BTree Pipeline Router RouterProps Proxy Serve ConfigModel Config ConfigProps ConfigLayout DocConfig ConfigStore ConfigRouter ConfigRouterProps EndToEnd Acme K8s K8sProps.
Import Crd Translate Model Build.
Local Open Scope string_scope.
Local Open Scope list_scope.
Local Open Scope Z_scope.

(** ** The types of the generated atoms *)
Lemma words_no_secret s : Forall (fun b => word_byte b = true) (bytes_of s) -> strip_prefix "secret://" s = None.
Proof.
  intros H. destruct (strip_prefix "secret://" s) as [r|] eqn:E; [|done]. apply strip_prefix_Some in E as ->.
  rewrite bytes_of_app in H. apply Forall_app in H as [H _].
  eapply Forall_forall in H; [|do 6 right; by left]. done.
Qed.

Lemma alnum_wordy c : is_ascii_digit c = false -> is_ascii_alphanumeric c = true \/ c = "*"%char ->
  wordy c /\ c <> "@"%char.
Proof. intros Hd [H| ->]; [|done]. repeat split; try done; by intros ->. Qed.

(** A host that starts with no digit and is no switch is read as a string. *)
Lemma type_atom_host h : is_valid_hostname h = true \/ h = ":default" ->
  match h with String c _ => is_ascii_digit c = false | "" => True end -> h ∉ switch_words -> type_atom h = VStr h.
Proof.
  intros [(Hw & c & s & -> & Hc)%hostname_words| ->] Hd Hn; [|done].
  destruct (alnum_wordy c Hd Hc) as [??]. apply type_atom_wordy; [done|done| |done]. by apply words_no_secret.
Qed.

Lemma type_atom_upstream ns r i : type_atom (upstream_name ns r i) = VStr (upstream_name ns r i).
Proof.
  pose proof (upstream_words ns r i) as Hw. unfold upstream_name in *. rewrite append_cons in *.
  apply type_atom_wordy; [done|done|by apply words_no_secret|].
  rewrite append_cons. intros H. repeat (apply elem_of_cons in H as [H|H]; [done|]). by apply elem_of_nil in H.
Qed.

Lemma type_atom_url rest : type_atom ("http://" +:+ rest) = VStr ("http://" +:+ rest).
Proof.
  rewrite append_cons. apply type_atom_wordy; [done|done| |].
  - cbn [strip_prefix]. done.
  - intros H. repeat (apply elem_of_cons in H as [H|H]; [done|]). by apply elem_of_nil in H.
Qed.

Definition is_upper (b : ascii) : bool := in_range 65 90 (byte_val b).
Lemma upper_method m : is_valid_method m = true -> Forall (fun b => is_upper b = true) (bytes_of (to_ascii_uppercase m)).
Proof.
  unfold is_valid_method. intros [_ H]%andb_true_iff. unfold to_ascii_uppercase. induction m as [|c m IH]; [by constructor|].
  cbn in H. apply andb_true_iff in H as [Hc H]. constructor; [|by apply IH]. clear -Hc. revert Hc.
  destruct c as [[] [] [] [] [] [] [] []]; vm_compute; congruence.
Qed.

Lemma uppercase_id m : Forall (fun b => is_upper b = true) (bytes_of m) -> to_ascii_uppercase m = m.
Proof.
  unfold to_ascii_uppercase. induction m as [|c m IH]; [done|]. intros H. apply Forall_cons in H as [Hc H].
  change (String (to_upper1 c) (map_str to_upper1 m) = String c m). rewrite (IH H). f_equal. revert Hc.
  destruct c as [[] [] [] [] [] [] [] []]; vm_compute; congruence.
Qed.

Lemma type_atom_upper m : m <> "" -> Forall (fun b => is_upper b = true) (bytes_of m) -> type_atom m = VStr m.
Proof.
  destruct m as [|c s]; [done|]. intros _ H.
  assert (Hw : Forall (fun b => word_byte b = true) (bytes_of (String c s))).
  { eapply Forall_impl; [exact H|]. intros b. destruct b as [[] [] [] [] [] [] [] []]; vm_compute; congruence. }
  pose proof H as Hu. apply Forall_cons in H as [Hc _]. assert (Hcc : wordy c /\ c <> "@"%char).
  { apply alnum_wordy; [|left]; revert Hc; destruct c as [[] [] [] [] [] [] [] []]; vm_compute; congruence. }
  apply type_atom_wordy; [by apply Hcc..|by apply words_no_secret|].
  intros Hs. repeat (apply elem_of_cons in Hs as [Hs|Hs]; [rewrite Hs in Hu; apply Forall_cons in Hu as [Hu _]; done|]). by apply elem_of_nil in Hs.
Qed.

(** ** What the compiler reads in the generated statements *)
Definition weight_ok (b : HTTPBackendRef) : Prop := 0 <= default 1 (weight b) <= u32_max.

(** A backend as a target of the pool. *)
Definition backend_url (ns : string) (b : HTTPBackendRef) : string :=
  "http://" +:+ backend_name b +:+ "." +:+ default ns (backend_namespace b) +:+ ".svc:"
    +:+ show_u (default DEFAULT_BACKEND_PORT (port b)).
Definition backend_target (ns : string) (b : HTTPBackendRef) : Target := mk_target (backend_url ns b) (default 1 (weight b)).

(** The arguments of its directive. *)
Definition backend_args (ns : string) (b : HTTPBackendRef) : list PArg :=
  word_arg (backend_url ns b)
  :: if default 1 (weight b) =? 1 then [] else [mk_parg (Some "weight") (PAtom (show_u (default 1 (weight b))))].

Lemma backend_reads env ns b : weight_ok b -> read_target env (backend_args ns b) = Some (backend_target ns b).
Proof.
  intros Hw. unfold read_target.
  replace (first_positional (arg_tree <$> backend_args ns b)) with (Some (type_atom (backend_url ns b))) by done.
  cbn [mbind option_bind]. rewrite resolve_word. unfold read_word, backend_url. rewrite type_atom_url. cbn [mbind option_bind].
  fold (backend_url ns b). unfold backend_target. do 2 f_equal. unfold Compile.target_weight.
  assert (E : named_value (arg_tree <$> backend_args ns b) "weight"
    = if default 1 (weight b) =? 1 then None else Some (VInt (default 1 (weight b)))).
  { unfold backend_args. destruct (default 1 (weight b) =? 1); [done|]. cbn. by rewrite type_atom_show. }
  rewrite E. destruct (Z.eqb_spec (default 1 (weight b)) 1) as [->|_]; [done|].
  unfold try_from_u. destruct (Z.leb_spec 0 (default 1 (weight b))), (Z.leb_spec (default 1 (weight b)) u32_max);
    unfold weight_ok in Hw; first [done|lia].
Qed.

(** A pool of backends. *)
Record published_upstream (u : string * Placement) (d : UpstreamDef) : Prop := {
  pub_name : ud_name d = u.1;
  pub_targets : ud_targets d = backend_target (route_ns (e_route u.2)) <$> backend_refs (e_rule u.2);
  pub_policy : ud_policy d = "round_robin";
  pub_retry : ud_retry d = None;
  pub_breaker : ud_breaker d = None;
}.

(** *** Routes and sites *)
Definition key_kind (key : RouteKey) : MatchKind.MatchKind := if key.1 =? 0 then MatchKind.Exact else MatchKind.Prefix.
Definition key_pattern (key : RouteKey) : string := key.2.2.1.
Definition key_method (key : RouteKey) : option string := if decide (key.2.2.2.1 = "") then None else Some key.2.2.2.1.
Definition key_upstream (key : RouteKey) : string := key.2.2.2.2.

Definition key_proute (key : RouteKey) : PRoute :=
  mk_proute (key_kind key) (key_pattern key)
    (if bool_decide (key.2.2.2.1 = "") then [] else [("method", key.2.2.2.1)]) "proxy" [word_arg ("@" +:+ key_upstream key)].
Lemma route_stmt_key key : route_stmt key = PRouteStmt (key_proute key).
Proof. by destruct key as [rank [len [pattern [method up]]]]. Qed.

Record published_route (key : RouteKey) (rd : RouteDef) : Prop := {
  pub_kind : rd_kind rd = key_kind key;
  pub_pattern : rd_pattern rd = key_pattern key;
  pub_method : rd_method rd = key_method key;
  pub_specs : mw_specs rd = [];
  pub_handler : rd_handler rd = Some (HProxy (Some (key_upstream key)) None);
  pub_refs : forall n, n ∈ ref_name <$> refs rd -> n = key_upstream key;
}.

Record published_site (host : string) (https : bool) (keys : list RouteKey) (st : Site) : Prop := {
  pub_hosts : host_pattern <$> site_hosts st = [host];
  pub_tls : tls st = if https then TlsAuto else TlsOff;
  pub_routes : Forall2 published_route keys (site_routes st);
}.

Definition upper (s : string) : Prop := Forall (fun b => is_upper b = true) (bytes_of s).

Section Reading.
Variable debug_value : Value -> string.
Abbreviation tree := (map (stmt_tree debug_value)).

Lemma key_described key rd : upper key.2.2.2.1 -> described_route debug_value (key_proute key) rd -> published_route key rd.
Proof.
  intros Hm [D1 D2 D3 D4 D5 D6]. split; [done|done| |done| |].
  - rewrite D3. unfold key_method. cbn [key_proute pr_predicates]. destruct (decide (key.2.2.2.1 = "")) as [->|Hne]; [done|].
    rewrite bool_decide_eq_false_2 by done. cbn. rewrite type_atom_upper by done. cbn [value_to_lexeme].
    unfold compose. cbn. by rewrite uppercase_id.
  - rewrite D5. unfold read_handler, Compile.build_handler. cbn. by rewrite type_atom_ref.
  - intros n Hn. apply D6 in Hn. unfold step_refs in Hn. cbn in Hn. rewrite type_atom_ref in Hn. cbn in Hn. set_solver.
Qed.

Definition site_body (https : bool) (keys : list RouteKey) : list PStmt :=
  PDirective "tls" [word_arg (if https then "auto" else "off")] :: (route_stmt <$> keys).

Lemma site_body_routes https keys : doc_routes (site_body https keys) = key_proute <$> keys.
Proof. unfold site_body, doc_routes. cbn [omap list_omap]. induction keys as [|key keys IH]; [done|]. cbn. rewrite route_stmt_key. by rewrite IH. Qed.

Lemma site_body_tls https keys : site_tls (tree (site_body https keys)) = if https then TlsAuto else TlsOff.
Proof.
  unfold site_tls, site_body. cbn [map foldl].
  assert (G : forall t, foldl tls_stmt t (tree (route_stmt <$> keys)) = t).
  { induction keys as [|key keys IH]; intros t; [done|]. cbn. rewrite route_stmt_key. apply IH. }
  rewrite G. by destruct https.
Qed.

Lemma keys_handlers (keys : list RouteKey) : Forall (fun r => pr_handler r ∈ Compile.HANDLERS) (key_proute <$> keys).
Proof. apply Forall_fmap, Forall_true. intros key. apply has_spec. done. Qed.

Lemma site_published host https keys st : read_word host = Some host -> Forall (fun key : RouteKey => upper key.2.2.2.1) keys ->
  lowered_site (at_zero "site", arg_tree <$> (word_arg <$> [host]), tree (site_body https keys)) st -> published_site host https keys st.
Proof.
  intros Hh Hk Hst. destruct (tree_site debug_value [host] (site_body https keys) _ st (site_body_routes https keys) (keys_handlers keys) Hst) as [D1 D2 D3].
  split.
  - rewrite D1. cbn. by rewrite Hh.
  - by rewrite D2, site_body_tls.
  - rewrite Forall2_fmap_l in D3. revert D3. generalize (site_routes st). clear -Hk.
    induction Hk as [|key keys Hm _ IH]; intros rds Hd; [apply Forall2_nil_inv_l in Hd as ->; constructor|].
    apply Forall2_cons_inv_l in Hd as (rd & rds' & Hrd & Hd & ->). constructor; [by apply key_described|by apply IH].
Qed.

(** ** The configuration of the placements *)
Definition weighted (e : Placement) : Prop := Forall weight_ok (backend_refs (e_rule e)).
Definition typed_host (e : Placement) : Prop := type_atom (e_host e) = VStr (e_host e).

Definition published (es : list Placement) (c : Config) : Prop :=
  Forall2 published_upstream (upstream_entries es) (upstreams c)
  /\ Forall2 (fun h st => published_site h.1 (https_at h.1 es) (fst <$> routes_at h.1 es) st) (hosts_of es) (sites c).

Lemma lines_upper e r : entry_plain e -> r ∈ e_lines e -> upper r.1.2.2.2.1.
Proof.
  intros He. unfold e_lines, rule_route_lines. pose proof (plain_matches _ He) as Hm.
  destruct (matches (e_rule e)) as [|m0 ms].
  - intros ->%list_elem_of_singleton. constructor.
  - intros (m & -> & Hin)%list_elem_of_fmap. eapply Forall_forall in Hm; [|exact Hin]. destruct Hm as [Hv _].
    unfold match_is_valid in Hv. apply andb_true_iff in Hv as [_ Hv]. destruct (match_pattern m) as [[] pat]; cbn.
    all: destruct (method m) as [x|]; [by apply upper_method|constructor].
Qed.

Lemma upstream_entry u es : u ∈ upstream_entries es -> u.1 = e_up u.2 /\ u.2 ∈ es.
Proof. intros (e & -> & He)%collect_in%list_elem_of_fmap. done. Qed.

Lemma entry_upstream e es : e ∈ es -> exists e', (e_up e, e') ∈ upstream_entries es.
Proof.
  intros He. assert (Hg : is_Some (btree_get (e_up e) (upstream_entries es))).
  { unfold upstream_entries. rewrite get_collect by done. destruct (last_with _ _) eqn:El; [by eexists|].
    apply (last_with_None _ e) in El. exfalso. apply El. apply list_elem_of_fmap. by exists e. }
  destruct Hg as [e' Hg]. exists e'. apply get_in; [by apply ascending_collect|done].
Qed.

Lemma host_entry h es : h ∈ hosts_of es -> exists e, e ∈ es /\ e_host e = h.1.
Proof. intros (e & -> & He)%collect_in%list_elem_of_fmap. by exists e. Qed.

Lemma entry_hosted e es host : e ∈ es -> e_host e = host -> (host, ()) ∈ hosts_of es.
Proof.
  intros He Hh. apply get_in; [by apply ascending_collect|]. rewrite hosts_get, decide_False; [done|]. intros En.
  assert (Hat : e ∈ at_host host es) by by apply list_elem_of_filter. rewrite En in Hat. by apply elem_of_nil in Hat.
Qed.

Lemma ascending_NoDup {K V} {O : Ord K} {S : StrictOrd K} (m : list (K * V)) : ascending m -> NoDup (fst <$> m).
Proof.
  induction m as [|[k v] m IH]; [constructor|]. intros [Ha Hm]. cbn. constructor; [|by apply IH].
  intros ([k' v'] & -> & Hin)%list_elem_of_fmap. eapply Forall_forall in Ha; [|exact Hin]. cbn in Ha. by rewrite ltb_irrefl in Ha.
Qed.

Lemma Forall2_names {A B C} (P : A -> B -> Prop) (f : A -> C) (g : B -> C) l k :
  (forall a b, P a b -> f a = g b) -> Forall2 P l k -> f <$> l = g <$> k.
Proof. intros H. induction 1 as [|a b l k Hab _ IH]; [done|]. cbn. by rewrite IH, (H _ _ Hab). Qed.

Lemma published_well_formed es c : published es c -> caches c = [] -> wafs c = [] -> user_sets c = [] -> well_formed c.
Proof.
  intros [Hu Hs] Hc Hw Hus.
  assert (Hups : fst <$> upstream_entries es = ud_name <$> upstreams c).
  { eapply Forall2_names; [|exact Hu]. intros u d Hd. by rewrite (pub_name _ _ Hd). }
  assert (Hroutes : forall rd, rd ∈ Compile.all_routes c -> exists h key,
    key ∈ fst <$> routes_at h es /\ published_route key rd).
  { intros rd Hrd. unfold Compile.all_routes in Hrd. apply list_elem_of_In, in_flat_map in Hrd as (st & Hst & Hrd).
    apply list_elem_of_In, list_elem_of_lookup in Hst as [i Hi]. apply list_elem_of_In, list_elem_of_lookup in Hrd as [j Hj].
    destruct (Forall2_lookup_r _ _ _ _ _ Hs Hi) as (h & _ & Hp).
    destruct (Forall2_lookup_r _ _ _ _ _ (pub_routes _ _ _ _ Hp) Hj) as (key & Hkey & Hr).
    exists h.1, key. split; [by eapply list_elem_of_lookup_2|done]. }
  split; unfold cache_names, waf_names; rewrite ?Hc, ?Hw, ?Hus; try apply NoDup_nil_2.
  - unfold upstream_names. rewrite <-list_fmap_compose. change (NoDup (ud_name <$> upstreams c)). rewrite <-Hups.
    apply ascending_NoDup, ascending_collect. done.
  - intros rd u Hrd Hin. destruct (Hroutes rd Hrd) as (h & key & Hk & Hr).
    apply (list_elem_of_fmap_2 ref_name), (pub_refs _ _ Hr) in Hin. rewrite Hin.
    apply list_elem_of_fmap in Hk as ([k line] & -> & (e & He & _ & Hl)%routes_at_in).
    unfold defined_names. rewrite fmap_app, elem_of_app. left. unfold upstream_names. rewrite <-list_fmap_compose.
    change (key_upstream k ∈ ud_name <$> upstreams c). rewrite <-Hups.
    assert (E : key_upstream k = e_up e) by by apply (lines_upstream e k line). rewrite E.
    destruct (entry_upstream e es He) as [e' Hg].
    apply list_elem_of_fmap. by exists (e_up e, e').
  - intros rd o m Hrd Hin. destruct (Hroutes rd Hrd) as (h & key & _ & Hr). rewrite (pub_specs _ _ Hr) in Hin. by apply elem_of_nil in Hin.
  - assert (E : host_pattern <$> flat_map site_hosts (sites c) = fst <$> hosts_of es).
    { clear -Hs. induction Hs as [|h st hs sts Hp _ IH]; [done|]. cbn [flat_map]. rewrite fmap_app, IH, (pub_hosts _ _ _ _ Hp). done. }
    rewrite E. apply ascending_NoDup, ascending_collect. done.
Qed.

(** The blocks of the document. *)
Lemma gateway_upstreams es : doc_blocks "upstream" (gateway_doc es) =
  (fun u => ([word_arg u.1], PDirective "target" <$> (backend_args (route_ns (e_route u.2)) <$> backend_refs (e_rule u.2)))) <$> upstream_entries es.
Proof.
  unfold gateway_doc. rewrite doc_blocks_app.
  assert (E : forall hs : list (string * ()), doc_blocks "upstream" ((fun h => site_stmt h.1 (https_at h.1 es) (fst <$> routes_at h.1 es)) <$> hs) = []).
  { induction hs as [|h hs IH]; [done|]. exact IH. }
  rewrite E, app_nil_r. clear E. induction (upstream_entries es) as [|u us IH]; [done|]. cbn. f_equal; [|exact IH].
  f_equal. by rewrite <-list_fmap_compose.
Qed.

Lemma gateway_sites es : doc_blocks "site" (gateway_doc es) =
  (fun h => (word_arg <$> [h.1], site_body (https_at h.1 es) (fst <$> routes_at h.1 es))) <$> hosts_of es.
Proof.
  unfold gateway_doc. rewrite doc_blocks_app.
  assert (E : forall us : list (string * Placement), doc_blocks "site" ((fun u => upstream_stmt u.1 (e_rule u.2) (route_ns (e_route u.2))) <$> us) = []).
  { induction us as [|u us IH]; [done|]. exact IH. }
  rewrite E, app_nil_l. clear E. induction (hosts_of es) as [|h hs IH]; [done|]. cbn. f_equal. exact IH.
Qed.

Lemma gateway_others kw es : kw <> "upstream" -> kw <> "site" -> doc_blocks kw (gateway_doc es) = [].
Proof.
  intros Hu Hs. unfold gateway_doc. rewrite doc_blocks_app. unfold doc_blocks.
  induction (upstream_entries es) as [|u us IH]; cbn [fmap list_fmap omap list_omap upstream_stmt].
  - induction (hosts_of es) as [|h hs IH]; [done|]. cbn [fmap list_fmap omap list_omap site_stmt]. rewrite (proj2 (String.eqb_neq _ _)) by done. exact IH.
  - rewrite (proj2 (String.eqb_neq _ _)) by done. exact IH.
Qed.

Lemma gateway_blocks es : Forall is_block (gateway_doc es).
Proof. unfold gateway_doc. apply Forall_app. split; apply Forall_fmap, Forall_true; done. Qed.

(** What the placements call for says nothing of positions. *)
Lemma Forall2_through {A B C} (P : A -> B -> Prop) (f : B -> C) l k k' :
  (forall a b b', f b = f b' -> P a b -> P a b') -> f <$> k = f <$> k' -> Forall2 P l k -> Forall2 P l k'.
Proof.
  intros HP E H. revert k' E. induction H as [|a b l k Hab _ IH]; intros [|b' k'] E; try done. cbn in E. injection E as Eb Ek. constructor; [by eapply HP|by apply IH].
Qed.

Lemma Forall2_in {A B} (P Q : A -> B -> Prop) l k : (forall a b, a ∈ l -> P a b -> Q a b) -> Forall2 P l k -> Forall2 Q l k.
Proof.
  intros HP H. induction H as [|a b l k Hab _ IH]; [constructor|]. constructor; [apply HP; [by left|done]|].
  apply IH. intros a' b' Ha. apply HP. by right.
Qed.

Lemma published_upstream_strip u d d' : strip_upstream d = strip_upstream d' -> published_upstream u d -> published_upstream u d'.
Proof. destruct d, d'. intros [= -> -> -> -> ->] [P1 P2 P3 P4 P5]. by split. Qed.

Lemma published_route_strip key rd rd' : strip_route_def rd = strip_route_def rd' -> published_route key rd -> published_route key rd'.
Proof.
  destruct rd as [k p m mw sp h rf s], rd' as [k' p' m' mw' sp' h' rf' s']. cbn. intros [= -> -> -> _ -> -> E] [P1 P2 P3 P4 P5 P6]. split; [done..|].
  intros n Hn. apply P6. cbn [refs] in *. apply (f_equal (fmap ref_name)) in E. rewrite <-!list_fmap_compose in E.
  change (ref_name <$> rf = ref_name <$> rf') in E. by rewrite E.
Qed.

Lemma published_site_strip host https keys st st' : strip_site st = strip_site st' ->
  published_site host https keys st -> published_site host https keys st'.
Proof.
  destruct st as [hs t rs sp], st' as [hs' t' rs' sp']. intros [= Eh -> Er] [P1 P2 P3]. split; [|done|].
  - cbn [site_hosts] in *. apply (f_equal (fmap host_pattern)) in Eh. rewrite <-!list_fmap_compose in Eh.
    change (host_pattern <$> hs = host_pattern <$> hs') in Eh. by rewrite <-Eh.
  - eapply Forall2_through; [|exact Er|exact P3]. intros ???. apply published_route_strip.
Qed.

Lemma published_strip es c c' : strip_config c = strip_config c' -> published es c -> published es c'.
Proof.
  intros E [Hu Hs]. split.
  - eapply Forall2_through; [|exact (f_equal upstreams E)|exact Hu]. intros ???. apply published_upstream_strip.
  - eapply Forall2_through; [|exact (f_equal sites E)|exact Hs]. intros ???. apply published_site_strip.
Qed.

(** The tree of the document is lowered to what the placements call for. *)
Lemma backends_read env ns bs : Forall weight_ok bs -> omap (read_target env) (backend_args ns <$> bs) = backend_target ns <$> bs.
Proof. induction 1 as [|b bs Hb _ IH]; [done|]. cbn [fmap list_fmap omap list_omap]. rewrite backend_reads by done. by rewrite <-IH. Qed.

Lemma pool_read env (u : string * Placement) : u.1 = e_up u.2 -> weighted u.2 ->
  published_upstream u (Compile.lower_upstream env (at_zero "upstream") (arg_tree <$> [word_arg u.1])
    (tree (PDirective "target" <$> (backend_args (route_ns (e_route u.2)) <$> backend_refs (e_rule u.2))))).
Proof.
  intros E Hw. rewrite tree_upstream. split; [|by apply backends_read|done..]. cbn [ud_name]. rewrite E. unfold read_word.
  assert (Ht : type_atom (e_up u.2) = VStr (e_up u.2)) by apply type_atom_upstream. by rewrite Ht.
Qed.

Lemma document_published env es c : Forall entry_plain es -> Forall weighted es -> Forall typed_host es ->
  lowered env (tree (gateway_doc es)) c -> published es c /\ acceptable (tree (gateway_doc es)) c.
Proof.
  intros Hes Hw Hh [_ Lu Lc Lw Lus Ls]. rewrite Forall_forall in Hes, Hw, Hh.
  rewrite blocks_tree in Lu, Lc, Lw, Lus, Ls. rewrite gateway_others in Lc, Lw, Lus by done. rewrite gateway_upstreams in Lu. rewrite gateway_sites in Ls.
  assert (Hpub : published es c).
  { split.
    - rewrite Lu, <-!list_fmap_compose. apply Forall2_fmap_r, Forall_Forall2_diag, Forall_forall.
      intros u [E Hin]%upstream_entry. by apply pool_read; [|apply Hw].
    - rewrite <-list_fmap_compose, Forall2_fmap_l in Ls. eapply Forall2_in; [|exact Ls].
      intros h st (e & He & E)%host_entry Hst. eapply site_published; [| |exact Hst].
      + unfold read_word. rewrite <-E. by rewrite (Hh e He).
      + apply Forall_fmap, Forall_forall. intros r (e' & He' & _ & Hr)%routes_at_in. apply (lines_upper e'); auto. }
  split; [done|]. split_and!.
  - rewrite versions_tree by apply gateway_blocks. constructor.
  - unfold document_routes. rewrite blocks_tree, gateway_sites, <-list_fmap_compose. clear Ls Hpub.
    induction (hosts_of es) as [|h hs IH]; [constructor|]. cbn. apply Forall_app. split; [|exact IH].
    change (Forall has_terminal (routes_in (tree (site_body (https_at h.1 es) (fst <$> routes_at h.1 es))))).
    rewrite routes_tree, site_body_routes. apply tree_routes, keys_handlers.
  - by apply (published_well_formed es).
Qed.

(** A text that reads as the document of placements compiles to what they call
    for. *)
Lemma doc_compiles env debug_str debug_config text generation es ast :
  Forall entry_plain es -> Forall weighted es -> Forall typed_host es ->
  flow_parse debug_value text = Ok ast -> map erase_stmt (stmts ast) = tree (gateway_doc es) ->
  exists compiled, Compile.compile env debug_str debug_value debug_config text generation = Ok compiled
    /\ published es (Compile.config compiled).
Proof.
  intros Hes Hw Hh Hp Hr%erased_same.
  destruct (compile_document env debug_str debug_value debug_config text generation ast _ Hp Hr) as (c0 & Hl & H).
  destruct (document_published env es c0 Hes Hw Hh Hl) as [Hpub Ha].
  destruct H as [(_ & compiled & Hc & E)|[Hna _]]; [|done]. exists compiled. split; [exact Hc|].
  by apply (published_strip es c0).
Qed.
End Reading.

(** ** The routing table of the placements *)

(** What a key is in the router. *)
Definition key_route (key : RouteKey) : Router.Route :=
  Router.mk_route (map_kind (key_kind key)) (key_pattern key) (key_method key) [] None
    (Router.Proxy (Some (key_upstream key)) None).
(** The pool of a rule. *)
Definition rule_pool (up : string) (route : HTTPRoute) (rule : HTTPRouteRule) : Proxy.Upstream :=
  Proxy.upstream_new up ((fun b => (backend_url (route_ns route) b, default 1 (weight b))) <$> backend_refs rule)
    Proxy.RoundRobin Proxy.retry_default Proxy.breaker_default.

Lemma built_published c hl key rd rt : built_route c hl rd rt -> published_route key rd -> rt = key_route key.
Proof.
  intros [B1 B2 B3 B4 B5 (parts & B6 & Hp)] [P1 P2 P3 P4 P5 _]. rewrite P4 in *. apply Forall2_nil_inv_l in Hp as ->.
  rewrite P5 in B4. injection B4 as B4. destruct rt. cbn in *. subst. rewrite P1, P2, P3. reflexivity.
Qed.

Definition site_routed (es : list Placement) (h : string * ()) (s : Router.SiteRoutes) : Prop :=
  Router.hosts s = [h.1] /\ Router.routes s = key_route <$> (fst <$> routes_at h.1 es).

Lemma sites_routed es c hl (ss : list Router.SiteRoutes) : published es c -> Forall2 (built_site c hl) (sites c) ss ->
  Forall2 (site_routed es) (hosts_of es) ss.
Proof.
  intros [_ Hs]. revert ss. induction Hs as [|h st hs sts Hp _ IH]; intros ss Hb.
  { apply Forall2_nil_inv_l in Hb as ->. constructor. }
  apply Forall2_cons_inv_l in Hb as (s & ss' & [Hh Hr] & Hb & ->). constructor; [|by apply IH]. split.
  - by rewrite Hh, (pub_hosts _ _ _ _ Hp).
  - pose proof (pub_routes _ _ _ _ Hp) as Hk. revert Hr. generalize (Router.routes s). clear -Hk.
    induction Hk as [|key rd ks rds Hk _ IH]; intros rts Hr.
    + by apply Forall2_nil_inv_l in Hr as ->.
    + apply Forall2_cons_inv_l in Hr as (rt & rts' & Hrt & Hr & ->). cbn. f_equal; [by eapply built_published|by apply IH].
Qed.

Lemma one_host h (rs : list Router.Route) host : Router.host_score (Router.mk_site [h] rs) host = Router.pattern_score host h.
Proof. done. Qed.

Lemma pool_published es c e :
  published es c -> NoDup (ud_name <$> upstreams c) -> e ∈ es ->
  (forall e', e' ∈ es -> e_up e' = e_up e -> e_route e' = e_route e /\ e_rule e' = e_rule e) ->
  Proxy.registry_get (e_up e) (build_upstreams c) = Some (rule_pool (e_up e) (e_route e) (e_rule e)).
Proof.
  intros [Hu _] Hnd He Hup.
  destruct (entry_upstream e es He) as [e' Hg].
  destruct (upstream_entry _ _ Hg) as [E Hin]. cbn in E, Hin. destruct (Hup e' Hin (eq_sym E)) as [Er El].
  apply list_elem_of_lookup in Hg as [i Hi]. destruct (Forall2_lookup_l _ _ _ _ _ Hu Hi) as (d & Hd & [P1 P2 P3 P4 P5]).
  apply list_elem_of_lookup_2 in Hd. cbn [fst snd] in *.
  destruct (registry_insert_all (upstreams c) Proxy.registry_new Hnd) as (H1 & _).
  { intros d' _. apply lookup_empty. }
  specialize (H1 d Hd). unfold build_upstreams. rewrite <-P1. etrans; [exact H1|]. f_equal.
  unfold build_upstream, rule_pool, build_retry, build_breaker. rewrite P2, P3, P4, P5, Er, El.
  unfold backend_target. by rewrite <-list_fmap_compose.
Qed.

(** ** What the controller promises *)

(** A rule with backends of a valid route that is attached to a managed gateway,
    one of the keys of its matches, and a host it is placed on, for HTTPS or
    not. *)
Definition placed_rule (managed : list ((string * string) * Gateway)) (routes : list HTTPRoute)
    (host : string) (secure : bool) (key : RouteKey) (route : HTTPRoute) (rule : HTTPRouteRule) : Prop :=
  route ∈ routes /\ route_is_valid route = true
  /\ exists idx gw line, rules (route_spec route) !! idx = Some rule /\ backend_refs rule <> []
     /\ gw ∈ parents_of managed route /\ (host, secure) ∈ hosts_for gw (hostnames (route_spec route))
     /\ (key, line) ∈ rule_route_lines rule (rule_name route idx).

Lemma placed_rule_entry managed routes host secure key route rule :
  placed_rule managed routes host secure key route rule
  <-> exists e line, e ∈ routes ≫= entries managed /\ e_host e = host /\ e_https e = secure
      /\ e_route e = route /\ e_rule e = rule /\ (key, line) ∈ e_lines e.
Proof.
  split.
  - intros (Hin & Hv & idx & gw & line & Hr & Hb & Hgw & Hh & Hl).
    exists (mk_entry route idx rule host secure), line. split_and!; try done. apply list_elem_of_bind. exists route.
    split; [|done]. apply entry_spec. cbn. eauto 10.
  - intros (e & line & (r & He & Hin)%list_elem_of_bind & <- & <- & <- & <- & Hl).
    apply entry_spec in He as (<- & Hv & Hr & Hb & gw & Hgw & Hh). split_and!; [done..|]. by exists (e_idx e), gw, line.
Qed.

Section Promise.
Variables (managed : list ((string * string) * Gateway)) (routes : list HTTPRoute) (c : Config).
Abbreviation placed_here := (placed_rule managed routes).
Abbreviation es := (routes ≫= entries managed).
Abbreviation table := (build_router c).1.1.
Hypothesis Hplain : Forall placement_ok es.
Hypothesis Hpub : published es c.
Hypothesis Hnd : NoDup (ud_name <$> upstreams c).
Hypothesis Hsites : Forall2 (built_site c (heap_limiters (build_router c).1.2)) (sites c) (Router.sites table).

Lemma table_host h s : site_routed es h s -> forall host, Router.host_score s host = Router.pattern_score host h.1.
Proof using Type. intros [Eh _] host. unfold Router.host_score. by rewrite Eh. Qed.

(** Every route of the table is the key of a placement, with its pool. *)
Lemma routed_placed
  (Hnames : forall r r' i i', r ∈ routes -> r' ∈ routes -> (i < length (rules (route_spec r)))%nat ->
     (i' < length (rules (route_spec r')))%nat -> rule_name r i = rule_name r' i' -> r = r' /\ i = i')
  host path method rt : Router.route table host path method = Some rt ->
  exists site secure key route rule, placed_here site secure key route rule /\ rt = key_route key
    /\ is_Some (Router.pattern_score (Router.host_without_port host) site)
    /\ is_Some (Router.score rt path method)
    /\ Proxy.registry_get (key_upstream key) (build_upstreams c) = Some (rule_pool (key_upstream key) route rule).
Proof.
  unfold Router.route. intros (s & Hs & Hr)%bind_Some.
  pose proof (best_by_spec (fun s => Router.host_score s (Router.host_without_port host)) (Router.sites table)) as Bs. rewrite Hs in Bs.
  pose proof (best_by_spec (fun rt => Router.score rt path method) (Router.routes s)) as Br. rewrite Hr in Br.
  destruct (is_best_le _ _ _ Bs) as (hs & Ehs & _), (is_best_le _ _ _ Br) as (ks & Eks & _).
  apply is_best_elem, list_elem_of_lookup in Bs as [i Hi]. apply is_best_elem in Br.
  destruct (Forall2_lookup_r _ _ _ _ _ (sites_routed _ _ _ _ Hpub Hsites) Hi) as (h & _ & Hsr).
  rewrite (table_host _ _ Hsr) in Ehs. destruct Hsr as [_ Er]. rewrite Er in Br.
  apply list_elem_of_fmap in Br as (key & -> & ([k line] & -> & (e & He & Eh & Hl)%routes_at_in)%list_elem_of_fmap).
  exists h.1, (e_https e), k, (e_route e), (e_rule e). split; [|split; [done|split; [by eexists|split; [by eexists|]]]].
  - apply placed_rule_entry. by exists e, line.
  - cbn [fst]. assert (E : key_upstream k = e_up e) by by apply (lines_upstream e k line). rewrite E.
    apply (pool_published es); [done|done|done|]. intros e' He' Hup.
    apply list_elem_of_bind in He as (r & He & Hin), He' as (r' & He' & Hin').
    apply entry_spec in He as (<- & _ & Hrl & _), He' as (<- & _ & Hrl' & _).
    destruct (Hnames (e_route e') (e_route e) (e_idx e') (e_idx e)) as [E1 E2]; [done|done|by eapply lookup_lt_Some..|done|].
    split; [done|]. rewrite E1, E2, Hrl in Hrl'. by injection Hrl'.
Qed.

(** A placement that matches is served, or yields to a host that is at least as
    specific. *)
Lemma placed_routed host path method site secure key route rule hs ks :
  placed_here site secure key route rule ->
  Router.pattern_score (Router.host_without_port host) site = Some hs ->
  Router.score (key_route key) path method = Some ks ->
  (exists rt sc, Router.route table host path method = Some rt /\ Router.score rt path method = Some sc /\ ks <= sc)
  \/ exists site' secure' key' route' rule' hs', placed_here site' secure' key' route' rule' /\ site' <> site
     /\ Router.pattern_score (Router.host_without_port host) site' = Some hs' /\ hs <= hs'.
Proof.
  intros (e & line & He & Hh & _ & _ & _ & Hl)%placed_rule_entry Ehs Eks.
  pose proof (sites_routed _ _ _ _ Hpub Hsites) as Hsr.
  pose proof (entry_hosted _ _ _ He Hh) as Hin.
  apply list_elem_of_lookup in Hin as [i Hi]. destruct (Forall2_lookup_l _ _ _ _ _ Hsr Hi) as (s & Hs & Hrs).
  pose proof (best_by_spec (fun s => Router.host_score s (Router.host_without_port host)) (Router.sites table)) as B.
  unfold Router.route. destruct (Router.best_by _ (Router.sites table)) as [s'|] eqn:Eb.
  2:{ apply list_elem_of_lookup_2, B in Hs. rewrite (table_host _ _ Hrs) in Hs. cbn in Hs. congruence. }
  cbn [mbind option_bind]. destruct (is_best_le _ _ _ B) as (hs' & Ehs' & Hle). apply is_best_elem, list_elem_of_lookup in B as [j Hj].
  destruct (Forall2_lookup_r _ _ _ _ _ Hsr Hj) as (h' & Hh' & Hrs'). rewrite (table_host _ _ Hrs') in Ehs'.
  destruct (decide (h'.1 = site)) as [E|Hne].
  - left. assert (s' = s) as ->.
    { assert (i = j) as ->; [|congruence].
      eapply (NoDup_lookup (fst <$> hosts_of es)); [apply ascending_NoDup, ascending_collect; done| |].
      - by rewrite list_lookup_fmap, Hi.
      - rewrite list_lookup_fmap, Hh'. cbn. by rewrite E. }
    assert (Hk : key_route key ∈ Router.routes s).
    { destruct Hrs as [_ ->]. apply list_elem_of_fmap_2, (list_elem_of_fmap_2 fst _ (key, line)). apply routes_at_spec; [done|]. by exists e. }
    pose proof (best_by_spec (fun rt => Router.score rt path method) (Router.routes s)) as Br.
    destruct (Router.best_by _ (Router.routes s)) as [rt|]; [|apply Br in Hk; congruence].
    destruct (is_best_le _ _ _ Br) as (sc & Esc & Hmax). exists rt, sc. split; [done|]. split; [done|]. by apply (Hmax (key_route key)).
  - right. apply list_elem_of_lookup_2 in Hh'. apply host_entry in Hh' as (e' & He' & Eh').
    destruct (e_lines e') as [|[key' line'] ls] eqn:El; [by apply lines_nonempty in El|].
    exists h'.1, (e_https e'), key', (e_route e'), (e_rule e'), hs'. split_and!; [|done|done|].
    + apply placed_rule_entry. exists e', line'. rewrite El. split_and!; [done..|]. by left.
    + apply (Hle s); [by eapply list_elem_of_lookup_2|]. by rewrite (table_host _ _ Hrs).
Qed.

(** The hosts and their TLS posture. *)
Lemma sites_placed site : (exists secure key route rule, placed_here site secure key route rule) ->
  exists st, st ∈ sites c /\ host_pattern <$> site_hosts st = [site]
    /\ (tls st = TlsAuto /\ (exists key route rule, placed_here site true key route rule)
        \/ tls st = TlsOff /\ forall key route rule, ~ placed_here site true key route rule).
Proof.
  intros (secure & key & route & rule & (e & line & He & Hh & _)%placed_rule_entry).
  pose proof (entry_hosted _ _ _ He Hh) as Hin.
  apply list_elem_of_lookup in Hin as [i Hi]. destruct (Forall2_lookup_l _ _ _ _ _ (proj2 Hpub) Hi) as (st & Hst & [P1 P2 _]).
  exists st. split; [by eapply list_elem_of_lookup_2|]. split; [done|]. cbn [fst] in P2. rewrite P2.
  unfold https_at. destruct (existsb e_https (at_host site es)) eqn:E.
  - left. split; [done|]. apply existsb_exists in E as (e' & He' & Hs). apply list_elem_of_In, list_elem_of_filter in He' as [Hh' He'].
    destruct (e_lines e') as [|[key' line'] ls] eqn:El; [by apply lines_nonempty in El|].
    exists key', (e_route e'), (e_rule e'). apply placed_rule_entry. exists e', line'. rewrite El. split_and!; [done..|]. by left.
  - right. split; [done|]. intros key' route' rule' (e' & line' & He' & Hh' & Hs & _)%placed_rule_entry.
    apply not_true_iff_false in E. apply E, existsb_exists. exists e'. split; [|done]. by apply list_elem_of_In, list_elem_of_filter.
Qed.
End Promise.

(** C6. Gateway API resources are served as they say.  Whatever the resources,
    as long as their paths hold no mark of Flow's, their hosts read as names,
    their weights fit and no two rules share a generated name, the text the
    controller publishes compiles, and the routing table built from it is the
    one the resources describe: a request is routed only to a rule that is
    placed on a matching host, by one of the rule's matches and without any
    middleware, and its pool holds that rule's backends and weights; a
    placement that matches a request is served by a route at least as specific,
    or yields to a host at least as specific; and every host is a site, with
    TLS exactly when an HTTPS listener places a rule on it. *)
Theorem resources_routed env debug_str debug_value debug_config classes gateways routes name generation
    (Hplain : Forall plain_route routes)
    (Hweights : Forall (fun r => Forall (fun rule => Forall weight_ok (backend_refs rule)) (rules (route_spec r))) routes)
    (Hhosts : forall host secure key route rule,
       placed_rule (managed_gateways classes gateways name) routes host secure key route rule -> type_atom host = VStr host)
    (Hnames : forall r r' i i', r ∈ routes -> r' ∈ routes -> (i < length (rules (route_spec r)))%nat ->
       (i' < length (rules (route_spec r')))%nat -> rule_name r i = rule_name r' i' -> r = r' /\ i = i') :
  let placed_here := placed_rule (managed_gateways classes gateways name) routes in
  exists compiled,
    Compile.compile env debug_str debug_value debug_config (to_flow classes gateways routes name) generation = Ok compiled
    /\ let c := Compile.config compiled in let table := (build_router c).1.1 in
       (forall host path method rt, Router.route table host path method = Some rt ->
          exists site secure key route rule, placed_here site secure key route rule /\ rt = key_route key
            /\ is_Some (Router.pattern_score (Router.host_without_port host) site)
            /\ is_Some (Router.score rt path method)
            /\ Proxy.registry_get (key_upstream key) (build_upstreams c) = Some (rule_pool (key_upstream key) route rule))
       /\ (forall host path method site secure key route rule hs ks,
            placed_here site secure key route rule ->
            Router.pattern_score (Router.host_without_port host) site = Some hs ->
            Router.score (key_route key) path method = Some ks ->
            (exists rt sc, Router.route table host path method = Some rt /\ Router.score rt path method = Some sc /\ ks <= sc)
            \/ exists site' secure' key' route' rule' hs', placed_here site' secure' key' route' rule' /\ site' <> site
               /\ Router.pattern_score (Router.host_without_port host) site' = Some hs' /\ hs <= hs')
       /\ (forall site, (exists secure key route rule, placed_here site secure key route rule) ->
            exists st, st ∈ sites c /\ host_pattern <$> site_hosts st = [site]
              /\ (tls st = TlsAuto /\ (exists key route rule, placed_here site true key route rule)
                  \/ tls st = TlsOff /\ forall key route rule, ~ placed_here site true key route rule)).
Proof.
  intros placed_here. set (managed := managed_gateways classes gateways name) in *.
  pose proof (all_entries_ok classes gateways routes name) as Hok.
  pose proof (all_entries_plain classes gateways routes name Hplain) as Hes.
  destruct (generated_reads debug_value classes gateways routes name Hplain) as (ast & Hp & Ht).
  unfold all_entries in *. fold managed in Hok, Hes, Ht.
  assert (Hw : Forall weighted (routes ≫= entries managed)).
  { apply Forall_forall. intros e (r & He & Hin)%list_elem_of_bind. apply entry_spec in He as (<- & _ & Hr & _).
    apply list_elem_of_lookup_2 in Hr. eapply Forall_forall in Hweights; [|exact Hin].
    by eapply Forall_forall in Hweights; [|exact Hr]. }
  assert (Hh : Forall typed_host (routes ≫= entries managed)).
  { apply Forall_forall. intros e He. destruct (e_lines e) as [|[key line] ls] eqn:El; [by apply lines_nonempty in El|].
    apply (Hhosts _ (e_https e) key (e_route e) (e_rule e)). apply placed_rule_entry. exists e, line. rewrite El.
    split_and!; [done..|]. by left. }
  destruct (doc_compiles debug_value env debug_str debug_config _ generation _ _ Hes Hw Hh Hp Ht) as (compiled & Hc & Hpub).
  exists compiled. split; [exact Hc|]. destruct (build_router_spec _ _ _ _ _ _ _ Hc) as (Hs & _ & _ & Hnd). cbv zeta.
  split; [|split].
  - intros host path method rt. by apply routed_placed.
  - intros host path method site secure key route rule hs ks. by apply placed_routed.
  - by apply sites_placed.
Qed.

(** ** On a concrete cluster *)
Abbreviation demo_flow := (to_flow demo_classes demo_gateways demo_routes Controller.CONTROLLER_NAME).
Abbreviation demo_compile := (Compile.compile (fun _ => None) (fun s => s) (fun _ => "") (fun _ => "") demo_flow 1).

(** [GET /healthz] goes to the exact match of its method, the rest of [/api] to
    the prefix, and nothing else is routed. *)
Example demo_table :
  match demo_compile with
  | Ok compiled =>
    let table := (build_router (Compile.config compiled)).1.1 in
    (fun r : string * string => Router.handler <$> Router.route table "app.example.com:443" r.1 r.2)
      <$> [("/api/x", "POST"); ("/healthz", "GET"); ("/healthz", "POST"); ("/", "GET")]
    = [Some (Router.Proxy (Some "up_default_app_0") None); Some (Router.Proxy (Some "up_default_health_0") None); None; None]
  | _ => False
  end.
Proof. vm_compute. reflexivity. Qed.

Lemma demo_placed :
  exists key route rule, placed_rule (managed_gateways demo_classes demo_gateways Controller.CONTROLLER_NAME) demo_routes
    "app.example.com" true key route rule.
Proof.
  do 3 eexists. split; [left; reflexivity|]. split; [vm_compute; reflexivity|].
  exists O. do 2 eexists. split_and!; [reflexivity|discriminate| | |].
  - apply list_elem_of_singleton. vm_compute. reflexivity.
  - apply list_elem_of_singleton. vm_compute. reflexivity.
  - left.
Qed.

Lemma resources_routed_witness :
  exists compiled st, demo_compile = Ok compiled /\ st ∈ sites (Compile.config compiled)
    /\ host_pattern <$> site_hosts st = ["app.example.com"].
Proof.
  destruct (resources_routed (fun _ => None) (fun s => s) (fun _ => "") (fun _ => "")
    demo_classes demo_gateways demo_routes Controller.CONTROLLER_NAME 1 demo_plain) as (compiled & Hc & _ & _ & Hs).
  - repeat (constructor; [repeat constructor; vm_compute; discriminate|]). constructor.
  - intros host secure key route rule (e & line & He & <- & _)%placed_rule_entry.
    assert (Hin : e_host e ∈ ["app.example.com"; "app.example.com"]).
    { apply (list_elem_of_fmap_2 e_host) in He.
      assert (E : e_host <$> (demo_routes ≫= entries (managed_gateways demo_classes demo_gateways Controller.CONTROLLER_NAME))
        = ["app.example.com"; "app.example.com"]) by (vm_compute; reflexivity). by rewrite E in He. }
    assert (E : e_host e = "app.example.com") by set_solver. rewrite E. reflexivity.
  - intros r r' i i' Hr Hr' Hi Hi' E.
    repeat (apply elem_of_cons in Hr as [->|Hr]); try (by apply elem_of_nil in Hr).
    all: repeat (apply elem_of_cons in Hr' as [->|Hr']); try (by apply elem_of_nil in Hr').
    all: cbn in Hi, Hi'; assert (i = O) as -> by lia; assert (i' = O) as -> by lia; try done.
    all: vm_compute in E; discriminate.
  - destruct demo_placed as (key & route & rule & Hp).
    destruct (Hs "app.example.com") as (st & Hst & Hh & _); [by exists true, key, route, rule|]. exists compiled, st. split; [exact Hc|]. split; [exact Hst|exact Hh].
Defined.

(** *** What the resources say and the text does not *)

(** A hostname that Flow reads as another type, here a duration, passes the
    validation; its site is published with no host, and serves nobody. *)
Lemma unreadable_host_is_lost :
  let route := demo_route "default" "app" "web" "30s" "PathPrefix" "/" None "svc" None in
  let gateways := [mk_gateway (meta "default" "web") (mk_gateway_spec "pulsate" [mk_listener "l" None 80 "HTTP"])] in
  route_is_valid route = true
  /\ match Compile.compile (fun _ => None) (fun s => s) (fun _ => "") (fun _ => "")
       (to_flow demo_classes gateways [route] Controller.CONTROLLER_NAME) 1 with
     | Ok compiled =>
       site_hosts <$> sites (Compile.config compiled) = [[]]
       /\ Router.route (build_router (Compile.config compiled)).1.1 "30s" "/" "GET" = None
     | _ => False
     end.
Proof. vm_compute. repeat split. Qed.
