(* ===== verification/Migrate.v ===== *)
(** * [pulsate-migrate]: importers of foreign configurations

    [lib.rs], [nginx.rs], [caddy.rs], [haproxy.rs] and [apache.rs].  An importer
    reads a configuration, writes Flow through a builder and notes how faithful
    each translation is. *)

From Stdlib Require Import ZArith Ascii String Lia.
From stdpp Require Import base option list gmap strings.
From S2P Require Import Prelude RustStr FlowSyntax FlowLexer ConfigModel.
Local Open Scope string_scope.
Local Open Scope list_scope.

(** ** Text: what the importers use of the standard library *)
Module Text.

(** [str::split_whitespace]. *)
Fixpoint split_ws (word : list Z) (cs : list Z) : list (list Z) :=
  match cs with
  | [] => match word with [] => [] | _ => [word] end
  | c :: cs =>
    if is_whitespace c then match word with [] => split_ws [] cs | _ => word :: split_ws [] cs end
    else split_ws (word ++ [c]) cs
  end.
Definition split_whitespace (s : string) : list string := of_chars <$> split_ws [] (chars s).

(** [str::lines]: a line ends at a line feed, with the carriage return before
    it; what follows the last line feed is a line unless it is empty. *)
Fixpoint lines_of (pieces : list string) : list string :=
  match pieces with
  | [] => []
  | [final] => if (final =? "")%string then [] else [final]
  | l :: pieces => default l (strip_suffix (String carriage_return "") l) :: lines_of pieces
  end.
Definition lines (s : string) : list string := lines_of (split_char newline s).

(** [trim_start_matches] for a string pattern: every leading occurrence. *)
Fixpoint trim_start_from (fuel : nat) (p s : string) : string :=
  match fuel with
  | O => s
  | S fuel => match strip_prefix p s with Some s => trim_start_from fuel p s | None => s end
  end.
Definition trim_start_matches (p s : string) : string := trim_start_from (String.length s) p s.

(** [rsplit_once] for an ASCII character. *)
Fixpoint rsplit_once (c : ascii) (s : string) : option (string * string) :=
  match s with
  | "" => None
  | String a s =>
    match rsplit_once c s with
    | Some (l, r) => Some (String a l, r)
    | None => if Ascii.eqb a c then Some ("", s) else None
    end
  end.

(** The word after the first [w] of a line: [position] and [get(i + 1)]. *)
Fixpoint word_after (w : string) (l : list string) : option string :=
  match l with
  | [] => None
  | x :: l => if (x =? w)%string then head l else word_after w l
  end.

(** [sort_by_key(Reverse(key))], which is stable. *)
Fixpoint insert_desc (key : string -> nat) (x : string) (l : list string) : list string :=
  match l with
  | [] => [x]
  | y :: l => if Nat.ltb (key y) (key x) then x :: y :: l else y :: insert_desc key x l
  end.
Definition sort_desc (key : string -> nat) (l : list string) : list string :=
  foldl (fun acc x => insert_desc key x acc) [] l.

(** A string between double quotes, as the importers write it. *)
Definition in_quotes (s : string) : string := String dquote (s +:+ String dquote "").
End Text.

(** ** [lib.rs] *)
Module Migrate.

Inductive Fidelity := Exact | Approximate | Manual | Dropped.
#[export] Instance Fidelity_eq_dec : EqDecision Fidelity.
Proof. solve_decision. Defined.

Definition tag (f : Fidelity) : string :=
  match f with Exact => "exact" | Approximate => "approx" | Manual => "manual" | Dropped => "dropped" end.

Record Note := mk_note { directive : string; fidelity : Fidelity; message : string }.
Record Import := mk_import { flow : string; notes : list Note }.

Definition count (f : Fidelity) (i : Import) : nat := length (filter (fun n => fidelity n = f) (notes i)).

Definition report (i : Import) : string :=
  foldl (fun out n => out +:+ "  [" +:+ tag (fidelity n) +:+ "] " +:+ directive n +:+ ": " +:+ message n +:+ nl) "" (notes i)
  +:+ "summary: " +:+ show_nat (count Exact i) +:+ " exact, " +:+ show_nat (count Approximate i) +:+ " approximate, "
  +:+ show_nat (count Manual i) +:+ " manual, " +:+ show_nat (count Dropped i) +:+ " dropped" +:+ nl.

Record Builder := mk_builder { b_flow : string; b_notes : list Note; b_indent : nat }.
Definition builder_default : Builder := mk_builder "" [] 0.

Fixpoint indentation (n : nat) : string := match n with O => "" | S n => "  " +:+ indentation n end.
Definition line (s : string) (b : Builder) : Builder :=
  mk_builder (b_flow b +:+ indentation (b_indent b) +:+ s +:+ nl) (b_notes b) (b_indent b).
Definition open (s : string) (b : Builder) : Builder :=
  let b := line s b in mk_builder (b_flow b) (b_notes b) (S (b_indent b)).
Definition close (b : Builder) : Builder := line "}" (mk_builder (b_flow b) (b_notes b) (pred (b_indent b))).
Definition note (d : string) (f : Fidelity) (m : string) (b : Builder) : Builder :=
  mk_builder (b_flow b) (b_notes b ++ [mk_note d f m]) (b_indent b).
Definition finish (b : Builder) : Import := mk_import (b_flow b) (b_notes b).

Definition strip_slash : string -> string := trim_end_matches (fun c => Ascii.eqb c "/").
Definition with_scheme (addr : string) : string := if contains "://" addr then addr else "http://" +:+ addr.
End Migrate.

(** ** [nginx.rs] *)
Module Nginx.
Import Migrate.

Inductive Node := mk_node (name : string) (args : list string) (block : list Node).
Definition node_name (n : Node) : string := let 'mk_node name _ _ := n in name.
Definition node_args (n : Node) : list string := let 'mk_node _ args _ := n in args.
Definition node_block (n : Node) : list Node := let 'mk_node _ _ block := n in block.

Definition push_word (word : list Z) (tokens : list string) : list string :=
  match word with [] => tokens | _ => of_chars word :: tokens end.

(** The characters from the current one, with the word under construction;
    [comment] while a comment is skipped up to its line feed. *)
Fixpoint tokenize_from (comment : bool) (word : list Z) (cs : list Z) : list string :=
  match cs with
  | [] => push_word word []
  | c :: cs =>
    if comment && negb (c =? 10)%Z then tokenize_from true word cs
    else if (c =? 35)%Z then tokenize_from true word cs
    else if (c =? 123)%Z || (c =? 125)%Z || (c =? 59)%Z then push_word word (of_chars [c] :: tokenize_from false [] cs)
    else if is_whitespace c then push_word word (tokenize_from false [] cs)
    else tokenize_from false (word ++ [c]) cs
  end.
Definition tokenize (text : string) : list string := tokenize_from false [] (chars text).

Definition split_head (head : list string) : option (string * list string) :=
  match head with [] => None | name :: args => Some (name, args) end.
Definition push_node (head : list string) (block : list Node) (nodes : list Node) : list Node :=
  match split_head head with Some (name, args) => nodes ++ [mk_node name args block] | None => nodes end.

Fixpoint parse_block_loop (tokens : list string) (fuel : nat) (nodes : list Node) (head : list string) (pos : nat)
    : exec () (list Node * nat) :=
  match fuel with
  | O => OutOfFuel
  | S fuel =>
    match tokens !! pos with
    | None => Ok (nodes, pos)
    | Some t =>
      if (t =? "}")%string then Ok (nodes, S pos)
      else if (t =? ";")%string then parse_block_loop tokens fuel (push_node head [] nodes) [] (S pos)
      else if (t =? "{")%string then
        '(block, next) ← parse_block_loop tokens fuel [] [] (S pos);
        parse_block_loop tokens fuel (push_node head block nodes) [] next
      else parse_block_loop tokens fuel nodes (head ++ [t]) (S pos)
    end
  end.
Definition parse_block (tokens : list string) (pos : nat) : exec () (list Node * nat) :=
  parse_block_loop tokens (S (length tokens)) [] [] pos.

Definition map_upstream (node : Node) (b : Builder) : Builder :=
  let name := default "" (head (node_args node)) in
  let b := open ("upstream " +:+ name +:+ " {") b in
  let b := foldl (fun b child =>
    if (node_name child =? "server")%string then
      match node_args child with
      | addr :: _ => line ("target " +:+ with_scheme addr) b
      | [] => b
      end
    else note (node_name child) Manual "upstream directive needs manual translation" b) b (node_block node) in
  let b := close b in
  note "upstream" Exact "mapped to a Flow upstream pool" b.

Definition upstream_ref (target : string) : string :=
  match strip_prefix "http://" target with
  | Some host =>
    if negb (contains ":" host) && negb (contains "." host) && negb (contains "/" host) then "@" +:+ host else target
  | None => target
  end.

Definition map_return (args : list string) (b : Builder) : string * Builder :=
  match args with
  | [code; url] =>
    if contains "://" url || starts_with "/" url then
      ("redirect(to=" +:+ Text.in_quotes url +:+ ", status=" +:+ code +:+ ")", note "return" Exact "mapped to redirect()" b)
    else ("respond(status=" +:+ code +:+ ")", note "return" Approximate "mapped to respond()" b)
  | code :: _ => ("respond(status=" +:+ code +:+ ")", note "return" Approximate "mapped to respond()" b)
  | [] => ("respond(status=200)", note "return" Manual "unrecognized return form" b)
  end.

(** The path of a location and whether it is exact; [None] when the location
    is skipped. *)
Definition location_matcher (args : list string) (b : Builder) : option (string * bool) * Builder :=
  match args with
  | m :: rest =>
    if (m =? "=")%string then (Some (default "" (head rest), true), b)
    else if (m =? "~")%string || (m =? "~*")%string then
      (None, note "location ~" Manual "regex location needs a manual Flow regex route" b)
    else (Some (m, false), b)
  | [] => (None, b)
  end.

(** The directives of a location: the handler, the root, and the notes. *)
Definition location_directive (acc : option string * option string * Builder) (d : Node) : option string * option string * Builder :=
  let '(handler, try_root, b) := acc in
  if (node_name d =? "proxy_pass")%string then
    match node_args d with
    | target :: _ => (Some ("proxy(" +:+ upstream_ref target +:+ ")"), try_root, note "proxy_pass" Exact "mapped to proxy()" b)
    | [] => acc
    end
  else if (node_name d =? "return")%string then
    let '(h, b) := map_return (node_args d) b in (Some h, try_root, b)
  else if (node_name d =? "root")%string || (node_name d =? "alias")%string then (handler, head (node_args d), b)
  else acc.

Definition map_location (loc : Node) (b : Builder) : Builder :=
  let '(m, b) := location_matcher (node_args loc) b in
  match m with
  | None => b
  | Some (matcher, exact) =>
    let route :=
      if exact then "route = " +:+ matcher
      else if (matcher =? "/")%string then "route /*"
      else "route " +:+ strip_slash matcher +:+ "/*" in
    let '(handler, try_root, b) := foldl location_directive (None, None, b) (node_block loc) in
    let '(handler, b) :=
      match handler, try_root with
      | None, Some root => (Some ("files(" +:+ Text.in_quotes root +:+ ")"), note "root" Exact "mapped to files()" b)
      | h, _ => (h, b)
      end in
    match handler with
    | Some h => line (route +:+ " ~> " +:+ h) b
    | None => note "location" Manual "no recognized handler (proxy_pass/root/return) in this location" b
    end
  end.

Definition server_settings (block : list Node) : list string * bool :=
  foldl (fun acc child =>
    let '(hosts, ssl) := acc in
    if (node_name child =? "server_name")%string then (node_args child, ssl)
    else if (node_name child =? "listen")%string && existsb (fun a => (a =? "ssl")%string) (node_args child) then (hosts, true)
    else acc) ([], false) block.

Definition map_server (node : Node) (b : Builder) : Builder :=
  let '(hosts, ssl) := server_settings (node_block node) in
  let hosts := if bool_decide (hosts = []) || bool_decide (hosts = ["_"]) then [":default"] else hosts in
  let b := open ("site " +:+ join " " hosts +:+ " {") b in
  let b :=
    if ssl then
      note "listen ssl" Approximate "TLS mapped to `tls auto` (ACME); manual certs need a tls{} block" (line "tls auto" b)
    else b in
  let b := foldl (fun b child => if (node_name child =? "location")%string then map_location child b else b) b (node_block node) in
  close b.

Fixpoint map_node (b : Builder) (node : Node) {struct node} : Builder :=
  let 'mk_node name _ block := node in
  if (name =? "http")%string || (name =? "stream")%string || (name =? "events")%string then
    (fix go (nodes : list Node) (b : Builder) : Builder :=
       match nodes with [] => b | n :: nodes => go nodes (map_node b n) end) block b
  else if (name =? "upstream")%string then map_upstream node b
  else if (name =? "server")%string then map_server node b
  else note name Dropped "top-level directive not translated" b.
Definition map_nodes (nodes : list Node) (b : Builder) : Builder := foldl map_node b nodes.

Definition nginx_import (text : string) : exec () Import :=
  let tokens := tokenize text in
  '(nodes, _) ← parse_block tokens 0;
  let b := line "# Imported from nginx by `pulsate import nginx`. Review the notes." builder_default in
  Ok (finish (map_nodes nodes b)).
End Nginx.

(** ** [caddy.rs] *)
Module Caddy.
Import Migrate.

Record CaddyState := mk_caddy { site : option (list string); root : option string; routes : list string; builder : Builder }.

(** Strip a scheme from a site address and what follows the first slash. *)
Definition caddy_host_only (addr : string) : string :=
  let addr := Text.trim_start_matches "https://" (Text.trim_start_matches "http://" addr) in
  default addr (head (split_char "/" addr)).

Definition redirect_route (from to code : string) : string :=
  "route " +:+ from +:+ " ~> redirect(to=" +:+ Text.in_quotes to +:+ ", status=" +:+ code +:+ ")".

Definition caddy_directive (line : string) (st : CaddyState) : CaddyState :=
  let '(mk_caddy site root routes b) := st in
  match Text.split_whitespace line with
  | [] => st
  | directive :: args =>
    if (directive =? "reverse_proxy")%string then
      match args with
      | target :: _ =>
        mk_caddy site root (routes ++ ["route /* ~> proxy(" +:+ with_scheme target +:+ ")"])
          (note "reverse_proxy" Exact "mapped to proxy()" b)
      | [] => st
      end
    else if (directive =? "root")%string then mk_caddy site (last args) routes b
    else if (directive =? "file_server")%string then
      let dir := default "." root in
      mk_caddy site root (routes ++ ["route /* ~> files(" +:+ Text.in_quotes dir +:+ ")"])
        (note "file_server" Exact "mapped to files()" b)
    else if (directive =? "redir")%string then
      match args with
      | [from; to; code] =>
        mk_caddy site root (routes ++ [redirect_route from to code]) (note "redir" Exact "mapped to redirect()" b)
      | [from; to] =>
        mk_caddy site root (routes ++ [redirect_route from to "302"]) (note "redir" Approximate "default status 302 assumed" b)
      | _ => mk_caddy site root routes (note "redir" Manual "unrecognized redir form" b)
      end
    else if (directive =? "respond")%string then
      let code := default 200%Z (Model.find_map (parse_unsigned u16_max) args) in
      mk_caddy site root (routes ++ ["route /* ~> respond(status=" +:+ show_u code +:+ ")"])
        (note "respond" Approximate "mapped to respond()" b)
    else if (directive =? "tls")%string then
      mk_caddy site root routes (note "tls" Approximate "Caddy TLS maps to `tls auto`; explicit certs need a tls{} block" b)
    else mk_caddy site root routes (note directive Manual "Caddy directive needs manual review" b)
  end.

Definition emit_site (hosts : list string) (routes : list string) (b : Builder) : Builder :=
  let host_line := match hosts with [] => ":default" | _ => join " " hosts end in
  let b := open ("site " +:+ host_line +:+ " {") b in
  let b := line "tls auto" b in
  let b :=
    match routes with
    | [] => note "site" Manual "no recognized handler; added a placeholder route" (line "route /* ~> respond(status=404)" b)
    | _ => foldl (fun b r => line r b) b routes
    end in
  close b.

Definition caddy_line (st : CaddyState) (raw : string) : CaddyState :=
  let l := trim raw in
  if bool_decide (l = "") || starts_with "#" l then st
  else
    match strip_suffix "{" l with
    | Some header =>
      mk_caddy (Some (filter (fun h => h <> "") (caddy_host_only <$> Text.split_whitespace header))) None [] (builder st)
    | None =>
      if (l =? "}")%string then
        match site st with
        | Some hosts => mk_caddy None None [] (emit_site hosts (routes st) (builder st))
        | None => mk_caddy None (root st) [] (builder st)
        end
      else caddy_directive l st
    end.

Definition caddy_import (text : string) : Import :=
  let b := line "# Imported from Caddy by `pulsate import caddy`. Review the notes." builder_default in
  finish (builder (foldl caddy_line (mk_caddy None None [] b) (Text.lines text))).
End Caddy.

(** ** [haproxy.rs] *)
Module HAProxy.
Import Migrate.

Record Section := mk_section { kind : string; name : string; lines : list (list string) }.

Definition strip_comment (line : string) : string := default line (head (split_char "#" line)).

Definition is_section (word : string) : bool :=
  existsb (String.eqb word) ["global"; "defaults"; "frontend"; "backend"; "listen"].

(** The sections so far, the current one last. *)
Definition parse_line (sections : list Section) (raw : string) : list Section :=
  let l := strip_comment raw in
  match Text.split_whitespace l with
  | [] => sections
  | word :: rest =>
    let indented := starts_with " " raw || starts_with (String tab "") raw in
    if negb indented && is_section word then sections ++ [mk_section word (default "" (head rest)) []]
    else
      match last sections with
      | Some cur =>
        <[pred (length sections) := mk_section (kind cur) (name cur) (lines cur ++ [word :: rest])]> sections
      | None => sections
      end
  end.
Definition parse_sections (text : string) : list Section := foldl parse_line [] (Text.lines text).

Definition server_targets (s : Section) : list string :=
  with_scheme <$> omap (fun l => l !! 2) (filter (fun l => head l = Some "server") (lines s)).

Definition backend_handler (be : string) : string :=
  match strip_prefix "__redirect:" be with
  | Some rest =>
    match Text.rsplit_once ":" rest with
    | Some (url, code) => "redirect(to=" +:+ Text.in_quotes url +:+ ", status=" +:+ code +:+ ")"
    | None => "proxy(@" +:+ be +:+ ")"
    end
  | None => "proxy(@" +:+ be +:+ ")"
  end.

Record SiteState := mk_site_state {
  hosts : list string;
  tls : bool;
  acls : gmap string string;
  routes : list (string * string);
  default_backend : option string;
  builder : Builder;
}.

Definition haproxy_redirect (l : list string) (b : Builder) (routes : list (string * string)) : Builder * list (string * string) :=
  match l !! 1, l !! 2 with
  | Some form, Some url =>
    if (form =? "location")%string || (form =? "prefix")%string then
      let code := default "302" (Text.word_after "code" l) in
      (note "redirect" Approximate "mapped to redirect()" b,
       routes ++ [("/*", "__redirect:" +:+ url +:+ ":" +:+ code)])
    else (note "redirect" Manual "unrecognized redirect form" b, routes)
  | _, _ => (note "redirect" Manual "unrecognized redirect form" b, routes)
  end.

Definition map_line (st : SiteState) (l : list string) : SiteState :=
  let '(mk_site_state hosts tls acls routes default_backend b) := st in
  match l with
  | [] => st
  | word :: _ =>
    if (word =? "bind")%string then
      mk_site_state hosts (tls || existsb (fun w => (w =? "ssl")%string) l) acls routes default_backend b
    else if (word =? "acl")%string then
      match l !! 1, l !! 2, l !! 3 with
      | Some name, Some kind, Some val =>
        if starts_with "path" kind then
          let pat := if (kind =? "path")%string then "= " +:+ val else strip_slash val +:+ "/*" in
          mk_site_state hosts tls (<[name := pat]> acls) routes default_backend b
        else if starts_with "hdr" kind || (kind =? "ssl_fc_sni")%string then
          mk_site_state (hosts ++ [val]) tls acls routes default_backend b
        else st
      | _, _, _ => st
      end
    else if (word =? "use_backend")%string then
      let be := default "" (l !! 1) in
      match a ← Text.word_after "if" l; acls !! a with
      | Some pat => mk_site_state hosts tls acls (routes ++ [(pat, be)]) default_backend b
      | None =>
        mk_site_state hosts tls acls routes default_backend
          (note "use_backend" Manual "conditional needs a non-path ACL translated by hand" b)
      end
    else if (word =? "default_backend")%string then mk_site_state hosts tls acls routes (l !! 1) b
    else if (word =? "redirect")%string then
      let '(b, routes) := haproxy_redirect l b routes in mk_site_state hosts tls acls routes default_backend b
    else st
  end.

Definition map_site (upstreams : gmap string (list string)) (b : Builder) (s : Section) : Builder :=
  let '(mk_site_state hosts tls _ routes default_backend b) :=
    foldl map_line (mk_site_state [] false ∅ [] None b) (lines s) in
  let hosts := match hosts with [] => [":default"] | _ => hosts end in
  let b := open ("site " +:+ join " " hosts +:+ " {") b in
  let b :=
    if tls then
      note "bind ssl" Approximate "TLS mapped to `tls auto` (ACME); explicit crt needs a tls{} block" (line "tls auto" b)
    else b in
  let self_pool := bool_decide (is_Some (upstreams !! name s)) in
  let default_backend :=
    if bool_decide (default_backend = None) && bool_decide (routes = []) && self_pool then Some (name s) else default_backend in
  let b := foldl (fun b r =>
    note "use_backend" Exact "mapped to a path route + proxy()"
      (line ("route " +:+ fst r +:+ " ~> " +:+ backend_handler (snd r)) b)) b routes in
  let b :=
    match default_backend with
    | Some be => note "default_backend" Exact "mapped to the catch-all route" (line ("route /* ~> " +:+ backend_handler be) b)
    | None =>
      match routes with
      | [] => note "frontend" Manual "no backend resolved; added a placeholder route" (line "route /* ~> respond(status=404)" b)
      | _ => b
      end
    end in
  close b.

Definition add_upstream (upstreams : gmap string (list string)) (s : Section) : gmap string (list string) :=
  if (kind s =? "backend")%string || (kind s =? "listen")%string then
    match server_targets s with [] => upstreams | targets => <[name s := targets]> upstreams end
  else upstreams.

Definition emit_upstream (b : Builder) (u : string * list string) : Builder :=
  let b := open ("upstream " +:+ fst u +:+ " {") b in
  let b := foldl (fun b t => line ("target " +:+ t) b) b (snd u) in
  note "backend" Exact "mapped to a Flow upstream pool" (close b).

(** [iter]: the order in which the hash map yields its entries. *)
Definition haproxy_import (iter : gmap string (list string) -> list (string * list string)) (text : string) : Import :=
  let sections := parse_sections text in
  let b := line "# Imported from HAProxy by `pulsate import haproxy`. Review the notes." builder_default in
  let upstreams := foldl add_upstream ∅ sections in
  let b := foldl emit_upstream b (iter upstreams) in
  let b := foldl (fun b s =>
    if (kind s =? "frontend")%string || (kind s =? "listen")%string then map_site upstreams b s else b) b sections in
  finish b.
End HAProxy.

(** ** [apache.rs] *)
Module Apache.
Import Migrate.

Record Vhost := mk_vhost {
  hosts : list string;
  tls : bool;
  routes : list string;
  doc_root : option string;
  has_root_route : bool;
}.
Definition vhost_default : Vhost := mk_vhost [] false [] None false.

Definition trim_quotes : string -> string := trim_matches (fun c => Ascii.eqb c dquote).
(** [split(['/', ':']).next()]. *)
Definition apache_host_only (addr : string) : string :=
  let addr := Text.trim_start_matches "https://" (Text.trim_start_matches "http://" (trim_quotes addr)) in
  (span_while (fun c => negb (Ascii.eqb c "/" || Ascii.eqb c ":")) addr).1.

Definition with_routes (v : Vhost) (r : string) (catch_all : bool) : Vhost :=
  mk_vhost (hosts v) (tls v) (routes v ++ [r]) (doc_root v) (has_root_route v || catch_all).

Definition map_proxy_pass (args : list string) (v : Vhost) (b : Builder) : Vhost * Builder :=
  match args with
  | path :: target :: _ =>
    if (target =? "!")%string then (v, note "ProxyPass" Manual "exclusion (`!`) needs a manual route" b)
    else
      let handler := "proxy(" +:+ strip_slash target +:+ ")" in
      let v :=
        if (path =? "/")%string then with_routes v ("route /* ~> " +:+ handler) true
        else with_routes v ("route " +:+ strip_slash path +:+ "/* ~> " +:+ handler) false in
      (v, note "ProxyPass" Exact "mapped to proxy()" b)
  | _ => (v, note "ProxyPass" Manual "unrecognized ProxyPass form" b)
  end.

(** The code, source and target of a redirect. *)
Definition redirect_parts (args : list string) : option (string * string * string) :=
  match args with
  | [code; from; to] =>
    if forallb is_ascii_digit (bytes_of code) then Some (code, from, to)
    else if (code =? "permanent")%string || (code =? "temp")%string || (code =? "seeother")%string then
      Some (if (code =? "permanent")%string then "301" else "302", from, to)
    else None
  | [from; to] => Some ("302", from, to)
  | _ => None
  end.
Definition apache_redirect (args : list string) (v : Vhost) (b : Builder) : Vhost * Builder :=
  match redirect_parts args with
  | Some (code, from, to) =>
    let pattern := if (from =? "/")%string then "/*" else from in
    let v := with_routes v
      ("route " +:+ pattern +:+ " ~> redirect(to=" +:+ Text.in_quotes to +:+ ", status=" +:+ code +:+ ")")
      (pattern =? "/*")%string in
    (v, note "Redirect" Exact "mapped to redirect()" b)
  | None => (v, note "Redirect" Manual "unrecognized Redirect form" b)
  end.

Definition apache_directive (line : string) (v : Vhost) (b : Builder) : Vhost * Builder :=
  match Text.split_whitespace line with
  | [] => (v, b)
  | directive :: args =>
    let d := to_ascii_lowercase directive in
    if (d =? "servername")%string then
      match args with
      | h :: _ => (mk_vhost (apache_host_only h :: hosts v) (tls v) (routes v) (doc_root v) (has_root_route v), b)
      | [] => (v, b)
      end
    else if (d =? "serveralias")%string then
      (mk_vhost (hosts v ++ (apache_host_only <$> args)) (tls v) (routes v) (doc_root v) (has_root_route v), b)
    else if (d =? "sslengine")%string then
      let on := match args with a :: _ => eq_ignore_ascii_case a "on" | [] => false end in
      (mk_vhost (hosts v) (tls v || on) (routes v) (doc_root v) (has_root_route v), b)
    else if (d =? "proxypass")%string then map_proxy_pass args v b
    else if (d =? "documentroot")%string then
      (mk_vhost (hosts v) (tls v) (routes v) (trim_quotes <$> head args) (has_root_route v), b)
    else if (d =? "redirect")%string then apache_redirect args v b
    else if existsb (String.eqb d) ["proxypassmatch"; "redirectmatch"; "rewriterule"; "rewritecond"] then
      (v, note directive Manual "regex/rewrite rule needs a manual Flow route" b)
    else if existsb (String.eqb d) ["<directory"; "<location"; "<files"; "<ifmodule"] then
      (v, note directive Manual "container block needs manual review" b)
    else (v, b)
  end.

(** The length of the pattern of an emitted route. *)
Definition route_len (route : string) : nat :=
  match strip_prefix "route " route with
  | Some r => match Text.split_whitespace r with w :: _ => String.length w | [] => 0 end
  | None => 0
  end.

(** [DocumentRoot] is the catch-all when nothing else is. *)
Definition settle_root (v : Vhost) (b : Builder) : Vhost * Builder :=
  if has_root_route v then (v, b)
  else
    match doc_root v with
    | Some root =>
      (mk_vhost (hosts v) (tls v) (routes v ++ ["route /* ~> files(" +:+ Text.in_quotes root +:+ ")"]) None true,
       note "DocumentRoot" Exact "mapped to files()" b)
    | None => (v, b)
    end.

Definition emit_vhost (v : Vhost) (b : Builder) : Builder :=
  let '(v, b) := settle_root v b in
  let host_line := match hosts v with [] => ":default" | _ => join " " (hosts v) end in
  let b := open ("site " +:+ host_line +:+ " {") b in
  let b :=
    if tls v then
      note "SSLEngine" Approximate "TLS mapped to `tls auto` (ACME); explicit certs need a tls{} block" (line "tls auto" b)
    else b in
  let b :=
    match routes v with
    | [] => note "VirtualHost" Manual "no recognized handler; added a placeholder route" (line "route /* ~> respond(status=404)" b)
    | rs => foldl (fun b r => line r b) b (Text.sort_desc route_len rs)
    end in
  close b.

Definition note_global (line : string) (b : Builder) : Builder :=
  let directive := default "" (head (Text.split_whitespace line)) in
  if eq_ignore_ascii_case directive "listen" then
    note "Listen" Dropped "bind addresses are set via Flow listeners / CLI, not the site" b
  else b.

Definition apache_line (st : option Vhost * Builder) (raw : string) : option Vhost * Builder :=
  let '(vhost, b) := st in
  let l := trim raw in
  if bool_decide (l = "") || starts_with "#" l then st
  else
    let lower := to_ascii_lowercase l in
    if starts_with "<virtualhost" lower then
      (Some (mk_vhost [] (contains ":443" l) [] None false), b)
    else if starts_with "</virtualhost" lower then
      match vhost with Some v => (None, emit_vhost v b) | None => (None, b) end
    else
      match vhost with
      | Some v => let '(v, b) := apache_directive l v b in (Some v, b)
      | None => (None, note_global l b)
      end.

Definition apache_import (text : string) : Import :=
  let b := line "# Imported from Apache by `pulsate import apache`. Review the notes." builder_default in
  let '(vhost, b) := foldl apache_line (None, b) (Text.lines text) in
  let b := match vhost with Some v => emit_vhost v b | None => b end in
  finish b.
End Apache.

(** ** The dispatcher of [lib.rs] *)
Module Dispatch.
Import Migrate.

Inductive Source := Nginx | Caddy | HAProxy | Apache.

Definition parse_source (name : string) : option Source :=
  let n := to_ascii_lowercase name in
  if (n =? "nginx")%string then Some Nginx
  else if (n =? "caddy")%string then Some Caddy
  else if (n =? "haproxy")%string then Some HAProxy
  else if (n =? "apache")%string || (n =? "httpd")%string then Some Apache
  else None.

Definition import (iter : gmap string (list string) -> list (string * list string)) (source : Source) (text : string)
    : exec () Import :=
  match source with
  | Nginx => Nginx.nginx_import text
  | Caddy => Ok (Caddy.caddy_import text)
  | HAProxy => Ok (HAProxy.haproxy_import iter text)
  | Apache => Ok (Apache.apache_import text)
  end.
End Dispatch.
