(* ===== verification/MigrateProps.v ===== *)
(** * [pulsate-migrate]: what the importers write

    Every importer writes a comment and then blocks of Flow.  For sources whose
    words hold no mark of Flow's, the text is the printed form of a document,
    so the Flow parser reads it back; for nginx the document is given by the
    tree of directives, and the tree by the text. *)

From Stdlib Require Import ZArith Ascii String Lia.
From stdpp Require Import base option list gmap strings.
From S2P Require Import Prelude RustStr CoreTypes FlowSyntax FlowLexer FlowLexerProps FlowParser FlowPrint Migrate.
Import Migrate.
Local Open Scope string_scope.
Local Open Scope list_scope.

(** ** Words without marks *)
Definition plain_byte (b : ascii) : bool :=
  is_ascii b && negb (atom_stop b) && negb (Ascii.eqb b "~") && negb (Ascii.eqb b "$") && negb (Ascii.eqb b backslash).
Definition plain (s : string) : bool := forallb plain_byte (bytes_of s).
Definition word (s : string) : bool := negb (s =? "")%string && plain s.

Lemma plain_byte_spec b : plain_byte b = true ->
  is_ascii b = true /\ atom_stop b = false /\ b <> "~"%char /\ is_cont b = false /\ b <> "$"%char /\ b <> backslash /\ b <> dquote.
Proof. destruct b as [[] [] [] [] [] [] [] []]; vm_compute; intros; repeat split; congruence. Qed.

Lemma plain_all s : plain s = true <-> forall b, b ∈ bytes_of s -> plain_byte b = true.
Proof. unfold plain. rewrite forallb_forall. split; intros H b Hb; by apply H, list_elem_of_In. Qed.

Lemma plain_app s t : plain (s +:+ t) = plain s && plain t.
Proof. unfold plain. rewrite bytes_of_app. apply forallb_app. Qed.

Lemma plain_sub s t : (forall b, b ∈ bytes_of t -> b ∈ bytes_of s) -> plain s = true -> plain t = true.
Proof. rewrite !plain_all. auto. Qed.

Lemma word_split s : word s = true <-> s <> "" /\ plain s = true.
Proof. unfold word. rewrite andb_true_iff, negb_true_iff, String.eqb_neq. done. Qed.

Lemma word_atom s : word s = true -> atom_ok s.
Proof.
  intros [Hne Hp]%word_split. rewrite plain_all in Hp. split.
  - apply Forall_forall. intros b Hb. by apply Hp, plain_byte_spec in Hb as (_ & ? & ? & _).
  - destruct s as [|c s]; [done|]. assert (Hc : plain_byte c = true) by (apply Hp; left).
    by apply plain_byte_spec in Hc as (_ & _ & _ & ? & ? & _).
Qed.

Lemma plain_valid s : plain s = true -> utf8_valid s = true.
Proof.
  intros Hp. apply ascii_valid, Forall_forall. intros b Hb. rewrite plain_all in Hp.
  by apply Hp, plain_byte_spec in Hb as (? & _).
Qed.

(** Between quotes, a plain word is written as it is. *)
Lemma plain_quote s : plain s = true -> Text.in_quotes s = quote s.
Proof.
  intros Hp. unfold Text.in_quotes, quote. cbn [str_of string_of_list_ascii]. f_equal.
  assert (H : escape_literal (chars s) = bytes_of s).
  { unfold chars. rewrite chars_ascii.
    - unfold escape_literal. rewrite plain_all in Hp. induction (bytes_of s) as [|b l IH]; [done|].
      cbn [fmap list_fmap mbind list_bind]. rewrite IH by (intros; apply Hp; by right). clear IH.
      assert (Hb : plain_byte b = true) by (apply Hp; left). clear Hp. change (b :: l) with ([b] ++ l). f_equal. revert Hb.
      destruct b as [[] [] [] [] [] [] [] []]; vm_compute; congruence.
    - apply Forall_forall. intros b Hb. rewrite plain_all in Hp. by apply Hp, plain_byte_spec in Hb as (? & _). }
  rewrite H, str_of_app, str_of_bytes. reflexivity.
Qed.

(** What is cut out of a plain word is plain. *)
Lemma bytes_trim_end p s b : b ∈ bytes_of (trim_end_matches p s) -> b ∈ bytes_of s.
Proof.
  unfold trim_end_matches, drop_while_end. rewrite bytes_of_str. rewrite elem_of_reverse. intros Hb.
  apply elem_of_reverse. revert Hb. induction (reverse (bytes_of s)) as [|x l IH]; [done|]. cbn [drop_while].
  destruct (p x); [|done]. intros Hb. right. by apply IH.
Qed.

Lemma plain_trim_end p s : plain s = true -> plain (trim_end_matches p s) = true.
Proof. apply plain_sub, bytes_trim_end. Qed.

Lemma plain_strip p s t : strip_prefix p s = Some t -> plain s = true -> plain t = true.
Proof. intros ->%strip_prefix_Some. rewrite plain_app. by intros [_ ?]%andb_true_iff. Qed.

Lemma scheme_word w : word w = true -> word (with_scheme w) = true.
Proof.
  intros [Hne Hp]%word_split. unfold with_scheme. destruct (contains _ w); apply word_split; [done|].
  split; [done|]. by rewrite plain_app.
Qed.

Lemma glob_word p w : plain w = true -> word (trim_end_matches p w +:+ "/*") = true.
Proof.
  intros Hp. apply word_split. split; [by destruct (trim_end_matches p w)|]. rewrite plain_app, plain_trim_end by done. done.
Qed.

(** ** Flow statements the importers write *)
Definition atom_arg (w : string) : PArg := mk_parg None (PAtom w).
Definition tls_auto : PStmt := PDirective "tls" [atom_arg "auto"].
Definition target (url : string) : PStmt := PDirective "target" [atom_arg url].
Definition block (kw : string) (words : list string) (body : list PStmt) : PStmt := PBlock kw (atom_arg <$> words) body.
Definition do_route (kind : MatchKind.MatchKind) (pattern handler : string) (args : list PArg) : PStmt :=
  PRouteStmt (mk_proute kind pattern [] handler args).
Definition do_respond (code : string) : string * list PArg := ("respond", [mk_parg (Some "status") (PAtom code)]).
Definition do_redirect (url code : string) : string * list PArg :=
  ("redirect", [mk_parg (Some "to") (PText url); mk_parg (Some "status") (PAtom code)]).
Definition do_files (root : string) : string * list PArg := ("files", [mk_parg None (PText root)]).
Definition do_proxy (to : string) : string * list PArg := ("proxy", [atom_arg to]).

Definition handler_text (h : string * list PArg) : string := h.1 +:+ "(" +:+ join ", " (print_arg <$> h.2) +:+ ")".
Definition handler_ok (h : string * list PArg) : Prop := atom_ok h.1 /\ Forall arg_ok h.2.

Ltac lit_atom := split; [by repeat (constructor; [by vm_compute|])|by vm_compute].

Lemma respond_text code : handler_text (do_respond code) = "respond(status=" +:+ code +:+ ")".
Proof. unfold handler_text, do_respond. cbn. by append_norm. Qed.
Lemma redirect_text url code : plain url = true ->
  handler_text (do_redirect url code) = "redirect(to=" +:+ Text.in_quotes url +:+ ", status=" +:+ code +:+ ")".
Proof. intros Hu. rewrite plain_quote by done. unfold handler_text, do_redirect. cbn. by append_norm. Qed.
Lemma files_text root : plain root = true -> handler_text (do_files root) = "files(" +:+ Text.in_quotes root +:+ ")".
Proof. intros Hu. rewrite plain_quote by done. unfold handler_text, do_files. cbn. by append_norm. Qed.
Lemma proxy_text to : handler_text (do_proxy to) = "proxy(" +:+ to +:+ ")".
Proof. unfold handler_text, do_proxy. cbn. by append_norm. Qed.

Lemma respond_ok code : word code = true -> handler_ok (do_respond code).
Proof. intros H. split; [lit_atom|]. constructor; [|constructor]. split; [lit_atom|]. by apply word_atom. Qed.
Lemma redirect_ok url code : plain url = true -> word code = true -> handler_ok (do_redirect url code).
Proof.
  intros Hu Hc. split; [lit_atom|]. constructor; [|constructor; [|constructor]]; (split; [lit_atom|]);
    [by apply plain_valid|by apply word_atom].
Qed.
Lemma files_ok root : plain root = true -> handler_ok (do_files root).
Proof. intros Hu. split; [lit_atom|]. constructor; [|constructor]. split; [done|]. by apply plain_valid. Qed.
Lemma proxy_ok to : word to = true -> handler_ok (do_proxy to).
Proof. intros Hu. split; [lit_atom|]. constructor; [|constructor]. split; [done|]. by apply word_atom. Qed.

Lemma route_text kind pattern h :
  print_core "  " (do_route kind pattern h.1 h.2)
  = "route " +:+ match kind with MatchKind.Prefix => "" | MatchKind.Exact => "= " | MatchKind.Regex => "~ " end
    +:+ pattern +:+ " ~> " +:+ handler_text h.
Proof.
  unfold do_route, handler_text. cbn [print_core]. unfold print_route, print_matcher.
  cbn [pr_kind pr_pattern pr_predicates pr_handler pr_args]. destruct kind; by append_norm.
Qed.

Lemma route_ok_print kind pattern h : kind <> MatchKind.Regex -> word pattern = true -> handler_ok h ->
  printable (do_route kind pattern h.1 h.2).
Proof.
  intros Hk Hp [Ha Hargs]. cbn [printable do_route]. unfold route_printable. cbn [pr_kind pr_pattern pr_predicates pr_handler pr_args].
  split; [done|]. split; [by apply word_atom|]. split; [constructor|done].
Qed.

Lemma words_ok ws : Forall (fun w => word w = true) ws -> Forall arg_ok (atom_arg <$> ws).
Proof. intros H. apply Forall_fmap. eapply Forall_impl; [exact H|]. intros w Hw. split; [done|]. by apply word_atom. Qed.

Lemma print_words ws : ws <> [] -> print_args (atom_arg <$> ws) = " " +:+ join " " ws.
Proof.
  induction ws as [|w ws IH]; [done|]. intros _. destruct ws as [|w' ws]; [cbn; by append_norm|].
  cbn [fmap list_fmap print_args] in IH |- *. rewrite IH by done. cbn. by append_norm.
Qed.

(** ** The builder *)

(** The text so far is the document [l] under the comment [header]. *)
Definition written (header : string) (l : list PStmt) (b : Builder) : Prop :=
  b_indent b = 0 /\ b_flow b = print_doc header "" l /\ all_printable l.

(** A block with the opening line [head] was begun after [b0], and holds
    [body]. *)
Definition inside (b0 : Builder) (head : string) (body : list PStmt) (b : Builder) : Prop :=
  b_indent b = 1
  /\ b_flow b = b_flow b0 +:+ head +:+ nl +:+ sconcat (List.map (fun s => "  " +:+ print_core "  " s +:+ nl) body)
  /\ all_printable body.

Lemma written_start c : written (String "#" c) [] (line (String "#" c) builder_default).
Proof. split; [done|]. split; [|done]. unfold line, print_doc, print_stmts. cbn. by append_norm. Qed.

Lemma written_note header l b d f m : written header l b -> written header l (note d f m b).
Proof. done. Qed.

Lemma inside_open header l b head : written header l b -> inside b head [] (open head b).
Proof. intros (Hi & Hf & _). unfold inside, open, line. cbn. rewrite Hi. split; [done|]. split; [|done]. cbn. by append_norm. Qed.

Lemma inside_line b0 head body b text s : inside b0 head body b -> text = print_core "  " s -> printable s ->
  inside b0 head (body ++ [s]) (line text b).
Proof.
  intros (Hi & Hf & Hb) -> Hs. unfold inside, line. cbn [b_indent b_flow]. rewrite Hi, Hf, map_app, sconcat_app. split; [done|].
  split; [cbn; by append_norm|]. apply all_printable_app. split; [done|]. by split.
Qed.

Lemma inside_note b0 head body b d f m : inside b0 head body b -> inside b0 head body (note d f m b).
Proof. done. Qed.

(** A loop that writes at most one statement for each element. *)
Lemma inside_fold {A} (step : Builder -> A -> Builder) (f : A -> option PStmt) b0 hd (l : list A) :
  (forall a, a ∈ l -> forall b body, inside b0 hd body b ->
     inside b0 hd (body ++ match f a with Some s => [s] | None => [] end) (step b a)) ->
  forall b body, inside b0 hd body b -> inside b0 hd (body ++ omap f l) (foldl step b l).
Proof.
  induction l as [|a l IH]; intros Hs b body Hb; [by rewrite app_nil_r|]. cbn [foldl].
  apply (Hs a (list_elem_of_here _ _)) in Hb.
  apply IH in Hb; [|intros a' Ha'; apply Hs; by right]. rewrite <-app_assoc in Hb. cbn. by destruct (f a).
Qed.

Lemma tls_printable : printable tls_auto.
Proof. split; [lit_atom|]. split; [done|]. constructor; [|constructor]. split; [done|]. lit_atom. Qed.


Lemma inside_tls header l b hd d f m (tls : bool) : written header l b ->
  inside b hd (if tls then [tls_auto] else []) (if tls then note d f m (line "tls auto" (open hd b)) else open hd b).
Proof.
  intros Hw. destruct tls; [|by eapply inside_open]. apply inside_note.
  apply (inside_line _ _ [] _ _ tls_auto); [by eapply inside_open|done|apply tls_printable].
Qed.

Lemma written_close header l b0 kw words body b :
  written header l b0 -> inside b0 (kw +:+ " " +:+ join " " words +:+ " {") body b ->
  atom_ok kw -> kw <> "route" -> words <> [] -> Forall (fun w => word w = true) words ->
  written header (l ++ [block kw words body]) (close b).
Proof.
  intros (Hi0 & Hf0 & Hl) (Hi & Hf & Hb) Hkw Hr Hne Hw. unfold written, close, line. cbn [b_indent b_flow]. rewrite Hi.
  split; [done|]. split.
  - rewrite Hf, Hf0. unfold print_doc, print_stmts, block. rewrite map_app, sconcat_app.
    cbn [List.map sconcat print_core indentation pred]. rewrite print_words by done. by append_norm.
  - apply all_printable_app. split; [done|]. split; [|done]. cbn [printable block]. split; [done|]. split; [done|].
    split; [by apply words_ok|done].
Qed.

(** A written text is Flow. *)
Lemma written_reads debug_value c l b : Forall (fun x => x <> newline) (bytes_of c) -> written (String "#" c) l b ->
  exists ast, flow_parse debug_value (b_flow b) = Ok ast /\ map erase_stmt (stmts ast) = map (stmt_tree debug_value) l.
Proof.
  intros Hc (_ & -> & Hl). apply spelled_parse; [|done]. apply doc_spelled; [done|constructor|done].
Qed.

Lemma target_stmt_text url : "target " +:+ url = print_core "  " (target url).
Proof. cbn. by append_norm. Qed.
Lemma pool_target_printable url : word url = true -> printable (target url).
Proof. intros Hu. split; [lit_atom|]. split; [done|]. constructor; [|constructor]. split; [done|]. by apply word_atom. Qed.

(** ** nginx *)
Module NginxSpec.
Import Nginx.

(** What a tree of directives stands for. *)
Definition location_pattern (args : list string) : option (MatchKind.MatchKind * string) :=
  match args with
  | [] => None
  | m :: rest =>
    if (m =? "=")%string then Some (MatchKind.Exact, default "" (head rest))
    else if (m =? "~")%string || (m =? "~*")%string then None
    else Some (MatchKind.Prefix, if (m =? "/")%string then "/*" else strip_slash m +:+ "/*")
  end.
Definition return_handler (args : list string) : string * list PArg :=
  match args with
  | [code; url] => if contains "://" url || starts_with "/" url then do_redirect url code else do_respond code
  | code :: _ => do_respond code
  | [] => do_respond "200"
  end.
Definition directive_handler (d : Node) : option (string * list PArg) :=
  if (node_name d =? "proxy_pass")%string then (fun to => do_proxy (upstream_ref to)) <$> head (node_args d)
  else if (node_name d =? "return")%string then Some (return_handler (node_args d))
  else None.
Definition is_root (d : Node) : bool :=
  negb (node_name d =? "proxy_pass")%string && negb (node_name d =? "return")%string
  && ((node_name d =? "root")%string || (node_name d =? "alias")%string).
Definition block_root (block : list Node) : option string :=
  d ← last (filter (fun d => is_root d = true) block); head (node_args d).
Definition location_handler (block : list Node) : option (string * list PArg) :=
  match last (omap directive_handler block) with Some h => Some h | None => do_files <$> block_root block end.
Definition location_stmt (loc : Node) : option PStmt :=
  '(kind, pattern) ← location_pattern (node_args loc);
  h ← location_handler (node_block loc);
  Some (do_route kind pattern h.1 h.2).

Definition is_named (n : string) (d : Node) : bool := (node_name d =? n)%string.
Definition server_hosts (block : list Node) : list string :=
  let hosts := default [] (node_args <$> last (filter (fun d => is_named "server_name" d = true) block)) in
  if bool_decide (hosts = []) || bool_decide (hosts = ["_"]) then [":default"] else hosts.
Definition server_tls (block : list Node) : bool :=
  existsb (fun d => is_named "listen" d && existsb (fun a => (a =? "ssl")%string) (node_args d)) block.
Definition server_stmt (server : Node) : PStmt :=
  block "site" (server_hosts (node_block server))
    ((if server_tls (node_block server) then [tls_auto] else [])
     ++ omap (fun d => if is_named "location" d then location_stmt d else None) (node_block server)).
Definition upstream_stmt (upstream : Node) : PStmt :=
  block "upstream" [default "" (head (node_args upstream))]
    (omap (fun d => if is_named "server" d then (fun a => target (with_scheme a)) <$> head (node_args d) else None)
       (node_block upstream)).
Fixpoint node_doc (n : Node) {struct n} : list PStmt :=
  let 'mk_node name _ block := n in
  if (name =? "http")%string || (name =? "stream")%string || (name =? "events")%string then concat (List.map node_doc block)
  else if (name =? "upstream")%string then [upstream_stmt n]
  else if (name =? "server")%string then [server_stmt n]
  else [].
Definition nginx_doc (nodes : list Node) : list PStmt := nodes ≫= node_doc.

(** The words that reach the Flow text hold no mark of Flow's. *)
Definition head_ok (p : string -> bool) (args : list string) : bool := match args with w :: _ => p w | [] => true end.
Definition return_clean (args : list string) : bool :=
  match args with [code; url] => word code && plain url | _ => head_ok word args end.
Definition directive_clean (d : Node) : bool :=
  if is_named "proxy_pass" d then head_ok word (node_args d)
  else if is_named "return" d then return_clean (node_args d)
  else head_ok plain (node_args d).
Definition location_clean (loc : Node) : bool :=
  match node_args loc with
  | m :: rest =>
    (if (m =? "=")%string then match rest with p :: _ => word p | [] => false end
     else (m =? "~")%string || (m =? "~*")%string || plain m)
  | [] => true
  end && forallb directive_clean (node_block loc).
Definition server_clean (server : Node) : bool :=
  forallb (fun d => (if is_named "server_name" d then forallb word (node_args d) else true)
                    && (if is_named "location" d then location_clean d else true)) (node_block server).
Definition upstream_clean (upstream : Node) : bool :=
  match node_args upstream with w :: _ => word w | [] => false end
  && forallb (fun d => if is_named "server" d then head_ok word (node_args d) else true) (node_block upstream).
Fixpoint node_clean (n : Node) {struct n} : bool :=
  let 'mk_node name _ block := n in
  if (name =? "http")%string || (name =? "stream")%string || (name =? "events")%string then forallb node_clean block
  else if (name =? "upstream")%string then upstream_clean n
  else if (name =? "server")%string then server_clean n
  else true.
End NginxSpec.

Section NginxTranslation.
Import Nginx NginxSpec.

Lemma node_nested (P : Node -> Prop) :
  (forall name args block, Forall P block -> P (mk_node name args block)) -> forall n, P n.
Proof.
  intros H. fix IH 1. intros [name args block]. apply H. induction block as [|n block IHb]; constructor; [apply IH|exact IHb].
Qed.

Lemma ref_word to : word to = true -> word (upstream_ref to) = true.
Proof.
  intros Hw. unfold upstream_ref. destruct (strip_prefix "http://" to) as [host|] eqn:E; [|done].
  destruct (_ && _); [|done]. apply word_split in Hw as [_ Hp]. apply word_split. split; [done|].
  rewrite plain_app. by rewrite (plain_strip _ _ _ E).
Qed.

Lemma directive_handler_ok d h : directive_clean d = true -> directive_handler d = Some h -> handler_ok h.
Proof.
  unfold directive_clean, directive_handler, is_named.
  destruct (node_name d =? "proxy_pass")%string; [|destruct (node_name d =? "return")%string; [|done]].
  - destruct (node_args d) as [|to args]; [done|]. cbn. intros Hw [= <-]. by apply proxy_ok, ref_word.
  - unfold return_clean. intros Hc [= <-]. unfold return_handler. destruct (node_args d) as [|code [|url [|? ?]]]; cbn in Hc.
    + by apply respond_ok.
    + by apply respond_ok.
    + apply andb_true_iff in Hc as [??]. destruct (_ || _); [by apply redirect_ok|by apply respond_ok].
    + by apply respond_ok.
Qed.

Lemma map_return_text args b :
  return_clean args = true ->
  exists d f m, map_return args b = (handler_text (return_handler args), note d f m b).
Proof.
  intros Hc. unfold map_return, return_handler, return_clean in *. destruct args as [|code [|url [|? ?]]]; rewrite ?respond_text; eauto.
  apply andb_true_iff in Hc as [_ Hu]. destruct (_ || _); rewrite ?respond_text, ?redirect_text by done; eauto.
Qed.

(** A builder that differs in its notes only. *)
Definition same_text (b b' : Builder) : Prop := b_flow b' = b_flow b /\ b_indent b' = b_indent b.

Lemma inside_same b0 hd body b b' : same_text b b' -> inside b0 hd body b -> inside b0 hd body b'.
Proof. unfold inside. by intros [-> ->]. Qed.
Lemma written_same header l b b' : same_text b b' -> written header l b -> written header l b'.
Proof. unfold written. by intros [-> ->]. Qed.
Lemma same_trans b b' b'' : same_text b b' -> same_text b' b'' -> same_text b b''.
Proof. unfold same_text. intros [-> ->]. done. Qed.

Lemma location_directive_spec block h0 r0 b : forallb directive_clean block = true ->
  let '(h, r, b') := foldl location_directive (h0, r0, b) block in
  h = match last (omap directive_handler block) with Some h => Some (handler_text h) | None => h0 end
  /\ r = match last (filter (fun d => is_root d = true) block) with Some d => head (node_args d) | None => r0 end
  /\ same_text b b'.
Proof.
  induction block as [|d block IH] using rev_ind; [done|]. rewrite forallb_app. intros [Hb Hd]%andb_true_iff.
  cbn in Hd. rewrite andb_true_r in Hd. specialize (IH Hb). rewrite foldl_app. cbn [foldl].
  destruct (foldl location_directive (h0, r0, b) block) as [[h r] b']. destruct IH as (Hh & Hr & Hs).
  rewrite omap_app, filter_app, !last_app, filter_cons, filter_nil. cbn [omap list_omap]. unfold location_directive, directive_handler, is_root.
  unfold directive_clean, is_named in Hd.
  destruct (node_name d =? "proxy_pass")%string; [|destruct (node_name d =? "return")%string].
  - destruct (node_args d) as [|to args]; cbn; [done|]. by rewrite proxy_text.
  - destruct (map_return_text _ b' Hd) as (? & ? & ? & ->). cbn. done.
  - destruct ((node_name d =? "root")%string || (node_name d =? "alias")%string); cbn; [|done]. done.
Qed.

Lemma root_plain block root : forallb directive_clean block = true -> block_root block = Some root -> plain root = true.
Proof.
  unfold block_root. intros Hc H. apply bind_Some in H as (d & Hl & Hh).
  apply last_Some_elem_of, list_elem_of_filter in Hl as [Hr Hin]. rewrite forallb_forall in Hc.
  apply list_elem_of_In, Hc in Hin. unfold is_root in Hr. unfold directive_clean, is_named in Hin.
  destruct (node_name d =? "proxy_pass")%string, (node_name d =? "return")%string; try done.
  destruct (node_args d); [done|]. by injection Hh as ->.
Qed.

Lemma location_handler_ok block h : forallb directive_clean block = true -> location_handler block = Some h -> handler_ok h.
Proof.
  unfold location_handler. intros Hc. destruct (last (omap directive_handler block)) as [h'|] eqn:El.
  - intros [= <-]. apply last_Some_elem_of, list_elem_of_omap in El as (d & Hin & Hd). rewrite forallb_forall in Hc.
    apply (directive_handler_ok d); [by apply Hc, list_elem_of_In|done].
  - intros (root & Hr & ->)%fmap_Some. by apply files_ok, (root_plain block).
Qed.

Lemma map_location_spec loc b0 hd body b : location_clean loc = true -> inside b0 hd body b ->
  inside b0 hd (body ++ match location_stmt loc with Some s => [s] | None => [] end) (map_location loc b).
Proof.
  unfold location_clean, map_location, location_stmt, location_matcher. intros [Ha Hb]%andb_true_iff Hi.
  destruct (node_args loc) as [|m rest]; cbn [mbind option_bind location_pattern]; [by rewrite app_nil_r|].
  destruct (String.eqb_spec m "=") as [->|Hm]; [|destruct ((m =? "~")%string || (m =? "~*")%string) eqn:Et; [by rewrite app_nil_r|]].
  all: pose proof (location_directive_spec (node_block loc) None None b Hb) as Hh.
  all: destruct (foldl location_directive (None, None, b) (node_block loc)) as [[h r] b']; destruct Hh as (-> & Hr & Hs).
  all: assert (Er : r = block_root (node_block loc)) by (rewrite Hr; unfold block_root; by destruct (last _)).
  all: clear Hr; subst r; pose proof (location_handler_ok (node_block loc)) as Hok; pose proof (root_plain (node_block loc)) as Hp.
  all: unfold location_handler in *; apply (inside_same _ _ _ _ _ Hs) in Hi.
  all: destruct (last (omap directive_handler (node_block loc))) as [h'|];
    [|destruct (block_root (node_block loc)) as [root|]; [|by rewrite app_nil_r]].
  all: cbn [mbind option_bind fmap option_fmap option_map]; apply inside_line; [exact Hi| |].
  all: try (apply route_ok_print; [done| |by apply Hok]).
  all: try rewrite route_text; try rewrite files_text by (by apply Hp).
  - by append_norm.
  - by destruct rest.
  - by append_norm.
  - by destruct rest.
  - destruct (m =? "/")%string; by append_norm.
  - apply orb_true_iff in Ha as [Ha|Ha]; [done|]. destruct (m =? "/")%string; [done|]. by apply glob_word.
  - destruct (m =? "/")%string; by append_norm.
  - apply orb_true_iff in Ha as [Ha|Ha]; [done|]. destruct (m =? "/")%string; [done|]. by apply glob_word.
Qed.

Lemma server_settings_spec block :
  server_settings block
  = (default [] (node_args <$> last (filter (fun d => is_named "server_name" d = true) block)), server_tls block).
Proof.
  unfold server_settings, server_tls. induction block as [|d block IH] using rev_ind; [done|].
  rewrite foldl_app, IH, filter_app, last_app, existsb_app, filter_cons, filter_nil. cbn [foldl existsb]. unfold is_named.
  destruct (String.eqb_spec (node_name d) "server_name") as [->|Hn]; cbn; [by rewrite orb_false_r|].
  rewrite orb_false_r. destruct (_ && _); [by rewrite orb_true_r|by rewrite orb_false_r].
Qed.

Lemma map_server_spec header l b server : server_clean server = true -> written header l b ->
  written header (l ++ [server_stmt server]) (map_server server b).
Proof.
  intros Hc Hw. unfold map_server, server_stmt. rewrite server_settings_spec. unfold server_clean in Hc.
  rewrite forallb_forall in Hc. fold (server_hosts (node_block server)). set (hosts := server_hosts (node_block server)).
  assert (Hhosts : hosts <> [] /\ Forall (fun w => word w = true) hosts).
  { unfold hosts, server_hosts. destruct (last _) as [d|] eqn:El; [|by split; [|repeat constructor]].
    apply last_Some_elem_of, list_elem_of_filter in El as [Hn Hin]. apply list_elem_of_In, Hc, andb_true_iff in Hin as [Hin _].
    rewrite Hn in Hin. cbn. destruct (bool_decide_reflect (node_args d = [])); [by split; [|repeat constructor]|].
    destruct (bool_decide (node_args d = ["_"])); [by split; [|repeat constructor]|]. split; [done|].
    apply Forall_forall. intros w Hw'. rewrite forallb_forall in Hin. by apply Hin, list_elem_of_In. }
  destruct Hhosts as [Hne Hhosts].
  pose proof (inside_tls _ _ _ ("site " +:+ join " " hosts +:+ " {") "listen ssl" Approximate
    "TLS mapped to `tls auto` (ACME); manual certs need a tls{} block" (server_tls (node_block server)) Hw) as Hb.
  eapply (written_close _ _ b "site" hosts); [done| |lit_atom|done|done|done].
  apply inside_fold; [|exact Hb]. intros d Hd%list_elem_of_In b1 body Hi. apply Hc, andb_true_iff in Hd as [_ Hd].
  change (node_name d =? "location")%string with (is_named "location" d).
  destruct (is_named "location" d); [by apply map_location_spec|by rewrite app_nil_r].
Qed.

Lemma map_upstream_spec header l b upstream : upstream_clean upstream = true -> written header l b ->
  written header (l ++ [upstream_stmt upstream]) (map_upstream upstream b).
Proof.
  intros [Hn Hc]%andb_true_iff Hw. unfold map_upstream, upstream_stmt. rewrite forallb_forall in Hc.
  destruct (node_args upstream) as [|name args] eqn:Ea; [done|]. cbn [head default].
  apply written_note. eapply (written_close _ _ b "upstream" [name]); [done| |lit_atom|done|done|by constructor].
  apply (inside_fold _ _ _ _ (node_block upstream) ) with (body := []); [|by eapply inside_open].
  intros d Hd%list_elem_of_In b1 body Hi. apply Hc in Hd. unfold is_named in *.
  destruct (node_name d =? "server")%string; [|by rewrite app_nil_r].
  destruct (node_args d) as [|addr rest]; cbn; [by rewrite app_nil_r|]. cbn in Hd.
  apply inside_line; [done|apply target_stmt_text|]. by apply pool_target_printable, scheme_word.
Qed.

Lemma map_node_eq b name args block : map_node b (mk_node name args block) =
  if (name =? "http")%string || (name =? "stream")%string || (name =? "events")%string then foldl map_node b block
  else if (name =? "upstream")%string then map_upstream (mk_node name args block) b
  else if (name =? "server")%string then map_server (mk_node name args block) b
  else note name Dropped "top-level directive not translated" b.
Proof.
  cbn [map_node]. destruct (_ || _ || _); [|done]. clear. revert b. induction block as [|n block IH]; intros b; [done|]. apply IH.
Qed.

Lemma map_node_spec header n : forall l b, node_clean n = true -> written header l b ->
  written header (l ++ node_doc n) (map_node b n).
Proof.
  induction n as [name args block IH] using node_nested. intros l b Hc Hw. rewrite map_node_eq.
  cbn [node_clean node_doc] in *. destruct (_ || _ || _); [|destruct (name =? "upstream")%string; [|destruct (name =? "server")%string]].
  - revert l b Hc Hw. induction IH as [|n block Hn _ IHb]; intros l b Hc Hw; cbn [foldl List.map concat]; [by rewrite app_nil_r|].
    cbn in Hc. apply andb_true_iff in Hc as [Hc Hc']. rewrite app_assoc. by apply IHb, Hn.
  - by apply map_upstream_spec.
  - by apply map_server_spec.
  - by rewrite app_nil_r.
Qed.

Lemma map_spec header nodes : forall l b, forallb node_clean nodes = true -> written header l b ->
  written header (l ++ nginx_doc nodes) (Nginx.map_nodes nodes b).
Proof.
  unfold Nginx.map_nodes, nginx_doc. induction nodes as [|n nodes IH]; intros l b Hc Hw; [by rewrite app_nil_r|].
  cbn [foldl mbind list_bind]. cbn in Hc. apply andb_true_iff in Hc as [Hn Hc]. rewrite app_assoc. by apply IH, map_node_spec.
Qed.

(** *** Reading the tree *)

(** The parser returns, whatever the tokens. *)
Lemma parse_loop_total tokens fuel : forall nodes head pos, length tokens - pos < fuel ->
  exists nodes' pos', parse_block_loop tokens fuel nodes head pos = Ok (nodes', pos') /\ pos <= pos'.
Proof.
  induction fuel as [|fuel IH]; intros nodes head pos Hf; [lia|]. cbn [parse_block_loop].
  destruct (tokens !! pos) as [t|] eqn:Et; [|eauto]. apply lookup_lt_Some in Et.
  destruct (t =? "}")%string; [eexists _, _; split; [done|lia]|].
  destruct (t =? ";")%string; [|destruct (t =? "{")%string].
  - destruct (IH (push_node head [] nodes) [] (S pos)) as (ns & p & -> & ?); [lia|]. eexists _, _. split; [done|lia].
  - destruct (IH [] [] (S pos)) as (block & next & -> & ?); [lia|]. cbn [mbind exec_bind].
    destruct (IH (push_node head block nodes) [] next) as (ns & p & -> & ?); [lia|]. eexists _, _. split; [done|lia].
  - destruct (IH nodes (head ++ [t]) (S pos)) as (ns & p & -> & ?); [lia|]. eexists _, _. split; [done|lia].
Qed.

Lemma parse_block_total tokens pos : exists nodes pos', parse_block tokens pos = Ok (nodes, pos').
Proof.
  destruct (parse_loop_total tokens (S (length tokens)) [] [] pos) as (ns & p & E & _); [lia|]. unfold parse_block. eauto.
Qed.

(** The tokens of a tree: a directive without a block ends in a semicolon. *)
Fixpoint node_tokens (n : Node) : list string :=
  let 'mk_node name args block := n in
  name :: args ++ match block with [] => [";"] | _ => "{" :: concat (List.map node_tokens block) ++ ["}"] end.
Definition nodes_tokens (nodes : list Node) : list string := concat (List.map node_tokens nodes).

Definition plain_token (t : string) : bool := negb ((t =? "}")%string || (t =? ";")%string || (t =? "{")%string).
Fixpoint node_words (n : Node) : bool :=
  let 'mk_node name args block := n in plain_token name && forallb plain_token args && forallb node_words block.

Section Tree.
Variable tokens : list string.

(** The loop, at [pos], with enough fuel, goes on like the loop at [pos']. *)
Definition goes_on (nodes : list Node) (hd : list string) (pos : nat) (nodes' : list Node) (hd' : list string) (pos' : nat) : Prop :=
  forall fuel, length tokens - pos < fuel -> exists fuel', length tokens - pos' < fuel'
    /\ parse_block_loop tokens fuel nodes hd pos = parse_block_loop tokens fuel' nodes' hd' pos'.

Lemma goes_on_trans n1 h1 p1 n2 h2 p2 n3 h3 p3 : goes_on n1 h1 p1 n2 h2 p2 -> goes_on n2 h2 p2 n3 h3 p3 -> goes_on n1 h1 p1 n3 h3 p3.
Proof. intros H1 H2 fuel Hf. destruct (H1 fuel Hf) as (f2 & Hf2 & ->). by apply H2. Qed.

Lemma goes_on_step nodes hd pos nodes' hd' t rest :
  drop pos tokens = t :: rest ->
  (forall fuel, parse_block_loop tokens (S fuel) nodes hd pos = parse_block_loop tokens fuel nodes' hd' (S pos)) ->
  goes_on nodes hd pos nodes' hd' (S pos) /\ drop (S pos) tokens = rest.
Proof.
  intros Hd Hs. split.
  - intros [|fuel] Hf; [lia|]. exists fuel. split; [|apply Hs].
    assert (pos < length tokens); [|lia]. apply (f_equal length) in Hd. rewrite length_drop in Hd. cbn in Hd. lia.
  - replace (S pos) with (pos + 1) by lia. rewrite <-drop_drop, Hd. done.
Qed.

Lemma goes_on_words ws nodes hd pos rest : forallb plain_token ws = true -> drop pos tokens = ws ++ rest ->
  goes_on nodes hd pos nodes (hd ++ ws) (pos + length ws) /\ drop (pos + length ws) tokens = rest.
Proof.
  revert hd pos. induction ws as [|w ws IH]; intros hd pos Hw Hd; cbn [length app] in *.
  { rewrite app_nil_r, Nat.add_0_r. split; [|done]. intros fuel ?. by exists fuel. }
  cbn in Hw. apply andb_true_iff in Hw as [Hw Hws]. unfold plain_token in Hw.
  destruct (goes_on_step nodes hd pos nodes (hd ++ [w]) w (ws ++ rest)) as [H1 Hd1]; [done| |].
  - intros fuel. cbn [parse_block_loop]. rewrite <-(Nat.add_0_r pos), <-lookup_drop, Hd, Nat.add_0_r. cbn.
    by destruct (w =? "}")%string, (w =? ";")%string, (w =? "{")%string.
  - destruct (IH (hd ++ [w]) (S pos)) as [H2 Hd2]; [done|done|]. rewrite <-app_assoc in H2. cbn in H2.
    replace (pos + S (length ws)) with (S pos + length ws) by lia. split; [by eapply goes_on_trans|done].
Qed.

Lemma lookup_at pos t rest : drop pos tokens = t :: rest -> tokens !! pos = Some t.
Proof. intros Hd. rewrite <-(Nat.add_0_r pos), <-lookup_drop, Hd. done. Qed.

(** Parsing a directive in full, and a list of them. *)
Definition parses_node (n : Node) : Prop := forall nodes pos rest,
  node_words n = true -> drop pos tokens = node_tokens n ++ rest ->
  goes_on nodes [] pos (nodes ++ [n]) [] (pos + length (node_tokens n)) /\ drop (pos + length (node_tokens n)) tokens = rest.

Lemma goes_on_nodes l : Forall parses_node l -> forall acc pos rest,
  forallb node_words l = true -> drop pos tokens = nodes_tokens l ++ rest ->
  goes_on acc [] pos (acc ++ l) [] (pos + length (nodes_tokens l)) /\ drop (pos + length (nodes_tokens l)) tokens = rest.
Proof.
  unfold nodes_tokens. induction 1 as [|n l Hn _ IHl]; intros acc pos rest Hw Hd; cbn [List.map concat length app] in *.
  { rewrite app_nil_r, Nat.add_0_r. split; [|done]. intros fuel ?. by exists fuel. }
  cbn in Hw. apply andb_true_iff in Hw as [Hwn Hw]. rewrite <-app_assoc in Hd.
  destruct (Hn acc pos _ Hwn Hd) as [H1 Hd1]. destruct (IHl (acc ++ [n]) _ rest Hw Hd1) as [H2 Hd2].
  rewrite <-app_assoc in H2. rewrite length_app, Nat.add_assoc. split; [by eapply goes_on_trans|done].
Qed.

Lemma goes_on_node n : parses_node n.
Proof.
  induction n as [name args block IH] using node_nested. intros nodes pos rest Hw Hd. cbn [node_words node_tokens] in *.
  apply andb_true_iff in Hw as [Hw Hb]. rewrite app_comm_cons in Hd |- *. rewrite <-app_assoc in Hd.
  destruct (goes_on_words (name :: args) nodes [] pos _ Hw Hd) as [H1 Hd1]. rewrite app_nil_l in H1. rewrite length_app, Nat.add_assoc.
  set (p := pos + length (name :: args)) in *. destruct block as [|n0 block0] eqn:Eb.
  - cbn [length app] in *. destruct (goes_on_step nodes (name :: args) p (nodes ++ [mk_node name args []]) [] ";" rest) as [H2 Hd2]; [done| |].
    + intros fuel. cbn [parse_block_loop]. by rewrite (lookup_at _ _ _ Hd1).
    + replace (p + 1) with (S p) by lia. split; [by eapply goes_on_trans|done].
  - rewrite <-Eb in *. clear Eb n0 block0. cbn [app] in Hd1. rewrite <-app_assoc in Hd1.
    pose proof (lookup_at _ _ _ Hd1) as Ho. assert (Hd2 : drop (S p) tokens = concat (List.map node_tokens block) ++ "}" :: rest).
    { replace (S p) with (p + 1) by lia. rewrite <-drop_drop, Hd1. done. }
    destruct (goes_on_nodes block IH [] (S p) _ Hb Hd2) as [H2 Hd3]. cbn [app] in H2. pose proof (lookup_at _ _ _ Hd3) as Hc.
    unfold nodes_tokens in *. set (q := S p + length (concat (List.map node_tokens block))) in *.
    assert (Hlen : p < length tokens /\ q < length tokens) by (split; by eapply lookup_lt_Some).
    replace (p + length ("{" :: concat (List.map node_tokens block) ++ ["}"])) with (S q) by (cbn; rewrite length_app; cbn; lia).
    split.
    + eapply goes_on_trans; [exact H1|]. intros [|fuel] Hf; [lia|]. cbn [parse_block_loop]. rewrite Ho. cbn [String.eqb Ascii.eqb Bool.eqb].
      destruct (H2 fuel) as (f2 & Hf2 & ->); [lia|]. destruct f2 as [|f2]; [lia|]. cbn [parse_block_loop]. rewrite Hc. cbn [String.eqb Ascii.eqb Bool.eqb mbind exec_bind].
      exists fuel. split; [lia|done].
    + replace (S q) with (q + 1) by lia. rewrite <-drop_drop, Hd3. done.
Qed.
End Tree.

Lemma parse_tree nodes : forallb node_words nodes = true ->
  parse_block (nodes_tokens nodes) 0 = Ok (nodes, length (nodes_tokens nodes)).
Proof.
  intros Hw. unfold parse_block.
  assert (Hall : Forall (parses_node (nodes_tokens nodes)) nodes) by (apply Forall_true; intros n; apply goes_on_node).
  destruct (goes_on_nodes _ nodes Hall [] 0 [] Hw) as [H _]; [by rewrite app_nil_r|].
  destruct (H (S (length (nodes_tokens nodes)))) as (f & Hf & ->); [lia|].
  destruct f as [|f]; [lia|]. cbn [parse_block_loop app Nat.add]. by rewrite lookup_ge_None_2.
Qed.

(** *** Splitting the text *)
Definition is_mark (c : Z) : bool := (c =? 123)%Z || (c =? 125)%Z || (c =? 59)%Z.
Definition word_char (c : Z) : bool := negb (is_mark c || is_whitespace c || (c =? 35)%Z).

(** [laid cs ts]: the characters [cs] are the tokens [ts] with any white space
    and comments between them. *)
Inductive laid : list Z -> list string -> Prop :=
| laid_end : laid [] []
| laid_space c cs ts : is_whitespace c = true -> laid cs ts -> laid (c :: cs) ts
| laid_comment body cs ts : Forall (fun c => c <> 10%Z) body -> laid cs ts -> laid (35%Z :: body ++ 10%Z :: cs) ts
| laid_mark c cs ts : is_mark c = true -> laid cs ts -> laid (c :: cs) (of_chars [c] :: ts)
| laid_word w cs ts : w <> [] -> forallb word_char w = true ->
    match cs with c :: _ => word_char c = false | [] => True end -> laid cs ts -> laid (w ++ cs) (of_chars w :: ts).

Lemma tokenize_word w : forall acc cs, forallb word_char w = true ->
  tokenize_from false acc (w ++ cs) = tokenize_from false (acc ++ w) cs.
Proof.
  induction w as [|c w IH]; intros acc cs Hw; [by rewrite app_nil_r|]. cbn in Hw. apply andb_true_iff in Hw as [Hc Hw].
  unfold word_char in Hc. apply negb_true_iff, orb_false_iff in Hc as [[Hm Hs]%orb_false_iff H35]. unfold is_mark in Hm.
  cbn [app tokenize_from andb]. rewrite H35, Hm, Hs, IH by done. by rewrite <-app_assoc.
Qed.

Lemma tokenize_comment body acc cs : Forall (fun c => c <> 10%Z) body ->
  tokenize_from true acc (body ++ 10%Z :: cs) = push_word acc (tokenize_from false [] cs).
Proof.
  induction 1 as [|c body Hc _ IH]; [done|]. cbn [app tokenize_from]. by rewrite (proj2 (Z.eqb_neq _ _) Hc).
Qed.

Lemma char_cases c : (is_whitespace c = true -> is_mark c = false /\ (c =? 35)%Z = false) /\ (is_mark c = true -> (c =? 35)%Z = false).
Proof. unfold is_whitespace, is_mark, in_range. lia. Qed.

Lemma tokenize_laid cs ts : laid cs ts -> forall acc,
  acc = [] \/ match cs with c :: _ => word_char c = false | [] => True end -> tokenize_from false acc cs = push_word acc ts.
Proof.
  induction 1 as [|c cs ts Hc Hl IH|body cs ts Hb Hl IH|c cs ts Hc Hl IH|w cs ts Hne Hw Hcs Hl IH]; intros acc Hacc.
  - done.
  - destruct (proj1 (char_cases c) Hc) as [Hm H35]. unfold is_mark in Hm. cbn [tokenize_from andb]. rewrite H35, Hm, Hc.
    by rewrite (IH []) by (by left).
  - cbn [tokenize_from andb Z.eqb Pos.eqb]. rewrite tokenize_comment by done. by rewrite (IH []) by (by left).
  - pose proof (proj2 (char_cases c) Hc) as H35. unfold is_mark in Hc. cbn [tokenize_from andb]. rewrite H35, Hc.
    by rewrite (IH []) by (by left).
  - assert (acc = []) as ->.
    { destruct Hacc as [->|Hacc]; [done|]. destruct w as [|c w]; [done|]. cbn in Hw, Hacc. rewrite Hacc in Hw. done. }
    rewrite tokenize_word by done. cbn [app]. rewrite (IH w) by (by right). by destruct w.
Qed.

(** Conversely, a text whose last comment is closed is laid out as its tokens. *)
Fixpoint closed (comment : bool) (cs : list Z) : bool :=
  match cs with
  | [] => negb comment
  | c :: cs => if comment && negb (c =? 10)%Z then closed true cs else closed (c =? 35)%Z cs
  end.

Lemma laid_push w cs ts : forallb word_char w = true ->
  match cs with c :: _ => word_char c = false | [] => True end -> laid cs ts -> laid (w ++ cs) (push_word w ts).
Proof. intros Hw Hcs Hl. destruct w as [|c w]; [done|]. by apply (laid_word (c :: w)). Qed.

Lemma laid_tokens cs :
  (forall w, forallb word_char w = true -> closed false cs = true -> laid (w ++ cs) (tokenize_from false w cs))
  /\ (forall w body, forallb word_char w = true -> Forall (fun c => c <> 10%Z) body -> closed true cs = true ->
       laid (w ++ 35%Z :: body ++ cs) (tokenize_from true w cs)).
Proof.
  induction cs as [|c cs [IHf IHt]]; split; intros w.
  - intros Hw _. cbn. apply laid_push; [done|done|constructor].
  - done.
  - intros Hw. cbn [closed tokenize_from andb]. destruct (c =? 35)%Z eqn:E35.
    { apply Z.eqb_eq in E35 as ->. intros Hc. by apply (IHt w []). }
    destruct ((c =? 123)%Z || (c =? 125)%Z || (c =? 59)%Z) eqn:Em; [|destruct (is_whitespace c) eqn:Es]; intros Hc.
    + apply laid_push; [done| |apply laid_mark; [done|by apply (IHf [])]]. unfold word_char, is_mark. by rewrite Em.
    + apply laid_push; [done| |apply laid_space; [done|by apply (IHf [])]]. unfold word_char. by rewrite Es, orb_true_r.
    + change (c :: cs) with ([c] ++ cs). rewrite app_assoc. apply IHf; [|done]. rewrite forallb_app, Hw. cbn.
      unfold word_char, is_mark. by rewrite Em, Es, E35.
  - intros body Hw Hb. cbn [closed tokenize_from andb]. destruct (c =? 10)%Z eqn:E10; cbn [negb].
    + apply Z.eqb_eq in E10 as ->. cbn [Z.eqb Pos.eqb orb is_whitespace in_range andb Z.leb Z.compare Pos.compare Pos.compare_cont].
      intros Hc. apply laid_push; [done|done|]. apply laid_comment; [done|]. by apply (IHf []).
    + intros Hc. replace (body ++ c :: cs) with ((body ++ [c]) ++ cs) by by rewrite <-app_assoc.
      apply IHt; [done| |done]. apply Forall_app. split; [done|]. constructor; [by apply Z.eqb_neq|constructor].
Qed.
End NginxTranslation.

(** What the importer does with a text that lays out a tree. *)
Lemma import_laid (text : string) (nodes : list Nginx.Node) :
  laid (chars text) (nodes_tokens nodes) -> forallb node_words nodes = true ->
  Nginx.nginx_import text
  = Ok (finish (Nginx.map_nodes nodes (line "# Imported from nginx by `pulsate import nginx`. Review the notes." builder_default))).
Proof.
  intros Hlaid Hwords. unfold Nginx.nginx_import, Nginx.tokenize. rewrite (tokenize_laid _ _ Hlaid []) by (by left).
  cbn [Nginx.push_word]. by rewrite (parse_tree nodes Hwords).
Qed.

(** The nginx importer translates what it reads.  A text that lays out a
    tree of directives, with any white space and comments, is split and parsed
    into that tree; when the words that reach the output hold no mark of
    Flow's, the generated text is Flow, and its syntax tree is the translation
    of the tree: upstreams with their servers, and for every server a site with
    its names, its TLS posture and a route for each location that has a handler. *)
Theorem nginx_translates debug_value (text : string) (nodes : list Nginx.Node)
    (Hlaid : laid (chars text) (nodes_tokens nodes))
    (Hwords : forallb node_words nodes = true)
    (Hclean : forallb NginxSpec.node_clean nodes = true) :
  exists i ast, Nginx.nginx_import text = Ok i /\ flow_parse debug_value (flow i) = Ok ast
    /\ map erase_stmt (stmts ast) = map (stmt_tree debug_value) (NginxSpec.nginx_doc nodes).
Proof.
  rewrite (import_laid text nodes Hlaid Hwords).
  pose proof (map_spec _ nodes [] _ Hclean (written_start " Imported from nginx by `pulsate import nginx`. Review the notes.")) as Hw.
  apply (written_reads debug_value) in Hw as (ast & Hp & Ht); [|by repeat (constructor; [by vm_compute|])].
  eexists _, ast. split; [done|]. split; [exact Hp|exact Ht].
Qed.

(** *** Concrete sources *)
Definition demo_nginx : string := join nl
  ["# edge"; "upstream backend { server 10.0.0.1:8080; server http://10.0.0.2; }"; "server {"; "  listen 443 ssl;";
   "  server_name example.com www.example.com;"; "  location / { proxy_pass http://backend; }";
   "  location /static/ { root /var/www; }"; "  location = /healthz { return 204; }";
   "  location /old { return 301 https://example.com/new; }"; "}"; ""].
Definition leaf (name : string) (args : list string) : Nginx.Node := Nginx.mk_node name args [].
Definition demo_tree : list Nginx.Node :=
  [Nginx.mk_node "upstream" ["backend"] [leaf "server" ["10.0.0.1:8080"]; leaf "server" ["http://10.0.0.2"]];
   Nginx.mk_node "server" []
     [leaf "listen" ["443"; "ssl"]; leaf "server_name" ["example.com"; "www.example.com"];
      Nginx.mk_node "location" ["/"] [leaf "proxy_pass" ["http://backend"]];
      Nginx.mk_node "location" ["/static/"] [leaf "root" ["/var/www"]];
      Nginx.mk_node "location" ["="; "/healthz"] [leaf "return" ["204"]];
      Nginx.mk_node "location" ["/old"] [leaf "return" ["301"; "https://example.com/new"]]]].

Example demo_nginx_flow : match Nginx.nginx_import demo_nginx with Ok i => flow i | _ => "" end = join nl
  ["# Imported from nginx by `pulsate import nginx`. Review the notes.";
   "upstream backend {"; "  target http://10.0.0.1:8080"; "  target http://10.0.0.2"; "}";
   "site example.com www.example.com {"; "  tls auto"; "  route /* ~> proxy(@backend)";
   "  route /static/* ~> files(" +:+ quote "/var/www" +:+ ")"; "  route = /healthz ~> respond(status=204)";
   "  route /old/* ~> redirect(to=" +:+ quote "https://example.com/new" +:+ ", status=301)"; "}"; ""].
Proof. vm_compute. reflexivity. Qed.

Lemma nginx_translates_witness :
  exists i ast, Nginx.nginx_import demo_nginx = Ok i /\ flow_parse (fun _ => "") (flow i) = Ok ast
    /\ map erase_stmt (stmts ast) = map (stmt_tree (fun _ => "")) (NginxSpec.nginx_doc demo_tree).
Proof.
  apply (nginx_translates (fun _ => "") demo_nginx demo_tree).
  - assert (E : nodes_tokens demo_tree = Nginx.tokenize_from false [] (chars demo_nginx)) by (vm_compute; reflexivity).
    rewrite E. apply (proj1 (laid_tokens (chars demo_nginx)) []); [reflexivity|]. vm_compute. reflexivity.
  - vm_compute. reflexivity.
  - vm_compute. reflexivity.
Defined.
