(* ===== verification/MigrateLines.v ===== *)
(** * [pulsate-migrate]: the importers that read lines

    Caddy, HAProxy and Apache.  Each predicate [*_clean] evaluates, on the words
    of a source, that what reaches the output holds no mark of Flow's; then the
    generated text is Flow.  At the end: the fidelity report, and translations
    that differ from what their documentation says. *)

From Stdlib Require Import ZArith Ascii String Lia.
From stdpp Require Import base option list gmap strings sorting.
From S2P Require Import Prelude RustStr CoreTypes FlowSyntax FlowLexer FlowLexerProps FlowParser FlowPrint Migrate MigrateProps.
Import Migrate.
Local Open Scope string_scope.
Local Open Scope list_scope.

Lemma show_plain z : plain (show_u z) = true.
Proof.
  assert (E : show_u z = show_u (Z.max 0 z)) by (unfold show_u; by replace (Z.to_N (Z.max 0 z)) with (Z.to_N z) by lia).
  rewrite E. apply plain_all. intros b Hb. pose proof (show_u_digits (Z.max 0 z) ltac:(lia)) as Hd.
  eapply Forall_forall in Hd; [|exact Hb]. revert Hd. destruct b as [[] [] [] [] [] [] [] []]; vm_compute; congruence.
Qed.

(** A line that is a printed statement. *)
Definition stmt_line (r : string) : Prop := exists s, printable s /\ r = print_core "  " s.

Lemma inside_lines b0 hd rs : Forall stmt_line rs -> forall b body, inside b0 hd body b ->
  exists body', inside b0 hd body' (foldl (fun b r => line r b) b rs).
Proof.
  induction 1 as [|r rs (s & Hs & Hr) _ IH]; intros b body Hb; [by exists body|]. cbn [foldl].
  apply (IH _ (body ++ [s])). by apply inside_line.
Qed.

Lemma route_stmt_line kind pattern h text :
  kind <> MatchKind.Regex -> word pattern = true -> handler_ok h -> text = handler_text h ->
  stmt_line ("route " +:+ match kind with MatchKind.Exact => "= " | _ => "" end +:+ pattern +:+ " ~> " +:+ text).
Proof.
  intros Hk Hp Hh ->. exists (do_route kind pattern h.1 h.2). split; [by apply route_ok_print|]. rewrite route_text. by destruct kind.
Qed.

Lemma catch_all_line h text : handler_ok h -> text = handler_text h -> stmt_line ("route /* ~> " +:+ text).
Proof. intros Hh Ht. exact (route_stmt_line MatchKind.Prefix "/*" h text ltac:(done) eq_refl Hh Ht). Qed.

Lemma placeholder_line : stmt_line "route /* ~> respond(status=404)".
Proof. exact (catch_all_line (do_respond "404") _ (respond_ok "404" eq_refl) eq_refl). Qed.

(** A site: its opening line, its body, its end. *)
Lemma written_site header l b0 hosts b body :
  written header l b0 -> inside b0 ("site " +:+ join " " hosts +:+ " {") body b -> hosts <> [] ->
  Forall (fun w => word w = true) hosts -> exists l', written header l' (close b).
Proof.
  intros Hw Hi Hne Hh. eexists. eapply (written_close _ _ _ "site"); [exact Hw|exact Hi|lit_atom|done|done|done].
Qed.

(** The hosts of a site, or the catch-all. *)
Lemma host_line hosts : Forall (fun w => word w = true) hosts ->
  exists hs, match hosts with [] => ":default" | _ => join " " hosts end = join " " hs /\ hs <> []
    /\ Forall (fun w => word w = true) hs.
Proof. destruct hosts as [|h hosts]; intros H; [exists [":default"]|exists (h :: hosts)]; repeat split; try done; by repeat constructor. Qed.

(** ** Caddy *)
Module CaddySpec.
Import Caddy.

Definition args_clean (directive : string) (args : list string) : bool :=
  if existsb (String.eqb directive) ["reverse_proxy"; "root"; "redir"] then forallb word args else true.
Definition line_clean (raw : string) : bool :=
  let l := trim raw in
  if bool_decide (l = "") || starts_with "#" l then true
  else
    match strip_suffix "{" l with
    | Some header => forallb (fun w => plain (caddy_host_only w)) (Text.split_whitespace header)
    | None =>
      if (l =? "}")%string then true
      else match Text.split_whitespace l with [] => true | d :: args => args_clean d args end
    end.
Definition clean (text : string) : bool := forallb line_clean (Text.lines text).

(** The state between two lines. *)
Definition state_ok (header : string) (st : CaddyState) : Prop :=
  (exists l, written header l (builder st)) /\ Forall stmt_line (routes st)
  /\ (forall r, root st = Some r -> plain r = true)
  /\ (forall hosts, site st = Some hosts -> Forall (fun w => word w = true) hosts).

Lemma emit_site_ok header hosts rs l b : written header l b -> Forall (fun w => word w = true) hosts -> Forall stmt_line rs ->
  exists l', written header l' (emit_site hosts rs b).
Proof.
  intros Hw Hh Hr. unfold emit_site. destruct (host_line hosts Hh) as (hs & -> & Hne & Hhs).
  assert (Hi : inside b ("site " +:+ join " " hs +:+ " {") [tls_auto] (line "tls auto" (open ("site " +:+ join " " hs +:+ " {") b))).
  { apply (inside_line _ _ [] _ _ tls_auto); [by eapply inside_open|done|apply tls_printable]. }
  destruct rs as [|r rs].
  - destruct placeholder_line as (s & Hs & E). eapply written_site; [exact Hw| |done|done]. apply inside_note.
    eapply inside_line; [exact Hi|exact E|exact Hs].
  - destruct (inside_lines _ _ _ Hr _ _ Hi) as [body Hb]. eapply written_site; [exact Hw|exact Hb|done|done].
Qed.

Lemma redirect_line from to code : word from = true -> plain to = true -> word code = true -> stmt_line (redirect_route from to code).
Proof.
  intros Hf Ht Hc. apply (route_stmt_line MatchKind.Prefix from (do_redirect to code)); [done|done|by apply redirect_ok|].
  by rewrite redirect_text.
Qed.

Lemma caddy_map_directive_ok header l st : state_ok header st ->
  match Text.split_whitespace l with [] => true | d :: args => args_clean d args end = true ->
  state_ok header (caddy_directive l st).
Proof.
  destruct st as [site root routes b]. intros (Hw & Hr & Hroot & Hs). unfold caddy_directive. cbn [Caddy.routes Caddy.root Caddy.site builder] in *.
  destruct (Text.split_whitespace l) as [|d args]; [by intros _|]. unfold args_clean. cbn [existsb].
  assert (Hadd : forall b' r, (exists l, written header l b') -> stmt_line r ->
    state_ok header (mk_caddy site root (routes ++ [r]) b')).
  { intros b' r Hb' Hr'. split; [done|]. split; [|done]. by apply Forall_app_2, Forall_singleton. }
  destruct (String.eqb_spec d "reverse_proxy") as [->|_]; [|destruct (String.eqb_spec d "root") as [->|_];
    [|destruct (String.eqb_spec d "file_server") as [->|_]; [|destruct (String.eqb_spec d "redir") as [->|_];
    [|destruct (d =? "respond")%string; [|by destruct (d =? "tls")%string]]]]]; cbn.
  - intros Hc. destruct args as [|to args]; [by split; [|split]|]. cbn in Hc. apply andb_true_iff in Hc as [Hc _].
    apply Hadd; [done|]. apply (catch_all_line (do_proxy (with_scheme to))); [by apply proxy_ok, scheme_word|by rewrite proxy_text].
  - intros Hc. split; [done|]. split; [done|]. split; [|done]. intros r Hl. cbn in Hl. rewrite forallb_forall in Hc.
    apply last_Some_elem_of, list_elem_of_In, Hc, word_split in Hl as [_ ?]. done.
  - intros _. apply Hadd; [done|]. assert (Hp : plain (default "." root) = true) by (destruct root; [by apply Hroot|done]).
    apply (catch_all_line (do_files (default "." root))); [by apply files_ok|by rewrite files_text].
  - intros Hc. destruct args as [|from [|to [|code [|? ?]]]]; cbn in Hc; rewrite ?andb_true_iff in Hc; try by split; [|split].
    + destruct Hc as (Hf & [_ Ht]%word_split & _). apply Hadd; [done|]. by apply redirect_line.
    + destruct Hc as (Hf & [_ Ht]%word_split & Hc & _). apply Hadd; [done|]. by apply redirect_line.
  - intros _. apply Hadd; [done|]. set (code := default 200%Z _).
    apply (catch_all_line (do_respond (show_u code))); [|by rewrite respond_text]. apply respond_ok, word_split.
    split; [apply show_u_nonempty|apply show_plain].
Qed.

Lemma caddy_import_line_ok header raw st : state_ok header st -> line_clean raw = true -> state_ok header (caddy_line st raw).
Proof.
  unfold line_clean, caddy_line. intros Hst. destruct (bool_decide _ || _); [by intros _|].
  destruct (strip_suffix "{" (trim raw)) as [hd|]; [|destruct (trim raw =? "}")%string; [intros _|by apply caddy_map_directive_ok]].
  - intros Hc. destruct Hst as (Hw & _). split; [done|]. split; [constructor|]. split; [done|]. intros hosts [= <-].
    apply Forall_forall. intros h [Hne Hin]%list_elem_of_filter. apply list_elem_of_fmap in Hin as (w & -> & Hin).
    rewrite forallb_forall in Hc. apply list_elem_of_In, Hc in Hin. by apply word_split.
  - destruct st as [[hosts|] root routes b]; destruct Hst as ([l Hw] & Hr & Hroot & Hs);
      cbn [Caddy.site Caddy.routes Caddy.root builder] in *; (split; [|by repeat split]); cbn [builder]; [|eauto].
    eapply emit_site_ok; [exact Hw|by apply Hs|done].
Qed.

Lemma caddy_import_written text : clean text = true ->
  exists b l, Caddy.caddy_import text = finish b /\ written "# Imported from Caddy by `pulsate import caddy`. Review the notes." l b.
Proof.
  unfold clean, Caddy.caddy_import. intros Hc. set (header := "# Imported from Caddy by `pulsate import caddy`. Review the notes.").
  assert (Hst : state_ok header (mk_caddy None None [] (line header builder_default))).
  { split; [eexists; apply written_start|]. split; [constructor|]. by split. }
  revert Hst. generalize (mk_caddy None None [] (line header builder_default)). revert Hc.
  induction (Text.lines text) as [|raw ls IH]; cbn [forallb foldl]; intros Hc st Hst.
  - destruct Hst as ([l Hw] & _). by exists (builder st), l.
  - apply andb_true_iff in Hc as [Hr Hc]. apply IH; [done|]. by apply caddy_import_line_ok.
Qed.
End CaddySpec.

(** ** Apache *)
Module ApacheSpec.
Import Apache.

Definition args_clean (directive : string) (args : list string) : bool :=
  let d := to_ascii_lowercase directive in
  if (d =? "servername")%string then match args with h :: _ => word (apache_host_only h) | [] => true end
  else if (d =? "serveralias")%string then forallb (fun a => word (apache_host_only a)) args
  else if (d =? "proxypass")%string then
    match args with
    | path :: target :: _ => plain path && (word (strip_slash target) || (target =? "!")%string)
    | _ => true
    end
  else if (d =? "documentroot")%string then match args with r :: _ => plain (trim_quotes r) | [] => true end
  else if (d =? "redirect")%string then
    match redirect_parts args with Some (code, from, to) => word code && word from && plain to | None => true end
  else true.
Definition line_clean (raw : string) : bool :=
  match Text.split_whitespace (trim raw) with [] => true | d :: args => args_clean d args end.
Definition clean (text : string) : bool := forallb line_clean (Text.lines text).

Record vhost_ok (v : Vhost) : Prop := {
  vhost_hosts : Forall (fun w => word w = true) (hosts v);
  vhost_routes : Forall stmt_line (routes v);
  vhost_root : forall r, doc_root v = Some r -> plain r = true;
}.

Lemma with_routes_ok v r c : vhost_ok v -> stmt_line r -> vhost_ok (with_routes v r c).
Proof. intros [Hh Hr Hd] Hs. split; [done| |done]. by apply Forall_app_2, Forall_singleton. Qed.

Lemma apache_map_directive_ok l v b : vhost_ok v -> match Text.split_whitespace l with [] => true | d :: args => args_clean d args end = true ->
  vhost_ok (apache_directive l v b).1 /\ same_text b (apache_directive l v b).2.
Proof.
  intros Hv. unfold apache_directive, args_clean. destruct (Text.split_whitespace l) as [|directive args]; [done|].
  set (d := to_ascii_lowercase directive). pose proof Hv as [Hh Hr Hd].
  destruct (d =? "servername")%string; [|destruct (d =? "serveralias")%string; [|destruct (d =? "sslengine")%string eqn:Essl;
    [|destruct (d =? "proxypass")%string; [|destruct (d =? "documentroot")%string; [|destruct (d =? "redirect")%string]]]]].
  - destruct args as [|h args]; [done|]. intros Hw. split; [|done]. split; [by constructor|done|done].
  - intros Hw. split; [|done]. split; [|done|done]. apply Forall_app. split; [done|]. apply Forall_fmap, Forall_forall.
    intros a Ha%list_elem_of_In. rewrite forallb_forall in Hw. by apply Hw.
  - intros _. done.
  - destruct args as [|path [|to args]]; [done|done|]. intros [Hp Ht]%andb_true_iff. unfold map_proxy_pass.
    destruct (to =? "!")%string; [done|]. rewrite orb_false_r in Ht. split; [|done]. cbn [fst].
    assert (Hx : handler_ok (do_proxy (strip_slash to))) by by apply proxy_ok.
    destruct (path =? "/")%string; (apply with_routes_ok; [done|]).
    + apply (catch_all_line (do_proxy (strip_slash to))); [done|by rewrite proxy_text].
    + pose proof (route_stmt_line MatchKind.Prefix (strip_slash path +:+ "/*") _ _ ltac:(done)
        ltac:(by apply glob_word) Hx eq_refl) as Hline.
      rewrite proxy_text in Hline. revert Hline. append_norm. done.
  - intros Hp. split; [|done]. split; [done|done|]. cbn. destruct args as [|r args]; [done|]. by intros r' [= <-].
  - unfold apache_redirect. destruct (redirect_parts args) as [[[code from] to]|]; [|done].
    intros [[Hc Hf]%andb_true_iff Ht]%andb_true_iff. split; [|done]. apply with_routes_ok; [done|].
    apply (route_stmt_line MatchKind.Prefix (if (from =? "/")%string then "/*" else from) (do_redirect to code)); [done| |by apply redirect_ok|].
    + by destruct (from =? "/")%string.
    + by rewrite redirect_text.
  - intros _. destruct (existsb _ _); [done|]. by destruct (existsb _ _).
Qed.

Lemma insert_desc_in key x l : forall y, y ∈ Text.insert_desc key x l <-> y = x \/ y ∈ l.
Proof.
  induction l as [|z l IH]; intros y; cbn [Text.insert_desc]; [rewrite list_elem_of_singleton, elem_of_nil; tauto|].
  destruct (Nat.ltb _ _); rewrite !elem_of_cons; [done|]. rewrite IH. tauto.
Qed.
Lemma sort_desc_in key l y : y ∈ Text.sort_desc key l <-> y ∈ l.
Proof.
  unfold Text.sort_desc. assert (H : forall acc, y ∈ foldl (fun acc x => Text.insert_desc key x acc) acc l <-> y ∈ acc \/ y ∈ l).
  { induction l as [|x l IH]; intros acc; cbn [foldl]; [rewrite elem_of_nil; tauto|]. rewrite IH, insert_desc_in, elem_of_cons. tauto. }
  rewrite H, elem_of_nil. tauto.
Qed.

Lemma settle_root_ok v b : vhost_ok v -> vhost_ok (settle_root v b).1 /\ same_text b (settle_root v b).2.
Proof.
  intros Hv. unfold settle_root. destruct (has_root_route v); [done|]. pose proof Hv as [Hh Hr Hd].
  destruct (doc_root v) as [root|]; [|done]. split; [|done]. split; [done| |done].
  apply Forall_app_2, Forall_singleton; [done|]. assert (Hp : plain root = true) by by apply Hd.
  apply (catch_all_line (do_files root)); [by apply files_ok|by rewrite files_text].
Qed.

Lemma emit_vhost_ok header v l b : vhost_ok v -> written header l b -> exists l', written header l' (emit_vhost v b).
Proof.
  intros Hv Hw. unfold emit_vhost. pose proof (settle_root_ok v b Hv) as [Hv' Hb]. destruct (settle_root v b) as [v' b'].
  cbn [fst snd] in *. apply (written_same _ _ _ _ Hb) in Hw. destruct Hv' as [Hh Hr _].
  destruct (host_line (hosts v') Hh) as (hs & -> & Hne & Hhs).
  pose proof (inside_tls _ _ _ ("site " +:+ join " " hs +:+ " {") "SSLEngine" Approximate
    "TLS mapped to `tls auto` (ACME); explicit certs need a tls{} block" (tls v') Hw) as Hi.
  destruct (routes v') as [|r rs].
  - destruct placeholder_line as (s & Hs & E). eapply written_site; [exact Hw| |done|done]. apply inside_note.
    eapply inside_line; [exact Hi|exact E|exact Hs].
  - assert (Hsort : Forall stmt_line (Text.sort_desc route_len (r :: rs))).
    { apply Forall_forall. intros y Hy%sort_desc_in. by eapply Forall_forall in Hr. }
    destruct (inside_lines _ _ _ Hsort _ _ Hi) as [body Hbody]. eapply written_site; [exact Hw|exact Hbody|done|done].
Qed.

Definition state_ok (header : string) (st : option Vhost * Builder) : Prop :=
  (exists l, written header l st.2) /\ forall v, st.1 = Some v -> vhost_ok v.

Lemma apache_import_line_ok header raw st : state_ok header st -> line_clean raw = true -> state_ok header (apache_line st raw).
Proof.
  destruct st as [vhost b]. intros [[l Hw] Hv] Hc. unfold apache_line. unfold line_clean in Hc.
  destruct (bool_decide _ || _); [by split; [eexists|]|].
  destruct (starts_with "<virtualhost" _); [|destruct (starts_with "</virtualhost" _)].
  - split; [by eexists|]. intros v [= <-]. split; by try constructor.
  - destruct vhost as [v|]; [|by split; [eexists|]]. split; [|done]. eapply emit_vhost_ok; [by apply Hv|exact Hw].
  - destruct vhost as [v|].
    + pose proof (apache_map_directive_ok (trim raw) v b (Hv _ eq_refl) Hc) as [Hv' Hb].
      destruct (apache_directive (trim raw) v b) as [v' b']. split; [eexists; by eapply written_same|]. by intros ? [= <-].
    + split; [|done]. eexists. eapply written_same; [|exact Hw]. unfold note_global. by destruct (eq_ignore_ascii_case _ _).
Qed.

Lemma apache_import_written text : clean text = true ->
  exists b l, Apache.apache_import text = finish b /\ written "# Imported from Apache by `pulsate import apache`. Review the notes." l b.
Proof.
  unfold clean, Apache.apache_import. intros Hc. set (header := "# Imported from Apache by `pulsate import apache`. Review the notes.").
  assert (Hst : state_ok header (None, line header builder_default)) by (split; [eexists; apply written_start|done]).
  revert Hst. generalize (@None Vhost, line header builder_default). revert Hc.
  induction (Text.lines text) as [|raw ls IH]; cbn [forallb foldl]; intros Hc st Hst.
  - destruct st as [[v|] b]; destruct Hst as [[l Hw] Hv]; [|by exists b, l].
    destruct (emit_vhost_ok _ v _ _ (Hv _ eq_refl) Hw) as [l' Hl]. by exists (emit_vhost v b), l'.
  - apply andb_true_iff in Hc as [Hr Hc]. apply IH; [done|]. by apply apache_import_line_ok.
Qed.
End ApacheSpec.

(** ** HAProxy *)
Module HAProxySpec.
Import HAProxy.

(** The name of a backend: not the encoding of a redirect. *)
Definition backend_clean (be : string) : bool := plain be && negb (starts_with "__redirect:" be).
Definition code_clean (code : string) : bool := word code && negb (contains ":" code).

Definition line_clean (l : list string) : bool :=
  match l with
  | [] => true
  | w :: _ =>
    if (w =? "acl")%string then match l !! 3 with Some val => word val | None => true end
    else if (w =? "use_backend")%string then backend_clean (default "" (l !! 1))
    else if (w =? "default_backend")%string then backend_clean (default "" (l !! 1))
    else if (w =? "redirect")%string then
      plain (default "" (l !! 2)) && code_clean (default "302" (Text.word_after "code" l))
    else true
  end.
Definition section_clean (s : Section) : bool :=
  word (name s) && backend_clean (name s) && forallb line_clean (lines s) && forallb word (server_targets s).
Definition is_proxy (s : Section) : bool := existsb (String.eqb (kind s)) ["frontend"; "backend"; "listen"].
Definition clean (text : string) : bool := forallb (fun s => negb (is_proxy s) || section_clean s) (parse_sections text).

Lemma rsplit_last a b : contains ":" b = false -> Text.rsplit_once ":" (a +:+ ":" +:+ b) = Some (a, b).
Proof.
  intros Hb. induction a as [|x a IH].
  - rewrite append_nil_l. change (":" +:+ b) with (String ":" b). cbn [Text.rsplit_once].
    assert (E : Text.rsplit_once ":" b = None).
    { induction b as [|y b IHb]; [done|]. cbn [contains] in Hb. apply orb_false_iff in Hb as [Hy Hb]. cbn [Text.rsplit_once].
      rewrite IHb by done. destruct (Ascii.eqb_spec y ":") as [->|]; [|done]. exfalso. revert Hy.
      assert (Hs : starts_with ":" (String ":" b) = true) by (apply starts_with_spec; by exists b). congruence. }
    by rewrite E.
  - rewrite append_cons. cbn [Text.rsplit_once]. by rewrite IH.
Qed.

(** What a slot of the routes stands for. *)
Definition slot_ok (be : string) : Prop := exists h, handler_ok h /\ backend_handler be = handler_text h.

Lemma backend_slot be : backend_clean be = true -> slot_ok be.
Proof.
  intros [Hp Hn]%andb_true_iff. exists (do_proxy ("@" +:+ be)). split.
  - apply proxy_ok, word_split. split; [done|]. by rewrite plain_app.
  - rewrite proxy_text. unfold backend_handler. destruct (strip_prefix "__redirect:" be) as [r|] eqn:E; [|by append_norm].
    apply negb_true_iff in Hn. unfold starts_with in Hn. rewrite E in Hn. by rewrite bool_decide_eq_true_2 in Hn.
Qed.

Lemma redirect_slot url code : plain url = true -> code_clean code = true ->
  backend_handler ("__redirect:" +:+ url +:+ ":" +:+ code) = handler_text (do_redirect url code) /\ handler_ok (do_redirect url code).
Proof.
  intros Hu [Hc Hn]%andb_true_iff. apply negb_true_iff in Hn. split; [|by apply redirect_ok].
  unfold backend_handler. rewrite strip_prefix_app, rsplit_last by done. by rewrite redirect_text.
Qed.

Definition pattern_ok (p : string) : Prop := exists kind pattern, kind <> MatchKind.Regex /\ word pattern = true
  /\ p = match kind with MatchKind.Exact => "= " | _ => "" end +:+ pattern.

Record state_ok (st : SiteState) : Prop := {
  st_hosts : Forall (fun w => word w = true) (hosts st);
  st_acls : map_Forall (fun _ p => pattern_ok p) (acls st);
  st_routes : Forall (fun r => pattern_ok r.1 /\ slot_ok r.2) (routes st);
  st_default : forall be, default_backend st = Some be -> slot_ok be;
}.

Lemma map_redirect_ok l b rs : plain (default "" (l !! 2)) && code_clean (default "302" (Text.word_after "code" l)) = true ->
  Forall (fun r => pattern_ok r.1 /\ slot_ok r.2) rs ->
  same_text b (haproxy_redirect l b rs).1 /\ Forall (fun r => pattern_ok r.1 /\ slot_ok r.2) (haproxy_redirect l b rs).2.
Proof.
  intros [Hu Hc]%andb_true_iff Hrs. unfold haproxy_redirect. destruct (l !! 1) as [form|]; [|done].
  destruct (l !! 2) as [url|]; [|done]. destruct (_ || _); [|done]. split; [done|]. apply Forall_app_2, Forall_singleton; [done|].
  split; [by exists MatchKind.Prefix, "/*"|]. destruct (redirect_slot url _ Hu Hc) as [E Hh]. by exists (do_redirect url (default "302" (Text.word_after "code" l))).
Qed.

Lemma map_line_ok st l : state_ok st -> line_clean l = true ->
  state_ok (map_line st l) /\ same_text (builder st) (builder (map_line st l)).
Proof.
  destruct st as [hs tls acls rs db b]. intros Hst. pose proof Hst as [Hh Ha Hr Hd]. cbn [HAProxy.hosts HAProxy.acls routes default_backend] in *.
  unfold line_clean, map_line. destruct l as [|w l]; [done|]. set (ws := w :: l).
  destruct (String.eqb_spec w "bind") as [->|_]; [done|].
  destruct (w =? "acl")%string; [|destruct (w =? "use_backend")%string; [|destruct (w =? "default_backend")%string;
    [|destruct (w =? "redirect")%string; [|done]]]].
  - destruct (ws !! 1) as [name|]; [|done]. destruct (ws !! 2) as [kind|]; [|done]. destruct (ws !! 3) as [val|]; [|done]. intros Hv.
    destruct (starts_with "path" kind).
    + split; [|done]. split; [done| |done|done]. apply map_Forall_insert_2; [|done].
      destruct (kind =? "path")%string; [by exists MatchKind.Exact, val|]. exists MatchKind.Prefix, (strip_slash val +:+ "/*").
      split; [done|]. split; [|by append_norm]. apply glob_word. by apply word_split in Hv as [_ ?].
    + destruct (_ || _); [|done]. split; [|done]. split; [|done|done|done]. by apply Forall_app_2, Forall_singleton.
  - intros Hb. destruct (Text.word_after "if" ws) as [a|]; cbn [mbind option_bind]; [|done].
    destruct (acls !! a) as [pat|] eqn:E; [|done]. split; [|done]. split; [done|done| |done].
    apply Forall_app_2, Forall_singleton; [done|]. split; [by eapply Ha|by apply backend_slot].
  - intros Hb. split; [|done]. split; [done|done|done|]. intros be E. change (ws !! 1 = Some be) in E. apply backend_slot. by rewrite E in Hb.
  - intros Hc. destruct (map_redirect_ok ws b rs Hc Hr) as [Hb Hrs]. destruct (haproxy_redirect ws b rs) as [b' rs']. by split.
Qed.

Lemma routes_inside b0 hd rs : Forall (fun r => pattern_ok r.1 /\ slot_ok r.2) rs -> forall b body, inside b0 hd body b ->
  exists body', inside b0 hd body'
    (foldl (fun b r => note "use_backend" Exact "mapped to a path route + proxy()"
       (line ("route " +:+ fst r +:+ " ~> " +:+ backend_handler (snd r)) b)) b rs).
Proof.
  induction 1 as [|[pat be] rs [Hpat Hslot] _ IH]; intros b body Hb; [by exists body|]. cbn [foldl fst snd] in *.
  destruct Hpat as (kind & pattern & Hk & Hp & ->), Hslot as (h & Hh & E). destruct (route_stmt_line kind pattern h (backend_handler be) Hk Hp Hh E) as (s & Hs & Es).
  eapply IH. apply inside_note. eapply inside_line; [exact Hb| |exact Hs]. rewrite <-Es. by append_norm.
Qed.

Lemma map_site_ok header upstreams l b s : written header l b -> word (name s) = true -> backend_clean (name s) = true ->
  forallb line_clean (lines s) = true -> exists l', written header l' (map_site upstreams b s).
Proof.
  intros Hw Hn Hbn Hl. unfold map_site.
  assert (Hst : forall st, state_ok st -> state_ok (foldl map_line st (lines s))
    /\ same_text (builder st) (builder (foldl map_line st (lines s)))).
  { revert Hl. clear. induction (lines s) as [|l ls IH]; cbn [forallb foldl]; intros Hl st Hst; [done|].
    apply andb_true_iff in Hl as [Hl Hls]. destruct (map_line_ok st l Hst Hl) as [H1 H2]. destruct (IH Hls _ H1) as [H3 H4].
    split; [done|]. by eapply same_trans. }
  specialize (Hst (mk_site_state [] false ∅ [] None b)). destruct (foldl map_line _ (lines s)) as [hs tls acls rs db b1].
  destruct Hst as [[Hh _ Hr Hd] Hb1]; [split; [constructor|apply map_Forall_empty|constructor|done]|].
  cbn [HAProxy.hosts routes default_backend builder] in *. apply (written_same _ _ _ _ Hb1) in Hw.
  set (hs' := match hs with [] => [":default"] | _ => hs end).
  assert (Hhs : hs' <> [] /\ Forall (fun w => word w = true) hs').
  { unfold hs'. destruct hs; [|done]. split; [done|]. by repeat constructor. }
  destruct Hhs as [Hne Hhs].
  pose proof (inside_tls _ _ _ ("site " +:+ join " " hs' +:+ " {") "bind ssl" Approximate
    "TLS mapped to `tls auto` (ACME); explicit crt needs a tls{} block" tls Hw) as Hi.
  destruct (routes_inside _ _ rs Hr _ _ Hi) as [body Hbody].
  set (db' := if _ && _ && _ then Some (name s) else db).
  assert (Hdb : forall be, db' = Some be -> slot_ok be).
  { unfold db'. destruct (_ && _ && _); [intros ? [= <-]; by apply backend_slot|done]. }
  destruct db' as [be|]; [|destruct rs as [|r rs]].
  - destruct (Hdb be eq_refl) as (h & Hh' & E). destruct (catch_all_line h _ Hh' E) as (st & Hs & Es).
    eapply (written_site _ _ _ hs'); [exact Hw| |done|done]. apply inside_note. eapply inside_line; [exact Hbody|exact Es|exact Hs].
  - destruct placeholder_line as (st & Hs & Es).
    eapply (written_site _ _ _ hs'); [exact Hw| |done|done]. apply inside_note. eapply inside_line; [exact Hbody|exact Es|exact Hs].
  - eapply (written_site _ _ _ hs'); [exact Hw|exact Hbody|done|done].
Qed.

(** The upstream pools: words all. *)
Definition pools_ok (m : gmap string (list string)) : Prop := map_Forall (fun n ts => word n = true /\ Forall (fun t => word t = true) ts) m.

Lemma add_upstreams_ok sections : Forall (fun s => negb (is_proxy s) || section_clean s = true) sections ->
  forall m, pools_ok m -> pools_ok (foldl add_upstream m sections).
Proof.
  induction 1 as [|s sections Hs _ IH]; intros m Hm; [done|]. cbn [foldl]. apply IH. unfold add_upstream.
  destruct ((kind s =? "backend")%string || (kind s =? "listen")%string) eqn:Ek; [|done].
  assert (Hc : section_clean s = true).
  { unfold is_proxy in Hs. cbn [existsb] in Hs. destruct (String.eqb_spec (kind s) "backend") as [E|E];
      [|destruct (String.eqb_spec (kind s) "listen") as [E'|E']; [|done]]; rewrite ?E, ?E' in Hs; done. }
  apply andb_true_iff in Hc as [[[Hn _]%andb_true_iff _]%andb_true_iff Ht]. destruct (server_targets s) as [|t ts]; [done|].
  apply map_Forall_insert_2; [|done]. split; [done|]. apply Forall_forall. intros x Hx%list_elem_of_In. rewrite forallb_forall in Ht. by apply Ht.
Qed.

Lemma emit_upstream_ok header l b u : written header l b -> word u.1 = true -> Forall (fun t => word t = true) u.2 ->
  exists l', written header l' (emit_upstream b u).
Proof.
  destruct u as [name ts]. cbn [fst snd]. intros Hw Hn Ht. unfold emit_upstream. cbn [fst snd].
  assert (Hi : inside b ("upstream " +:+ name +:+ " {") ([] ++ omap (fun t => Some (target t)) ts)
    (foldl (fun b t => line ("target " +:+ t) b) (open ("upstream " +:+ name +:+ " {") b) ts)).
  { apply inside_fold; [|by eapply inside_open]. intros t Hin b1 body Hb. apply inside_line; [done|apply target_stmt_text|].
    apply pool_target_printable. by eapply Forall_forall in Ht. }
  eexists. apply written_note. eapply (written_close _ _ _ "upstream" [name]); [exact Hw|exact Hi|lit_atom|done|done|by constructor].
Qed.

Lemma written_fold {A} header (f : Builder -> A -> Builder) (l : list A) :
  Forall (fun a => forall l b, written header l b -> exists l', written header l' (f b a)) l ->
  forall d b, written header d b -> exists d', written header d' (foldl f b l).
Proof. induction 1 as [|a l Ha _ IH]; intros d b Hw; [by exists d|]. apply Ha in Hw as [d' Hw]. by apply IH in Hw. Qed.

Lemma haproxy_import_written (iter : gmap string (list string) -> list (string * list string)) text :
  (forall m, iter m ≡ₚ map_to_list m) -> clean text = true ->
  exists b l, HAProxy.haproxy_import iter text = finish b /\ written "# Imported from HAProxy by `pulsate import haproxy`. Review the notes." l b.
Proof.
  unfold clean, HAProxy.haproxy_import. intros Hiter Hc. set (header := "# Imported from HAProxy by `pulsate import haproxy`. Review the notes.").
  assert (Hs : Forall (fun s => negb (is_proxy s) || section_clean s = true) (parse_sections text)).
  { apply Forall_forall. intros s Hin%list_elem_of_In. rewrite forallb_forall in Hc. by apply Hc. }
  set (ups := foldl add_upstream ∅ (parse_sections text)).
  assert (Hups : pools_ok ups) by (apply add_upstreams_ok; [done|apply map_Forall_empty]).
  destruct (written_fold header emit_upstream (iter ups)) with (d := @nil PStmt) (b := line header builder_default) as [d Hd].
  - apply Forall_forall. intros [n ts] Hin l b Hw. rewrite Hiter, elem_of_map_to_list in Hin. destruct (Hups _ _ Hin).
    by eapply emit_upstream_ok.
  - apply written_start.
  - eapply (written_fold header) in Hd as [d' Hd']; [eexists _, d'; split; [reflexivity|exact Hd']|].
    eapply Forall_impl; [exact Hs|]. intros s Hcs l b Hw. cbn beta.
    destruct ((kind s =? "frontend")%string || (kind s =? "listen")%string) eqn:Ek; [|by exists l].
    assert (Hsc : section_clean s = true).
    { unfold is_proxy in Hcs. cbn [existsb] in Hcs. destruct (String.eqb_spec (kind s) "frontend") as [E|E];
        [|destruct (String.eqb_spec (kind s) "listen") as [E'|E']; [|done]]; rewrite ?E, ?E' in Hcs; done. }
    apply andb_true_iff in Hsc as [[[Hn Hb]%andb_true_iff Hl]%andb_true_iff _]. by eapply map_site_ok.
Qed.
End HAProxySpec.

(** ** All importers *)
Definition source_clean (source : Dispatch.Source) (text : string) : bool :=
  match source with
  | Dispatch.Nginx =>
    match Nginx.parse_block (Nginx.tokenize text) 0 with Ok (nodes, _) => forallb NginxSpec.node_clean nodes | _ => false end
  | Dispatch.Caddy => CaddySpec.clean text
  | Dispatch.HAProxy => HAProxySpec.clean text
  | Dispatch.Apache => ApacheSpec.clean text
  end.

Section Importers.
Variable iter : gmap string (list string) -> list (string * list string).
Hypothesis Hiter : forall m, iter m ≡ₚ map_to_list m.

(** C36. Every importer returns, and what it writes is Flow.  Whatever the text,
    an importer produces a document and a report whose four counts add up to
    the notes; and when the words that reach the output hold no mark of Flow's,
    the Flow parser accepts the document. *)
Theorem imports_read debug_value (source : Dispatch.Source) (text : string) :
  exists i, Dispatch.import iter source text = Ok i
    /\ count Exact i + count Approximate i + count Manual i + count Dropped i = length (notes i)
    /\ (source_clean source text = true -> exists ast, flow_parse debug_value (flow i) = Ok ast).
Proof using Hiter.
  assert (Hcount : forall i, count Exact i + count Approximate i + count Manual i + count Dropped i = length (notes i)).
  { intros i. unfold count. induction (notes i) as [|n ns IH]; [done|]. rewrite !filter_cons. cbn [length].
    destruct (fidelity n); repeat case_decide; try done; cbn [length]; lia. }
  assert (Hreads : forall b l c, Forall (fun x => x <> newline) (bytes_of c) -> written (String "#" c) l b ->
    exists ast, flow_parse debug_value (flow (finish b)) = Ok ast).
  { intros b l c Hc Hw. apply (written_reads debug_value) in Hw as (ast & Hp & _); [by exists ast|done]. }
  destruct source; unfold Dispatch.import, source_clean.
  - unfold Nginx.nginx_import. destruct (parse_block_total (Nginx.tokenize text) 0) as (nodes & p & ->). cbn [mbind exec_bind].
    eexists. split; [reflexivity|]. split; [apply Hcount|]. intros Hc.
    pose proof (map_spec _ nodes [] _ Hc (written_start " Imported from nginx by `pulsate import nginx`. Review the notes.")) as Hw.
    eapply Hreads; [|exact Hw]. by repeat (constructor; [by vm_compute|]).
  - eexists. split; [reflexivity|]. split; [apply Hcount|]. intros (b & l & -> & Hw)%CaddySpec.caddy_import_written.
    eapply Hreads; [|exact Hw]. by repeat (constructor; [by vm_compute|]).
  - eexists. split; [reflexivity|]. split; [apply Hcount|]. intros (b & l & -> & Hw)%(HAProxySpec.haproxy_import_written iter _ Hiter).
    eapply Hreads; [|exact Hw]. by repeat (constructor; [by vm_compute|]).
  - eexists. split; [reflexivity|]. split; [apply Hcount|]. intros (b & l & -> & Hw)%ApacheSpec.apache_import_written.
    eapply Hreads; [|exact Hw]. by repeat (constructor; [by vm_compute|]).
Qed.
End Importers.

(** ** Concrete sources *)
Definition demo_caddy : string := join nl
  ["example.com {"; "  reverse_proxy localhost:3000"; "}"; "files.example.com {"; "  root * /srv/www"; "  file_server";
   "  redir /old https://example.com/new 301"; "}"].
Definition demo_haproxy : string := join nl
  ["frontend fe"; "    bind *:443 ssl crt /etc/cert.pem"; "    acl is_api path_beg /api"; "    use_backend api if is_api";
   "    redirect location https://example.com:8443/x code 301"; "    default_backend web";
   "backend api"; "    server a 10.0.0.9:9000 check"; "backend web"; "    server w1 10.0.0.1:8080 check"].
Definition demo_apache : string := join nl
  ["<VirtualHost *:443>"; "    ServerName example.com"; "    ServerAlias www.example.com"; "    SSLEngine on";
   "    ProxyPass / http://localhost:3000/"; "    ProxyPass /api http://localhost:8080/"; "</VirtualHost>";
   "<VirtualHost *:80>"; "    ServerName files.example.com"; "    DocumentRoot /srv/www"; "    Redirect 301 /old https://example.com/new";
   "</VirtualHost>"].

Definition imported (source : Dispatch.Source) (text : string) : Import :=
  match Dispatch.import map_to_list source text with Ok i => i | _ => mk_import "" [] end.

Example demo_haproxy_flow : flow (imported Dispatch.HAProxy demo_haproxy) = join nl
  ["# Imported from HAProxy by `pulsate import haproxy`. Review the notes.";
   "upstream web {"; "  target http://10.0.0.1:8080"; "}"; "upstream api {"; "  target http://10.0.0.9:9000"; "}";
   "site :default {"; "  tls auto"; "  route /api/* ~> proxy(@api)";
   "  route /* ~> redirect(to=" +:+ quote "https://example.com:8443/x" +:+ ", status=301)"; "  route /* ~> proxy(@web)"; "}"; ""].
Proof. vm_compute. reflexivity. Qed.

Example demo_apache_flow : flow (imported Dispatch.Apache demo_apache) = join nl
  ["# Imported from Apache by `pulsate import apache`. Review the notes.";
   "site example.com www.example.com {"; "  tls auto"; "  route /api/* ~> proxy(http://localhost:8080)";
   "  route /* ~> proxy(http://localhost:3000)"; "}";
   "site files.example.com {"; "  route /old ~> redirect(to=" +:+ quote "https://example.com/new" +:+ ", status=301)";
   "  route /* ~> files(" +:+ quote "/srv/www" +:+ ")"; "}"; ""].
Proof. vm_compute. reflexivity. Qed.

Lemma imports_read_witness :
  (exists ast, flow_parse (fun _ => "") (flow (imported Dispatch.Caddy demo_caddy)) = Ok ast)
  /\ (exists ast, flow_parse (fun _ => "") (flow (imported Dispatch.HAProxy demo_haproxy)) = Ok ast)
  /\ (exists ast, flow_parse (fun _ => "") (flow (imported Dispatch.Apache demo_apache)) = Ok ast).
Proof.
  assert (H : forall source text, source_clean source text = true ->
    exists ast, flow_parse (fun _ => "") (flow (imported source text)) = Ok ast).
  { intros source text Hc. destruct (imports_read map_to_list (fun m => reflexivity _) (fun _ => "") source text) as (i & E & _ & Hr).
    unfold imported. rewrite E. by apply Hr. }
  repeat split; apply H; vm_compute; reflexivity.
Defined.

(** ** Where translations go wrong *)

(** A [^~] prefix location of nginx is read as the path [^~]: the route never
    matches, and the note calls the translation exact. *)
Lemma nginx_prefix_modifier_lost :
  let i := imported Dispatch.Nginx "server { server_name a.com; location ^~ /static/ { proxy_pass http://b; } }" in
  contains "route ^~/* ~> proxy(@b)" (flow i) = true /\ contains "/static" (flow i) = false
  /\ fidelity <$> notes i = [Exact].
Proof. vm_compute. repeat split. Qed.

(** Directives of a server or a location that are not understood leave no note:
    a site behind basic authentication and an access list is opened. *)
Lemma nginx_access_rules_dropped :
  imported Dispatch.Nginx "server { server_name a.com; auth_basic on; deny all; location / { proxy_pass http://b; satisfy all; } }"
  = imported Dispatch.Nginx "server { server_name a.com; location / { proxy_pass http://b; } }".
Proof. vm_compute. reflexivity. Qed.

(** A quoted argument is quoted again, and the text is not Flow. *)
Lemma nginx_quoted_root_unreadable :
  let i := imported Dispatch.Nginx ("server { location / { root " +:+ Text.in_quotes "/srv" +:+ "; } }") in
  match flow_parse (fun _ => "") (flow i) with Err _ => True | _ => False end /\ count Manual i = 0.
Proof. vm_compute. split; [exact I|reflexivity]. Qed.

(** A block inside a Caddy site replaces the site: its host is gone, the route
    is published under a site named after the directive, and no note says so. *)
Lemma caddy_block_replaces_site :
  let i := imported Dispatch.Caddy (join nl ["example.com {"; "  handle /api/* {"; "    reverse_proxy a:1"; "  }"; "}"]) in
  contains "example.com" (flow i) = false /\ contains "site handle" (flow i) = true /\ fidelity <$> notes i = [Exact].
Proof. vm_compute. repeat split. Qed.

(** Of an HAProxy rule with two conditions only the first is looked at, and a
    suffix condition on the path becomes a prefix; both notes say exact. *)
Lemma haproxy_conditions_lost :
  let i := imported Dispatch.HAProxy (join nl
    ["frontend fe"; "  acl is_php path_end .php"; "  acl is_admin path_beg /admin"; "  acl internal src 10.0.0.0/8";
     "  use_backend php if is_php"; "  use_backend admin if is_admin internal"]) in
  contains "route .php/* ~> proxy(@php)" (flow i) = true /\ contains "route /admin/* ~> proxy(@admin)" (flow i) = true
  /\ fidelity <$> notes i = [Exact; Exact].
Proof. vm_compute. repeat split. Qed.
