(* ===== verification/MigrateServe.v ===== *)
(** * From an nginx configuration to the routing table

    What [pulsate import nginx] writes is compiled like any other text.  The
    routing table and the pools of the import are read off the tree of nginx
    directives: one site for every [server], one route for every [location]
    that has a handler, one pool for every [upstream]. *)

From Stdlib Require Import ZArith Ascii String Lia.
From stdpp Require Import base option list gmap strings.
From S2P Require Import Prelude RustStr CoreTypes UtilParse FlowSyntax FlowAtoms FlowLexer FlowParser FlowPrint Pipeline Router Proxy ConfigModel Config ConfigProps ConfigLayout DocConfig ConfigRouter ConfigRouterProps EndToEnd Migrate MigrateProps.
Import Model Build Migrate Nginx NginxSpec.
Local Open Scope string_scope.
Local Open Scope list_scope.

(** ** The handlers the importer writes *)
Abbreviation reads h := (read_handler h.1 h.2).

Definition read_status (dflt : Z) (code : string) : Z :=
  match type_atom code with VInt i => default dflt (try_from_u u16_max i) | _ => dflt end.

Lemma read_proxy to : reads (do_proxy to) =
  match type_atom to with VRef name => HProxy (Some name) None | VStr url => HProxy None (Some url) | _ => HProxy None None end.
Proof. unfold read_handler, Compile.build_handler. cbn. by destruct (type_atom to). Qed.
Lemma read_files root : reads (do_files root) = HFiles root [].
Proof. done. Qed.
Lemma read_respond code : reads (do_respond code) = HRespond (read_status 200 code) "".
Proof.
  unfold read_handler, Compile.build_handler, read_status. cbn. unfold status_arg. cbn. by destruct (type_atom code).
Qed.
Lemma read_redirect url code : reads (do_redirect url code) = HRedirect url (read_status 308 code).
Proof.
  unfold read_handler, Compile.build_handler, read_status. cbn. unfold status_arg. cbn. by destruct (type_atom code).
Qed.

(** ** The parts of a source *)

(** The directives called [name] at the top level, and inside [http], [stream]
    and [events]. *)
Fixpoint find_nodes (want : string) (n : Node) {struct n} : list Node :=
  let 'mk_node name _ block := n in
  if (name =? "http")%string || (name =? "stream")%string || (name =? "events")%string then concat (List.map (find_nodes want) block)
  else if (name =? want)%string then [n]
  else [].
Definition servers (nodes : list Node) : list Node := nodes ≫= find_nodes "server".
Definition pools (nodes : list Node) : list Node := nodes ≫= find_nodes "upstream".

Definition locations (server : Node) : list Node := filter (fun d => is_named "location" d = true) (node_block server).
Definition location_parts (loc : Node) : option ((MatchKind.MatchKind * string) * (string * list PArg)) :=
  m ← location_pattern (node_args loc); h ← location_handler (node_block loc); Some (m, h).

(** A location as a route of the table, a server as a site. *)
Definition location_route (x : (MatchKind.MatchKind * string) * (string * list PArg)) : Router.Route :=
  Router.mk_route (map_kind x.1.1) x.1.2 None [] None (map_handler (reads x.2)).
Definition server_names (server : Node) : list string := omap read_word (server_hosts (node_block server)).
Definition server_routes (server : Node) : list ((MatchKind.MatchKind * string) * (string * list PArg)) :=
  omap location_parts (locations server).
Definition server_site (server : Node) : Router.SiteRoutes :=
  Router.mk_site (server_names server) (location_route <$> server_routes server).

(** An upstream as a pool. *)
Definition pool_name (p : Node) : string := default "" (read_word (default "" (head (node_args p)))).
Definition pool_urls (p : Node) : list string :=
  omap (fun d => if is_named "server" d then head (node_args d) ≫= (fun a => read_word (with_scheme a)) else None) (node_block p).
Definition nginx_pool (p : Node) : Proxy.Upstream :=
  Proxy.upstream_new (pool_name p) ((fun url => (url, 1%Z)) <$> pool_urls p) Proxy.RoundRobin Proxy.retry_default Proxy.breaker_default.

(** What the importer does not check: names and hosts are given once, and a
    location refers to a pool of the source. *)
Definition consistent (nodes : list Node) : Prop :=
  NoDup (pool_name <$> pools nodes) /\ NoDup (servers nodes ≫= server_names)
  /\ forall s x n, s ∈ servers nodes -> x ∈ server_routes s -> n ∈ step_refs x.2.2 -> n ∈ pool_name <$> pools nodes.

(** ** The document of a source *)
Definition route_of_location (x : (MatchKind.MatchKind * string) * (string * list PArg)) : PRoute :=
  mk_proute x.1.1 x.1.2 [] x.2.1 x.2.2.
Definition server_body (s : Node) : list PStmt :=
  (if server_tls (node_block s) then [tls_auto] else [])
  ++ omap (fun d => if is_named "location" d then location_stmt d else None) (node_block s).
Definition pool_args (p : Node) : list (list PArg) :=
  omap (fun d => if is_named "server" d then (fun a => [word_arg (with_scheme a)]) <$> head (node_args d) else None) (node_block p).

Lemma is_section name : (name =? "http")%string || (name =? "stream")%string || (name =? "events")%string = true ->
  (name =? "upstream")%string = false /\ (name =? "server")%string = false.
Proof. rewrite !orb_true_iff, !String.eqb_eq. by intros [[-> | ->]| ->]. Qed.

Lemma blocks_of_nodes want kw (f : Node -> list PArg * list PStmt) :
  (forall n, node_name n = want -> doc_blocks kw (node_doc n) = f <$> find_nodes want n) ->
  (forall n, node_name n <> want ->
     (node_name n =? "http")%string || (node_name n =? "stream")%string || (node_name n =? "events")%string = false ->
     doc_blocks kw (node_doc n) = []) ->
  forall nodes, doc_blocks kw (nginx_doc nodes) = f <$> (nodes ≫= find_nodes want).
Proof.
  intros Hwant Hother nodes.
  assert (G : forall n, doc_blocks kw (node_doc n) = f <$> find_nodes want n).
  { apply node_nested. intros name args block IH.
    destruct (decide (name = want)) as [E|Hne]; [by apply Hwant|].
    destruct ((name =? "http")%string || (name =? "stream")%string || (name =? "events")%string) eqn:Es.
    - cbn [node_doc find_nodes]. rewrite Es. induction IH as [|n ns Hn _ IHns]; [done|].
      cbn [List.map concat]. by rewrite doc_blocks_app, fmap_app, IHns, Hn.
    - rewrite Hother by done. cbn [find_nodes]. rewrite Es. by rewrite (proj2 (String.eqb_neq _ _) Hne). }
  unfold nginx_doc. induction nodes as [|n nodes IH]; [done|]. by rewrite !bind_cons, doc_blocks_app, fmap_app, IH, G.
Qed.

Lemma sites_of_nodes nodes :
  doc_blocks "site" (nginx_doc nodes) = (fun s => (word_arg <$> server_hosts (node_block s), server_body s)) <$> servers nodes.
Proof.
  apply blocks_of_nodes; intros [name args block] Hn; cbn in Hn.
  - subst. done.
  - intros Hs. cbn [node_name] in Hs. cbn [node_doc]. rewrite Hs, (proj2 (String.eqb_neq _ _) Hn). by destruct (name =? "upstream")%string.
Qed.

Lemma pools_of_nodes nodes :
  doc_blocks "upstream" (nginx_doc nodes)
  = (fun p => ([word_arg (default "" (head (node_args p)))], PDirective "target" <$> pool_args p)) <$> pools nodes.
Proof.
  apply blocks_of_nodes; intros [name args block] Hn; cbn in Hn.
  - subst. cbn. do 3 f_equal. unfold pool_args. cbn [node_block]. induction block as [|d ds IH]; [done|]. cbn.
    destruct (is_named "server" d); [|exact IH]. destruct (head (node_args d)); [|exact IH]. cbn. f_equal. exact IH.
  - intros Hs. cbn [node_name] in Hs. cbn [node_doc]. rewrite Hs, (proj2 (String.eqb_neq _ _) Hn). by destruct (name =? "server")%string.
Qed.

Lemma other_blocks kw nodes : kw <> "site" -> kw <> "upstream" -> doc_blocks kw (nginx_doc nodes) = [].
Proof.
  intros H1 H2. assert (G : forall n, doc_blocks kw (node_doc n) = []).
  { apply node_nested. intros name args block IH. cbn [node_doc].
    destruct (_ || _); [|destruct (name =? "upstream")%string; [|destruct (name =? "server")%string; [|done]]].
    - induction IH as [|n ns Hn _ IHns]; [done|]. cbn [List.map concat]. by rewrite doc_blocks_app, IHns, Hn.
    - cbn [doc_blocks omap list_omap upstream_stmt MigrateProps.block]. rewrite (proj2 (String.eqb_neq _ _)); [done|congruence].
    - cbn [doc_blocks omap list_omap server_stmt MigrateProps.block]. rewrite (proj2 (String.eqb_neq _ _)); [done|congruence]. }
  unfold nginx_doc. induction nodes as [|n nodes IH]; [done|]. by rewrite bind_cons, doc_blocks_app, IH, G.
Qed.

Lemma nginx_blocks nodes : Forall is_block (nginx_doc nodes).
Proof.
  assert (G : forall n, Forall is_block (node_doc n)).
  { apply node_nested. intros name args block IH. cbn [node_doc].
    destruct (_ || _); [|destruct (name =? "upstream")%string; [|destruct (name =? "server")%string]]; try by repeat constructor.
    induction IH as [|n ns Hn _ IHns]; [constructor|]. cbn [List.map concat]. by apply Forall_app. }
  unfold nginx_doc. induction nodes as [|n nodes IH]; [constructor|]. rewrite bind_cons. by apply Forall_app.
Qed.

Lemma body_routes s : doc_routes (server_body s) = route_of_location <$> server_routes s.
Proof.
  unfold server_body. rewrite doc_routes_app. replace (doc_routes (if server_tls (node_block s) then [tls_auto] else [])) with (@nil PRoute) by by destruct (server_tls _).
  unfold server_routes, locations. cbn [app]. induction (node_block s) as [|d ds IH]; [done|]. cbn [omap list_omap].
  rewrite filter_cons. destruct (is_named "location" d) eqn:E; [|by rewrite decide_False by congruence].
  rewrite decide_True by done. cbn [omap list_omap]. unfold location_stmt, location_parts at 1.
  destruct (location_pattern (node_args d)) as [[kind pat]|]; cbn [mbind option_bind]; [|exact IH].
  destruct (location_handler (node_block d)) as [h|]; cbn [mbind option_bind]; [|exact IH]. cbn. f_equal. exact IH.
Qed.

Lemma location_handlers s : Forall (fun r => pr_handler r ∈ Compile.HANDLERS) (route_of_location <$> server_routes s).
Proof.
  assert (Hd : forall d h, directive_handler d = Some h -> h.1 ∈ Compile.HANDLERS).
  { intros d h. unfold directive_handler. destruct (_ =? _)%string; [destruct (head _); [|done]; intros [= <-]; set_solver|].
    destruct (_ =? _)%string; [|done]. intros [= <-]. unfold return_handler. destruct (node_args d) as [|? [|? [|? ?]]]; try set_solver.
    destruct (_ || _); set_solver. }
  apply Forall_fmap, Forall_forall. intros [m h] (loc & _ & Hx)%list_elem_of_omap. cbn. unfold location_parts in Hx.
  apply bind_Some in Hx as (m' & _ & Hx). apply bind_Some in Hx as (h' & Hh & [= _ ->]).
  unfold location_handler in Hh. destruct (last (omap directive_handler (node_block loc))) as [h''|] eqn:El.
  - injection Hh as ->. apply last_Some_elem_of, list_elem_of_omap in El as (d & _ & Hx). by eapply Hd.
  - apply fmap_Some in Hh as (root & _ & ->). set_solver.
Qed.

(** ** The configuration of a source *)
Section Meaning.
Variable env : string -> option string.
Variable debug_value : Value -> string.
Variable nodes : list Node.
Variable c : Config.
Abbreviation doc := (map (stmt_tree debug_value) (nginx_doc nodes)).
Hypothesis Hl : lowered env doc c.

Lemma pool_targets p : omap (read_target env) (pool_args p) = (fun url => mk_target url 1) <$> pool_urls p.
Proof using Type.
  unfold pool_args, pool_urls. induction (node_block p) as [|d ds IH]; [done|]. cbn [omap list_omap].
  destruct (is_named "server" d); [|exact IH]. destruct (head (node_args d)) as [a|]; [|exact IH].
  cbn [fmap option_fmap option_map mbind option_bind omap list_omap]. unfold read_target at 1. cbn [fmap list_fmap].
  replace (first_positional [arg_tree (word_arg (with_scheme a))]) with (Some (type_atom (with_scheme a))) by done.
  cbn [mbind option_bind]. rewrite resolve_word. destruct (read_word (with_scheme a)); cbn [mbind option_bind]; [|exact IH].
  cbn. f_equal. exact IH.
Qed.

Lemma source_pools : upstreams c =
  (fun p => mk_upstream_def (pool_name p) no_span ((fun url => mk_target url 1) <$> pool_urls p) "round_robin" None None) <$> pools nodes.
Proof using Hl.
  rewrite (lowered_upstreams _ _ _ Hl), blocks_tree, pools_of_nodes, <-!list_fmap_compose. apply list_fmap_ext. intros i p _.
  unfold compose. cbn [fst snd]. rewrite tree_upstream. by rewrite pool_targets.
Qed.

Definition describes (s : Node) (st : Site) : Prop :=
  described_site debug_value (server_hosts (node_block s)) (site_tls (map (stmt_tree debug_value) (server_body s)))
    (route_of_location <$> server_routes s) st.

Lemma source_sites : Forall2 describes (servers nodes) (sites c).
Proof using Hl.
  pose proof (lowered_sites _ _ _ Hl) as Hs. rewrite blocks_tree, sites_of_nodes, <-list_fmap_compose in Hs.
  rewrite Forall2_fmap_l in Hs. eapply Forall2_impl; [exact Hs|]. intros s st H. unfold describes. eapply tree_site; [apply body_routes|apply location_handlers|exact H].
Qed.

Lemma source_names : ud_name <$> upstreams c = pool_name <$> pools nodes.
Proof using Hl. rewrite source_pools, <-list_fmap_compose. done. Qed.

Lemma source_hosts : host_pattern <$> flat_map site_hosts (sites c) = servers nodes ≫= server_names.
Proof using Hl.
  induction source_sites as [|s st ss sts Hd _ IH]; [done|]. cbn [flat_map]. rewrite fmap_app, bind_cons, IH. f_equal. apply (desc_hosts _ _ _ _ _ Hd).
Qed.

Lemma source_routes rd : rd ∈ Compile.all_routes c <->
  exists s st i x, s ∈ servers nodes /\ describes s st /\ server_routes s !! i = Some x /\ site_routes st !! i = Some rd
    /\ st ∈ sites c.
Proof using Hl.
  unfold Compile.all_routes. rewrite list_elem_of_In, in_flat_map. split.
  - intros (st & Hst & Hrd). apply list_elem_of_In in Hrd, Hst. apply list_elem_of_lookup in Hst as [j Hj], Hrd as [i Hi].
    destruct (Forall2_lookup_r _ _ _ _ _ source_sites Hj) as (s & Hs & Hd).
    destruct (Forall2_lookup_r _ _ _ _ _ (desc_routes _ _ _ _ _ Hd) Hi) as (r & Hr & _).
    rewrite list_lookup_fmap in Hr. apply fmap_Some in Hr as (x & Hx & _).
    exists s, st, i, x. split_and!; [by eapply list_elem_of_lookup_2|done..|by eapply list_elem_of_lookup_2].
  - intros (s & st & i & x & _ & _ & _ & Hi & Hst). exists st. rewrite <-!list_elem_of_In. split; [done|]. by eapply list_elem_of_lookup_2.
Qed.

Lemma source_refs : (forall r u, r ∈ Compile.all_routes c -> u ∈ refs r -> ref_name u ∈ pool_name <$> pools nodes) <->
  forall s x n, s ∈ servers nodes -> x ∈ server_routes s -> n ∈ step_refs x.2.2 -> n ∈ pool_name <$> pools nodes.
Proof using Hl.
  split.
  - intros H s x n Hs Hx Hn. apply list_elem_of_lookup in Hs as [j Hj], Hx as [i Hi].
    destruct (Forall2_lookup_l _ _ _ _ _ source_sites Hj) as (st & Hst & Hd).
    destruct (Forall2_lookup_l _ _ _ i (route_of_location x) (desc_routes _ _ _ _ _ Hd)) as (rd & Hrd & Hr).
    { by rewrite list_lookup_fmap, Hi. }
    apply (desc_refs _ _ _ Hr) in Hn. apply list_elem_of_fmap in Hn as (u & -> & Hu). apply (H rd u); [|done].
    apply source_routes. exists s, st, i, x. split_and!; [by eapply list_elem_of_lookup_2|done..|by eapply list_elem_of_lookup_2].
  - intros H r u Hr Hu. apply source_routes in Hr as (s & st & i & x & Hs & Hd & Hx & Hi & _).
    destruct (Forall2_lookup_r _ _ _ _ _ (desc_routes _ _ _ _ _ Hd) Hi) as (pr & Hpr & Hrd).
    rewrite list_lookup_fmap, Hx in Hpr. injection Hpr as <-.
    apply (H s x); [done|by eapply list_elem_of_lookup_2|]. apply (desc_refs _ _ _ Hrd). by apply list_elem_of_fmap_2.
Qed.

Lemma source_empty : caches c = [] /\ wafs c = [] /\ user_sets c = [].
Proof using Hl.
  rewrite (lowered_caches _ _ _ Hl), (lowered_wafs _ _ _ Hl), (lowered_users _ _ _ Hl), !blocks_tree, !other_blocks by done. done.
Qed.

Lemma source_well_formed : well_formed c <-> consistent nodes.
Proof using Hl.
  destruct source_empty as (Hc & Hw & Hus). unfold consistent. rewrite <-source_refs, <-source_hosts, <-source_names.
  assert (Hn : nm_name <$> upstream_names c = ud_name <$> upstreams c) by (unfold upstream_names; by rewrite <-list_fmap_compose).
  assert (Hdn : nm_name <$> defined_names c = ud_name <$> upstreams c).
  { unfold defined_names, cache_names, waf_names. rewrite Hc, Hw, Hus. cbn. by rewrite app_nil_r. }
  split.
  - intros [W1 _ _ _ W5 _ W7]. rewrite Hn in W1. rewrite Hdn in W5. split_and!; done.
  - intros (W1 & W7 & W5). split; rewrite ?Hn, ?Hdn; try done.
    1, 2, 3: unfold cache_names, waf_names; rewrite ?Hc, ?Hw, ?Hus; apply NoDup_nil_2.
    intros r o m (s & st & i & x & _ & Hd & _ & Hi & _)%source_routes.
    destruct (Forall2_lookup_r _ _ _ _ _ (desc_routes _ _ _ _ _ Hd) Hi) as (pr & _ & Hrd).
    rewrite (desc_specs _ _ _ Hrd). by intros ?%elem_of_nil.
Qed.

Lemma source_terminals : Forall has_terminal (document_routes doc).
Proof using Type.
  unfold document_routes. rewrite blocks_tree, sites_of_nodes, <-list_fmap_compose.
  induction (servers nodes) as [|s ss IH]; [constructor|]. cbn [fmap list_fmap flat_map]. apply Forall_app. split; [|exact IH].
  unfold compose. cbn [fst snd]. rewrite routes_tree, body_routes. apply tree_routes, location_handlers.
Qed.

Lemma source_acceptable : acceptable doc c <-> consistent nodes.
Proof using Hl.
  unfold acceptable. rewrite source_well_formed, versions_tree by apply nginx_blocks. split; [tauto|].
  intros Hc. split; [constructor|]. split; [apply source_terminals|done].
Qed.

(** The table and the pools of the source. *)
Lemma source_table : consistent nodes ->
  Router.sites (build_router c).1.1 = server_site <$> servers nodes
  /\ forall p, p ∈ pools nodes -> Proxy.registry_get (pool_name p) (build_upstreams c) = Some (nginx_pool p).
Proof using Hl.
  intros Hcons. pose proof (proj2 source_well_formed Hcons) as Hwf.
  destruct (build_router_wf c Hwf) as (Hs & _ & _ & Hnd).
  { apply Forall_forall. intros rd (s & st & i & x & _ & Hd & _ & Hi & _)%source_routes.
    destruct (Forall2_lookup_r _ _ _ _ _ (desc_routes _ _ _ _ _ Hd) Hi) as (pr & _ & Hrd). by rewrite (desc_handler _ _ _ Hrd). }
  split.
  - revert Hs. generalize (Router.sites (build_router c).1.1). intros rs. pose proof source_sites as Hd. revert rs Hd.
    generalize (heap_limiters (build_router c).1.2). intros hl rs Hd Hs. revert rs Hs.
    induction Hd as [|s st ss sts Hd _ IH]; intros rs Hs; [by apply Forall2_nil_inv_l in Hs as ->|].
    apply Forall2_cons_inv_l in Hs as (r & rs' & Hr & Hs & ->). cbn [fmap list_fmap]. f_equal; [|by apply IH].
    rewrite (built_described_site debug_value c hl _ _ _ _ _ Hr Hd). unfold server_site, server_names. f_equal.
    rewrite <-list_fmap_compose. done.
  - intros p Hp. destruct (registry_insert_all (upstreams c) Proxy.registry_new Hnd) as (H1 & _).
    { intros d' _. apply lookup_empty. }
    unfold build_upstreams. apply (list_elem_of_fmap_2 (fun p => mk_upstream_def (pool_name p) no_span
      ((fun url => mk_target url 1) <$> pool_urls p) "round_robin" None None)) in Hp.
    rewrite <-source_pools in Hp. specialize (H1 _ Hp). cbn [ud_name] in H1. etrans; [exact H1|].
    unfold build_upstream, nginx_pool, build_retry, build_breaker. cbn [ud_name ud_targets ud_policy ud_retry ud_breaker].
    f_equal. by rewrite <-list_fmap_compose.
Qed.
End Meaning.

(** ** The notes of a source *)
Definition return_notes (args : list string) : list Note :=
  match args with
  | [code; url] =>
    if contains "://" url || starts_with "/" url then [mk_note "return" Exact "mapped to redirect()"]
    else [mk_note "return" Approximate "mapped to respond()"]
  | _ :: _ => [mk_note "return" Approximate "mapped to respond()"]
  | [] => [mk_note "return" Manual "unrecognized return form"]
  end.
Definition directive_notes (d : Node) : list Note :=
  if (node_name d =? "proxy_pass")%string then
    match node_args d with [] => [] | _ => [mk_note "proxy_pass" Exact "mapped to proxy()"] end
  else if (node_name d =? "return")%string then return_notes (node_args d)
  else [].
Definition no_handler : Note := mk_note "location" Manual "no recognized handler (proxy_pass/root/return) in this location".
Definition regex_location : Note := mk_note "location ~" Manual "regex location needs a manual Flow regex route".

(** A location is left out with a note that asks for a person. *)
Definition location_notes (loc : Node) : list Note :=
  match node_args loc, location_pattern (node_args loc) with
  | [], _ => []
  | _, None => [regex_location]
  | _, Some _ =>
    (node_block loc ≫= directive_notes)
    ++ match last (omap directive_handler (node_block loc)), block_root (node_block loc) with
       | Some _, _ => []
       | None, Some _ => [mk_note "root" Exact "mapped to files()"]
       | None, None => [no_handler]
       end
  end.
Definition server_notes (s : Node) : list Note :=
  (if server_tls (node_block s) then
     [mk_note "listen ssl" Approximate "TLS mapped to `tls auto` (ACME); manual certs need a tls{} block"] else [])
  ++ (locations s ≫= location_notes).
Definition pool_notes (p : Node) : list Note :=
  ((fun d => mk_note (node_name d) Manual "upstream directive needs manual translation")
     <$> filter (fun d => is_named "server" d = false) (node_block p))
  ++ [mk_note "upstream" Exact "mapped to a Flow upstream pool"].
Fixpoint node_notes (n : Node) {struct n} : list Note :=
  let 'mk_node name _ block := n in
  if (name =? "http")%string || (name =? "stream")%string || (name =? "events")%string then concat (List.map node_notes block)
  else if (name =? "upstream")%string then pool_notes n
  else if (name =? "server")%string then server_notes n
  else [mk_note name Dropped "top-level directive not translated"].

(** A builder that goes from [b] by adding the notes [ns]. *)
Definition notes_added (b : Builder) (ns : list Note) (b' : Builder) : Prop := b_notes b' = b_notes b ++ ns.

Lemma fold_notes {A} (f : Builder -> A -> Builder) (g : A -> list Note) l :
  (forall b x, x ∈ l -> notes_added b (g x) (f b x)) -> forall b, notes_added b (l ≫= g) (foldl f b l).
Proof.
  unfold notes_added. induction l as [|x l IH]; intros Hf b; cbn [foldl]; [by rewrite app_nil_r|].
  rewrite bind_cons, IH, Hf, app_assoc by set_solver. done.
Qed.

Lemma return_noted args b : notes_added b (return_notes args) (map_return args b).2.
Proof. unfold map_return, return_notes. destruct args as [|code [|url [|? ?]]]; try done. by destruct (_ || _). Qed.

Lemma directives_noted block b :
  let '(h, r, b') := foldl location_directive (None, None, b) block in
  (is_Some h <-> is_Some (last (omap directive_handler block))) /\ r = block_root block
  /\ notes_added b (block ≫= directive_notes) b'.
Proof.
  unfold notes_added, block_root. induction block as [|d block IH] using rev_ind; [by cbn; rewrite app_nil_r|].
  rewrite foldl_app. cbn [foldl]. destruct (foldl location_directive (None, None, b) block) as [[h r] b'].
  destruct IH as (Hh & -> & Hb). rewrite omap_app, filter_app, !last_app, filter_cons, filter_nil, bind_app, bind_cons.
  cbn [omap list_omap]. unfold location_directive, directive_handler, is_root, directive_notes.
  destruct (node_name d =? "proxy_pass")%string; [|destruct (node_name d =? "return")%string].
  - destruct (node_args d) as [|to args]; cbn; [rewrite !app_nil_r; by split_and!|]. rewrite Hb, <-app_assoc.
    split_and!; [|done..]. by split; eexists.
  - pose proof (return_noted (node_args d) b') as Hr. destruct (map_return (node_args d) b') as [t b'']. cbn in *.
    rewrite Hr, Hb, <-app_assoc. rewrite !app_nil_r. split_and!; [|done..]. by split; eexists.
  - destruct ((node_name d =? "root")%string || (node_name d =? "alias")%string); cbn; rewrite !app_nil_r; by split_and!.
Qed.

Lemma location_noted loc b : notes_added b (location_notes loc) (map_location loc b).
Proof.
  unfold notes_added, map_location, location_notes, location_matcher, location_pattern.
  destruct (node_args loc) as [|m rest]; [by rewrite app_nil_r|].
  assert (G : forall route, b_notes (let '(handler, try_root, b) := foldl location_directive (None, None, b) (node_block loc) in
      let '(handler, b) := match handler, try_root with
        | None, Some root => (Some ("files(" +:+ Text.in_quotes root +:+ ")"), note "root" Exact "mapped to files()" b)
        | h, _ => (h, b)
        end in
      match handler with
      | Some h => line (route +:+ " ~> " +:+ h) b
      | None => note "location" Manual "no recognized handler (proxy_pass/root/return) in this location" b
      end)
    = b_notes b ++ (node_block loc ≫= directive_notes)
      ++ match last (omap directive_handler (node_block loc)), block_root (node_block loc) with
         | Some _, _ => [] | None, Some _ => [mk_note "root" Exact "mapped to files()"] | None, None => [no_handler] end).
  { intros route. pose proof (directives_noted (node_block loc) b) as Hd.
    destruct (foldl location_directive (None, None, b) (node_block loc)) as [[h r] b']. destruct Hd as (Hh & -> & Hb).
    destruct h as [h|], (last (omap directive_handler (node_block loc))) as [h'|].
    - destruct (block_root (node_block loc)); cbn; by rewrite Hb, app_nil_r.
    - destruct (proj1 Hh ltac:(by eexists)) as [? ?]. done.
    - destruct (proj2 Hh ltac:(by eexists)) as [? ?]. done.
    - destruct (block_root (node_block loc)); cbn; rewrite Hb, <-app_assoc; done. }
  destruct (m =? "=")%string; [apply G|]. destruct (_ || _); [done|]. apply G.
Qed.

Lemma server_noted s b : notes_added b (server_notes s) (map_server s b).
Proof.
  unfold notes_added, map_server, server_notes, locations. rewrite server_settings_spec.
  cbn [close line b_notes]. set (b1 := open _ b). assert (E1 : b_notes b1 = b_notes b) by done. clearbody b1.
  assert (G : forall ds b2, b_notes (foldl (fun b child => if (node_name child =? "location")%string then map_location child b else b) b2 ds)
    = b_notes b2 ++ (filter (fun d => is_named "location" d = true) ds ≫= location_notes)).
  { induction ds as [|d ds IH]; intros b2; cbn [foldl]; [by rewrite app_nil_r|]. rewrite IH, filter_cons.
    change (node_name d =? "location")%string with (is_named "location" d).
    destruct (is_named "location" d); [|by rewrite decide_False by done].
    rewrite decide_True by done. by rewrite bind_cons, (location_noted d b2), app_assoc. }
  rewrite G. destruct (server_tls _); cbn; rewrite E1; [by rewrite <-app_assoc|done].
Qed.

Lemma pool_noted p b : notes_added b (pool_notes p) (map_upstream p b).
Proof.
  unfold notes_added, map_upstream, pool_notes. cbn [note b_notes close line]. rewrite app_assoc. f_equal.
  set (b1 := open _ b). assert (E1 : b_notes b1 = b_notes b) by done. clearbody b1. rewrite <-E1. clear E1. revert b1.
  induction (node_block p) as [|d ds IH]; intros b1; cbn [foldl]; [by rewrite app_nil_r|]. rewrite IH, filter_cons. unfold is_named.
  destruct (node_name d =? "server")%string.
  - rewrite decide_False by done. by destruct (node_args d).
  - rewrite decide_True by done. cbn. by rewrite <-app_assoc.
Qed.

Lemma nodes_noted nodes b : notes_added b (nodes ≫= node_notes) (map_nodes nodes b).
Proof.
  unfold map_nodes. apply fold_notes. intros b1 n _. revert b1.
  induction n as [name args block IH] using node_nested. intros b1. rewrite map_node_eq. cbn [node_notes].
  destruct (_ || _ || _); [|destruct (name =? "upstream")%string; [|destruct (name =? "server")%string]].
  - revert b1. induction IH as [|n block Hn _ IHb]; intros b1; cbn [foldl List.map concat]; unfold notes_added; [by rewrite app_nil_r|].
    by rewrite (IHb (map_node b1 n)), (Hn b1), app_assoc.
  - apply pool_noted.
  - apply server_noted.
  - done.
Qed.

(** What is not routed and not carried over is asked for: every location with
    an argument and no route, and every directive of a pool but [server]. *)
Lemma unrouted_noted loc : node_args loc <> [] -> location_parts loc = None ->
  regex_location ∈ location_notes loc \/ no_handler ∈ location_notes loc.
Proof.
  unfold location_parts, location_notes, location_handler. destruct (node_args loc) as [|m rest]; [done|]. intros _.
  destruct (location_pattern (m :: rest)); cbn; [|intros _; left; set_solver].
  destruct (last (omap directive_handler (node_block loc))), (block_root (node_block loc)); cbn; try done.
  intros _. right. apply elem_of_app. right. by left.
Qed.

Lemma unread_noted p d : d ∈ node_block p -> node_name d <> "server" ->
  mk_note (node_name d) Manual "upstream directive needs manual translation" ∈ pool_notes p.
Proof.
  intros Hd Hn. unfold pool_notes. apply elem_of_app. left. apply list_elem_of_fmap. exists d. split; [done|].
  apply list_elem_of_filter. split; [|done]. by apply String.eqb_neq.
Qed.

Lemma found_noted want x n : forall s, s ∈ find_nodes want n ->
  (want = "server" /\ x ∈ server_notes s) \/ (want = "upstream" /\ x ∈ pool_notes s) -> x ∈ node_notes n.
Proof.
  induction n as [name args block IH] using node_nested. intros s Hs Hx. cbn [find_nodes node_notes] in *.
  destruct (_ || _ || _) eqn:Es.
  - induction IH as [|n ns Hn _ IHns]; [by apply not_elem_of_nil in Hs|]. cbn [List.map concat] in *.
    apply elem_of_app in Hs as [Hs|Hs]; apply elem_of_app; [left; by eapply Hn|right; by apply IHns].
  - destruct (String.eqb_spec name want) as [->|]; [|by apply not_elem_of_nil in Hs].
    apply list_elem_of_singleton in Hs as ->. by destruct Hx as [[-> Hx]|[-> Hx]].
Qed.

(** C35. What an imported nginx configuration serves.  A text that lays out a
    tree of directives, whose words hold no mark of Flow's, is imported.  The
    import is accepted exactly when names of pools and of servers are given once
    and the pools that locations refer to are in the source.  Then the routing
    table is: for every server a site with its names and, for every prefix or
    exact location that has a handler, a route with its path and that handler.
    A location with a regular expression gets no route, with a handler or
    without.  Every upstream is a pool of its servers' addresses, each of weight
    1, under round robin.  The notes are those of [node_notes], in order: one
    for a person for every location with an argument and no route, and for every
    directive of an upstream that is not a server.  The guide to migration
    promises a regex route, the weights and the policy: the first and the last
    are left to the notes, and the weights go with no note. *)
Theorem nginx_served env debug_str debug_value debug_config (text : string) (nodes : list Node) generation
    (Hlaid : laid (chars text) (nodes_tokens nodes))
    (Hwords : forallb node_words nodes = true)
    (Hclean : forallb node_clean nodes = true) :
  exists i, nginx_import text = Ok i
    /\ notes i = nodes ≫= node_notes
    /\ (forall s l, s ∈ servers nodes -> l ∈ locations s -> node_args l <> [] -> location_parts l = None ->
         regex_location ∈ notes i \/ no_handler ∈ notes i)
    /\ (forall p d, p ∈ pools nodes -> d ∈ node_block p -> node_name d <> "server" ->
         mk_note (node_name d) Manual "upstream directive needs manual translation" ∈ notes i)
    /\ let outcome := Compile.compile env debug_str debug_value debug_config (flow i) generation in
       (consistent nodes /\ exists compiled, outcome = Ok compiled
          /\ Router.sites (build_router (Compile.config compiled)).1.1 = server_site <$> servers nodes
          /\ forall p, p ∈ pools nodes ->
               Proxy.registry_get (pool_name p) (build_upstreams (Compile.config compiled)) = Some (nginx_pool p))
       \/ (~ consistent nodes /\ ConfigProps.refused outcome).
Proof.
  destruct (nginx_translates debug_value text nodes Hlaid Hwords Hclean) as (i & ast & Hi & Hp & Ht).
  exists i. split; [exact Hi|].
  assert (Hnotes : notes i = nodes ≫= node_notes).
  { rewrite (import_laid text nodes Hlaid Hwords) in Hi. injection Hi as <-. apply nodes_noted. }
  split_and!; [exact Hnotes| | |].
  { intros s l (n & Hs & Hn)%list_elem_of_bind Hl Ha Hno. rewrite Hnotes, !list_elem_of_bind.
    destruct (unrouted_noted l Ha Hno); [left|right]; exists n; (split; [|done]); eapply found_noted; try exact Hs; left;
      (split; [done|]); apply elem_of_app; right; apply list_elem_of_bind; eauto. }
  { intros p d (n & Hs & Hn)%list_elem_of_bind Hd Hno. rewrite Hnotes, list_elem_of_bind. exists n. split; [|done].
    eapply found_noted; [exact Hs|right]. split; [done|]. by apply unread_noted. }
  cbv zeta.
  destruct (compile_document env debug_str debug_value debug_config (flow i) generation ast _ Hp (erased_same _ _ Ht))
    as (c0 & Hl & Hc). pose proof (source_acceptable env debug_value nodes c0 Hl) as Ha.
  destruct Hc as [[Hok (c & Hc & Es)]|[Hno Hr]]; [left|right; tauto].
  apply Ha in Hok. split; [exact Hok|]. exists c. split; [exact Hc|].
  destruct (source_table env debug_value nodes c0 Hl Hok) as [Ht1 Ht2].
  rewrite <-(build_router_strip (Compile.config c)), <-(build_upstreams_strip (Compile.config c)), Es, build_router_strip, build_upstreams_strip.
  done.
Qed.

(** *** Concrete sources *)
Abbreviation demo_compile text := (Compile.compile (fun _ => None) id (fun _ => "") (fun _ => "") text 1).

Example demo_site : server_site <$> servers demo_tree =
  [Router.mk_site ["example.com"; "www.example.com"]
     [Router.mk_route Router.Prefix "/*" None [] None (Router.Proxy (Some "backend") None);
      Router.mk_route Router.Prefix "/static/*" None [] None (Router.Files "/var/www" []);
      Router.mk_route Router.Exact "/healthz" None [] None (Router.Respond 204 "");
      Router.mk_route Router.Prefix "/old/*" None [] None (Router.Redirect "https://example.com/new" 301)]].
Proof. vm_compute. reflexivity. Qed.

Lemma nginx_served_witness :
  exists i, nginx_import demo_nginx = Ok i
    /\ ((consistent demo_tree /\ exists compiled, demo_compile (flow i) = Ok compiled
            /\ Router.sites (build_router (Compile.config compiled)).1.1 = server_site <$> servers demo_tree)
        \/ (~ consistent demo_tree /\ ConfigProps.refused (demo_compile (flow i)))).
Proof.
  destruct (nginx_served (fun _ => None) id (fun _ => "") (fun _ => "") demo_nginx demo_tree 1) as (i & Hi & H).
  - assert (E : nodes_tokens demo_tree = Nginx.tokenize_from false [] (chars demo_nginx)) by (vm_compute; reflexivity).
    rewrite E. apply (proj1 (laid_tokens (chars demo_nginx)) []); [reflexivity|]. vm_compute. reflexivity.
  - vm_compute. reflexivity.
  - vm_compute. reflexivity.
  - exists i. split; [exact Hi|]. destruct H as (_ & _ & _ & [(Hc & compiled & Hok & Ht & _)|H]); [left|right; exact H].
    split; [exact Hc|]. exists compiled. split; [exact Hok|exact Ht].
Defined.

(** The rows of [docs/30-migration-and-import.md] on regex locations and pools:
    no route, a pool of weight 1 under round robin, and nothing said of the
    weight. *)
Example regex_and_weights_lost :
  let source := join nl ["upstream b { server a:80 weight=3; least_conn; }";
    "server { server_name x.com; location ~ ^/u/ { proxy_pass http://b; } location / { return 204; } }"] in
  match nginx_import source with
  | Ok i => notes i = [mk_note "least_conn" Manual "upstream directive needs manual translation";
                       mk_note "upstream" Exact "mapped to a Flow upstream pool"; regex_location;
                       mk_note "return" Approximate "mapped to respond()"]
      /\ match demo_compile (flow i) with
         | Ok c => length (Compile.all_routes (Compile.config c)) = 1
             /\ (fun u => (ud_policy u, (fun t => (tg_url t, tg_weight t)) <$> ud_targets u)) <$> upstreams (Compile.config c)
                = [("round_robin", [("http://a:80", 1%Z)])]
         | _ => False
         end
  | _ => False
  end.
Proof. vm_compute. done. Qed.

(** The usual pair of servers for one name, a redirect on port 80 and the site
    on 443, as in the example of [docs/migrating/from-nginx.md]: the import is two
    sites that claim the same hosts, which does not compile, and no note asks for
    a change. *)
Lemma documented_example_refused :
  let source := join nl ["upstream app { server 127.0.0.1:3000; }";
    "server { listen 80; server_name example.com www.example.com; return 301 https://$host$request_uri; }";
    "server { listen 443 ssl http2; server_name example.com www.example.com;";
    "  location /assets/ { root /srv/app/public; expires 1y; }";
    "  location /cable { proxy_pass http://app; proxy_http_version 1.1; }";
    "  location / { proxy_pass http://app; limit_req zone=api burst=20; }"; "}"] in
  match nginx_import source with
  | Ok i => Forall (fun n => fidelity n <> Manual /\ fidelity n <> Dropped) (notes i)
      /\ match demo_compile (flow i) with Err ds => diag_code <$> ds = [CFG_HOST_COLLISION; CFG_HOST_COLLISION] | _ => False end
  | _ => False
  end.
Proof. vm_compute. split; [repeat (constructor; [split; discriminate|]); constructor|reflexivity]. Qed.
