(* ===== verification/Net.v ===== *)
(** * [pulsate-net] and the runtime seam [pulsate-rt]

    [Rt]: what the wrappers of [pulsate-rt] add to the runtime they wrap.

    [Net]: a listener.  [serve] is one task: it takes a permit of the semaphore,
    waits for a connection or a lifecycle signal, and once signalled to stop
    waits for every permit or the grace deadline.  Its state is the program
    point, the semaphore, the connections whose handlers run, and what it has
    seen of the lifecycle channel; a [NetEvent] is a poll of that task (with what
    the listening socket holds), the end of a handler, a signal, or the passing
    of time, so a run is a list of events in any interleaving. *)

From Stdlib Require Import ZArith String Lia.
From stdpp Require Import base option list gmap sets relations strings.
From S2P Require Import Prelude RustStr CoreTypes.
Local Open Scope Z_scope.
Local Open Scope list_scope.

Module Rt.
(** The backend's join error: what it displays and whether it is a
    cancellation. *)
Record JoinError := mk_join_error { inner_display : string; is_cancelled : bool }.
Definition join_display (e : JoinError) : string := "joined task failed: " +:+ inner_display e.

(** Polling a handle polls the task and wraps its error. *)
Definition join_poll {A E} (wrap : E -> JoinError) (polled : option (E + A)) : option (JoinError + A) :=
  match polled with
  | None => None
  | Some (inl e) => Some (inl (wrap e))
  | Some (inr a) => Some (inr a)
  end.

Definition timeout {E A} (elapsed : E + A) : option A :=
  match elapsed with inl _ => None | inr a => Some a end.

(** The worker count the backend is given, [None] for its own choice. *)
Definition worker_threads (n : option Z) : option Z := (fun n => Z.max n 1) <$> n.
End Rt.

Module Net.
Record ListenerConfig := mk_listener { max_connections : Z; drain_grace : Z (* ms *) }.
Definition listener_default : ListenerConfig := mk_listener 10000 30000.

(** ** Binding *)
Inductive SockCall := SocketNew (v4 : bool) | SetReuseAddress | SetReusePort | SetNonblocking | BindTo | Listen (backlog : Z) | FromStd.

Fixpoint calls (os : SockCall -> option string) (cs : list SockCall) : string + list SockCall :=
  match cs with
  | [] => inr []
  | c :: cs =>
    match os c with
    | Some e => inl e
    | None => match calls os cs with inl e => inl e | inr done => inr (c :: done) end
    end
  end.

Definition bind (os : SockCall -> option string) (is_ipv4 : bool) : string + list SockCall :=
  calls os [SocketNew is_ipv4; SetReuseAddress; SetReusePort; SetNonblocking; BindTo; Listen 1024; FromStd].

(** ** The accept loop *)
Inductive Phase :=
| Acquiring                       (* [acquire_owned().await] *)
| Selecting                       (* a permit is held, in [select!] *)
| DrainWait (since : Z)           (* [drain], its timeout started at [since] *)
| Finished (result : string + unit).

(** The receiving end of the lifecycle channel. *)
Record Watch := mk_watch { value : Lifecycle; unseen : bool; closed : bool }.

Record State := mk_state {
  phase : Phase;
  available : Z;                  (* free permits of the semaphore *)
  conns : gset nat;               (* connections whose handler runs, each with a permit *)
  accepted : nat;                 (* connections accepted so far *)
  watch : Watch;
  now : Z
}.

Definition set_phase (p : Phase) (s : State) : State := mk_state p (available s) (conns s) (accepted s) (watch s) (now s).
Definition set_available (a : Z) (s : State) : State := mk_state (phase s) a (conns s) (accepted s) (watch s) (now s).
Definition set_watch (w : Watch) (s : State) : State := mk_state (phase s) (available s) (conns s) (accepted s) w (now s).

(** The largest number of permits a semaphore can be created with. *)
Definition max_permits : Z := Z.shiftr u64_max 3.

(** [serve] up to its loop; [None] is the panic of [Semaphore::new]. *)
Definition serve_init (cfg : ListenerConfig) (w : Watch) (t : Z) : option State :=
  if max_connections cfg <=? max_permits then Some (mk_state Acquiring (max_connections cfg) ∅ O w t) else None.

(** [watch::Receiver::changed]: an unseen value first, then the error of a
    dropped sender; [None] is pending. *)
Definition changed (w : Watch) : option (bool * Watch) :=
  if unseen w then Some (true, mk_watch (value w) false (closed w))
  else if closed w then Some (false, w)
  else None.

Definition is_running (l : Lifecycle) : bool := match l with Running => true | _ => false end.

(** The permit of this iteration goes back to the semaphore. *)
Definition drop_permit (s : State) : State := set_available (available s + 1) s.

(** [select!], biased to the lifecycle. *)
Definition poll_select (accept : option (string + unit)) (s : State) : State :=
  match changed (watch s) with
  | Some (ok, w) =>
    let s := drop_permit (set_watch w s) in
    if negb ok || negb (is_running (value w)) then set_phase (DrainWait (now s)) s
    else set_phase Acquiring s
  | None =>
    match accept with
    | None => s
    | Some (inl e) => set_phase (Finished (inl e)) (drop_permit s)
    | Some (inr _) =>
      mk_state Acquiring (available s) ({[accepted s]} ∪ conns s) (S (accepted s)) (watch s) (now s)
    end
  end.

(** The permits [drain] asks for. *)
Definition want (cfg : ListenerConfig) : Z := default u32_max (try_from_u u32_max (max_connections cfg)).

(** [drain]: the acquisition is polled before the timer. *)
Definition poll_drain (cfg : ListenerConfig) (since : Z) (s : State) : State :=
  if (want cfg <=? available s) || (since + drain_grace cfg <=? now s)
  then set_phase (Finished (inr tt)) s else s.

Definition poll_serve (cfg : ListenerConfig) (accept : option (string + unit)) (s : State) : State :=
  match phase s with
  | Acquiring => if 0 <? available s then set_phase Selecting (set_available (available s - 1) s) else s
  | Selecting => poll_select accept s
  | DrainWait since => poll_drain cfg since s
  | Finished _ => s
  end.

(** ** Runs *)
Inductive NetEvent :=
| Poll (accept : option (string + unit))   (* the server task runs; what [accept] yields *)
| End (c : nat)                            (* a handler returns or panics *)
| Signal (l : Lifecycle)
| Close                                    (* the sender is dropped *)
| Tick (ms : N).

(** The end of a handler drops the permit it was given. *)
Definition conn_end (c : nat) (s : State) : State :=
  if decide (c ∈ conns s)
  then mk_state (phase s) (available s + 1) (conns s ∖ {[c]}) (accepted s) (watch s) (now s)
  else s.

Definition net_step (cfg : ListenerConfig) (s : State) (e : NetEvent) : State :=
  match e with
  | Poll accept => poll_serve cfg accept s
  | End c => conn_end c s
  | Signal l => if closed (watch s) then s else set_watch (mk_watch l true false) s
  | Close => set_watch (mk_watch (value (watch s)) (unseen (watch s)) true) s
  | Tick ms => mk_state (phase s) (available s) (conns s) (accepted s) (watch s) (now s + Z.of_N ms)
  end.

Definition run_events (cfg : ListenerConfig) : list NetEvent -> State -> State := flip (foldl (net_step cfg)).

(** ** The specification

    A gate that admits at most [max] connections while it is open, and none
    afterwards. *)
Record Gate := mk_gate { is_open : bool; inside : gset nat }.

Inductive gate_step (max : Z) : Gate -> Gate -> Prop :=
| gate_admit c g :
    is_open g = true -> c ∉ inside g -> Z.of_nat (size (inside g)) < max ->
    gate_step max g (mk_gate true ({[c]} ∪ inside g))
| gate_leave c g : c ∈ inside g -> gate_step max g (mk_gate (is_open g) (inside g ∖ {[c]}))
| gate_close g : is_open g = true -> gate_step max g (mk_gate false (inside g)).

Definition accepting (p : Phase) : bool := match p with Acquiring | Selecting => true | _ => false end.
Definition gate (s : State) : Gate := mk_gate (accepting (phase s)) (conns s).

Definition held (p : Phase) : Z := match p with Selecting => 1 | _ => 0 end.
End Net.
