(* ===== verification/NetProps.v ===== *)
(** * [pulsate-net]: the cap, the drain and their end

    The permits are conserved by every event, so the loop implements the gate
    of [Net]; once signalled with a slot free it stops accepting and returns
    within the grace period; with every slot taken it does not notice the
    signal. *)

From Stdlib Require Import ZArith String Lia.
From stdpp Require Import base option list gmap sets relations strings.
From S2P Require Import Prelude RustStr CoreTypes Net.
Import Net.
Local Open Scope Z_scope.
Local Open Scope list_scope.

Section Listener.
Context (cfg : ListenerConfig).
Notation max := (max_connections cfg).

(** ** Permits are conserved *)
Definition permits_ok (s : State) : Prop :=
  0 <= available s
  /\ available s + held (phase s) + Z.of_nat (size (conns s)) = max
  /\ (forall c, c ∈ conns s -> (c < accepted s)%nat).

Lemma held_nonneg p : 0 <= held p.
Proof. by destruct p. Qed.

Lemma fresh_conn s : permits_ok s -> accepted s ∉ conns s.
Proof. intros (_ & _ & H) Hin. apply H in Hin. lia. Qed.

Lemma size_add (c : nat) (X : gset nat) : c ∉ X -> size ({[c]} ∪ X) = S (size X).
Proof. intros H. rewrite size_union by set_solver. by rewrite size_singleton. Qed.

Lemma size_del (c : nat) (X : gset nat) : c ∈ X -> Z.of_nat (size (X ∖ {[c]})) + 1 = Z.of_nat (size X).
Proof.
  intros H. assert (E : X = {[c]} ∪ X ∖ {[c]}).
  { apply set_eq. intros x. rewrite elem_of_union, elem_of_difference, elem_of_singleton. destruct (decide (x = c)); set_solver. }
  rewrite E at 2. rewrite size_add by set_solver. lia.
Qed.

Ltac open_state := intros; unfold set_phase, set_available, set_watch, drop_permit in *; cbn in *.

Lemma permits_select a s : phase s = Selecting -> permits_ok s -> permits_ok (poll_select a s).
Proof.
  intros Hp Hok. pose proof (fresh_conn s Hok) as Hf. destruct Hok as (Ha & Hs & Hc). unfold poll_select.
  rewrite Hp in Hs. cbn [held] in Hs.
  destruct (changed (watch s)) as [[ok w]|]; [|destruct a as [[e|[]]|]].
  - destruct (negb ok || negb (is_running (value w))); open_state; split_and!; cbn; auto; lia.
  - open_state; split_and!; cbn; auto; lia.
  - open_state. split_and!; cbn; [done| |].
    + rewrite size_add by done. lia.
    + intros c [->%elem_of_singleton|Hin%Hc]%elem_of_union; lia.
  - split_and!; auto. by rewrite Hp.
Qed.

Lemma permits_step s e : permits_ok s -> permits_ok (net_step cfg s e).
Proof.
  intros Hok. destruct e as [a|c|l| |ms]; cbn [net_step].
  - unfold poll_serve. destruct (phase s) eqn:Hp; [| by apply permits_select | |done].
    + destruct (Z.ltb_spec 0 (available s)); [|done]. destruct Hok as (Ha & Hs & Hc). rewrite Hp in Hs.
      open_state; split_and!; cbn in *; auto; lia.
    + unfold poll_drain. destruct (_ || _); [|done]. destruct Hok as (Ha & Hs & Hc). rewrite Hp in Hs.
      open_state; split_and!; cbn in *; auto; lia.
  - unfold conn_end. destruct (decide _) as [Hin|]; [|done]. destruct Hok as (Ha & Hs & Hc).
    split_and!; cbn; [lia| |intros d [Hd _]%elem_of_difference; auto].
    pose proof (size_del c (conns s) Hin). lia.
  - destruct (closed (watch s)); done.
  - done.
  - done.
Qed.

Lemma run_cons e evs s : run_events cfg (e :: evs) s = run_events cfg evs (net_step cfg s e).
Proof. done. Qed.

Lemma run_app evs1 evs2 s : run_events cfg (evs1 ++ evs2) s = run_events cfg evs2 (run_events cfg evs1 s).
Proof. unfold run_events. cbn. apply foldl_app. Qed.

Lemma run_ind (P : State -> Prop) : (forall s e, P s -> P (net_step cfg s e)) ->
  forall evs s, P s -> P (run_events cfg evs s).
Proof. intros Hstep evs. induction evs as [|e evs IH]; intros s Hs; [done|]. rewrite run_cons. auto. Qed.

Lemma permits_start w t s : 0 <= max -> serve_init cfg w t = Some s -> permits_ok s.
Proof.
  intros Hm. unfold serve_init. destruct (_ <=? _); [|done]. intros [= <-].
  split_and!; cbn; [done| |set_solver]. rewrite size_empty. lia.
Qed.

Lemma permits_run evs s : permits_ok s -> permits_ok (run_events cfg evs s).
Proof. apply run_ind, permits_step. Qed.

(** ** The gate *)
Lemma gate_of_step s e : permits_ok s -> gate_step max (gate s) (gate (net_step cfg s e)) \/ gate (net_step cfg s e) = gate s.
Proof.
  intros Hok. destruct e as [a|c|l| |ms]; cbn [net_step]; unfold gate.
  - unfold poll_serve. destruct (phase s) eqn:Hp.
    + destruct (0 <? available s); open_state; [right|rewrite Hp; right]; done.
    + unfold poll_select. destruct (changed (watch s)) as [[ok w]|]; [|destruct a as [[e|[]]|]].
      * destruct (negb ok || negb (is_running (value w))); open_state; [left|right; done].
        apply (gate_close _ (mk_gate true (conns s))). done.
      * open_state. left. apply (gate_close _ (mk_gate true (conns s))). done.
      * open_state. left. apply (gate_admit _ (accepted s) (mk_gate true (conns s))); [done|by apply fresh_conn|].
        destruct Hok as (Ha & Hs & _). rewrite Hp in Hs. cbn in *. lia.
      * rewrite Hp. right. done.
    + unfold poll_drain. destruct (_ || _); open_state; [|rewrite Hp]; right; done.
    + rewrite Hp. right. done.
  - unfold conn_end. destruct (decide _) as [Hin|]; [|right; done]. left. cbn.
    apply (gate_leave _ c (mk_gate (accepting (phase s)) (conns s))). done.
  - destruct (closed (watch s)); right; done.
  - right. done.
  - right. done.
Qed.

(** C20. A listener implements the gate: whatever the order in which its task is
    polled, connections arrive, handlers end, signals are sent and time passes,
    its connections evolve as those of a gate with room for [max_connections]
    that closes once, and never are more than that many open. *)
Theorem serve_refines_gate w t s0 evs :
  0 <= max -> serve_init cfg w t = Some s0 ->
  rtc (gate_step max) (gate s0) (gate (run_events cfg evs s0))
  /\ Z.of_nat (size (conns (run_events cfg evs s0))) <= max
  /\ available (run_events cfg evs s0) + held (phase (run_events cfg evs s0)) + Z.of_nat (size (conns (run_events cfg evs s0))) = max.
Proof.
  intros Hm Hstart. pose proof (permits_start _ _ _ Hm Hstart) as Hok. split.
  - clear Hstart. revert s0 Hok. induction evs as [|e evs IH]; intros s Hok; [done|]. rewrite run_cons.
    pose proof (permits_step s e Hok) as Hok'. destruct (gate_of_step s e Hok) as [Hg|Hg].
    + eapply rtc_l; [exact Hg|]. by apply IH.
    + rewrite <-Hg. by apply IH.
  - destruct (permits_run evs s0 Hok) as (Ha & Hs & _). split; [|done].
    pose proof (held_nonneg (phase (run_events cfg evs s0))). lia.
Qed.

(** ** Draining *)
Definition elapsed (evs : list NetEvent) : Z :=
  foldr (fun e t => match e with Tick ms => Z.of_N ms + t | _ => t end) 0 evs.

(** No signal back to [Running]. *)
Definition stops (evs : list NetEvent) : Prop := Forall (fun e => e <> Signal Running) evs.

(** How far [serve] is on its way out, when it has been told to stop. *)
Definition told (s : State) : Prop := unseen (watch s) = true /\ value (watch s) <> Running.

Inductive Leaving : nat -> State -> Prop :=
| leaving_slot s : phase s = Acquiring -> 0 < available s -> told s -> Leaving 3 s
| leaving_select s : phase s = Selecting -> told s -> Leaving 2 s
| leaving_drain s since : phase s = DrainWait since -> since <= now s -> Leaving 1 s
| leaving_done s : phase s = Finished (inr tt) -> Leaving 0 s.

Lemma told_step s e : e <> Signal Running -> accepting (phase s) = true -> accepting (phase (net_step cfg s e)) = true ->
  told s -> told (net_step cfg s e).
Proof.
  intros He Hp Hp' [Hu Hv]. unfold told. destruct e as [a|c|l| |ms]; cbn [net_step] in *.
  - unfold poll_serve in *. destruct (phase s) eqn:E; [| |done|done].
    + destruct (0 <? available s); by open_state.
    + revert Hp'. unfold poll_select, changed. rewrite Hu. cbn.
      destruct (is_running (value (watch s))) eqn:Er; [by destruct (value (watch s))|]. by open_state.
  - unfold conn_end. by destruct (decide _).
  - destruct (closed (watch s)); [done|]. open_state. split; [done|]. intros ->. done.
  - done.
  - done.
Qed.

Lemma leaving_bound n s : Leaving n s -> (n <= 3)%nat.
Proof. destruct 1; lia. Qed.

(** Every poll brings it closer and no event takes it back. *)
Lemma leaving_poll a n s : Leaving n s -> exists m, Leaving m (poll_serve cfg a s) /\ (m <= n)%nat /\ ((2 <= n)%nat -> (m < n)%nat).
Proof.
  intros H. destruct H as [s Hp Ha Ht|s Hp Ht|s since Hp Hn|s Hp]; unfold poll_serve; rewrite Hp.
  - destruct (Z.ltb_spec 0 (available s)); [|lia]. exists 2%nat. split_and!; [|lia|lia]. by apply leaving_select.
  - exists 1%nat. split_and!; [|lia|lia]. unfold poll_select, changed. destruct Ht as [-> Hv].
    destruct (is_running (value (watch s))) eqn:Er; [by destruct (value (watch s))|]. cbn [value]. rewrite Er.
    cbn. apply (leaving_drain _ (now s)); cbn; [done|lia].
  - unfold poll_drain. destruct (_ || _).
    + exists 0%nat. split_and!; [|lia|lia]. by apply leaving_done.
    + exists 1%nat. split_and!; [|lia|lia]. by eapply leaving_drain.
  - exists 0%nat. split_and!; [|lia|lia]. by apply leaving_done.
Qed.

Lemma leaving_step e n s : e <> Signal Running -> Leaving n s -> exists m, Leaving m (net_step cfg s e) /\ (m <= n)%nat.
Proof.
  intros He H. destruct e as [a|c|l| |ms].
  { destruct (leaving_poll a n s H) as (m & ? & ? & _). by exists m. }
  all: exists n; split; [|lia].
  all: destruct H as [s Hp Ha Ht|s Hp Ht|s since Hp Hn|s Hp]; cbn [net_step];
    unfold conn_end; try destruct (decide _); try destruct (closed (watch s)) eqn:?;
    first [ apply leaving_slot; cbn; [done|lia|by (destruct Ht; split; cbn; congruence)]
          | apply leaving_select; cbn; [done|by (destruct Ht; split; cbn; congruence)]
          | eapply leaving_drain; cbn; [done|lia]
          | by apply leaving_done ].
Qed.

Lemma leaving_run evs : forall n s, stops evs -> Leaving n s -> exists m, Leaving m (run_events cfg evs s) /\ (m <= n)%nat.
Proof.
  induction evs as [|e evs IH]; intros n s Hs H; [by exists n|]. rewrite run_cons.
  apply Forall_cons in Hs as [He Hs]. destruct (leaving_step e n s He H) as (m & Hm & ?).
  destruct (IH m _ Hs Hm) as (k & ? & ?). exists k. split; [done|lia].
Qed.

Lemma finished_run r evs s : phase s = Finished r -> phase (run_events cfg evs s) = Finished r.
Proof.
  apply (run_ind (fun s => phase s = Finished r)). clear. intros s e Hp.
  destruct e as [a|c|l| |ms]; cbn [net_step]; unfold poll_serve, conn_end; rewrite ?Hp;
    try destruct (decide _); try destruct (closed (watch s)); done.
Qed.

(** A drain that is over before its deadline, or waits with its timer. *)
Lemma drain_timer evs : forall s since, phase s = DrainWait since ->
  phase (run_events cfg evs s) = Finished (inr tt)
  \/ (phase (run_events cfg evs s) = DrainWait since /\ now (run_events cfg evs s) = now s + elapsed evs).
Proof.
  induction evs as [|e evs IH]; intros s since Hp; [right; cbn; split; [done|lia]|]. rewrite run_cons.
  destruct e as [a|c|l| |ms]; cbn [net_step elapsed foldr].
  - unfold poll_serve. rewrite Hp. unfold poll_drain. destruct (_ || _); [left; by apply finished_run|by apply IH].
  - unfold conn_end. destruct (decide _); [|by apply IH]. destruct (IH (mk_state (phase s) (available s + 1) (conns s ∖ {[c]}) (accepted s) (watch s) (now s)) since Hp) as [?|[? ?]]; auto.
  - destruct (closed (watch s)); [by apply IH|]. destruct (IH (set_watch (mk_watch l true false) s) since Hp) as [?|[? ?]]; auto.
  - destruct (IH (set_watch (mk_watch (value (watch s)) (unseen (watch s)) true) s) since Hp) as [?|[? ?]]; auto.
  - destruct (IH (mk_state (phase s) (available s) (conns s) (accepted s) (watch s) (now s + Z.of_N ms)) since Hp) as [?|[? ?]]; auto.
    right. split; [done|]. cbn in *. unfold elapsed in *. lia.
Qed.

Lemma drain_poll_ends a evs s since : phase s = DrainWait since -> since <= now s -> drain_grace cfg <= elapsed evs ->
  phase (run_events cfg (evs ++ [Poll a]) s) = Finished (inr tt).
Proof.
  intros Hp Hn He. rewrite run_app. cbn. destruct (drain_timer evs s since Hp) as [Hd|[Hd Hnow]]; unfold poll_serve; rewrite Hd; [done|].
  unfold poll_drain. destruct (Z.leb_spec (since + drain_grace cfg) (now (run_events cfg evs s))); [|lia]. by rewrite orb_true_r.
Qed.

Lemma leaving_finish a evs s : Leaving 1 s \/ Leaving 0 s -> drain_grace cfg <= elapsed evs ->
  phase (run_events cfg (evs ++ [Poll a]) s) = Finished (inr tt).
Proof.
  intros H He. destruct H as [H|H].
  - inversion H; subst. by eapply drain_poll_ends.
  - inversion H; subst.
    by apply finished_run.
Qed.

(** Told to stop while a slot is free, a listener returns: in whatever order
    its task is polled among the other events, three polls are enough, the last
    one after the grace period. *)
Theorem shutdown_returns s e1 e2 e3 a1 a2 a3 :
  accepting (phase s) = true -> told s -> (phase s = Acquiring -> 0 < available s) ->
  stops (e1 ++ e2 ++ e3) -> drain_grace cfg <= elapsed e3 ->
  phase (run_events cfg (e1 ++ [Poll a1] ++ e2 ++ [Poll a2] ++ e3 ++ [Poll a3]) s) = Finished (inr tt).
Proof.
  intros Hp Ht Hslot [Hs1 [Hs2 Hs3]%Forall_app]%Forall_app He.
  assert (Hl : exists n, Leaving n s).
  { destruct (phase s) eqn:E; [exists 3%nat; by apply leaving_slot; auto|exists 2%nat; by apply leaving_select|done|done]. }
  destruct Hl as [n Hl]. pose proof (leaving_bound _ _ Hl) as Hn.
  do 4 rewrite run_app. destruct (leaving_run e1 n s Hs1 Hl) as (n1 & H1 & ?N1).
  destruct (leaving_poll a1 n1 _ H1) as (n2 & H2 & ?N2 & ?N2).
  destruct (leaving_run e2 n2 _ Hs2 H2) as (n3 & H3 & ?N3).
  destruct (leaving_poll a2 n3 _ H3) as (n4 & H4 & ?N4 & ?N4).
  apply leaving_finish; [|done]. assert (n4 = 1%nat \/ n4 = 0%nat) as [-> | ->] by lia; [left|right]; exact H4.
Qed.

(** While it drains a listener takes no connection, and it returns at a poll
    exactly when the deadline has passed or no connection is left, as long as the
    cap fits the width of the permits it asks for. *)
Theorem drain_waits s since :
  permits_ok s -> phase s = DrainWait since -> max <= u32_max ->
  (forall a, phase (poll_serve cfg a s) = Finished (inr tt) <-> conns s = ∅ \/ since + drain_grace cfg <= now s)
  /\ (forall evs, conns (run_events cfg evs s) ⊆ conns s).
Proof.
  intros (Ha & Hs & _) Hp Hm. split.
  - intros a. unfold poll_serve. rewrite Hp. unfold poll_drain.
    assert (Hw : want cfg = max).
    { unfold want, try_from_u. rewrite Hp in Hs. cbn in Hs.
      destruct (Z.leb_spec 0 max); [|lia]. destruct (Z.leb_spec max u32_max); [done|lia]. }
    rewrite Hw, Hp in *. cbn [held] in Hs.
    assert (E : max <= available s <-> conns s = ∅).
    { rewrite <-leibniz_equiv_iff, <-size_empty_iff. lia. }
    destruct (Z.leb_spec max (available s)), (Z.leb_spec (since + drain_grace cfg) (now s)); cbn;
      rewrite ?Hp; intuition (try discriminate; try lia).
  - assert (H : forall evs s', (accepting (phase s') = false /\ conns s' ⊆ conns s) ->
      accepting (phase (run_events cfg evs s')) = false /\ conns (run_events cfg evs s') ⊆ conns s).
    { intros evs. apply (run_ind (fun s' => accepting (phase s') = false /\ conns s' ⊆ conns s)).
      intros s' [a|c|l| |ms] [Hp' Hc]; cbn [net_step].
      - unfold poll_serve. destruct (phase s') eqn:E; [done|done| |by rewrite E].
        unfold poll_drain. destruct (_ || _); [by split|by rewrite E].
      - unfold conn_end. destruct (decide _); [|done]. split; [done|]. cbn. set_solver.
      - destruct (closed (watch s')); done.
      - done.
      - done. }
    intros evs. apply H. by rewrite Hp.
Qed.

(** With every slot taken the loop waits for a permit, not for the signal:
    until a connection ends by itself it neither notices the signal nor starts
    the grace period. *)
Theorem shutdown_unseen_at_cap s evs :
  phase s = Acquiring -> available s = 0 -> Forall (fun e => forall c, e <> End c) evs ->
  phase (run_events cfg evs s) = Acquiring /\ conns (run_events cfg evs s) = conns s.
Proof.
  intros Hp Ha Hevs.
  assert (H : forall evs s', Forall (fun e => forall c, e <> End c) evs ->
    phase s' = Acquiring /\ available s' = 0 /\ conns s' = conns s ->
    phase (run_events cfg evs s') = Acquiring /\ available (run_events cfg evs s') = 0 /\ conns (run_events cfg evs s') = conns s).
  { clear evs Hevs. induction evs as [|e evs IH]; intros s' Hevs Hs'; [done|]. rewrite run_cons.
    apply Forall_cons in Hevs as [He Hevs]. apply IH; [done|]. destruct Hs' as (Hp' & Ha' & Hc').
    destruct e as [a|c|l| |ms]; cbn [net_step].
    - unfold poll_serve. by rewrite Hp', Ha'.
    - by destruct (He c).
    - destruct (closed (watch s')); done.
    - done.
    - done. }
  destruct (H evs s Hevs) as (? & ? & ?); done.
Qed.

(** A cap wider than 32 bits is drained only in part: [drain] returns before
    its deadline with connections open. *)
Lemma drain_stops_early a s since : u32_max < max -> phase s = DrainWait since ->
  u32_max <= available s -> phase (poll_serve cfg a s) = Finished (inr tt) /\ conns (poll_serve cfg a s) = conns s.
Proof.
  intros Hm Hp Ha. unfold poll_serve. rewrite Hp. unfold poll_drain, want, try_from_u.
  destruct (Z.leb_spec max u32_max); [lia|]. rewrite andb_false_r. cbn [default].
  destruct (Z.leb_spec u32_max (available s)); [done|lia].
Qed.
End Listener.

(** ** On a small listener *)
Definition two : ListenerConfig := mk_listener 2 1000.
Definition fresh_watch : Watch := mk_watch Running false false.
Definition two_start : State := mk_state Acquiring 2 ∅ O fresh_watch 0.
Definition conn : option (string + unit) := Some (inr tt).

(** Two connections are taken, the third waits. *)
Example two_taken : size (conns (run_events two (repeat (Poll conn) 9) two_start)) = 2%nat.
Proof. vm_compute. reflexivity. Qed.

Example serve_refines_gate_witness :
  Z.of_nat (size (conns (run_events two (repeat (Poll conn) 9 ++ [Signal Draining; End 0%nat; Poll conn; Poll conn]) two_start))) <= 2.
Proof. apply (serve_refines_gate two fresh_watch 0 two_start); [vm_compute; congruence|reflexivity]. Defined.

Example shutdown_returns_witness :
  phase (run_events two ([Tick 3] ++ [Poll conn] ++ [] ++ [Poll None] ++ [Tick 600; Tick 400] ++ [Poll None])
    (run_events two [Poll conn; Poll conn; Signal Draining] two_start)) = Finished (inr tt).
Proof.
  apply (shutdown_returns two _ [Tick 3] [] [Tick 600; Tick 400] conn None None);
    [reflexivity|split; [reflexivity|discriminate]|reflexivity|repeat constructor; discriminate|vm_compute; congruence].
Defined.

Definition draining : State := mk_state (DrainWait 5) 1 {[0%nat]} 1 (mk_watch Draining false false) 7.

Example drain_waits_witness : conns (run_events two [End 0%nat] draining) ⊆ {[0%nat]}.
Proof.
  destruct (drain_waits two draining 5) as [_ H]; [|reflexivity|vm_compute; congruence|exact (H [End 0%nat])].
  split_and!; [vm_compute; congruence|reflexivity|]. intros c Hc. cbn in Hc. apply elem_of_singleton in Hc as ->. cbn. lia.
Defined.
