(* ===== verification/Secrets.v ===== *)
(** * [pulsate-secrets]: resolving secret references

    The two synchronous backends, as instances of the class that states the
    trait, and the asynchronous trait of [pulsate-core] derived from it.  The
    environment and the files are what the operating system answers. *)

From Stdlib Require Import ZArith Ascii String Lia.
From stdpp Require Import base option list sets strings.
From S2P Require Import Prelude RustStr CoreTypes Handlers.
Import Paths.
Local Open Scope string_scope.
Local Open Scope list_scope.
Local Open Scope Z_scope.

Module Secrets.

(** [std::env::var] ([None] for a missing or a non-Unicode value) and
    [std::fs::read_to_string], whose error displays as text. *)
Record System := mk_system { env_var : string -> option string; read_to_string : string -> string + string }.

Definition failed {A} (message : string) : PulsateError + A := inl (mk_error SYS_GENERIC message).

(** ** The backends *)
Class SecretsBackend (B : Type) := {
  backend_name : B -> string;
  resolve : System -> B -> string -> PulsateError + string
}.

Inductive EnvBackend := env_backend.

Definition env_resolve (sys : System) (_ : EnvBackend) (reference : string) : PulsateError + string :=
  match env_var sys reference with
  | Some v => inr v
  | None => failed ("secret `" +:+ reference +:+ "` not found in environment")
  end.

#[export] Instance env_secrets : SecretsBackend EnvBackend := {| backend_name _ := "env"; resolve := env_resolve |}.

Record FileBackend := file_backend { dir : string }.

Definition is_newline (c : ascii) : bool := Ascii.eqb c "010" || Ascii.eqb c "013".

Definition file_resolve (sys : System) (b : FileBackend) (reference : string) : PulsateError + string :=
  if contains "/" reference || contains ".." reference then
    failed ("invalid secret name `" +:+ reference +:+ "`")
  else
    let path := push (dir b) reference in
    match read_to_string sys path with
    | inl e => failed ("secret `" +:+ reference +:+ "` unreadable: " +:+ e)
    | inr raw => inr (trim_end_matches is_newline raw)
    end.

#[export] Instance file_secrets : SecretsBackend FileBackend := {| backend_name _ := "file"; resolve := file_resolve |}.

(** The asynchronous trait: its future is ready at once with the answer. *)
Record CoreBackend := mk_core { core_backend : string; core_resolve : System -> string -> PulsateError + string }.

Definition impl_core_backend {B} `{SecretsBackend B} (b : B) : CoreBackend :=
  mk_core (backend_name b) (fun sys => resolve sys b).

(** ** Where a name leads *)
Lemma split_char_cons c s : exists w ws, split_char c s = w :: ws.
Proof.
  induction s as [|a s (w & ws & IH)]; [by exists "", []|]. cbn [split_char]. rewrite IH.
  destruct (Ascii.eqb a c); by repeat eexists.
Qed.

(** Splitting a text that ends in a separator, then more. *)
Lemma split_char_app sep a b :
  split_char sep (a +:+ String sep b) = split_char sep a ++ split_char sep b.
Proof.
  induction a as [|c a IH].
  - rewrite append_nil_l. cbn [split_char]. destruct (split_char_cons sep b) as (w & ws & ->). by rewrite Ascii.eqb_refl.
  - rewrite append_cons. cbn [split_char]. rewrite IH. destruct (split_char_cons sep a) as (w & ws & ->). cbn [app].
    destruct (Ascii.eqb c sep); reflexivity.
Qed.

Lemma split_char_single sep s : ~ (sep ∈ bytes_of s) -> split_char sep s = [s].
Proof.
  induction s as [|c s IH]; [done|]. intros Hs. cbn [split_char]. rewrite IH by (simpl in Hs; set_solver).
  destruct (Ascii.eqb_spec c sep) as [->|]; [|done]. simpl in Hs. set_solver.
Qed.

Lemma not_contains_char (c : ascii) s : contains (String c "") s = false -> ~ (c ∈ bytes_of s).
Proof.
  intros H Hin. enough (contains (String c "") s = true) by congruence. apply contains_spec.
  apply list_elem_of_split in Hin as (l1 & l2 & E). exists (str_of l1), (str_of l2).
  rewrite <-(str_of_bytes s), E, str_of_app. reflexivity.
Qed.

Definition named (c : string) : list Component := match piece c with Some x => [x] | None => [] end.

(** Pushing a text without separators appends at most one component. *)
Lemma components_push d c : d <> "" -> ~ ("/"%char ∈ bytes_of c) -> components (push d c) = components d ++ named c.
Proof.
  intros Hd Hc. unfold push.
  assert (Hs : starts_with "/" c = false).
  { destruct c as [|x c]; [done|]. destruct (starts_with "/" (String x c)) eqn:E; [|done].
    apply starts_with_spec in E as [r E]. rewrite E in Hc. simpl in Hc. set_solver. }
  rewrite Hs. destruct (String.eqb_spec d ""); [done|]. cbn [orb].
  assert (Hjoin : forall a, split_char "/" (a +:+ String "/" c) = split_char "/" a ++ [c]).
  { intros a. by rewrite split_char_app, (split_char_single _ c Hc). }
  assert (Hn : omap piece [c] = named c) by (unfold named; cbn; by destruct (piece c)).
  assert (Hhead : forall a t, a <> "" -> starts_with "/" (a +:+ t) = starts_with "/" a).
  { intros [|x a] t Ha; [done|]. rewrite append_cons. unfold starts_with. cbn [strip_prefix]. by destruct (Ascii.eqb "/" x), a, t. }
  destruct (ends_with "/" d) eqn:Ee.
  - apply ends_with_spec in Ee as [a ->]. rewrite <-append_assoc. change ("/" +:+ c) with (String "/" c).
    destruct (decide (a = "")) as [->|Ha].
    { rewrite append_nil_l. unfold components. change (String "/" c) with ("" +:+ String "/" c). rewrite Hjoin. by rewrite omap_app, Hn. }
    unfold components. rewrite Hjoin, (split_char_app "/" a ""), !Hhead by done. cbn [split_char].
    destruct (split_char_cons "/" a) as (w & ws & ->). rewrite !omap_app. change (omap piece [""]) with (@nil Component).
    by rewrite Hn, !app_nil_r, <-app_assoc.
  - change ("/" +:+ c) with (String "/" c). unfold components. rewrite Hjoin, Hhead by done.
    destruct (split_char_cons "/" d) as (w & ws & ->). by rewrite omap_app, Hn, <-app_assoc.
Qed.

Lemma named_safe c : contains ".." c = false -> named c = [] \/ named c = [Normal c].
Proof.
  intros H. unfold named, piece. destruct (String.eqb_spec c ""); [by left|]. destruct (String.eqb_spec c "."); [by left|].
  destruct (String.eqb_spec c ".."); [subst; done|by right].
Qed.

(** Trimming removes the newlines at the end and nothing else. *)
Lemma trim_end_spec p s : exists tail, s = trim_end_matches p s +:+ tail
  /\ Forall (fun c => p c = true) (bytes_of tail) /\ (forall a c, trim_end_matches p s = a +:+ String c "" -> p c = false).
Proof.
  unfold trim_end_matches, drop_while_end.
  assert (H : forall l, exists front, l = front ++ drop_while p l /\ Forall (fun c => p c = true) front
    /\ (forall c r, drop_while p l = c :: r -> p c = false)).
  { induction l as [|x l (f & El & Hf & Hh)]; [by exists []|]. cbn [drop_while]. destruct (p x) eqn:Ex.
    - exists (x :: f). split_and!; [by rewrite El at 1|by constructor|done].
    - exists []. split_and!; [done|constructor|]. by intros c r [= <- <-]. }
  destruct (H (reverse (bytes_of s))) as (f & El & Hf & Hh). exists (str_of (reverse f)). split_and!.
  - rewrite <-str_of_app, <-reverse_app, <-El, reverse_involutive. by rewrite str_of_bytes.
  - rewrite bytes_of_str. by apply Forall_reverse.
  - intros a c E. apply (f_equal bytes_of) in E. rewrite bytes_of_str, bytes_of_app in E.
    apply (f_equal reverse) in E. rewrite reverse_involutive, reverse_app in E. cbn in E. by apply Hh in E.
Qed.

(** The systems agree on the files directly in [d]: those whose path has the
    components of [d] followed by at most one ordinary name. *)
Definition directly_in (d p : string) : Prop :=
  components p = components d \/ exists n, components p = components d ++ [Normal n].

(** C39. A file secret is read directly in the directory of its backend: what a
    reference resolves to depends on no other file, whatever the reference; one
    with a separator or two dots in a row is refused without reading any.  The
    answer is the file without the newlines at its end, and the asynchronous
    trait gives the same one. *)
Theorem file_secrets_confined (b : FileBackend) (sys sys' : System) (reference : string) :
  dir b <> "" ->
  (forall p, directly_in (dir b) p -> read_to_string sys p = read_to_string sys' p) ->
  resolve sys b reference = resolve sys' b reference
  /\ core_resolve (impl_core_backend b) sys reference = resolve sys b reference
  /\ (contains "/" reference || contains ".." reference = true ->
      forall any, resolve any b reference = failed ("invalid secret name `" +:+ reference +:+ "`"))
  /\ (forall v, resolve sys b reference = inr v -> exists p tail,
        directly_in (dir b) p /\ read_to_string sys p = inr (v +:+ tail)
        /\ Forall (fun c => is_newline c = true) (bytes_of tail)
        /\ (forall a c, v = a +:+ String c "" -> is_newline c = false)).
Proof.
  intros Hd Hagree. cbn [resolve file_secrets]. unfold file_resolve.
  assert (Hin : contains "/" reference || contains ".." reference = false -> directly_in (dir b) (push (dir b) reference)).
  { intros [Hsep Hdots]%orb_false_iff. unfold directly_in. rewrite components_push by (done || by apply not_contains_char).
    destruct (named_safe reference Hdots) as [-> | ->]; [left; by rewrite app_nil_r|right; by eexists]. }
  split_and!; [|done|by intros ->|].
  - destruct (_ || _) eqn:E; [done|]. by rewrite Hagree by auto.
  - destruct (_ || _) eqn:E; [done|]. destruct (read_to_string sys _) as [e|raw] eqn:Er; [done|]. intros v [= <-].
    destruct (trim_end_spec is_newline raw) as (tail & Eraw & Ht & Hl). exists (push (dir b) reference), tail.
    split_and!; [auto|by rewrite Er, <-Eraw|done|done].
Qed.

(** An environment secret is the variable of that name, without any check. *)
Lemma env_secret sys reference v : resolve sys env_backend reference = inr v <-> env_var sys reference = Some v.
Proof. cbn. unfold env_resolve, failed. destruct (env_var sys reference); split; congruence. Qed.

(** ** On a concrete system *)
Definition newline_text : string := String "010" "".
Definition demo_system : System := mk_system (fun _ => None)
  (fun p => if (p =? "/run/secrets/api_key")%string then inr ("topsecret" +:+ newline_text) else inl "not found").

Example demo_api_key : resolve demo_system (file_backend "/run/secrets") "api_key" = inr "topsecret".
Proof. reflexivity. Qed.

Example file_secrets_confined_witness :
  resolve demo_system (file_backend "/run/secrets/") "../etc/passwd" = failed "invalid secret name `../etc/passwd`"
  /\ exists p tail, directly_in "/run/secrets" p /\ read_to_string demo_system p = inr ("topsecret" +:+ tail).
Proof.
  split.
  - destruct (file_secrets_confined (file_backend "/run/secrets/") demo_system demo_system "../etc/passwd") as (_ & _ & H & _);
      [discriminate|done|]. apply H. reflexivity.
  - destruct (file_secrets_confined (file_backend "/run/secrets") demo_system demo_system "api_key") as (_ & _ & _ & H);
      [discriminate|done|]. destruct (H "topsecret" eq_refl) as (p & tail & ? & ? & _). by exists p, tail.
Defined.
End Secrets.
