(* ===== verification/Plugin.v ===== *)
(** * [pulsate-plugin]: the WebAssembly host

    The host's part: what it loads, links, checks and reports.  Wasmtime is a
    parameter, an [Engine]: compiling a module, instantiating it against a
    linker and calling a function of the instance.  An engine action reports
    its result, the calls the guest made to linked functions, in order, and the
    fuel that is left. *)

From Stdlib Require Import ZArith Ascii String Lia.
From stdpp Require Import base option list sets strings pretty.
From S2P Require Import Prelude RustStr CoreTypes.
Local Open Scope string_scope.
Local Open Scope list_scope.
Local Open Scope Z_scope.

Module Plugin.

Definition ABI_VERSION : Z := 1.
(** [pulsate-sdk]: the version the guest side is compiled for, and the function
    its macro exports. *)
Definition SDK_ABI_VERSION : Z := 1.
Definition declared_pulsate_abi_version : Z := SDK_ABI_VERSION.

Definition MAX_MEMORY_BYTES : Z := Z.shiftl 16 20.
Definition MAX_TABLE_ELEMENTS : Z := 10000.

Record Capabilities := mk_capabilities { log : bool }.
Definition capabilities_default : Capabilities := mk_capabilities false.

Record PluginError := mk_plugin_error { plugin_code : Code; plugin_message : string }.
Definition plugin_error_display (e : PluginError) : string :=
  "[" +:+ code_display (plugin_code e) +:+ "] " +:+ plugin_message e.

Record RunResult := mk_run { output : Z; run_logs : list Z; fuel_used : Z }.

Record StoreLimits := mk_limits { memory_size : Z; table_elements : Z; instances : Z; tables : Z; memories : Z }.
Record HostState := mk_host { host_logs : list Z; limits : StoreLimits }.

Definition store_limits : StoreLimits := mk_limits MAX_MEMORY_BYTES MAX_TABLE_ELEMENTS 1 1 1.

(** A host function, under its module and name. *)
Record HostFn := mk_host_fn { import_module : string; import_name : string; body : Z -> HostState -> HostState }.
Definition Linker := list HostFn.

(** The guest's call of the [i]-th linked function. *)
Record HostCall := mk_call { callee : nat; argument : Z }.

Record GuestAction (A : Type) := mk_action { result : string + A; host_calls : list HostCall; fuel_left : Z }.
Arguments mk_action {A}.
Arguments result {A}.
Arguments host_calls {A}.
Arguments fuel_left {A}.

(** ** Wasmtime *)
Class Engine := {
  Wasm : Type;                                   (* a compiled module *)
  Instance_ : Type;
  engine_new : option string;                    (* the error of [Engine::new] *)
  compile_module : string -> string + Wasm;
  exports : Wasm -> list string;
  imports : Wasm -> list (string * string);
  set_fuel : option string;
  func_wrap : Linker -> HostFn -> string + Linker;
  instantiate : Linker -> StoreLimits -> Wasm -> Z -> GuestAction Instance_;
  get_typed_func : Instance_ -> string -> option string;       (* the error *)
  call : Instance_ -> string -> option Z -> Z -> GuestAction (Z * Instance_)
}.

Section Host.
Context `{Engine}.

Definition err {A} (code : Code) (message : string) : PluginError + A := inl (mk_plugin_error code message).

Definition plugin_host_new : PluginError + unit :=
  match engine_new with
  | Some e => err PLG_LOAD ("engine init failed: " +:+ e)
  | None => inr tt
  end.

Record Plugin := mk_plugin { module_ : Wasm; plugin_name : string }.

Definition required_exports : list string := ["pulsate_abi_version"; "eval"].

Definition load_plugin (name bytes : string) : PluginError + Plugin :=
  match compile_module bytes with
  | inl e => err PLG_LOAD ("plugin `" +:+ name +:+ "` failed to compile: " +:+ e)
  | inr module =>
    match filter (fun required => required ∉ exports module) required_exports with
    | required :: _ => err PLG_ABI ("plugin `" +:+ name +:+ "` is missing required export `" +:+ required +:+ "`")
    | [] => inr (mk_plugin module name)
    end
  end.

(** The store: the host's data and the fuel. *)
Record Store := mk_store { data : HostState; fuel : Z }.

(** An action of the engine runs the host functions it calls on the data. *)
Definition perform {A} (linker : Linker) (act : Z -> GuestAction A) (s : Store) : (string + A) * Store :=
  let a := act (fuel s) in
  let host_call (d : HostState) (c : HostCall) := match linker !! callee c with Some f => body f (argument c) d | None => d end in
  (result a, mk_store (foldl host_call (data s) (host_calls a)) (fuel_left a)).

Definition log_fn : HostFn := mk_host_fn "pulsate" "log" (fun x d => mk_host (host_logs d ++ [x]) (limits d)).

Definition link (caps : Capabilities) : PluginError + Linker :=
  if log caps then
    match func_wrap [] log_fn with
    | inl e => err PLG_LOAD ("linker error: " +:+ e)
    | inr linker => inr linker
    end
  else inr [].

Definition instantiate_error (p : Plugin) (msg : string) : PluginError :=
  if contains "unknown import" msg || contains "incompatible import" msg then
    mk_plugin_error PLG_CAPABILITY ("plugin `" +:+ plugin_name p +:+ "` requires an ungranted capability: " +:+ msg)
  else mk_plugin_error PLG_LOAD ("instantiate failed: " +:+ msg).

(** The ABI check. *)
Definition check_abi (linker : Linker) (instance : Instance_) (s : Store) : (PluginError + Instance_) * Store :=
  match get_typed_func instance "pulsate_abi_version" with
  | Some e => (err PLG_ABI ("no ABI export: " +:+ e), s)
  | None =>
    match perform linker (call instance "pulsate_abi_version" None) s with
    | (inl e, s) => (err PLG_ABI ("ABI call trapped: " +:+ e), s)
    | (inr (version, instance), s) =>
      if version =? ABI_VERSION then (inr instance, s)
      else (err PLG_ABI ("plugin ABI " +:+ pretty version +:+ " != host ABI " +:+ pretty ABI_VERSION), s)
    end
  end.

Definition run_eval (linker : Linker) (p : Plugin) (budget input : Z) (instance : Instance_) (s : Store) : PluginError + RunResult :=
  match get_typed_func instance "eval" with
  | Some e => err PLG_LOAD ("no eval export: " +:+ e)
  | None =>
    match perform linker (call instance "eval" (Some input)) s with
    | (inr (out, _), s) => inr (mk_run out (host_logs (data s)) (saturating_sub budget (fuel s)))
    | (inl trap, s) =>
      if fuel s =? 0 then err PLG_FUEL ("plugin `" +:+ plugin_name p +:+ "` exhausted its fuel budget")
      else err PLG_TRAPPED ("plugin `" +:+ plugin_name p +:+ "` trapped: " +:+ trap)
    end
  end.

Definition run_plugin (p : Plugin) (caps : Capabilities) (budget input : Z) : PluginError + RunResult :=
  let store := mk_store (mk_host [] store_limits) budget in
  match set_fuel with
  | Some e => err PLG_LOAD ("set_fuel failed: " +:+ e)
  | None =>
    match link caps with
    | inl e => inl e
    | inr linker =>
      match perform linker (instantiate linker (limits (data store)) (module_ p)) store with
      | (inl msg, _) => inl (instantiate_error p msg)
      | (inr instance, s) =>
        match check_abi linker instance s with
        | (inl e, _) => inl e
        | (inr instance, s) => run_eval linker p budget input instance s
        end
      end
    end
  end.
End Host.
End Plugin.
