(* ===== verification/PluginProps.v ===== *)
(** * [pulsate-plugin]: the sandbox

    What the host guarantees of any engine that keeps its documented promises:
    fuel only decreases, a guest calls only what its linker defines, and an
    undefined import fails instantiation.  A small engine shows that the
    promises can be kept, and what the host reports when fuel ends outside of
    [eval]. *)

From Stdlib Require Import ZArith Ascii String Lia.
From stdpp Require Import base option list sets strings pretty.
From S2P Require Import Prelude RustStr CoreTypes Plugin.
Import Plugin.
Local Open Scope string_scope.
Local Open Scope list_scope.
Local Open Scope Z_scope.

(** ** The promises *)
Definition provides (linker : Linker) (i : string * string) : Prop :=
  Exists (fun f => (import_module f, import_name f) = i) linker.

Definition well_behaved {A} (n : nat) (budget : Z) (a : GuestAction A) : Prop :=
  0 <= fuel_left a <= budget /\ Forall (fun c => (callee c < n)%nat) (host_calls a).

Class EngineLaws `(Engine) := {
  linked_to : Instance_ -> nat -> Prop;
  fuel_enabled : set_fuel = None;
  wrap_first f : func_wrap [] f = inr [f];
  import_undefined linker l m n i : i ∈ imports m -> ~ provides linker i ->
    exists msg, result (instantiate linker l m n) = inl msg /\ contains "unknown import" msg = true;
  instantiate_behaved linker l m n : 0 <= n -> well_behaved (length linker) n (instantiate linker l m n);
  instantiate_linked linker l m n i : result (instantiate linker l m n) = inr i -> linked_to i (length linker);
  call_behaved i k f x n : linked_to i k -> 0 <= n -> well_behaved k n (call i f x n);
  call_linked i k f x n v j : linked_to i k -> result (call i f x n) = inr (v, j) -> linked_to j k
}.

Section Sandbox.
Context `{L : EngineLaws}.

(** What an action adds to the log, with and without the capability. *)
Definition granted (caps : Capabilities) : Linker := if log caps then [log_fn] else [].

Lemma link_granted caps : link caps = inr (granted caps).
Proof. unfold link, granted. destruct (log caps); [|done]. by rewrite wrap_first. Qed.

Definition logged {A} (a : GuestAction A) : list Z := argument <$> host_calls a.

Lemma perform_spec {A} caps (act : Z -> GuestAction A) d n :
  well_behaved (length (granted caps)) n (act n) ->
  perform (granted caps) act (mk_store d n)
  = (result (act n), mk_store (mk_host (host_logs d ++ logged (act n)) (limits d)) (fuel_left (act n))).
Proof.
  intros [_ Hc]. unfold perform. cbv zeta. cbn [data fuel]. do 2 f_equal. unfold logged.
  revert Hc. generalize (host_calls (act n)) as cs. unfold granted.
  intros cs. revert d. induction cs as [|c cs IH]; intros d Hc; [by destruct d; rewrite app_nil_r|].
  apply Forall_cons in Hc as [Hc Hcs]. cbn [foldl]. rewrite IH by done.
  destruct (log caps); cbn in Hc; [|lia]. replace (callee c) with O by lia. cbn. by rewrite <-app_assoc.
Qed.

Lemma logged_nothing {A} caps n (a : GuestAction A) : log caps = false -> well_behaved (length (granted caps)) n a -> logged a = [].
Proof.
  intros E [_ Hc]. unfold granted in Hc. rewrite E in Hc. unfold logged. destruct (host_calls a) as [|c cs]; [done|].
  apply Forall_cons in Hc as [Hc _]. cbn in Hc. lia.
Qed.

(** The host, with the engine's actions in place of its stores. *)
Lemma run_plugin_spec p caps budget input : 0 <= budget ->
  run_plugin p caps budget input =
  let a1 := instantiate (granted caps) store_limits (module_ p) budget in
  match result a1 with
  | inl msg => inl (instantiate_error p msg)
  | inr i =>
    match get_typed_func i "pulsate_abi_version" with
    | Some e => err PLG_ABI ("no ABI export: " +:+ e)
    | None =>
      let a2 := call i "pulsate_abi_version" None (fuel_left a1) in
      match result a2 with
      | inl e => err PLG_ABI ("ABI call trapped: " +:+ e)
      | inr (version, j) =>
        if version =? ABI_VERSION then
          match get_typed_func j "eval" with
          | Some e => err PLG_LOAD ("no eval export: " +:+ e)
          | None =>
            let a3 := call j "eval" (Some input) (fuel_left a2) in
            match result a3 with
            | inr (out, _) => inr (mk_run out (logged a1 ++ logged a2 ++ logged a3) (budget - fuel_left a3))
            | inl trap =>
              if fuel_left a3 =? 0 then err PLG_FUEL ("plugin `" +:+ plugin_name p +:+ "` exhausted its fuel budget")
              else err PLG_TRAPPED ("plugin `" +:+ plugin_name p +:+ "` trapped: " +:+ trap)
            end
          end
        else err PLG_ABI ("plugin ABI " +:+ pretty version +:+ " != host ABI " +:+ pretty ABI_VERSION)
      end
    end
  end.
Proof.
  intros Hb. unfold run_plugin. cbv zeta. rewrite fuel_enabled, link_granted. cbn [data limits].
  pose proof (instantiate_behaved (granted caps) store_limits (module_ p) budget Hb) as W1.
  pose proof (instantiate_linked (granted caps) store_limits (module_ p) budget) as K1.
  rewrite perform_spec by done. destruct W1 as [F1 _].
  destruct (instantiate _ _ _ _) as [[msg|i] c1 n1]; [done|]. specialize (K1 i eq_refl). cbn [result fuel_left] in *.
  unfold check_abi. destruct (get_typed_func i _); [done|].
  pose proof (call_behaved i _ "pulsate_abi_version" None n1 K1 ltac:(lia)) as W2.
  pose proof (fun v j => call_linked i _ "pulsate_abi_version" None n1 v j K1) as K2.
  rewrite perform_spec by done. destruct W2 as [F2 _].
  destruct (call i _ _ _) as [[e|[version j]] c2 n2]; [done|]. cbn [result fuel_left] in *. specialize (K2 _ j eq_refl).
  destruct (version =? ABI_VERSION); [|done]. unfold run_eval. destruct (get_typed_func j _); [done|].
  pose proof (call_behaved j _ "eval" (Some input) n2 K2 ltac:(lia)) as W3.
  rewrite perform_spec by done. destruct W3 as [F3 _].
  destruct (call j _ _ _) as [[trap|[out k]] c3 n3]; cbn [result fuel_left fuel data host_logs] in *; [done|].
  do 2 f_equal; [by rewrite <-app_assoc|]. unfold saturating_sub. lia.
Qed.

(** C24. A plugin stays in its sandbox: with any import beyond [pulsate::log], or
    that one without its grant, it is refused with [PLG_CAPABILITY]; a run that
    returns used at most its budget of fuel, and without the grant logged
    nothing. *)
Theorem plugin_sandboxed p caps budget input : 0 <= budget ->
  (forall i, i ∈ imports (module_ p) -> i <> ("pulsate", "log") \/ log caps = false ->
     exists e, run_plugin p caps budget input = inl e /\ plugin_code e = PLG_CAPABILITY)
  /\ (forall r, run_plugin p caps budget input = inr r ->
       (forall i, i ∈ imports (module_ p) -> i = ("pulsate", "log") /\ log caps = true)
       /\ 0 <= fuel_used r <= budget
       /\ (log caps = false -> run_logs r = [])).
Proof.
  intros Hb.
  assert (Hdenied : forall i, i ∈ imports (module_ p) -> i <> ("pulsate", "log") \/ log caps = false ->
     exists e, run_plugin p caps budget input = inl e /\ plugin_code e = PLG_CAPABILITY).
  { intros i Hi Hg. rewrite run_plugin_spec by done. cbv zeta.
    destruct (import_undefined (granted caps) store_limits (module_ p) budget i Hi) as (msg & -> & Hmsg).
    - unfold provides, granted. destruct (log caps); [|by intros ?%Exists_nil].
      destruct Hg as [Hg|]; [|done]. intros [E|?%Exists_nil]%Exists_cons; [|done]. by apply Hg.
    - eexists. split; [done|]. unfold instantiate_error. by rewrite Hmsg. }
  split; [exact Hdenied|]. intros r Hr. split.
  { intros i Hi. destruct (decide (i = ("pulsate", "log"))) as [->|Hne]; [destruct (log caps) eqn:E; [done|]|];
      [destruct (Hdenied _ Hi (or_intror eq_refl)) as (e & He & _)|destruct (Hdenied i Hi (or_introl Hne)) as (e & He & _)]; congruence. }
  revert Hr. rewrite run_plugin_spec by done. cbv zeta.
  pose proof (instantiate_behaved (granted caps) store_limits (module_ p) budget Hb) as W1.
  destruct (result (instantiate _ _ _ _)) as [?|i] eqn:R1; [done|]. pose proof (instantiate_linked _ _ _ _ _ R1) as K1.
  destruct (get_typed_func i _); [done|].
  pose proof (call_behaved i _ "pulsate_abi_version" None _ K1 (proj1 (proj1 W1))) as W2.
  destruct (result (call i _ _ _)) as [?|[version j]] eqn:R2; [done|]. pose proof (call_linked i _ _ _ _ _ _ K1 R2) as K2.
  destruct (version =? ABI_VERSION); [|done]. destruct (get_typed_func j _); [done|].
  pose proof (call_behaved j _ "eval" (Some input) _ K2 (proj1 (proj1 W2))) as W3.
  destruct (result (call j _ _ _)) as [?|[out k]] eqn:R3; [by destruct (_ =? 0)|]. intros [= <-]. cbn [fuel_used run_logs].
  split; [destruct W1, W2, W3; lia|]. intros E.
  by rewrite (logged_nothing _ _ _ E W1), (logged_nothing _ _ _ E W2), (logged_nothing _ _ _ E W3).
Qed.

(** The function the macro of the guest kit declares passes the ABI check. *)
Lemma declared_abi_accepted i j m s :
  get_typed_func i "pulsate_abi_version" = None ->
  call i "pulsate_abi_version" None (fuel s) = mk_action (inr (declared_pulsate_abi_version, j)) [] m ->
  check_abi [] i s = (inr j, mk_store (data s) m).
Proof. intros Hg Hc. unfold check_abi, perform. by rewrite Hg, Hc. Qed.

(** A run has come to [eval] with an instance of the right ABI, and [n] fuel. *)
Definition reaches_eval (p : Plugin) (caps : Capabilities) (budget : Z) (j : Instance_) (n : Z) : Prop :=
  exists i, result (instantiate (granted caps) store_limits (module_ p) budget) = inr i
    /\ get_typed_func i "pulsate_abi_version" = None
    /\ result (call i "pulsate_abi_version" None (fuel_left (instantiate (granted caps) store_limits (module_ p) budget)))
       = inr (ABI_VERSION, j)
    /\ get_typed_func j "eval" = None
    /\ n = fuel_left (call i "pulsate_abi_version" None (fuel_left (instantiate (granted caps) store_limits (module_ p) budget))).

(** Every failure of a run has one of the five [PLG] codes; those of a trap
    and of spent fuel are used only for [eval], after the ABI check, and tell
    them apart by the fuel that is left; and the answer of an [eval] that
    returns is what the run returns. *)
Theorem plugin_errors p caps budget input : 0 <= budget ->
  (forall e, run_plugin p caps budget input = inl e ->
     plugin_code e ∈ [PLG_LOAD; PLG_CAPABILITY; PLG_ABI; PLG_FUEL; PLG_TRAPPED])
  /\ (forall j n, reaches_eval p caps budget j n ->
       let a := call j "eval" (Some input) n in
       match result a with
       | inr (v, _) => exists r, run_plugin p caps budget input = inr r /\ output r = v /\ fuel_used r = budget - fuel_left a
       | inl _ => exists e, run_plugin p caps budget input = inl e
           /\ plugin_code e = if fuel_left a =? 0 then PLG_FUEL else PLG_TRAPPED
       end)
  /\ (forall e, run_plugin p caps budget input = inl e -> plugin_code e = PLG_FUEL \/ plugin_code e = PLG_TRAPPED ->
       exists j n, reaches_eval p caps budget j n).
Proof.
  intros Hb. rewrite !run_plugin_spec by done. cbv zeta. split_and!.
  - intros e. destruct (result (instantiate _ _ _ _)) as [msg|i].
    { intros [= <-]. unfold instantiate_error. destruct (_ || _); cbn; set_solver. }
    repeat first [ case_match | progress intros [= <-] | progress cbn; set_solver | done ].
  - intros j n (i & -> & -> & -> & -> & ->). rewrite Z.eqb_refl.
    destruct (result (call j _ _ _)) as [trap|[v k]]; [|by eexists]. destruct (_ =? 0); by eexists.
  - intros e. destruct (result (instantiate _ _ _ _)) as [msg|i] eqn:R1.
    { intros [= <-]. unfold instantiate_error. destruct (_ || _); by intros [?|?]. }
    destruct (get_typed_func i _) eqn:G1; [intros [= <-]; by intros [?|?]|].
    destruct (result (call i _ _ _)) as [?|[version j]] eqn:R2; [intros [= <-]; by intros [?|?]|].
    destruct (Z.eqb_spec version ABI_VERSION) as [->|]; [|intros [= <-]; by intros [?|?]].
    destruct (get_typed_func j _) eqn:G2; [intros [= <-]; by intros [?|?]|]. intros _ _.
    eexists j, _, i. by split_and!.
Qed.
End Sandbox.

(** ** A small engine

    Straight-line guests; every instruction costs one unit of fuel. *)
Module Toy.
Inductive Instr := CallLog | AddConst (k : Z) | Unreachable | Spin.

Record Wat := mk_wat { wat_imports : list (string * string); start : list Instr; abi : list Instr; eval : list Instr }.

Definition out_of_fuel : string := "all fuel consumed by WebAssembly".

Fixpoint toy_exec (n : nat) (code : list Instr) (x fuel : Z) : GuestAction Z :=
  match code with
  | [] => mk_action (inr x) [] fuel
  | i :: code =>
    if fuel <=? 0 then mk_action (inl out_of_fuel) [] fuel
    else match i with
         | CallLog =>
           if (n =? 0)%nat then mk_action (inl "unlinked") [] (fuel - 1)
           else let a := toy_exec n code x (fuel - 1) in mk_action (result a) (mk_call 0 x :: host_calls a) (fuel_left a)
         | AddConst k => toy_exec n code (x + k) (fuel - 1)
         | Unreachable => mk_action (inl "wasm trap: unreachable") [] (fuel - 1)
         | Spin => mk_action (inl out_of_fuel) [] 0
         end
  end.

Definition map_action {A B} (f : A -> B) (a : GuestAction A) : GuestAction B :=
  mk_action (match result a with inl e => inl e | inr x => inr (f x) end) (host_calls a) (fuel_left a).

Definition defined (l : Linker) (i : string * string) : bool :=
  existsb (fun f => bool_decide ((import_module f, import_name f) = i)) l.

#[local] Instance toy_engine : Engine := {|
  Wasm := Wat;
  Instance_ := Wat * nat;
  engine_new := None;
  compile_module _ := inl "no parser";
  exports _ := ["pulsate_abi_version"; "eval"];
  imports := wat_imports;
  set_fuel := None;
  func_wrap l f := inr (l ++ [f]);
  instantiate l _ m n :=
    if forallb (defined l) (wat_imports m)
    then map_action (fun _ => (m, length l)) (toy_exec (length l) (start m) 0 n)
    else mk_action (inl "unknown import: has not been defined") [] n;
  get_typed_func _ _ := None;
  call '(m, k) f x n :=
    map_action (fun v => (v, (m, k))) (toy_exec k (if (f =? "eval")%string then eval m else abi m) (default 0 x) n)
|}.

Lemma exec_behaved k code : forall x n, 0 <= n -> well_behaved k n (toy_exec k code x n).
Proof.
  induction code as [|i code IH]; intros x n Hn; cbn [toy_exec]; [split; [cbn; lia|constructor]|].
  destruct (Z.leb_spec n 0); [split; [cbn; lia|constructor]|]. destruct i.
  - destruct (Nat.eqb_spec k 0); [split; [cbn; lia|constructor]|].
    destruct (IH x (n - 1) ltac:(lia)) as [Hf Hc]. split; [cbn; lia|]. constructor; [cbn; lia|done].
  - destruct (IH (x + k0) (n - 1) ltac:(lia)) as [Hf Hc]. split; [lia|done].
  - split; [cbn; lia|constructor].
  - split; [cbn; lia|constructor].
Qed.

Lemma map_behaved {A B} (f : A -> B) k n a : well_behaved k n a -> well_behaved k n (map_action f a).
Proof. done. Qed.

#[local] Program Instance toy_laws : EngineLaws toy_engine := {| linked_to i k := snd i = k |}.
Next Obligation. done. Qed.
Next Obligation. done. Qed.
Next Obligation.
  intros l lim m n i Hi Hp. cbn. destruct (forallb _ _) eqn:E; [|by eexists]. exfalso. apply Hp.
  rewrite forallb_forall in E. specialize (E i (proj1 (list_elem_of_In _ _) Hi)). unfold defined in E.
  apply existsb_exists in E as (f & Hf & Hd). apply Exists_exists. exists f. split; [by apply list_elem_of_In|].
  by apply bool_decide_eq_true_1 in Hd.
Qed.
Next Obligation.
  intros l lim m n Hn. cbn. destruct (forallb _ _); [by apply map_behaved, exec_behaved|]. split; [cbn; lia|constructor].
Qed.
Next Obligation.
  intros l lim m n i. cbn. destruct (forallb _ _); [|done]. cbn. destruct (result _); [done|]. by intros [= <-].
Qed.
Next Obligation. intros [m k'] k f x n Hk Hn. cbn in *. subst. by apply map_behaved, exec_behaved. Qed.
Next Obligation. intros [m k'] k f x n v j Hk. cbn in *. subst. destruct (result _); [done|]. by intros [= <- <-]. Qed.

(** A plugin that logs and returns twice its input plus one. *)
Definition doubler : Plugin := mk_plugin (mk_wat [("pulsate", "log")] [] [AddConst 1] [CallLog; AddConst 22]) "doubler".
Definition with_log : Capabilities := mk_capabilities true.

Example doubler_runs : run_plugin doubler with_log 100 20 = inr (mk_run 42 [20] 3).
Proof. reflexivity. Qed.

Example plugin_sandboxed_witness :
  exists e, run_plugin doubler capabilities_default 100 20 = inl e /\ plugin_code e = PLG_CAPABILITY.
Proof.
  destruct (plugin_sandboxed doubler capabilities_default 100 20) as [H _]; [lia|].
  apply (H ("pulsate", "log")); [by left|by right].
Defined.

(** A plugin whose [eval] never ends. *)
Definition spinner : Plugin := mk_plugin (mk_wat [] [] [AddConst 1] [Spin]) "spin".

Example plugin_errors_witness :
  exists e, run_plugin spinner with_log 100 1 = inl e /\ plugin_code e = PLG_FUEL.
Proof.
  destruct (plugin_errors spinner with_log 100 1) as (_ & H & _); [lia|].
  apply (H (module_ spinner, 1%nat) 99). exists (module_ spinner, 1%nat). by split_and!.
Defined.

(** Fuel that ends in the start function or in the ABI function is not reported
    as spent fuel, and both run before the ABI is known. *)
Lemma fuel_outside_eval :
  (exists m, run_plugin (mk_plugin (mk_wat [] [] [Spin] []) "p") capabilities_default 100 1 = inl (mk_plugin_error PLG_ABI m))
  /\ (exists m, run_plugin (mk_plugin (mk_wat [] [Spin] [AddConst 1] []) "p") capabilities_default 100 1 = inl (mk_plugin_error PLG_LOAD m)).
Proof. split; by eexists. Qed.

(** An [eval] that traps with its last unit of fuel is reported as having spent
    its budget. *)
Lemma trap_on_last_unit :
  exists m, run_plugin (mk_plugin (mk_wat [] [] [AddConst 1] [Unreachable]) "p") capabilities_default 2 1 = inl (mk_plugin_error PLG_FUEL m).
Proof. by eexists. Qed.
End Toy.
