(* ===== verification/Cli.v ===== *)
(** * [pulsate-cli]: the commands

    [Ui]: the lines of the terminal.  [Commands]: each subcommand but [up] as a
    function of what it reads to its [Outcome].  [Up]: the start of the gateway,
    a program that logs, binds, writes the token file and spawns tasks, and may
    return early with an exit code.  [Entry]: the binary, from parsed arguments
    to an exit code. *)

From Stdlib Require Import ZArith Ascii String Lia.
From stdpp Require Import base option list gmap strings pretty.
From S2P Require Import Prelude RustStr RustNet CoreTypes FlowSyntax Waf Cache Pipeline Router Proxy Observe Handlers Serve Http3 ConfigModel Config ConfigStore ConfigRouter Control Acme K8s Migrate Net Plugin.
Local Open Scope string_scope.
Local Open Scope list_scope.
Local Open Scope Z_scope.

(** ** The terminal *)
Module Ui.
Definition TAGLINE : string := "one binary · one config · one request path".

Definition decorate (no_color stderr_is_tty : bool) : bool := negb no_color && stderr_is_tty.

(** [truecolor] is the escape sequence owo-colors puts around a text. *)
Section Terminal.
Variable truecolor : Z * Z * Z -> string -> string.
Definition ACCENT : Z * Z * Z := (61, 163, 140).

Definition step_line (enabled : bool) (msg : string) : string :=
  (if enabled then truecolor ACCENT "✓" else "✓") +:+ " " +:+ msg +:+ nl.
Definition error_line (enabled : bool) (msg : string) : string :=
  (if enabled then truecolor (220, 80, 80) "✗" else "✗") +:+ " " +:+ msg +:+ nl.

(** A spinner without decoration is inert: its end is the plain line. *)
Definition finish_ok_line (bar : bool) (msg : string) : string :=
  if bar then truecolor ACCENT "✓" +:+ " " +:+ msg else step_line false msg.
Definition finish_err_line (bar : bool) (msg : string) : string :=
  if bar then truecolor (220, 80, 80) "✗" +:+ " " +:+ msg else error_line false msg.
End Terminal.
End Ui.

(** ** The commands *)
Module Commands.
Definition OK : Z := 0.
Definition RUNTIME : Z := 1.
Definition CONFIG_INVALID : Z := 2.

Record CommandOutcome := mk_outcome { code : Z; stdout : string; stderr : string }.
Definition outcome_ok (stdout : string) : CommandOutcome := mk_outcome OK stdout "".
Definition outcome_fail (code : Z) (stderr : string) : CommandOutcome := mk_outcome code "" stderr.

Section Commands.
(** [compile] of [pulsate-config] in the environment of the process, what the
    file system answers, and renderings of the standard library. *)
Variable compile : string -> Z -> exec (list Diagnostic) Compile.Compiled.
Variable read_to_string : string -> string + string.
Variable read_bytes : string -> string + string.
Variable debug_str : string -> string.
Variable debug_config : Model.Config -> string.

Definition cannot_read (name e : string) : CommandOutcome :=
  outcome_fail RUNTIME ("pulsate: cannot read " +:+ name +:+ ": " +:+ e +:+ nl).

Definition validate_text (name text : string) : exec () CommandOutcome :=
  let source := source_new name text in
  match compile text 0 with
  | Ok compiled =>
    rendered ← Controller.render_all source (Compile.warnings compiled);
    let out := String.concat "" ((fun r => r +:+ nl) <$> rendered) in
    let sites := length (Model.sites (Compile.config compiled)) in
    let ups := length (Model.upstreams (Compile.config compiled)) in
    Ok (outcome_ok (out +:+ "ok: " +:+ name +:+ " is valid — " +:+ show_nat sites +:+ " site(s), " +:+ show_nat ups
      +:+ " upstream(s), snapshot " +:+ snapshot_id_display (snapshot_id (Compile.snapshot compiled)) +:+ nl))
  | Err diags =>
    rendered ← Controller.render_all source diags;
    let out := String.concat "" ((fun r => r +:+ nl) <$> rendered) in
    Ok (outcome_fail CONFIG_INVALID
      (out +:+ "error: " +:+ name +:+ " is invalid — " +:+ show_nat (length diags) +:+ " problem(s) found" +:+ nl))
  | Panic => Panic
  | OutOfFuel => OutOfFuel
  end.

Definition validate_path (path : string) : exec () CommandOutcome :=
  match read_to_string path with
  | inl e => Ok (cannot_read path e)
  | inr text => validate_text path text
  end.

Definition is_valid {E A} (r : exec E A) : exec () bool :=
  match r with Ok _ => Ok true | Err _ => Ok false | Panic => Panic | OutOfFuel => OutOfFuel end.

Variable iter : gmap string (list string) -> list (string * list string).

Definition NAMES : string := "nginx, caddy, haproxy, apache".

Definition import_config (format path : string) : exec () CommandOutcome :=
  match Dispatch.parse_source format with
  | None =>
    Ok (outcome_fail RUNTIME
      ("pulsate: unknown import format " +:+ debug_str format +:+ " (use " +:+ NAMES +:+ ")" +:+ nl))
  | Some source =>
    match read_to_string path with
    | inl e => Ok (cannot_read path e)
    | inr text =>
      imported ← Dispatch.import iter source text;
      valid ← is_valid (compile (Migrate.flow imported) 0);
      let report := String.concat "" ((fun l => "# " +:+ l +:+ nl) <$> Text.lines (Migrate.report imported)) in
      Ok (outcome_ok (Migrate.flow imported +:+ nl +:+ "# --- fidelity report ---" +:+ nl +:+ report
        +:+ "# generated Flow compiles: " +:+ (if (valid : bool) then "yes" else "no (review needed)") +:+ nl))
    end
  end.

Definition plugin_run `{Plugin.Engine} (path : string) (input : Z) : CommandOutcome :=
  let fail (e : Plugin.PluginError) := outcome_fail RUNTIME ("pulsate: " +:+ Plugin.plugin_error_display e +:+ nl) in
  match read_bytes path with
  | inl e => cannot_read path e
  | inr bytes =>
    match Plugin.plugin_host_new with
    | inl e => fail e
    | inr _ =>
      match Plugin.load_plugin path bytes with
      | inl e => fail e
      | inr plugin =>
        match Plugin.run_plugin plugin (Plugin.mk_capabilities true) 10000000 input with
        | inr r =>
          outcome_ok ("plugin " +:+ path +:+ ": eval(" +:+ pretty input +:+ ") = " +:+ pretty (Plugin.output r)
            +:+ " (fuel used " +:+ show_u (Plugin.fuel_used r) +:+ ", " +:+ show_nat (length (Plugin.run_logs r))
            +:+ " log line(s))" +:+ nl)
        | inl e => fail e
        end
      end
    end
  end.

Definition config_dump (path : string) : exec () CommandOutcome :=
  match read_to_string path with
  | inl e => Ok (cannot_read path e)
  | inr text =>
    match Store.load compile text with
    | Ok store => Ok (outcome_ok (debug_config (Store.gen_config (Store.current store)) +:+ nl))
    | Err diags =>
      rendered ← Controller.render_all (source_new path text) diags;
      Ok (outcome_fail CONFIG_INVALID (String.concat "" rendered))
    | Panic => Panic
    | OutOfFuel => OutOfFuel
    end
  end.
End Commands.
End Commands.

(** ** [pulsate up] *)
Module Up.
Record TlsOptions := mk_tls { tls_listen : string; cert : string; key : string }.
Record UpOptions := mk_up {
  config : string;
  listen : string;
  tls : option TlsOptions;
  metrics : option string;
  admin : option string;
  admin_token : option string;
  http3_port : option Z;
}.

Definition token_hex (bytes : list ascii) : string := String.concat "" ((fun b => hex_byte (byte_val b)) <$> bytes).

(** The calls that write the token file. *)
Inductive FileCall := OpenToken (path : string) (mode : Z) | SetMode (path : string) (mode : Z) | WriteAll (path content : string).

Section Up.
Variable compile : string -> Z -> exec (list Diagnostic) Compile.Compiled.
Variable read_to_string : string -> string + string.
Variable read_bytes : string -> string + string.
Variable sock_bind : string -> option string.         (* the error of [pulsate_net::bind] *)
Variable current_dir : string + string.
Variable file_call : FileCall -> option string.
Variable random_bytes : list ascii.                   (* what the system generator fills in *)
Variable sha256 : list ascii -> list ascii.
Variable hmac : list ascii -> list ascii.             (* the audit log's *)
Context {Certificate PrivateKey SigningKey : Type}.
Variable read_certs : string -> string + list Certificate.
Variable read_key : string -> string + option PrivateKey.
Variable any_supported_type : PrivateKey -> string + SigningKey.
(** The error of [pulsate_tls::server_config], displayed. *)
Variable server_config : @Certs.CertResolver Certificate SigningKey -> option string.

(** A listener that serves the gateway has both halves of the [Arc<Gateway>]:
    what never changes, and the state all its requests share. *)
Inductive Task :=
| SignalTask
| MetricsTask (addr : string)
| AdminTask (addr : string) (api : Control.AdminApi)
| HttpTask (addr : string) (cfg : Net.ListenerConfig) (gateway : Serve.Gateway) (shared : Serve.World)
| TlsTask (addr : string) (cfg : Net.ListenerConfig) (gateway : Serve.Gateway) (shared : Serve.World)
    (resolver : @Certs.CertResolver Certificate SigningKey).

(** What the start does, in order. *)
Inductive Effect :=
| Banner
| Spinner (msg : string)
| FinishOk (msg : string)
| FinishErr (msg : string)
| Step (msg : string)
| UiError (msg : string)
| Eprint (text : string)
| File (call : FileCall)
| Spawn (t : Task)
| Await.

(** A piece of it: its effects, then an early return or a value. *)
Definition Start (A : Type) : Type := exec () (list Effect * (Z + A)).
#[local] Instance start_ret : MRet Start := fun A a => Ok ([], inr a).
#[local] Instance start_bind : MBind Start := fun A B f m =>
  match m with
  | Ok (es, inr a) =>
    match f a with
    | Ok (es', r) => Ok (es ++ es', r)
    | Err e => Err e
    | Panic => Panic
    | OutOfFuel => OutOfFuel
    end
  | Ok (es, inl code) => Ok (es, inl code)
  | Err e => Err e
  | Panic => Panic
  | OutOfFuel => OutOfFuel
  end.
Definition emit (e : Effect) : Start unit := Ok ([e], inr tt).
Definition early {A} (code : Z) : Start A := Ok ([], inl code).

(** [generate_token], [token_fingerprint]. *)
Definition generate_token : string := token_hex random_bytes.
Definition token_fingerprint (token : string) : string := token_hex (take 4 (sha256 (bytes_of token))).

(** [write_token_file], on Unix. *)
Definition file_op (call : FileCall) : Start (string + unit) :=
  _ ← emit (File call);
  mret (match file_call call with Some e => inl e | None => inr tt end).
Definition write_token_file (token : string) : Start (string + string) :=
  match current_dir with
  | inl e => mret (inl e)
  | inr dir =>
    let path := Paths.push dir "pulsate-admin-token" in
    opened ← file_op (OpenToken path 384);
    match opened with
    | inl e => mret (inl e)
    | inr _ =>
      moded ← file_op (SetMode path 384);
      match moded with
      | inl e => mret (inl e)
      | inr _ =>
        written ← file_op (WriteAll path token);
        mret (match written with inl e => inl e | inr _ => inr path end)
      end
    end
  end.

(** The configuration, or the exit code. *)
Definition load_config (path : string) : Start Store.ConfigStore :=
  _ ← emit (Spinner ("compiling configuration (" +:+ path +:+ ")"));
  match read_to_string path with
  | inl e =>
    _ ← emit (FinishErr ("cannot read " +:+ path +:+ ": " +:+ e));
    early Commands.RUNTIME
  | inr text =>
    match Store.load compile text with
    | Ok s => _ ← emit (FinishOk "configuration compiled"); mret s
    | Err diags =>
      _ ← emit (FinishErr (path +:+ " is invalid — " +:+ show_nat (length diags) +:+ " problem(s)"));
      match Controller.render_all (source_new path text) diags with
      | Ok rendered => _ ← (Ok (Eprint <$> rendered, inr tt) : Start unit); early Commands.CONFIG_INVALID
      | Err e => Err e
      | Panic => Panic
      | OutOfFuel => OutOfFuel
      end
    | Panic => Panic
    | OutOfFuel => OutOfFuel
    end
  end.

Definition start_metrics (addr : option string) : Start unit :=
  match addr with
  | None => mret tt
  | Some addr =>
    match sock_bind addr with
    | None => _ ← emit (Step ("metrics on http://" +:+ addr +:+ "/metrics")); emit (Spawn (MetricsTask addr))
    | Some e => emit (UiError ("cannot bind metrics " +:+ addr +:+ ": " +:+ e))
    end
  end.

Definition start_admin (addr : option string) (admin_token : option string) (api : string -> Control.AdminApi) : Start unit :=
  match addr with
  | None => mret tt
  | Some addr =>
    let token := default generate_token admin_token in
    match sock_bind addr with
    | Some e => emit (UiError ("cannot bind admin " +:+ addr +:+ ": " +:+ e))
    | None =>
      _ ← emit (Step ("admin + dashboard on http://" +:+ addr +:+ "/"));
      _ ← match admin_token with
          | None =>
            written ← write_token_file token;
            emit match written with
                 | inr path => Step ("generated admin token written to " +:+ path +:+ " (fingerprint " +:+ token_fingerprint token +:+ ")")
                 | inl e => UiError ("could not persist generated admin token (" +:+ e +:+ "); fingerprint " +:+ token_fingerprint token)
                 end
          | Some _ => emit (Step ("admin token fingerprint " +:+ token_fingerprint token))
          end;
      emit (Spawn (AdminTask addr (api token)))
    end
  end.

Definition sizes (gateway : Serve.Gateway) (upstreams : Proxy.Registry) : string :=
  show_nat (Router.site_count (Serve.router gateway)) +:+ " site(s), " +:+ show_nat (Proxy.registry_len upstreams) +:+ " upstream(s)".

Definition start_http (addr : string) (cfg : Net.ListenerConfig) (gateway : Serve.Gateway) (shared : Serve.World) : Start unit :=
  _ ← emit (Spinner ("binding listener on " +:+ addr));
  match sock_bind addr with
  | None =>
    _ ← emit (FinishOk ("listening on http://" +:+ addr +:+ " (" +:+ sizes gateway (Serve.w_upstreams shared) +:+ ")"));
    emit (Spawn (HttpTask addr cfg gateway shared))
  | Some e => _ ← emit (FinishErr ("cannot bind " +:+ addr +:+ ": " +:+ e)); early Commands.RUNTIME
  end.

(** [build_tls_listener]: the task, or the exit code. *)
Definition tls_fail {A} (msg : string) : Start (Z + A) := _ ← emit (UiError msg); mret (inl Commands.RUNTIME).

Definition build_tls_listener (tls : TlsOptions) (gateway : Serve.Gateway) (shared : Serve.World) (cfg : Net.ListenerConfig) : Start (Z + Task) :=
  match read_bytes (cert tls) with
  | inl e => tls_fail ("cannot read cert " +:+ cert tls +:+ ": " +:+ e)
  | inr cert_pem =>
    match read_bytes (key tls) with
    | inl e => tls_fail ("cannot read key " +:+ key tls +:+ ": " +:+ e)
    | inr key_pem =>
      match Certs.certified_key_from_pem read_certs read_key any_supported_type cert_pem key_pem with
      | Err e => tls_fail e
      | Ok ck =>
        let resolver := Certs.set_default ck Certs.resolver_new in
        match server_config resolver with
        | Some e => tls_fail e
        | None =>
          match sock_bind (tls_listen tls) with
          | Some e => tls_fail ("cannot bind " +:+ tls_listen tls +:+ ": " +:+ e)
          | None => mret (inr (TlsTask (tls_listen tls) cfg gateway shared resolver))
          end
        end
      | Panic => Panic
      | OutOfFuel => OutOfFuel
      end
    end
  end.

Definition start_tls (tls : option TlsOptions) (gateway : Serve.Gateway) (shared : Serve.World) (cfg : Net.ListenerConfig) : Start unit :=
  match tls with
  | None => mret tt
  | Some tls =>
    _ ← emit (Spinner ("binding TLS listener on " +:+ tls_listen tls));
    built ← build_tls_listener tls gateway shared cfg;
    match built with
    | inr task => _ ← emit (FinishOk ("listening on https://" +:+ tls_listen tls)); emit (Spawn task)
    | inl code => _ ← emit (FinishErr "TLS listener setup failed"); early code
    end
  end.

(** The shared half of [Gateway::new] in a fresh process: the limiters and the
    cache stores the routing table refers to, the pools, no request counted. *)
Definition fresh_world (cfg : Model.Config) : Serve.World :=
  let '(_, heap, stores) := Build.build_router cfg in
  Serve.mk_world (Build.heap_limiters heap) stores (Build.build_upstreams cfg) 0 Metrics.telemetry_new [].

Definition up_body (opts : UpOptions) : Start unit :=
  _ ← emit Banner;
  store ← load_config (config opts);
  let cfg := Store.gen_config (Store.current store) in
  let alt_svc := http3_port opts ≫= fun p => Http3.alt_svc_value (Http3.http3_enabled p) in
  let gateway := Serve.with_alt_svc alt_svc (Serve.gateway_new (Build.build_router cfg).1.1) in
  let shared := fresh_world cfg in
  let upstreams := Serve.w_upstreams shared in
  _ ← emit (Step ("routing table built — " +:+ sizes gateway upstreams));
  let audit := (append hmac "gateway started" []).2 in
  let listener_cfg := Net.listener_default in
  _ ← emit (Spawn SignalTask);
  _ ← start_metrics (metrics opts);
  _ ← start_admin (admin opts) (admin_token opts)
        (fun token => Control.admin_new store (Serve.router gateway) upstreams (Serve.w_telemetry shared) audit token);
  _ ← start_http (listen opts) listener_cfg gateway shared;
  _ ← start_tls (tls opts) gateway shared listener_cfg;
  _ ← emit Await;
  emit (Step "shutdown complete").

Definition up (opts : UpOptions) : exec () (list Effect * Z) :=
  match up_body opts with
  | Ok (es, inl code) => Ok (es, code)
  | Ok (es, inr _) => Ok (es, Commands.OK)
  | Err e => Err e
  | Panic => Panic
  | OutOfFuel => OutOfFuel
  end.
End Up.

(** The response of the metrics endpoint. *)
Definition crlf : string := String "013" (String "010" "").
Definition metrics_response (body : string) : string :=
  "HTTP/1.1 200 OK" +:+ crlf +:+ "content-type: text/plain; version=0.0.4; charset=utf-8" +:+ crlf
  +:+ "content-length: " +:+ show_nat (String.length body) +:+ crlf +:+ "connection: close" +:+ crlf +:+ crlf +:+ body.

(** One turn of the loop of [serve_metrics]: the lifecycle change it sees, or
    the connection it accepts; whether it goes on, and the response it sends. *)
Inductive MetricsEvent := LifecycleEvent (changed : option Lifecycle) | AcceptEvent (ok : bool).
Definition metrics_turn (telemetry : string) (e : MetricsEvent) : bool * option string :=
  match e with
  | LifecycleEvent None => (false, None)
  | LifecycleEvent (Some l) => (Net.is_running l, None)
  | AcceptEvent false => (true, None)
  | AcceptEvent true => (true, Some (metrics_response telemetry))
  end.

(** [spawn_signal_listener]: the signals of the process in order; the first one
    it waits for sends [Draining], and the sender is dropped. *)
Inductive OsSignal := CtrlC | Sigterm.
Fixpoint signal_listener (sigterm_handler : bool) (signals : list OsSignal) : list Net.NetEvent :=
  match signals with
  | [] => []
  | Sigterm :: signals => if sigterm_handler then [Net.Signal Draining; Net.Close] else signal_listener sigterm_handler signals
  | CtrlC :: _ => [Net.Signal Draining; Net.Close]
  end.
End Up.

(** ** The binary *)
Module Entry.
(** The arguments of [up] as clap leaves them. *)
Record RunUp := mk_run_up {
  r_config : string;
  r_listen : string;
  r_tls_listen : option string;
  r_cert : option string;
  r_key : option string;
  r_metrics : string;
  r_admin : string;
  r_admin_token : option string;
  r_http3_port : option Z;
}.

Inductive Command :=
| CUp (args : RunUp)
| CPlugin (file : string) (input : Z)
| CImport (format file : string)
| CValidate (config : string)
| CConfigDump (config : string)
| CInfo.

Section Entry.
(** [str::parse::<SocketAddr>], with the displayed address, and [{:?}]. *)
Variable parse_addr : string -> string + string.
Variable debug_str : string -> string.

Definition USAGE : Z := 64.

Definition parse_optional_addr (value flag : string) : (string * Z) + option string :=
  if eq_ignore_ascii_case value "off" then inr None
  else match parse_addr value with
       | inr addr => inr (Some addr)
       | inl e => inl ("pulsate: invalid " +:+ flag +:+ " address " +:+ debug_str value +:+ ": " +:+ e +:+ nl, USAGE)
       end.

(** [run_up] up to the runtime: the options, or what is printed and the code. *)
Definition up_options (args : RunUp) : (string * Z) + Up.UpOptions :=
  let tls :=
    match r_tls_listen args, r_cert args, r_key args with
    | None, None, None => inr None
    | Some listen, Some cert, Some key => inr (Some (Up.mk_tls listen cert key))
    | _, _, _ => inl ("pulsate: --tls-listen, --cert, and --key must be provided together" +:+ nl, USAGE)
    end in
  match tls with
  | inl e => inl e
  | inr tls =>
    match parse_optional_addr (r_metrics args) "--metrics" with
    | inl e => inl e
    | inr metrics =>
      match parse_optional_addr (r_admin args) "--admin" with
      | inl e => inl e
      | inr admin =>
        inr (Up.mk_up (r_config args) (r_listen args) tls metrics admin (r_admin_token args) (r_http3_port args))
      end
    end
  end.

(** [emit]: what goes to each stream, and the code. *)
Definition emit_outcome (o : Commands.CommandOutcome) : list (bool * string) * Z :=
  ((if (Commands.stdout o =? "")%string then [] else [(true, Commands.stdout o)])
   ++ (if (Commands.stderr o =? "")%string then [] else [(false, Commands.stderr o)]), Commands.code o).

(** [run_up], given the start of the runtime and of the gateway. *)
Definition run_up {T} (runtime_new : option string) (up : Up.UpOptions -> exec () (T * Z)) (args : RunUp)
    : exec () ((string + T) * Z) :=
  match up_options args with
  | inl (msg, code) => Ok (inl msg, code)
  | inr opts =>
    match runtime_new with
    | Some e => Ok (inl ("pulsate: failed to start runtime: " +:+ e +:+ nl), 1)
    | None => '(effects, code) ← up opts; Ok (inr effects, code)
    end
  end.

(** [print_info] to a stream that is no terminal. *)
Definition info_text (version : string) : string :=
  "pulsate " +:+ version +:+ " — one binary, one config, one command" +:+ nl +:+ nl
  +:+ "  pulsate up <config>          serve a gateway" +:+ nl
  +:+ "  pulsate validate <config>    check a config without starting" +:+ nl
  +:+ "  pulsate import <fmt> <file>  translate nginx/caddy/haproxy/apache to Flow" +:+ nl
  +:+ "  pulsate plugin run <file>    run a WASM plugin" +:+ nl.

(** [run]: what is printed, or the effects of [up], and the exit code. *)
Variable compile : string -> Z -> exec (list Diagnostic) Compile.Compiled.
Variable read_to_string : string -> string + string.
Variable read_bytes : string -> string + string.
Variable debug_config : Model.Config -> string.
Variable iter : gmap string (list string) -> list (string * list string).
Context `{Plugin.Engine}.

Definition printed {T} (o : exec () Commands.CommandOutcome) : exec () ((list (bool * string) + T) * Z) :=
  o ← o; let '(out, code) := emit_outcome o in Ok (inl out, code).

Definition run_command {T} (version : string) (runtime_new : option string) (up : Up.UpOptions -> exec () (T * Z)) (command : option Command)
    : exec () ((list (bool * string) + T) * Z) :=
  match default CInfo command with
  | CInfo => Ok (inl [(true, info_text version)], 0)
  | CValidate config => printed (Commands.validate_path compile read_to_string config)
  | CConfigDump config => printed (Commands.config_dump compile read_to_string debug_config config)
  | CUp args =>
    '(out, code) ← run_up runtime_new up args;
    Ok (match out with inl msg => inl [(false, msg)] | inr effects => inr effects end, code)
  | CPlugin file input => printed (Ok (Commands.plugin_run read_bytes file input))
  | CImport format file => printed (Commands.import_config compile read_to_string debug_str iter format file)
  end.
End Entry.
End Entry.
