(* ===== verification/XTask.v ===== *)
(** * [xtask]: the layering lint

    [lint_layering] reads the manifest of every data-plane crate and looks for
    lines that declare a control-plane one.  The theorems say what a line has to
    look like, when the lint passes, and that the form in which this workspace
    declares its dependencies is not one it sees. *)

From Stdlib Require Import ZArith Ascii String Lia.
From stdpp Require Import base option list strings.
From S2P Require Import Prelude RustStr CoreTypes FlowSyntax Handlers Migrate.
Local Open Scope string_scope.
Local Open Scope list_scope.

Module XTask.
Definition DATA_PLANE : list string :=
  ["pulsate-net"; "pulsate-tls"; "pulsate-http"; "pulsate-http3"; "pulsate-router"; "pulsate-pipeline"; "pulsate-proxy";
   "pulsate-cache"; "pulsate-waf"].
Definition CONTROL_PLANE : list string :=
  ["pulsate-control"; "pulsate-config"; "pulsate-flow"; "pulsate-acme"; "pulsate-cluster"; "pulsate-secrets";
   "pulsate-dashboard"].

Definition line_declares_dep (line crate_name : string) : bool :=
  let line := trim line in
  if starts_with "#" line then false
  else match split_once "=" line with
       | Some (k, _) => (trim k =? crate_name)%string
       | None => false
       end.

Inductive Lint := LintOk (stdout : string) | LintFailed (stderr : list string).

Section Lint.
Variable read_to_string : string -> string + string.

(** The violations of one manifest. *)
Definition violations_of (dp text : string) : list string :=
  omap (fun cp =>
    if existsb (fun l => line_declares_dep l cp) (Text.lines text)
    then Some (dp +:+ " depends on control-plane crate " +:+ cp +:+ " (forbidden by docs/03-repository.md)")
    else None) CONTROL_PLANE.

Fixpoint lint_crates (root : string) (crates : list string) (violations : list string) : string + list string :=
  match crates with
  | [] => inr violations
  | dp :: crates =>
    let manifest := Paths.push (Paths.push (Paths.push root "crates") dp) "Cargo.toml" in
    match read_to_string manifest with
    | inl e => inl ("xtask: cannot read " +:+ manifest +:+ ": " +:+ e)
    | inr text => lint_crates root crates (violations ++ violations_of dp text)
    end
  end.

Definition lint_layering (root : string) : Lint :=
  match lint_crates root DATA_PLANE [] with
  | inl e => LintFailed [e]
  | inr [] =>
    LintOk ("layering OK: " +:+ show_nat (length DATA_PLANE) +:+ " data-plane crates checked against "
      +:+ show_nat (length CONTROL_PLANE) +:+ " control-plane crates")
  | inr violations => LintFailed ("layering violations:" :: ((fun v => "  - " +:+ v) <$> violations))
  end.

Definition manifest_of (root dp : string) : string :=
  Paths.push (Paths.push (Paths.push root "crates") dp) "Cargo.toml".

(** No line of the manifest of [dp] declares a control-plane crate. *)
Definition clean (text : string) : Prop :=
  forall cp l, cp ∈ CONTROL_PLANE -> l ∈ Text.lines text -> line_declares_dep l cp = false.

Lemma violations_clean dp text : violations_of dp text = [] <-> clean text.
Proof.
  unfold violations_of, clean.
  assert (H : forall cps, omap (fun cp => if existsb (fun l => line_declares_dep l cp) (Text.lines text)
      then Some (dp +:+ " depends on control-plane crate " +:+ cp +:+ " (forbidden by docs/03-repository.md)") else None) cps = []
    <-> forall cp l, cp ∈ cps -> l ∈ Text.lines text -> line_declares_dep l cp = false); [|apply H].
  induction cps as [|cp cps IH]; [split; [intros _ ? ? ?%elem_of_nil|]; done|]. cbn [omap list_omap].
  destruct (existsb _ _) eqn:E.
  - split; [done|]. intros Hc. apply existsb_exists in E as (l & Hl & Hd).
    rewrite (Hc cp l) in Hd; [done|by left|by apply list_elem_of_In].
  - rewrite IH. split; intros Hc cp' l Hcp Hl; [|apply Hc; [by right|done]].
    apply elem_of_cons in Hcp as [->|Hcp]; [|by apply Hc]. destruct (line_declares_dep l cp) eqn:Ed; [|done].
    rewrite <-E. symmetry. apply existsb_exists. exists l. split; [by apply list_elem_of_In|done].
Qed.

Lemma lint_crates_spec root crates : forall vs,
  match lint_crates root crates vs with
  | inl _ => exists dp e, dp ∈ crates /\ read_to_string (manifest_of root dp) = inl e
  | inr vs' => (vs' = [] <-> vs = [] /\ forall dp, dp ∈ crates -> exists text, read_to_string (manifest_of root dp) = inr text /\ clean text)
  end.
Proof.
  induction crates as [|dp crates IH]; intros vs; cbn [lint_crates].
  - split; [|by intros [? _]]. intros ->. split; [done|]. by intros ? ?%elem_of_nil.
  - fold (manifest_of root dp). destruct (read_to_string (manifest_of root dp)) as [e|text] eqn:E.
    { exists dp, e. split; [by left|done]. }
    specialize (IH (vs ++ violations_of dp text)). destruct (lint_crates _ _ _) as [e|vs'].
    + destruct IH as (d & e' & ? & ?). exists d, e'. split; [by right|done].
    + rewrite IH, app_nil, violations_clean. split.
      * intros ((? & ?) & Hr). split; [done|]. intros d [->|Hd]%elem_of_cons; [by exists text|by apply Hr].
      * intros [-> Hr]. split_and!; [done| |intros d Hd; apply Hr; by right].
        destruct (Hr dp) as (t & Ht & Hc); [by left|]. rewrite E in Ht. by injection Ht as <-.
Qed.

(** The lint passes exactly when every data-plane manifest can be read and
    none of them has a line that declares a control-plane crate. *)
Theorem lint_passes root :
  (exists out, lint_layering root = LintOk out)
  <-> forall dp, dp ∈ DATA_PLANE -> exists text, read_to_string (manifest_of root dp) = inr text /\ clean text.
Proof.
  unfold lint_layering. pose proof (lint_crates_spec root DATA_PLANE []) as H. destruct (lint_crates _ _ _) as [e|[|v vs]].
  - split; [by intros [? ?]|]. intros Hr. destruct H as (dp & e' & Hdp & He). destruct (Hr dp Hdp) as (t & Ht & _). congruence.
  - split; [intros _; by apply H|intros _; by eexists].
  - split; [by intros [? ?]|]. intros Hr. discriminate (proj2 H (conj eq_refl Hr)).
Qed.
End Lint.

(** The form in which the manifests of the workspace declare a dependency: the
    text before the sign is the name with [.workspace]. *)
Definition workspace_manifest : string :=
  "[dependencies]" +:+ nl +:+ "pulsate-config.workspace = true" +:+ nl +:+ "pulsate-control.workspace = true" +:+ nl.

(** A data plane whose every crate depends on the control plane passes. *)
Lemma workspace_dependencies_unseen :
  line_declares_dep "pulsate-config.workspace = true" "pulsate-config" = false
  /\ line_declares_dep "pulsate-config = { workspace = true }" "pulsate-config" = true
  /\ exists out, lint_layering (fun _ => inr workspace_manifest) "." = LintOk out.
Proof. split_and!; [vm_compute; reflexivity..|]. eexists. vm_compute. reflexivity. Qed.
End XTask.
